(* ===== verification/_CoqProject ===== *)
-Q . S2P
Prelude.v
Lock.v
Signals.v
ByteOrder.v
CRC32.v
Packet.v
Codec.v
StdHeap.v
TimerQueue.v
Timer.v
TimerLoop.v
EventLoop.v
ThreadPool.v
PoolProgress.v
PlainPool.v
PoolTest.v
SessionMgr.v
MemoryPool.v
ObjectPool.v
TcpConnection.v
TcpServer.v
AcceptLoop.v
MessageQueue.v
SubscribeHub.v
Router.v
RouterLock.v
TcpClient.v
Monitor.v
MonitorThreads.v
Logger.v
LoggerTest.v
LogRotate.v
ConfigNode.v
Json.v
Config.v
ConfigTypes.v
CmdLine.v
JsonPrint.v
MonitorJson.v
EndToEnd.v
Handlers.v
SessionFrame.v
SessionJobs.v
Gateway.v
GatewayClient.v
ServerExample.v
Platform.v
SignalHandler.v
Database.v
