(* ===== verification/Prelude.v ===== *)
(** * cpp-server-framework: a verification development

    The repository is a C++17 framework for TCP servers.  This library models its
    components as Rocq functions and transition systems, translated from the code under
    src/, and proves what makes each of them correct, or what exactly it does where it
    is not.

    ** The program and how its parts interact

    A [TcpServer] accepts connections and gives each to a [TcpConnection] with a reader
    and a writer thread; the reader cuts the stream into packets ([protocol::decode_from])
    and hands them to [on_message_], where a program calls [Router::route] and keeps its
    sessions in a [SessionMgr].  A [TcpClient] is the other end.  Work is passed to a
    [ThreadPool] or through a [MessageQueue]; time comes from a [Timer], a [TimerLoop] or
    the timers of an [EventLoop].  [MemoryPool] and [ObjectPool] serve allocations, the
    [Logger] writes from a thread of its own, [Monitor] counts, [Config] and
    [CmdLineParser] read the settings, [SignalHandler] runs the callbacks of a shutdown,
    [ConnectionPool] stands before a database, and the platform adapter before the
    kernel.  [Codec] is a second, independent framing with a CRC.

    ** Files and sources

    Every file opens with the sources it models; its definitions keep their names.
    - [Prelude]: integers of a width, bytes, byte order of values, outcomes of calls,
      buffers, filters; the tactics and hint databases of the library.
    - [ByteOrder], [CRC32], [Codec]: network/codec (classes ByteOrder, CRC32, Codec,
      Packet, ProtoRegistry).
    - [Packet]: network/protocol.
    - [StdHeap], [TimerQueue]: what [std::push_heap] and [std::pop_heap] promise, as a
      class with an executable instance, and the expiry loop that [Timer], [TimerLoop]
      (base/timer) and [EventLoop] (base/event) share; these three are proved against
      the class.
    - [ThreadPool]: core/threadpool and core/task; [PoolProgress]: how far its workers get
      without new tasks, and when [shutdown] returns; [PlainPool]: pools used through
      [append] and [shutdown] only; [PoolTest]: test/threadpool_test.cpp.  [MessageQueue], [SubscribeHub]:
      base/message_queue.
    - [SessionMgr], [Router]: business/session, business/router.  [Lock]: base/lock, threads
      as lists of statements under mutexes and condition variables; [RouterLock]: the
      operations of the router as such statements, with handlers that use the router;
      [Signals]: the signal handlers of the example servers and of test/tcp_test.cpp, with
      the mutexes they take.
    - [MemoryPool], [ObjectPool]: base/memory, base/object_pool.
    - [TcpConnection], [TcpServer], [TcpClient]: network/tcp.  [AcceptLoop]: the loop of the
      accept thread around [TcpServer.accept], with the descriptors epoll knows.
    - [Monitor], [MonitorJson], [MonitorThreads]: core/monitor, the last one its threads and
      the calls that start and stop them.  [Logger], [LogRotate]: base/logger;
      [LoggerTest]: test/logger_test.cpp.
    - [ConfigNode], [Json], [Config], [ConfigTypes], [CmdLine], [JsonPrint]: base/config.
    - [EndToEnd]: no source of its own; client, connection and router composed.
      [Handlers]: the server with a handler that calls it, as in test/tcp_test.cpp, with
      the readers and writers of all sessions as interleaved threads.
    - [Gateway]: example/gateway/gateway.cpp, on the threads of [Handlers] and the workers of
      [ThreadPool]; [SessionFrame] says what one step of the threads does to each session
      of a program whose message handler makes no call of the server, and [GatewayClient] adds
      a client that reads the answers.  [ServerExample]: example/server/main.cpp, the same
      threads and workers with the thread of [Logger].  [SessionJobs] holds the packets that
      wait in the pool of either.
    - [Platform]: adapter and base/time.  [SignalHandler]: base/process.
      [Database]: db.

    ** How the code is read

    - An integer of w bits is a [Z] with its wrap-around written out ([u32], [i64], ...).
      A signed overflow is taken to wrap.  Counters of identifiers (timers, sessions) are
      unbounded.
    - A byte buffer and a [std::string] are lists of bytes; texts that are only passed
      on are [string].  Fields in memory are written for a host of either endianness.
    - A call returns, throws, or has undefined behaviour ([outcome] of [Prelude]).  The
      end of the process ([std::terminate], a signal) is a result of its own.
    - A class is a record of its members, with ghost fields for what it did to its
      surroundings (bytes sent, sockets closed, callbacks called).
    - Threads are steps: an operation is cut where it takes or releases a lock or touches
      an atomic member, and a theorem speaks about every sequence of steps.  A call of
      [ObjectPool] is cut at its critical sections, counters, constructor and callbacks, and
      [TcpConnection::close] at its accesses, for the calls that overlap (elsewhere it is
      one step, and the theorems say so).  Other data races on plain members are not
      modelled: on [sock_] of [TcpConnection] and [TcpClient], and in [Config], which has no
      lock and is used by one thread.
    - A callback that may use the object that calls it is a list of operations of that
      object, a function of its arguments and of the state it finds ([Timer], [Config]); an
      exception leaves the state as far as the code got ([Json], [Config], [ObjectPool]).
    - The kernel, [malloc], SQLite, the clock, [double], [strftime] and the callbacks of a
      program are parameters: their results are arguments of the operations, or functions
      of a class or section.  The order in which an unordered map is walked is a
      parameter or the order of the list that models it.

    ** What the theorems show

    - Framing: [Packet] round trips and the exact behaviour on arbitrary bytes; the codec's
      layout, its decoder as a scan of the stream for valid frames, and the condition under
      which it accepts its own frames; the table-driven CRC is the bit-serial one.
    - Streams: the readers of both ends deliver the packets sent whatever the cutting, the
      writers send the queue in order; [EndToEnd] composes them: what [send] accepted is
      what the handlers are called with, and what was replied is what the client delivers.
      [Handlers] closes the circle: whatever the threads of the server do, a client gets
      the answers its own packets are due, in order, each once.
      [Gateway] puts a pool of workers between reader and answer: every packet is routed
      at most once and answered once, in an order the workers make; [ServerExample] follows
      every packet to its line on the console.
      The lives of connections: one close as long as no two calls of it overlap, one report,
      identifiers of their own; what the accept thread does with the events epoll reports, and when it ends or spins.
    - Timers: exactly the live entries due are run, in order of expiry; nothing runs twice
      or after [cancel]; the loop of [EventLoop] and its descriptors.
    - Threads: tasks are executed at most once and all of them before [shutdown] returns,
      and the schedule in which it never returns; without new tasks the workers come to
      rest, with an empty queue, after a bounded number of steps; messages are delivered in order, once,
      with no receiver asleep beside a queued message; [Lock] gives mutual exclusion and the
      fate of a thread that locks a mutex twice, and [RouterLock] what that means for the
      handlers of a router, and [Signals] for a signal that interrupts a thread inside a guard;
      starting and stopping a service keeps at most one thread.
    - Tables and pools: the invariants and counters of sessions, memory blocks, objects,
      database connections, log entries and the monitor.
    - Text: the readers of JSON and INI files and of the command line against grammars of
      what they are meant to read, the texts on which they do not end, what is lost when a
      configuration is written and read again, and the types of the values it can hold.
    - Tests: which runs of the pool's test pass and which hang, and the outcomes of the
      logger's.
    - Shutdown: order and completeness of the callbacks, and that no signal leads to one.

    ** Recursion and fuel

    Functions are structural wherever the code's loop follows its data.  Fuel is used
    for loops that take bytes off a buffer (the codec's scan, the readers of connections
    and of JSON): it is the length of the buffer plus one and every turn takes at least
    one byte, and theorems state that with this fuel the loop has ended.  Searches
    for a pool size and waits for a flag are bounded by the width of the integer or by a
    list of turns, and where the code does not end the theorem says so for every bound.
    [Config.poll_changes] has a second bound, on polls inside the watchers of polls: one
    is enough unless a watcher polls.

    ** What is not modelled

    - The future that [ThreadPool::append] returns, and a task given to [append_priority]
      that throws, which ends the process.
    - A cancellation while the function of a task runs: [Task::execute] is one step, so that
      it comes before (nothing is called) or after it.
    - The text of the line the monitor logs; its numbers are modelled.
    - The wrappers around [std::atomic], sleeping and thread names in the adapter: no
      behaviour of the repository's own.
    - The Windows branches.  As it stands the source tests them with [#ifdef] on macros
      that are always defined; the branch meant for Linux is read.  Other places that do
      not compile (config.h, event_loop.h, connection_pool.cpp, the subscriptions,
      [ThreadPool::append], the calls of [Logger::init] in examples and tests) are read as what they must mean; the entry of the component in
      PROJECT.json says how.
    - Alignment of memory.  What a signal handler may not do besides locking. *)

From stdpp Require Export prelude gmap strings sorting.
From Stdlib Require Export ZArith Lia.
From Stdlib Require Export Init.Byte.
From Stdlib Require Import Strings.Byte.

Declare Scope cpp_scope.
Delimit Scope cpp_scope with cpp.

(** ** Machine integers

    A C++ integer is a [Z]; arithmetic that the language reduces modulo [2^w]
    is written with the wrap of its width.  Signed widths use two's
    complement. *)

Definition u8 (z : Z) : Z := (z mod 2 ^ 8)%Z.
Definition u16 (z : Z) : Z := (z mod 2 ^ 16)%Z.
Definition u32 (z : Z) : Z := (z mod 2 ^ 32)%Z.
Definition u64 (z : Z) : Z := (z mod 2 ^ 64)%Z.
Definition i32 (z : Z) : Z := ((z + 2 ^ 31) mod 2 ^ 32 - 2 ^ 31)%Z.
Definition i64 (z : Z) : Z := ((z + 2 ^ 63) mod 2 ^ 64 - 2 ^ 63)%Z.

Lemma u16_small z : (0 <= z < 2 ^ 16)%Z -> u16 z = z.
Proof. apply Z.mod_small. Qed.
Lemma u32_small z : (0 <= z < 2 ^ 32)%Z -> u32 z = z.
Proof. apply Z.mod_small. Qed.
Lemma u64_small z : (0 <= z < 2 ^ 64)%Z -> u64 z = z.
Proof. apply Z.mod_small. Qed.
Lemma u16_range z : (0 <= u16 z < 2 ^ 16)%Z.
Proof. apply Z.mod_pos_bound; lia. Qed.
Lemma u32_range z : (0 <= u32 z < 2 ^ 32)%Z.
Proof. apply Z.mod_pos_bound; lia. Qed.
Lemma u64_range z : (0 <= u64 z < 2 ^ 64)%Z.
Proof. apply Z.mod_pos_bound; lia. Qed.
Lemma i32_small z : (- 2 ^ 31 <= z < 2 ^ 31)%Z -> i32 z = z.
Proof. unfold i32; intros. rewrite Z.mod_small; lia. Qed.
Lemma i64_small z : (- 2 ^ 63 <= z < 2 ^ 63)%Z -> i64 z = z.
Proof. unfold i64; intros. rewrite Z.mod_small; lia. Qed.

Create HintDb machine.
Create Rewrite HintDb machine.
#[export] Hint Rewrite u16_small u32_small u64_small i32_small i64_small
  using lia : machine.
#[export] Hint Resolve u16_range u32_range u64_range : machine.

(** ** Bits *)

(** A number below [2^n] has no bit at [n] or above. *)
Lemma testbit_above n z i :
  (0 <= z < 2 ^ n)%Z -> (0 <= n <= i)%Z -> Z.testbit z i = false.
Proof.
  intros Hz Hi. rewrite <-(Z.mod_small z (2 ^ n)) by lia.
  apply Z.mod_pow2_bits_high. lia.
Qed.

(** Two numbers are congruent modulo [2^n] as soon as their low [n] bits agree. *)
Lemma mod_pow2_ext n a b :
  (0 <= n)%Z ->
  (forall i, (0 <= i < n)%Z -> Z.testbit a i = Z.testbit b i) ->
  (a mod 2 ^ n = b mod 2 ^ n)%Z.
Proof.
  intros Hn H. apply Z.bits_inj'; intros i Hi.
  destruct (decide (i < n)%Z).
  - rewrite !Z.mod_pow2_bits_low by lia. apply H; lia.
  - rewrite !Z.mod_pow2_bits_high by lia. done.
Qed.

Lemma lt_pow2_bits n z :
  (0 <= n)%Z -> (0 <= z)%Z ->
  (forall i, (n <= i)%Z -> Z.testbit z i = false) -> (z < 2 ^ n)%Z.
Proof.
  intros Hn Hz H. destruct (decide (z < 2 ^ n)%Z) as [|Hge]; [done|].
  exfalso. assert (z mod 2 ^ n = z)%Z as E.
  { apply Z.bits_inj'; intros i Hi. destruct (decide (i < n)%Z).
    - by rewrite Z.mod_pow2_bits_low by lia.
    - rewrite Z.mod_pow2_bits_high by lia. symmetry; apply H; lia. }
  pose proof (Z.mod_pos_bound z (2 ^ n)). lia.
Qed.

Create Rewrite HintDb bits.
#[export] Hint Rewrite Z.lor_spec Z.land_spec Z.lxor_spec : bits.
#[export] Hint Rewrite Z.shiftr_spec Z.shiftl_spec using lia : bits.
#[export] Hint Rewrite Z.mod_pow2_bits_low Z.mod_pow2_bits_high using lia : bits.
#[export] Hint Rewrite Z.bits_0 andb_false_r andb_true_r andb_false_l
  andb_true_l orb_false_r orb_true_r orb_false_l orb_true_l xorb_false_l
  xorb_false_r : bits.

Lemma lxor_range n a b :
  (0 <= n)%Z -> (0 <= a < 2 ^ n)%Z -> (0 <= b < 2 ^ n)%Z ->
  (0 <= Z.lxor a b < 2 ^ n)%Z.
Proof.
  intros Hn Ha Hb.
  assert (0 <= Z.lxor a b)%Z by (apply Z.lxor_nonneg; lia).
  split; [done|]. apply lt_pow2_bits; [lia..|]. intros i Hi.
  rewrite Z.lxor_spec, !(testbit_above n) by lia. done.
Qed.

Lemma lor_range n a b :
  (0 <= n)%Z -> (0 <= a < 2 ^ n)%Z -> (0 <= b < 2 ^ n)%Z ->
  (0 <= Z.lor a b < 2 ^ n)%Z.
Proof.
  intros Hn Ha Hb.
  assert (0 <= Z.lor a b)%Z by (apply Z.lor_nonneg; lia).
  split; [done|]. apply lt_pow2_bits; [lia..|]. intros i Hi.
  rewrite Z.lor_spec, !(testbit_above n) by lia. done.
Qed.

(** Case analysis of [0 <= i < n] for a small literal [n]: leaves one goal per
    value of [i]. *)
Ltac case_index i n :=
  lazymatch n with
  | O => exfalso; lia
  | S ?m =>
      destruct (decide (i = Z.of_nat m)%Z) as [->|]; [|case_index i m]
  end.

(** Normalises [Z.testbit e i] for a closed index [i] and an expression [e] of
    shifts, masks, disjunctions and truncations: masks and indices evaluate. *)
Ltac eval_bits :=
  repeat match goal with
  | |- context [Z.testbit (Zpos ?p) ?i] =>
      let r := eval vm_compute in (Z.testbit (Zpos p) i) in
      change (Z.testbit (Zpos p) i) with r
  | |- context [Z.testbit (Z.lor _ _) _] => rewrite Z.lor_spec
  | |- context [Z.testbit (Z.land _ _) _] => rewrite Z.land_spec
  | |- context [Z.testbit (Z.lxor _ _) _] => rewrite Z.lxor_spec
  | |- context [Z.testbit (Z.shiftr _ _) _] => rewrite Z.shiftr_spec by lia
  | |- context [Z.testbit (Z.shiftl _ _) _] => rewrite Z.shiftl_spec by lia
  | |- context [Z.testbit (_ mod 2 ^ _)%Z _] =>
      rewrite Z.mod_pow2_bits_low by lia
  | |- context [Z.testbit _ ?i] =>
      let j := eval vm_compute in i in
      lazymatch j with
      | Zneg _ => rewrite (Z.testbit_neg_r _ i) by lia
      | _ => progress change i with j
      end
  end;
  rewrite ?andb_false_r, ?andb_true_r, ?orb_false_r, ?orb_false_l,
    ?xorb_false_r, ?xorb_false_l.

(** ** Bytes

    A [uint8_t], or a [char] of a [std::string] used as a byte container. *)

#[global] Instance byte_eq_dec : EqDecision byte := Byte.byte_eq_dec.

Definition b2z (b : byte) : Z := Z.of_N (Byte.to_N b).

Definition z2b (z : Z) : byte :=
  match Byte.of_N (Z.to_N (u8 z)) with Some b => b | None => x00 end.

Lemma b2z_range b : (0 <= b2z b < 2 ^ 8)%Z.
Proof. unfold b2z. pose proof (Byte.to_N_bounded b). lia. Qed.

Lemma b2z_inj a b : b2z a = b2z b -> a = b.
Proof.
  unfold b2z. intros H%N2Z.inj.
  pose proof (Byte.of_to_N a) as Ha. pose proof (Byte.of_to_N b) as Hb.
  congruence.
Qed.

Lemma b2z_z2b z : b2z (z2b z) = u8 z.
Proof.
  unfold b2z, z2b. pose proof (Z.mod_pos_bound z (2 ^ 8)) as Hz.
  destruct (Byte.of_N _) as [b|] eqn:E.
  - apply Byte.to_of_N in E. rewrite E. unfold u8 in *. lia.
  - apply Byte.of_N_None_iff in E. unfold u8 in *. lia.
Qed.

Lemma z2b_b2z b : z2b (b2z b) = b.
Proof.
  apply b2z_inj. rewrite b2z_z2b. apply Z.mod_small. apply b2z_range.
Qed.

Lemma z2b_ext a b :
  (forall i, (0 <= i < 8)%Z -> Z.testbit a i = Z.testbit b i) -> z2b a = z2b b.
Proof.
  intros H. unfold z2b. replace (u8 a) with (u8 b); [done|].
  symmetry. apply mod_pow2_ext; [lia|done].
Qed.

Lemma z2b_u8 z : z2b (u8 z) = z2b z.
Proof. unfold z2b, u8. by rewrite Z.mod_mod. Qed.

Create HintDb bytes.
Create Rewrite HintDb bytes.
#[export] Hint Rewrite b2z_z2b z2b_b2z z2b_u8 : bytes.
#[export] Hint Resolve b2z_range : bytes.

(** ** Multi-byte integers

    [le_bytes n z] and [be_bytes n z] are the [n] low bytes of [z], least and
    most significant first; [le_val] and [be_val] read them back. *)

Fixpoint le_bytes (n : nat) (z : Z) : list byte :=
  match n with
  | O => []
  | S n' => z2b z :: le_bytes n' (Z.shiftr z 8)
  end.

Fixpoint le_val (bs : list byte) : Z :=
  match bs with
  | [] => 0
  | b :: bs' => Z.lor (b2z b) (Z.shiftl (le_val bs') 8)
  end.

Definition be_bytes (n : nat) (z : Z) : list byte := rev (le_bytes n z).
Definition be_val (bs : list byte) : Z := le_val (rev bs).

Lemma length_le_bytes n z : length (le_bytes n z) = n.
Proof. revert z. induction n; intros z; simpl; auto. Qed.

Lemma length_be_bytes n z : length (be_bytes n z) = n.
Proof. unfold be_bytes. by rewrite length_rev, length_le_bytes. Qed.

Lemma land_byte_shiftl b z : Z.land (b2z b) (Z.shiftl z 8) = 0%Z.
Proof.
  apply Z.bits_inj'; intros i Hi. rewrite Z.land_spec, Z.bits_0.
  destruct (decide (i < 8)%Z).
  - rewrite Z.shiftl_spec_low by lia. apply andb_false_r.
  - by rewrite (testbit_above 8 (b2z b)) by (pose proof (b2z_range b); lia).
Qed.

Lemma lor_shiftl_add b z : Z.lor (b2z b) (Z.shiftl z 8) = (b2z b + 2 ^ 8 * z)%Z.
Proof.
  pose proof (Z.add_lor_land (b2z b) (Z.shiftl z 8)) as H.
  rewrite land_byte_shiftl, Z.add_0_r in H.
  rewrite H, Z.shiftl_mul_pow2 by lia. lia.
Qed.

Lemma le_val_range bs : (0 <= le_val bs < 2 ^ (8 * Z.of_nat (length bs)))%Z.
Proof.
  induction bs as [|b bs IH]; cbn [le_val length]; [simpl; lia|].
  rewrite lor_shiftl_add. pose proof (b2z_range b).
  replace (8 * Z.of_nat (S (length bs)))%Z
    with (8 + 8 * Z.of_nat (length bs))%Z by lia.
  rewrite Z.pow_add_r by lia. nia.
Qed.

Lemma be_val_range bs : (0 <= be_val bs < 2 ^ (8 * Z.of_nat (length bs)))%Z.
Proof.
  unfold be_val. rewrite <-(length_rev bs). apply le_val_range.
Qed.

Lemma le_val_bytes n z :
  le_val (le_bytes n z) = (z mod 2 ^ (8 * Z.of_nat n))%Z.
Proof.
  revert z. induction n as [|n IH]; intros z; cbn [le_val le_bytes].
  - simpl. by rewrite Z.mod_1_r.
  - rewrite lor_shiftl_add, IH, b2z_z2b. unfold u8.
    replace (8 * Z.of_nat (S n))%Z with (8 + 8 * Z.of_nat n)%Z by lia.
    rewrite Z.pow_add_r, Z.shiftr_div_pow2 by lia.
    rewrite Z.rem_mul_r by lia. lia.
Qed.

Lemma le_bytes_val bs : le_bytes (length bs) (le_val bs) = bs.
Proof.
  induction bs as [|b bs IH]; cbn [le_val le_bytes length]; [done|].
  rewrite lor_shiftl_add. f_equal.
  - apply b2z_inj. rewrite b2z_z2b. unfold u8.
    rewrite Z.mul_comm, Z.mod_add by lia.
    apply Z.mod_small, b2z_range.
  - rewrite Z.shiftr_div_pow2 by lia.
    rewrite Z.mul_comm, Z.div_add by lia.
    rewrite Z.div_small by apply b2z_range. by rewrite Z.add_0_l.
Qed.

Lemma be_val_bytes n z :
  be_val (be_bytes n z) = (z mod 2 ^ (8 * Z.of_nat n))%Z.
Proof. unfold be_val, be_bytes. by rewrite rev_involutive, le_val_bytes. Qed.

Lemma be_bytes_val bs : be_bytes (length bs) (be_val bs) = bs.
Proof.
  unfold be_val, be_bytes. rewrite <-(length_rev bs), le_bytes_val.
  apply rev_involutive.
Qed.

Lemma le_val_app a b :
  le_val (a ++ b) = (le_val a + 2 ^ (8 * Z.of_nat (length a)) * le_val b)%Z.
Proof.
  induction a as [|x a IH]; cbn [le_val app length]; [simpl; lia|].
  rewrite !lor_shiftl_add, IH.
  replace (8 * Z.of_nat (S (length a)))%Z
    with (8 + 8 * Z.of_nat (length a))%Z by lia.
  rewrite Z.pow_add_r by lia. ring.
Qed.

Lemma le_val_app_mod a b :
  (le_val (a ++ b) mod 2 ^ (8 * Z.of_nat (length a)) = le_val a)%Z.
Proof.
  rewrite le_val_app, Z.mul_comm, Z.mod_add by lia.
  apply Z.mod_small, le_val_range.
Qed.

Lemma le_val_inj a b : length a = length b -> le_val a = le_val b -> a = b.
Proof.
  intros Hl Hv. rewrite <-(le_bytes_val a), <-(le_bytes_val b). congruence.
Qed.

#[export] Hint Rewrite length_le_bytes length_be_bytes : bytes.

Lemma take_le_bytes n m z :
  take n (le_bytes (n + m) z) = le_bytes n z.
Proof. revert z. induction n as [|n IH]; intros z; simpl; [done|by rewrite IH]. Qed.

Lemma le_bytes_app n m z :
  le_bytes (n + m) z = le_bytes n z ++ le_bytes m (Z.shiftr z (8 * Z.of_nat n)).
Proof.
  revert z. induction n as [|n IH]; intros z.
  - simpl. by rewrite Z.shiftr_0_r.
  - cbn [Nat.add le_bytes app]. rewrite IH, Z.shiftr_shiftr by lia.
    by replace (8 * Z.of_nat (S n))%Z with (8 + 8 * Z.of_nat n)%Z by lia.
Qed.

Lemma be_bytes_app n m z :
  be_bytes (n + m) z = be_bytes m (Z.shiftr z (8 * Z.of_nat n)) ++ be_bytes n z.
Proof. unfold be_bytes. by rewrite le_bytes_app, rev_app_distr. Qed.

Lemma be_val_snoc l b : be_val (l ++ [b]) = (b2z b + 2 ^ 8 * be_val l)%Z.
Proof.
  unfold be_val. rewrite rev_app_distr. cbn [rev app le_val].
  apply lor_shiftl_add.
Qed.

Lemma be_bytes_inj n a b :
  (0 <= a < 2 ^ (8 * Z.of_nat n))%Z -> (0 <= b < 2 ^ (8 * Z.of_nat n))%Z ->
  be_bytes n a = be_bytes n b -> a = b.
Proof.
  intros Ha Hb E. apply (f_equal be_val) in E.
  rewrite !be_val_bytes, !Z.mod_small in E; lia.
Qed.

#[global] Arguments le_bytes : simpl never.
#[global] Arguments be_bytes : simpl never.
#[global] Arguments le_val : simpl never.
#[global] Arguments be_val : simpl never.

(** ** Outcomes

    A call returns normally, leaves by a C++ exception, or has undefined
    behaviour (an access outside an allocation, a null dereference, an empty
    [std::optional] read). *)

Inductive outcome (A : Type) : Type :=
| Ret (a : A)
| Throw
| Undef.
Arguments Ret {A} a.
Arguments Throw {A}.
Arguments Undef {A}.

#[global] Instance outcome_ret : MRet outcome := @Ret.
#[global] Instance outcome_bind : MBind outcome := λ A B f m,
  match m with Ret a => f a | Throw => Throw | Undef => Undef end.
#[global] Instance outcome_fmap : FMap outcome := λ A B f m,
  match m with Ret a => Ret (f a) | Throw => Throw | Undef => Undef end.

Lemma bind_Ret {A B} (a : A) (f : A -> outcome B) : (Ret a ≫= f) = f a.
Proof. done. Qed.

(** How a call of a callback ends: it returns, throws something derived from
    [std::exception] (which the framework catches), or throws something else. *)
Inductive cb_end := CbReturn | CbStdException | CbOther.

#[global] Instance cb_end_eq_dec : EqDecision cb_end.
Proof. solve_decision. Defined.

(** ** Lengths and ranges of a buffer

    [zlen] is [size()]; [slice off n l] is the object of [n] elements at offset
    [off], and [None] when the read leaves the buffer. *)

Definition zlen {A} (l : list A) : Z := Z.of_nat (length l).

Definition slice {A} (off n : Z) (l : list A) : option (list A) :=
  if ((0 <=? off) && (0 <=? n) && (off + n <=? zlen l))%Z
  then Some (take (Z.to_nat n) (drop (Z.to_nat off) l)) else None.

Lemma zlen_app {A} (l1 l2 : list A) : zlen (l1 ++ l2) = (zlen l1 + zlen l2)%Z.
Proof. unfold zlen. rewrite length_app. lia. Qed.
Lemma zlen_cons {A} (x : A) l : zlen (x :: l) = (1 + zlen l)%Z.
Proof. unfold zlen. simpl. lia. Qed.
Lemma zlen_nil {A} : zlen (@nil A) = 0%Z.
Proof. done. Qed.
Lemma zlen_nonneg {A} (l : list A) : (0 <= zlen l)%Z.
Proof. unfold zlen. lia. Qed.
Lemma zlen_be_bytes n z : zlen (be_bytes n z) = Z.of_nat n.
Proof. unfold zlen. by rewrite length_be_bytes. Qed.
Lemma zlen_nil_inv {A} (l : list A) : (zlen l = 0)%Z -> l = [].
Proof. destruct l; unfold zlen; simpl; [done|lia]. Qed.
Lemma zlen_perm {A} (l l' : list A) : l ≡ₚ l' -> zlen l = zlen l'.
Proof. intros H. unfold zlen. by rewrite H. Qed.

Create HintDb lengths.
Create Rewrite HintDb lengths.
#[export] Hint Rewrite @zlen_app @zlen_cons @zlen_nil zlen_be_bytes : lengths.
#[export] Hint Resolve zlen_nonneg : lengths.

Lemma slice_app {A} (l1 l2 l3 : list A) off n :
  off = zlen l1 -> n = zlen l2 -> slice off n (l1 ++ l2 ++ l3) = Some l2.
Proof.
  intros -> ->. unfold slice. rewrite !zlen_app.
  pose proof (zlen_nonneg l1). pose proof (zlen_nonneg l2).
  pose proof (zlen_nonneg l3).
  rewrite !(proj2 (Z.leb_le _ _)) by lia. simpl. unfold zlen.
  by rewrite !Nat2Z.id, drop_app_length, take_app_length.
Qed.

Lemma slice_app0 {A} (l2 l3 : list A) n :
  n = zlen l2 -> slice 0 n (l2 ++ l3) = Some l2.
Proof. apply (slice_app [] l2 l3 0 n). done. Qed.

Lemma slice_Some {A} off n (l : list A) :
  (0 <= off)%Z -> (0 <= n)%Z -> (off + n <= zlen l)%Z ->
  exists l2, slice off n l = Some l2 /\ zlen l2 = n /\
    l = take (Z.to_nat off) l ++ l2 ++ drop (Z.to_nat (off + n)) l.
Proof.
  intros H1 H2 H3. unfold slice.
  rewrite !(proj2 (Z.leb_le _ _)) by lia. simpl. eexists. split; [done|].
  unfold zlen in *. split.
  { rewrite length_take, length_drop. lia. }
  rewrite Z2Nat.inj_add by lia.
  by rewrite <-drop_drop, take_drop, take_drop.
Qed.

Lemma slice_None {A} off n (l : list A) :
  (zlen l < off + n)%Z -> slice off n l = None.
Proof.
  intros H. unfold slice. rewrite (proj2 (Z.leb_gt (off + n) _)) by lia.
  by rewrite andb_false_r.
Qed.

Lemma slice_length {A} off n (l l2 : list A) :
  slice off n l = Some l2 -> length l2 = Z.to_nat n.
Proof.
  unfold slice. destruct (_ && _) eqn:E; [|done]. intros [= <-].
  rewrite !andb_true_iff, !Z.leb_le in E. unfold zlen in E.
  rewrite length_take, length_drop. lia.
Qed.

(** [sub off n l] is the same object when the range is known to be inside. *)
Definition sub {A} (off n : nat) (l : list A) : list A := take n (drop off l).

Lemma slice_sub {A} off n (l : list A) :
  (0 <= off)%Z -> (0 <= n)%Z -> (off + n <= zlen l)%Z ->
  slice off n l = Some (sub (Z.to_nat off) (Z.to_nat n) l).
Proof.
  intros H1 H2 H3. unfold slice.
  by rewrite !(proj2 (Z.leb_le _ _)) by lia.
Qed.

Lemma length_sub {A} off n (l : list A) :
  (off + n <= length l)%nat -> length (sub off n l) = n.
Proof. intros H. unfold sub. rewrite length_take, length_drop. lia. Qed.

Lemma sub_app {A} off n (l1 l2 l3 : list A) :
  off = length l1 -> n = length l2 -> sub off n (l1 ++ l2 ++ l3) = l2.
Proof.
  intros -> ->. unfold sub. by rewrite drop_app_length, take_app_length.
Qed.

(** Cutting a buffer at consecutive offsets. *)
Lemma drop_sub {A} off n (l : list A) : drop off l = sub off n l ++ drop (off + n) l.
Proof. unfold sub. by rewrite <-drop_drop, take_drop. Qed.

Lemma sub_app_l {A} off n (l1 l2 : list A) :
  (off + n <= length l1)%nat -> sub off n (l1 ++ l2) = sub off n l1.
Proof.
  intros H. unfold sub. rewrite drop_app_le by lia.
  rewrite take_app_le by (rewrite length_drop; lia). done.
Qed.

(** ** A length field: the big-endian value of the first four bytes *)

Definition announced (buf : list byte) : Z := be_val (take 4 buf).

Lemma announced_range buf : (0 <= announced buf < 2 ^ 32)%Z.
Proof.
  unfold announced. pose proof (be_val_range (take 4 buf)) as H.
  assert (2 ^ (8 * Z.of_nat (length (take 4 buf))) <= 2 ^ 32)%Z.
  { apply Z.pow_le_mono_r; [lia|]. rewrite length_take. lia. }
  lia.
Qed.

Lemma announced_app buf rest :
  (4 <= zlen buf)%Z -> announced (buf ++ rest) = announced buf.
Proof.
  unfold announced, zlen. intros H. by rewrite take_app_le by lia.
Qed.

Lemma announced_be total rest :
  (0 <= total < 2 ^ 32)%Z -> announced (be_bytes 4 total ++ rest) = total.
Proof.
  intros H. unfold announced. rewrite take_app_length' by by rewrite length_be_bytes.
  rewrite be_val_bytes, Z.mod_small; [done|lia].
Qed.

(** ** Filters *)

Section filter.
Context {A : Type} (P : A -> Prop) `{!forall x, Decision (P x)}.

Lemma filter_none l : Forall (fun x => ~ P x) l -> filter P l = [].
Proof. induction 1; [done|]. by rewrite filter_cons_False. Qed.

Lemma filter_all l : Forall P l -> filter P l = l.
Proof. induction 1 as [|x l Hx _ IH]; [done|]. by rewrite filter_cons_True, IH. Qed.

Lemma filter_ext (Q : A -> Prop) `{!forall x, Decision (Q x)} (l : list A) :
  (forall x, x ∈ l -> P x <-> Q x) -> filter P l = filter Q l.
Proof.
  induction l as [|x l IH]; intros HPQ; [done|].
  rewrite !filter_cons, IH by (intros; apply HPQ; by right).
  specialize (HPQ x (list_elem_of_here _ _)). repeat case_decide; try done; tauto.
Qed.
End filter.

(** ** Tactics *)

(** Case analysis on every boolean comparison or [decide] of the goal. *)
Ltac case_all :=
  repeat (case_decide || case_match); simplify_eq/=.

(** Closes an arithmetic or propositional leaf. *)
Ltac finish := first [done | lia | by auto | by eauto | tauto].

(** Decides a closed decidable proposition by evaluation. *)
Ltac by_compute :=
  match goal with |- ?P => refine (bool_decide_unpack P _) end; vm_compute; exact I.
