(* ===== verification/Lock.v ===== *)
(** * Locks (base/lock/mutex.h, condition.h)

    [LockGuard] and [ConditionVariable], and with them the code of the program that runs
    under a lock: threads are lists of statements, a guard locks its mutex for the scope of
    its body, leaving the scope by an exception included.  [std::lock_guard] and
    [std::unique_lock] are used in the same way everywhere else. *)

From S2P Require Import Prelude.

Section lock.
(** What the code does besides locking. *)
Context {S A : Type} (act : A -> S -> S).

(** [Call] is code found by looking at the state, such as a handler in a table; [Wait] is
    [cv.wait(lock, pred)] on a lock that holds [m], or [cv.wait(lock)] without a predicate. *)
Inductive stmt :=
| Do (a : A)
| Call (f : S -> list stmt)
| Guard (m : nat) (body : list stmt)
| Wait (c m : nat) (pred : option (S -> bool))
| NotifyOne (c : nat)
| NotifyAll (c : nat)
| Raise.

(** What a thread has still to do: statements, the destructors of the guards it is inside
    of, and, in front, the wait it is blocked in or has been woken from. *)
Inductive instr :=
| Run (s : stmt)
| Unlock (m : nat)
| Asleep (c m : nat) (pred : option (S -> bool))
| Relock (c m : nat) (pred : option (S -> bool)).

Record World := { state : S; owner : gmap nat nat; code : gmap nat (list instr) }.

Definition goto (t : nat) (k : list instr) (w : World) : World :=
  {| state := state w; owner := owner w; code := <[t := k]> (code w) |}.
Definition set_state (s : S) (w : World) : World :=
  {| state := s; owner := owner w; code := code w |}.
(** [mtx_.lock()] and [mtx_.unlock()]. *)
Definition lock (m t : nat) (w : World) : World :=
  {| state := state w; owner := <[m := t]> (owner w); code := code w |}.
Definition unlock (m : nat) (w : World) : World :=
  {| state := state w; owner := delete m (owner w); code := code w |}.

Definition wake (c : nat) (k : list instr) : list instr :=
  match k with
  | Asleep c' m pred :: k' => if decide (c = c') then Relock c' m pred :: k' else k
  | _ => k
  end.
Definition sleeps (c : nat) (k : list instr) : Prop :=
  match k with Asleep c' _ _ :: _ => c = c' | _ => False end.
Definition wake_all (c : nat) (w : World) : World :=
  {| state := state w; owner := owner w; code := wake c <$> code w |}.

(** The predicate holds: there is nothing to wait for. *)
Definition satisfied (pred : option (S -> bool)) (s : S) : bool :=
  match pred with Some p => p s | None => false end.
(** What follows a wake-up: the predicate is tested again; without one the wait is over. *)
Definition woken (c m : nat) (pred : option (S -> bool)) (k : list instr) : list instr :=
  match pred with Some _ => Run (Wait c m pred) :: k | None => k end.

(** Steps of thread [t].  A mutex is not recursive: its owner blocks as everybody else. *)
Inductive lstep (t : nat) : World -> World -> Prop :=
| l_do w a k :
    code w !! t = Some (Run (Do a) :: k) -> lstep t w (goto t k (set_state (act a (state w)) w))
| l_call w f k :
    code w !! t = Some (Run (Call f) :: k) -> lstep t w (goto t ((Run <$> f (state w)) ++ k) w)
| l_guard w m body k :
    code w !! t = Some (Run (Guard m body) :: k) -> owner w !! m = None ->
    lstep t w (goto t ((Run <$> body) ++ Unlock m :: k) (lock m t w))
| l_unlock w m k :
    code w !! t = Some (Unlock m :: k) -> lstep t w (goto t k (unlock m w))
| l_wait_true w c m pred k :
    code w !! t = Some (Run (Wait c m pred) :: k) -> owner w !! m = Some t ->
    satisfied pred (state w) = true -> lstep t w (goto t k w)
| l_wait_false w c m pred k :
    code w !! t = Some (Run (Wait c m pred) :: k) -> owner w !! m = Some t ->
    satisfied pred (state w) = false -> lstep t w (goto t (Asleep c m pred :: k) (unlock m w))
| l_spurious w c m pred k :
    code w !! t = Some (Asleep c m pred :: k) -> lstep t w (goto t (Relock c m pred :: k) w)
| l_relock w c m pred k :
    code w !! t = Some (Relock c m pred :: k) -> owner w !! m = None ->
    lstep t w (goto t (woken c m pred k) (lock m t w))
| l_notify_one w c u k ku :
    code w !! t = Some (Run (NotifyOne c) :: k) -> code w !! u = Some ku -> sleeps c ku ->
    lstep t w (goto t k (goto u (wake c ku) w))
| l_notify_none w c k :
    code w !! t = Some (Run (NotifyOne c) :: k) ->
    (forall u ku, code w !! u = Some ku -> ~ sleeps c ku) -> lstep t w (goto t k w)
| l_notify_all w c k :
    code w !! t = Some (Run (NotifyAll c) :: k) -> lstep t w (goto t k (wake_all c w))
| l_raise w s k :
    code w !! t = Some (Run Raise :: Run s :: k) -> lstep t w (goto t (Run Raise :: k) w)
| l_raise_unlock w m k :
    code w !! t = Some (Run Raise :: Unlock m :: k) ->
    lstep t w (goto t (Run Raise :: k) (unlock m w)).

Definition lsteps : World -> World -> Prop := rtc (fun w w' => exists t, lstep t w w').

(** Threads that start with some source code. *)
Definition start (s : S) (progs : gmap nat (list stmt)) : World :=
  {| state := s; owner := ∅; code := (fun p : list stmt => Run <$> p) <$> progs |}.

(** ** Who holds what *)

(** The mutexes of the guards a thread is inside of, innermost first. *)
Definition guards (k : list instr) : list nat :=
  omap (fun i => match i with Unlock m => Some m | _ => None end) k.

(** The mutex a thread in a wait has given back. *)
Definition given_back (k : list instr) : option nat :=
  match k with Asleep _ m _ :: _ | Relock _ m _ :: _ => Some m | _ => None end.

Definition inside (k : list instr) (m : nat) : Prop := m ∈ guards k /\ given_back k <> Some m.

Definition plain (i : instr) : Prop := match i with Run _ | Unlock _ => True | _ => False end.

Record tidy (k : list instr) : Prop := {
  ti_nodup : NoDup (guards k);
  ti_plain : Forall plain (tail k);
  ti_back : forall m, given_back k = Some m -> m ∈ guards k;
}.

Record exclusive (w : World) : Prop := {
  ex_tidy : forall t k, code w !! t = Some k -> tidy k;
  ex_owner : forall m t, owner w !! m = Some t <-> exists k, code w !! t = Some k /\ inside k m;
}.

Lemma guards_run ss k : guards ((Run <$> ss) ++ k) = guards k.
Proof. induction ss as [|s ss IH]; [done|exact IH]. Qed.

Lemma given_back_plain k : Forall plain k -> given_back k = None.
Proof. by destruct 1 as [|[] k]. Qed.

Lemma plain_run ss k : Forall plain k -> Forall plain ((Run <$> ss) ++ k).
Proof. intros Hk. apply Forall_app. split; [|done]. by induction ss; constructor. Qed.

Lemma tidy_plain k : Forall plain k -> NoDup (guards k) -> tidy k.
Proof.
  intros Hp Hn. split; [done|by destruct Hp|]. by rewrite given_back_plain.
Qed.

Lemma ex_code (o : option (list instr)) k m :
  o = Some k -> (exists k0, o = Some k0 /\ inside k0 m) <-> inside k m.
Proof. intros ->. split; [by intros (? & [= <-] & ?)|by exists k]. Qed.

(** Thread [t] goes on; nothing is locked, one mutex is, or one is released. *)
Lemma exclusive_goto w t k k' :
  exclusive w -> code w !! t = Some k -> tidy k' -> (forall m, inside k' m <-> inside k m) ->
  exclusive (goto t k' w).
Proof.
  intros [Ht Ho] Hk Hk' Hi. split; cbn.
  - intros u ku. destruct (decide (t = u)) as [<-|Hu].
    + rewrite lookup_insert_eq. by intros [= <-].
    + rewrite lookup_insert_ne by done. apply Ht.
  - intros m u. rewrite Ho. destruct (decide (t = u)) as [<-|Hu].
    + by rewrite (ex_code _ k m Hk), (ex_code _ k' m (lookup_insert_eq _ _ _)).
    + by rewrite lookup_insert_ne by done.
Qed.

Lemma exclusive_lock w t k k' m :
  exclusive w -> code w !! t = Some k -> tidy k' -> owner w !! m = None ->
  (forall m', inside k' m' <-> m' = m \/ inside k m') -> exclusive (goto t k' (lock m t w)).
Proof.
  intros [Ht Ho] Hk Hk' Hm Hi. split; cbn.
  - intros u ku. destruct (decide (t = u)) as [<-|Hu].
    + rewrite lookup_insert_eq. by intros [= <-].
    + rewrite lookup_insert_ne by done. apply Ht.
  - intros m' u. destruct (decide (t = u)) as [<-|Hu].
    + rewrite (ex_code _ k' m' (lookup_insert_eq _ _ _)), Hi.
      destruct (decide (m = m')) as [<-|Hmm].
      * rewrite lookup_insert_eq. split; [by left|done].
      * rewrite lookup_insert_ne, Ho, (ex_code _ k m' Hk) by done. split; [by right|].
        by intros [->|].
    + rewrite (lookup_insert_ne (code w)) by done. destruct (decide (m = m')) as [<-|Hmm].
      * rewrite lookup_insert_eq, <-Ho, Hm. split; [by intros [= ->]|done].
      * by rewrite lookup_insert_ne, Ho by done.
Qed.

Lemma exclusive_unlock w t k k' m :
  exclusive w -> code w !! t = Some k -> tidy k' -> inside k m ->
  (forall m', inside k' m' <-> inside k m' /\ m' <> m) -> exclusive (goto t k' (unlock m w)).
Proof.
  intros [Ht Ho] Hk Hk' Hm Hi. assert (owner w !! m = Some t) as Hown by (apply Ho; by exists k).
  split; cbn.
  - intros u ku. destruct (decide (t = u)) as [<-|Hu].
    + rewrite lookup_insert_eq. by intros [= <-].
    + rewrite lookup_insert_ne by done. apply Ht.
  - intros m' u. destruct (decide (m = m')) as [<-|Hmm].
    + rewrite lookup_delete_eq. split; [done|]. intros (ku & Hku & Hin).
      destruct (decide (t = u)) as [<-|Hu].
      * rewrite lookup_insert_eq in Hku. injection Hku as <-. by apply Hi in Hin as [_ ?].
      * rewrite lookup_insert_ne in Hku by done. assert (owner w !! m = Some u) by (apply Ho; eauto).
        congruence.
    + rewrite lookup_delete_ne, Ho by done. destruct (decide (t = u)) as [<-|Hu].
      * rewrite (ex_code _ k m' Hk), (ex_code _ k' m' (lookup_insert_eq _ _ _)), Hi.
        split; [by split|by intros []].
      * by rewrite lookup_insert_ne by done.
Qed.

(** The head of a tidy list. *)
Lemma tidy_head i k : tidy (i :: k) -> Forall plain k /\ given_back k = None /\ NoDup (guards (i :: k)).
Proof. intros [Hn Hp _]. split_and!; [done|by apply given_back_plain|done]. Qed.

Lemma wake_tidy c k : tidy k -> tidy (wake c k) /\ forall m, inside (wake c k) m <-> inside k m.
Proof.
  intros Hk. destruct k as [|[s|m|c' m pred|c' m pred] k]; try done. cbn. case_decide; [|done].
  split; [|done]. destruct Hk. by split.
Qed.

Lemma exclusive_wake_all c w : exclusive w -> exclusive (wake_all c w).
Proof.
  intros [Ht Ho]. split; cbn.
  - intros t k. rewrite lookup_fmap, fmap_Some. intros (k0 & Hk & ->). by eapply wake_tidy, Ht.
  - intros m t. rewrite Ho, lookup_fmap. destruct (code w !! t) as [k|] eqn:E; cbn; [|split; by intros (? & ? & _)].
    destruct (wake_tidy c k (Ht t k E)) as [_ Hi].
    by rewrite (ex_code (Some k) k), (ex_code (Some (wake c k)) (wake c k)).
Qed.

Lemma inside_plain k m : Forall plain k -> inside k m <-> m ∈ guards k.
Proof. intros Hk. unfold inside. rewrite given_back_plain by done. naive_solver. Qed.

Lemma exclusive_state f w : exclusive w -> exclusive (set_state f w).
Proof. by intros []. Qed.

(** A statement is followed by code with the same guards. *)
Lemma exclusive_next w t s k k' :
  exclusive w -> code w !! t = Some (Run s :: k) -> Forall plain k' -> guards k' = guards k ->
  exclusive (goto t k' w).
Proof.
  intros Hw Hk Hp Hg. destruct (tidy_head _ _ (ex_tidy _ Hw _ _ Hk)) as (Hpk & _ & Hn).
  eapply exclusive_goto; [done|done|apply tidy_plain; [done|by rewrite Hg]|].
  intros m. rewrite !inside_plain by (done || by constructor). by rewrite Hg.
Qed.

Lemma not_inside w t k m : exclusive w -> code w !! t = Some k -> owner w !! m = None -> ~ inside k m.
Proof.
  intros Hw Hk Hm Hi. assert (owner w !! m = Some t); [|congruence].
  apply (ex_owner _ Hw). by exists k.
Qed.

Lemma exclusive_guard w t m body k :
  exclusive w -> code w !! t = Some (Run (Guard m body) :: k) -> owner w !! m = None ->
  exclusive (goto t ((Run <$> body) ++ Unlock m :: k) (lock m t w)).
Proof.
  intros Hw Hk Hm. destruct (tidy_head _ _ (ex_tidy _ Hw _ _ Hk)) as (Hpk & _ & Hn).
  pose proof (not_inside _ _ _ _ Hw Hk Hm) as Hni. rewrite inside_plain in Hni by by constructor.
  assert (Forall plain ((Run <$> body) ++ Unlock m :: k)) as Hp by (apply plain_run; by constructor).
  eapply exclusive_lock; [done|done| |done|].
  - apply tidy_plain; [done|]. rewrite guards_run. by constructor.
  - intros m'. rewrite !inside_plain, guards_run by (done || by constructor). cbn.
    by rewrite elem_of_cons.
Qed.

(** The destructor of the innermost guard, after [pre] that no guard belongs to. *)
Lemma exclusive_leave w t pre m k :
  exclusive w -> code w !! t = Some (pre ++ Unlock m :: k) -> Forall plain pre -> guards pre = [] ->
  exclusive (goto t (pre ++ k) (unlock m w)).
Proof.
  intros Hw Hk Hpre Hg. pose proof (ex_tidy _ Hw _ _ Hk) as Ht.
  assert (Forall plain k) as Hpk.
  { destruct Ht as [_ Hp _]. destruct pre as [|i pre]; [exact Hp|]. cbn in Hp.
    apply list.Forall_app in Hp as [_ Hp]. by apply Forall_inv_tail in Hp. }
  assert (forall x y, guards (x ++ y) = guards x ++ guards y) as Happ by (intros; apply omap_app).
  assert (NoDup (m :: guards k)) as Hn.
  { pose proof (ti_nodup _ Ht) as Hn. by rewrite Happ, Hg in Hn. }
  apply NoDup_cons in Hn as [Hm Hn].
  eapply exclusive_unlock; [done|done| | |].
  - apply tidy_plain; [by apply list.Forall_app|]. by rewrite Happ, Hg.
  - apply inside_plain; [apply list.Forall_app; split; [done|by constructor]|].
    rewrite Happ, Hg. left.
  - intros m'. rewrite !inside_plain by (apply list.Forall_app; split; [done|by try constructor]).
    rewrite !Happ, Hg. cbn. rewrite elem_of_cons. split; [intros Hin; split; [by right|by intros ->]|].
    by intros [[->|?] ?].
Qed.

(** Giving the mutex back in a wait, and taking it again. *)
Lemma exclusive_wait w t c m pred k :
  exclusive w -> code w !! t = Some (Run (Wait c m pred) :: k) -> owner w !! m = Some t ->
  exclusive (goto t (Asleep c m pred :: k) (unlock m w)).
Proof.
  intros Hw Hk Ho. destruct (tidy_head _ _ (ex_tidy _ Hw _ _ Hk)) as (Hpk & _ & Hn).
  assert (inside (Run (Wait c m pred) :: k) m) as Hi.
  { apply (ex_owner _ Hw) in Ho as (k0 & Hk0 & Hi). by simplify_eq. }
  pose proof Hi as Hi'. rewrite inside_plain in Hi' by by constructor.
  eapply exclusive_unlock; [done|done| |done|].
  - split; [done|done|]. by intros ? [= <-].
  - intros m'. rewrite (inside_plain (Run _ :: k)) by by constructor. unfold inside. cbn.
    split; intros []; split; congruence.
Qed.

Lemma exclusive_relock w t c m pred k :
  exclusive w -> code w !! t = Some (Relock c m pred :: k) -> owner w !! m = None ->
  exclusive (goto t (woken c m pred k) (lock m t w)).
Proof.
  intros Hw Hk Ho. destruct (ex_tidy _ Hw _ _ Hk) as [Hn Hp Hb]. cbn in Hp.
  pose proof (Hb m eq_refl) as Hm.
  assert (Forall plain (woken c m pred k) /\ guards (woken c m pred k) = guards k) as [Hpw Hg]
    by (destruct pred; by repeat constructor).
  eapply exclusive_lock; [done|done| |done|].
  - apply tidy_plain; [done|by rewrite Hg].
  - intros m'. rewrite (inside_plain (woken _ _ _ _)), Hg by done. unfold inside. cbn.
    split; [|by intros [->|[]]]. intros Hin. destruct (decide (m' = m)) as [->|]; [by left|right].
    split; [done|congruence].
Qed.

Lemma lstep_exclusive t w w' : lstep t w w' -> exclusive w -> exclusive w'.
Proof.
  intros Hst Hw. destruct Hst as [w a k Hk|w f k Hk|w m body k Hk Hm|w m k Hk|w c m pred k Hk Ho Hp
    |w c m pred k Hk Ho Hp|w c m pred k Hk|w c m pred k Hk Hm|w c u k ku Hk Hu Hs|w c k Hk Hn
    |w c k Hk|w s k Hk|w m k Hk];
    destruct (tidy_head _ _ (ex_tidy _ Hw _ _ Hk)) as (Hpk & _ & _).
  - by eapply exclusive_next; [apply exclusive_state|..].
  - eapply exclusive_next; [done|done|by apply plain_run|apply guards_run].
  - by apply exclusive_guard.
  - by apply (exclusive_leave w t []).
  - by eapply exclusive_next.
  - by apply exclusive_wait.
  - eapply exclusive_goto; [done|done| |done]. by destruct (ex_tidy _ Hw _ _ Hk).
  - by apply exclusive_relock.
  - assert (t <> u) as Hne by (intros <-; by simplify_eq).
    destruct (wake_tidy c ku (ex_tidy _ Hw _ _ Hu)) as [Ht Hi].
    eapply exclusive_next; [by eapply exclusive_goto| |done|done]. cbn.
    by rewrite lookup_insert_ne.
  - by eapply exclusive_next.
  - eapply exclusive_next; [by apply exclusive_wake_all| |done|done]. cbn. by rewrite lookup_fmap, Hk.
  - eapply exclusive_next; [done|done| |done]. apply Forall_cons in Hpk as [_ ?]. by constructor.
  - apply (exclusive_leave w t [Run Raise] m k); [done|done|by repeat constructor|done].
Qed.

Lemma exclusive_start s progs : exclusive (start s progs).
Proof.
  assert (forall p : list stmt, guards (Run <$> p) = []) as Hg
    by (intros p; rewrite <-(app_nil_r (Run <$> p)); apply guards_run).
  assert (forall p : list stmt, Forall plain (Run <$> p)) as Hp
    by (intros p; rewrite <-(app_nil_r (Run <$> p)); by apply plain_run).
  split; cbn.
  - intros t k. rewrite lookup_fmap, fmap_Some. intros (p & _ & ->).
    apply tidy_plain; [done|]. rewrite Hg. constructor.
  - intros m t. rewrite lookup_empty. split; [done|]. intros (k & Hk & Hi).
    rewrite lookup_fmap, fmap_Some in Hk. destruct Hk as (p & _ & ->).
    rewrite inside_plain, Hg in Hi by done. by apply not_elem_of_nil in Hi.
Qed.

Lemma lsteps_exclusive w w' : exclusive w -> lsteps w w' -> exclusive w'.
Proof.
  intros Hw Hs. induction Hs as [|x y z [t Hst] _ IH]; [done|]. apply IH. by eapply lstep_exclusive.
Qed.

(** ** A mutex asked for by its owner *)

Definition waits_for (m : nat) (k : list instr) : Prop :=
  exists body k', k = Run (Guard m body) :: k'.

(** A step of [u] leaves the code of the others alone, but for waking sleepers, and takes no
    mutex from them. *)
Lemma lstep_others u w w' v kv :
  lstep u w w' -> u <> v -> code w !! v = Some kv -> (forall c, ~ sleeps c kv) ->
  code w' !! v = Some kv.
Proof.
  intros Hst Hne Hv Hs. destruct Hst as [| | | | | | | |w c x k kx Hk Hx Hsx| |w c k Hk| |]; cbn;
    rewrite lookup_insert_ne by done; try done.
  - rewrite lookup_insert_ne; [done|]. intros ->. simplify_eq. by destruct (Hs c).
  - rewrite lookup_fmap, Hv. cbn. f_equal. destruct kv as [|[] kv]; try done. cbn.
    case_decide; [|done]. by destruct (Hs c0).
Qed.

Lemma lstep_owner u w w' m t :
  lstep u w w' -> exclusive w -> u <> t -> owner w !! m = Some t -> owner w' !! m = Some t.
Proof.
  intros Hst Hw Hne Ho.
  assert (forall m' k, code w !! u = Some k -> m' ∈ guards k -> given_back k = None ->
    delete m' (owner w) !! m = Some t) as Hdel.
  { intros m' k Hk Hi Hb. rewrite lookup_delete_ne; [done|]. intros ->.
    assert (owner w !! m = Some u); [|congruence]. apply (ex_owner _ Hw). exists k.
    split; [done|]. split; [done|]. by rewrite Hb. }
  assert (forall m', owner w !! m' = None -> <[m' := u]> (owner w) !! m = Some t) as Hins
    by (intros m' Hm'; rewrite lookup_insert_ne; [done|congruence]).
  destruct Hst as [| |w m' body k Hk Hm|w m' k Hk| |w c m' pred k Hk Hm Hp| |w c m' pred k Hk Hm
    | | | | |w m' k Hk]; cbn; try done; eauto.
  - eapply Hdel; [done|left|done].
  - rewrite lookup_delete_ne; [done|]. congruence.
  - eapply Hdel; [done|left|done].
Qed.

Lemma lstep_waiting u w w' m k :
  lstep u w w' -> code w !! u = Some k -> waits_for m k -> owner w !! m = None.
Proof. intros Hst Hk (body & k' & ->). by destruct Hst; simplify_eq. Qed.

(** While the owner of a mutex waits for it, no step of any thread changes that. *)
Lemma lstep_held u w w' t m kt :
  lstep u w w' -> exclusive w -> owner w !! m = Some t -> code w !! t = Some kt -> waits_for m kt ->
  owner w' !! m = Some t /\
  forall v kv, code w !! v = Some kv -> waits_for m kv -> code w' !! v = Some kv.
Proof.
  intros Hst Hw Ho Ht Hwt.
  assert (forall v kv, code w !! v = Some kv -> waits_for m kv -> u <> v) as Hne.
  { intros v kv Hv Hwv <-. pose proof (lstep_waiting _ _ _ _ _ Hst Hv Hwv). congruence. }
  split; [eapply lstep_owner; eauto|]. intros v kv Hv Hwv.
  eapply lstep_others; [done|by eapply Hne|done|]. destruct Hwv as (? & ? & ->). by intros c [].
Qed.

Lemma lsteps_held w w' t m kt :
  lsteps w w' -> exclusive w -> owner w !! m = Some t -> code w !! t = Some kt -> waits_for m kt ->
  owner w' !! m = Some t /\
  forall v kv, code w !! v = Some kv -> waits_for m kv -> code w' !! v = Some kv.
Proof.
  intros Hs. induction Hs as [w|w w1 w' [u Hst] _ IH]; intros Hw Ho Ht Hwt; [done|].
  destruct (lstep_held _ _ _ _ _ _ Hst Hw Ho Ht Hwt) as [Ho1 Hk1].
  destruct IH as [Ho' Hk']; [by eapply lstep_exclusive|done|by apply Hk1|done|]. split; [done|].
  intros v kv Hv Hwv. apply Hk'; [by apply Hk1|done].
Qed.
End lock.

(** Mutual exclusion, as [LockGuard] and [ConditionVariable] promise it.  Whatever the
    threads do, guards nested and waits inside them included, no two threads are inside a
    guard of the same mutex; a mutex is held exactly by the thread inside; a thread that has
    finished holds none, and one that an exception leaves has released what it held.  But the
    mutex is not recursive: a thread that guards one it is inside of, and every thread that
    waits for it then, stays where it is for ever. *)
Theorem lock_exclusion {S A} (act : A -> S -> S) s progs w :
  lsteps act (start s progs) w ->
  (forall m t u kt ku, code w !! t = Some kt -> code w !! u = Some ku -> inside kt m -> inside ku m ->
     t = u) /\
  (forall m t, owner w !! m = Some t <-> exists k, code w !! t = Some k /\ inside k m) /\
  (forall t m, code w !! t = Some [] \/ code w !! t = Some [Run Raise] -> owner w !! m <> Some t) /\
  (forall t m kt, code w !! t = Some kt -> inside kt m -> waits_for m kt ->
     forall w', lsteps act w w' -> owner w' !! m = Some t /\
       forall v kv, code w !! v = Some kv -> waits_for m kv -> code w' !! v = Some kv).
Proof.
  intros Hs. pose proof (lsteps_exclusive act _ _ (exclusive_start s progs) Hs) as Hw.
  pose proof (ex_owner _ Hw) as Ho. split_and!.
  - intros m t u kt ku Ht Hu Hit Hiu.
    assert (owner w !! m = Some t) by (apply Ho; eauto).
    assert (owner w !! m = Some u) by (apply Ho; eauto). congruence.
  - done.
  - intros t m Hk Hown. apply Ho in Hown as (k & Hk' & Hin & _).
    destruct Hk as [Hk|Hk]; rewrite Hk in Hk'; injection Hk' as <-; by apply not_elem_of_nil in Hin.
  - intros t m kt Ht Hi Hwt w' Hs'. eapply lsteps_held; [done|done| |done|done].
    apply Ho. by exists kt.
Qed.

(** ** Code called under a lock *)

Section called.
Context {S A : Type} (act : A -> S -> S).

Lemma run_dos t xs k w :
  code w !! t = Some ((Run <$> (Do <$> xs)) ++ k) ->
  rtc (lstep act t) w (goto t k (set_state (foldl (fun s x => act x s) (state w) xs) w)).
Proof.
  revert w. induction xs as [|x xs IH]; intros w Hk.
  - replace (goto t k _) with w; [apply rtc_refl|]. destruct w as [s o cd]. unfold goto, set_state. cbn.
    by rewrite insert_id.
  - eapply rtc_l; [eapply l_do; exact Hk|]. etrans; [apply IH; cbn; apply lookup_insert_eq|].
    unfold goto, set_state. cbn. rewrite insert_insert_eq. apply rtc_refl.
Qed.

(** Entering a guard whose body looks up the code to run. *)
Lemma enter_guard t m f xs rest k w :
  code w !! t = Some (Run (Guard m [Call f]) :: k) -> owner w !! m = None ->
  f (state w) = (Do <$> xs) ++ rest ->
  rtc (lstep act t) w
    (goto t ((Run <$> rest) ++ Unlock m :: k)
       (lock m t (set_state (foldl (fun s x => act x s) (state w) xs) w))).
Proof.
  intros Hk Ho Hf. eapply rtc_l; [by eapply l_guard|].
  eapply rtc_l; [eapply l_call; cbn; apply lookup_insert_eq|]. cbn. rewrite Hf.
  etrans; [apply (run_dos t xs ((Run <$> rest) ++ Unlock m :: k)); cbn|].
  - rewrite lookup_insert_eq. by rewrite fmap_app, <-app_assoc.
  - unfold goto, set_state, lock. cbn. rewrite !insert_insert_eq. apply rtc_refl.
Qed.

(** The code guards the same mutex again: the thread is lost, and so is the mutex. *)
Lemma called_again t m f xs body rest k w :
  exclusive w -> code w !! t = Some (Run (Guard m [Call f]) :: k) -> owner w !! m = None ->
  f (state w) = (Do <$> xs) ++ Guard m body :: rest ->
  exists w', rtc (lstep act t) w w' /\
    forall w'', lsteps act w' w'' ->
      code w'' !! t = Some (Run (Guard m body) :: (Run <$> rest) ++ Unlock m :: k) /\
      owner w'' !! m = Some t /\
      forall v kv, v <> t -> code w !! v = Some kv -> waits_for m kv -> code w'' !! v = Some kv.
Proof.
  intros Hw Hk Ho Hf. pose proof (enter_guard _ _ _ _ _ _ _ Hk Ho Hf) as Hs.
  eexists. split; [exact Hs|]. intros w'' Hs''.
  assert (lsteps act w (goto t ((Run <$> Guard m body :: rest) ++ Unlock m :: k)
    (lock m t (set_state (foldl (fun s x => act x s) (state w) xs) w)))) as Hls.
  { clear -Hs. induction Hs; [apply rtc_refl|]. eapply rtc_l; eauto. }
  pose proof (lsteps_exclusive act _ _ Hw Hls) as Hw'.
  destruct (lsteps_held act _ w'' t m (Run (Guard m body) :: (Run <$> rest) ++ Unlock m :: k) Hs'' Hw')
    as [Ho'' Hk''].
  - cbn. apply lookup_insert_eq.
  - cbn. apply lookup_insert_eq.
  - by eexists _, _.
  - split_and!; [|done|].
    + apply Hk''; [cbn; apply lookup_insert_eq|by eexists _, _].
    + intros v kv Hv Hkv Hwv. apply Hk''; [|done]. cbn. by rewrite lookup_insert_ne by done.
Qed.

(** The code returns: so does the caller, and the mutex is free. *)
Lemma called_returns t m f xs k w :
  code w !! t = Some (Run (Guard m [Call f]) :: k) -> owner w !! m = None ->
  f (state w) = Do <$> xs ->
  exists w', rtc (lstep act t) w w' /\ code w' !! t = Some k /\ owner w' !! m = None /\
    state w' = foldl (fun s x => act x s) (state w) xs.
Proof.
  intros Hk Ho Hf. rewrite <-(app_nil_r (Do <$> xs)) in Hf.
  eexists. split; [etrans; [by eapply enter_guard|]|].
  - apply rtc_once. eapply l_unlock. cbn. apply lookup_insert_eq.
  - cbn. by rewrite lookup_insert_eq, lookup_delete_eq.
Qed.

(** The code throws: the exception goes on to the caller, and the mutex is free. *)
Lemma called_throws t m f xs rest k w :
  code w !! t = Some (Run (Guard m [Call f]) :: k) -> owner w !! m = None ->
  f (state w) = (Do <$> xs) ++ Raise :: rest ->
  exists w', rtc (lstep act t) w w' /\ code w' !! t = Some (Run Raise :: k) /\ owner w' !! m = None /\
    state w' = foldl (fun s x => act x s) (state w) xs.
Proof.
  intros Hk Ho Hf.
  assert (forall rest w, code w !! t = Some (Run Raise :: (Run <$> rest) ++ Unlock m :: k) ->
    rtc (lstep act t) w (goto t (Run Raise :: k) (unlock m w))) as Hunwind.
  { clear. induction rest as [|s rest IH]; intros w Hk.
    - apply rtc_once. apply l_raise_unlock. exact Hk.
    - eapply rtc_l; [eapply l_raise; exact Hk|]. etrans; [apply IH; cbn; apply lookup_insert_eq|].
      unfold goto, unlock. cbn. rewrite insert_insert_eq. apply rtc_refl. }
  eexists. split; [etrans; [by eapply enter_guard|]|].
  - apply (Hunwind rest). cbn. apply lookup_insert_eq.
  - cbn. by rewrite lookup_insert_eq, lookup_delete_eq.
Qed.
End called.

(** ** Instances *)

(** A thread that guards a mutex twice. *)
Definition twice : gmap nat (list (@stmt unit unit)) := {[ 1%nat := [Guard 0 [Guard 0 []]] ]}.
Definition stuck_world : @World unit unit :=
  {| state := tt; owner := {[ 0%nat := 1%nat ]}; code := {[ 1%nat := [Run (Guard 0 []); Unlock 0] ]} |}.

Lemma lock_exclusion_witness :
  lsteps (fun (_ : unit) s => s) (start tt twice) stuck_world /\
  forall w', lsteps (fun (_ : unit) s => s) stuck_world w' -> owner w' !! 0%nat = Some 1%nat.
Proof.
  assert (lsteps (fun (_ : unit) s => s) (start tt twice) stuck_world) as Hs.
  { apply rtc_once. exists 1%nat.
    refine (l_guard _ 1 (start tt twice) 0 [Guard 0 []] [] _ _); vm_compute; reflexivity. }
  split; [exact Hs|].
  destruct (lock_exclusion (fun (_ : unit) s => s) tt twice stuck_world Hs) as (_ & _ & _ & Hstuck).
  intros w' Hw'. apply (Hstuck 1%nat 0%nat [Run (Guard 0 []); Unlock 0]).
  - vm_compute. reflexivity.
  - split; [left|]. vm_compute. discriminate.
  - exists [], [Unlock 0]. reflexivity.
  - exact Hw'.
Defined.
