(* ===== verification/Signals.v ===== *)
(** * The signal handlers (example/server, example/gateway, test/tcp_test)

    The handlers that the three servers install with [signal], as code in the sense of [Lock]:
    they log and stop the server, and so take the mutexes of the logger and of the server.  A
    signal makes some thread run its handler in the middle of whatever it is doing. *)

From S2P Require Import Prelude Lock.

Section signals.
Context {S : Type}.

(** What the code does besides locking: [Leave] is what follows [stop], the shutdown of the
    pool or the exit. *)
Inductive work := Enqueue | ClearRunning | CloseAll | CloseSockets | CountSessions | CountQueued
  | NotRunning | Leave.

#[global] Instance work_eq_dec : EqDecision work.
Proof. solve_decision. Defined.

Context (act : work -> S -> S).

Definition statement : Type := @stmt S work.

(** [Logger::queue_mtx_], [TcpServer::conn_mutex_] and [ThreadPool::queue_mutex_]. *)
Definition queue_mtx_ : nat := 0.
Definition conn_mutex_ : nat := 1.
Definition queue_mutex_ : nat := 2.
Definition queue_cv_ : nat := 0.

(** A line of a level that is let through.  [notify_one] also follows an entry that is turned
    away, which wakes the log thread once too often. *)
Definition log_code : list statement := [Guard queue_mtx_ [Do Enqueue]; NotifyOne queue_cv_].

(** [TcpServer::stop]; [running]: there is a server and its [running_] is set. *)
Definition stop_code (running : bool) : list statement :=
  if running then
    [Do ClearRunning; Guard conn_mutex_ [Do CloseAll]; Do CloseSockets] ++ log_code
  else [].

Definition session_count_code : statement := Guard conn_mutex_ [Do CountSessions].
Definition queued_count_code : statement := Guard queue_mutex_ [Do CountQueued].

(** A turn of the loop at the end of [main], after the sleep. *)
Definition server_turn : list statement := session_count_code :: log_code.
Definition gateway_turn : list statement := session_count_code :: queued_count_code :: log_code.

(** The handlers. *)
Definition server_handler (running : bool) : list statement :=
  log_code ++ stop_code running ++ [Do Leave].
Definition test_handler (running : bool) : list statement := stop_code running ++ [Do Leave].
Definition gateway_handler (running : bool) : list statement :=
  log_code ++ [Do NotRunning] ++ stop_code running ++ [Do Leave].

Inductive program := Server | TcpTest | GatewayServer.

Definition signal_handler (p : program) (running : bool) : list statement :=
  match p with
  | Server => server_handler running
  | TcpTest => test_handler running
  | GatewayServer => gateway_handler running
  end.

(** The mutexes it takes. *)
Definition handler_mutexes (p : program) (running : bool) : list nat :=
  omap (fun x => match x with Guard m _ => Some m | _ => None end) (signal_handler p running).

(** Thread [t], which has [k] still to do, gets the signal. *)
Definition signalled (p : program) (running : bool) (t : nat) (k : list instr) (w : World) : World :=
  goto t ((Run <$> signal_handler p running) ++ k) w.

(** ** Code in front of a guard *)

(** Code that comes to its end but for the mutexes: a guard of single actions. *)
Definition simple (x : statement) : Prop :=
  match x with
  | Do a => a <> Leave
  | Guard _ [Do a] => a <> Leave
  | NotifyOne _ => True
  | _ => False
  end.

(** What such code can have become, with the mutex [m] not released. *)
Definition on_the_way (m : nat) (i : @instr S work) : Prop :=
  match i with Run x => simple x | Unlock m' => m' <> m | _ => False end.

(** The thread has code before it gets to a guard of [m], which it holds. *)
Definition bound_for (m t : nat) (w : World) : Prop :=
  exclusive w /\ owner w !! m = Some t /\
  exists x body y, code w !! t = Some (x ++ Run (Guard m body) :: y) /\ Forall (on_the_way m) x.

Lemma simple_code m xs : Forall simple xs -> Forall (on_the_way m) (Run <$> xs).
Proof. intros Hx. by apply Forall_fmap. Qed.

Lemma bound_for_own m t w w' : lstep act t w w' -> bound_for m t w -> bound_for m t w'.
Proof.
  intros Hst (Hw & Ho & x & body & y & Hk & Hx).
  split; [by eapply lstep_exclusive|].
  assert (forall x', Forall (on_the_way m) x' -> exists x0 body0 y0,
    <[t := x' ++ Run (Guard m body) :: y]> (code w) !! t = Some (x0 ++ Run (Guard m body0) :: y0) /\
    Forall (on_the_way m) x0) as Hgo.
  { intros x' Hx'. exists x', body, y. by rewrite lookup_insert_eq. }
  destruct x as [|i x].
  { by destruct Hst; cbn in Hk; simplify_eq. }
  apply Forall_cons in Hx as [Hi Hx]. cbn in Hk.
  destruct Hst as [w a k Ha|w f k Ha|w m' b k Ha Hm|w m' k Ha|w c m' pred k Ha Hm Hp
    |w c m' pred k Ha Hm Hp|w c m' pred k Ha|w c m' pred k Ha Hm|w c u k ku Ha Hu Hs|w c k Ha Hn
    |w c k Ha|w s k Ha|w m' k Ha]; rewrite Ha in Hk; simplify_eq; try done; cbn.
  - split; [done|]. by apply Hgo.
  - rewrite lookup_insert_ne by congruence. split; [done|]. cbn in Hi.
    destruct b as [|[a| | | | | |] [|]]; try done.
    apply (Hgo ([Run (Do a); Unlock m'] ++ x)). repeat constructor; [done| |done]. cbn. congruence.
  - rewrite lookup_delete_ne by done. split; [done|]. by apply Hgo.
  - split; [done|]. assert (t <> u) as Hne by (intros <-; rewrite Ha in Hu; by simplify_eq/=).
    exists x, body, y. by rewrite lookup_insert_eq.
  - split; [done|]. by apply Hgo.
Qed.

Lemma bound_for_other m t u w w' : u <> t -> lstep act u w w' -> bound_for m t w -> bound_for m t w'.
Proof.
  intros Hne Hst (Hw & Ho & x & body & y & Hk & Hx). split; [by eapply lstep_exclusive|].
  split; [by eapply lstep_owner|]. exists x, body, y. split; [|done].
  eapply lstep_others; [done..|]. intros c. destruct x as [|i x]; [by intros []|].
  apply Forall_cons in Hx as [Hi _]. destruct i; try done; by intros [].
Qed.

Lemma bound_for_steps m t w w' : lsteps act w w' -> bound_for m t w -> bound_for m t w'.
Proof.
  induction 1 as [|x y z [u Hst] _ IH]; [done|]. intros Hb. apply IH.
  destruct (decide (u = t)) as [->|Hne]; [by eapply bound_for_own|by eapply bound_for_other].
Qed.

Lemma bound_for_leave m t w k : bound_for m t w -> code w !! t <> Some (Run (Do Leave) :: k).
Proof.
  intros (_ & _ & x & body & y & Hk & Hx). rewrite Hk. destruct x as [|i x]; [by intros [=]|].
  apply Forall_cons in Hx as [Hi _]. cbn. intros [= -> _]. by apply Hi.
Qed.

(** Who waits for the mutex goes on waiting. *)
Lemma bound_for_waiting m t v kv w w' :
  lsteps act w w' -> bound_for m t w -> code w !! v = Some kv -> waits_for m kv ->
  code w' !! v = Some kv.
Proof.
  induction 1 as [|x y z [u Hst] Hs IH]; [done|]. intros Hb Hv Hwv.
  assert (bound_for m t y) as Hb' by (eapply bound_for_steps; [|exact Hb]; apply rtc_once; by exists u).
  apply IH; [done| |done]. eapply lstep_others; [done| |done|].
  - intros ->. pose proof (lstep_waiting _ _ _ _ _ _ Hst Hv Hwv). destruct Hb as (_ & Ho & _). congruence.
  - destruct Hwv as (? & ? & ->). by intros c [].
Qed.

(** ** Code that comes to its end *)

#[local] Instance sleeps_dec c (k : list (@instr S work)) : Decision (sleeps c k).
Proof. destruct k as [|[] k]; cbn; apply _. Defined.

Lemma notify_done t c k w :
  code w !! t = Some (Run (NotifyOne c) :: k) ->
  exists w', lstep act t w w' /\ code w' !! t = Some k /\ owner w' = owner w.
Proof.
  intros Hk.
  destruct (decide (map_Exists (fun _ ku => sleeps c ku) (code w))) as [(u & ku & Hu & Hs)|Hno].
  - eexists. split; [by eapply (l_notify_one _ t w c u)|]. cbn. by rewrite lookup_insert_eq.
  - eexists. split; [apply (l_notify_none _ t w c k Hk)|cbn; by rewrite lookup_insert_eq].
    intros u ku Hu Hs. apply Hno. by exists u, ku.
Qed.

Definition lock_free (x : statement) (w : @World S work) : Prop :=
  match x with Guard m _ => owner w !! m = None | _ => True end.

Lemma simple_done t x k w :
  simple x -> lock_free x w -> code w !! t = Some (Run x :: k) ->
  exists w', rtc (lstep act t) w w' /\ code w' !! t = Some k /\ owner w' = owner w.
Proof.
  intros Hx Hf Hk. destruct x as [a| |m body| |c| |]; try done.
  - eexists. split; [by eapply rtc_once, l_do|]. cbn. by rewrite lookup_insert_eq.
  - destruct body as [|[a| | | | | |] [|]]; try done.
    eexists. split.
    + eapply rtc_l; [by eapply l_guard|]. eapply rtc_l; [eapply l_do; cbn; apply lookup_insert_eq|].
      eapply rtc_l; [eapply l_unlock; cbn; apply lookup_insert_eq|]. apply rtc_refl.
    + cbn. rewrite lookup_insert_eq. split; [done|]. by apply delete_insert_id.
  - destruct (notify_done t c k w Hk) as (w' & Hst & Hk' & Ho). exists w'. split; [by apply rtc_once|done].
Qed.

Lemma simples_done t xs k w :
  Forall simple xs -> Forall (fun x => lock_free x w) xs -> code w !! t = Some ((Run <$> xs) ++ k) ->
  exists w', rtc (lstep act t) w w' /\ code w' !! t = Some k /\ owner w' = owner w.
Proof.
  revert w. induction xs as [|x xs IH]; intros w Hx Hf Hk; [by exists w|].
  apply Forall_cons in Hx as [Hx Hxs]. apply Forall_cons in Hf as [Hf Hfs].
  destruct (simple_done t x _ w Hx Hf Hk) as (w1 & Hs1 & Hk1 & Ho1).
  destruct (IH w1 Hxs) as (w2 & Hs2 & Hk2 & Ho2); [|done|].
  { eapply Forall_impl; [exact Hfs|]. intros [] Hl; try done. cbn in *. by rewrite Ho1. }
  exists w2. split; [by etrans|]. by rewrite Ho2, Ho1.
Qed.

(** The handler is simple code followed by [Leave], with a guard for each of its mutexes. *)
Lemma handler_simple p running :
  exists xs, signal_handler p running = xs ++ [Do Leave] /\ Forall simple xs.
Proof.
  exists (match p with
          | Server => log_code ++ stop_code running
          | TcpTest => stop_code running
          | GatewayServer => log_code ++ [Do NotRunning] ++ stop_code running
          end).
  destruct p, running; (split; [reflexivity|by repeat constructor]).
Qed.

Lemma guard_split xs ys m :
  Forall simple xs -> m ∈ omap (fun x : statement => match x with Guard m _ => Some m | _ => None end) xs ->
  exists pre body post, xs ++ ys = pre ++ Guard m body :: post /\ Forall simple pre.
Proof.
  induction 1 as [|x xs Hx Hxs IH]; [by intros ?%not_elem_of_nil|]. intros Hm.
  destruct (decide (Some m = match x with Guard m _ => Some m | _ => None end)) as [E|Hne].
  - destruct x as [| |m' body| | | |]; try done. injection E as <-. by exists [], body, (xs ++ ys).
  - destruct IH as (pre & body & post & E & Hp).
    { destruct x; cbn in Hm; try done. apply elem_of_cons in Hm as [->|]; done. }
    exists (x :: pre), body, post. split; [by cbn; rewrite E|by constructor].
Qed.

Lemma handler_split p running m :
  m ∈ handler_mutexes p running ->
  exists pre body post, signal_handler p running = pre ++ Guard m body :: post /\ Forall simple pre.
Proof.
  unfold handler_mutexes. destruct (handler_simple p running) as (xs & -> & Hs).
  rewrite omap_app, app_nil_r. by apply guard_split.
Qed.

(** A signal keeps who is inside what. *)
Lemma signalled_exclusive p running t k w :
  exclusive w -> code w !! t = Some k -> Forall plain k -> exclusive (signalled p running t k w).
Proof.
  intros Hw Hk Hp. eapply exclusive_goto; [done|done| |].
  - apply tidy_plain; [by apply plain_run|]. rewrite guards_run. by apply (ex_tidy _ Hw _ _ Hk).
  - intros m. rewrite !inside_plain by (done || by apply plain_run). by rewrite guards_run.
Qed.
End signals.

(** C8: A signal, at any moment of any run of any threads, to a thread [t] that is not
    waiting on a condition variable.  If [t] is then inside a guard of a mutex that its
    handler takes, that of the logger's queue or, while the server runs, that of its
    connections, the handler never gets past [stop]: whatever the threads do afterwards, [t]
    keeps the mutex and never comes to the exit, and every thread that waits for it stays where
    it is.  If those mutexes are free the handler gets there on its own, and leaves them free. *)
Theorem signal_handler_locks {S} (act : work -> S -> S) s progs w t k p running :
  lsteps act (start s progs) w -> code w !! t = Some k -> Forall plain k ->
  (forall m, m ∈ @handler_mutexes S p running -> inside k m ->
     forall w', lsteps act (signalled p running t k w) w' ->
       owner w' !! m = Some t /\ (forall k', code w' !! t <> Some (Run (Do Leave) :: k')) /\
       forall v kv, v <> t -> code w !! v = Some kv -> waits_for m kv -> code w' !! v = Some kv) /\
  ((forall m, m ∈ @handler_mutexes S p running -> owner w !! m = None) ->
   exists w', rtc (lstep act t) (signalled p running t k w) w' /\
     code w' !! t = Some (Run (Do Leave) :: k) /\ owner w' = owner w).
Proof.
  intros Hs Hk Hp. pose proof (lsteps_exclusive act _ _ (exclusive_start s progs) Hs) as Hw.
  assert (code (signalled p running t k w) !! t = Some ((Run <$> signal_handler p running) ++ k)) as Hk1
    by apply lookup_insert_eq.
  split.
  - intros m Hm Hi w' Hs'. destruct (handler_split p running m Hm) as (pre & body & post & Eh & Hpre).
    assert (bound_for m t (signalled p running t k w)) as Hb.
    { split; [by eapply signalled_exclusive|]. split; [apply (ex_owner _ Hw); by exists k|].
      exists (Run <$> pre), body, ((Run <$> post) ++ k). split; [|by apply simple_code].
      by rewrite Hk1, Eh, fmap_app, <-app_assoc. }
    pose proof (bound_for_steps act m t _ _ Hs' Hb) as Hb'.
    split_and!; [apply Hb'|intros k'; by apply (bound_for_leave m)|].
    intros v kv Hne Hv Hwv. eapply bound_for_waiting; [done|done| |done].
    cbn. by rewrite lookup_insert_ne.
  - intros Hfree. destruct (@handler_simple S p running) as (xs & Eh & Hsimple).
    apply (simples_done act t xs _ (signalled p running t k w)); [done| |by rewrite Hk1, Eh, fmap_app, <-app_assoc].
    apply Forall_forall. intros x Hx. destruct x as [| |m body| | | |]; try done. apply Hfree.
    unfold handler_mutexes. rewrite Eh, omap_app. apply elem_of_app. left.
    apply list_elem_of_omap. by exists (Guard m body).
Qed.

(** ** Instance *)

(** [main] of example/server in [session_count], and an accept thread that wants to add a
    connection. *)
Definition serving : gmap nat (list (@statement (list work))) :=
  {[ 0%nat := server_turn; 1%nat := [Guard conn_mutex_ []] ]}.
Definition trace_work (a : work) (s : list work) : list work := s ++ [a].
Definition counting : World :=
  {| state := @nil work; owner := {[ conn_mutex_ := 0%nat ]};
     code := <[ 0%nat := [Run (Do CountSessions); Unlock conn_mutex_] ++ (Run <$> log_code) ]>
       (code (start (@nil work) serving)) |}.

Lemma signal_handler_locks_witness :
  lsteps trace_work (start (@nil work) serving) counting /\
  forall w', lsteps trace_work
      (signalled Server true 0 ([Run (Do CountSessions); Unlock conn_mutex_] ++ (Run <$> log_code)) counting) w' ->
    owner w' !! conn_mutex_ = Some 0%nat /\ code w' !! 1%nat = Some [Run (Guard conn_mutex_ [])].
Proof.
  assert (lsteps trace_work (start (@nil work) serving) counting) as Hs.
  { apply rtc_once. exists 0%nat.
    refine (l_guard _ 0 (start (@nil work) serving) conn_mutex_ [Do CountSessions] (Run <$> log_code) _ _);
      reflexivity. }
  split; [exact Hs|]. intros w' Hw'.
  destruct (signal_handler_locks trace_work (@nil work) serving counting 0
    ([Run (Do CountSessions); Unlock conn_mutex_] ++ (Run <$> log_code)) Server true) as [Hlost _].
  - exact Hs.
  - reflexivity.
  - repeat constructor.
  - destruct (Hlost conn_mutex_) with (w' := w') as (Ho & _ & Hv).
    + right. left.
    + split; [left|discriminate].
    + exact Hw'.
    + split; [exact Ho|]. apply (Hv 1%nat); [discriminate|reflexivity|]. exists [], []. reflexivity.
Defined.
