(* ===== verification/ByteOrder.v ===== *)
(** * Byte order (network/codec/codec.cpp, class ByteOrder)

    The process-wide flag [g_little_endian] and the swaps that consult it, and
    the representation in memory of an integer object on a host of either
    endianness, which is what the [memcpy] calls of the codec and of the packet
    protocol copy. *)

From S2P Require Import Prelude.

Open Scope Z_scope.

(** The bytes of an integer object of [n] bytes on a host: least significant
    first when [host_le]. *)
Definition mem_bytes (host_le : bool) (n : nat) (z : Z) : list byte :=
  if host_le then le_bytes n z else be_bytes n z.

Definition mem_val (host_le : bool) (bs : list byte) : Z :=
  if host_le then le_val bs else be_val bs.

(** [ByteOrder::init]: the flag is the comparison of the first byte of
    [uint16_t v = 0x1234] with [0x34]. *)
Definition init (host_le : bool) : bool :=
  bool_decide (head (mem_bytes host_le 2 0x1234) = Some x34).

Definition htons (g_little_endian : bool) (v : Z) : Z :=
  if negb g_little_endian then v
  else u16 (Z.lor (Z.shiftr v 8) (Z.shiftl v 8)).

Definition ntohs (g_little_endian : bool) (v : Z) : Z := htons g_little_endian v.

Definition htonl (g_little_endian : bool) (v : Z) : Z :=
  if negb g_little_endian then v
  else
    u32 (Z.lor (Z.lor (Z.lor
      (Z.shiftr (Z.land v 0xFF000000) 24)
      (Z.shiftr (Z.land v 0x00FF0000) 8))
      (Z.shiftl (Z.land v 0x0000FF00) 8))
      (Z.shiftl (Z.land v 0x000000FF) 24)).

Definition ntohl (g_little_endian : bool) (v : Z) : Z := htonl g_little_endian v.

Definition htonll (g_little_endian : bool) (v : Z) : Z :=
  if negb g_little_endian then v
  else
    u64 (Z.lor (Z.lor (Z.lor (Z.lor (Z.lor (Z.lor (Z.lor
      (Z.shiftr (Z.land v 0xFF00000000000000) 56)
      (Z.shiftr (Z.land v 0x00FF000000000000) 40))
      (Z.shiftr (Z.land v 0x0000FF0000000000) 24))
      (Z.shiftr (Z.land v 0x000000FF00000000) 8))
      (Z.shiftl (Z.land v 0x00000000FF000000) 8))
      (Z.shiftl (Z.land v 0x0000000000FF0000) 24))
      (Z.shiftl (Z.land v 0x000000000000FF00) 40))
      (Z.shiftl (Z.land v 0x00000000000000FF) 56)).

Definition ntohll (g_little_endian : bool) (v : Z) : Z := htonll g_little_endian v.

(** [init] finds the endianness of the host. *)
Lemma init_host host_le : init host_le = host_le.
Proof. destruct host_le; vm_compute; reflexivity. Qed.

(** Two bytes agree when their eight bits do; the bits are compared one at a
    time, masks evaluated. *)
Ltac byte_by_bits :=
  apply z2b_ext; let i := fresh "i" in intros i ?; case_index i 8%nat;
  unfold u16, u32, u64; eval_bits; reflexivity.

(** ** The swaps reverse the bytes of the object *)

Lemma le_bytes_htons v :
  0 <= v < 2 ^ 16 -> le_bytes 2 (htons true v) = be_bytes 2 v.
Proof.
  intros Hv. unfold be_bytes, htons; cbn [le_bytes rev app negb].
  repeat apply (f_equal2 cons); [..|done]; apply z2b_ext; intros i ?;
    case_index i 8%nat; unfold u16; eval_bits;
    rewrite 1?(testbit_above 16 v) by lia; done.
Qed.

Lemma le_bytes_htonl v : le_bytes 4 (htonl true v) = be_bytes 4 v.
Proof.
  unfold be_bytes, htonl; cbn [le_bytes rev app negb].
  repeat apply (f_equal2 cons); [byte_by_bits..|done].
Qed.

Lemma le_bytes_htonll v : le_bytes 8 (htonll true v) = be_bytes 8 v.
Proof.
  unfold be_bytes, htonll; cbn [le_bytes rev app negb].
  repeat apply (f_equal2 cons); [byte_by_bits..|done].
Qed.

(** ** Ranges *)

Lemma htons_range g v : 0 <= v < 2 ^ 16 -> 0 <= htons g v < 2 ^ 16.
Proof. destruct g; simpl; [intros _; apply u16_range|done]. Qed.

Lemma htonl_range g v : 0 <= v < 2 ^ 32 -> 0 <= htonl g v < 2 ^ 32.
Proof. destruct g; simpl; [intros _; apply u32_range|done]. Qed.

Lemma htonll_range g v : 0 <= v < 2 ^ 64 -> 0 <= htonll g v < 2 ^ 64.
Proof. destruct g; simpl; [intros _; apply u64_range|done]. Qed.

(** ** The object written by [memcpy] after a swap is big-endian *)

Lemma mem_htons host v :
  0 <= v < 2 ^ 16 ->
  mem_bytes host 2 (htons (init host) v) = be_bytes 2 v.
Proof.
  intros Hv. rewrite init_host. destruct host; simpl; [|done].
  by apply le_bytes_htons.
Qed.

Lemma mem_htonl host v :
  mem_bytes host 4 (htonl (init host) v) = be_bytes 4 v.
Proof.
  rewrite init_host. destruct host; [apply le_bytes_htonl|done].
Qed.

Lemma mem_htonll host v :
  mem_bytes host 8 (htonll (init host) v) = be_bytes 8 v.
Proof.
  rewrite init_host. destruct host; [apply le_bytes_htonll|done].
Qed.

(** A big-endian field read by [memcpy] and swapped back. *)

Lemma ntohl_mem host bs :
  length bs = 4%nat ->
  ntohl (init host) (mem_val host bs) = be_val bs.
Proof.
  intros Hl. rewrite init_host. unfold ntohl.
  destruct host; simpl; [|done].
  pose proof (le_val_range bs) as Hr. rewrite Hl in Hr.
  pose proof (htonl_range true (le_val bs)) as Hr'.
  pose proof (be_val_range bs) as Hb. rewrite Hl in Hb.
  assert (be_bytes 4 (le_val bs) = rev bs) as E.
  { unfold be_bytes. by rewrite <-Hl, le_bytes_val. }
  rewrite <-le_bytes_htonl in E.
  apply (f_equal le_val) in E. rewrite le_val_bytes in E.
  unfold be_val. rewrite <-E, Z.mod_small; [done|].
  apply Hr'. exact Hr.
Qed.

Lemma ntohs_mem host bs :
  length bs = 2%nat ->
  ntohs (init host) (mem_val host bs) = be_val bs.
Proof.
  intros Hl. rewrite init_host. unfold ntohs.
  destruct host; simpl; [|done].
  pose proof (le_val_range bs) as Hr. rewrite Hl in Hr.
  assert (be_bytes 2 (le_val bs) = rev bs) as E.
  { unfold be_bytes. by rewrite <-Hl, le_bytes_val. }
  rewrite <-le_bytes_htons in E by exact Hr.
  apply (f_equal le_val) in E. rewrite le_val_bytes in E.
  unfold be_val. rewrite <-E, Z.mod_small; [done|].
  apply htons_range. exact Hr.
Qed.

(** ** Involutions *)

Lemma le_bytes_inj n a b :
  0 <= a < 2 ^ (8 * Z.of_nat n) -> 0 <= b < 2 ^ (8 * Z.of_nat n) ->
  le_bytes n a = le_bytes n b -> a = b.
Proof.
  intros Ha Hb H. apply (f_equal le_val) in H.
  rewrite !le_val_bytes, !Z.mod_small in H; lia.
Qed.

(** A swap that reverses the bytes of every [n]-byte integer and stays in range
    is its own inverse. *)
Lemma swap_involutive n (f : Z -> Z) :
  (forall v, 0 <= v < 2 ^ (8 * Z.of_nat n) ->
     0 <= f v < 2 ^ (8 * Z.of_nat n) /\ le_bytes n (f v) = be_bytes n v) ->
  forall v, 0 <= v < 2 ^ (8 * Z.of_nat n) -> f (f v) = v.
Proof.
  intros Hf v Hv. destruct (Hf v Hv) as [Hr Hb].
  destruct (Hf (f v) Hr) as [Hr' Hb'].
  apply (le_bytes_inj n); [done..|].
  rewrite Hb'. unfold be_bytes. rewrite Hb. apply rev_involutive.
Qed.

(** the byte-order conversions.  On a host of either endianness, once
    [ByteOrder::init] has run, the object that [htons], [htonl] and [htonll]
    produce is stored in memory most significant byte first, and each [ntoh]
    function undoes the corresponding [hton] function on every value of the
    width. *)
Theorem byteorder_network_order (host : bool) (v16 v32 v64 : Z)
  (H16 : 0 <= v16 < 2 ^ 16) (H32 : 0 <= v32 < 2 ^ 32) (H64 : 0 <= v64 < 2 ^ 64) :
  let g := init host in
  (mem_bytes host 2 (htons g v16) = be_bytes 2 v16 /\
  mem_bytes host 4 (htonl g v32) = be_bytes 4 v32 /\
  mem_bytes host 8 (htonll g v64) = be_bytes 8 v64) /\
  ntohs g (htons g v16) = v16 /\
  ntohl g (htonl g v32) = v32 /\
  ntohll g (htonll g v64) = v64.
Proof.
  cbv zeta. split.
  { eauto using mem_htons, mem_htonl, mem_htonll. }
  rewrite init_host. destruct host; [|done].
  unfold ntohs, ntohl, ntohll.
  split; [|split].
  - apply (swap_involutive 2); [|exact H16].
    eauto using htons_range, le_bytes_htons.
  - apply (swap_involutive 4); [|exact H32].
    eauto using htonl_range, le_bytes_htonl.
  - apply (swap_involutive 8); [|exact H64].
    eauto using htonll_range, le_bytes_htonll.
Qed.

Lemma byteorder_network_order_witness :
  htonl (init true) 0x0A0B0C0D = 0x0D0C0B0A /\
  mem_bytes true 4 (htonl (init true) 0x0A0B0C0D)
    = [x0a; x0b; x0c; x0d].
Proof.
  split; [vm_compute; reflexivity|].
  pose proof (byteorder_network_order true 0x1234 0x0A0B0C0D 0
    ltac:(lia) ltac:(lia) ltac:(lia)) as H.
  destruct H as [[_ [H _]] _]. rewrite H. vm_compute. reflexivity.
Defined.
