(* ===== verification/CRC32.v ===== *)
(** * CRC-32 (network/codec/codec.cpp, class CRC32)

    The table, the table-driven computation of [CRC32::calculate], the bit-serial
    reference it is equivalent to, and the error-detection property that the
    frame check of the codec rests on. *)

From S2P Require Import Prelude.

Open Scope Z_scope.

(** The inner statement of [init_crc32_table]:
    [c = (c & 1) ? (0xEDB88320 ^ (c >> 1)) : (c >> 1)]. *)
Definition crc_bit (c : Z) : Z :=
  if Z.testbit c 0 then Z.lxor 0xEDB88320 (Z.shiftr c 1) else Z.shiftr c 1.

(** The inner loop: eight times. *)
Definition crc_entry (i : Z) : Z := Nat.iter 8 crc_bit i.

(** [init_crc32_table]: the 256 entries. *)
Definition crc32_table : list Z :=
  Eval vm_compute in map (fun i => crc_entry (Z.of_nat i)) (seq 0 256).

Definition table_lookup (i : Z) : Z := nth (Z.to_nat i) crc32_table 0.

(** The body of the loop of [calculate]. *)
Definition crc_update (crc : Z) (p : byte) : Z :=
  Z.lxor (table_lookup (Z.land (Z.lxor crc (b2z p)) 0xFF)) (Z.shiftr crc 8).

(** The loop, from a given register. *)
Definition crc_run (crc : Z) (data : list byte) : Z := fold_left crc_update data crc.

Definition calculate (data : list byte) : Z :=
  Z.lxor (crc_run 0xFFFFFFFF data) 0xFFFFFFFF.

Definition verify (data : list byte) (expected : Z) : bool :=
  calculate data =? expected.

(** The reference: the register is xored with the byte and then shifted one bit
    at a time, without a table. *)
Definition ref_update (crc : Z) (p : byte) : Z :=
  Nat.iter 8 crc_bit (Z.lxor crc (b2z p)).

Definition reference (data : list byte) : Z :=
  Z.lxor (fold_left ref_update data 0xFFFFFFFF) 0xFFFFFFFF.

Example calculate_check :
  calculate (map z2b [0x31;0x32;0x33;0x34;0x35;0x36;0x37;0x38;0x39]) = 0xCBF43926.
Proof. vm_compute. reflexivity. Qed.

(** ** One bit *)

Lemma crc_bit_spec c i :
  0 <= i ->
  Z.testbit (crc_bit c) i =
    xorb (Z.testbit c 0 && Z.testbit 0xEDB88320 i) (Z.testbit c (i + 1)).
Proof.
  intros Hi. unfold crc_bit. destruct (Z.testbit c 0).
  - by rewrite Z.lxor_spec, Z.shiftr_spec by lia.
  - by rewrite Z.shiftr_spec, andb_false_l, xorb_false_l by lia.
Qed.

(** The step is linear over exclusive or. *)
Lemma crc_bit_lxor a b : crc_bit (Z.lxor a b) = Z.lxor (crc_bit a) (crc_bit b).
Proof.
  apply Z.bits_inj'; intros i Hi.
  rewrite Z.lxor_spec, !crc_bit_spec, !Z.lxor_spec by lia.
  destruct (Z.testbit a 0), (Z.testbit b 0), (Z.testbit 0xEDB88320 i),
    (Z.testbit a (i + 1)), (Z.testbit b (i + 1)); reflexivity.
Qed.

Lemma crc_bit_range c : 0 <= c < 2 ^ 32 -> 0 <= crc_bit c < 2 ^ 32.
Proof.
  intros Hc.
  assert (0 <= Z.shiftr c 1 < 2 ^ 32).
  { rewrite Z.shiftr_div_pow2 by lia. split; [apply Z.div_pos; lia|].
    apply Z.div_lt_upper_bound; lia. }
  unfold crc_bit. destruct (Z.testbit c 0); [|done].
  apply lxor_range; lia.
Qed.

(** An even register is shifted. *)
Lemma crc_bit_even c : Z.testbit c 0 = false -> crc_bit c = Z.shiftr c 1.
Proof. unfold crc_bit. by intros ->. Qed.

(** Bit 31 of the polynomial is set, so the low bit of the register can be read
    back off bit 31 of the result: the step is injective. *)
Lemma crc_bit_inj a b :
  0 <= a < 2 ^ 32 -> 0 <= b < 2 ^ 32 -> crc_bit a = crc_bit b -> a = b.
Proof.
  intros Ha Hb E.
  assert (forall i, 0 <= i -> Z.testbit (crc_bit a) i = Z.testbit (crc_bit b) i)
    as Hbits by (intros; by rewrite E).
  assert (Z.testbit a 0 = Z.testbit b 0) as H0.
  { pose proof (Hbits 31 ltac:(lia)) as H31.
    rewrite !crc_bit_spec, !(testbit_above 32 _ (31 + 1)) in H31 by lia.
    change (Z.testbit 0xEDB88320 31) with true in H31.
    by rewrite !andb_true_r, !xorb_false_r in H31. }
  apply Z.bits_inj'; intros i Hi.
  destruct (decide (i = 0)) as [->|]; [done|].
  specialize (Hbits (i - 1) ltac:(lia)).
  rewrite !crc_bit_spec, H0 in Hbits by lia.
  replace (i - 1 + 1) with i in Hbits by lia.
  by destruct (Z.testbit b 0 && _), (Z.testbit a i), (Z.testbit b i).
Qed.

(** ** Eight bits *)

Lemma iter_bit_lxor n a b :
  Nat.iter n crc_bit (Z.lxor a b) = Z.lxor (Nat.iter n crc_bit a) (Nat.iter n crc_bit b).
Proof. induction n as [|n IH]; simpl; [done|]. by rewrite IH, crc_bit_lxor. Qed.

Lemma iter_bit_range n c :
  0 <= c < 2 ^ 32 -> 0 <= Nat.iter n crc_bit c < 2 ^ 32.
Proof. intros Hc. induction n; simpl; [done|by apply crc_bit_range]. Qed.

Lemma iter_bit_inj n a b :
  0 <= a < 2 ^ 32 -> 0 <= b < 2 ^ 32 ->
  Nat.iter n crc_bit a = Nat.iter n crc_bit b -> a = b.
Proof.
  intros Ha Hb. induction n as [|n IH]; simpl; [done|].
  intros E. apply IH. by apply crc_bit_inj; [apply iter_bit_range..|].
Qed.

(** The bits above the [n] low ones are only shifted by [n] steps. *)
Lemma iter_bit_shiftl n x :
  Nat.iter n crc_bit (Z.shiftl x (Z.of_nat n)) = x.
Proof.
  revert x. induction n as [|n IH]; intros x; [apply Z.shiftl_0_r|].
  rewrite Nat.iter_succ_r.
  replace (Z.of_nat (S n)) with (Z.of_nat n + 1) by lia.
  rewrite crc_bit_even by (rewrite Z.shiftl_spec_low by lia; done).
  rewrite <-Z.shiftl_shiftl, Z.shiftr_shiftl_l, Z.sub_diag, Z.shiftl_0_r by lia.
  apply IH.
Qed.

Lemma split_byte c :
  c = Z.lxor (Z.land c 0xFF) (Z.shiftl (Z.shiftr c 8) 8).
Proof.
  apply Z.bits_inj'; intros i Hi.
  rewrite Z.lxor_spec, Z.land_spec. change 0xFF with (Z.ones 8).
  destruct (decide (i < 8)).
  - rewrite Z.ones_spec_low, Z.shiftl_spec_low by lia.
    by rewrite andb_true_r, xorb_false_r.
  - rewrite Z.ones_spec_high, Z.shiftl_spec, Z.shiftr_spec by lia.
    rewrite andb_false_r, xorb_false_l. f_equal. lia.
Qed.

(** Eight bit steps are one table step. *)
Lemma crc_entry_step c :
  crc_entry c = Z.lxor (crc_entry (Z.land c 0xFF)) (Z.shiftr c 8).
Proof.
  unfold crc_entry. rewrite (split_byte c) at 1. rewrite iter_bit_lxor. f_equal.
  apply (iter_bit_shiftl 8).
Qed.

(** ** The table *)

Lemma table_entry i : 0 <= i < 256 -> table_lookup i = crc_entry i.
Proof.
  intros Hi. unfold table_lookup.
  assert (crc32_table = map (fun i => crc_entry (Z.of_nat i)) (seq 0 256)) as ->
    by (vm_compute; reflexivity).
  rewrite (nth_indep _ 0 (crc_entry (Z.of_nat 0))) by (rewrite length_map, length_seq; lia).
  rewrite (map_nth (fun i => crc_entry (Z.of_nat i))), seq_nth by lia.
  f_equal. lia.
Qed.

Lemma crc_update_entry crc p :
  crc_update crc p = crc_entry (Z.lxor crc (b2z p)).
Proof.
  unfold crc_update. rewrite crc_entry_step, table_entry.
  - f_equal. apply Z.bits_inj'; intros i Hi.
    rewrite !Z.shiftr_spec, Z.lxor_spec by lia.
    by rewrite (testbit_above 8 (b2z p)), xorb_false_r
      by (pose proof (b2z_range p); lia).
  - change 0xFF with (Z.ones 8). rewrite Z.land_ones by lia.
    apply Z.mod_pos_bound. lia.
Qed.

(** C16: the table-driven loop of [CRC32::calculate] computes the bit-serial
    CRC-32 of the reflected polynomial 0xEDB88320 (initial register and final
    mask 0xFFFFFFFF) on every input, [verify] accepts exactly that value, and
    the result fits the [uint32_t] it is returned in. *)
Theorem crc32_table_driven_correct (data : list byte) (expected : Z) :
  calculate data = reference data /\
  (verify data expected = true <-> expected = reference data) /\
  0 <= calculate data < 2 ^ 32.
Proof.
  assert (forall crc, crc_run crc data = fold_left ref_update data crc) as Hrun.
  { induction data as [|p data IH]; intros crc; simpl; [done|].
    rewrite crc_update_entry. apply IH. }
  assert (forall crc, 0 <= crc < 2 ^ 32 ->
      0 <= fold_left ref_update data crc < 2 ^ 32) as Hrange.
  { clear Hrun. induction data as [|p data IH]; intros crc Hc; simpl; [done|].
    apply IH, iter_bit_range. apply lxor_range; [lia..|].
    pose proof (b2z_range p). lia. }
  assert (calculate data = reference data) as E
    by (unfold calculate, reference; by rewrite Hrun).
  split; [done|]. split.
  - unfold verify. rewrite E, Z.eqb_eq. by split.
  - rewrite E. unfold reference. apply lxor_range; [lia| |lia].
    apply Hrange. lia.
Qed.

(** ** Error detection *)

Lemma crc_update_range crc p :
  0 <= crc < 2 ^ 32 -> 0 <= crc_update crc p < 2 ^ 32.
Proof.
  intros Hc. rewrite crc_update_entry. apply iter_bit_range, lxor_range; [lia..|].
  pose proof (b2z_range p). lia.
Qed.

Lemma crc_run_range data crc :
  0 <= crc < 2 ^ 32 -> 0 <= crc_run crc data < 2 ^ 32.
Proof.
  revert crc. induction data as [|p data IH]; intros crc Hc; simpl; [done|].
  by apply IH, crc_update_range.
Qed.

Lemma crc_run_app crc a b : crc_run crc (a ++ b) = crc_run (crc_run crc a) b.
Proof. apply fold_left_app. Qed.

(** From different registers, the same bytes lead to different registers. *)
Lemma crc_run_inj data a b :
  0 <= a < 2 ^ 32 -> 0 <= b < 2 ^ 32 ->
  crc_run a data = crc_run b data -> a = b.
Proof.
  revert a b. induction data as [|p data IH]; intros a b Ha Hb; simpl; [done|].
  intros E. apply IH in E; [|by apply crc_update_range..].
  rewrite !crc_update_entry in E.
  pose proof (b2z_range p).
  apply iter_bit_inj in E; [|apply lxor_range; lia..].
  apply (f_equal (fun x => Z.lxor x (b2z p))) in E.
  by rewrite !Z.lxor_assoc, Z.lxor_nilpotent, !Z.lxor_0_r in E.
Qed.

(** At most four bytes act on the register as a xor with their little-endian
    value followed by a fixed injective map. *)
Lemma crc_run_le_val data crc :
  crc_run crc data =
    Nat.iter (8 * length data) crc_bit (Z.lxor crc (le_val data)).
Proof.
  revert crc. induction data as [|p data IH]; intros crc.
  - simpl. by rewrite Z.lxor_0_r.
  - cbn [crc_run fold_left]. fold (crc_run (crc_update crc p) data).
    rewrite IH, crc_update_entry. unfold crc_entry.
    replace (8 * length (p :: data))%nat with (8 * length data + 8)%nat by (simpl; lia).
    rewrite Nat.iter_add. f_equal.
    rewrite <-(iter_bit_shiftl 8 (le_val data)) at 1.
    rewrite <-iter_bit_lxor. f_equal. rewrite Z.lxor_assoc. f_equal.
    change (le_val (p :: data)) with (Z.lor (b2z p) (Z.shiftl (le_val data) 8)).
    rewrite lor_shiftl_add, <-Z.add_lxor_2land.
    change (Z.of_nat 8) with 8. rewrite (Z.mul_comm (2 ^ 8)), <-Z.shiftl_mul_pow2 by lia.
    rewrite land_byte_shiftl. lia.
Qed.

Lemma crc_run_inj_data a b crc :
  length a = length b -> (length a <= 4)%nat -> 0 <= crc < 2 ^ 32 ->
  crc_run crc a = crc_run crc b -> a = b.
Proof.
  intros Hl H4 Hc E. rewrite !crc_run_le_val, <-Hl in E.
  assert (forall l : list byte, (length l <= 4)%nat -> 0 <= le_val l < 2 ^ 32) as Hr.
  { intros l Hl4. pose proof (le_val_range l).
    assert (2 ^ (8 * Z.of_nat (length l)) <= 2 ^ 32) by (apply Z.pow_le_mono_r; lia).
    lia. }
  pose proof (Hr a ltac:(lia)). pose proof (Hr b ltac:(lia)).
  apply iter_bit_inj in E; [|apply lxor_range; lia..].
  apply le_val_inj; [done|].
  apply (f_equal (Z.lxor crc)) in E.
  by rewrite <-!Z.lxor_assoc, !Z.lxor_nilpotent, !Z.lxor_0_l in E.
Qed.

Lemma calculate_inj_run a b : calculate a = calculate b ->
  crc_run 0xFFFFFFFF a = crc_run 0xFFFFFFFF b.
Proof.
  unfold calculate. intros E.
  apply (f_equal (fun x => Z.lxor x 0xFFFFFFFF)) in E.
  by rewrite !Z.lxor_assoc, !Z.lxor_nilpotent, !Z.lxor_0_r in E.
Qed.

(** Messages that agree except for a burst of at most four bytes. *)
Lemma calculate_burst pre old new post :
  length old = length new -> (length old <= 4)%nat ->
  calculate (pre ++ old ++ post) = calculate (pre ++ new ++ post) -> old = new.
Proof.
  intros Hlen Hburst E%calculate_inj_run. rewrite !crc_run_app in E.
  pose proof (crc_run_range pre 0xFFFFFFFF ltac:(lia)).
  apply crc_run_inj in E; [|by apply crc_run_range..].
  by eapply crc_run_inj_data.
Qed.

(** burst detection.  Replacing at most four consecutive bytes of a message
    by different ones always changes its [CRC32::calculate], whatever precedes
    and follows the burst. *)
Theorem crc32_detects_burst (pre old new post : list byte)
  (Hlen : length old = length new) (Hburst : (length old <= 4)%nat)
  (Hdiff : old <> new) :
  calculate (pre ++ old ++ post) <> calculate (pre ++ new ++ post).
Proof.
  intros E. by apply Hdiff, (calculate_burst pre old new post).
Qed.

Lemma crc32_detects_burst_witness :
  calculate ([x01; x02] ++ [x10; x20] ++ [xff]) <>
  calculate ([x01; x02] ++ [x20; x10] ++ [xff]).
Proof.
  apply (crc32_detects_burst [x01; x02] [x10; x20] [x20; x10] [xff]);
    [reflexivity|simpl; lia|discriminate].
Defined.
