(* ===== verification/Packet.v ===== *)
(** * Packet protocol (network/protocol/packet.h, packet.cpp)

    [Length: 4B big-endian, whole packet] [Cmd: 2B big-endian] [Data: N B].
    The functions are those of namespace [framework::protocol]; a pointer and a
    length are the list of the readable bytes, and a read beyond it is [Undef]. *)

From S2P Require Import Prelude ByteOrder.

Open Scope Z_scope.

(** [htonl], [htons], [ntohl] and [ntohs] of <arpa/inet.h>: the integer whose
    object representation on the host is the big-endian one, and back. *)
Definition sys_htons (host : bool) (v : Z) : Z := mem_val host (be_bytes 2 v).
Definition sys_htonl (host : bool) (v : Z) : Z := mem_val host (be_bytes 4 v).
Definition sys_ntohs (host : bool) (v : Z) : Z := be_val (mem_bytes host 2 v).
Definition sys_ntohl (host : bool) (v : Z) : Z := be_val (mem_bytes host 4 v).

Definition CMD_HEARTBEAT : Z := 0x0001.
Definition CMD_LOGIN : Z := 0x0002.
Definition CMD_LOGOUT : Z := 0x0003.
Definition CMD_DATA : Z := 0x0004.

Record Packet := mkPacket { cmd : Z; data : list byte }.

(** The default constructor. *)
Definition Packet0 : Packet := mkPacket 0 [].

(** [encode]: the 32-bit length wraps, the buffer is [4 + 2 + size] bytes. *)
Definition encode (host : bool) (pkt : Packet) : list byte :=
  let total_len := u32 (4 + 2 + zlen (data pkt)) in
  let len_be := sys_htonl host total_len in
  let cmd_be := sys_htons host (cmd pkt) in
  mem_bytes host 4 len_be ++ mem_bytes host 2 cmd_be ++ data pkt.

(** [parse_header].  [cmd_be] is an uninitialised [uint32_t] of which [memcpy]
    writes the first two bytes; [junk] is what the other two hold. *)
Definition parse_header (host : bool) (junk buf : list byte) : option (Z * Z) :=
  if zlen buf <? 6 then None
  else
    match slice 0 4 buf, slice 4 2 buf with
    | Some lb, Some cb =>
        let len_be := mem_val host lb in
        let cmd_be := mem_val host (cb ++ junk) in
        Some (sys_ntohl host len_be, sys_ntohs host (u16 cmd_be))
    | _, _ => None
    end.

Definition peek_packet_length (host : bool) (buf : list byte) : Z :=
  if zlen buf <? 4 then 0
  else
    match slice 0 4 buf with
    | Some lb => sys_ntohl host (mem_val host lb)
    | None => 0
    end.

(** [decode_from]: [pkt] and [consumed] are the caller's out-parameters. *)
Definition decode_from (host : bool) (buf : list byte) (pkt : Packet) (consumed : Z)
    : outcome (bool * Packet * Z) :=
  if zlen buf <? 4 then Ret (false, pkt, consumed)
  else
    let total_len := u32 (peek_packet_length host buf) in
    if total_len =? 0 then Ret (false, pkt, consumed)
    else if zlen buf <? total_len then Ret (false, pkt, consumed)
    else
      match slice 4 2 buf with
      | None => Undef
      | Some cb =>
          let c := sys_ntohs host (mem_val host cb) in
          let data_len := u32 (total_len - 6) in
          if 0 <? data_len then
            match slice 6 data_len buf with
            | None => Undef
            | Some d => Ret (true, mkPacket c d, total_len)
            end
          else Ret (true, mkPacket c [], total_len)
      end.

Definition decode (host : bool) (buf : list byte) (pkt : Packet) (consumed : Z)
    : outcome (bool * Packet * Z) := decode_from host buf pkt consumed.

(** ** The system conversions *)

Lemma mem_val_bytes host n z :
  mem_val host (mem_bytes host n z) = z mod 2 ^ (8 * Z.of_nat n).
Proof. destruct host; [apply le_val_bytes|apply be_val_bytes]. Qed.

Lemma mem_bytes_val host bs : mem_bytes host (length bs) (mem_val host bs) = bs.
Proof. destruct host; [apply le_bytes_val|apply be_bytes_val]. Qed.

Lemma mem_sys_htonl host v : mem_bytes host 4 (sys_htonl host v) = be_bytes 4 v.
Proof.
  unfold sys_htonl. rewrite <-(length_be_bytes 4 v) at 1. apply mem_bytes_val.
Qed.

Lemma mem_sys_htons host v : mem_bytes host 2 (sys_htons host v) = be_bytes 2 v.
Proof.
  unfold sys_htons. rewrite <-(length_be_bytes 2 v) at 1. apply mem_bytes_val.
Qed.

Lemma sys_ntohl_mem host bs :
  length bs = 4%nat -> sys_ntohl host (mem_val host bs) = be_val bs.
Proof. intros H. unfold sys_ntohl. by rewrite <-H, mem_bytes_val. Qed.

Lemma sys_ntohs_mem host bs :
  length bs = 2%nat -> sys_ntohs host (mem_val host bs) = be_val bs.
Proof. intros H. unfold sys_ntohs. by rewrite <-H, mem_bytes_val. Qed.

(** ** The wire format *)

(** The bytes a well-formed packet has on the wire. *)
Definition wire (pkt : Packet) : list byte :=
  be_bytes 4 (6 + zlen (data pkt)) ++ be_bytes 2 (cmd pkt) ++ data pkt.

Definition wf_packet (pkt : Packet) : Prop :=
  0 <= cmd pkt < 2 ^ 16 /\ 6 + zlen (data pkt) < 2 ^ 32.

#[global] Instance wf_packet_dec pkt : Decision (wf_packet pkt).
Proof. unfold wf_packet. apply _. Defined.

Lemma encode_wire host pkt : wf_packet pkt -> encode host pkt = wire pkt.
Proof.
  intros [_ Hl]. unfold encode, wire. rewrite mem_sys_htonl, mem_sys_htons.
  pose proof (zlen_nonneg (data pkt)). by rewrite u32_small by lia.
Qed.

Lemma zlen_wire pkt : zlen (wire pkt) = 6 + zlen (data pkt).
Proof. unfold wire. autorewrite with lengths. lia. Qed.

Lemma announced_wire pkt rest :
  wf_packet pkt -> announced (wire pkt ++ rest) = 6 + zlen (data pkt).
Proof.
  intros [_ Hl]. unfold wire. pose proof (zlen_nonneg (data pkt)).
  rewrite <-app_assoc. apply announced_be. lia.
Qed.

Lemma peek_announced host buf :
  4 <= zlen buf -> peek_packet_length host buf = announced buf.
Proof.
  intros H. unfold peek_packet_length. rewrite (proj2 (Z.ltb_ge _ _)) by lia.
  destruct (slice_Some 0 4 buf) as (l & -> & Hl & E); [lia..|].
  unfold announced, zlen in *. rewrite sys_ntohl_mem by lia. f_equal.
  rewrite E. simpl. by rewrite take_app_length' by lia.
Qed.

(** The whole case analysis of [decode_from]; on a bogus length the buffer is
    assumed below 4 GiB. *)
Lemma decode_from_spec host buf pkt consumed :
  (announced buf < 6 -> zlen buf < 2 ^ 32) ->
  decode_from host buf pkt consumed =
    if (zlen buf <? 4) || (announced buf =? 0) || (zlen buf <? announced buf)
    then Ret (false, pkt, consumed)
    else if announced buf <? 6 then Undef
    else Ret (true, mkPacket (be_val (take 2 (drop 4 buf)))
                (take (Z.to_nat (announced buf - 6)) (drop 6 buf)), announced buf).
Proof.
  intros Hmax. unfold decode_from.
  destruct (zlen buf <? 4) eqn:E4; [done|]. apply Z.ltb_ge in E4.
  rewrite peek_announced by lia. pose proof (announced_range buf).
  rewrite u32_small by lia. cbv zeta. simpl.
  destruct (announced buf =? 0) eqn:E0; [done|]. apply Z.eqb_neq in E0. simpl.
  destruct (zlen buf <? announced buf) eqn:El; [done|]. apply Z.ltb_ge in El.
  destruct (announced buf <? 6) eqn:E6.
  - apply Z.ltb_lt in E6. destruct (slice 4 2 buf); [|done].
    assert (u32 (announced buf - 6) = announced buf - 6 + 2 ^ 32) as ->.
    { unfold u32. rewrite <-(Z_mod_plus_full _ 1), Z.mod_small; lia. }
    rewrite (proj2 (Z.ltb_lt _ _)) by lia. rewrite slice_None; [done|]. lia.
  - apply Z.ltb_ge in E6.
    destruct (slice 4 2 buf) as [cb|] eqn:Ecb.
    2: { destruct (slice_Some 4 2 buf) as (l & Hl & _); [lia..|congruence]. }
    pose proof (slice_length _ _ _ _ Ecb) as Hcb.
    unfold slice in Ecb. case_match; [|done].
    simpl in Ecb. injection Ecb as <-.
    rewrite sys_ntohs_mem by done. rewrite u32_small by lia.
    destruct (0 <? announced buf - 6) eqn:Ed.
    + apply Z.ltb_lt in Ed.
      destruct (slice_Some 6 (announced buf - 6) buf) as (l & Hs & _ & _); [lia..|].
      rewrite Hs. unfold slice in Hs. case_match; [|done]. by injection Hs as <-.
    + apply Z.ltb_ge in Ed.
      replace (announced buf - 6) with 0 by lia. done.
Qed.

Lemma decode_from_wire host pkt rest p0 c0 :
  wf_packet pkt ->
  decode_from host (wire pkt ++ rest) p0 c0 = Ret (true, pkt, 6 + zlen (data pkt)).
Proof.
  intros Hwf. pose proof (zlen_nonneg (data pkt)). pose proof (zlen_nonneg rest).
  rewrite decode_from_spec; rewrite announced_wire by done; [|lia].
  rewrite zlen_app, zlen_wire.
  rewrite !(proj2 (Z.ltb_ge _ _)), (proj2 (Z.eqb_neq _ _)) by lia. cbn [orb].
  destruct pkt as [c d]. unfold wire; cbn [data cmd orb] in *.
  replace (6 + zlen d - 6) with (zlen d) by lia. unfold zlen. rewrite Nat2Z.id.
  rewrite <-!app_assoc.
  rewrite (drop_app_length' (be_bytes 4 _)) by by rewrite length_be_bytes.
  rewrite take_app_length' by by rewrite length_be_bytes.
  rewrite (app_assoc (be_bytes 4 _)), drop_app_length'
    by by rewrite length_app, !length_be_bytes.
  rewrite take_app_length, be_val_bytes, Z.mod_small by apply Hwf. done.
Qed.

(** C14: [protocol::encode] followed by [protocol::decode_from] is the identity.
    On a host of either endianness, an encoded packet is the big-endian length
    and command followed by the data, and from a buffer that starts with it,
    whatever follows, [decode_from] returns the packet and consumes exactly its
    bytes, [peek_packet_length] announces that length and, on a little-endian
    host, [parse_header] reads the two fields. *)
Theorem packet_roundtrip (host : bool) (pkt p0 : Packet) (junk rest : list byte)
  (c0 : Z) (Hwf : wf_packet pkt) :
  let buf := encode host pkt ++ rest in
  let total := 6 + zlen (data pkt) in
  encode host pkt = be_bytes 4 total ++ be_bytes 2 (cmd pkt) ++ data pkt /\
  decode_from host buf p0 c0 = Ret (true, pkt, total) /\
  decode host buf p0 c0 = Ret (true, pkt, total) /\
  drop (Z.to_nat total) buf = rest /\
  peek_packet_length host buf = total /\
  (host = true -> parse_header host junk buf = Some (total, cmd pkt)).
Proof.
  cbv zeta. rewrite encode_wire by done.
  pose proof (zlen_nonneg (data pkt)). pose proof (zlen_nonneg rest).
  assert (zlen (wire pkt ++ rest) = 6 + zlen (data pkt) + zlen rest) as Hlen
    by (by rewrite zlen_app, zlen_wire).
  split; [done|]. split; [by apply decode_from_wire|].
  split; [by apply decode_from_wire|]. split.
  { apply drop_app_length'. pose proof (zlen_wire pkt) as E. unfold zlen in *. lia. }
  split. { rewrite peek_announced by lia. by apply announced_wire. }
  intros ->. unfold parse_header. rewrite (proj2 (Z.ltb_ge _ _)) by lia.
  unfold wire. rewrite <-!app_assoc.
  rewrite slice_app0 by by rewrite zlen_be_bytes.
  rewrite slice_app by by rewrite zlen_be_bytes.
  rewrite sys_ntohl_mem by apply length_be_bytes.
  rewrite be_val_bytes, Z.mod_small by (destruct Hwf; lia).
  do 2 f_equal. unfold mem_val at 1. unfold u16.
  pose proof (le_val_app_mod (be_bytes 2 (cmd pkt)) junk) as E.
  rewrite length_be_bytes in E. change (8 * Z.of_nat 2) with 16 in E. rewrite E.
  rewrite (sys_ntohs_mem true) by apply length_be_bytes.
  rewrite be_val_bytes, Z.mod_small by apply Hwf. done.
Qed.

Lemma packet_roundtrip_witness :
  wf_packet (mkPacket CMD_DATA [x68; x69]) /\
  decode_from true (encode true (mkPacket CMD_DATA [x68; x69]) ++ [x00]) Packet0 0
    = Ret (true, mkPacket CMD_DATA [x68; x69], 8).
Proof.
  split; [by_compute|].
  apply (packet_roundtrip true (mkPacket CMD_DATA [x68; x69]) Packet0 [] [x00] 0).
  by_compute.
Defined.

(** C15: [decode_from] on arbitrary bytes.  Below 4 GiB it reports an incomplete
    packet exactly when fewer than four bytes, a zero length or fewer bytes than
    announced are there, leaving the out-parameters alone; it has undefined
    behaviour exactly when the announced length is complete but between 1 and 5,
    because the payload length [total_len - 6] wraps around and the copy reads
    past the buffer; and in every other case it returns the two fields and the
    payload, and [consumed] is at least 6 and within the buffer. *)
Theorem decode_from_total (host : bool) (buf : list byte) (pkt : Packet) (c0 : Z)
  (Hmax : zlen buf < 2 ^ 32) :
  let total := announced buf in
  (decode_from host buf pkt c0 = Ret (false, pkt, c0) <->
     zlen buf < 4 \/ total = 0 \/ zlen buf < total) /\
  (decode_from host buf pkt c0 = Undef <-> 4 <= zlen buf /\ 1 <= total <= 5 /\ total <= zlen buf) /\
  (4 <= zlen buf -> 6 <= total <= zlen buf ->
     exists payload,
       zlen payload = total - 6 /\
       buf = take 4 buf ++ take 2 (drop 4 buf) ++ payload ++ drop (Z.to_nat total) buf /\
       decode_from host buf pkt c0 =
         Ret (true, mkPacket (be_val (take 2 (drop 4 buf))) payload, total)) /\
  decode_from host buf pkt c0 <> Throw.
Proof.
  cbv zeta. rewrite decode_from_spec by done. pose proof (announced_range buf).
  destruct (Z.ltb_spec (zlen buf) 4); cbn [orb].
  { split_and!; try split; intros; finish. }
  destruct (Z.eqb_spec (announced buf) 0); cbn [orb].
  { split_and!; try split; intros; finish. }
  destruct (Z.ltb_spec (zlen buf) (announced buf)); cbn [orb].
  { split_and!; try split; intros; finish. }
  destruct (Z.ltb_spec (announced buf) 6).
  { split_and!; try split; intros; finish. }
  split_and!; try (split; intros; finish); [|done].
  intros _ _. eexists. split; [|split; [|reflexivity]].
  - unfold zlen in *. rewrite length_take, length_drop. lia.
  - rewrite <-(take_drop 4 buf) at 1. f_equal.
    rewrite <-(take_drop 2 (drop 4 buf)) at 1. f_equal.
    rewrite drop_drop. simpl.
    rewrite <-(take_drop (Z.to_nat (announced buf - 6)) (drop 6 buf)) at 1. f_equal.
    rewrite drop_drop. f_equal. lia.
Qed.

Lemma decode_from_total_witness :
  decode_from true (map z2b [0; 0; 0; 5; 0; 1; 0]) Packet0 0 = Undef.
Proof.
  apply (decode_from_total true (map z2b [0; 0; 0; 5; 0; 1; 0]) Packet0 0).
  - vm_compute. reflexivity.
  - vm_compute. intuition congruence.
Defined.
