(* ===== verification/Codec.v ===== *)
(** * Frame codec (network/codec/codec.h, codec.cpp)

    [Length:4B][Version:1B][CRC32:4B][Seq:4B][Cmd:2B][Data:N].  The encoder, the
    stream decoder with its internal buffer, [Packet::encode]/[Packet::decode]
    and the serializer registry. *)

From S2P Require Import Prelude ByteOrder CRC32.

Open Scope Z_scope.

Definition PROTOCOL_VERSION : Z := 1.
Definition HEADER_SIZE : Z := 4 + 1 + 4 + 4 + 2.
Definition MAX_PACKET_SIZE : Z := 10 * 1024 * 1024.

Record PacketHeader := mkHeader {
  hdr_length : Z; hdr_version : Z; hdr_crc32 : Z; hdr_seq : Z; hdr_cmd : Z }.

Record Packet := mkPacket { seq : Z; cmd : Z; data : list byte }.

(** The default member initialisers of [Packet]. *)
Definition Packet0 : Packet := mkPacket 0 0 [].

Inductive DecodeState := READ_HEADER | READ_BODY.

(** The members of [class Codec] that have a defined initial value; [Handler] is
    the type of the registered callbacks. *)
Record Codec (Handler : Type) := mkCodec {
  buffer_ : list byte;
  handlers_ : gmap Z Handler;
  next_seq_ : Z;
  state_ : DecodeState;
  header_pos_ : Z;
  body_pos_ : Z;
  body_buffer_ : list byte }.
Arguments mkCodec {Handler}.
Arguments buffer_ {Handler}.
Arguments handlers_ {Handler}.
Arguments next_seq_ {Handler}.
Arguments state_ {Handler}.
Arguments header_pos_ {Handler}.
Arguments body_pos_ {Handler}.
Arguments body_buffer_ {Handler}.

(** The constructor; its call of [ByteOrder::init] is the flag the conversions
    below consult. *)
Definition Codec0 {Handler} : Codec Handler := mkCodec [] ∅ 1 READ_HEADER 0 0 [].

Definition set_buffer {Handler} (c : Codec Handler) (b : list byte) : Codec Handler :=
  mkCodec b (handlers_ c) (next_seq_ c) (state_ c) (header_pos_ c) (body_pos_ c)
    (body_buffer_ c).

Definition set_handlers {Handler} (c : Codec Handler) (h : gmap Z Handler) : Codec Handler :=
  mkCodec (buffer_ c) h (next_seq_ c) (state_ c) (header_pos_ c) (body_pos_ c)
    (body_buffer_ c).

Definition register_handler {Handler} (c : Codec Handler) (cmd : Z) (h : Handler) :=
  set_handlers c (<[cmd := h]> (handlers_ c)).

Definition unregister_handler {Handler} (c : Codec Handler) (cmd : Z) :=
  set_handlers c (delete cmd (handlers_ c)).

Definition clear_buffer {Handler} (c : Codec Handler) : Codec Handler := set_buffer c [].

(** [memcpy(out.data() + off, &object, n)] inside the vector. *)
Definition put (off : nat) (bs out : list byte) : list byte :=
  take off out ++ bs ++ drop (off + length bs) out.

(** [Codec::encode].  The CRC is taken from offset 5 while the header bytes are
    still the zeros of [resize]. *)
Definition encode (host : bool) (cmd : Z) (data : list byte) (seq : Z)
    : outcome (list byte) :=
  let g := ByteOrder.init host in
  let out := repeat x00 (Z.to_nat HEADER_SIZE) ++ data in
  let total_len := u32 (HEADER_SIZE + zlen data) in
  match slice (4 + 1) (u32 (total_len - 4 - 1)) out with
  | None => Undef
  | Some covered =>
      let crc := CRC32.calculate covered in
      let length_be := ByteOrder.htonl g total_len in
      let crc_be := ByteOrder.htonl g crc in
      let seq_be := ByteOrder.htonl g seq in
      let cmd_be := ByteOrder.htons g cmd in
      let out := put 0 (mem_bytes host 4 length_be) out in
      let out := put 4 [z2b PROTOCOL_VERSION] out in
      let out := put 5 (mem_bytes host 4 crc_be) out in
      let out := put 9 (mem_bytes host 4 seq_be) out in
      let out := put 13 (mem_bytes host 2 cmd_be) out in
      Ret out
  end.

(** [memcpy(&hdr, buffer_.data(), HEADER_SIZE)] into the packed struct and the
    four conversions of the header fields. *)
Definition read_header (host : bool) (buf : list byte) : option PacketHeader :=
  let g := ByteOrder.init host in
  l ← slice 0 4 buf; v ← slice 4 1 buf; k ← slice 5 4 buf;
  s ← slice 9 4 buf; c ← slice 13 2 buf;
  Some (mkHeader (ByteOrder.ntohl g (mem_val host l)) (mem_val host v)
          (ByteOrder.ntohl g (mem_val host k)) (ByteOrder.ntohl g (mem_val host s))
          (ByteOrder.ntohs g (mem_val host c))).

(** One iteration of the loop of [try_decode]: it returns, leaving a buffer and
    a result, or it erases the first byte and continues. *)
Inductive iteration :=
| Done (buffer : list byte) (result : option Packet)
| Skip.

Definition decode_step (host : bool) (buffer : list byte) : outcome iteration :=
  let g := ByteOrder.init host in
  if zlen buffer <? HEADER_SIZE then Ret (Done buffer None)
  else
    match slice 0 4 buffer with
    | None => Undef
    | Some lb =>
        let total_len := ByteOrder.ntohl g (mem_val host lb) in
        if (total_len <? HEADER_SIZE) || (MAX_PACKET_SIZE <? total_len)
        then Ret (Done [] None)
        else if zlen buffer <? total_len then Ret (Done buffer None)
        else
          match read_header host buffer, slice (4 + 1) (total_len - 4 - 1) buffer with
          | Some hdr, Some covered =>
              if negb (CRC32.calculate covered =? hdr_crc32 hdr) then Ret Skip
              else
                let body :=
                  if HEADER_SIZE <? total_len
                  then slice HEADER_SIZE (total_len - HEADER_SIZE) buffer
                  else Some [] in
                match body with
                | None => Undef
                | Some body =>
                    Ret (Done (drop (Z.to_nat total_len) buffer)
                           (Some (mkPacket (hdr_seq hdr) (hdr_cmd hdr) body)))
                end
          | _, _ => Undef
          end
    end.

(** The loop of [try_decode] on [buffer_]. *)
Fixpoint try_decode_loop (host : bool) (buffer : list byte)
    : outcome (list byte * option Packet) :=
  match decode_step host buffer with
  | Ret (Done b r) => Ret (b, r)
  | Ret Skip =>
      match buffer with
      | [] => Ret ([], None)
      | _ :: rest => try_decode_loop host rest
      end
  | Throw => Throw
  | Undef => Undef
  end.

Definition try_decode {Handler} (host : bool) (c : Codec Handler)
    : outcome (Codec Handler * option Packet) :=
  '(b, r) ← try_decode_loop host (buffer_ c); Ret (set_buffer c b, r).

Definition decode {Handler} (host : bool) (c : Codec Handler) (buf : list byte)
    : outcome (Codec Handler * option Packet) :=
  try_decode host (set_buffer c (buffer_ c ++ buf)).

Definition decode_packet {Handler} (host : bool) (c : Codec Handler) (buf : list byte) :=
  decode host c buf.

(** [Packet::encode] and [Packet::decode]: a fresh [Codec] each time. *)
Definition Packet_encode (host : bool) (p : Packet) : outcome (list byte) :=
  encode host (cmd p) (data p) (seq p).

Definition Packet_decode (host : bool) (self : Packet) (raw : list byte)
    : outcome (bool * Packet) :=
  '(_, pkt) ← decode host (Codec0 (Handler := unit)) raw;
  match pkt with
  | None => Ret (false, self)
  | Some pkt => Ret (true, pkt)
  end.

(** [ProtoRegistry]: serializers and deserializers by type name. *)
Record ProtoRegistry (Msg : Type) := mkRegistry {
  serializers_ : gmap string (Msg -> list byte);
  deserializers_ : gmap string (Msg -> list byte -> bool * Msg) }.
Arguments mkRegistry {Msg}.
Arguments serializers_ {Msg}.
Arguments deserializers_ {Msg}.

Definition register_serializer {Msg} (r : ProtoRegistry Msg) (n : string) s :=
  mkRegistry (<[n := s]> (serializers_ r)) (deserializers_ r).

Definition register_deserializer {Msg} (r : ProtoRegistry Msg) (n : string) d :=
  mkRegistry (serializers_ r) (<[n := d]> (deserializers_ r)).

Definition serialize {Msg} (r : ProtoRegistry Msg) (n : string) (msg : Msg)
    : option (list byte) :=
  match serializers_ r !! n with
  | None => None
  | Some s => Some (s msg)
  end.

Definition deserialize {Msg} (r : ProtoRegistry Msg) (n : string) (msg : Msg)
    (bs : list byte) : bool * Msg :=
  match deserializers_ r !! n with
  | None => (false, msg)
  | Some d => d msg bs
  end.

(** ** One iteration as a case analysis on the bytes

    [crc_ok] is the check of the decoder on a complete frame of [total] bytes. *)

Definition crc_ok (total : Z) (buf : list byte) : bool :=
  CRC32.calculate (sub 5 (Z.to_nat total - 5) buf) =? be_val (sub 5 4 buf).

Definition frame_packet (total : Z) (buf : list byte) : Packet :=
  mkPacket (be_val (sub 9 4 buf)) (be_val (sub 13 2 buf))
    (sub 15 (Z.to_nat total - 15) buf).

Definition step_spec (buf : list byte) : iteration :=
  let total := announced buf in
  if zlen buf <? 15 then Done buf None
  else if (total <? 15) || (MAX_PACKET_SIZE <? total) then Done [] None
  else if zlen buf <? total then Done buf None
  else if crc_ok total buf
  then Done (drop (Z.to_nat total) buf) (Some (frame_packet total buf))
  else Skip.

Lemma read_header_spec host buf :
  15 <= zlen buf ->
  exists v, read_header host buf =
    Some (mkHeader (announced buf) v (be_val (sub 5 4 buf)) (be_val (sub 9 4 buf))
            (be_val (sub 13 2 buf))).
Proof.
  intros H. unfold read_header. rewrite !slice_sub by lia. simpl.
  eexists. rewrite !ntohl_mem, ntohs_mem by (apply length_sub; unfold zlen in *; lia).
  done.
Qed.

Lemma decode_step_spec host buf : decode_step host buf = Ret (step_spec buf).
Proof.
  unfold decode_step, step_spec. change HEADER_SIZE with 15.
  destruct (Z.ltb_spec (zlen buf) 15) as [|H15]; [done|].
  rewrite slice_sub by lia.
  rewrite ntohl_mem by (apply length_sub; unfold zlen in *; lia).
  change (be_val (sub (Z.to_nat 0) (Z.to_nat 4) buf)) with (announced buf).
  destruct ((announced buf <? 15) || _) eqn:Eb; [done|].
  apply orb_false_iff in Eb as [Elo%Z.ltb_ge Ehi%Z.ltb_ge].
  destruct (Z.ltb_spec (zlen buf) (announced buf)) as [|Hl]; [done|].
  destruct (read_header_spec host buf H15) as [v ->].
  rewrite slice_sub by lia. cbn [hdr_crc32 hdr_seq hdr_cmd].
  unfold crc_ok, frame_packet.
  replace (Z.to_nat (announced buf - 4 - 1)) with (Z.to_nat (announced buf) - 5)%nat by lia.
  change (Z.to_nat (4 + 1)) with 5%nat.
  destruct (_ =? _); [|done]. cbn [negb].
  destruct (Z.ltb_spec 15 (announced buf)).
  - rewrite slice_sub by lia. do 4 f_equal. change (Z.to_nat 15) with 15%nat. f_equal. lia.
  - replace (announced buf) with 15 by lia. done.
Qed.

(** The loop, without outcomes: the decoder never reads outside its buffer. *)
Fixpoint scan (buf : list byte) : list byte * option Packet :=
  match step_spec buf with
  | Done b r => (b, r)
  | Skip => match buf with [] => ([], None) | _ :: rest => scan rest end
  end.

Lemma try_decode_loop_scan host buf : try_decode_loop host buf = Ret (scan buf).
Proof.
  induction buf as [|b buf IH]; cbn [try_decode_loop scan]; rewrite decode_step_spec;
    destruct (step_spec _); done.
Qed.

Lemma decode_scan {Handler} host (c : Codec Handler) input :
  decode host c input =
    Ret (set_buffer c (fst (scan (buffer_ c ++ input))),
         snd (scan (buffer_ c ++ input))).
Proof.
  unfold decode, try_decode. rewrite try_decode_loop_scan. simpl.
  by destruct (scan _).
Qed.

(** ** Frames *)

(** The bytes of a frame with version byte [v] and check value [crc]. *)
Definition wire_frame (v : byte) (crc : Z) (p : Packet) : list byte :=
  be_bytes 4 (15 + zlen (data p)) ++ [v] ++ be_bytes 4 crc ++ be_bytes 4 (seq p) ++
  be_bytes 2 (cmd p) ++ data p.

Definition wf_packet (p : Packet) : Prop :=
  0 <= seq p < 2 ^ 32 /\ 0 <= cmd p < 2 ^ 16 /\ 15 + zlen (data p) <= MAX_PACKET_SIZE.

(** The check the decoder makes of such a frame: the CRC covers the check value
    itself, the sequence number, the command and the data. *)
Definition frame_valid (crc : Z) (p : Packet) : Prop :=
  CRC32.calculate (be_bytes 4 crc ++ be_bytes 4 (seq p) ++ be_bytes 2 (cmd p) ++ data p)
    = crc.

#[global] Instance codec_wf_packet_dec p : Decision (wf_packet p).
Proof. unfold wf_packet. apply _. Defined.

#[global] Instance frame_valid_dec crc p : Decision (frame_valid crc p).
Proof. unfold frame_valid. apply _. Defined.

Lemma length_wire_frame v crc p : length (wire_frame v crc p) = (15 + length (data p))%nat.
Proof.
  unfold wire_frame. rewrite !length_app, !length_be_bytes. simpl. lia.
Qed.

Lemma zlen_wire_frame v crc p : zlen (wire_frame v crc p) = 15 + zlen (data p).
Proof. unfold zlen. rewrite length_wire_frame. lia. Qed.

Lemma zlen_data_bound p : wf_packet p -> 0 <= zlen (data p) <= MAX_PACKET_SIZE - 15.
Proof. intros (_ & _ & H). pose proof (zlen_nonneg (data p)). lia. Qed.

(** The fields of a frame, whatever follows it. *)
Lemma wire_frame_fields v crc p rest :
  let buf := wire_frame v crc p ++ rest in
  sub 5 (10 + length (data p)) buf =
    be_bytes 4 crc ++ be_bytes 4 (seq p) ++ be_bytes 2 (cmd p) ++ data p /\
  sub 5 4 buf = be_bytes 4 crc /\
  sub 9 4 buf = be_bytes 4 (seq p) /\
  sub 13 2 buf = be_bytes 2 (cmd p) /\
  sub 15 (length (data p)) buf = data p.
Proof.
  cbv zeta. unfold wire_frame.
  set (B := be_bytes 4 (15 + zlen (data p))).
  set (C := be_bytes 4 crc). set (S := be_bytes 4 (seq p)). set (K := be_bytes 2 (cmd p)).
  assert (length B = 4 /\ length C = 4 /\ length S = 4 /\ length K = 2)%nat
    as (LB & LC & LS & LK) by (unfold B, C, S, K; by rewrite !length_be_bytes).
  assert (forall off n l1 l2 l3 (buf : list byte), l1 ++ l2 ++ l3 = buf ->
     off = length l1 -> n = length l2 -> sub off n buf = l2) as Hsub.
  { intros off n l1 l2 l3 buf <- -> ->. by apply sub_app. }
  split_and!.
  - apply (Hsub _ _ (B ++ [v]) _ rest); rewrite <-?app_assoc, ?length_app; simpl; lia || done.
  - apply (Hsub _ _ (B ++ [v]) _ (S ++ K ++ data p ++ rest));
      rewrite <-?app_assoc, ?length_app; simpl; lia || done.
  - apply (Hsub _ _ (B ++ [v] ++ C) _ (K ++ data p ++ rest));
      rewrite <-?app_assoc, ?length_app; simpl; lia || done.
  - apply (Hsub _ _ (B ++ [v] ++ C ++ S) _ (data p ++ rest));
      rewrite <-?app_assoc, ?length_app; simpl; lia || done.
  - apply (Hsub _ _ (B ++ [v] ++ C ++ S ++ K) _ rest);
      rewrite <-?app_assoc, ?length_app; simpl; lia || done.
Qed.

Lemma announced_frame v crc p rest :
  15 + zlen (data p) < 2 ^ 32 ->
  announced (wire_frame v crc p ++ rest) = 15 + zlen (data p).
Proof.
  intros H. pose proof (zlen_nonneg (data p)).
  unfold wire_frame. rewrite <-app_assoc. apply announced_be. lia.
Qed.

Lemma step_frame v crc p rest :
  wf_packet p -> 0 <= crc < 2 ^ 32 ->
  step_spec (wire_frame v crc p ++ rest) =
    if decide (frame_valid crc p) then Done rest (Some p) else Skip.
Proof.
  intros Hwf Hcrc. pose proof (zlen_data_bound p Hwf). pose proof (zlen_nonneg rest).
  change MAX_PACKET_SIZE with 10485760 in *.
  unfold step_spec. rewrite announced_frame, zlen_app, zlen_wire_frame.
  change MAX_PACKET_SIZE with 10485760.
  2: lia.
  rewrite !(proj2 (Z.ltb_ge _ _)) by lia. cbn [orb].
  unfold crc_ok, frame_packet.
  replace (Z.to_nat (15 + zlen (data p)) - 5)%nat with (10 + length (data p))%nat
    by (unfold zlen; lia).
  replace (Z.to_nat (15 + zlen (data p)) - 15)%nat with (length (data p))
    by (unfold zlen; lia).
  destruct (wire_frame_fields v crc p rest) as (-> & -> & -> & -> & ->).
  destruct Hwf as (Hs & Hc & _).
  rewrite !be_val_bytes, (Z.mod_small crc), (Z.mod_small (seq p)),
    (Z.mod_small (cmd p)) by (simpl; lia).
  rewrite drop_app_length' by (rewrite length_wire_frame; unfold zlen; lia).
  unfold frame_valid. case_decide as Hd.
  - rewrite (proj2 (Z.eqb_eq _ _)) by done. by destruct p.
  - by rewrite (proj2 (Z.eqb_neq _ _)) by done.
Qed.

(** The first 15 bytes of a buffer that is accepted, reassembled. *)
Lemma accepted_frame total buf :
  (15 <= total <= MAX_PACKET_SIZE) -> total = announced buf -> total <= zlen buf ->
  exists v crc p rest,
    buf = wire_frame v crc p ++ rest /\ wf_packet p /\ 0 <= crc < 2 ^ 32 /\
    zlen (data p) = total - 15.
Proof.
  intros Ht -> Hl. set (total := announced buf) in *.
  change MAX_PACKET_SIZE with 10485760 in *.
  assert (forall off n, (off + n <= length buf)%nat ->
    be_bytes n (be_val (sub off n buf)) = sub off n buf) as Hbe.
  { intros off n Hn. pose proof (length_sub off n buf Hn) as E.
    rewrite <-E at 1. apply be_bytes_val. }
  assert (15 <= length buf)%nat by (unfold zlen in *; lia).
  assert (exists v, sub 4 1 buf = [v]) as [v Hv].
  { pose proof (length_sub 4 1 buf ltac:(lia)) as E.
    destruct (sub 4 1 buf) as [|v []]; [done| |done]. by exists v. }
  exists v, (be_val (sub 5 4 buf)), (frame_packet total buf), (drop (Z.to_nat total) buf).
  assert (zlen (sub 15 (Z.to_nat total - 15) buf) = total - 15) as Hd.
  { unfold zlen in *. rewrite length_sub; lia. }
  assert (forall off n k, (off + n <= length buf)%nat ->
     Z.of_nat n * 8 = k -> 0 <= be_val (sub off n buf) < 2 ^ k) as Hr.
  { intros off n k Hn <-. pose proof (be_val_range (sub off n buf)) as Hb.
    rewrite length_sub, (Z.mul_comm 8) in Hb by done. done. }
  split; [|split; [|split; [|done]]].
  - unfold wire_frame, frame_packet; cbn [data seq cmd]. rewrite Hd.
    replace (15 + (total - 15)) with total by lia.
    change total with (be_val (sub 0 4 buf)) at 1.
    rewrite !Hbe, <-Hv by lia. rewrite <-!app_assoc.
    change buf with (drop 0 buf) at 1.
    rewrite (drop_sub 0 4), (drop_sub 4 1), (drop_sub 5 4), (drop_sub 9 4),
      (drop_sub 13 2), (drop_sub 15 (Z.to_nat total - 15)).
    simpl Nat.add. do 6 f_equal. f_equal. lia.
  - unfold wf_packet, frame_packet; cbn [data seq cmd]. rewrite Hd.
    change MAX_PACKET_SIZE with 10485760.
    split; [|split; [|lia]]; apply Hr; lia.
  - apply Hr; lia.
Qed.

(** ** The encoder *)

(** The check value [encode] writes: the CRC of ten zero bytes and the data. *)
Definition encoder_crc (d : list byte) : Z := CRC32.calculate (repeat x00 10 ++ d).

Lemma encoder_crc_range d : 0 <= encoder_crc d < 2 ^ 32.
Proof.
  unfold encoder_crc, CRC32.calculate. apply lxor_range; [lia| |lia].
  apply crc_run_range. lia.
Qed.

Lemma encode_wire_frame host cmd d seq :
  0 <= cmd < 2 ^ 16 -> zlen d < 2 ^ 32 - 15 ->
  encode host cmd d seq = Ret (wire_frame x01 (encoder_crc d) (mkPacket seq cmd d)).
Proof.
  intros Hc Hd. pose proof (zlen_nonneg d). unfold encode.
  change HEADER_SIZE with 15. rewrite !u32_small by (rewrite ?u32_small; lia).
  rewrite (slice_sub (4 + 1)) by (rewrite ?zlen_app; unfold zlen in *; simpl; lia).
  change (repeat x00 (Z.to_nat 15)) with (repeat x00 5 ++ repeat x00 10).
  rewrite <-app_assoc.
  replace (sub (Z.to_nat (4 + 1)) _ _) with (repeat x00 10 ++ d).
  2: { symmetry. rewrite <-(app_nil_r (_ ++ d)) at 1. apply sub_app; [done|].
       rewrite length_app. unfold zlen. simpl. lia. }
  rewrite !mem_htonl, mem_htons by done. fold (encoder_crc d).
  unfold wire_frame; cbn [Codec.data Codec.seq Codec.cmd].
  generalize (be_bytes 4 (15 + zlen d)), (be_bytes 4 (encoder_crc d)),
    (be_bytes 4 seq), (be_bytes 2 cmd),
    (length_be_bytes 4 (15 + zlen d)), (length_be_bytes 4 (encoder_crc d)),
    (length_be_bytes 4 seq), (length_be_bytes 2 cmd).
  intros B C S K HB HC HS HK.
  repeat match goal with
  | H : length ?l = _ |- _ =>
      is_var l; destruct l; cbn [length] in H; try discriminate H;
      apply (f_equal Nat.pred) in H; cbn [Nat.pred] in H
  end; try done.
Qed.

(** C13: the layout of [Codec::encode].  On a host of either endianness the
    output is the big-endian total length (the 15 header bytes included), the
    version byte 1, the big-endian CRC-32 of ten zero bytes followed by the data,
    the big-endian sequence number and command, and the data; no read leaves the
    buffer, and the frame is accepted as a whole by the length checks of the
    decoder.  (DESIGN.md 8.4 has the length field without its own four bytes and
    TEST.md 12.1 expects the low byte of the command first: neither holds.) *)
Theorem codec_encode_layout (host : bool) (cmd seq : Z) (d : list byte)
  (Hcmd : 0 <= cmd < 2 ^ 16) (Hd : 15 + zlen d <= MAX_PACKET_SIZE) :
  exists out,
    encode host cmd d seq = Ret out /\
    out = be_bytes 4 (15 + zlen d) ++ [x01] ++
          be_bytes 4 (CRC32.calculate (repeat x00 10 ++ d)) ++ be_bytes 4 seq ++
          be_bytes 2 cmd ++ d /\
    zlen out = HEADER_SIZE + zlen d /\
    HEADER_SIZE <= announced out <= MAX_PACKET_SIZE /\ announced out = zlen out.
Proof.
  pose proof (zlen_nonneg d). change MAX_PACKET_SIZE with 10485760 in *.
  change HEADER_SIZE with 15.
  rewrite encode_wire_frame by lia. eexists. split; [done|]. split; [done|].
  rewrite zlen_wire_frame. cbn [Codec.data].
  rewrite <-(app_nil_r (wire_frame _ _ _)), announced_frame by (cbn [Codec.data]; lia).
  cbn [Codec.data]. lia.
Qed.

Lemma codec_encode_layout_witness :
  exists out, encode true 7 [x61] 1 = Ret out /\ zlen out = 16.
Proof.
  destruct (codec_encode_layout true 7 1 [x61]) as (out & E & _ & Hl & _).
  - lia.
  - vm_compute. discriminate.
  - exists out. split; [exact E|]. rewrite Hl. reflexivity.
Defined.

(** ** Encoding then decoding *)

(** The decoder's check on an encoder's frame, as a condition on the CRC register
    after the ten header bytes it covers: they must act like ten zero bytes. *)
Definition header_neutral (p : Packet) : Prop :=
  CRC32.crc_run 0xFFFFFFFF
    (be_bytes 4 (encoder_crc (data p)) ++ be_bytes 4 (seq p) ++ be_bytes 2 (cmd p)) =
  CRC32.crc_run 0xFFFFFFFF (repeat x00 10).

#[global] Instance header_neutral_dec p : Decision (header_neutral p).
Proof. unfold header_neutral. apply _. Defined.

Lemma frame_valid_neutral p :
  frame_valid (encoder_crc (data p)) p <-> header_neutral p.
Proof.
  unfold frame_valid, header_neutral, encoder_crc at 2. split.
  - rewrite !app_assoc. intros E%calculate_inj_run.
    rewrite !crc_run_app in E. rewrite !crc_run_app.
    apply crc_run_inj in E; [done| |]; repeat apply crc_run_range; lia.
  - intros E. unfold CRC32.calculate. f_equal.
    rewrite !app_assoc, !crc_run_app. rewrite !crc_run_app in E.
    by rewrite E.
Qed.

(** One byte into a frame, the length field announces more than what is left. *)
Lemma announced_shifted v crc p b t :
  wf_packet p -> wire_frame v crc p = b :: t ->
  announced t = b2z v + 256 * (15 + zlen (data p)).
Proof.
  intros Hwf E. pose proof (zlen_data_bound p Hwf).
  change MAX_PACKET_SIZE with 10485760 in *.
  injection E as _ <-. unfold announced.
  change (take 4 _) with (be_bytes 3 (15 + zlen (data p)) ++ [v]).
  rewrite be_val_snoc, be_val_bytes, Z.mod_small by (simpl; lia). lia.
Qed.

Lemma scan_shifted v crc p b t :
  wf_packet p -> wire_frame v crc p = b :: t -> snd (scan t) = None.
Proof.
  intros Hwf E. pose proof (announced_shifted _ _ _ _ _ Hwf E) as Ha.
  pose proof (zlen_wire_frame v crc p) as Hl. rewrite E, zlen_cons in Hl.
  pose proof (zlen_data_bound p Hwf). pose proof (b2z_range v).
  assert (snd (scan t) = snd match step_spec t with
    | Done b r => (b, r)
    | Skip => match t with [] => ([], None) | _ :: rest => scan rest end end)
    as -> by (by destruct t).
  unfold step_spec. destruct (Z.ltb_spec (zlen t) 15); [done|].
  destruct (_ || _); [done|]. by rewrite (proj2 (Z.ltb_lt _ _)) by lia.
Qed.

Lemma scan_own_frame p :
  wf_packet p ->
  snd (scan (wire_frame x01 (encoder_crc (data p)) p)) =
    if decide (header_neutral p) then Some p else None.
Proof.
  intros Hwf. pose proof (step_frame x01 (encoder_crc (data p)) p [] Hwf
    (encoder_crc_range _)) as Hs. rewrite app_nil_r in Hs.
  destruct (wire_frame x01 (encoder_crc (data p)) p) as [|b t] eqn:E.
  { pose proof (length_wire_frame x01 (encoder_crc (data p)) p) as Hl.
    by rewrite E in Hl. }
  cbn [scan]. rewrite Hs.
  destruct (decide (header_neutral p)) as [Hn|Hn].
  - by rewrite decide_True by by apply frame_valid_neutral.
  - rewrite decide_False by (by rewrite frame_valid_neutral).
    by eapply scan_shifted.
Qed.

Lemma Packet_roundtrip host p self :
  wf_packet p ->
  (bytes ← Packet_encode host p; Packet_decode host self bytes) =
    if decide (header_neutral p) then Ret (true, p) else Ret (false, self).
Proof.
  intros Hwf. pose proof (zlen_data_bound p Hwf).
  change MAX_PACKET_SIZE with 10485760 in *. pose proof Hwf as (Hs & Hc & Hd).
  unfold Packet_encode. rewrite encode_wire_frame by lia.
  replace (mkPacket (seq p) (cmd p) (data p)) with p by by destruct p.
  rewrite bind_Ret. unfold Packet_decode. rewrite decode_scan, bind_Ret.
  cbn [buffer_ Codec0 app]. rewrite scan_own_frame by done. by case_decide.
Qed.

(** Replacing a part of the data by one of the same length. *)
Lemma wf_packet_burst p pre old new post :
  wf_packet p -> data p = pre ++ old ++ post -> length old = length new ->
  wf_packet (mkPacket (seq p) (cmd p) (pre ++ new ++ post)).
Proof.
  intros (Hs & Hc & Hd) Hdata Hlen. split; [exact Hs|]. split; [exact Hc|]. cbn [data].
  rewrite Hdata in Hd. unfold zlen in *. rewrite !length_app in *. lia.
Qed.

(** A burst of at most four bytes changes the CRC, so the two packets are not both
    neutral. *)
Lemma burst_not_neutral p pre old new post :
  data p = pre ++ old ++ post -> length old = length new -> (length old <= 4)%nat ->
  old <> new -> header_neutral p ->
  ~ header_neutral (mkPacket (seq p) (cmd p) (pre ++ new ++ post)).
Proof.
  intros Hdata Hlen Hburst Hdiff. unfold header_neutral. intros <- E.
  cbn [data seq cmd] in E. rewrite !crc_run_app in E.
  do 2 (apply crc_run_inj in E; [|by repeat apply crc_run_range; lia..]).
  apply crc_run_inj_data in E; [|by rewrite !length_be_bytes|by rewrite length_be_bytes|lia].
  apply be_bytes_inj in E; [|apply encoder_crc_range..].
  unfold encoder_crc in E. rewrite Hdata, !(app_assoc (repeat x00 10) pre) in E.
  by apply Hdiff, (calculate_burst (repeat x00 10 ++ pre) old new post).
Qed.

(** C10: [Packet::decode] of the bytes of [Packet::encode], for every packet the
    protocol has a frame for (a 32-bit sequence number, a 16-bit command, and data of
    any length, empty included, with which the frame is at most [MAX_PACKET_SIZE], 10
    MiB).  It returns the packet exactly when the ten header bytes the decoder adds to
    the check act on the CRC register like the ten zero bytes the encoder computed it
    over; for every other packet it returns false and leaves the object alone.
    Moreover, of two packets with the same sequence number and command whose data
    differ in a burst of at most four bytes at most one comes back. *)
Theorem codec_roundtrip_condition (host : bool) (p self : Packet) (Hwf : wf_packet p) :
  let trip q := bytes ← Packet_encode host q; Packet_decode host self bytes in
  (header_neutral p -> trip p = Ret (true, p)) /\
  (~ header_neutral p -> trip p = Ret (false, self)) /\
  (forall pre old new post,
    data p = pre ++ old ++ post -> length old = length new -> (length old <= 4)%nat ->
    old <> new ->
    trip p = Ret (true, p) ->
    trip (mkPacket (seq p) (cmd p) (pre ++ new ++ post)) = Ret (false, self)).
Proof.
  cbv beta zeta. rewrite !Packet_roundtrip by done.
  split_and!; [intros; by rewrite decide_True|intros; by rewrite decide_False|].
  intros pre old new post Hdata Hlen Hburst Hdiff Htrip.
  rewrite Packet_roundtrip by by eapply wf_packet_burst.
  rewrite decide_False; [done|]. eapply burst_not_neutral; try done.
  by destruct (decide (header_neutral p)).
Qed.

Lemma codec_roundtrip_condition_witness :
  let p := mkPacket 1 0x1001 [x68; x69] in
  (bytes ← Packet_encode true p; Packet_decode true Packet0 bytes) = Ret (false, Packet0).
Proof.
  intros p. destruct (codec_roundtrip_condition true p Packet0 ltac:(by_compute)) as (_ & H & _).
  apply H. by_compute.
Defined.

(** ** What the decoder accepts, skips and rejects *)

(** A complete frame with a wrong check value: the decoder drops one byte. *)
Definition bad_frame (l : list byte) : Prop :=
  exists v crc p rest,
    l = wire_frame v crc p ++ rest /\ wf_packet p /\ 0 <= crc < 2 ^ 32 /\
    ~ frame_valid crc p.

Definition good_frame (l : list byte) (p : Packet) (rest : list byte) : Prop :=
  exists v crc,
    l = wire_frame v crc p ++ rest /\ wf_packet p /\ 0 <= crc < 2 ^ 32 /\
    frame_valid crc p.

(** Every suffix of [skipped ++ l] that starts inside [skipped] is such a frame. *)
Fixpoint all_bad (skipped l : list byte) : Prop :=
  match skipped with
  | [] => True
  | b :: s => bad_frame ((b :: s) ++ l) /\ all_bad s l
  end.

(** Nothing can be decided yet, or the announced length is out of bounds. *)
Definition incomplete (l : list byte) : Prop :=
  zlen l < HEADER_SIZE \/
  HEADER_SIZE <= announced l <= MAX_PACKET_SIZE /\ zlen l < announced l.

Definition bad_length (l : list byte) : Prop :=
  HEADER_SIZE <= zlen l /\ ~ HEADER_SIZE <= announced l <= MAX_PACKET_SIZE.

(** The four outcomes of an iteration. *)
Inductive step_view (l : list byte) : iteration -> Prop :=
| view_incomplete : incomplete l -> step_view l (Done l None)
| view_bad_length : bad_length l -> step_view l (Done [] None)
| view_good p rest : good_frame l p rest -> step_view l (Done rest (Some p))
| view_bad : bad_frame l -> step_view l Skip.

Lemma step_viewP l : step_view l (step_spec l).
Proof.
  destruct (Z.ltb_spec (zlen l) 15) as [Hs|Hs].
  { unfold step_spec. rewrite (proj2 (Z.ltb_lt _ _)) by done.
    apply view_incomplete. left. done. }
  destruct (decide (15 <= announced l <= MAX_PACKET_SIZE)) as [Ha|Ha].
  2: { unfold step_spec. rewrite (proj2 (Z.ltb_ge _ _)) by done.
       replace (_ || _) with true by (symmetry; apply orb_true_iff; rewrite !Z.ltb_lt; lia).
       apply view_bad_length. by split. }
  destruct (Z.ltb_spec (zlen l) (announced l)) as [Hl|Hl].
  { unfold step_spec. rewrite !(proj2 (Z.ltb_ge _ _)) by lia. cbn [orb].
    rewrite (proj2 (Z.ltb_lt _ _)) by done. apply view_incomplete. by right. }
  destruct (accepted_frame _ l Ha eq_refl Hl) as (v & crc & p & rest & -> & Hwf & Hcrc & _).
  rewrite step_frame by done. case_decide.
  - apply view_good. by exists v, crc.
  - apply view_bad. by exists v, crc, p, rest.
Qed.

Lemma step_good l p rest : good_frame l p rest -> step_spec l = Done rest (Some p).
Proof.
  intros (v & crc & -> & Hwf & Hcrc & Hv). rewrite step_frame by done.
  by rewrite decide_True.
Qed.

Lemma step_bad l : bad_frame l -> step_spec l = Skip.
Proof.
  intros (v & crc & p & rest & -> & Hwf & Hcrc & Hv). rewrite step_frame by done.
  by rewrite decide_False.
Qed.

Lemma bad_frame_app l l' : bad_frame l -> bad_frame (l ++ l').
Proof.
  intros (v & crc & p & rest & -> & H). exists v, crc, p, (rest ++ l').
  by rewrite <-app_assoc.
Qed.

Lemma bad_frame_nonempty l : bad_frame l -> exists b t, l = b :: t.
Proof.
  intros (v & crc & p & rest & -> & _).
  pose proof (length_wire_frame v crc p) as Hl.
  destruct (wire_frame v crc p) as [|b t]; [done|]. by eexists _, _.
Qed.

Lemma scan_step l : scan l =
  match step_spec l with Done b r => (b, r) | Skip => scan (tail l) end.
Proof.
  destruct l; [|done]. cbn [scan tail]. destruct (step_viewP []) as [| | |Hb]; try done.
Qed.

(** The loop skips the bad frames in front. *)
Lemma scan_skip skipped l : all_bad skipped l -> scan (skipped ++ l) = scan l.
Proof.
  induction skipped as [|b s IH]; [done|]. intros [Hb Hs].
  rewrite scan_step, (step_bad _ Hb). by apply IH.
Qed.

(** Every run of the loop: bad frames are skipped up to a point where it stops. *)
Lemma scan_stops l :
  exists skipped stop,
    l = skipped ++ stop /\ all_bad skipped stop /\ step_spec stop <> Skip /\
    scan l = match step_spec stop with Done b r => (b, r) | Skip => ([], None) end.
Proof.
  induction l as [|b l IH].
  - exists [], []. by split_and!.
  - destruct (step_spec (b :: l)) as [b' r|] eqn:E.
    + exists [], (b :: l). rewrite scan_step, E. by split_and!.
    + pose proof (step_viewP (b :: l)) as Hv. rewrite E in Hv. inversion Hv as [| | |Hb].
      destruct IH as (skipped & stop & -> & Hbad & Hns & Hscan).
      exists (b :: skipped), stop. split_and!; try done.
      rewrite scan_step, E. done.
Qed.

(** C11: what [Codec::decode] does with its buffer.  The old buffer and the input,
    read as one byte sequence, split into frames with a wrong check value, dropped
    one byte at a time, and a point where the decoder stops: at a complete frame
    with a right check value, whose packet it returns and whose bytes it consumes,
    nothing more; at bytes that do not make a complete frame yet, which it keeps;
    or at a length field outside [15, 10 MiB], where it empties the buffer.  It
    returns a packet only in the first case, and touches no other member.  The
    version byte of a frame is any byte: the decoder never looks at it, where
    DESIGN.md 8.5 makes another version an error; and a wrong check value costs one
    byte, where 8.5 discards the packet. *)
Theorem codec_decode_outcome {Handler} (host : bool) (c : Codec Handler)
  (input : list byte) :
  exists c' result skipped stop,
    decode host c input = Ret (c', result) /\
    buffer_ c ++ input = skipped ++ stop /\ all_bad skipped stop /\
    c' = set_buffer c (buffer_ c') /\
    ((exists p, good_frame stop p (buffer_ c') /\ result = Some p) \/
     (incomplete stop /\ buffer_ c' = stop /\ result = None) \/
     (bad_length stop /\ buffer_ c' = [] /\ result = None)).
Proof.
  destruct (scan_stops (buffer_ c ++ input)) as (skipped & stop & E & Hbad & Hns & Hscan).
  rewrite decode_scan. eexists _, _, skipped, stop. split; [done|].
  split; [done|]. split; [done|]. split; [done|]. cbn [set_buffer buffer_].
  rewrite Hscan. destruct (step_viewP stop) as [| |p rest Hg|]; cbn [fst snd].
  - right; left. by split_and!.
  - right; right. by split_and!.
  - left. by exists p.
  - done.
Qed.

(** C12: completeness and fragmentation.  A frame of any version with a right check
    value that follows any number of frames with wrong ones, each dropped byte by
    byte, is returned whatever follows it, and the rest of the input stays buffered.  Moreover the stream may be cut
    anywhere: when a first piece yields no packet and its length fields were in
    range (the buffer was not emptied), decoding the two pieces one after the
    other gives what decoding them at once gives. *)
Theorem codec_decode_stream {Handler} (host : bool) (c c1 : Codec Handler)
  (a b skipped stop rest : list byte) (p : Packet)
  (Hgood : good_frame stop p rest) (Hbad : all_bad skipped stop)
  (Hinput : buffer_ c ++ a ++ b = skipped ++ stop)
  (Hfirst : decode host c a = Ret (c1, None)) (Hkept : buffer_ c1 <> []) :
  decode host c (a ++ b) = Ret (set_buffer c rest, Some p) /\
  decode host c1 b = Ret (set_buffer c rest, Some p).
Proof.
  rewrite !decode_scan in *. injection Hfirst as Ec1 Enone. rewrite <-Ec1 in *.
  cbn [set_buffer buffer_] in *.
  assert (scan (buffer_ c ++ a ++ b) = (rest, Some p)) as Hall.
  { rewrite Hinput, scan_skip, scan_step, (step_good _ _ _ Hgood) by done. done. }
  rewrite Hall. split; [done|].
  assert (scan (fst (scan (buffer_ c ++ a)) ++ b) = (rest, Some p)) as ->; [|done].
  rewrite <-Hall, app_assoc. symmetry.
  destruct (scan_stops (buffer_ c ++ a)) as (s & l & E & Hbads & _ & Hscan).
  rewrite E, <-app_assoc in *. rewrite Hscan in *.
  rewrite scan_skip.
  - destruct (step_viewP l); by simplify_eq/=.
  - clear -Hbads. induction s as [|x s IH]; [done|]. destruct Hbads as [Hx Hs].
    split; [|by apply IH]. rewrite app_assoc. by apply bad_frame_app.
Qed.

Lemma codec_decode_stream_witness :
  let p := mkPacket 3 1 [] in
  let frame := wire_frame x01 1425514083 p in
  decode true (Codec0 (Handler := unit)) (take 3 frame ++ (drop 3 frame ++ [xff]))
    = Ret (set_buffer Codec0 [xff], Some p).
Proof.
  intros p frame.
  apply (codec_decode_stream true (Codec0 (Handler := unit))
           (set_buffer Codec0 (take 3 frame))
           (take 3 frame) (drop 3 frame ++ [xff]) [] (frame ++ [xff]) [xff] p).
  - exists x01, 1425514083. split; [reflexivity|]. split; [by_compute|].
    split; [lia|]. vm_compute. reflexivity.
  - exact I.
  - reflexivity.
  - vm_compute. reflexivity.
  - discriminate.
Defined.
