(* ===== verification/StdHeap.v ===== *)
(** * Binary heaps of the C++ standard library

    What [std::push_heap] and [std::pop_heap] promise their callers, as a class,
    and an executable implementation of it.  The timers of base/timer and
    base/event are proved against the class. *)

From S2P Require Import Prelude.
From Stdlib Require Import ZifyNat.

Definition parent (i : nat) : nat := (i - 1) / 2.

(** Linear arithmetic over indices and their parents. *)
Ltac index_lia :=
  unfold parent in *; zify; Z.to_euclidean_division_equations; lia.

Section is_heap.
Context {A : Type} (key : A -> Z).

(** The order between an index and its parent. *)
Definition heap_edge (l : list A) (j : nat) : Prop :=
  forall x y, 0 < j -> l !! j = Some x -> l !! parent j = Some y -> (key y <= key x)%Z.

(** A min-heap: the comparison given to the algorithms is [key a > key b]. *)
Definition is_heap (l : list A) : Prop := forall j, heap_edge l j.

Lemma parent_lt j : 0 < j -> parent j < j.
Proof. unfold parent. intros. apply Nat.Div0.div_lt_upper_bound; lia. Qed.

(** The front of a heap has the least key. *)
Lemma heap_front_le x l y : is_heap (x :: l) -> y ∈ x :: l -> (key x <= key y)%Z.
Proof.
  intros Hh [j Hj]%list_elem_of_lookup. revert y Hj.
  induction (lt_wf j) as [j _ IH]; intros y Hj.
  destruct (decide (j = 0)) as [->|Hn]; [by simplify_eq/=|].
  pose proof (parent_lt j ltac:(lia)) as Hp.
  destruct (lookup_lt_is_Some_2 (x :: l) (parent j)) as [z Hz].
  { apply lookup_lt_Some in Hj. lia. }
  specialize (IH (parent j) Hp z Hz).
  pose proof (Hh j y z ltac:(lia) Hj Hz). lia.
Qed.

Lemma is_heap_nil : is_heap [].
Proof. intros j x y _ H. by rewrite lookup_nil in H. Qed.

(** Only the keys matter. *)
Lemma is_heap_fmap_key (f : A -> A) l :
  (forall x, x ∈ l -> key (f x) = key x) -> is_heap l -> is_heap (f <$> l).
Proof.
  intros Hf Hh j x y Hj. rewrite !list_lookup_fmap.
  intros (x' & Hx & ->)%fmap_Some (y' & Hy & ->)%fmap_Some.
  rewrite !Hf by (by eapply list_elem_of_lookup_2). by apply (Hh j).
Qed.
End is_heap.

(** The contract of the two algorithms (C++17 [alg.heap.operations]). *)
Class StdHeap := {
  push_heap : forall {A : Type}, (A -> Z) -> list A -> list A;
  pop_heap : forall {A : Type}, (A -> Z) -> list A -> list A;
  (** [push_heap]: the range but its last element is a heap. *)
  push_heap_spec : forall {A : Type} (key : A -> Z) (l : list A) (x : A),
    is_heap key l ->
    is_heap key (push_heap key (l ++ [x])) /\ push_heap key (l ++ [x]) ≡ₚ x :: l;
  (** [pop_heap]: the front goes to the back and the rest is a heap. *)
  pop_heap_spec : forall {A : Type} (key : A -> Z) (l : list A) (x : A),
    is_heap key (x :: l) ->
    exists l', pop_heap key (x :: l) = l' ++ [x] /\ is_heap key l' /\ l' ≡ₚ l;
}.

(** ** Exchanging two elements of an array *)

Section swap.
Context {A : Type}.

Definition swap (i j : nat) (l : list A) : list A :=
  match l !! i, l !! j with
  | Some x, Some y => <[i := y]> (<[j := x]> l)
  | _, _ => l
  end.

Lemma length_swap i j l : length (swap i j l) = length l.
Proof. unfold swap. repeat case_match; by rewrite ?length_insert. Qed.

Lemma lookup_swap i j l x y k :
  l !! i = Some x -> l !! j = Some y ->
  swap i j l !! k =
    if decide (k = i) then Some y else if decide (k = j) then Some x else l !! k.
Proof.
  intros Hi Hj. unfold swap. rewrite Hi, Hj.
  pose proof (lookup_lt_Some _ _ _ Hi). pose proof (lookup_lt_Some _ _ _ Hj).
  case_decide as Hk; subst.
  - by rewrite list_lookup_insert_eq by (rewrite length_insert; lia).
  - rewrite list_lookup_insert_ne by done. case_decide as Hk'; subst.
    + by rewrite list_lookup_insert_eq.
    + by rewrite list_lookup_insert_ne.
Qed.

Lemma swap_Permutation i j l : swap i j l ≡ₚ l.
Proof.
  unfold swap. destruct (l !! i) as [x|] eqn:Hi; [|done].
  destruct (l !! j) as [y|] eqn:Hj; [|done].
  by apply (Permutation_insert_swap l j i y x).
Qed.
End swap.

(** ** An implementation: sift up and sift down by exchanges *)

Section algorithms.
Context {A : Type} (key : A -> Z).

(** Exchange with the parent while it is greater. *)
Fixpoint sift_up (fuel : nat) (i : nat) (l : list A) : list A :=
  match fuel, l !! i, l !! parent i with
  | S fuel', Some x, Some y =>
      if decide (i = 0) then l
      else if (key x <? key y)%Z then sift_up fuel' (parent i) (swap i (parent i) l)
      else l
  | _, _, _ => l
  end.

(** The least of the two children of [i], when there is one. *)
Definition least_child (i : nat) (l : list A) : option (nat * A) :=
  match l !! (2 * i + 1), l !! (2 * i + 2) with
  | Some a, Some b => Some (if (key b <? key a)%Z then (2 * i + 2, b) else (2 * i + 1, a))
  | Some a, None => Some (2 * i + 1, a)
  | None, _ => None
  end.

Fixpoint sift_down (fuel : nat) (i : nat) (l : list A) : list A :=
  match fuel, l !! i, least_child i l with
  | S fuel', Some x, Some (c, y) =>
      if (key y <? key x)%Z then sift_down fuel' c (swap i c l) else l
  | _, _, _ => l
  end.

Definition push_heap_impl (l : list A) : list A :=
  sift_up (length l) (length l - 1) l.

Definition pop_heap_impl (l : list A) : list A :=
  match l with
  | [] => []
  | x :: t =>
      match last t with
      | None => l
      | Some z =>
          let front := z :: take (length t - 1) t in
          sift_down (length front) 0 front ++ [x]
      end
  end.

Lemma sift_up_Permutation fuel i l : sift_up fuel i l ≡ₚ l.
Proof.
  revert i l. induction fuel as [|fuel IH]; intros i l; simpl; [done|].
  repeat case_match; try done. by rewrite IH, swap_Permutation.
Qed.

Lemma sift_down_Permutation fuel i l : sift_down fuel i l ≡ₚ l.
Proof.
  revert i l. induction fuel as [|fuel IH]; intros i l; simpl; [done|].
  repeat case_match; try done. by rewrite IH, swap_Permutation.
Qed.

(** A heap but for the edge above [i]. *)
Definition heap_but_up (i : nat) (l : list A) : Prop :=
  (forall j, j <> i -> heap_edge key l j) /\
  (forall j x y, 0 < j -> parent j = i -> 0 < i ->
     l !! j = Some x -> l !! parent i = Some y -> (key y <= key x)%Z).

(** A heap but for the edges below [i]. *)
Definition heap_but_down (i : nat) (l : list A) : Prop :=
  (forall j, parent j <> i -> heap_edge key l j) /\
  (forall j x y, 0 < j -> parent j = i -> 0 < i ->
     l !! j = Some x -> l !! parent i = Some y -> (key y <= key x)%Z).

Lemma sift_up_step i x y l :
  0 < i -> l !! i = Some x -> l !! parent i = Some y -> (key x < key y)%Z ->
  heap_but_up i l -> heap_but_up (parent i) (swap i (parent i) l).
Proof.
  intros Hi Hx Hy Hlt [Hedge Hgp].
  assert (forall k, swap i (parent i) l !! k =
    if decide (k = i) then Some y else if decide (k = parent i) then Some x else l !! k)
    as Hl by (intros; by apply lookup_swap).
  split.
  - intros j Hj a b Hj0. rewrite !Hl. intros Ha Hb.
    destruct (decide (j = i)) as [->|Hji].
    { rewrite decide_False, decide_True in Hb by (done || index_lia).
      simplify_eq. lia. }
    rewrite decide_False in Ha by done.
    destruct (decide (parent j = i)) as [E|].
    { simplify_eq. by apply (Hgp j a b). }
    destruct (decide (parent j = parent i)) as [E|].
    + simplify_eq. pose proof (Hedge j Hji a y Hj0 Ha) as Hs.
      rewrite E in Hs. specialize (Hs Hy). lia.
    + by apply (Hedge j Hji a b).
  - intros j a b Hj0 Hjp Hp. rewrite !Hl.
    rewrite (decide_False (P := parent (parent i) = i)), (decide_False (P := parent (parent i) = parent i)) by index_lia.
    intros Ha Hb. pose proof (Hedge (parent i) ltac:(index_lia) y b Hp Hy Hb) as Hyb.
    destruct (decide (j = i)) as [->|Hji]; [by simplify_eq|].
    rewrite decide_False in Ha by index_lia.
    pose proof (Hedge j Hji a y Hj0 Ha ltac:(by rewrite Hjp)). lia.
Qed.

Lemma sift_up_heap fuel i l :
  i < fuel -> i < length l -> heap_but_up i l -> is_heap key (sift_up fuel i l).
Proof.
  revert i l. induction fuel as [|fuel IH]; intros i l Hf Hlen Hi; [lia|].
  destruct (lookup_lt_is_Some_2 l i Hlen) as [x Hx].
  destruct (lookup_lt_is_Some_2 l (parent i)) as [y Hy]; [index_lia|].
  simpl. rewrite Hx, Hy. destruct (decide (i = 0)) as [->|].
  { destruct Hi as [Hedge _]. intros j. destruct (decide (j = 0)) as [->|]; [|auto].
    intros ???. lia. }
  destruct (Z.ltb_spec (key x) (key y)).
  - apply IH; [index_lia|rewrite length_swap; index_lia|].
    apply (sift_up_step i x y); auto with lia.
  - destruct Hi as [Hedge _]. intros j. destruct (decide (j = i)) as [->|]; [|auto].
    intros a b _ Ha Hb. simplify_eq. lia.
Qed.

Lemma push_heap_impl_spec l x :
  is_heap key l ->
  is_heap key (push_heap_impl (l ++ [x])) /\ push_heap_impl (l ++ [x]) ≡ₚ x :: l.
Proof.
  intros Hh. unfold push_heap_impl. rewrite length_app. simpl.
  replace (length l + 1 - 1) with (length l) by lia. split.
  - apply sift_up_heap; [lia|rewrite length_app; simpl; lia|]. split.
    + intros j Hj a b Hj0 Ha Hb. apply (Hh j a b Hj0).
      * pose proof (lookup_lt_Some _ _ _ Ha) as H. rewrite length_app in H. simpl in H.
        rewrite lookup_app_l in Ha by lia. done.
      * pose proof (lookup_lt_Some _ _ _ Ha) as H. rewrite length_app in H. simpl in H.
        rewrite lookup_app_l in Hb by index_lia. done.
    + intros j a b Hj0 Hjp _ Ha. apply lookup_lt_Some in Ha.
      rewrite length_app in Ha. simpl in Ha. index_lia.
  - rewrite sift_up_Permutation. by rewrite Permutation_app_comm.
Qed.

Lemma least_child_spec i l c y :
  least_child i l = Some (c, y) ->
  l !! c = Some y /\ parent c = i /\ i < c /\
  (forall j z, 0 < j -> parent j = i -> l !! j = Some z -> (key y <= key z)%Z).
Proof.
  unfold least_child. destruct (l !! (2 * i + 1)) as [a|] eqn:Ea; [|done].
  assert (forall j, 0 < j -> parent j = i -> j = 2 * i + 1 \/ j = 2 * i + 2) as Hch
    by index_lia.
  destruct (l !! (2 * i + 2)) as [b|] eqn:Eb; [destruct (Z.ltb_spec (key b) (key a))|];
    intros [= <- <-]; (split; [done|]; split; [index_lia|]; split; [lia|]);
    intros j z Hj Hjp Hz; destruct (Hch j Hj Hjp) as [-> | ->]; simplify_eq; lia.
Qed.

Lemma least_child_None i l j :
  least_child i l = None -> 0 < j -> parent j = i -> l !! j = None.
Proof.
  unfold least_child. destruct (l !! (2 * i + 1)) as [a|] eqn:Ea; [by repeat case_match|].
  intros _ Hj Hp. apply lookup_ge_None in Ea. apply lookup_ge_None. index_lia.
Qed.

Lemma sift_down_step i x c y l :
  l !! i = Some x -> least_child i l = Some (c, y) -> (key y < key x)%Z ->
  heap_but_down i l -> heap_but_down c (swap i c l).
Proof.
  intros Hx Hc Hlt [Hedge Hgp].
  apply least_child_spec in Hc as (Hy & Hpc & Hic & Hmin).
  assert (forall k, swap i c l !! k =
    if decide (k = i) then Some y else if decide (k = c) then Some x else l !! k)
    as Hl by (intros; by apply lookup_swap).
  split.
  - intros j Hj a b Hj0. rewrite !Hl. intros Ha Hb.
    rewrite (decide_False (P := parent j = c)) in Hb by done.
    destruct (decide (j = i)) as [->|Hji].
    { rewrite decide_False in Hb by index_lia. simplify_eq.
      apply (Hgp c a b); auto; lia. }
    destruct (decide (j = c)) as [->|Hjc].
    { rewrite decide_True in Hb by done. simplify_eq. lia. }
    destruct (decide (parent j = i)) as [E|].
    + simplify_eq. by apply (Hmin j a).
    + by apply (Hedge j).
  - intros j a b Hj0 Hjp Hc0. rewrite !Hl, Hpc.
    rewrite !decide_False, decide_True by index_lia.
    intros Ha Hb. simplify_eq. apply (Hedge j ltac:(index_lia) a b Hj0 Ha).
    by rewrite Hjp || done.
Qed.

Lemma sift_down_heap fuel i l :
  length l <= fuel + i -> heap_but_down i l -> is_heap key (sift_down fuel i l).
Proof.
  revert i l. induction fuel as [|fuel IH]; intros i l Hf Hi.
  - simpl. intros j a b Hj Ha Hb. destruct (decide (parent j = i)) as [<-|].
    + apply lookup_lt_Some in Ha. index_lia.
    + by apply (proj1 Hi j).
  - assert (least_child i l = None \/ l !! i = None -> is_heap key l) as Hstop.
    { intros Hor j a b Hj Ha Hb. destruct (decide (parent j = i)) as [E|].
      - destruct Hor as [Hn|Hn].
        + by rewrite (least_child_None i l j) in Ha.
        + by rewrite E, Hn in Hb.
      - by apply (proj1 Hi j). }
    simpl. destruct (l !! i) as [x|] eqn:Hx; [|auto].
    destruct (least_child i l) as [[c y]|] eqn:Hc; [|auto].
    destruct (Z.ltb_spec (key y) (key x)).
    + apply IH; [|by eapply sift_down_step].
      apply least_child_spec in Hc as (_ & _ & ? & _). rewrite length_swap. lia.
    + intros j a b Hj Ha Hb. destruct (decide (parent j = i)) as [E|].
      * apply least_child_spec in Hc as (_ & _ & _ & Hmin).
        pose proof (Hmin j a Hj E Ha). simplify_eq. lia.
      * by apply (proj1 Hi j).
Qed.

Lemma pop_heap_impl_spec l x :
  is_heap key (x :: l) ->
  exists l', pop_heap_impl (x :: l) = l' ++ [x] /\ is_heap key l' /\ l' ≡ₚ l.
Proof.
  intros Hh. unfold pop_heap_impl. destruct (last l) as [z|] eqn:Hz.
  2: { apply last_None in Hz as ->. exists []. split_and!; [done|apply is_heap_nil|done]. }
  apply last_Some in Hz as [m ->]. eexists. split; [done|].
  rewrite length_app, take_app_length' by (simpl; lia). split.
  - apply sift_down_heap; [lia|]. split; [|intros; lia].
    intros j Hj a b Hj0 Ha Hb. destruct j as [|j]; [lia|]. simpl in Ha.
    destruct (parent (S j)) as [|p] eqn:Hp; [done|]. simpl in Hb.
    apply (Hh (S j) a b); [lia|simpl..].
    + by apply lookup_app_l_Some.
    + rewrite Hp. simpl. by apply lookup_app_l_Some.
  - rewrite sift_down_Permutation. by rewrite Permutation_app_comm.
Qed.
End algorithms.

#[global] Instance libheap : StdHeap := {|
  push_heap := fun A key l => push_heap_impl key l;
  pop_heap := fun A key l => pop_heap_impl key l;
  push_heap_spec := fun A key => push_heap_impl_spec key;
  pop_heap_spec := fun A key => pop_heap_impl_spec key;
|}.
