(* ===== verification/TimerQueue.v ===== *)
(** * The expiry loop shared by the timers

    [Timer::poll], [TimerLoop::thread_loop] and [EventLoop::process_timers] run the
    same loop over a vector kept with [std::push_heap]/[std::pop_heap]: drop the
    front while it is cancelled, move it to [fired] while it is due.  The loop is
    written once over the interface of a timer entry. *)

From S2P Require Import Prelude StdHeap.

Open Scope Z_scope.

(** What the loop reads of an entry. *)
Class TimerLike (T : Type) := {
  tl_expire : T -> Z;
  tl_cancelled : T -> bool;
}.

Section loop.
Context `{StdHeap} {T : Type} `{!TimerLike T}.

(** [push_back] followed by [push_heap]. *)
Definition enqueue (t : T) (items : list T) : list T :=
  push_heap tl_expire (items ++ [t]).

(** [pop_heap], read of [back()], [pop_back]. *)
Definition dequeue (items : list T) : option (T * list T) :=
  let l := pop_heap tl_expire items in
  match last l with
  | Some t => Some (t, removelast l)
  | None => None
  end.

(** The loop; [fuel] bounds the number of iterations, each of which removes an
    entry. *)
Fixpoint collect_loop (fuel : nat) (now : Z) (items fired : list T)
    : list T * list T :=
  match fuel, items with
  | S fuel', top :: _ =>
      if tl_cancelled top then
        match dequeue items with
        | Some (_, items') => collect_loop fuel' now items' fired
        | None => (items, fired)
        end
      else if now <? tl_expire top then (items, fired)
      else
        match dequeue items with
        | Some (t, items') => collect_loop fuel' now items' (fired ++ [t])
        | None => (items, fired)
        end
  | _, _ => (items, fired)
  end.

Definition collect (now : Z) (items : list T) : list T * list T :=
  collect_loop (length items) now items [].

(** ** The queue operations on a heap *)

Abbreviation heap := (is_heap tl_expire).

Lemma enqueue_spec t items :
  heap items -> heap (enqueue t items) /\ enqueue t items ≡ₚ t :: items.
Proof. apply push_heap_spec. Qed.

Lemma dequeue_spec t items :
  heap (t :: items) ->
  exists items', dequeue (t :: items) = Some (t, items') /\ heap items' /\ items' ≡ₚ items.
Proof.
  intros Hh. destruct (pop_heap_spec tl_expire items t Hh) as (l & E & Hl & Hp).
  exists l. unfold dequeue. rewrite E, last_snoc, removelast_last. done.
Qed.

(** ** The loop on a heap *)

(** Live entries, due or not. *)
Definition due (now : Z) (t : T) : Prop := tl_cancelled t = false /\ tl_expire t <= now.
Definition pending (now : Z) (t : T) : Prop := tl_cancelled t = false /\ now < tl_expire t.

#[global] Instance due_dec now t : Decision (due now t).
Proof. unfold due. apply _. Defined.
#[global] Instance pending_dec now t : Decision (pending now t).
Proof. unfold pending. apply _. Defined.

(** The front of what is left decides when to look again. *)
Definition front_pending (now : Z) (items : list T) : Prop :=
  match items with [] => True | t :: _ => pending now t end.

Definition by_expiry (a b : T) : Prop := tl_expire a <= tl_expire b.

Lemma collect_loop_spec fuel now items fired :
  (length items <= fuel)%nat -> heap items ->
  exists rest more,
    collect_loop fuel now items fired = (rest, fired ++ more) /\
    heap rest /\ front_pending now rest /\
    StronglySorted by_expiry more /\
    more ≡ₚ filter (due now) items /\
    (exists dropped, items ≡ₚ more ++ dropped ++ rest /\
       Forall (fun t => tl_cancelled t = true) dropped).
Proof.
  revert items fired. induction fuel as [|fuel IH]; intros items fired Hf Hh.
  { destruct items; [|simpl in Hf; lia]. exists [], []. rewrite app_nil_r.
    split_and!; try done; [constructor|]. by exists []. }
  destruct items as [|top items].
  { exists [], []. rewrite app_nil_r. split_and!; try done; [constructor|]. by exists []. }
  simpl in Hf. destruct (dequeue_spec top items Hh) as (items' & Hd & Hh' & Hp).
  assert (length items' <= fuel)%nat by (rewrite Hp; lia).
  cbn [collect_loop]. rewrite Hd.
  destruct (tl_cancelled top) eqn:Hc.
  - destruct (IH items' fired) as (rest & more & -> & Hr & Hfr & Hs & Hm & d & Hd' & Hdc);
      [done..|].
    exists rest, more. split_and!; try done.
    + rewrite Hm, Hp, filter_cons_False; [done|]. intros [Hc' _]. congruence.
    + exists (top :: d). split; [|by constructor].
      rewrite <-Hp, Hd'. simpl. apply Permutation_middle.
  - destruct (Z.ltb_spec now (tl_expire top)) as [Hlt|Hle].
    + exists (top :: items), []. rewrite app_nil_r. split_and!; try done.
      * constructor.
      * rewrite filter_none; [done|]. apply Forall_forall. intros t Ht [_ Hdue].
        pose proof (heap_front_le _ _ _ _ Hh Ht). lia.
      * by exists [].
    + destruct (IH items' (fired ++ [top]))
        as (rest & more & -> & Hr & Hfr & Hs & Hm & d & Hd' & Hdc); [done..|].
      exists rest, (top :: more). rewrite <-app_assoc. split_and!; try done.
      * constructor; [done|]. apply Forall_forall. intros t Ht.
        apply (heap_front_le _ top items t Hh). right. rewrite <-Hp, Hd'.
        apply elem_of_app. by left.
      * rewrite Hm, Hp, filter_cons_True; [done|]. by split.
      * exists d. split; [|done]. simpl. by rewrite <-Hp, Hd'.
Qed.

Lemma collect_spec now items :
  heap items ->
  exists rest fired,
    collect now items = (rest, fired) /\
    heap rest /\ front_pending now rest /\
    StronglySorted by_expiry fired /\
    fired ≡ₚ filter (due now) items /\
    (exists dropped, items ≡ₚ fired ++ dropped ++ rest /\
       Forall (fun t => tl_cancelled t = true) dropped).
Proof.
  intros Hh. destruct (collect_loop_spec (length items) now items [])
    as (rest & more & E & ?); [done..|].
  by exists rest, more.
Qed.

(** What is left of the live entries are those not due. *)
Lemma collect_rest now items rest fired :
  heap items -> collect now items = (rest, fired) ->
  filter (pending now) rest ≡ₚ filter (pending now) items /\
  Forall (fun t => tl_cancelled t = true \/ now < tl_expire t) rest.
Proof.
  intros Hh E. destruct (collect_spec now items Hh)
    as (r & f & E' & Hr & Hfr & _ & Hf & d & Hd & Hdc).
  rewrite E in E'. simplify_eq.
  assert (filter (pending now) f = []) as Hf0.
  { apply filter_none. rewrite Hf. apply Forall_forall.
    intros t [[_ Ht] _]%list_elem_of_filter [_ Ht']. lia. }
  assert (filter (pending now) d = []) as Hd0.
  { apply filter_none. eapply Forall_impl; [exact Hdc|].
    intros t Hc [Hc' _]. congruence. }
  split.
  - by rewrite Hd, !filter_app, Hf0, Hd0.
  - apply Forall_forall. intros t Ht. destruct (tl_cancelled t) eqn:Hc; [by left|right].
    destruct r as [|top r]; [by apply not_elem_of_nil in Ht|].
    destruct Hfr as [_ Hfr]. pose proof (heap_front_le _ _ _ _ Hr Ht). lia.
Qed.
End loop.
