(* ===== verification/Timer.v ===== *)
(** * Timer (base/timer/timer.h, base/timer/timer.cpp)

    The timer manager driven by an event loop: a vector of entries kept as a
    min-heap of expiry times.  Callbacks run inside [poll] and may use the timer
    they are called from. *)

From S2P Require Import Prelude StdHeap TimerQueue.

Open Scope Z_scope.

Section Timer.
(** [CB] is the type of non-empty [std::function<void()>] values. *)
Context `{StdHeap} {CB : Type}.

Record TimerItem := {
  id : Z;
  expire_at : Z;
  interval_ms : Z;
  callback : option CB;
  cancelled : bool;
}.

Definition is_repeating (t : TimerItem) : bool := 0 <? interval_ms t.

#[global] Instance TimerItem_like : TimerLike TimerItem :=
  {| tl_expire := expire_at; tl_cancelled := cancelled |}.

Record Timer := { next_id_ : Z; items_ : list TimerItem }.

Definition Timer0 : Timer := {| next_id_ := 0; items_ := [] |}.

(** Take the next identifier and push an entry. *)
Definition push_item (expire interval : Z) (cb : option CB) (tm : Timer) : Z * Timer :=
  let nid := next_id_ tm + 1 in
  let item := {| id := nid; expire_at := expire; interval_ms := interval;
                 callback := cb; cancelled := false |} in
  (nid, {| next_id_ := nid; items_ := enqueue item (items_ tm) |}).

(** [tick] is the value of [get_tick_ms()]; a signed overflow of the sum wraps. *)
Definition add (tick after_ms : Z) (cb : option CB) (tm : Timer) : Z * Timer :=
  match cb with
  | None => (-1, tm)
  | Some _ =>
      if after_ms <=? 0 then (-1, tm)
      else push_item (i64 (i64 tick + after_ms)) 0 cb tm
  end.

Definition add_repeating (tick interval : Z) (cb : option CB) (tm : Timer) : Z * Timer :=
  match cb with
  | None => (-1, tm)
  | Some _ =>
      if interval <=? 0 then (-1, tm)
      else push_item (i64 (i64 tick + interval)) interval cb tm
  end.

Definition set_cancelled (t : TimerItem) : TimerItem :=
  {| id := id t; expire_at := expire_at t; interval_ms := interval_ms t;
     callback := callback t; cancelled := true |}.

(** The first entry with the identifier, in array order. *)
Fixpoint cancel_items (timer_id : Z) (l : list TimerItem) : bool * list TimerItem :=
  match l with
  | [] => (false, [])
  | t :: l' =>
      if id t =? timer_id then (true, set_cancelled t :: l')
      else let '(b, r) := cancel_items timer_id l' in (b, t :: r)
  end.

Definition cancel (timer_id : Z) (tm : Timer) : bool * Timer :=
  let '(b, l) := cancel_items timer_id (items_ tm) in
  (b, {| next_id_ := next_id_ tm; items_ := l |}).

Definition clear (tm : Timer) : Timer := {| next_id_ := next_id_ tm; items_ := [] |}.

Fixpoint first_live (l : list TimerItem) : Z :=
  match l with
  | [] => -1
  | t :: l' => if cancelled t then first_live l' else expire_at t
  end.

Definition nearest_expire (tm : Timer) : Z := first_live (items_ tm).

Definition size (tm : Timer) : nat :=
  length (filter (fun t => cancelled t = false) (items_ tm)).

(** The public operations other than [poll]. *)
Inductive op :=
| OpAdd (tick after_ms : Z) (cb : option CB)
| OpAddRepeating (tick interval : Z) (cb : option CB)
| OpCancel (timer_id : Z)
| OpClear.

Definition run_op (o : op) (tm : Timer) : Timer :=
  match o with
  | OpAdd tick after cb => snd (add tick after cb tm)
  | OpAddRepeating tick interval cb => snd (add_repeating tick interval cb tm)
  | OpCancel i => snd (cancel i tm)
  | OpClear => clear tm
  end.

Definition run_ops (os : list op) (tm : Timer) : Timer := foldl (fun t o => run_op o t) tm os.

(** ** [poll] *)

(** A call of a callback, with the timer it finds. *)
Variable exec : CB -> Timer -> cb_end * Timer.

(** The entry pushed for the next period: a new identifier. *)
Definition rearm (now : Z) (t : TimerItem) (tm : Timer) : Timer :=
  if 0 <? interval_ms t
  then snd (push_item (i64 (now + interval_ms t)) (interval_ms t) (callback t) tm)
  else tm.

(** The second loop of [poll]: the entries whose callback was called, whether the
    loop ended (a foreign exception leaves it), and the timer. *)
Fixpoint run_fired (now : Z) (fired : list TimerItem) (tm : Timer)
    : list TimerItem * bool * Timer :=
  match fired with
  | [] => ([], true, tm)
  | t :: fired' =>
      if cancelled t then run_fired now fired' tm
      else
        match callback t with
        | None => run_fired now fired' (rearm now t tm)
        | Some cb =>
            match exec cb tm with
            | (CbOther, tm') => ([t], false, tm')
            | (_, tm') =>
                let '(calls, ok, tm'') := run_fired now fired' (rearm now t tm') in
                (t :: calls, ok, tm'')
            end
        end
  end.

Definition delay (now : Z) (tm : Timer) : Z :=
  match items_ tm with
  | [] => -1
  | t :: _ => i64 (expire_at t - now)
  end.

(** The calls made, the result ([Throw] when a foreign exception propagates) and
    the timer. *)
Definition poll (now : Z) (tm : Timer) : list TimerItem * outcome Z * Timer :=
  let '(rest, fired) := collect now (items_ tm) in
  let '(calls, ok, tm') :=
    run_fired now fired {| next_id_ := next_id_ tm; items_ := rest |} in
  (calls, if ok then Ret (delay now tm') else Throw, tm').
End Timer.

Arguments Timer CB : clear implicits.
Arguments TimerItem CB : clear implicits.
Arguments op CB : clear implicits.

(** ** Invariant *)

Section invariant.
Context `{StdHeap} {CB : Type}.
Implicit Types (tm : Timer CB) (t : TimerItem CB).

(** Identifiers are positive, distinct and were issued; callbacks are there. *)
Definition item_ok (n : Z) t : Prop :=
  0 < id t <= n /\ 0 <= interval_ms t /\ is_Some (callback t).

Record wf tm : Prop := {
  wf_heap : is_heap tl_expire (items_ tm);
  wf_ids : NoDup (id <$> items_ tm);
  wf_items : Forall (item_ok (next_id_ tm)) (items_ tm);
  wf_next : 0 <= next_id_ tm;
}.

Lemma Timer0_wf : wf Timer0.
Proof. split; simpl; [apply is_heap_nil|constructor|constructor|lia]. Qed.

Lemma item_ok_mono n m t : item_ok n t -> n <= m -> item_ok m t.
Proof. intros (? & ? & ?) ?. split_and!; [lia..|done]. Qed.

Lemma ids_issued tm i : wf tm -> i ∈ id <$> items_ tm -> 0 < i <= next_id_ tm.
Proof.
  intros [_ _ Hi _] (t & -> & Ht)%list_elem_of_fmap.
  rewrite Forall_forall in Hi. apply Hi in Ht as [? _]. done.
Qed.

(** The entry [push_item] adds. *)
Definition new_item expire interval (cb : option CB) tm : TimerItem CB :=
  {| id := next_id_ tm + 1; expire_at := expire; interval_ms := interval;
     callback := cb; cancelled := false |}.

Lemma push_item_spec expire interval cb tm :
  is_heap tl_expire (items_ tm) ->
  let tm' := snd (push_item expire interval cb tm) in
  next_id_ tm' = next_id_ tm + 1 /\
  is_heap tl_expire (items_ tm') /\
  items_ tm' ≡ₚ new_item expire interval cb tm :: items_ tm.
Proof.
  intros Hh. simpl. split; [done|].
  apply (enqueue_spec (new_item expire interval cb tm) (items_ tm) Hh).
Qed.

Lemma push_item_wf expire interval cb tm :
  wf tm -> 0 <= interval -> is_Some cb -> wf (snd (push_item expire interval cb tm)).
Proof.
  intros Hwf Hi Hcb. destruct (push_item_spec expire interval cb tm) as (Hn & Hh & Hp).
  { apply Hwf. }
  split; [done| | |].
  - rewrite Hp. simpl. constructor; [|apply Hwf].
    intros Hin. apply (ids_issued _ _ Hwf) in Hin. lia.
  - rewrite Hp, Hn. constructor.
    + pose proof (wf_next _ Hwf). split_and!; simpl; [lia..|done].
    + eapply Forall_impl; [apply Hwf|]. intros t Ht.
      eapply item_ok_mono; [done|lia].
  - rewrite Hn. pose proof (wf_next _ Hwf). lia.
Qed.

(** Distinct identifiers: [cancel] marks the one entry that has it. *)
Definition mark (i : Z) t : TimerItem CB := if id t =? i then set_cancelled t else t.

Lemma mark_other i (l : list (TimerItem CB)) : i ∉ id <$> l -> mark i <$> l = l.
Proof.
  intros Hi. rewrite <-(list_fmap_id l) at 2. apply list_fmap_ext. intros k t Ht.
  unfold mark. destruct (Z.eqb_spec (id t) i) as [<-|]; [|done].
  destruct Hi. apply list_elem_of_fmap_2. by eapply list_elem_of_lookup_2.
Qed.

Lemma cancel_items_spec i (l : list (TimerItem CB)) :
  NoDup (id <$> l) ->
  cancel_items i l = (bool_decide (i ∈ id <$> l), mark i <$> l).
Proof.
  induction l as [|t l IH]; simpl; [done|]. intros [Ht Hl]%NoDup_cons.
  unfold mark at 1. destruct (Z.eqb_spec (id t) i) as [<-|Hne].
  - rewrite bool_decide_true by constructor. by rewrite mark_other.
  - rewrite IH by done. f_equal. apply bool_decide_ext. rewrite elem_of_cons. split; [tauto|intros [->|]; done].
Qed.

Lemma mark_fields i t :
  id (mark i t) = id t /\ expire_at (mark i t) = expire_at t /\
  interval_ms (mark i t) = interval_ms t /\ callback (mark i t) = callback t.
Proof. unfold mark. by destruct (id t =? i). Qed.

Lemma mark_ids i (l : list (TimerItem CB)) : id <$> (mark i <$> l) = id <$> l.
Proof.
  rewrite <-list_fmap_compose. apply list_fmap_ext. intros. apply mark_fields.
Qed.

Lemma cancel_spec i tm :
  wf tm ->
  cancel i tm = (bool_decide (i ∈ id <$> items_ tm),
                 {| next_id_ := next_id_ tm; items_ := mark i <$> items_ tm |}).
Proof. intros Hwf. unfold cancel. by rewrite cancel_items_spec by apply Hwf. Qed.

Lemma cancel_wf i tm : wf tm -> wf (snd (cancel i tm)).
Proof.
  intros Hwf. rewrite cancel_spec by done. split; simpl.
  - apply is_heap_fmap_key; [|apply Hwf]. intros t _. apply mark_fields.
  - rewrite mark_ids. apply Hwf.
  - apply Forall_fmap. eapply Forall_impl; [apply Hwf|]. intros t Ht.
    unfold compose, item_ok. by destruct (mark_fields i t) as (-> & _ & -> & ->).
  - apply Hwf.
Qed.

Lemma run_op_wf o tm : wf tm -> wf (run_op o tm).
Proof.
  intros Hwf. destruct o as [tick a cb|tick a cb|i|]; simpl.
  - destruct cb; simpl; [|done]. destruct (Z.leb_spec a 0); [done|].
    apply push_item_wf; [done|lia|done].
  - destruct cb; simpl; [|done]. destruct (Z.leb_spec a 0); [done|].
    apply push_item_wf; [done|lia|done].
  - by apply cancel_wf.
  - split; simpl; [apply is_heap_nil|constructor|constructor|apply Hwf].
Qed.

Lemma run_ops_wf os tm : wf tm -> wf (run_ops os tm).
Proof. revert tm. induction os as [|o os IH]; intros tm Hwf; [done|]. by apply IH, run_op_wf. Qed.

Lemma rearm_wf now t tm : wf tm -> is_Some (callback t) -> wf (rearm now t tm).
Proof.
  intros Hwf Hcb. unfold rearm. destruct (Z.ltb_spec 0 (interval_ms t)); [|done].
  apply push_item_wf; [done|lia|done].
Qed.

(** ** Identifiers that can never fire again *)

Definition dead (i : Z) tm : Prop :=
  i <= next_id_ tm /\ forall t, t ∈ items_ tm -> id t = i -> cancelled t = true.

Lemma dead_push i expire interval cb tm :
  wf tm -> dead i tm -> dead i (snd (push_item expire interval cb tm)).
Proof.
  intros Hwf [Hi Hd]. destruct (push_item_spec expire interval cb tm) as (Hn & _ & Hp).
  { apply Hwf. }
  split; [lia|]. intros t. rewrite Hp. intros [->|Ht]%elem_of_cons; [simpl; lia|by apply Hd].
Qed.

Lemma dead_cancel i j tm : wf tm -> dead i tm -> dead i (snd (cancel j tm)).
Proof.
  intros Hwf [Hi Hd]. rewrite cancel_spec by done. split; simpl; [done|].
  intros t (t' & -> & Ht)%list_elem_of_fmap. unfold mark.
  destruct (id t' =? j); [done|]. by apply Hd.
Qed.

Lemma dead_op i o tm : wf tm -> dead i tm -> dead i (run_op o tm).
Proof.
  intros Hwf Hd. destruct o as [tick a cb|tick a cb|j|]; simpl.
  - destruct cb; simpl; [|done]. case_match; [done|]. by apply (dead_push i _ 0 (Some c)).
  - destruct cb; simpl; [|done]. case_match; [done|]. by apply (dead_push i _ a (Some c)).
  - by apply dead_cancel.
  - split; [apply Hd|]. intros t Ht. by apply not_elem_of_nil in Ht.
Qed.

Lemma dead_ops i os tm : wf tm -> dead i tm -> dead i (run_ops os tm).
Proof.
  revert tm. induction os as [|o os IH]; intros tm Hwf Hd; [done|].
  apply IH; [by apply run_op_wf|by apply dead_op].
Qed.

Lemma dead_rearm i now t tm : wf tm -> dead i tm -> dead i (rearm now t tm).
Proof. intros. unfold rearm. case_match; [by apply dead_push|done]. Qed.

(** The entries taken by [collect] leave the timer well formed and are dead in it. *)
Lemma collect_timer now tm :
  wf tm ->
  exists rest fired,
    collect now (items_ tm) = (rest, fired) /\
    wf {| next_id_ := next_id_ tm; items_ := rest |} /\
    StronglySorted by_expiry fired /\
    fired ≡ₚ filter (due now) (items_ tm) /\
    NoDup (id <$> fired) /\
    Forall (fun t => cancelled t = false /\ is_Some (callback t)) fired /\
    (forall t, t ∈ fired -> dead (id t) {| next_id_ := next_id_ tm; items_ := rest |}) /\
    (forall i, dead i tm -> (i ∉ id <$> fired) /\
       dead i {| next_id_ := next_id_ tm; items_ := rest |}).
Proof.
  intros Hwf. destruct (collect_spec now (items_ tm) (wf_heap _ Hwf))
    as (rest & fired & E & Hr & _ & Hs & Hf & d & Hd & _).
  assert (forall t, t ∈ rest -> t ∈ items_ tm) as Hrest by (intros; rewrite Hd; set_solver).
  assert (forall t, t ∈ fired -> t ∈ items_ tm /\ due now t) as Hfired.
  { intros t. rewrite Hf, list_elem_of_filter. tauto. }
  pose proof (wf_ids _ Hwf) as Hnd. rewrite Hd, !fmap_app in Hnd.
  apply NoDup_app in Hnd as (Hnf & Hdis & (_ & _ & Hnr)%NoDup_app).
  pose proof (proj1 (Forall_forall _ _) (wf_items _ Hwf)) as Hit.
  exists rest, fired. split_and!; try done.
  - split; simpl; [done|done| |apply Hwf].
    apply Forall_forall. auto.
  - apply Forall_forall. intros t [Ht [Hc _]]%Hfired. split; [done|]. by apply Hit.
  - intros t Ht. split; simpl.
    + apply Hit. by apply Hfired.
    + intros u Hu Hid. destruct (Hdis (id t)); [by apply list_elem_of_fmap_2|].
      apply elem_of_app. right. rewrite <-Hid. by apply list_elem_of_fmap_2.
  - intros i [Hi Hdead]. split.
    + intros (t & -> & Ht)%list_elem_of_fmap. apply Hfired in Ht as [Ht [Hc _]].
      pose proof (Hdead t Ht eq_refl) as Hc'. simpl in Hc. congruence.
    + split; simpl; [done|]. intros t Ht. by apply Hdead, Hrest.
Qed.
End invariant.

(** ** [poll] and histories of calls *)

Section poll.
Context `{StdHeap} {CB : Type} (exec : CB -> Timer CB -> cb_end * Timer CB).
Implicit Types (tm : Timer CB) (t : TimerItem CB).

(** The members are private: a callback changes the timer by its operations. *)
Hypothesis exec_ops : forall cb tm, exists os, snd (exec cb tm) = run_ops os tm.

Lemma exec_wf cb tm e tm' : exec cb tm = (e, tm') -> wf tm -> wf tm'.
Proof. intros E. destruct (exec_ops cb tm) as [os Hos]. rewrite E in Hos.
  simpl in Hos. subst. apply run_ops_wf. Qed.

Lemma exec_dead i cb tm e tm' : exec cb tm = (e, tm') -> wf tm -> dead i tm -> dead i tm'.
Proof. intros E. destruct (exec_ops cb tm) as [os Hos]. rewrite E in Hos.
  simpl in Hos. subst. apply dead_ops. Qed.

(** What the second loop keeps, and what it calls. *)
Lemma run_fired_spec now fired tm :
  wf tm -> Forall (fun t => cancelled t = false /\ is_Some (callback t)) fired ->
  exists calls ok tm',
    run_fired exec now fired tm = (calls, ok, tm') /\ wf tm' /\
    (forall i, dead i tm -> dead i tm') /\
    if ok : bool then calls = fired
    else exists pre t post, fired = pre ++ t :: post /\ calls = pre ++ [t].
Proof.
  revert tm. induction fired as [|t fired IH]; intros tm Hwf Hf.
  { exists [], true, tm. split_and!; done. }
  apply Forall_cons in Hf as [[Hc [cb Hcb]] Hf]. simpl. rewrite Hc, Hcb.
  destruct (exec cb tm) as [e tm1] eqn:He.
  pose proof (exec_wf _ _ _ _ He Hwf) as Hwf1.
  pose proof (fun i => exec_dead i _ _ _ _ He Hwf) as Hd1.
  assert (is_Some (callback t)) as Hs by by exists cb.
  destruct (IH (rearm now t tm1)) as (calls & ok & tm' & E & Hwf' & Hd & Hok);
    [by apply rearm_wf|done|].
  assert (forall i, dead i tm -> dead i tm') as Hd' by auto using dead_rearm.
  destruct e; rewrite ?E.
  1, 2: exists (t :: calls), ok, tm'; split_and!; try done; destruct ok;
    [by subst|destruct Hok as (pre & u & post & -> & ->); by exists (t :: pre), u, post].
  exists [t], false, tm1. split_and!; try done. by exists [], t, fired.
Qed.

(** One [poll]: what it calls, returns and keeps. *)
Lemma poll_spec now tm :
  wf tm ->
  exists fired calls r tm',
    poll exec now tm = (calls, r, tm') /\ wf tm' /\
    StronglySorted by_expiry fired /\
    fired ≡ₚ filter (due now) (items_ tm) /\
    NoDup (id <$> fired) /\
    (forall t, t ∈ fired -> dead (id t) tm') /\
    (forall i, dead i tm -> (i ∉ id <$> fired) /\ dead i tm') /\
    match r with
    | Ret d => calls = fired /\ d = delay now tm'
    | Throw => exists pre t post, fired = pre ++ t :: post /\ calls = pre ++ [t]
    | Undef => False
    end.
Proof.
  intros Hwf. destruct (collect_timer now tm Hwf)
    as (rest & fired & E & Hwf0 & Hs & Hf & Hnd & Hok & Hdead & Hkeep).
  destruct (run_fired_spec now fired _ Hwf0 Hok) as (calls & ok & tm' & E' & Hwf' & Hd & Hc).
  unfold poll. rewrite E, E'. eexists fired, calls, _, tm'. split_and!; try done.
  - auto.
  - intros i Hi. apply Hkeep in Hi as [? ?]. auto.
  - destruct ok; done.
Qed.

Lemma poll_calls_incl now tm calls r tm' :
  wf tm -> poll exec now tm = (calls, r, tm') ->
  NoDup (id <$> calls) /\ (forall t, t ∈ calls -> dead (id t) tm') /\
  (forall i, dead i tm -> (i ∉ id <$> calls) /\ dead i tm') /\ wf tm'.
Proof.
  intros Hwf E. destruct (poll_spec now tm Hwf)
    as (fired & c & r' & tm1 & E' & Hwf' & _ & _ & Hnd & Hdead & Hkeep & Hr).
  rewrite E in E'. simplify_eq.
  assert (exists post, fired = c ++ post) as [post ->].
  { destruct r' as [d| |]; [|destruct Hr as (pre & t & post & -> & ->)|done].
    - destruct Hr as [-> _]. exists []. by rewrite app_nil_r.
    - exists post. by rewrite <-app_assoc. }
  rewrite fmap_app in *. apply NoDup_app in Hnd as (Hnd & _ & _).
  split_and!; [done| | |done].
  - intros t Ht. apply Hdead, elem_of_app. by left.
  - intros i [Hi ?]%Hkeep. rewrite not_elem_of_app in Hi. tauto.
Qed.

(** A sequence of calls from the owner of the timer, and the entries called. *)
Inductive call := Call (o : op CB) | CallPoll (now : Z).

Fixpoint history (cs : list call) tm : list (TimerItem CB) * Timer CB :=
  match cs with
  | [] => ([], tm)
  | Call o :: cs' => history cs' (run_op o tm)
  | CallPoll now :: cs' =>
      let '(calls, _, tm1) := poll exec now tm in
      let '(more, tm') := history cs' tm1 in
      (calls ++ more, tm')
  end.

Lemma history_spec cs tm :
  wf tm ->
  wf (snd (history cs tm)) /\
  NoDup (id <$> fst (history cs tm)) /\
  (forall i, dead i tm -> i ∉ id <$> fst (history cs tm)).
Proof.
  revert tm. induction cs as [|[o|now] cs IH]; intros tm Hwf; simpl.
  - split_and!; [done|constructor|]. intros i _. apply not_elem_of_nil.
  - destruct (IH (run_op o tm)) as (H1 & H2 & H3); [by apply run_op_wf|].
    split_and!; [done..|]. intros i Hi. apply H3. by apply dead_op.
  - destruct (poll exec now tm) as [[calls r] tm1] eqn:E.
    destruct (poll_calls_incl _ _ _ _ _ Hwf E) as (Hnd & Hdead & Hkeep & Hwf1).
    destruct (IH tm1 Hwf1) as (H1 & H2 & H3).
    destruct (history cs tm1) as [more tm'] eqn:E'. simpl in *. rewrite fmap_app.
    split_and!; [done| |].
    + apply NoDup_app. split_and!; [done| |done].
      intros i (t & -> & Ht)%list_elem_of_fmap. auto.
    + intros i Hi. rewrite not_elem_of_app. split; [by apply Hkeep|].
      apply H3. by apply Hkeep.
Qed.

(** C18: Whatever the sequence of calls, and whatever the callbacks do with the
    timer, the vector stays a heap of entries with distinct issued identifiers,
    and no identifier is ever called twice. *)
Theorem timer_fires_once cs :
  wf (snd (history cs Timer0)) /\ NoDup (id <$> fst (history cs Timer0)).
Proof. destruct (history_spec cs Timer0 Timer0_wf) as (? & ? & _). done. Qed.

(** Once [cancel] has returned true for an identifier, no later call ever runs
    the entry that has it. *)
Theorem timer_cancel_final cs i tm tm' :
  wf tm -> cancel i tm = (true, tm') -> i ∉ id <$> fst (history cs tm').
Proof.
  intros Hwf E. rewrite cancel_spec in E by done.
  pose proof (cancel_wf i tm Hwf) as Hwf'. rewrite cancel_spec in Hwf' by done.
  apply pair_equal_spec in E as [Eb <-]. apply history_spec; [done|]. split; simpl.
  - apply bool_decide_eq_true_1 in Eb. by apply (ids_issued _ _ Hwf).
  - intros t (t' & -> & _)%list_elem_of_fmap. rewrite (proj1 (mark_fields i t')).
    intros <-. unfold mark. by rewrite Z.eqb_refl.
Qed.

(** C17: [poll] takes exactly the live entries that are due, calls them in order of
    expiry, and returns the delay of the front; when a callback throws something
    that is not a [std::exception], the entries after it are lost: every entry
    taken is gone from the timer. *)
Theorem timer_poll_due now tm :
  wf tm ->
  exists fired calls r tm',
    poll exec now tm = (calls, r, tm') /\
    StronglySorted by_expiry fired /\
    fired ≡ₚ filter (due now) (items_ tm) /\
    (forall t u, t ∈ fired -> u ∈ items_ tm' -> id u = id t -> cancelled u = true) /\
    match r with
    | Ret d => calls = fired /\ d = delay now tm'
    | Throw => exists pre t post, fired = pre ++ t :: post /\ calls = pre ++ [t]
    | Undef => False
    end.
Proof.
  intros Hwf. destruct (poll_spec now tm Hwf)
    as (fired & calls & r & tm' & E & _ & Hs & Hf & _ & Hd & _ & Hr).
  exists fired, calls, r, tm'. split_and!; try done.
  intros t u Ht Hu Hid. by eapply (Hd t Ht).
Qed.
End poll.

(** ** Callbacks that leave the timer alone *)

Section quiet.
Context `{StdHeap} {CB : Type} (exec : CB -> Timer CB -> cb_end * Timer CB).
Implicit Types (tm : Timer CB) (t : TimerItem CB).

Hypothesis exec_quiet : forall cb tm, exec cb tm = (CbReturn, tm) \/ exec cb tm = (CbStdException, tm).

Lemma exec_quiet_ops cb tm : exists os, snd (exec cb tm) = run_ops os tm.
Proof. exists []. by destruct (exec_quiet cb tm) as [-> | ->]. Qed.

(** The entries [rearm] pushes for the fired ones: identifiers go on from [n]. *)
Fixpoint rearmed (now n : Z) (fired : list (TimerItem CB)) : list (TimerItem CB) :=
  match fired with
  | [] => []
  | t :: fired' =>
      if 0 <? interval_ms t
      then {| id := n + 1; expire_at := i64 (now + interval_ms t);
              interval_ms := interval_ms t; callback := callback t; cancelled := false |}
           :: rearmed now (n + 1) fired'
      else rearmed now n fired'
  end.

Lemma rearm_spec now t tm :
  is_heap tl_expire (items_ tm) ->
  is_heap tl_expire (items_ (rearm now t tm)) /\
  items_ (rearm now t tm) ≡ₚ rearmed now (next_id_ tm) [t] ++ items_ tm /\
  next_id_ (rearm now t tm) = if 0 <? interval_ms t then next_id_ tm + 1 else next_id_ tm.
Proof.
  intros Hh. unfold rearm. simpl. destruct (0 <? interval_ms t); [|done].
  destruct (push_item_spec (i64 (now + interval_ms t)) (interval_ms t) (callback t) tm Hh)
    as (Hn & Hh' & Hp). done.
Qed.

Lemma run_fired_quiet now fired tm :
  is_heap tl_expire (items_ tm) ->
  Forall (fun t => cancelled t = false /\ is_Some (callback t)) fired ->
  exists tm',
    run_fired exec now fired tm = (fired, true, tm') /\
    is_heap tl_expire (items_ tm') /\
    items_ tm' ≡ₚ rearmed now (next_id_ tm) fired ++ items_ tm.
Proof.
  revert tm. induction fired as [|t fired IH]; intros tm Hh Hf; [by exists tm|].
  apply Forall_cons in Hf as [[Hc [cb Hcb]] Hf].
  destruct (rearm_spec now t tm Hh) as (Hh1 & Hp1 & Hn1).
  destruct (IH (rearm now t tm) Hh1 Hf) as (tm' & E & Hh' & Hp).
  exists tm'. cbn [run_fired]. rewrite Hc, Hcb.
  destruct (exec_quiet cb tm) as [-> | ->]; rewrite E; (split_and!; [done|done|]);
    rewrite Hp, Hp1, Hn1; cbn [rearmed]; destruct (0 <? interval_ms t); cbn [app];
    try done; by rewrite Permutation_middle.
Qed.

Lemma rearmed_live now n fired : Forall (fun t => cancelled t = false) (rearmed now n fired).
Proof. revert n. induction fired as [|t fired IH]; intros n; simpl; [done|]. case_match; auto. Qed.

Definition live t : Prop := cancelled t = false.
#[global] Instance live_dec t : Decision (live t).
Proof. unfold live. apply _. Defined.

(** The front of a heap made of a queue left by [collect] and live entries has the
    expiry of a live entry. *)
Lemma front_live now (front : TimerItem CB) rest l new :
  is_heap tl_expire (front :: l) -> front :: l ≡ₚ new ++ rest ->
  is_heap tl_expire rest -> front_pending now rest -> Forall live new ->
  exists t, t ∈ front :: l /\ live t /\ expire_at t = expire_at front.
Proof.
  intros Hh Hp Hr Hfr Hnew. assert (front ∈ new ++ rest) as Hin by (rewrite <-Hp; left).
  apply elem_of_app in Hin as [Hin|Hin].
  - exists front. split_and!; [left| |done]. rewrite Forall_forall in Hnew. auto.
  - destruct rest as [|u rest]; [by apply not_elem_of_nil in Hin|]. exists u.
    assert (u ∈ front :: l) as Hu by (rewrite Hp, elem_of_app; right; left).
    split_and!; [done|apply Hfr|].
    pose proof (heap_front_le _ _ _ _ Hh Hu). pose proof (heap_front_le _ _ _ _ Hr Hin).
    simpl in *. lia.
Qed.

Lemma poll_quiet now tm :
  wf tm ->
  exists fired rest tm',
    poll exec now tm = (fired, Ret (delay now tm'), tm') /\
    collect now (items_ tm) = (rest, fired) /\
    is_heap tl_expire (items_ tm') /\
    items_ tm' ≡ₚ rearmed now (next_id_ tm) fired ++ rest.
Proof.
  intros Hwf. destruct (collect_timer now tm Hwf)
    as (rest & fired & E & Hwf0 & _ & _ & _ & Hok & _).
  destruct (run_fired_quiet now fired _ (wf_heap _ Hwf0) Hok) as (tm' & E' & Hh & Hp).
  exists fired, rest, tm'. unfold poll. rewrite E, E'. done.
Qed.

(** After [poll] the live entries are the live ones not yet due and one new
    entry per repeating entry called, at [now + interval]; the result is the delay
    of the earliest live entry, and -1 exactly when no entry is left. *)
Theorem timer_poll_reschedules now tm :
  wf tm ->
  exists fired d tm',
    poll exec now tm = (fired, Ret d, tm') /\
    fired ≡ₚ filter (due now) (items_ tm) /\
    filter live (items_ tm') ≡ₚ
      rearmed now (next_id_ tm) fired ++ filter (pending now) (items_ tm) /\
    (items_ tm' = [] /\ d = -1 \/
     exists t, t ∈ items_ tm' /\ live t /\ d = i64 (expire_at t - now) /\
       forall u, u ∈ items_ tm' -> expire_at t <= expire_at u).
Proof.
  intros Hwf. destruct (poll_quiet now tm Hwf) as (fired & rest & tm' & E & Ec & Hh & Hp).
  destruct (collect_spec now _ (wf_heap _ Hwf))
    as (r & f & E' & Hr & Hfr & _ & Hf & _). rewrite Ec in E'. simplify_eq.
  destruct (collect_rest _ _ _ _ (wf_heap _ Hwf) Ec) as [Hpend Hrest].
  exists f, (delay now tm'), tm'. split_and!; [done|done| |].
  - rewrite Hp, filter_app, (filter_all _ (rearmed _ _ _)) by apply rearmed_live.
    rewrite <-Hpend. apply reflexive_eq. f_equal. apply filter_ext.
    intros u Hu. rewrite Forall_forall in Hrest. specialize (Hrest u Hu).
    unfold live, pending. simpl in *. split; [|tauto]. intros Hl. split; [done|].
    destruct Hrest; congruence.
  - unfold delay. destruct (items_ tm') as [|front l] eqn:El; [by left|right].
    destruct (front_live now front r l _ Hh Hp Hr Hfr (rearmed_live _ _ _))
      as (t & Ht & Hl & Ht'). exists t. rewrite Ht'. split_and!; try done.
    intros u Hu. apply (heap_front_le _ _ _ _ Hh Hu).
Qed.
Lemma rearmed_has now n fired t :
  t ∈ fired -> 0 < interval_ms t ->
  exists u, u ∈ rearmed now n fired /\ callback u = callback t /\ cancelled u = false.
Proof.
  revert n. induction fired as [|v fired IH]; intros n Ht Hi;
    [by apply not_elem_of_nil in Ht|].
  simpl. apply elem_of_cons in Ht as [->|Ht].
  - rewrite (proj2 (Z.ltb_lt _ _) Hi). eexists. split; [left|done].
  - case_match; [|auto]. destruct (IH (n + 1) Ht Hi) as (u & ? & ?).
    exists u. split; [by right|done].
Qed.

Lemma rearmed_ids now n fired : Forall (fun u => n < id u) (rearmed now n fired).
Proof.
  revert n. induction fired as [|v fired IH]; intros n; simpl; [done|].
  case_match; [|done]. constructor; simpl; [lia|].
  eapply Forall_impl; [apply (IH (n + 1))|]. simpl. lia.
Qed.

(** A repeating timer outlives its identifier: after its first expiry [cancel]
    of the identifier that [add_repeating] returned reports false and changes
    nothing, while a live entry with the same callback is still in the timer. *)
Theorem timer_repeating_cancel_fails now t tm :
  wf tm -> t ∈ items_ tm -> due now t -> 0 < interval_ms t ->
  exists calls d tm' u,
    poll exec now tm = (calls, Ret d, tm') /\ t ∈ calls /\
    cancel (id t) tm' = (false, tm') /\
    u ∈ items_ tm' /\ live u /\ callback u = callback t /\ id u <> id t.
Proof.
  intros Hwf Ht Hdue Hrep. destruct (poll_quiet now tm Hwf)
    as (fired & rest & tm' & E & Ec & Hh & Hp).
  destruct (collect_spec now _ (wf_heap _ Hwf))
    as (r & f & Ec' & _ & _ & _ & Hf & d & Hd & _).
  rewrite Ec in Ec'; injection Ec' as <- <-.
  assert (t ∈ fired) as Htf by (rewrite Hf, list_elem_of_filter; done).
  pose proof (proj1 (Forall_forall _ _) (wf_items _ Hwf) t Ht) as [Hid _].
  destruct (rearmed_has now (next_id_ tm) fired t Htf Hrep) as (u & Hu & Hcb & Hl).
  pose proof (proj1 (Forall_forall _ _) (rearmed_ids now (next_id_ tm) fired)) as Hnew.
  destruct (poll_spec exec exec_quiet_ops now tm Hwf)
    as (? & ? & ? & tm1 & E1 & Hwf1 & _). rewrite E in E1. injection E1 as <- <- <-.
  assert (id t ∉ id <$> items_ tm') as Hnot.
  { intros (v & Hv & Hin)%list_elem_of_fmap. rewrite Hp in Hin.
    apply elem_of_app in Hin as [Hin|Hin]; [apply Hnew in Hin; lia|].
    pose proof (wf_ids _ Hwf) as Hnd. rewrite Hd, !fmap_app in Hnd.
    apply NoDup_app in Hnd as (_ & Hdis & _). apply (Hdis (id t)).
    - by apply list_elem_of_fmap_2.
    - apply elem_of_app. right. rewrite Hv. by apply list_elem_of_fmap_2. }
  eexists fired, _, tm', u. split_and!; try done.
  - rewrite cancel_spec, bool_decide_false, mark_other by done. by destruct tm'.
  - rewrite Hp. apply elem_of_app. by left.
  - specialize (Hnew u Hu). simpl in Hnew. lia.
Qed.
End quiet.

(** ** [nearest_expire] *)

Section nearest.
Context `{StdHeap} {CB : Type}.

Lemma first_live_spec (l : list (TimerItem CB)) :
  (forall t, t ∈ l -> ~ live t) /\ first_live l = -1 \/
  exists t, t ∈ l /\ live t /\ first_live l = expire_at t.
Proof.
  induction l as [|t l IH]; simpl; [left; split; [intros t Ht; by apply not_elem_of_nil in Ht|done]|].
  destruct (cancelled t) eqn:Hc.
  - destruct IH as [[Hn ->]|(u & Hu & Hl & ->)].
    + left. split; [|done]. intros u [->|Hu]%elem_of_cons; [unfold live; congruence|auto].
    + right. exists u. split_and!; [by right|done..].
  - right. exists t. split_and!; [left|done|done].
Qed.
End nearest.

(** Three one-shot timers, the first of which to expire is cancelled. *)
Definition skewed : Timer unit :=
  run_ops [OpAdd 0 30 (Some tt); OpAdd 0 20 (Some tt); OpAdd 0 10 (Some tt); OpCancel 3] Timer0.

(** [nearest_expire] returns the expiry of some live entry, or -1 when there is
    none; it is the earliest one when the front of the heap is live, and need not be
    once the front was cancelled: the scan follows the array, not the order. *)
Theorem timer_nearest_expire {CB : Type} (tm : Timer CB) :
  wf tm ->
  ((forall t, t ∈ items_ tm -> ~ live t) /\ nearest_expire tm = -1 \/
   exists t, t ∈ items_ tm /\ live t /\ nearest_expire tm = expire_at t) /\
  (forall front l, items_ tm = front :: l -> live front ->
     forall u, u ∈ items_ tm -> nearest_expire tm <= expire_at u) /\
  (nearest_expire skewed = 30 /\
   exists u, u ∈ items_ skewed /\ live u /\ expire_at u = 20).
Proof.
  intros Hwf. split; [apply first_live_spec|split].
  - intros front l E Hl u Hu. pose proof (wf_heap _ Hwf) as Hh. unfold nearest_expire.
    rewrite E in *. simpl. unfold live in Hl. rewrite Hl.
    apply (heap_front_le _ _ _ _ Hh Hu).
  - split; [by vm_compute|].
    exists {| id := 2; expire_at := 20; interval_ms := 0; callback := Some tt; cancelled := false |}.
    split_and!; [|done..]. vm_compute. apply elem_of_list_here || (right; right; left).
Qed.

(** ** Instances of the theorems *)

(** A callback that does nothing, on a timer with a one-shot entry due at 10 and a
    repeating one due at 5. *)
Definition idle (cb : unit) (tm : Timer unit) : cb_end * Timer unit := (CbReturn, tm).

Lemma idle_ops cb tm : exists os, snd (idle cb tm) = run_ops os tm.
Proof. by exists []. Qed.

Definition sample_ops : list (op unit) := [OpAdd 0 10 (Some tt); OpAddRepeating 0 5 (Some tt)].
Definition sample : Timer unit := run_ops sample_ops Timer0.
Definition ticking : TimerItem unit :=
  {| id := 2; expire_at := 5; interval_ms := 5; callback := Some tt; cancelled := false |}.

Lemma sample_timer_wf : wf sample.
Proof. apply run_ops_wf, Timer0_wf. Qed.

Lemma sample_ticking : ticking ∈ items_ sample /\ due 20 ticking.
Proof. split; [vm_compute; left|done]. Qed.

(** The two entries are called in order of expiry and the repeating one goes on. *)
Example sample_poll :
  (let '(calls, r, tm) := poll idle 20 sample in
   (id <$> calls, r, id <$> items_ tm, nearest_expire tm)) = ([2; 1], Ret 5, [3], 25).
Proof. reflexivity. Qed.

Lemma timer_fires_once_witness :
  wf (snd (history idle (Call <$> sample_ops) Timer0)) /\
  NoDup (id <$> fst (history idle ((Call <$> sample_ops) ++ [CallPoll 20; CallPoll 40]) Timer0)).
Proof.
  split.
  - exact (proj1 (timer_fires_once idle idle_ops (Call <$> sample_ops))).
  - exact (proj2 (timer_fires_once idle idle_ops ((Call <$> sample_ops) ++ [CallPoll 20; CallPoll 40]))).
Defined.

Lemma timer_cancel_final_witness :
  exists tm', cancel 2 sample = (true, tm') /\ 2 ∉ id <$> fst (history idle [CallPoll 20] tm').
Proof.
  eexists. split; [reflexivity|].
  exact (timer_cancel_final idle idle_ops [CallPoll 20] 2 sample _ sample_timer_wf eq_refl).
Defined.

Lemma timer_poll_due_witness :
  exists fired calls r tm', poll idle 20 sample = (calls, r, tm') /\
    fired ≡ₚ filter (due 20) (items_ sample) /\ length fired = 2%nat.
Proof.
  destruct (timer_poll_due idle idle_ops 20 sample sample_timer_wf)
    as (fired & calls & r & tm' & E & _ & Hf & _).
  exists fired, calls, r, tm'. split_and!; [exact E|exact Hf|].
  rewrite Hf. reflexivity.
Defined.

Lemma timer_poll_reschedules_witness :
  exists fired d tm', poll idle 20 sample = (fired, Ret d, tm') /\
    filter live (items_ tm') ≡ₚ rearmed 20 2 fired.
Proof.
  destruct (timer_poll_reschedules idle (fun _ _ => or_introl eq_refl) 20 sample sample_timer_wf)
    as (fired & d & tm' & E & _ & Hl & _).
  exists fired, d, tm'. split; [exact E|]. rewrite Hl.
  change (filter (pending 20) (items_ sample)) with (@nil (TimerItem unit)).
  by rewrite app_nil_r.
Defined.

Lemma timer_repeating_cancel_fails_witness :
  exists calls d tm', poll idle 20 sample = (calls, Ret d, tm') /\ cancel 2 tm' = (false, tm').
Proof.
  destruct (timer_repeating_cancel_fails idle (fun _ _ => or_introl eq_refl) 20 ticking sample
              sample_timer_wf (proj1 sample_ticking) (proj2 sample_ticking) ltac:(reflexivity))
    as (calls & d & tm' & u & E & _ & Hc & _).
  exists calls, d, tm'. split; [exact E|exact Hc].
Defined.

Lemma timer_nearest_expire_witness : nearest_expire sample <= 10.
Proof.
  apply (proj1 (proj2 (timer_nearest_expire sample sample_timer_wf))
           ticking (tail (items_ sample)) eq_refl eq_refl
           {| id := 1; expire_at := 10; interval_ms := 0; callback := Some tt; cancelled := false |}).
  vm_compute. right. left.
Defined.
