(* ===== verification/TimerLoop.v ===== *)
(** * TimerLoop (base/timer/timer.cpp, the second half)

    The timer with a thread of its own: [add] leaves entries in [pending_add], the
    thread merges them into the heap, sleeps, and runs what is due.  Every function
    is one step of the model; the steps of the thread are those between which
    another thread can take the locks. *)

From S2P Require Import Prelude StdHeap TimerQueue Timer.

Open Scope Z_scope.

Section TimerLoop.
Context `{StdHeap} {CB : Type}.

Record Impl := {
  running : bool;
  items : list (TimerItem CB);
  next_id : Z;
  pending_add : list (TimerItem CB);
}.

Definition Impl0 : Impl := {| running := false; items := []; next_id := 0; pending_add := [] |}.

Definition set_items (l : list (TimerItem CB)) (s : Impl) : Impl :=
  {| running := running s; items := l; next_id := next_id s; pending_add := pending_add s |}.

(** No check of the callback or of the delay here. *)
Definition add_impl (tick after_ms : Z) (cb : option CB) (interval : Z) (s : Impl) : Z * Impl :=
  let nid := next_id s + 1 in
  let item := {| id := nid; expire_at := i64 (i64 tick + after_ms); interval_ms := interval;
                 callback := cb; cancelled := false |} in
  (nid, {| running := running s; items := items s; next_id := nid;
           pending_add := pending_add s ++ [item] |}).

Definition add (tick after_ms : Z) (cb : option CB) (s : Impl) : Z * Impl :=
  add_impl tick after_ms cb 0 s.
Definition add_repeating (tick interval : Z) (cb : option CB) (s : Impl) : Z * Impl :=
  add_impl tick interval cb interval s.

(** Only the merged entries are searched. *)
Definition cancel_impl (timer_id : Z) (s : Impl) : bool * Impl :=
  let '(b, l) := cancel_items timer_id (items s) in (b, set_items l s).

(** Whether a thread is created, or joined. *)
Definition start (s : Impl) : bool * Impl :=
  if running s then (false, s)
  else (true, {| running := true; items := items s; next_id := next_id s;
                 pending_add := pending_add s |}).
Definition stop (s : Impl) : bool * Impl :=
  if running s
  then (true, {| running := false; items := items s; next_id := next_id s;
                 pending_add := pending_add s |})
  else (false, s).

(** ** One turn of [thread_loop] *)

(** All pending entries are appended, and [push_heap] is called once. *)
Definition merge_pending (s : Impl) : Impl :=
  match pending_add s with
  | [] => s
  | _ =>
      {| running := running s;
         items := push_heap tl_expire (items s ++ pending_add s);
         next_id := next_id s; pending_add := [] |}
  end.

(** The last conversion is to [int]. *)
Definition sleep_time (now : Z) (s : Impl) : Z :=
  let sleep := match items s with
               | [] => 100
               | t :: _ => Z.max 1 (i64 (expire_at t - now))
               end in
  i32 (Z.max (Z.min sleep 500) 1).

Definition take_due (now2 : Z) (s : Impl) : list (TimerItem CB) * Impl :=
  let '(rest, fired) := collect now2 (items s) in (fired, set_items rest s).

Variable exec : CB -> Impl -> cb_end * Impl.

Definition rearm_impl (now3 : Z) (t : TimerItem CB) (s : Impl) : Impl :=
  if 0 <? interval_ms t then
    let nid := next_id s + 1 in
    {| running := running s;
       items := enqueue {| id := nid; expire_at := i64 (now3 + interval_ms t);
                           interval_ms := interval_ms t; callback := callback t;
                           cancelled := false |} (items s);
       next_id := nid; pending_add := pending_add s |}
  else s.

(** [clock k] is the [k]-th reading of the tick; [Throw] is an exception that leaves
    the thread function, which ends the process. *)
Fixpoint run_due (clock : nat -> Z) (fired : list (TimerItem CB)) (s : Impl) : outcome Impl :=
  match fired with
  | [] => Ret s
  | t :: fired' =>
      let next s := run_due (fun k => clock (S k)) fired' (rearm_impl (clock O) t s) in
      if cancelled t then run_due clock fired' s
      else
        match callback t with
        | None => next s
        | Some cb =>
            match exec cb s with
            | (CbOther, _) => Throw
            | (_, s') => next s'
            end
        end
  end.

(** A turn during which no other thread runs: the sleep chosen, the entries taken,
    and the state after the callbacks. *)
Definition turn (now now2 : Z) (clock : nat -> Z) (s : Impl)
    : Z * list (TimerItem CB) * outcome Impl :=
  let s1 := merge_pending s in
  let '(fired, s2) := take_due now2 s1 in
  (sleep_time now s1, fired, run_due clock fired s2).

(** ** Properties *)

Lemma sleep_time_bounds now s : 1 <= sleep_time now s <= 500.
Proof. unfold sleep_time. rewrite i32_small; lia. Qed.

(** With one pending entry at most, the merge meets the contract of [push_heap]. *)
Lemma merge_pending_heap s :
  is_heap tl_expire (items s) -> (length (pending_add s) <= 1)%nat ->
  is_heap tl_expire (items (merge_pending s)) /\
  items (merge_pending s) ≡ₚ pending_add s ++ items s /\
  pending_add (merge_pending s) = [] /\ next_id (merge_pending s) = next_id s.
Proof.
  intros Hh Hl. unfold merge_pending. destruct (pending_add s) as [|t [|u l]] eqn:E;
    [done| |simpl in Hl; lia].
  destruct (enqueue_spec t (items s) Hh) as [? ?]. done.
Qed.

Lemma rearm_impl_heap now3 t s :
  is_heap tl_expire (items s) -> is_heap tl_expire (items (rearm_impl now3 t s)).
Proof.
  intros Hh. unfold rearm_impl. case_match; [|done]. by apply enqueue_spec.
Qed.

Lemma run_due_spec clock fired s :
  (forall cb s', is_heap tl_expire (items s') -> is_heap tl_expire (items (snd (exec cb s')))) ->
  is_heap tl_expire (items s) ->
  match run_due clock fired s with
  | Ret s' => is_heap tl_expire (items s')
  | Throw => exists t cb s', t ∈ fired /\ callback t = Some cb /\ fst (exec cb s') = CbOther
  | Undef => False
  end.
Proof.
  intros Hexec. revert clock s. induction fired as [|t fired IH]; intros clock s Hh; simpl; [done|].
  assert (forall clock' s3, is_heap tl_expire (items s3) ->
    match run_due clock' fired s3 with
    | Ret s' => is_heap tl_expire (items s')
    | Throw => exists u cb s', u ∈ t :: fired /\ callback u = Some cb /\
                 fst (exec cb s') = CbOther
    | Undef => False
    end) as IH'.
  { intros clock' s3 Hh3. specialize (IH clock' s3 Hh3).
    destruct (run_due clock' fired s3); [done| |done].
    destruct IH as (u & cb & s' & Hu & ?). exists u, cb, s'. split; [by right|done]. }
  destruct (cancelled t); [exact (IH' _ _ Hh)|]. destruct (callback t) as [cb|] eqn:Hcb.
  - pose proof (Hexec cb s Hh) as Hh3.
    destruct (exec cb s) as [[] s3] eqn:He; simpl in Hh3.
    + exact (IH' _ _ (rearm_impl_heap _ _ _ Hh3)).
    + exact (IH' _ _ (rearm_impl_heap _ _ _ Hh3)).
    + exists t, cb, s. rewrite He. split_and!; [left|done|done].
  - exact (IH' _ _ (rearm_impl_heap _ _ _ Hh)).
Qed.

(** One turn of the thread, entered with a heap and at most one entry added
    since the last one: it sleeps 1 to 500 ms, takes exactly the live entries due
    when it wakes (the one just added included) in order of expiry, and leaves the
    heap a heap when the callbacks do. *)
Theorem timer_loop_turn now now2 clock s :
  (forall cb s', is_heap tl_expire (items s') -> is_heap tl_expire (items (snd (exec cb s')))) ->
  is_heap tl_expire (items s) -> (length (pending_add s) <= 1)%nat ->
  exists sleep fired r,
    turn now now2 clock s = (sleep, fired, r) /\
    1 <= sleep <= 500 /\
    StronglySorted by_expiry fired /\
    fired ≡ₚ filter (due now2) (pending_add s ++ items s) /\
    match r with
    | Ret s' => is_heap tl_expire (items s')
    | Throw => exists t cb s', t ∈ fired /\ callback t = Some cb /\ fst (exec cb s') = CbOther
    | Undef => False
    end.
Proof.
  intros Hexec Hh Hl. unfold turn, take_due.
  destruct (merge_pending_heap s Hh Hl) as (Hh1 & Hp1 & _ & _).
  destruct (collect_spec now2 _ Hh1) as (rest & fired & E & Hr & _ & Hs & Hf & _).
  rewrite E. eexists _, fired, _. split; [done|].
  split_and!; [apply sleep_time_bounds..|done|by rewrite Hf, Hp1|].
  by apply run_due_spec.
Qed.
End TimerLoop.

Arguments Impl CB : clear implicits.

(** Two timers added between two turns, the earlier one first. *)
Definition two_added : Impl unit :=
  snd (add 0 30 (Some tt) (snd (add 0 10 (Some tt) (snd (add 0 20 (Some tt)
    (merge_pending (snd (add 0 100 (Some tt) Impl0)))))))).

(** What the merge breaks: with several entries added between two turns
    [push_heap] is called once for all of them; the vector is then no heap, and a
    timer due is passed over (here those of 10 and 20 at time 25).  An entry still
    pending cannot be cancelled: [cancel] reports false and leaves it. *)
Theorem timer_loop_pending :
  (~ is_heap tl_expire (items (merge_pending two_added))) /\
  (fst (take_due 25 (merge_pending two_added)) = [] /\
   expire_at <$> filter (due 25) (items (merge_pending two_added)) = [20; 10]) /\
  (forall (CB : Type) tick after (cb : option CB) interval s,
     let '(i, s') := add_impl tick after cb interval s in
     (forall t, t ∈ items s -> id t <> i) ->
     cancel_impl i s' = (false, s') /\ exists t, t ∈ pending_add s' /\ id t = i /\ live t).
Proof.
  split; [|split].
  - intros Hh. specialize (Hh 1%nat _ _ ltac:(lia) eq_refl eq_refl). by vm_compute in Hh.
  - split; reflexivity.
  - intros CB tick after cb interval s. simpl. intros Hn. split.
    + unfold cancel_impl. simpl. enough (cancel_items (next_id s + 1) (items s) = (false, items s))
        as -> by done.
      induction (items s) as [|t l IH]; [done|]. simpl.
      rewrite (proj2 (Z.eqb_neq _ _)) by (apply Hn; left). rewrite IH; [done|].
      intros; apply Hn; by right.
    + eexists. split; [apply elem_of_app; right; left|done].
Qed.

Lemma timer_loop_turn_witness :
  exists fired r, turn (fun cb s => (CbReturn, s)) 0 120 (fun _ => 120)
    (snd (add 0 100 (Some tt) Impl0)) = (100, fired, r) /\ id <$> fired = [1].
Proof.
  destruct (timer_loop_turn (fun cb s => (CbReturn, s)) 0 120 (fun _ => 120)
     (snd (add 0 100 (Some tt) Impl0)) (fun _ _ Hh => Hh) (is_heap_nil _) ltac:(simpl; lia))
    as (sleep & fired & r & E & _).
  exists fired, r. injection E as <- <- <-. split; reflexivity.
Defined.
