(* ===== verification/EventLoop.v ===== *)
(** * EventLoop (base/event/event_loop.h, base/event/event_loop.cpp, Linux)

    The epoll loop: descriptors and their handlers, timers, tasks queued by other
    threads.  The kernel is a parameter; what the callbacks do to the loop is a
    parameter as well, since a callback may call any operation of the loop. *)

From S2P Require Import Prelude StdHeap TimerQueue Timer.

Open Scope Z_scope.

(** ** Event types *)

Inductive EventType := READ | WRITE | ERROR | CLOSED | TIMER | SIGNAL.

Definition flag (e : EventType) : Z :=
  match e with
  | READ => Z.shiftl 1 0 | WRITE => Z.shiftl 1 1 | ERROR => Z.shiftl 1 2
  | CLOSED => Z.shiftl 1 3 | TIMER => Z.shiftl 1 4 | SIGNAL => Z.shiftl 1 5
  end.

(** [flags] is an [EventType] value made with [operator|]. *)
Definition has_flag (flags : Z) (f : EventType) : bool := negb (Z.land flags (flag f) =? 0).

(** The hooks [EventHandler::on_event] calls, in this order. *)
Definition on_event (type : Z) : list EventType :=
  filter (fun e => has_flag type e = true) [READ; WRITE; ERROR; CLOSED; TIMER; SIGNAL].

(** Constants of the Linux headers. *)
Definition EPOLLIN : Z := 0x001.
Definition EPOLLOUT : Z := 0x004.
Definition EPOLLERR : Z := 0x008.
Definition EPOLLHUP : Z := 0x010.
Inductive epoll_op := EPOLL_CTL_ADD | EPOLL_CTL_DEL | EPOLL_CTL_MOD.

(** [data] is the 64-bit union. *)
Record epoll_event := { events : Z; data : Z }.

(** [data.fd]: the low half of the union on a little-endian host. *)
Definition data_fd (ev : epoll_event) : Z := i32 (data ev).
(** [data.ptr]; the null pointer is 0. *)
Definition data_ptr (ev : epoll_event) : Z := data ev.

Record TimerEntry {CB : Type} := {
  te_id : Z;
  te_expire_at : Z;
  te_interval : Z;
  te_callback : option CB;
  te_cancelled : bool;
}.
Arguments TimerEntry CB : clear implicits.

#[global] Instance TimerEntry_like {CB : Type} : TimerLike (TimerEntry CB) :=
  {| tl_expire := te_expire_at; tl_cancelled := te_cancelled |}.

Section EventLoop.
Context `{StdHeap} {CB K : Type}.

(** Results of the system calls on a kernel state [K]; [epoll_wait] returns an
    [errno] or the events written to the buffer of [maxevents] entries. *)
Variable epoll_ctl : epoll_op -> Z -> epoll_event -> K -> bool * K.
Variable epoll_wait : Z -> Z -> K -> (Z + list epoll_event) * K.

Record EventLoop := {
  running_ : bool;
  external_ : bool;
  epoll_fd_ : Z;
  timer_fd_ : Z;
  fd_handlers_ : gmap Z Z;
  events_ : list epoll_event;
  timers_ : list (TimerEntry CB);
  timer_id_counter_ : Z;
  pending_tasks_ : list (option CB);
  kernel : K;
}.

(** [reserve] leaves [events_] empty. *)
Definition EventLoop0 (external : bool) (k : K) : EventLoop :=
  {| running_ := false; external_ := external; epoll_fd_ := -1; timer_fd_ := -1;
     fd_handlers_ := ∅; events_ := []; timers_ := []; timer_id_counter_ := 0;
     pending_tasks_ := []; kernel := k |}.

Definition set_running (b : bool) (s : EventLoop) : EventLoop :=
  {| running_ := b; external_ := external_ s; epoll_fd_ := epoll_fd_ s; timer_fd_ := timer_fd_ s;
     fd_handlers_ := fd_handlers_ s; events_ := events_ s; timers_ := timers_ s;
     timer_id_counter_ := timer_id_counter_ s; pending_tasks_ := pending_tasks_ s;
     kernel := kernel s |}.
Definition set_fds (epfd tfd : Z) (s : EventLoop) : EventLoop :=
  {| running_ := running_ s; external_ := external_ s; epoll_fd_ := epfd; timer_fd_ := tfd;
     fd_handlers_ := fd_handlers_ s; events_ := events_ s; timers_ := timers_ s;
     timer_id_counter_ := timer_id_counter_ s; pending_tasks_ := pending_tasks_ s;
     kernel := kernel s |}.
Definition set_handlers (m : gmap Z Z) (k : K) (s : EventLoop) : EventLoop :=
  {| running_ := running_ s; external_ := external_ s; epoll_fd_ := epoll_fd_ s;
     timer_fd_ := timer_fd_ s; fd_handlers_ := m; events_ := events_ s; timers_ := timers_ s;
     timer_id_counter_ := timer_id_counter_ s; pending_tasks_ := pending_tasks_ s; kernel := k |}.
Definition set_timers (l : list (TimerEntry CB)) (n : Z) (s : EventLoop) : EventLoop :=
  {| running_ := running_ s; external_ := external_ s; epoll_fd_ := epoll_fd_ s;
     timer_fd_ := timer_fd_ s; fd_handlers_ := fd_handlers_ s; events_ := events_ s;
     timers_ := l; timer_id_counter_ := n; pending_tasks_ := pending_tasks_ s;
     kernel := kernel s |}.
Definition set_tasks (l : list (option CB)) (s : EventLoop) : EventLoop :=
  {| running_ := running_ s; external_ := external_ s; epoll_fd_ := epoll_fd_ s;
     timer_fd_ := timer_fd_ s; fd_handlers_ := fd_handlers_ s; events_ := events_ s;
     timers_ := timers_ s; timer_id_counter_ := timer_id_counter_ s; pending_tasks_ := l;
     kernel := kernel s |}.

(** [epfd] and [tfd] are the results of [epoll_create1] and [timerfd_create]. *)
Definition init (epfd tfd : Z) (s : EventLoop) : bool * EventLoop :=
  if epfd <? 0 then (false, set_fds epfd (timer_fd_ s) s)
  else if tfd <? 0 then (true, set_fds epfd (-1) s)
  else (true, set_fds epfd tfd s).

Definition stop (s : EventLoop) : EventLoop := set_running false s.

(** [create_event_loop]: null when [init] fails. *)
Definition create_event_loop (epfd tfd : Z) (k : K) : option EventLoop :=
  let '(ok, s) := init epfd tfd (EventLoop0 false k) in if ok then Some s else None.

(** The destructor, with the descriptors it closes. *)
Definition destroy (s : EventLoop) : list Z * EventLoop :=
  let s := stop s in
  ((if 0 <=? epoll_fd_ s then [epoll_fd_ s] else []) ++ (if 0 <=? timer_fd_ s then [timer_fd_ s] else []),
   set_fds (if 0 <=? epoll_fd_ s then -1 else epoll_fd_ s) (if 0 <=? timer_fd_ s then -1 else timer_fd_ s) s).

(** What [init] has opened the destructor closes, once. *)
Lemma create_destroy epfd tfd k s :
  create_event_loop epfd tfd k = Some s ->
  fst (destroy s) = filter (fun fd => 0 <= fd) [epfd; tfd] /\ fst (destroy (snd (destroy s))) = [].
Proof.
  unfold create_event_loop, init. destruct (Z.ltb_spec epfd 0) as [|He]; [done|].
  destruct (Z.ltb_spec tfd 0) as [Ht|Ht]; intros [= <-]; unfold destroy; cbn;
    rewrite ?(proj2 (Z.leb_le 0 epfd) He), ?(proj2 (Z.leb_le 0 tfd) Ht);
    cbn; repeat case_decide; done || lia.
Qed.

(** ** Descriptors *)

Definition epoll_bits (type : Z) : Z :=
  let e := 0 in
  let e := if has_flag type READ then Z.lor e EPOLLIN else e in
  let e := if has_flag type WRITE then Z.lor e EPOLLOUT else e in
  Z.lor e (Z.lor EPOLLERR EPOLLHUP).

(** [data.fd] is written and then overwritten by [data.ptr]. *)
Definition add_fd (fd type handler : Z) (s : EventLoop) : bool * EventLoop :=
  let ev := {| events := epoll_bits type; data := handler |} in
  let op := match fd_handlers_ s !! fd with Some _ => EPOLL_CTL_MOD | None => EPOLL_CTL_ADD end in
  let '(ok, k) := epoll_ctl op fd ev (kernel s) in
  if ok : bool then (true, set_handlers (<[fd := handler]> (fd_handlers_ s)) k s)
  else (false, set_handlers (fd_handlers_ s) k s).

Definition del_fd (fd : Z) (s : EventLoop) : bool * EventLoop :=
  let '(_, k) := epoll_ctl EPOLL_CTL_DEL fd {| events := 0; data := 0 |} (kernel s) in
  (true, set_handlers (delete fd (fd_handlers_ s)) k s).

Definition mod_fd (fd type : Z) (s : EventLoop) : bool * EventLoop :=
  match fd_handlers_ s !! fd with
  | None => (false, s)
  | Some handler => add_fd fd type handler s
  end.

(** ** Timers *)

Definition push_timer (expire interval : Z) (cb : option CB) (s : EventLoop) : Z * EventLoop :=
  let nid := timer_id_counter_ s + 1 in
  let entry := {| te_id := nid; te_expire_at := expire; te_interval := interval;
                  te_callback := cb; te_cancelled := false |} in
  (nid, set_timers (enqueue entry (timers_ s)) nid s).

Definition add_timer (tick after_ms : Z) (cb : option CB) (interval : Z) (s : EventLoop)
    : Z * EventLoop :=
  match cb with
  | None => (-1, s)
  | Some _ => push_timer (i64 (i64 tick + after_ms)) interval cb s
  end.

Definition set_te_cancelled (t : TimerEntry CB) : TimerEntry CB :=
  {| te_id := te_id t; te_expire_at := te_expire_at t; te_interval := te_interval t;
     te_callback := te_callback t; te_cancelled := true |}.

Fixpoint cancel_entries (i : Z) (l : list (TimerEntry CB)) : bool * list (TimerEntry CB) :=
  match l with
  | [] => (false, [])
  | t :: l' =>
      if te_id t =? i then (true, set_te_cancelled t :: l')
      else let '(b, r) := cancel_entries i l' in (b, t :: r)
  end.

Definition cancel_timer (i : Z) (s : EventLoop) : bool * EventLoop :=
  let '(b, l) := cancel_entries i (timers_ s) in (b, set_timers l (timer_id_counter_ s) s).

(** ** Tasks *)

Definition push_task (task : option CB) (s : EventLoop) : EventLoop :=
  set_tasks (pending_tasks_ s ++ [task]) s.

(** ** One round *)

(** A call of a function object, and of the virtual [on_event] of the handler at an
    address with a descriptor and a type; neither is caught beyond [std::exception]
    for the former. *)
Variable exec : CB -> EventLoop -> cb_end * EventLoop.
Variable handle : Z -> Z -> Z -> EventLoop -> outcome EventLoop.

(** Calling an empty function throws [std::bad_function_call]. *)
Definition call_task (t : option CB) (s : EventLoop) : cb_end * EventLoop :=
  match t with None => (CbStdException, s) | Some cb => exec cb s end.

(** The tasks started, whether the loop ended, the state. *)
Fixpoint run_tasks (tasks : list (option CB)) (s : EventLoop)
    : list (option CB) * bool * EventLoop :=
  match tasks with
  | [] => ([], true, s)
  | t :: tasks' =>
      match call_task t s with
      | (CbOther, s') => ([t], false, s')
      | (_, s') =>
          let '(started, ok, s'') := run_tasks tasks' s' in (t :: started, ok, s'')
      end
  end.

Definition process_tasks (s : EventLoop) : list (option CB) * bool * EventLoop :=
  match pending_tasks_ s with
  | [] => ([], true, s)
  | tasks => run_tasks tasks (set_tasks [] s)
  end.

Definition rearm_timer (now : Z) (t : TimerEntry CB) (s : EventLoop) : EventLoop :=
  if 0 <? te_interval t
  then snd (push_timer (i64 (now + te_interval t)) (te_interval t) (te_callback t) s)
  else s.

Fixpoint run_timers (now : Z) (fired : list (TimerEntry CB)) (s : EventLoop)
    : list (TimerEntry CB) * bool * EventLoop :=
  match fired with
  | [] => ([], true, s)
  | t :: fired' =>
      if te_cancelled t then run_timers now fired' s
      else
        match te_callback t with
        | None => run_timers now fired' (rearm_timer now t s)
        | Some cb =>
            match exec cb s with
            | (CbOther, s') => ([t], false, s')
            | (_, s') =>
                let '(calls, ok, s'') := run_timers now fired' (rearm_timer now t s') in
                (t :: calls, ok, s'')
            end
        end
  end.

Definition process_timers (now : Z) (s : EventLoop) : list (TimerEntry CB) * bool * EventLoop :=
  let '(rest, fired) := collect now (timers_ s) in
  run_timers now fired (set_timers rest (timer_id_counter_ s) s).

(** The type built from the flags of the kernel; it starts from [READ]. *)
Definition event_type (flags : Z) : Z :=
  let bit m := negb (Z.land flags m =? 0) in
  let t := flag READ in
  let t := if bit EPOLLIN then Z.lor t (flag READ) else t in
  let t := if bit EPOLLOUT then Z.lor t (flag WRITE) else t in
  let t := if bit EPOLLERR then Z.lor t (flag ERROR) else t in
  if bit EPOLLHUP then Z.lor t (flag CLOSED) else t.

(** The calls of [on_event] made, as (handler, fd, type), and the state. *)
Fixpoint dispatch (evs : list epoll_event) (s : EventLoop)
    : list (Z * Z * Z) * outcome EventLoop :=
  match evs with
  | [] => ([], Ret s)
  | ev :: evs' =>
      let h := data_ptr ev in
      if h =? 0 then dispatch evs' s
      else
        let call := (h, data_fd ev, event_type (events ev)) in
        match handle h (data_fd ev) (event_type (events ev)) s with
        | Ret s' => let '(calls, r) := dispatch evs' s' in (call :: calls, r)
        | r => ([call], r)
        end
  end.

(** What one round did. *)
Record round := {
  rd_tasks : list (option CB);
  rd_timers : list (TimerEntry CB);
  rd_events : list (Z * Z * Z);
  rd_result : outcome EventLoop;
}.

(** [now] is the tick [process_timers] reads.  [epoll_wait] is given the size of
    [events_]; an error of any kind ends the round. *)
Definition run_once (timeout now : Z) (s : EventLoop) : round :=
  let '(tasks, ok, s1) := process_tasks s in
  if ok : bool then
    let '(timers, ok', s2) := process_timers now s1 in
    if ok' : bool then
      if epoll_fd_ s2 <? 0
      then {| rd_tasks := tasks; rd_timers := timers; rd_events := []; rd_result := Ret s2 |}
      else
        let '(r, k) := epoll_wait (zlen (events_ s2)) timeout (kernel s2) in
        let s3 := set_handlers (fd_handlers_ s2) k s2 in
        match r with
        | inl errno =>
            {| rd_tasks := tasks; rd_timers := timers; rd_events := []; rd_result := Ret s3 |}
        | inr evs =>
            let '(calls, r') := dispatch evs s3 in
            {| rd_tasks := tasks; rd_timers := timers; rd_events := calls; rd_result := r' |}
        end
    else {| rd_tasks := tasks; rd_timers := timers; rd_events := []; rd_result := Throw |}
  else {| rd_tasks := tasks; rd_timers := []; rd_events := []; rd_result := Throw |}.

(** [run] with the ticks of its rounds; it ends when the list does or when a round
    cleared [running_] or threw. *)
Fixpoint run_rounds (ticks : list Z) (s : EventLoop) : list round :=
  match ticks with
  | [] => []
  | now :: ticks' =>
      if running_ s then
        let r := run_once 1000 now s in
        match rd_result r with Ret s' => r :: run_rounds ticks' s' | _ => [r] end
      else []
  end.

Definition run (ticks : list Z) (s : EventLoop) : list round :=
  if running_ s then [] else run_rounds ticks (set_running true s).

Definition poll_fd (s : EventLoop) : Z := epoll_fd_ s.
Definition add_signal (sig handler : Z) (s : EventLoop) : bool * EventLoop := (false, s).
End EventLoop.

Arguments EventLoop CB K : clear implicits.
Arguments round CB K : clear implicits.

(** ** The operations other threads and callbacks have *)

Section operations.
Context `{StdHeap} {CB K : Type}.
Variable epoll_ctl : epoll_op -> Z -> epoll_event -> K -> bool * K.

Inductive lop :=
| LAddFd (fd type handler : Z)
| LDelFd (fd : Z)
| LModFd (fd type : Z)
| LAddTimer (tick after_ms : Z) (cb : option CB) (interval : Z)
| LCancelTimer (i : Z)
| LPushTask (task : option CB)
| LStop.

Definition run_lop (o : lop) (s : EventLoop CB K) : EventLoop CB K :=
  match o with
  | LAddFd fd type h => snd (add_fd epoll_ctl fd type h s)
  | LDelFd fd => snd (del_fd epoll_ctl fd s)
  | LModFd fd type => snd (mod_fd epoll_ctl fd type s)
  | LAddTimer tick after cb interval => snd (add_timer tick after cb interval s)
  | LCancelTimer i => snd (cancel_timer i s)
  | LPushTask t => push_task t s
  | LStop => stop s
  end.

Definition run_lops (os : list lop) (s : EventLoop CB K) : EventLoop CB K :=
  foldl (fun s o => run_lop o s) s os.

(** Only [process_timers] takes entries out; the operations keep the heap. *)
Definition heap_ok (s : EventLoop CB K) : Prop := is_heap tl_expire (timers_ s).

Lemma push_timer_heap expire interval cb (s : EventLoop CB K) :
  heap_ok s -> heap_ok (snd (push_timer expire interval cb s)).
Proof. intros Hh. by apply enqueue_spec. Qed.

Lemma cancel_entries_keys i (l : list (TimerEntry CB)) :
  te_expire_at <$> snd (cancel_entries i l) = te_expire_at <$> l.
Proof.
  induction l as [|t l IH]; simpl; [done|]. destruct (te_id t =? i); [done|].
  destruct (cancel_entries i l) as [b r]. simpl in *. f_equal. exact IH.
Qed.

(** A heap is a property of the keys. *)
Lemma heap_same_keys (l l' : list (TimerEntry CB)) :
  te_expire_at <$> l' = te_expire_at <$> l -> is_heap tl_expire l -> is_heap tl_expire l'.
Proof.
  intros E Hh j x y Hj Hx Hy.
  assert (forall k z, l' !! k = Some z -> exists z', l !! k = Some z' /\ te_expire_at z' = te_expire_at z)
    as Hk.
  { intros k z Hz. apply (f_equal (fun m => m !! k)) in E.
    rewrite !list_lookup_fmap, Hz in E. simpl in E. symmetry in E.
    apply fmap_Some in E as (z' & ? & ?). by exists z'. }
  destruct (Hk _ _ Hx) as (x' & Hx' & Ex). destruct (Hk _ _ Hy) as (y' & Hy' & Ey).
  pose proof (Hh j x' y' Hj Hx' Hy') as Hle. simpl in *. lia.
Qed.

Lemma add_fd_fields fd type h (s : EventLoop CB K) :
  let s' := snd (add_fd epoll_ctl fd type h s) in
  timers_ s' = timers_ s /\ events_ s' = events_ s.
Proof. unfold add_fd. destruct (epoll_ctl _ _ _ _) as [[] k]; done. Qed.

Lemma run_lop_keeps o (s : EventLoop CB K) :
  (heap_ok s -> heap_ok (run_lop o s)) /\ events_ (run_lop o s) = events_ s.
Proof.
  unfold heap_ok. destruct o as [fd type h|fd|fd type|tick after cb interval|i|t|]; simpl; try done.
  - destruct (add_fd_fields fd type h s) as [-> ->]. done.
  - unfold del_fd. by destruct (epoll_ctl _ _ _ _) as [b k].
  - unfold mod_fd. destruct (fd_handlers_ s !! fd) as [h|]; [|done].
    destruct (add_fd_fields fd type h s) as [-> ->]. done.
  - destruct cb; [|done]. split; [apply push_timer_heap|done].
  - unfold cancel_timer. pose proof (cancel_entries_keys i (timers_ s)) as E.
    destruct (cancel_entries i (timers_ s)) as [b r]. split; [|done].
    by apply heap_same_keys.
Qed.

Lemma run_lops_keeps os (s : EventLoop CB K) :
  (heap_ok s -> heap_ok (run_lops os s)) /\ events_ (run_lops os s) = events_ s.
Proof.
  revert s. induction os as [|o os IH]; intros s; [done|].
  destruct (run_lop_keeps o s) as [H1 H2]. destruct (IH (run_lop o s)) as [H3 H4].
  split; [auto|]. simpl. by rewrite H4.
Qed.
End operations.

Arguments lop CB : clear implicits.

(** ** Rounds *)

Section rounds.
Context `{StdHeap} {CB K : Type}.
Variable epoll_ctl : epoll_op -> Z -> epoll_event -> K -> bool * K.
Variable epoll_wait : Z -> Z -> K -> (Z + list epoll_event) * K.
Variable exec : CB -> EventLoop CB K -> cb_end * EventLoop CB K.
Variable handle : Z -> Z -> Z -> EventLoop CB K -> outcome (EventLoop CB K).

(** Callbacks change the loop by its operations. *)
Hypothesis exec_lops : forall cb s, exists os, snd (exec cb s) = run_lops epoll_ctl os s.

Lemma exec_keeps cb s e s' :
  exec cb s = (e, s') -> (heap_ok s -> heap_ok s') /\ events_ s' = events_ s.
Proof.
  intros E. destruct (exec_lops cb s) as [os Hos]. rewrite E in Hos. simpl in Hos.
  subst s'. apply run_lops_keeps.
Qed.

Lemma run_tasks_spec tasks s :
  exists started ok s',
    run_tasks exec tasks s = (started, ok, s') /\
    (heap_ok s -> heap_ok s') /\ events_ s' = events_ s /\
    if ok : bool then started = tasks
    else exists pre cb post, tasks = pre ++ Some cb :: post /\ started = pre ++ [Some cb].
Proof.
  revert s. induction tasks as [|t tasks IH]; intros s; simpl; [by exists [], true, s|].
  destruct (call_task exec t s) as [e s1] eqn:Hc.
  assert ((heap_ok s -> heap_ok s1) /\ events_ s1 = events_ s) as [Hh1 He1].
  { unfold call_task in Hc. destruct t; [by eapply exec_keeps|by simplify_eq]. }
  destruct (IH s1) as (started & ok & s' & E & Hh & He & Hok). rewrite He1 in He.
  destruct e.
  1, 2: rewrite E; exists (t :: started), ok, s'; split_and!; [done|auto|done|];
    destruct ok; [by subst|]; destruct Hok as (pre & cb & post & -> & ->);
    by exists (t :: pre), cb, post.
  exists [t], false, s1. split_and!; [done..|].
  unfold call_task in Hc. destruct t as [cb|]; [|done]. by exists [], cb, tasks.
Qed.

Lemma rearm_timer_keeps now t (s : EventLoop CB K) :
  (heap_ok s -> heap_ok (rearm_timer now t s)) /\ events_ (rearm_timer now t s) = events_ s.
Proof. unfold rearm_timer. case_match; [|done]. split; [apply push_timer_heap|done]. Qed.

Lemma run_timers_spec now fired s :
  Forall (fun t => te_cancelled t = false) fired ->
  exists calls ok s',
    run_timers exec now fired s = (calls, ok, s') /\
    (heap_ok s -> heap_ok s') /\ events_ s' = events_ s /\
    if ok : bool then calls = filter (fun t => is_Some (te_callback t)) fired
    else exists pre t post, fired = pre ++ t :: post /\
           calls = filter (fun t => is_Some (te_callback t)) pre ++ [t].
Proof.
  revert s. induction fired as [|t fired IH]; intros s Hf; simpl; [by exists [], true, s|].
  apply Forall_cons in Hf as [Hc Hf]. rewrite Hc, filter_cons.
  destruct (te_callback t) as [cb|] eqn:Hcb.
  - rewrite decide_True by done. destruct (exec cb s) as [e s1] eqn:He.
    destruct (exec_keeps _ _ _ _ He) as [Hh1 He1].
    destruct (rearm_timer_keeps now t s1) as [Hh2 He2].
    destruct (IH (rearm_timer now t s1) Hf) as (calls & ok & s' & E & Hh & Hev & Hok).
    rewrite He2, He1 in Hev. destruct e.
    1, 2: rewrite E; exists (t :: calls), ok, s'; split_and!; [done|auto|done|];
      destruct ok; [by subst|]; destruct Hok as (pre & u & post & -> & ->);
      exists (t :: pre), u, post; by rewrite filter_cons_True by (by rewrite Hcb).
    exists [t], false, s1. split_and!; [done..|]. by exists [], t, fired.
  - rewrite decide_False by (by intros [? ?]).
    destruct (rearm_timer_keeps now t s) as [Hh2 He2].
    destruct (IH (rearm_timer now t s) Hf) as (calls & ok & s' & E & Hh & Hev & Hok).
    rewrite He2 in Hev. exists calls, ok, s'. split_and!; [done|auto|done|].
    destruct ok; [done|]. destruct Hok as (pre & u & post & -> & ->).
    exists (t :: pre), u, post. by rewrite filter_cons_False by (rewrite Hcb; by intros [? ?]).
Qed.

Lemma process_tasks_spec s :
  exists started ok s',
    process_tasks exec s = (started, ok, s') /\
    (heap_ok s -> heap_ok s') /\ events_ s' = events_ s /\
    if ok : bool then started = pending_tasks_ s
    else exists pre cb post, pending_tasks_ s = pre ++ Some cb :: post /\
           started = pre ++ [Some cb].
Proof.
  unfold process_tasks. destruct (pending_tasks_ s) as [|t l] eqn:E; [by exists [], true, s|].
  destruct (run_tasks_spec (t :: l) (set_tasks [] s)) as (st & ok & s' & -> & ?).
  by exists st, ok, s'.
Qed.

Lemma process_timers_spec now s :
  heap_ok s ->
  exists fired calls ok s',
    process_timers exec now s = (calls, ok, s') /\
    heap_ok s' /\ events_ s' = events_ s /\
    StronglySorted by_expiry fired /\ fired ≡ₚ filter (due now) (timers_ s) /\
    if ok : bool then calls = filter (fun t => is_Some (te_callback t)) fired
    else exists pre t post, fired = pre ++ t :: post /\
           calls = filter (fun t => is_Some (te_callback t)) pre ++ [t].
Proof.
  intros Hh. destruct (collect_spec now _ Hh) as (rest & fired & E & Hr & _ & Hs & Hf & _).
  unfold process_timers. rewrite E.
  destruct (run_timers_spec now fired (set_timers rest (timer_id_counter_ s) s))
    as (calls & ok & s' & -> & Hh' & Hev & Hok).
  { apply Forall_forall. intros t. rewrite Hf, list_elem_of_filter. intros [[? _] _]. done. }
  exists fired, calls, ok, s'. split_and!; try done. by apply Hh'.
Qed.

(** One round runs the tasks queued when it starts, in the order they were
    pushed, and only those: a task pushed by a task waits for the next round.  Then
    the live timers due, in order of expiry, those added by the tasks included.
    Only an exception that is no [std::exception] cuts either loop short. *)
Theorem event_loop_round timeout now s :
  heap_ok s ->
  let r := run_once epoll_wait exec handle timeout now s in
  exists tasks_ok s1, process_tasks exec s = (rd_tasks r, tasks_ok, s1) /\
  if tasks_ok : bool then
    rd_tasks r = pending_tasks_ s /\
    exists fired timers_ok s2,
      process_timers exec now s1 = (rd_timers r, timers_ok, s2) /\
      StronglySorted by_expiry fired /\ fired ≡ₚ filter (due now) (timers_ s1) /\
      if timers_ok : bool then rd_timers r = filter (fun t => is_Some (te_callback t)) fired
      else rd_result r = Throw
  else
    rd_result r = Throw /\
    exists pre cb post, pending_tasks_ s = pre ++ Some cb :: post /\
      rd_tasks r = pre ++ [Some cb].
Proof.
  intros Hh. unfold run_once.
  destruct (process_tasks_spec s) as (started & ok & s1 & E & Hh1 & _ & Hok).
  rewrite E. exists ok, s1. destruct ok.
  2: { simpl. split; [done|]. split; [done|]. exact Hok. }
  destruct (process_timers_spec now s1 (Hh1 Hh))
    as (fired & calls & ok' & s2 & E' & _ & _ & Hs & Hf & Hok').
  rewrite E'. destruct ok'.
  2: { simpl. split_and!; [done..|]. by exists fired, false, s2. }
  assert (forall r : round CB K, rd_tasks r = started -> rd_timers r = calls ->
    (started, true, s1) = (rd_tasks r, true, s1) /\
    rd_tasks r = pending_tasks_ s /\
    exists fired timers_ok s2', (calls, true, s2) = (rd_timers r, timers_ok, s2') /\
      StronglySorted by_expiry fired /\ fired ≡ₚ filter (due now) (timers_ s1) /\
      if timers_ok : bool then rd_timers r = filter (fun t => is_Some (te_callback t)) fired
      else rd_result r = Throw) as Hall.
  { intros r -> ->. split_and!; [done..|]. by exists fired, true, s2. }
  destruct (epoll_fd_ s2 <? 0); [by apply Hall|].
  destruct (epoll_wait _ _ _) as [[e|evs] k]; [by apply Hall|].
  destruct (dispatch _ _ _) as [cs res]. by apply Hall.
Qed.

(** ** The buffer given to [epoll_wait] *)

(** A kernel answers a buffer of no entry with an error (EINVAL, epoll_wait(2)). *)
Hypothesis epoll_wait_einval : forall maxevents timeout k,
  maxevents <= 0 -> exists errno, fst (epoll_wait maxevents timeout k) = inl errno.

Lemma run_once_no_events timeout now s :
  heap_ok s -> events_ s = [] ->
  let r := run_once epoll_wait exec handle timeout now s in
  rd_events r = [] /\ forall s', rd_result r = Ret s' -> heap_ok s' /\ events_ s' = [].
Proof.
  intros Hh He. unfold run_once.
  destruct (process_tasks_spec s) as (started & ok & s1 & -> & Hh1 & He1 & _).
  destruct ok; [|done].
  destruct (process_timers_spec now s1 (Hh1 Hh)) as (_ & calls & ok & s2 & -> & Hh2 & He2 & _).
  assert (events_ s2 = []) as He2' by congruence.
  destruct ok; [|done]. destruct (epoll_fd_ s2 <? 0); [simpl; split; [done|by intros ? [= <-]]|].
  rewrite He2'. destruct (epoll_wait_einval (zlen (@nil epoll_event)) timeout (kernel s2)) as [e Hw];
    [done|].
  destruct (epoll_wait _ _ _) as [r k]. simpl in Hw. subst r. simpl.
  split; [done|]. by intros ? [= <-].
Qed.

(** C19: The loop never delivers a descriptor event: [events_] is reserved but never
    resized, so [epoll_wait] is asked for no event at all.  Whatever operations come
    first and whatever the callbacks do, no round of [run] calls [on_event]. *)
Theorem event_loop_never_dispatches external k epfd tfd os ticks :
  let s := run_lops epoll_ctl os (snd (init epfd tfd (EventLoop0 external k))) in
  Forall (fun r => rd_events r = []) (run epoll_wait exec handle ticks s).
Proof.
  intros s. assert (heap_ok s /\ events_ s = []) as [Hh He].
  { destruct (run_lops_keeps epoll_ctl os (snd (init epfd tfd (EventLoop0 external k)))) as [H1 H2].
    split; [apply H1|unfold s; rewrite H2]; unfold init; repeat case_match; try apply is_heap_nil; done. }
  unfold run. destruct (running_ s); [constructor|].
  assert (heap_ok (set_running true s) /\ events_ (set_running true s) = []) as Hs by done.
  clear Hh He. revert Hs. generalize (set_running true s). clear s.
  induction ticks as [|now ticks IH]; intros s [Hh He]; simpl; [constructor|].
  destruct (running_ s); [|constructor].
  destruct (run_once_no_events 1000 now s Hh He) as [Hev Hnext].
  destruct (rd_result _) as [s'| |] eqn:E; repeat constructor; try done.
  by apply IH, Hnext.
Qed.
End rounds.

(** ** Descriptors registered with the kernel *)

Section descriptors.
Context `{StdHeap} {CB K : Type}.
Variable epoll_ctl : epoll_op -> Z -> epoll_event -> K -> bool * K.

(** The descriptors of the interest list (epoll_ctl(2)): ADD inserts, MOD needs the
    descriptor to be there, DEL removes it; a failed call changes nothing. *)
Variable registered : K -> gset Z.
Hypothesis ctl_add : forall fd ev k, let '(ok, k') := epoll_ctl EPOLL_CTL_ADD fd ev k in
  registered k' = if ok then {[fd]} ∪ registered k else registered k.
Hypothesis ctl_mod : forall fd ev k, let '(ok, k') := epoll_ctl EPOLL_CTL_MOD fd ev k in
  registered k' = registered k /\ (ok = true -> fd ∈ registered k).
Hypothesis ctl_del : forall fd ev k,
  registered (snd (epoll_ctl EPOLL_CTL_DEL fd ev k)) = registered k ∖ {[fd]}.

Definition mirror (s : EventLoop CB K) : Prop := dom (fd_handlers_ s) = registered (kernel s).

(** A descriptor the loop still maps and the kernel has dropped. *)
Definition stale (fd : Z) (s : EventLoop CB K) : Prop :=
  fd ∈ dom (fd_handlers_ s) /\ fd ∉ registered (kernel s).

Lemma add_fd_spec fd type h (s : EventLoop CB K) :
  let '(ok, s') := add_fd epoll_ctl fd type h s in
  if ok : bool then
    fd_handlers_ s' = <[fd := h]> (fd_handlers_ s) /\
    (registered (kernel s') = {[fd]} ∪ registered (kernel s) /\ fd ∉ dom (fd_handlers_ s) \/
     registered (kernel s') = registered (kernel s) /\ fd ∈ registered (kernel s))
  else fd_handlers_ s' = fd_handlers_ s /\ registered (kernel s') = registered (kernel s).
Proof.
  unfold add_fd. destruct (fd_handlers_ s !! fd) as [h'|] eqn:E.
  - pose proof (ctl_mod fd {| events := epoll_bits type; data := h |} (kernel s)) as Hk.
    destruct (epoll_ctl _ _ _ _) as [[] k]; simpl; destruct Hk as [Hk Hin]; [|done].
    split; [done|]. right. auto.
  - pose proof (ctl_add fd {| events := epoll_bits type; data := h |} (kernel s)) as Hk.
    destruct (epoll_ctl _ _ _ _) as [[] k]; simpl; [|done].
    split; [done|]. left. split; [done|]. by apply not_elem_of_dom.
Qed.

Lemma add_fd_mirror fd type h (s : EventLoop CB K) :
  mirror s -> mirror (snd (add_fd epoll_ctl fd type h s)).
Proof.
  unfold mirror. intros Hm. pose proof (add_fd_spec fd type h s) as Hs.
  destruct (add_fd _ _ _ _ _) as [[] s']; simpl.
  - destruct Hs as [-> [[-> _]|[-> Hin]]]; rewrite dom_insert_L; set_solver.
  - by destruct Hs as [-> ->].
Qed.

Lemma run_lop_mirror o (s : EventLoop CB K) : mirror s -> mirror (run_lop epoll_ctl o s).
Proof.
  intros Hm. destruct o as [fd type h|fd|fd type|tick after cb interval|i|t|]; simpl.
  - by apply add_fd_mirror.
  - unfold del_fd, mirror. pose proof (ctl_del fd {| events := 0; data := 0 |} (kernel s)) as Hk.
    destruct (epoll_ctl _ _ _ _) as [b k]. simpl in *. rewrite dom_delete_L, Hk.
    unfold mirror in Hm. set_solver.
  - unfold mod_fd. destruct (fd_handlers_ s !! fd); [by apply add_fd_mirror|done].
  - by destruct cb.
  - unfold cancel_timer. by destruct (cancel_entries i (timers_ s)).
  - done.
  - done.
Qed.

Lemma run_lops_mirror os (s : EventLoop CB K) : mirror s -> mirror (run_lops epoll_ctl os s).
Proof.
  revert s. induction os as [|o os IH]; intros s Hm; [done|]. by apply IH, run_lop_mirror.
Qed.

Lemma stale_add fd fd' type h (s : EventLoop CB K) :
  stale fd s -> stale fd (snd (add_fd epoll_ctl fd' type h s)).
Proof.
  unfold stale. intros [Hd Hn]. pose proof (add_fd_spec fd' type h s) as Hs.
  destruct (add_fd _ _ _ _ _) as [[] s']; simpl.
  - destruct Hs as [-> [[-> Hnd]|[-> Hin]]]; rewrite dom_insert_L; set_solver.
  - destruct Hs as [-> ->]. done.
Qed.

Lemma stale_lop fd o (s : EventLoop CB K) :
  o <> LDelFd fd -> stale fd s -> stale fd (run_lop epoll_ctl o s).
Proof.
  intros Ho Hs. destruct o as [fd' type h|fd'|fd' type|tick after cb interval|i|t|]; simpl.
  - by apply stale_add.
  - assert (fd <> fd') by congruence. unfold del_fd, stale in *.
    pose proof (ctl_del fd' {| events := 0; data := 0 |} (kernel s)) as Hk.
    destruct (epoll_ctl _ _ _ _) as [b k]. simpl in *. rewrite dom_delete_L, Hk. set_solver.
  - unfold mod_fd. destruct (fd_handlers_ s !! fd'); [by apply stale_add|done].
  - by destruct cb.
  - unfold cancel_timer. by destruct (cancel_entries i (timers_ s)).
  - done.
  - done.
Qed.

Lemma stale_lops fd os (s : EventLoop CB K) :
  LDelFd fd ∉ os -> stale fd s -> stale fd (run_lops epoll_ctl os s).
Proof.
  revert s. induction os as [|o os IH]; intros s Hos Hs; [done|].
  apply not_elem_of_cons in Hos as [Ho Hos]. apply IH; [done|]. by apply stale_lop.
Qed.

(** C20: The map of handlers and the kernel's list hold the same descriptors after
    any operations.  A descriptor closed without [del_fd] (the kernel then drops it)
    breaks that for good: [add_fd] of the number, reused for another connection, asks
    for a modification and fails, until somebody calls [del_fd]. *)
Theorem event_loop_descriptors (s : EventLoop CB K) os :
  mirror s ->
  mirror (run_lops epoll_ctl os s) /\
  (forall fd k' os' type h,
     fd ∈ registered (kernel s) -> registered k' = registered (kernel s) ∖ {[fd]} ->
     LDelFd fd ∉ os' ->
     fst (add_fd epoll_ctl fd type h
            (run_lops epoll_ctl os' (set_handlers (fd_handlers_ s) k' s))) = false).
Proof.
  intros Hm. split; [by apply run_lops_mirror|].
  intros fd k' os' type h Hin Hk Hos.
  assert (stale fd (run_lops epoll_ctl os' (set_handlers (fd_handlers_ s) k' s))) as [Hd Hn].
  { apply stale_lops; [done|]. split; simpl; [by rewrite Hm|rewrite Hk; set_solver]. }
  pose proof (add_fd_spec fd type h
    (run_lops epoll_ctl os' (set_handlers (fd_handlers_ s) k' s))) as Hs.
  destruct (add_fd _ _ _ _ _) as [[] s']; [|done].
  destruct Hs as [_ [[_ ?]|[_ ?]]]; done.
Qed.
End descriptors.

(** ** Instances: a kernel that keeps the interest list only *)

Definition sample_ctl (op : epoll_op) (fd : Z) (ev : epoll_event) (k : gset Z) : bool * gset Z :=
  match op with
  | EPOLL_CTL_ADD => if decide (fd ∈ k) then (false, k) else (true, {[fd]} ∪ k)
  | EPOLL_CTL_MOD => (bool_decide (fd ∈ k), k)
  | EPOLL_CTL_DEL => (bool_decide (fd ∈ k), k ∖ {[fd]})
  end.
Definition sample_wait (maxevents timeout : Z) (k : gset Z) : (Z + list epoll_event) * gset Z :=
  (if maxevents <=? 0 then inl 22 else inr [{| events := EPOLLIN; data := 4096 |}], k).
(** A callback that pushes itself as a task. *)
Definition sample_exec (cb : unit) (s : EventLoop unit (gset Z)) : cb_end * EventLoop unit (gset Z) :=
  (CbReturn, push_task (Some cb) s).
Definition sample_handle (h fd type : Z) (s : EventLoop unit (gset Z)) := Ret s.
Definition sample_loop : EventLoop unit (gset Z) :=
  run_lops sample_ctl [LAddFd 5 1 4096; LPushTask (Some tt); LAddTimer 0 10 (Some tt) 0]
    (snd (init 3 4 (EventLoop0 false ∅))).

Lemma sample_exec_lops cb s : exists os, snd (sample_exec cb s) = run_lops sample_ctl os s.
Proof. by exists [LPushTask (Some cb)]. Qed.

Lemma sample_loop_heap : heap_ok sample_loop.
Proof. apply run_lops_keeps. apply is_heap_nil. Qed.

Lemma sample_wait_einval maxevents timeout k :
  maxevents <= 0 -> exists errno, fst (sample_wait maxevents timeout k) = inl errno.
Proof. intros Hm. exists 22. unfold sample_wait. by rewrite (proj2 (Z.leb_le _ _) Hm). Qed.

Lemma event_loop_round_witness :
  rd_tasks (run_once sample_wait sample_exec sample_handle 0 20 sample_loop) = [Some tt] /\
  exists s1, process_tasks sample_exec sample_loop = ([Some tt], true, s1).
Proof.
  destruct (event_loop_round sample_ctl sample_wait sample_exec sample_handle sample_exec_lops
              0 20 sample_loop sample_loop_heap) as (ok & s1 & E & _).
  split; [reflexivity|]. exists s1. rewrite E. injection E as <- _. reflexivity.
Defined.

Lemma event_loop_never_dispatches_witness :
  Forall (fun r => rd_events r = [])
    (run sample_wait sample_exec sample_handle [1; 2; 3] sample_loop).
Proof.
  exact (event_loop_never_dispatches sample_ctl sample_wait sample_exec sample_handle
    sample_exec_lops
    sample_wait_einval
    false ∅ 3 4 [LAddFd 5 1 4096; LPushTask (Some tt); LAddTimer 0 10 (Some tt) 0] [1; 2; 3]).
Defined.

Lemma sample_ctl_add fd ev k : let '(ok, k') := sample_ctl EPOLL_CTL_ADD fd ev k in
  k' = if ok then {[fd]} ∪ k else k.
Proof. simpl. by case_decide. Qed.
Lemma sample_ctl_mod fd ev k : let '(ok, k') := sample_ctl EPOLL_CTL_MOD fd ev k in
  k' = k /\ (ok = true -> fd ∈ k).
Proof. simpl. split; [done|]. apply bool_decide_eq_true_1. Qed.
Lemma sample_ctl_del fd ev k : snd (sample_ctl EPOLL_CTL_DEL fd ev k) = k ∖ {[fd]}.
Proof. done. Qed.

Lemma event_loop_descriptors_witness :
  mirror (fun k : gset Z => k) sample_loop /\
  fst (add_fd sample_ctl 5 1 8192 (set_handlers (fd_handlers_ sample_loop) ∅ sample_loop)) = false.
Proof.
  destruct (event_loop_descriptors sample_ctl (fun k : gset Z => k) sample_ctl_add sample_ctl_mod
    sample_ctl_del (snd (init 3 4 (EventLoop0 (CB := unit) false ∅)))
    [LAddFd 5 1 4096; LPushTask (Some tt); LAddTimer 0 10 (Some tt) 0] eq_refl) as [Hm _].
  split; [exact Hm|].
  destruct (event_loop_descriptors sample_ctl (fun k : gset Z => k) sample_ctl_add sample_ctl_mod
    sample_ctl_del sample_loop [] Hm) as [_ Hs].
  apply (Hs 5 ∅ [] 1 8192); [by vm_compute|by vm_compute|apply not_elem_of_nil].
Defined.
