(* ===== verification/ThreadPool.v ===== *)
(** * Task and ThreadPool (core/task, core/threadpool)

    The queue as a function, and the threads as a transition system: a worker's
    turn through [worker_loop] is cut where it takes or releases [queue_mutex_], so
    that the steps of the workers, of the threads that append and of the one that
    shuts down interleave as the locks allow.  Waiting on [task_cv_] is blocking and
    then waking up, with the spurious wake-ups the language allows. *)

From S2P Require Import Prelude.

(** ** Tasks *)

Inductive TaskPriority := LOW | NORMAL | HIGH.

#[global] Instance TaskPriority_eq_dec : EqDecision TaskPriority.
Proof. solve_decision. Defined.

(** A [TaskPtr]: the object it points to is named [ref_]; the flag [cancelled_] of
    the object is shared and kept in the pool's state. *)
Record Task {F : Type} := { ref_ : N; func_ : option F; priority_ : TaskPriority }.
Arguments Task F : clear implicits.

Definition high {F} (t : Task F) : Prop := priority_ t = HIGH.
#[global] Instance high_dec {F} (t : Task F) : Decision (high t).
Proof. unfold high. apply _. Defined.

(** ** The queue *)

Section queue.
Context {F : Type}.

(** The first loop of [append_priority]: front tasks of priority HIGH move to [tmp]. *)
Fixpoint move_high (tasks tmp : list (Task F)) : list (Task F) * list (Task F) :=
  match tasks with
  | t :: tasks' => if decide (high t) then move_high tasks' (tmp ++ [t]) else (tasks, tmp)
  | [] => ([], tmp)
  end.

(** The second loop: the rest moves. *)
Fixpoint move_rest (tasks tmp : list (Task F)) : list (Task F) :=
  match tasks with
  | t :: tasks' => move_rest tasks' (tmp ++ [t])
  | [] => tmp
  end.

Definition append_priority (task : Task F) (tasks : list (Task F)) : list (Task F) :=
  if decide (high task) then
    let '(rest, tmp) := move_high tasks [] in move_rest rest (tmp ++ [task])
  else tasks ++ [task].

Lemma move_high_spec tasks tmp :
  exists hs rest, move_high tasks tmp = (rest, tmp ++ hs) /\ tasks = hs ++ rest /\
    Forall high hs /\ match rest with [] => True | t :: _ => ~ high t end.
Proof.
  revert tmp. induction tasks as [|t tasks IH]; intros tmp; simpl.
  - exists [], []. rewrite app_nil_r. done.
  - case_decide.
    + destruct (IH (tmp ++ [t])) as (hs & rest & -> & -> & ? & ?).
      exists (t :: hs), rest. rewrite <-app_assoc. split_and!; try done. by constructor.
    + exists [], (t :: tasks). rewrite app_nil_r. done.
Qed.

Lemma move_rest_spec tasks tmp : move_rest tasks tmp = tmp ++ tasks.
Proof.
  revert tmp. induction tasks as [|t tasks IH]; intros tmp; simpl; [by rewrite app_nil_r|].
  by rewrite IH, <-app_assoc.
Qed.

(** All HIGH tasks first. *)
Definition partitioned (tasks : list (Task F)) : Prop :=
  exists hs rest, tasks = hs ++ rest /\ Forall high hs /\ Forall (fun t => ~ high t) rest.

Lemma partitioned_filter tasks :
  partitioned tasks -> tasks = filter high tasks ++ filter (fun t => ~ high t) tasks.
Proof.
  intros (hs & rest & -> & Hh & Hr). rewrite !filter_app.
  rewrite (filter_all high hs), (filter_none high rest) by done.
  rewrite (filter_none _ hs), (filter_all _ rest), app_nil_r; [done|done|].
  eapply Forall_impl; [exact Hh|]. intros t Ht. by intros [].
Qed.

Lemma append_priority_spec task tasks :
  partitioned tasks ->
  partitioned (append_priority task tasks) /\
  filter high (append_priority task tasks) = filter high (tasks ++ [task]) /\
  filter (fun t => ~ high t) (append_priority task tasks) =
    filter (fun t => ~ high t) (tasks ++ [task]) /\
  append_priority task tasks ≡ₚ task :: tasks.
Proof.
  intros (hs & rest & -> & Hh & Hr). unfold append_priority. case_decide as Ht.
  - destruct (move_high_spec (hs ++ rest) []) as (hs' & rest' & -> & E & Hh' & Hr').
    assert (hs' = hs /\ rest' = rest) as [-> ->].
    { clear -E Hh Hr Hh' Hr'. revert hs' E Hh'. induction Hh as [|t hs Ht _ IH]; intros hs' E Hh'.
      - destruct hs' as [|u hs']; [done|]. simpl in E. subst rest.
        apply Forall_cons in Hh' as [? _]. apply Forall_cons in Hr as [? _]. done.
      - destruct hs' as [|u hs']; simpl in E; [by subst rest'|].
        injection E as -> E. apply Forall_cons in Hh' as [_ Hh'].
        destruct (IH hs' E Hh') as [-> ->]. done. }
    rewrite move_rest_spec, app_nil_l, <-app_assoc. simpl. split_and!.
    + exists (hs ++ [task]), rest. rewrite <-app_assoc. split_and!; try done.
      apply Forall_app. split; [done|by constructor].
    + rewrite !filter_app, !filter_cons_True by done.
      rewrite (filter_none high rest) by done. by rewrite filter_nil, app_nil_r.
    + rewrite !filter_app, !filter_cons_False by (intros ?; done).
      by rewrite filter_nil, app_nil_r.
    + by rewrite Permutation_middle.
  - split_and!; [|done|done|by rewrite Permutation_app_comm].
    exists hs, (rest ++ [task]). rewrite <-app_assoc. split_and!; try done.
    apply Forall_app. split; [done|by constructor].
Qed.
End queue.

(** The queue is always its HIGH tasks in the order they were appended, followed
    by all others in the order they were appended: LOW and NORMAL are not told apart. *)
Theorem pool_priority_order {F : Type} (appended : list (Task F)) :
  foldl (fun q t => append_priority t q) [] appended =
    filter high appended ++ filter (fun t => ~ high t) appended.
Proof.
  enough (partitioned (foldl (fun q t => append_priority t q) [] appended) /\
    filter high (foldl (fun q t => append_priority t q) [] appended) = filter high appended /\
    filter (fun t => ~ high t) (foldl (fun q t => append_priority t q) [] appended) =
      filter (fun t => ~ high t) appended) as (Hp & Hh & Hr).
  { apply partitioned_filter in Hp. by rewrite Hp, Hh, Hr. }
  induction appended as [|t ts (Hp & Hh & Hr)] using rev_ind.
  - simpl. split; [|done]. by exists [], [].
  - rewrite foldl_app. simpl. destruct (append_priority_spec t _ Hp) as (Hp' & Hh' & Hr' & _).
    rewrite Hh', Hr', !filter_app, Hh, Hr. done.
Qed.

(** ** The pool *)

Section pool.
Context {F : Type}.

(** Where a worker is in [worker_loop]. *)
Inductive phase :=
| AtLock                       (* before taking the mutex, or woken up and retaking it *)
| Locked                       (* holds it, about to test the predicate of the wait *)
| Blocking                     (* holds it, the predicate was false *)
| Waiting                      (* released it and blocked *)
| Running (t : Task F)         (* outside the lock, executing *)
| Exited.

(** The thread that shuts the pool down. *)
Inductive control :=
| CIdle | CClear | CNotify (now : bool) | CJoining (now : bool) | CDone.

(** The members, and what became of the tasks. *)
Record Pool := {
  tasks_ : list (Task F);
  stop_ : bool;
  workers_ : list phase;
  shutdown_done_ : bool;
  control_ : control;
  notifies : nat;               (* calls of notify_one still to be made *)
  cancelled_ : gset N;
  submitted : list (Task F);
  late : list (Task F);         (* submitted when stop_ was set already *)
  finished : list (Task F);     (* execute() returned *)
  called : list (Task F);       (* func_ was called *)
  dropped : list (Task F);
}.

Definition Pool0 (threads : nat) : Pool :=
  {| tasks_ := []; stop_ := false; workers_ := replicate threads AtLock; shutdown_done_ := false;
     control_ := CIdle; notifies := 0; cancelled_ := ∅; submitted := []; late := [];
     finished := []; called := []; dropped := [] |}.

Definition holds (p : phase) : bool :=
  match p with Locked | Blocking => true | _ => false end.
Definition mutex_free (s : Pool) : Prop := Forall (fun p => holds p = false) (workers_ s).

Definition set_workers (ws : list phase) (s : Pool) : Pool :=
  {| tasks_ := tasks_ s; stop_ := stop_ s; workers_ := ws; shutdown_done_ := shutdown_done_ s;
     control_ := control_ s; notifies := notifies s; cancelled_ := cancelled_ s;
     submitted := submitted s; late := late s; finished := finished s; called := called s;
     dropped := dropped s |}.
Definition set_queue (q : list (Task F)) (s : Pool) : Pool :=
  {| tasks_ := q; stop_ := stop_ s; workers_ := workers_ s; shutdown_done_ := shutdown_done_ s;
     control_ := control_ s; notifies := notifies s; cancelled_ := cancelled_ s;
     submitted := submitted s; late := late s; finished := finished s; called := called s;
     dropped := dropped s |}.
Definition set_control (st : bool) (c : control) (s : Pool) : Pool :=
  {| tasks_ := tasks_ s; stop_ := st; workers_ := workers_ s; shutdown_done_ := shutdown_done_ s;
     control_ := c; notifies := notifies s; cancelled_ := cancelled_ s;
     submitted := submitted s; late := late s; finished := finished s; called := called s;
     dropped := dropped s |}.
Definition set_notifies (n : nat) (s : Pool) : Pool :=
  {| tasks_ := tasks_ s; stop_ := stop_ s; workers_ := workers_ s;
     shutdown_done_ := shutdown_done_ s; control_ := control_ s; notifies := n;
     cancelled_ := cancelled_ s; submitted := submitted s; late := late s;
     finished := finished s; called := called s; dropped := dropped s |}.
Definition set_cancelled (c : gset N) (s : Pool) : Pool :=
  {| tasks_ := tasks_ s; stop_ := stop_ s; workers_ := workers_ s;
     shutdown_done_ := shutdown_done_ s; control_ := control_ s; notifies := notifies s;
     cancelled_ := c; submitted := submitted s; late := late s; finished := finished s;
     called := called s; dropped := dropped s |}.
Definition set_shutdown_done (s : Pool) : Pool :=
  {| tasks_ := tasks_ s; stop_ := stop_ s; workers_ := workers_ s; shutdown_done_ := true;
     control_ := control_ s; notifies := notifies s; cancelled_ := cancelled_ s;
     submitted := submitted s; late := late s; finished := finished s; called := called s;
     dropped := dropped s |}.

(** [Task::execute]: whether the function is called.  The flag is read and the function
    called in one step; a [cancel] that comes while the function runs has no effect on it
    and is a step behind this one. *)
Definition executes (t : Task F) (s : Pool) : bool :=
  match func_ t with Some _ => bool_decide (ref_ t ∉ cancelled_ s) | None => false end.

Definition finish_task (t : Task F) (s : Pool) : Pool :=
  {| tasks_ := tasks_ s; stop_ := stop_ s; workers_ := workers_ s;
     shutdown_done_ := shutdown_done_ s; control_ := control_ s; notifies := notifies s;
     cancelled_ := cancelled_ s; submitted := submitted s; late := late s;
     finished := finished s ++ [t];
     called := if executes t s then called s ++ [t] else called s; dropped := dropped s |}.

(** The critical section of [append_priority]; the call of [notify_one] follows. *)
Definition submit (t : Task F) (s : Pool) : Pool :=
  {| tasks_ := append_priority t (tasks_ s); stop_ := stop_ s; workers_ := workers_ s;
     shutdown_done_ := shutdown_done_ s; control_ := control_ s; notifies := S (notifies s);
     cancelled_ := cancelled_ s; submitted := submitted s ++ [t];
     late := if stop_ s then late s ++ [t] else late s; finished := finished s;
     called := called s; dropped := dropped s |}.

(** The critical section of [append], read as what it must mean: [emplace] is given a task
    around the [packaged_task], which keeps an exception of [f] for the future.  No
    [TaskPtr] to it gets out, so nobody can cancel it. *)
Definition append (r : N) (f : F) (s : Pool) : Pool :=
  submit {| ref_ := r; func_ := Some f; priority_ := NORMAL |} s.

(** The critical section of [shutdown_now]: the queue is swapped with an empty one. *)
Definition drop_queue (s : Pool) : Pool :=
  {| tasks_ := []; stop_ := stop_ s; workers_ := workers_ s; shutdown_done_ := shutdown_done_ s;
     control_ := CNotify true; notifies := notifies s; cancelled_ := cancelled_ s;
     submitted := submitted s; late := late s; finished := finished s; called := called s;
     dropped := dropped s ++ tasks_ s |}.

(** The next step of a worker, where it has one of its own. *)
Definition worker_step (p : phase) (s : Pool) : option (phase * Pool) :=
  match p with
  | AtLock => if bool_decide (mutex_free s) then Some (Locked, s) else None
  | Locked =>
      match tasks_ s with
      | [] => if stop_ s then Some (Exited, s) else Some (Blocking, s)
      | t :: q => Some (Running t, set_queue q s)
      end
  | Blocking => Some (Waiting, s)
  | Running t => Some (AtLock, finish_task t s)
  | Waiting | Exited => None
  end.

Definition is_waiting (p : phase) : bool := match p with Waiting => true | _ => false end.

Definition wake (p : phase) : phase := match p with Waiting => AtLock | _ => p end.

(** Only [shutdown] sets [shutdown_done_]. *)
Definition joined (now : bool) (s : Pool) : Pool := if now then s else set_shutdown_done s.

(** Whether the destructor calls [shutdown]. *)
Definition stops_again (s : Pool) : bool := negb (stop_ s).

Inductive label :=
| LWorker | LAppend | LNotify | LSpurious | LCancel | LShutdown | LShutdownNow
| LDrop | LNotifyAll | LJoin.

Inductive step : label -> Pool -> Pool -> Prop :=
| step_worker s ws1 p ws2 p' s' :
    workers_ s = ws1 ++ p :: ws2 -> worker_step p s = Some (p', s') ->
    step LWorker s (set_workers (ws1 ++ p' :: ws2) s')
| step_append s t :
    mutex_free s -> step LAppend s (submit t s)
| step_notify_some s ws1 ws2 n :
    notifies s = S n -> workers_ s = ws1 ++ Waiting :: ws2 ->
    step LNotify s (set_notifies n (set_workers (ws1 ++ AtLock :: ws2) s))
| step_notify_none s n :
    notifies s = S n -> Forall (fun p => p <> Waiting) (workers_ s) ->
    step LNotify s (set_notifies n s)
| step_spurious s ws1 ws2 :
    workers_ s = ws1 ++ Waiting :: ws2 ->
    step LSpurious s (set_workers (ws1 ++ AtLock :: ws2) s)
| step_cancel s r : step LCancel s (set_cancelled ({[r]} ∪ cancelled_ s) s)
| step_shutdown s :
    control_ s = CIdle -> step LShutdown s (set_control true (CNotify false) s)
| step_shutdown_now s :
    control_ s = CIdle -> step LShutdownNow s (set_control true CClear s)
| step_drop s :
    control_ s = CClear -> mutex_free s -> step LDrop s (drop_queue s)
| step_notify_all s now :
    control_ s = CNotify now ->
    step LNotifyAll s
      (set_control (stop_ s) (CJoining now) (set_workers (wake <$> workers_ s) s))
| step_join s now :
    control_ s = CJoining now -> Forall (fun p => p = Exited) (workers_ s) ->
    step LJoin s (joined now (set_control (stop_ s) CDone (set_workers [] s))).

(** Runs whose labels are allowed. *)
Definition steps (allowed : label -> Prop) : Pool -> Pool -> Prop :=
  rtc (fun s s' => exists l, allowed l /\ step l s s').
Definition reachable (allowed : label -> Prop) (threads : nat) : Pool -> Prop :=
  steps allowed (Pool0 threads).
End pool.

Arguments Pool F : clear implicits.
Arguments phase F : clear implicits.

(** ** Invariants *)

Section invariants.
Context {F : Type}.
Implicit Types (s : Pool F) (ws : list (phase F)).

Definition running (ws : list (phase F)) : list (Task F) :=
  omap (fun p => match p with Running t => Some t | _ => None end) ws.

Lemma running_app ws1 ws2 : running (ws1 ++ ws2) = running ws1 ++ running ws2.
Proof. apply omap_app. Qed.

(** An invariant is shown by its first state and each label's step. *)
Lemma reachable_ind (allowed : label -> Prop) threads (P : Pool F -> Prop) :
  P (Pool0 threads) -> (forall l s s', allowed l -> step l s s' -> P s -> P s') ->
  forall s, reachable allowed threads s -> P s.
Proof.
  intros H0 Hs s Hr. unfold reachable, steps in Hr.
  refine (rtc_ind_r P (Pool0 threads) H0 _ s Hr).
  intros y z _ (l & Hl & Hst) Hy. by eapply Hs.
Qed.

(** Each task is queued, being executed, finished or dropped. *)
Definition conserved s : Prop :=
  submitted s ≡ₚ dropped s ++ finished s ++ running (workers_ s) ++ tasks_ s.

Lemma append_priority_perm (t : Task F) q : append_priority t q ≡ₚ t :: q.
Proof.
  unfold append_priority. case_decide; [|by rewrite Permutation_app_comm].
  destruct (move_high_spec q []) as (hs & rest & -> & -> & _).
  rewrite move_rest_spec, app_nil_l, <-app_assoc. simpl. by rewrite Permutation_middle.
Qed.

Lemma running_wake ws : running (wake <$> ws) = running ws.
Proof. unfold running. induction ws as [|[] ws IH]; simpl;
  first [done|exact IH|f_equal; exact IH]. Qed.

Lemma step_conserved l s s' : step l s s' -> conserved s -> conserved s'.
Proof.
  unfold conserved. destruct 1 as [s ws1 p ws2 p' s1 Hw Hp|s t Hf|s ws1 ws2 n Hn Hw| |s ws1 ws2 Hw
    | | | | |s now Hc|s now Hc Hex]; try done; intros Hs.
  - rewrite Hw in Hs. simpl. rewrite running_app in *. destruct p; simpl in Hp, Hs.
    + by case_bool_decide; simplify_eq.
    + destruct (tasks_ s) as [|t q] eqn:E; [destruct (stop_ s)|]; simplify_eq/=.
      * by rewrite E.
      * by rewrite E.
      * rewrite Hs, <-!app_assoc. simpl. by rewrite <-!Permutation_middle.
    + by simplify_eq/=.
    + done.
    + simplify_eq/=. rewrite Hs, <-!app_assoc. simpl. by rewrite <-!Permutation_middle.
    + done.
  - simpl. rewrite Hs, append_priority_perm. rewrite (Permutation_app_comm _ [t]). simpl.
    by rewrite <-!Permutation_middle.
  - rewrite Hw, running_app in Hs. simpl. by rewrite running_app.
  - rewrite Hw, running_app in Hs. simpl. by rewrite running_app.
  - simpl. rewrite Hs, app_nil_r. rewrite <-!app_assoc.
    f_equiv. rewrite !(app_assoc (finished s)). apply Permutation_app_comm.
  - simpl. by rewrite running_wake.
  - assert (running (workers_ s) = []) as Hr.
    { clear Hs. induction Hex as [|p ws -> _ IH]; [done|exact IH]. }
    rewrite Hr in Hs. by destruct now.
Qed.

(** A member that is not the new one was there. *)
Lemma elem_of_replaced (x p p' : phase F) ws1 ws2 :
  x ∈ ws1 ++ p' :: ws2 -> x <> p' -> x ∈ ws1 ++ p :: ws2.
Proof. rewrite !elem_of_app, !elem_of_cons. tauto. Qed.

(** Functions are only called for tasks that finish. *)
Lemma step_called l s s' : step l s s' -> called s ⊆+ finished s -> called s' ⊆+ finished s'.
Proof.
  destruct 1 as [s ws1 p ws2 p' s1 Hw Hp| | | | | | | | | |s now Hc Hex]; try done; intros Hs.
  - simpl. destruct p; simpl in Hp; repeat case_match; simplify_eq/=; try done.
    destruct (executes t s); [by apply submseteq_app|by apply submseteq_inserts_r].
  - by destruct now.
Qed.

(** After the first worker has left, the queue holds late tasks only. *)
Record draining (threads : nat) s : Prop := {
  dr_workers : control_ s <> CDone -> length (workers_ s) = threads;
  dr_control : control_ s <> CIdle -> stop_ s = true;
  dr_exited : Exited ∈ workers_ s \/ control_ s = CDone -> stop_ s = true /\ tasks_ s ⊆+ late s;
}.

(** A worker's step keeps the other members and at most takes tasks from the queue. *)
Record worker_frame (p' : phase F) s s1 : Prop := {
  wf_tasks : exists q, tasks_ s = q ++ tasks_ s1;
  wf_control : control_ s1 = control_ s;
  wf_stop : stop_ s1 = stop_ s;
  wf_late : late s1 = late s;
  wf_exited : p' = Exited -> stop_ s = true /\ tasks_ s1 = [];
}.

Lemma worker_step_frame p s p' s1 : worker_step p s = Some (p', s1) -> p <> Exited /\ worker_frame p' s s1.
Proof.
  intros Hp. destruct p; simpl in Hp; repeat case_match; simplify_eq/=; (split; [done|]);
    split; simpl; try done; first [by exists []|by eexists [_]|by eauto].
Qed.

Lemma draining_worker threads s ws1 p p' ws2 s1 :
  workers_ s = ws1 ++ p :: ws2 -> p <> Exited -> worker_frame p' s s1 ->
  draining threads s -> draining threads (set_workers (ws1 ++ p' :: ws2) s1).
Proof.
  intros Hw Hp [[q Hq] Ec Es El Hx] [Hlen Hctl Hex]. split; simpl; rewrite ?Ec, ?Es, ?El.
  - rewrite length_app. simpl. intros Hd. by rewrite <-(Hlen Hd), Hw, length_app.
  - done.
  - intros Hor. destruct p' eqn:E.
    6: { destruct (Hx eq_refl) as [-> ->]. split; [done|apply submseteq_nil_l]. }
    all: destruct Hex as [Hst Hsub];
      [destruct Hor as [[?|[?|?]%elem_of_cons]%elem_of_app|]; [left; rewrite Hw..|by right];
        try done; apply elem_of_app; rewrite elem_of_cons; auto|];
      (split; [done|]); rewrite <-Hsub, Hq; by apply submseteq_inserts_l.
Qed.

Lemma draining_same threads s s' :
  draining threads s -> control_ s' = control_ s -> stop_ s' = stop_ s -> late s' = late s ->
  tasks_ s' = tasks_ s -> length (workers_ s') = length (workers_ s) ->
  (Exited ∈ workers_ s' -> Exited ∈ workers_ s) -> draining threads s'.
Proof.
  intros [Hlen Hctl Hex] Ec Es El Et Ew Hx. split; rewrite ?Ec, ?Es, ?El, ?Et, ?Ew; try done.
  intros [?|?]; apply Hex; auto.
Qed.

Lemma exited_woken ws : Exited ∈ (wake <$> ws) -> Exited ∈ ws.
Proof. intros (p & Hp & Hin)%list_elem_of_fmap. by destruct p. Qed.

Lemma step_draining threads l s s' :
  (0 < threads)%nat -> step l s s' -> draining threads s -> draining threads s'.
Proof.
  intros Ht. destruct 1 as [s ws1 p ws2 p' s1 Hw Hp|s t Hf|s ws1 ws2 n Hn Hw|s n Hn Hw|s ws1 ws2 Hw
    |s r|s Hc|s Hc|s Hc Hf|s now Hc|s now Hc Hex]; intros Hd.
  - destruct (worker_step_frame _ _ _ _ Hp). by eapply draining_worker.
  - destruct Hd as [Hlen Hctl Hx]. split; simpl; [done|done|].
    intros Hor. destruct (Hx Hor) as [-> Hsub]. split; [done|].
    rewrite append_priority_perm, (Permutation_app_comm _ [t]). by apply submseteq_skip.
  - apply (draining_same _ s); try done; simpl; rewrite Hw.
    + by rewrite !length_app.
    + intros Hin. by eapply elem_of_replaced.
  - by apply (draining_same _ s).
  - apply (draining_same _ s); try done; simpl; rewrite Hw.
    + by rewrite !length_app.
    + intros Hin. by eapply elem_of_replaced.
  - by apply (draining_same _ s).
  - destruct Hd as [Hlen Hctl Hx]. split; simpl; [intros _; apply Hlen; by rewrite Hc|done|].
    intros [?|?]; [|done]. split; [done|]. apply Hx. by left.
  - destruct Hd as [Hlen Hctl Hx]. split; simpl; [intros _; apply Hlen; by rewrite Hc|done|].
    intros [?|?]; [|done]. split; [done|]. apply Hx. by left.
  - destruct Hd as [Hlen Hctl Hx]. split; simpl.
    + intros _. apply Hlen. by rewrite Hc.
    + intros _. apply Hctl. by rewrite Hc.
    + intros [?|?]; [|done]. split; [apply Hctl; by rewrite Hc|apply submseteq_nil_l].
  - destruct Hd as [Hlen Hctl Hx]. split; simpl.
    + intros _. rewrite length_fmap. apply Hlen. by rewrite Hc.
    + intros _. apply Hctl. by rewrite Hc.
    + intros [?%exited_woken|?]; [|done]. apply Hx. by left.
  - destruct Hd as [Hlen Hctl Hx].
    assert (stop_ s = true /\ tasks_ s ⊆+ late s) as [? ?].
    { apply Hx. left. rewrite Hc in Hlen. specialize (Hlen ltac:(done)).
      destruct (workers_ s) as [|p ws]; [simpl in Hlen; lia|].
      apply Forall_cons in Hex as [-> _]. left. }
    by destruct now; split.
Qed.

(** A queue with tasks is attended: a call of [notify_one] is due, or a worker is
    on its way to it. *)
Definition active (p : phase F) : Prop :=
  match p with AtLock | Locked | Running _ => True | _ => False end.

#[global] Instance active_dec p : Decision (active p).
Proof. destruct p; apply _. Defined.

Record attended s : Prop := {
  at_blocking : Blocking ∈ workers_ s -> tasks_ s = [];
  at_queue : tasks_ s <> [] ->
    (0 < notifies s)%nat \/ Exists active (workers_ s) \/ Forall (fun p => p = Exited) (workers_ s);
}.

Lemma attended_woken s ws1 ws2 n :
  workers_ s = ws1 ++ Waiting :: ws2 -> attended s ->
  attended (set_notifies n (set_workers (ws1 ++ AtLock :: ws2) s)).
Proof.
  intros Hw [Hb Hq]. split; simpl.
  - intros Hin. apply Hb. rewrite Hw. by eapply elem_of_replaced.
  - intros _. right. left. apply Exists_app. right. by left.
Qed.

Lemma attended_worker s ws1 p ws2 p' s1 :
  workers_ s = ws1 ++ p :: ws2 -> worker_step p s = Some (p', s1) ->
  attended s -> attended (set_workers (ws1 ++ p' :: ws2) s1).
Proof.
  intros Hw Hp [Hb Hq].
  assert (active p' \/ tasks_ s1 = []) as Hact.
  { destruct p; simpl in Hp; repeat case_match; simplify_eq/=; auto.
    right. apply Hb. rewrite Hw. apply elem_of_app. right. left. }
  destruct (worker_step_frame _ _ _ _ Hp) as [_ [[q Eq] _ _ _ _]]. split; simpl.
  - intros Hin. destruct (decide (tasks_ s1 = [])) as [|Hne]; [done|].
    destruct Hact as [Hact|]; [|done]. assert (tasks_ s = []) as Hnil.
    { apply Hb. rewrite Hw. eapply elem_of_replaced; [exact Hin|]. by intros <-. }
    rewrite Eq in Hnil. by apply app_eq_nil in Hnil as [_ ?].
  - intros Hne. right. left. apply Exists_app. right. left. by destruct Hact.
Qed.

Lemma step_attended l s s' : step l s s' -> attended s -> attended s'.
Proof.
  destruct 1 as [s ws1 p ws2 p' s1 Hw Hp|s t Hf|s ws1 ws2 n Hn Hw|s n Hn Hw|s ws1 ws2 Hw
    |s r|s Hc|s Hc|s Hc Hf|s now Hc|s now Hc Hex]; intros Ha.
  - by eapply attended_worker.
  - destruct Ha as [Hb Hq]. split; simpl; [|left; lia].
    intros Hin. unfold mutex_free in Hf. rewrite Forall_forall in Hf. by apply Hf in Hin.
  - by apply attended_woken.
  - destruct Ha as [Hb Hq]. split; simpl; [done|]. intros Hne. right.
    destruct (decide (Exists active (workers_ s))) as [|Hna]; [by left|right].
    apply not_Exists_Forall in Hna; [|apply _]. rewrite Forall_forall in *.
    intros p Hp. specialize (Hna p Hp). specialize (Hw p Hp).
    destruct p; simpl in *; try done; try (by destruct Hna). destruct Hne. by apply Hb.
  - by apply (attended_woken s ws1 ws2 (notifies s)).
  - by destruct Ha.
  - by destruct Ha.
  - by destruct Ha.
  - by split.
  - destruct Ha as [Hb Hq]. split; simpl.
    + intros (p & Hp & Hin)%list_elem_of_fmap. destruct p; try done. auto.
    + intros Hne. destruct (Hq Hne) as [?|[Hex|Hall]]; [by left|right; left|right; right].
      * apply Exists_fmap. eapply Exists_impl; [exact Hex|]. by intros [].
      * apply Forall_fmap. eapply Forall_impl; [exact Hall|]. by intros ? ->.
  - destruct now; split; simpl; try (intros Hin; by apply not_elem_of_nil in Hin); right; by right.
Qed.

(** Without [shutdown_now] nothing is dropped. *)
Lemma step_keeps_queue l s s' :
  l <> LShutdownNow -> step l s s' -> control_ s <> CClear /\ dropped s = [] ->
  control_ s' <> CClear /\ dropped s' = [].
Proof.
  intros Hl. destruct 1 as [s ws1 p ws2 p' s1 Hw Hp| | | | | | | |s Hc| |s now]; intros [H1 H2];
    try done; try (by destruct now).
  simpl. destruct p; simpl in Hp; repeat case_match; by simplify_eq/=.
Qed.

Lemma running_exited ws : Forall (fun p => p = Exited) ws -> running ws = [].
Proof. induction 1 as [|p ws -> _ IH]; [done|exact IH]. Qed.

(** The workers are gone once the shutdown is over. *)
Lemma step_done_workers l s s' :
  step l s s' -> (control_ s = CDone -> workers_ s = []) -> control_ s' = CDone -> workers_ s' = [].
Proof.
  destruct 1 as [s ws1 p ws2 p' s1 Hw Hp|s t Hf|s ws1 ws2 n Hn Hw|s n Hn Hw|s ws1 ws2 Hw
    |s r|s Hc|s Hc|s Hc Hf|s now Hc|s now Hc Hex]; intros Hd; simpl; try done; intros Hc'.
  1: destruct (worker_step_frame _ _ _ _ Hp) as [_ [_ Ec _ _ _]]; rewrite Ec in Hc'.
  1-3: specialize (Hd Hc'); rewrite Hw in Hd; by destruct ws1.
  by destruct now.
Qed.
End invariants.

(** C21: At any time every task ever appended is exactly one of queued, being
    executed, finished or dropped, and functions are called for finished tasks only,
    at most once each.  When [shutdown] returns (and [shutdown_now] was not used),
    all tasks are finished except some of those appended after [stop_] was set,
    which stay in the queue for ever. *)
Theorem pool_shutdown_drains {F : Type} (allowed : label -> Prop) threads (s : Pool F) :
  reachable allowed threads s ->
  conserved s /\ called s ⊆+ finished s /\
  ((0 < threads)%nat -> ~ allowed LShutdownNow -> control_ s = CDone ->
   submitted s ≡ₚ finished s ++ tasks_ s /\ tasks_ s ⊆+ late s).
Proof.
  intros Hr. assert (conserved s) as Hc.
  { revert s Hr. apply reachable_ind; [|eauto using step_conserved].
    unfold conserved. simpl. enough (running (F := F) (replicate threads AtLock) = []) as -> by done.
    induction threads; [done|assumption]. }
  split_and!; [done| |].
  { revert s Hr Hc. intros s Hr _. revert s Hr. apply reachable_ind; [done|eauto using step_called]. }
  intros Ht Hn Hd.
  assert (draining threads s) as Hdr.
  { clear Hc Hd. revert s Hr. apply reachable_ind; [|eauto using step_draining].
    split; simpl; [by rewrite length_replicate|done|].
    intros [[? _]%elem_of_replicate|?]; done. }
  assert (control_ s <> CClear /\ dropped s = []) as [_ Hdrop].
  { clear Hc Hd Hdr. revert s Hr. apply reachable_ind; [done|].
    intros l s s' Hl. apply step_keeps_queue. by intros ->. }
  assert (workers_ s = []) as Hw.
  { clear Hc Hdr Hdrop. revert s Hr Hd. apply (reachable_ind _ _ (fun s => control_ s = CDone -> _));
      [done|eauto using step_done_workers]. }
  unfold conserved in Hc. rewrite Hdrop, Hw in Hc. split; [exact Hc|]. by apply Hdr; right.
Qed.

(** No task is left behind by the condition variable: whenever the queue is not
    empty and some worker has not left, a worker or a due [notify_one] can make a step. *)
Theorem pool_queue_attended {F : Type} (allowed : label -> Prop) threads (s : Pool F) :
  reachable allowed threads s -> tasks_ s <> [] -> Exists (fun p => p <> Exited) (workers_ s) ->
  exists l s', (l = LWorker \/ l = LNotify) /\ step l s s'.
Proof.
  intros Hr Hq Hw.
  assert (attended s) as [_ Hat].
  { clear Hq Hw. revert s Hr. apply reachable_ind; [by split|eauto using step_attended]. }
  assert (forall p, p ∈ workers_ s -> is_Some (worker_step p s) -> exists s', step LWorker s s') as Hstep.
  { intros p (ws1 & ws2 & E)%list_elem_of_split [[p' s1] Hp]. eexists. by eapply step_worker. }
  destruct (Hat Hq) as [Hn|[Hact|Hall]].
  - destruct (notifies s) as [|n] eqn:En; [lia|].
    destruct (decide (Exists (fun p => is_waiting p = true) (workers_ s)))
      as [Hex|Hno].
    + apply Exists_exists in Hex as (p & Hin & Hp). destruct p; try done.
      apply list_elem_of_split in Hin as (ws1 & ws2 & E).
      exists LNotify. eexists. split; [by right|]. by eapply step_notify_some.
    + exists LNotify. eexists. split; [by right|]. apply step_notify_none; [done|].
      apply Forall_forall. intros p Hp ->. apply Hno, Exists_exists. by exists Waiting.
  - assert (exists s', step LWorker s s') as [s' Hs']; [|exists LWorker, s'; auto].
    destruct (decide (mutex_free s)) as [Hf|Hf].
    + apply Exists_exists in Hact as (p & Hin & Hp). apply (Hstep p Hin).
      destruct p; simpl in *; try done.
      * by rewrite bool_decide_true.
      * repeat case_match; by eexists.
    + apply not_Forall_Exists in Hf; [|apply _].
      apply Exists_exists in Hf as (p & Hin & Hp). apply (Hstep p Hin).
      destruct p; simpl in *; try done. repeat case_match; by eexists.
  - apply Exists_exists in Hw as (p & Hin & Hp). rewrite Forall_forall in Hall. by destruct Hp; apply Hall.
Qed.

(** A worker between its test of the predicate and its wait, when [shutdown] sets
    [stop_] and notifies. *)
Definition hung {F : Type} (s : Pool F) : Prop :=
  control_ s = CJoining false /\ workers_ s = [Waiting] /\ notifies s = 0%nat.

(** [shutdown] can hang: it sets [stop_] and notifies without the mutex, so both
    can fall between a worker's test of the predicate and its wait.  From the state
    reached, without new tasks and spurious wake-ups, no run ever gets it back. *)
Theorem pool_shutdown_can_hang {F : Type} :
  exists s : Pool F,
    reachable (fun l => l = LWorker \/ l = LShutdown \/ l = LNotifyAll) 1 s /\ hung s /\
    forall s', steps (fun l => l <> LAppend /\ l <> LSpurious) s s' -> control_ s' <> CDone.
Proof.
  pose (s1 := set_workers [Locked] (Pool0 (F := F) 1)).
  pose (s2 := set_workers [Blocking] s1).
  pose (s3 := set_control true (CNotify false) s2).
  pose (s4 := set_control true (CJoining false) (set_workers [Blocking] s3)).
  pose (s5 := set_workers [Waiting] s4).
  exists s5. split_and!; [|done|].
  - eapply rtc_l; [exists LWorker; split; [auto|]; by apply (step_worker _ [] AtLock [] Locked)|].
    eapply rtc_l; [exists LWorker; split; [auto|]; by apply (step_worker s1 [] Locked [] Blocking)|].
    eapply rtc_l; [exists LShutdown; split; [auto|]; by apply (step_shutdown s2)|].
    eapply rtc_l; [exists LNotifyAll; split; [auto|]; by apply (step_notify_all s3)|].
    eapply rtc_l; [exists LWorker; split; [auto|]; by apply (step_worker s4 [] Blocking [] Waiting)|].
    apply rtc_refl.
  - intros s' Hs. enough (hung s') as [-> _] by done.
    assert (hung s5) as Hh by done. induction Hs as [|x y z (l & [Ha Hsp] & Hst) _ IH]; [done|].
    apply IH. destruct Hh as (Hc & Hw & Hn). clear IH. destruct Hst; try congruence; try done.
    + rewrite Hw in H. destruct ws1 as [|q ws1]; [|by destruct ws1].
      simplify_eq/=.
    + rewrite Hw in H0. by apply Forall_cons in H0 as [? _].
Qed.

(** ** Schedules: an executable form of runs *)

Section schedules.
Context {F : Type}.

(** Which thread moves; workers by index. *)
Inductive move := MWorker (i : nat) | MAppend (t : Task F) | MShutdown | MNotifyAll | MJoin.

Definition all_exited (ws : list (phase F)) : bool :=
  forallb (fun p => match p with Exited => true | _ => false end) ws.

Definition play_move (m : move) (s : Pool F) : option (Pool F) :=
  match m with
  | MWorker i =>
      match drop i (workers_ s) with
      | p :: ws2 =>
          match worker_step p s with
          | Some (p', s1) => Some (set_workers (take i (workers_ s) ++ p' :: ws2) s1)
          | None => None
          end
      | [] => None
      end
  | MAppend t => if bool_decide (mutex_free s) then Some (submit t s) else None
  | MShutdown =>
      match control_ s with CIdle => Some (set_control true (CNotify false) s) | _ => None end
  | MNotifyAll =>
      match control_ s with
      | CNotify now =>
          Some (set_control (stop_ s) (CJoining now) (set_workers (wake <$> workers_ s) s))
      | _ => None
      end
  | MJoin =>
      match control_ s with
      | CJoining now =>
          if all_exited (workers_ s)
          then Some (joined now (set_control (stop_ s) CDone (set_workers [] s))) else None
      | _ => None
      end
  end.

Fixpoint play (ms : list move) (s : Pool F) : option (Pool F) :=
  match ms with
  | [] => Some s
  | m :: ms' => match play_move m s with Some s' => play ms' s' | None => None end
  end.

Lemma all_exited_spec ws : all_exited ws = true -> Forall (fun p => p = Exited) ws.
Proof.
  induction ws as [|p ws IH]; simpl; [done|]. intros [Hp Hws]%andb_true_iff.
  constructor; [by destruct p|auto].
Qed.

Lemma play_move_step m s s' :
  play_move m s = Some s' ->
  exists l, l <> LShutdownNow /\ l <> LSpurious /\ step l s s'.
Proof.
  destruct m as [i|t| | |]; simpl.
  - destruct (drop i (workers_ s)) as [|p ws2] eqn:E; [done|].
    destruct (worker_step p s) as [[p' s1]|] eqn:Hp; [|done]. intros [= <-].
    exists LWorker. split_and!; [done..|]. eapply step_worker; [|done].
    by rewrite <-E, take_drop.
  - case_bool_decide; [|done]. intros [= <-]. exists LAppend. by repeat split; try constructor.
  - destruct (control_ s) eqn:E; try done. intros [= <-]. exists LShutdown.
    by repeat split; try constructor.
  - destruct (control_ s) eqn:E; try done. intros [= <-]. exists LNotifyAll.
    by repeat split; try constructor.
  - destruct (control_ s) eqn:E; try done. destruct (all_exited (workers_ s)) eqn:Hx; [|done].
    intros [= <-]. exists LJoin. split_and!; [done..|].
    apply step_join; [done|by apply all_exited_spec].
Qed.

Lemma play_reachable ms threads s :
  play ms (Pool0 threads) = Some s ->
  reachable (fun l => l <> LShutdownNow /\ l <> LSpurious) threads s.
Proof.
  unfold reachable, steps. generalize (@Pool0 F threads). induction ms as [|m ms IH]; intros s0; simpl.
  - intros [= <-]. apply rtc_refl.
  - destruct (play_move m s0) as [s1|] eqn:E; [|done]. intros Hs.
    apply play_move_step in E as (l & H1 & H2 & Hst).
    eapply rtc_l; [exists l; split; [split; done|done]|by apply IH].
Qed.
End schedules.

(** One worker; a task before the shutdown and one after its end. *)
Definition first_task : Task unit := {| ref_ := 1; func_ := Some tt; priority_ := NORMAL |}.
Definition late_task : Task unit := {| ref_ := 2; func_ := Some tt; priority_ := HIGH |}.
Definition sample_moves : list move :=
  [MAppend first_task; MWorker 0; MShutdown; MWorker 0; MNotifyAll; MWorker 0; MWorker 0;
   MWorker 0; MJoin; MAppend late_task].
Definition sample_pool : Pool unit :=
  match play sample_moves (Pool0 1) with Some s => s | None => Pool0 1 end.

Lemma sample_pool_reachable :
  reachable (fun l => l <> LShutdownNow /\ l <> LSpurious) 1 sample_pool.
Proof. apply (play_reachable sample_moves). vm_compute. reflexivity. Qed.

Lemma pool_shutdown_drains_witness :
  control_ sample_pool = CDone /\ finished sample_pool = [first_task] /\
  tasks_ sample_pool = [late_task] /\ tasks_ sample_pool ⊆+ late sample_pool.
Proof.
  split_and!; [vm_compute; reflexivity..|].
  apply (pool_shutdown_drains _ 1 sample_pool sample_pool_reachable);
    [lia|by intros [? _]|vm_compute; reflexivity].
Defined.

Lemma pool_queue_attended_witness :
  exists s, play [MAppend first_task] (Pool0 1) = Some s /\
    exists l s', (l = LWorker \/ l = LNotify) /\ step l s s'.
Proof.
  eexists. split; [reflexivity|].
  eapply (pool_queue_attended _ 1).
  - apply (play_reachable [MAppend first_task]). reflexivity.
  - discriminate.
  - left. discriminate.
Defined.
