(* ===== verification/PoolProgress.v ===== *)
(** * The pool makes progress (core/threadpool)

    How long the workers of [ThreadPool] can go on without new tasks, where they stop, and
    when [shutdown] returns.  Everything here is about the steps of [ThreadPool.step]. *)

From S2P Require Import Prelude ThreadPool.

Section progress.
Context {F : Type}.
Implicit Types (s : Pool F) (l : label).

(** ** The work left *)

(** What a worker in a phase, a queued task and a due [notify_one] can still cause, each
    counted in steps. *)
Definition steps_left (p : phase F) : nat :=
  match p with Running _ => 4 | AtLock => 3 | Locked => 2 | Blocking => 1 | Waiting | Exited => 0 end.
Definition work s : nat :=
  5 * length (tasks_ s) + 4 * notifies s + sum_list_with steps_left (workers_ s).

(** The steps of the workers, wake-ups included; [LSpurious] is one that nobody caused. *)
Definition own l : Prop := l = LWorker \/ l = LNotify \/ l = LSpurious.
Definition spurious l : bool := match l with LSpurious => true | _ => false end.

(** Runs with the labels of their steps. *)
Inductive trace : list label -> Pool F -> Pool F -> Prop :=
| trace_nil s : trace [] s s
| trace_cons l ls s s1 s2 : step l s s1 -> trace ls s1 s2 -> trace (l :: ls) s s2.

Lemma worker_work s ws1 p ws2 p' s1 :
  workers_ s = ws1 ++ p :: ws2 -> worker_step p s = Some (p', s1) ->
  (work (set_workers (ws1 ++ p' :: ws2) s1) < work s)%nat.
Proof.
  intros Hw Hp. unfold work. rewrite Hw. cbn [workers_ set_workers tasks_ notifies].
  rewrite !sum_list_with_app. cbn.
  destruct p; cbn in Hp; repeat case_match; simplify_eq/=; 
    try (match goal with H : tasks_ _ = [] |- _ => rewrite H end); cbn; lia.
Qed.

Lemma step_work l s s' :
  own l -> step l s s' ->
  if spurious l then work s' = (work s + 3)%nat else (work s' < work s)%nat.
Proof.
  intros Hl Hst. destruct Hst as [s ws1 p ws2 p' s1 Hw Hp| |s ws1 ws2 n Hn Hw|s n Hn Hw|s ws1 ws2 Hw
    | | | | | |]; try (by destruct Hl as [|[|]]); cbn [spurious].
  - by eapply worker_work.
  - unfold work. cbn [set_notifies set_workers tasks_ notifies workers_]. rewrite Hn, Hw.
    rewrite !sum_list_with_app. cbn. lia.
  - unfold work. cbn [set_notifies tasks_ notifies workers_]. rewrite Hn. lia.
  - unfold work. cbn [set_workers tasks_ notifies workers_]. rewrite Hw.
    rewrite !sum_list_with_app. cbn. lia.
Qed.

Lemma trace_work ls s s' :
  Forall own ls -> trace ls s s' ->
  (length (filter (fun l => spurious l = false) ls) + work s' <=
   work s + 3 * length (filter (fun l => spurious l = true) ls))%nat.
Proof.
  intros Hls Hs. induction Hs as [|l ls s s1 s2 Hst _ IH]; [cbn; lia|].
  apply Forall_cons in Hls as [Hl Hls]. specialize (IH Hls). pose proof (step_work _ _ _ Hl Hst) as Hw.
  rewrite !filter_cons. destruct (spurious l); repeat case_decide; try congruence; cbn [length]; lia.
Qed.

(** ** Where the workers stop *)

(** No worker has a step and no wake-up is due. *)
Definition at_rest s : Prop := forall l s', l = LWorker \/ l = LNotify -> ~ step l s s'.

Lemma worker_enabled s p :
  p ∈ workers_ s -> is_Some (worker_step p s) -> exists s', step LWorker s s'.
Proof. intros (ws1 & ws2 & E)%list_elem_of_split [[p' s1] Hp]. eexists. by eapply step_worker. Qed.

Lemma notify_enabled s n : notifies s = S n -> exists s', step LNotify s s'.
Proof.
  intros Hn. destruct (decide (Exists (fun p => is_waiting p = true) (workers_ s))) as [Hex|Hno].
  - apply Exists_exists in Hex as (p & (ws1 & ws2 & E)%list_elem_of_split & Hp).
    destruct p; try done. eexists. by eapply step_notify_some.
  - eexists. apply (step_notify_none _ n Hn). apply Forall_forall. intros p Hp ->.
    by apply Hno, Exists_exists; exists Waiting.
Qed.

(** A step is possible, or the pool is at rest. *)
Lemma rest_or_step s : at_rest s \/ exists l s', (l = LWorker \/ l = LNotify) /\ step l s s'.
Proof.
  destruct (decide (Exists (fun p => is_Some (worker_step p s)) (workers_ s))) as [Hex|Hno].
  { right. apply Exists_exists in Hex as (p & Hp & Hs). destruct (worker_enabled s p Hp Hs) as [s' Hs'].
    exists LWorker, s'. by auto. }
  destruct (notifies s) as [|n] eqn:Hn.
  2: { right. destruct (notify_enabled s n Hn) as [s' Hs']. exists LNotify, s'. by auto. }
  left. intros l s' Hl Hst. destruct Hst as [s ws1 p ws2 p' s1 Hw Hp| | | | | | | | | |];
    try (by destruct Hl as [?|?]); try congruence.
  apply Hno, Exists_exists. exists p. split; [|by eexists]. rewrite Hw. set_solver.
Qed.

(** The workers come to rest, by steps of their own. *)
Lemma comes_to_rest s :
  exists ls s', Forall (fun l => l = LWorker \/ l = LNotify) ls /\ trace ls s s' /\ at_rest s'.
Proof.
  remember (work s) as n eqn:En. revert s En. induction (lt_wf n) as [n _ IH]. intros s ->.
  destruct (rest_or_step s) as [Hr|(l & s1 & Hl & Hst)]; [exists [], s; split_and!; [done|constructor|done]|].
  destruct (IH (work s1)) with (s := s1) as (ls & s' & Hls & Ht & Hr); [|done|].
  { pose proof (step_work l s s1 ltac:(unfold own; tauto) Hst) as Hw. by destruct Hl as [-> | ->]. }
  exists (l :: ls), s'. split_and!; [by constructor|by econstructor|done].
Qed.

(** The steps of the workers neither add nor drop a task. *)
Lemma own_frame l s s' :
  own l -> step l s s' ->
  submitted s' = submitted s /\ dropped s' = dropped s /\ stop_ s' = stop_ s /\
  control_ s' = control_ s.
Proof.
  intros Hl Hst. destruct Hst as [s ws1 p ws2 p' s1 Hw Hp| | | | | | | | | |];
    try (by destruct Hl as [|[|]]); try done.
  destruct p; cbn in Hp; repeat case_match; by simplify_eq/=.
Qed.

Lemma trace_frame ls s s' :
  Forall own ls -> trace ls s s' ->
  submitted s' = submitted s /\ dropped s' = dropped s /\ stop_ s' = stop_ s /\
  control_ s' = control_ s.
Proof.
  intros Hls Hs. induction Hs as [|l ls s s1 s2 Hst _ IH]; [done|].
  apply Forall_cons in Hls as [Hl Hls]. destruct (own_frame _ _ _ Hl Hst) as (<- & <- & <- & <-).
  by apply IH.
Qed.

Lemma trace_reachable allowed threads ls s s' :
  reachable allowed threads s -> trace ls s s' -> reachable (fun _ => True) threads s'.
Proof.
  intros Hr Hs. assert (reachable (fun _ => True) threads s) as Hr'.
  { clear -Hr. unfold reachable, steps in *. generalize dependent (@Pool0 F threads). intros s0 Hr.
    induction Hr as [|x y z (l & _ & Hst) _ IH]; [apply rtc_refl|].
    eapply rtc_l; [by exists l|done]. }
  clear Hr. induction Hs as [|l ls s s1 s2 Hst _ IH]; [done|].
  apply IH. unfold reachable, steps in *. eapply rtc_r; [done|by exists l].
Qed.

(** At rest every worker waits or has left. *)
Lemma rest_idle s : at_rest s -> Forall (fun p => p = Waiting \/ p = Exited) (workers_ s).
Proof.
  intros Hr. assert (forall p, p ∈ workers_ s -> worker_step p s = None) as Hn.
  { intros p Hp. destruct (worker_step p s) as [x|] eqn:E; [|done].
    destruct (worker_enabled s p Hp) as [s' Hs']; [by eexists|]. exfalso. by eapply Hr; [left|]. }
  assert (mutex_free s) as Hf.
  { apply Forall_forall. intros p Hp. specialize (Hn p Hp). destruct p; try done; cbn in Hn;
      by repeat case_match. }
  apply Forall_forall. intros p Hp. specialize (Hn p Hp). destruct p; cbn in Hn; auto;
    try (by repeat case_match). by rewrite bool_decide_true in Hn.
Qed.

Lemma idle_running (ws : list (phase F)) :
  Forall (fun p => p = Waiting \/ p = Exited) ws -> running ws = [].
Proof. induction 1 as [|p ws [-> | ->] _ IH]; done. Qed.

Lemma rest_drained threads s :
  reachable (fun _ => True) threads s -> at_rest s -> Exists (fun p => p <> Exited) (workers_ s) ->
  tasks_ s = [].
Proof.
  intros Hr Hs Hw. destruct (decide (tasks_ s = [])) as [|Hne]; [done|].
  destruct (pool_queue_attended _ threads s Hr Hne Hw) as (l & s' & Hl & Hst). by destruct (Hs l s').
Qed.

(** Before a shutdown no worker leaves. *)
Lemma idle_stop allowed threads s :
  reachable allowed threads s -> control_ s = CIdle -> stop_ s = false.
Proof.
  revert s. apply (reachable_ind allowed threads (fun s => control_ s = CIdle -> stop_ s = false)); [done|].
  intros l s s' _ Hst IH. destruct Hst as [s ws1 p ws2 p' s1 Hw Hp| | | | | | | | | |s now Hc Hex]; try done.
  - apply worker_step_frame in Hp as [_ Hf]. cbn. by rewrite (wf_control _ _ _ Hf), (wf_stop _ _ _ Hf).
  - by destruct now.
Qed.

Lemma reachable_draining allowed threads s :
  (0 < threads)%nat -> reachable allowed threads s -> draining threads s.
Proof.
  intros Ht. revert s. apply reachable_ind; [|eauto using step_draining].
  split; cbn; [by rewrite length_replicate|done|]. by intros [[? _]%elem_of_replicate|?].
Qed.

Lemma idle_staffed allowed threads s :
  (0 < threads)%nat -> reachable allowed threads s -> control_ s = CIdle ->
  Exists (fun p => p <> Exited) (workers_ s).
Proof.
  intros Ht Hr Hc. pose proof (idle_stop _ _ _ Hr Hc) as Hs.
  destruct (reachable_draining _ _ _ Ht Hr) as [Hlen _ Hx]. rewrite Hc in *.
  destruct (workers_ s) as [|p ws] eqn:E; [cbn in Hlen; specialize (Hlen ltac:(done)); lia|].
  left. intros ->. destruct Hx as [? _]; [left; left|congruence].
Qed.

(** ** The end of [shutdown] *)

(** [stop_] is set and nobody can miss it: no worker sleeps or is about to. *)
Definition noticed s : Prop :=
  stop_ s = true /\ Forall (fun p => p <> Waiting /\ p <> Blocking) (workers_ s).

Lemma own_noticed l s s' : own l -> step l s s' -> noticed s -> noticed s'.
Proof.
  intros Hl Hst. assert (forall p ws1 p' ws2, Forall (fun p : phase F => p <> Waiting /\ p <> Blocking)
    (ws1 ++ p :: ws2) -> p' <> Waiting -> p' <> Blocking ->
    Forall (fun p => p <> Waiting /\ p <> Blocking) (ws1 ++ p' :: ws2)) as Hrep.
  { intros p ws1 p' ws2 [H1 H2]%Forall_app ? ?. apply Forall_cons in H2 as [_ H2].
    apply Forall_app. split; [done|]. by constructor. }
  destruct Hst as [s ws1 p ws2 p' s1 Hw Hp| | | | | | | | | |]; try (by destruct Hl as [|[|]]);
    intros [Hs Hf]; try done.
  - rewrite Hw in Hf. apply (worker_step_frame p s p' s1) in Hp as Hfr. destruct Hfr as [_ Hfr].
    split; cbn; [by rewrite (wf_stop _ _ _ Hfr)|]. eapply Hrep; [exact Hf|..];
      destruct p; cbn in Hp; repeat case_match; simplify_eq/=; try done;
      apply Forall_app in Hf as [_ Hf]; apply Forall_cons in Hf as [[] _]; done.
  - rewrite H0 in Hf. split; cbn; [done|]. by eapply Hrep.
  - rewrite H in Hf. split; cbn; [done|]. by eapply Hrep.
Qed.

Lemma trace_noticed ls s s' : Forall own ls -> trace ls s s' -> noticed s -> noticed s'.
Proof.
  intros Hls Hs. induction Hs as [|l ls s s1 s2 Hst _ IH]; [done|].
  apply Forall_cons in Hls as [Hl Hls]. intros Hn. apply IH; [done|]. by eapply own_noticed.
Qed.

Lemma noticed_exited s : at_rest s -> noticed s -> Forall (fun p => p = Exited) (workers_ s).
Proof.
  intros Hr [_ Hf]. pose proof (rest_idle s Hr) as Hi. rewrite Forall_forall in *.
  intros p Hp. destruct (Hi p Hp) as [->|]; [|done]. by destruct (Hf _ Hp).
Qed.

Lemma notify_all_noticed s now :
  stop_ s = true -> Blocking ∉ workers_ s ->
  noticed (set_control (stop_ s) (CJoining now) (set_workers (wake <$> workers_ s) s)).
Proof.
  intros Hs Hb. split; [done|]. cbn. apply Forall_fmap, Forall_forall. intros p Hp. cbn.
  split; destruct p; try done.
Qed.

(** A worker that sleeps through [notify_all] is never woken by a step that is neither an
    append nor a spurious wake-up. *)
Definition overslept s : Prop :=
  (exists now, control_ s = CJoining now) /\ Waiting ∈ workers_ s /\ notifies s = 0%nat.

Lemma overslept_step l s s' :
  l <> LAppend -> l <> LSpurious -> step l s s' -> overslept s -> overslept s'.
Proof.
  intros Ha Hs Hst ([now Hc] & Hw & Hn).
  destruct Hst as [s ws1 p ws2 p' s1 Ew Hp|s t Hf|s ws1 ws2 n En Ew|s n En Ew|s ws1 ws2 Ew
    |s r|s Ec|s Ec|s Ec Hf|s now' Ec|s now' Ec Hex]; try done; try congruence.
  - destruct (worker_step_frame _ _ _ _ Hp) as [_ Hf]. split_and!; cbn.
    + exists now. by rewrite (wf_control _ _ _ Hf).
    + rewrite Ew in Hw. rewrite elem_of_app, elem_of_cons in *.
      destruct Hw as [?|[<-|?]]; [by left|done|by right; right].
    + destruct p; cbn in Hp; repeat case_match; by simplify_eq/=.
  - split_and!; [by exists now|done|done].
  - exfalso. rewrite Forall_forall in Hex. by specialize (Hex _ Hw).
Qed.
End progress.

(** C5: Progress of the pool without new tasks.  The workers can make only so many steps,
    counted by the tasks queued, the notifications due and the phases they are in, plus three
    for each spurious wake-up; they do come to rest; and when they are at rest and some worker
    has not left, the queue is empty, nothing is being executed, and every task is finished,
    or was dropped by [shutdown_now].  [shutdown] then returns, with every worker gone, if no
    worker was between its test of the predicate and its wait when [notify_all] was called;
    if one was, [shutdown] may wait for ever. *)
Theorem pool_progress {F : Type} (allowed : label -> Prop) threads (s : Pool F) :
  reachable allowed threads s ->
  (forall ls s', Forall own ls -> trace ls s s' ->
     (length (filter (fun l => spurious l = false) ls) <=
      work s + 3 * length (filter (fun l => spurious l = true) ls))%nat /\
     (at_rest s' -> Exists (fun p => p <> Exited) (workers_ s') ->
        tasks_ s' = [] /\ running (workers_ s') = [] /\ submitted s ≡ₚ dropped s ++ finished s')) /\
  (exists ls s', Forall own ls /\ trace ls s s' /\ at_rest s') /\
  (forall now, control_ s = CNotify now -> stop_ s = true -> Blocking ∉ workers_ s ->
     forall s1 ls s', step LNotifyAll s s1 -> Forall own ls -> trace ls s1 s' -> at_rest s' ->
       exists s2, step LJoin s' s2 /\ control_ s2 = CDone) /\
  exists s0 : Pool F, reachable (fun l => l = LWorker \/ l = LShutdown \/ l = LNotifyAll) 1 s0 /\
    hung s0 /\ forall s', steps (fun l => l <> LAppend /\ l <> LSpurious) s0 s' -> control_ s' <> CDone.
Proof.
  intros Hr. split_and!; [|..|exact pool_shutdown_can_hang].
  - intros ls s' Hls Ht. split; [pose proof (trace_work _ _ _ Hls Ht); lia|]. intros Hrest Hex.
    pose proof (trace_reachable _ _ _ _ _ Hr Ht) as Hr'.
    assert (tasks_ s' = []) as Hq by by eapply rest_drained.
    pose proof (idle_running _ (rest_idle s' Hrest)) as Hrun.
    destruct (trace_frame _ _ _ Hls Ht) as (Es & Ed & _).
    destruct (pool_shutdown_drains _ _ _ Hr') as [Hc _]. unfold conserved in Hc.
    by rewrite Hq, Hrun, !app_nil_r, Es, Ed in Hc.
  - destruct (comes_to_rest s) as (ls & s' & Hls & Ht & Hrest). exists ls, s'. split_and!; [|done..].
    eapply Forall_impl; [exact Hls|]. unfold own. tauto.
  - intros now Hc Hst Hb s1 ls s' Hn Hls Ht Hrest. inversion Hn; subst.
    match goal with H : trace ls ?x s' |- _ => assert (noticed x /\ control_ x = CJoining now0) as [Hno Hcx] end.
    { split; [by apply notify_all_noticed|done]. }
    destruct (trace_frame _ _ _ Hls Ht) as (_ & _ & _ & Ec).
    pose proof (noticed_exited s' Hrest (trace_noticed _ _ _ Hls Ht Hno)) as Hex.
    eexists. split; [apply (step_join _ now0); [by rewrite Ec|done]|]. by destruct now0.
Qed.

(** One worker and one task: at most twelve steps, and the task is finished. *)
Lemma pool_progress_witness :
  exists s : Pool unit, play [MAppend first_task] (Pool0 1) = Some s /\ work s = 12%nat /\
    exists ls s', Forall own ls /\ trace ls s s' /\
      (length (filter (fun l => spurious l = false) ls) <=
       12 + 3 * length (filter (fun l => spurious l = true) ls))%nat /\
      (Exists (fun p => p <> Exited) (workers_ s') -> [first_task] ≡ₚ finished s').
Proof.
  eexists. split; [reflexivity|]. split; [reflexivity|].
  destruct (pool_progress _ 1 _ (play_reachable [MAppend first_task] 1 _ eq_refl))
    as (Hrun & (ls & s' & Hls & Ht & Hr) & _).
  exists ls, s'. split; [exact Hls|]. split; [exact Ht|].
  destruct (Hrun ls s' Hls Ht) as [Hn Hd]. split; [exact Hn|]. intros Hex. apply (Hd Hr Hex).
Defined.
