(* ===== verification/PlainPool.v ===== *)
(** * Pools of plain tasks (core/threadpool)

    A program that uses the pool only through [append] and [shutdown]: nobody holds a
    [TaskPtr], so that no task is cancelled or in front, and nothing is dropped. *)

From S2P Require Import Prelude ThreadPool.

Section plain_pool.
Context {F : Type}.

(** What happens to the pool apart from the appends. *)
Definition plain_label (l : label) : bool :=
  match l with LAppend | LCancel | LShutdownNow | LDrop => false | _ => true end.

(** The tasks [append] makes: with a function, and not in front. *)
Definition plain_task (t : Task F) : Prop := is_Some (func_ t) /\ ~ high t.

Record pool_ok (workers : nat) (p : Pool F) : Prop := {
  po_conserved : conserved p;
  po_called : called p = finished p;
  po_plain : Forall plain_task (submitted p);
  po_cancelled : cancelled_ p = ∅;
  po_dropped : control_ p <> CClear /\ dropped p = [];
  po_workers : (length (workers_ p) <= workers)%nat;
  po_order : workers = 1%nat -> submitted p = finished p ++ running (workers_ p) ++ tasks_ p;
}.

Lemma pool_ok_start workers : pool_ok workers (Pool0 workers).
Proof.
  assert (@running F (replicate workers AtLock) = []) as E by by induction workers.
  split; try done; unfold conserved; cbn -[running]; by rewrite ?E, ?length_replicate.
Qed.

Lemma append_ok workers r j p :
  mutex_free p -> pool_ok workers p -> pool_ok workers (append r j p).
Proof.
  intros Hf [H1 H2 H3 H4 H5 H6 H7]. split; try done.
  - eapply step_conserved; [by apply step_append|done].
  - apply list.Forall_app. split; [done|]. constructor; [|constructor]. split; [by eexists|].
    by intros [=].
  - intros Hw. unfold append, submit. cbn [submitted finished workers_ tasks_].
    unfold append_priority. rewrite decide_False by (by intros [=]).
    by rewrite (H7 Hw), <-!app_assoc.
Qed.

Lemma pool_ok_executes workers p t :
  pool_ok workers p -> t ∈ running (workers_ p) -> executes t p = true.
Proof.
  intros Hok Ht. assert (plain_task t) as [[j Hj] _].
  { pose proof (po_plain _ _ Hok) as Hp. rewrite Forall_forall in Hp. apply Hp.
    rewrite (po_conserved _ _ Hok), !elem_of_app. auto. }
  unfold executes. rewrite Hj, (po_cancelled _ _ Hok). by rewrite bool_decide_true by set_solver.
Qed.

(** What a step of a worker does to the lists. *)
Lemma worker_step_lists workers p ws1 ph ws2 ph' p1 :
  pool_ok workers p -> workers_ p = ws1 ++ ph :: ws2 -> worker_step ph p = Some (ph', p1) ->
  cancelled_ p1 = cancelled_ p /\ submitted p1 = submitted p /\
  finished p1 ++ running [ph'] ++ tasks_ p1 = finished p ++ running [ph] ++ tasks_ p /\
  exists new, finished p1 = finished p ++ new /\ called p1 = called p ++ new.
Proof.
  intros Hok Hw. destruct ph as [| | | |t|]; cbn; intros H; try done.
  - case_match; [|done]. simplify_eq. split_and!; [done..|]. exists []. by rewrite !app_nil_r.
  - destruct (tasks_ p) as [|t q] eqn:Eq; [destruct (stop_ p)|]; simplify_eq; cbn;
      rewrite ?Eq; (split_and!; [done..|]); exists []; by rewrite !app_nil_r.
  - simplify_eq. split_and!; [done..|]. exists []. by rewrite !app_nil_r.
  - simplify_eq. cbn. rewrite (pool_ok_executes workers) by
      (done || rewrite Hw, running_app, elem_of_app; right; left).
    split_and!; [done|done|by rewrite <-app_assoc|by exists [t]].
Qed.

Lemma pool_ok_worker workers p ws1 ph ws2 ph' p1 :
  workers_ p = ws1 ++ ph :: ws2 -> worker_step ph p = Some (ph', p1) -> pool_ok workers p ->
  pool_ok workers (set_workers (ws1 ++ ph' :: ws2) p1) /\ submitted p1 = submitted p /\
  exists new, called p1 = called p ++ new.
Proof.
  intros Hw Hs Hok.
  assert (step LWorker p (set_workers (ws1 ++ ph' :: ws2) p1)) as Hst by by eapply step_worker.
  destruct (worker_step_lists _ _ _ _ _ _ _ Hok Hw Hs) as (Ec & Es & El & new & Ef & Ecl).
  split; [|split; [done|by exists new]]. destruct Hok as [H1 H2 H3 H4 H5 H6 H7]. split; cbn.
  - by eapply step_conserved.
  - by rewrite Ef, Ecl, H2.
  - by rewrite Es.
  - by rewrite Ec.
  - by apply (step_keeps_queue LWorker p) in Hst.
  - rewrite Hw in H6. by rewrite length_app in *.
  - intros Hn. specialize (H7 Hn). rewrite Hw, length_app in H6. cbn in H6.
    destruct ws1; [|cbn in H6; lia]. destruct ws2; [|cbn in H6; lia].
    change (submitted p1 = finished p1 ++ running [ph'] ++ tasks_ p1). rewrite Es, El.
    by rewrite Hw in H7.
Qed.

(** A step that only moves sleeping workers. *)
Lemma pool_ok_workers workers p p' :
  pool_ok workers p -> conserved p' -> submitted p' = submitted p -> finished p' = finished p ->
  called p' = called p -> cancelled_ p' = cancelled_ p -> control_ p' <> CClear /\ dropped p' = [] ->
  tasks_ p' = tasks_ p -> (length (workers_ p') <= length (workers_ p))%nat ->
  running (workers_ p') = running (workers_ p) -> pool_ok workers p'.
Proof.
  intros [H1 H2 H3 H4 H5 H6 H7] Hc Es Ef Ecl Ecn Ed Et Hl Er. split; try congruence; try done.
  - lia.
  - rewrite Es, Ef, Et, Er. done.
Qed.

(** A step of the pool keeps what was appended, and only adds to what was called. *)
Lemma plain_step workers l p p' :
  plain_label l = true -> step l p p' ->
  pool_ok workers p ->
  pool_ok workers p' /\ submitted p' = submitted p /\ exists new, called p' = called p ++ new.
Proof.
  intros Hl Hst Hok.
  pose proof (step_conserved _ _ _ Hst (po_conserved _ _ Hok)) as Hc.
  assert (l <> LShutdownNow) as Hn by by intros ->.
  pose proof (step_keeps_queue _ _ _ Hn Hst (po_dropped _ _ Hok)) as Hd.
  destruct Hst as [s ws1 p ws2 p' s1 Hw Hp|s t Hf|s ws1 ws2 n Hs Hw|s n Hs Hw|s ws1 ws2 Hw
    |s r|s Hs|s Hs|s Hs Hf|s now Hs|s now Hs Hex].
  1: exact (pool_ok_worker workers s ws1 p ws2 p' s1 Hw Hp Hok).
  all: try done.
  all: (split; [|split; [try done; by destruct now|exists []; rewrite app_nil_r; try done; by destruct now]]);
    (apply (pool_ok_workers workers s); try done; try (by destruct now); cbn -[running]).
  - rewrite Hw, !length_app. done.
  - by rewrite Hw, !running_app.
  - rewrite Hw, !length_app. done.
  - by rewrite Hw, !running_app.
  - by rewrite length_fmap.
  - by rewrite running_wake.
  - destruct now; cbn; lia.
  - rewrite (running_exited (workers_ s)) by done. by destruct now.
Qed.

(** The functions of some tasks. *)
Definition jobs (ts : list (Task F)) : list F := omap func_ ts.

Lemma jobs_app ts us : jobs (ts ++ us) = jobs ts ++ jobs us.
Proof. apply omap_app. Qed.

#[global] Instance jobs_perm : Proper ((≡ₚ) ==> (≡ₚ)) jobs.
Proof. unfold jobs. solve_proper. Qed.

(** A worker's step ends the execution of its task, or none. *)
Lemma worker_step_called workers p ws1 ph ws2 ph' p1 :
  pool_ok workers p -> workers_ p = ws1 ++ ph :: ws2 -> worker_step ph p = Some (ph', p1) ->
  (called p1 = called p /\ running [ph] ⊆+ running [ph']) \/
  exists t, ph = Running t /\ running [ph'] = [] /\ called p1 = called p ++ [t].
Proof.
  intros Hok Hw Hp. destruct ph; cbn in Hp; repeat case_match; simplify_eq/=;
    try (left; split; [done|by try apply submseteq_nil_l]).
  right. exists t. rewrite (pool_ok_executes workers); [done|done|].
  rewrite Hw, running_app, elem_of_app. right. left.
Qed.

#[local] Instance jobs_submseteq : Proper (submseteq ==> submseteq) jobs.
Proof.
  intros ts us (vs & ->)%submseteq_Permutation. rewrite jobs_app. by apply submseteq_inserts_r.
Qed.

(** A function is called by the end of a task that was being executed. *)
Lemma plain_step_called workers l p p' :
  plain_label l = true -> step l p p' -> pool_ok workers p ->
  jobs (called p') ⊆+ jobs (called p) ++ jobs (running (workers_ p)).
Proof.
  intros Hl Hst Hok. destruct Hst as [s ws1 ph ws2 ph' s1 Hw Hp| | | | | | | | | |s now]; try done;
    try (destruct now); try (cbn; by apply submseteq_inserts_r).
  rewrite Hw, running_app, jobs_app. cbn [called set_workers].
  destruct (worker_step_called _ _ _ _ _ _ _ Hok Hw Hp) as [[-> _]|(t & -> & _ & ->)].
  - by apply submseteq_inserts_r.
  - change (running (Running t :: ws2)) with ([t] ++ running ws2). rewrite !jobs_app.
    apply submseteq_app; [done|]. apply submseteq_inserts_l. by apply submseteq_inserts_r.
Qed.

(** Nothing that was called or is being executed is forgotten. *)
Lemma plain_step_kept workers l p p' :
  plain_label l = true -> step l p p' -> pool_ok workers p ->
  jobs (called p) ++ jobs (running (workers_ p)) ⊆+ jobs (called p') ++ jobs (running (workers_ p')).
Proof.
  intros Hl Hst Hok. destruct Hst as [s ws1 ph ws2 ph' s1 Hw Hp| |s ws1 ws2 n Hn Hw| |s ws1 ws2 Hw
    | | | | |s now|s now Hc Hex]; try done.
  - cbn [called workers_ set_workers]. rewrite Hw, <-!jobs_app.
    change (ws1 ++ ph :: ws2) with (ws1 ++ [ph] ++ ws2). change (ws1 ++ ph' :: ws2) with (ws1 ++ [ph'] ++ ws2).
    rewrite !running_app. apply jobs_submseteq.
    destruct (worker_step_called _ _ _ _ _ _ _ Hok Hw Hp) as [[-> Hr]|(t & -> & -> & ->)].
    + by repeat apply submseteq_app.
    + rewrite <-app_assoc. apply submseteq_app; [done|]. cbn [app].
      change (running [Running t]) with [t]. by rewrite Permutation_middle.
  - cbn [called workers_ set_notifies set_workers]. by rewrite Hw, !running_app.
  - cbn [called workers_ set_workers]. by rewrite Hw, !running_app.
  - cbn [called workers_ set_control set_workers]. by rewrite running_wake.
  - rewrite running_exited by done. destruct now; cbn; by rewrite app_nil_r; apply submseteq_inserts_r.
Qed.

(** How the shutdown goes on. *)
Lemma plain_step_control l (p p' : Pool F) :
  plain_label l = true -> l <> LShutdown -> step l p p' ->
  control_ p' = control_ p \/ (exists now, control_ p = CNotify now /\ control_ p' = CJoining now) \/
  exists now, control_ p = CJoining now /\ control_ p' = CDone.
Proof.
  intros Hl Hn Hst. destruct Hst as [s ws1 ph ws2 ph' s1 Hw Hp| | | | | | | | |s now|s now]; try done; auto.
  - left. by destruct (worker_step_frame _ _ _ _ Hp) as [_ []].
  - right. left. by exists now.
  - right. right. exists now. by destruct now.
Qed.
End plain_pool.
