(* ===== verification/PoolTest.v ===== *)
(** * The test of the pool (test/threadpool_test.cpp)

    The whole program: [main] appends twenty tasks to a pool of four workers, waits until a
    counter that they increment has reached twenty, and shuts the pool down.  The pool is
    [ThreadPool]; the logging and the sleeps are left out. *)

From S2P Require Import Prelude ThreadPool PoolProgress PlainPool.

(** [ThreadPool pool(4)] and the bound of both loops. *)
Definition pool_threads : nat := 4.
Definition task_count : nat := 20.

(** Where [main] is: in the loop that appends, in the one that waits, in [shutdown], after
    it. *)
Inductive main_at := Appending | Polling | Stopping | Passed.

#[global] Instance main_at_eq_dec : EqDecision main_at.
Proof. solve_decision. Defined.

(** [t_counted] are the tasks that have incremented [counter]. *)
Record TestState := { t_pool : Pool nat; t_appended : nat; t_counted : list nat; t_main : main_at }.

Definition counter (t : TestState) : nat := length (t_counted t).

Definition test_start : TestState :=
  {| t_pool := Pool0 pool_threads; t_appended := 0; t_counted := []; t_main := Appending |}.

(** The task appended by turn [i] of the loop. *)
Definition task_of (i : nat) : Task nat :=
  {| ref_ := N.of_nat i; func_ := Some i; priority_ := NORMAL |}.

Definition append_next (t : TestState) : TestState :=
  let n := S (t_appended t) in
  {| t_pool := append (N.of_nat (t_appended t)) (t_appended t) (t_pool t); t_appended := n;
     t_counted := t_counted t;
     t_main := if (n <? task_count)%nat then Appending else Polling |}.

(** [counter.fetch_add(1)], in the middle of a task. *)
Definition count (i : nat) (t : TestState) : TestState :=
  {| t_pool := t_pool t; t_appended := t_appended t; t_counted := t_counted t ++ [i]; t_main := t_main t |}.

(** The loop is left and [shutdown] sets [stop_]. *)
Definition leave_loop (t : TestState) : TestState :=
  {| t_pool := set_control true (CNotify false) (t_pool t); t_appended := t_appended t;
     t_counted := t_counted t; t_main := Stopping |}.

(** A step of the pool; [main] goes on when the workers have been joined. *)
Definition pool_moved (p : Pool nat) (t : TestState) : TestState :=
  {| t_pool := p; t_appended := t_appended t; t_counted := t_counted t;
     t_main := match control_ p with CDone => Passed | _ => t_main t end |}.

(** The executions of the tasks, ended or not. *)
Definition executions (t : TestState) : list nat :=
  jobs (called (t_pool t)) ++ jobs (running (workers_ (t_pool t))).

(** [quiet]: no spurious wake-ups.  [append] is left when it has called [notify_one].  Every
    execution of a task increments the counter once, before it ends. *)
Inductive test_step (quiet : bool) : TestState -> TestState -> Prop :=
| ts_append t : t_main t = Appending -> notifies (t_pool t) = 0%nat -> mutex_free (t_pool t) ->
    test_step quiet t (append_next t)
| ts_poll t : t_main t = Polling -> notifies (t_pool t) = 0%nat -> (task_count <= counter t)%nat ->
    test_step quiet t (leave_loop t)
| ts_count t task i :
    task ∈ running (workers_ (t_pool t)) -> func_ task = Some i ->
    t_counted t ++ [i] ⊆+ executions t -> test_step quiet t (count i t)
| ts_pool t l p :
    plain_label l = true -> l <> LShutdown -> (quiet = true -> l <> LSpurious) ->
    step l (t_pool t) p -> jobs (called p) ⊆+ t_counted t -> test_step quiet t (pool_moved p t).

Definition test_run (quiet : bool) : TestState -> TestState -> Prop := rtc (test_step quiet).

(** ** The invariant *)

Record test_ok (t : TestState) : Prop := {
  te_pool : pool_ok pool_threads (t_pool t);
  te_reach : reachable (fun _ => True) pool_threads (t_pool t);
  te_submitted : submitted (t_pool t) = task_of <$> seq 0 (t_appended t);
  te_begun : t_counted t ⊆+ executions t;
  te_called : jobs (called (t_pool t)) ⊆+ t_counted t;
  te_main : match t_main t with
            | Appending => (t_appended t < task_count)%nat /\ control_ (t_pool t) = CIdle
            | Polling => t_appended t = task_count /\ control_ (t_pool t) = CIdle
            | Stopping => t_appended t = task_count /\ (task_count <= counter t)%nat /\
                control_ (t_pool t) <> CIdle /\ control_ (t_pool t) <> CDone
            | Passed => t_appended t = task_count /\ (task_count <= counter t)%nat /\
                control_ (t_pool t) = CDone
            end;
}.

Lemma jobs_submitted n : jobs (task_of <$> seq 0 n) = seq 0 n.
Proof. unfold jobs. generalize 0%nat. induction n as [|n IH]; intros k; [done|]. cbn. by rewrite IH. Qed.

(** What was appended is called, being executed or queued. *)
Lemma jobs_split t : test_ok t -> seq 0 (t_appended t) ≡ₚ executions t ++ jobs (tasks_ (t_pool t)).
Proof.
  intros Hok. rewrite <-jobs_submitted, <-(te_submitted _ Hok).
  pose proof (po_conserved _ _ (te_pool _ Hok)) as Hc. unfold conserved in Hc.
  rewrite (proj2 (po_dropped _ _ (te_pool _ Hok))) in Hc. cbn [app] in Hc. unfold executions.
  by rewrite Hc, !jobs_app, (po_called _ _ (te_pool _ Hok)), app_assoc.
Qed.

(** Nothing is executed twice, so nothing is counted twice. *)
Lemma executions_once t : test_ok t -> NoDup (executions t).
Proof.
  intros Hok. pose proof (NoDup_seq 0 (t_appended t)) as Hn. rewrite (jobs_split _ Hok) in Hn.
  by apply NoDup_app in Hn as [? _].
Qed.

Lemma counted_once t : test_ok t -> NoDup (t_counted t).
Proof.
  intros Hok. pose proof (executions_once _ Hok) as Hn.
  destruct (submseteq_Permutation _ _ (te_begun _ Hok)) as [ks Hks]. rewrite Hks in Hn.
  by apply NoDup_app in Hn as [? _].
Qed.

(** What has been counted is among what was appended. *)
Lemma counted_seq t : test_ok t -> t_counted t ⊆+ seq 0 (t_appended t).
Proof.
  intros Hok. rewrite (jobs_split _ Hok). etrans; [by apply te_begun|]. by apply submseteq_inserts_r.
Qed.

Lemma counted_all t :
  test_ok t -> t_appended t = task_count -> (task_count <= counter t)%nat ->
  t_counted t ≡ₚ seq 0 task_count /\ tasks_ (t_pool t) = [].
Proof.
  intros Hok Ha Hn. pose proof (counted_seq _ Hok) as Hs. rewrite Ha in Hs.
  assert (t_counted t ≡ₚ seq 0 task_count) as Hp.
  { apply submseteq_length_Permutation; [done|]. rewrite length_seq. exact Hn. }
  split; [done|]. pose proof (jobs_split _ Hok) as Hj. rewrite Ha, <-Hp in Hj.
  pose proof (submseteq_length _ _ (te_begun _ Hok)) as Hb.
  apply Permutation_length in Hj. rewrite !length_app in *.
  assert (jobs (tasks_ (t_pool t)) = []) as Hnil by (apply nil_length_inv; lia).
  destruct (tasks_ (t_pool t)) as [|x q] eqn:E; [done|].
  assert (plain_task x) as [[i Hi] _].
  { pose proof (po_plain _ _ (te_pool _ Hok)) as Hpl. rewrite Forall_forall in Hpl. apply Hpl.
    rewrite (po_conserved _ _ (te_pool _ Hok)), E. set_solver. }
  unfold jobs in Hnil. cbn in Hnil. by rewrite Hi in Hnil.
Qed.

Lemma test_start_ok : test_ok test_start.
Proof.
  split; cbn; try done.
  - apply pool_ok_start.
  - apply rtc_refl.
  - split; [|done]. unfold task_count. lia.
Qed.

Lemma append_next_ok t :
  t_main t = Appending -> mutex_free (t_pool t) -> test_ok t -> test_ok (append_next t).
Proof.
  intros Hm Hf [H1 H2 H3 H5 H6 H7]. rewrite Hm in H7. destruct H7 as [Hlt Hc].
  split; cbn [t_pool t_appended t_counted t_main append_next]; try done.
  - by apply append_ok.
  - eapply rtc_r; [exact H2|]. exists LAppend. split; [done|]. by apply step_append.
  - rewrite seq_S, fmap_app, <-H3. done.
  - destruct (S (t_appended t) <? task_count)%nat eqn:Hn; [apply Nat.ltb_lt in Hn|apply Nat.ltb_ge in Hn]; (split; [lia|done]).
Qed.

Lemma leave_loop_ok t :
  t_main t = Polling -> (task_count <= counter t)%nat -> test_ok t -> test_ok (leave_loop t).
Proof.
  intros Hm Hn [H1 H2 H3 H5 H6 H7]. rewrite Hm in H7. destruct H7 as [Ha Hc].
  split; cbn [t_pool t_appended t_counted t_main leave_loop]; try done.
  - by destruct H1 as [? ? ? ? [? ?] ? ?].
  - eapply rtc_r; [exact H2|]. exists LShutdown. split; [done|]. by apply step_shutdown.
Qed.

Lemma count_ok t i : t_counted t ++ [i] ⊆+ executions t -> test_ok t -> test_ok (count i t).
Proof.
  intros Hn [H1 H2 H3 H5 H6 H7].
  split; cbn [t_pool t_appended t_counted t_main count]; try done.
  - by apply submseteq_inserts_r.
  - unfold counter in *. cbn [t_counted count]. rewrite length_app. by destruct (t_main t); intuition lia.
Qed.

Lemma pool_moved_ok t l p :
  plain_label l = true -> l <> LShutdown -> step l (t_pool t) p -> jobs (called p) ⊆+ t_counted t ->
  test_ok t -> test_ok (pool_moved p t).
Proof.
  intros Hl Hn Hst Hcl [H1 H2 H3 H5 H6 H7].
  destruct (plain_step _ _ _ _ Hl Hst H1) as (Hok & Es & _).
  split; cbn [t_pool t_appended t_counted t_main pool_moved]; try done.
  - eapply rtc_r; [exact H2|]. by exists l.
  - by rewrite Es.
  - etrans; [exact H5|]. by apply (plain_step_kept pool_threads l).
  - unfold counter in *. cbn [t_counted pool_moved].
    destruct (plain_step_control _ _ _ Hl Hn Hst) as [E|[(now & E & E')|(now & E & E')]].
    + rewrite E. by destruct (t_main t); destruct (control_ (t_pool t)); intuition.
    + rewrite E'. by destruct (t_main t); rewrite E in H7; intuition.
    + rewrite E'. by destruct (t_main t); rewrite E in H7; intuition.
Qed.

Lemma test_step_ok quiet t t' : test_step quiet t t' -> test_ok t -> test_ok t'.
Proof.
  destruct 1 as [t Hm _ Hf|t Hm _ Hn|t task i Ht Hi Hn|t l p Hl Hn _ Hst Hc].
  - by apply append_next_ok.
  - by apply leave_loop_ok.
  - by apply count_ok.
  - by eapply pool_moved_ok.
Qed.

Lemma test_run_ok quiet t t' : test_run quiet t t' -> test_ok t -> test_ok t'.
Proof. induction 1 as [|x y z Hst _ IH]; [done|]. intros Hok. apply IH. by eapply test_step_ok. Qed.

Lemma test_done_workers t : test_ok t -> control_ (t_pool t) = CDone -> workers_ (t_pool t) = [].
Proof.
  intros Hok. generalize (te_reach _ Hok). generalize (t_pool t). clear Hok t.
  apply (reachable_ind _ _ (fun s => control_ s = CDone -> _)); [done|eauto using step_done_workers].
Qed.

Lemma test_stopped t : test_ok t -> control_ (t_pool t) <> CIdle -> stop_ (t_pool t) = true.
Proof.
  intros Hok. apply (dr_control pool_threads).
  eapply reachable_draining; [unfold pool_threads; lia|by apply te_reach].
Qed.

(** ** Getting on *)

(** [t'] is [t] with more counted and another pool. *)
Definition same_main (t t' : TestState) : Prop := t_main t' = t_main t /\ t_appended t' = t_appended t.

(** Every task being executed can increment the counter. *)
Lemma count_run t :
  test_ok t ->
  exists t', test_run true t t' /\ same_main t t' /\ t_pool t' = t_pool t /\ executions t ⊆+ t_counted t'.
Proof.
  intros Hok.
  assert (forall ts, ts ⊆ running (workers_ (t_pool t)) ->
    exists t', test_run true t t' /\ same_main t t' /\ t_pool t' = t_pool t /\
      jobs (called (t_pool t)) ++ jobs ts ⊆ t_counted t') as Hall.
  2: { destruct (Hall _ ltac:(done)) as (t' & Hr & Hm & Hp & Hc). exists t'. split_and!; try done.
       apply NoDup_submseteq; [by apply executions_once|]. intros i. apply Hc. }
  induction ts as [|task ts IH]; intros Hsub.
  { exists t. split_and!; try done. rewrite app_nil_r. intros i Hi.
    eapply elem_of_submseteq; [exact Hi|by apply te_called]. }
  destruct IH as (t1 & Hr & [Hm Ha] & Hp & Hc); [set_solver|].
  destruct (func_ task) as [i|] eqn:Hi.
  2: { exists t1. split_and!; try done. unfold jobs in *. cbn. by rewrite Hi. }
  assert (jobs (task :: ts) = i :: jobs ts) as Ej by (unfold jobs; cbn; by rewrite Hi).
  pose proof (test_run_ok _ _ _ Hr Hok) as Hok1.
  destruct (decide (i ∈ t_counted t1)) as [Hin|Hin].
  - exists t1. split_and!; try done. rewrite Ej. set_solver.
  - assert (task ∈ running (workers_ (t_pool t1))) as Ht by (rewrite Hp; set_solver).
    exists (count i t1). split_and!; try done.
    + eapply rtc_r; [exact Hr|]. apply (ts_count true t1 task); [done|done|].
      apply NoDup_submseteq; [apply NoDup_app; split_and!; [by apply counted_once|set_solver|apply NoDup_singleton]|].
      intros j [Hj| ->%list_elem_of_singleton]%elem_of_app.
      * eapply elem_of_submseteq; [exact Hj|by apply te_begun].
      * apply elem_of_app. right. apply list_elem_of_omap. by exists task.
    + rewrite Ej. cbn. set_solver.
Qed.

(** Steps of the pool that are not the appends, the shutdown and unasked wake-ups can be
    steps of the test. *)
Lemma pool_step_run t l p :
  plain_label l = true -> l <> LShutdown -> l <> LSpurious -> test_ok t -> step l (t_pool t) p ->
  exists t', test_run true t t' /\ t_pool t' = p /\ t_appended t' = t_appended t /\
    t_main t' = match control_ p with CDone => Passed | _ => t_main t end.
Proof.
  intros Hl Hn Hs Hok Hst. destruct (count_run t Hok) as (t1 & Hr & [Hm Ha] & Hp & Hc).
  exists (pool_moved p t1). split_and!; [|done|done|by cbn; rewrite Hm].
  eapply rtc_r; [exact Hr|]. apply (ts_pool true t1 l); rewrite ?Hp; try done.
  etrans; [by apply (plain_step_called pool_threads l); [| |apply Hok]|exact Hc].
Qed.

Lemma own_run t ls p :
  test_ok t -> control_ (t_pool t) <> CDone -> Forall (fun l => l = LWorker \/ l = LNotify) ls ->
  trace ls (t_pool t) p -> exists t', test_run true t t' /\ same_main t t' /\ t_pool t' = p.
Proof.
  intros Hok Hd Hls Ht. remember (t_pool t) as p0 eqn:E. revert t Hok Hd E.
  induction Ht as [p|l ls p p1 p2 Hst Ht IH]; intros t Hok Hd E.
  { exists t. split_and!; [apply rtc_refl|done|done]. }
  apply Forall_cons in Hls as [Hl Hls]. subst p.
  assert (control_ p1 = control_ (t_pool t)) as Ec.
  { apply (own_frame l); [unfold own; tauto|done]. }
  destruct (pool_step_run t l p1) as (t1 & Hr & Ep & Ea & Em); try done; try (by destruct Hl as [-> | ->]).
  assert (same_main t t1) as [Em1 _] by (split; [rewrite Em, Ec; by destruct (control_ (t_pool t))|done]).
  destruct (IH Hls t1) as (t2 & Hr2 & [Em2 Ea2] & Ep2); try done; [by eapply test_run_ok|by rewrite Ec|].
  exists t2. split_and!; [by etrans|split; congruence|done].
Qed.

Lemma rest_run t :
  test_ok t -> control_ (t_pool t) <> CDone ->
  exists t', test_run true t t' /\ same_main t t' /\ at_rest (t_pool t') /\ test_ok t'.
Proof.
  intros Hok Hd. destruct (comes_to_rest (t_pool t)) as (ls & p & Hls & Ht & Hrest).
  destruct (own_run t ls p Hok Hd Hls Ht) as (t' & Hr & Hsm & <-).
  exists t'. split_and!; try done. by eapply test_run_ok.
Qed.

Lemma rest_free t : at_rest (t_pool t) -> mutex_free (t_pool t) /\ notifies (t_pool t) = 0%nat.
Proof.
  intros Hr. split.
  - unfold mutex_free. eapply Forall_impl; [apply (rest_idle _ Hr)|]. by intros ph [-> | ->].
  - destruct (notifies (t_pool t)) as [|n] eqn:En; [done|].
    destruct (notify_enabled _ _ En) as [p Hp]. exfalso. by eapply Hr; [right|].
Qed.

(** The first loop is left: [main] can append the tasks that are missing. *)
Lemma append_run t :
  test_ok t -> t_main t = Appending -> exists t', test_run true t t' /\ t_main t' = Polling /\ test_ok t'.
Proof.
  remember (task_count - t_appended t)%nat as n eqn:En. revert t En.
  induction n as [|n IH]; intros t En Hok Hm; pose proof (te_main _ Hok) as Hmm; rewrite Hm in Hmm;
    destruct Hmm as [Hlt Hc]; [lia|].
  destruct (rest_run t Hok) as (t1 & Hr & [Hm1 Ha1] & [Hf Hn]%rest_free & Hok1); [by rewrite Hc|].
  rewrite Hm in Hm1.
  assert (test_run true t (append_next t1)) as Hr2 by (eapply rtc_r; [exact Hr|]; by apply ts_append).
  pose proof (append_next_ok t1 Hm1 Hf Hok1) as Hok2.
  destruct (S (t_appended t1) <? task_count)%nat eqn:Hlast.
  - destruct (IH (append_next t1)) as (t2 & Hr3 & Hm2 & Hok3); [|done| |].
    + cbn [append_next t_appended]. lia.
    + cbn [append_next t_main]. by rewrite Hlast.
    + exists t2. split_and!; [by etrans|done..].
  - exists (append_next t1). split_and!; [done| |done]. cbn [append_next t_main]. by rewrite Hlast.
Qed.

(** The second loop is left, and no worker is about to sleep. *)
Lemma poll_run t :
  test_ok t -> t_main t = Polling ->
  exists t', test_run true t t' /\ t_main t' = Stopping /\ test_ok t' /\
    control_ (t_pool t') = CNotify false /\ Blocking ∉ workers_ (t_pool t').
Proof.
  intros Hok Hm. pose proof (te_main _ Hok) as Hmm. rewrite Hm in Hmm. destruct Hmm as [Ha Hc].
  destruct (rest_run t Hok) as (t1 & Hr & [Hm1 Ha1] & Hrest & Hok1); [by rewrite Hc|].
  destruct (rest_free _ Hrest) as [Hf Hn]. rewrite Hm in Hm1.
  pose proof (te_main _ Hok1) as Hmm. rewrite Hm1 in Hmm. destruct Hmm as [Ha1' Hc1].
  assert (tasks_ (t_pool t1) = []) as Hq.
  { eapply (rest_drained pool_threads); [by apply te_reach|done|].
    eapply (idle_staffed _ pool_threads); [unfold pool_threads; lia|by apply te_reach|done]. }
  assert ((task_count <= counter t1)%nat) as Hcount.
  { pose proof (jobs_split _ Hok1) as Hj. unfold executions in Hj. rewrite Hq, (idle_running _ (rest_idle _ Hrest)) in Hj.
    change (jobs []) with (@nil nat) in Hj. rewrite !app_nil_r, Ha1' in Hj.
    assert (seq 0 task_count ⊆+ t_counted t1) as Hs by (rewrite Hj; by apply te_called).
    apply submseteq_length in Hs. by rewrite length_seq in Hs. }
  exists (leave_loop t1). split_and!; [|done|by apply leave_loop_ok|done|].
  - eapply rtc_r; [exact Hr|]. by apply ts_poll.
  - cbn. intros Hb. pose proof (rest_idle _ Hrest) as Hi. rewrite Forall_forall in Hi.
    by destruct (Hi _ Hb).
Qed.

(** [shutdown] returns unless a worker is about to sleep. *)
Lemma stop_run t :
  test_ok t -> t_main t = Stopping -> control_ (t_pool t) = CNotify false ->
  Blocking ∉ workers_ (t_pool t) -> exists t', test_run true t t' /\ t_main t' = Passed.
Proof.
  intros Hok Hm Hc Hb.
  assert (stop_ (t_pool t) = true) as Hs by (apply test_stopped; [done|by rewrite Hc]).
  destruct (pool_step_run t LNotifyAll _ eq_refl ltac:(done) ltac:(done) Hok
    (step_notify_all _ false Hc)) as (t1 & Hr1 & Ep1 & Ea1 & Em1).
  pose proof (test_run_ok _ _ _ Hr1 Hok) as Hok1.
  assert (control_ (t_pool t1) = CJoining false) as Hc1 by by rewrite Ep1.
  pose proof (notify_all_noticed _ false Hs Hb) as Hno. rewrite <-Ep1 in Hno.
  destruct (comes_to_rest (t_pool t1)) as (ls & p & Hls & Ht & Hrest).
  assert (Forall (@own) ls) as Hown by (eapply Forall_impl; [exact Hls|]; unfold own; tauto).
  destruct (own_run t1 ls p Hok1) as (t2 & Hr2 & [Hm2 Ha2] & <-); [by rewrite Hc1|done..|].
  pose proof (test_run_ok _ _ _ Hr2 Hok1) as Hok2.
  pose proof (noticed_exited _ Hrest (trace_noticed _ _ _ Hown Ht Hno)) as Hex.
  destruct (trace_frame _ _ _ Hown Ht) as (_ & _ & _ & Ec). rewrite Hc1 in Ec.
  destruct (pool_step_run t2 LJoin _ eq_refl ltac:(done) ltac:(done) Hok2
    (step_join _ false Ec Hex)) as (t3 & Hr3 & Ep3 & Ea3 & Em3).
  exists t3. split; [|done]. etrans; [exact Hr1|]. by etrans.
Qed.

Lemma passing_run t :
  test_ok t -> t_main t = Appending \/ t_main t = Polling ->
  exists t', test_run true t t' /\ t_main t' = Passed.
Proof.
  intros Hok Hm.
  assert (exists t1, test_run true t t1 /\ t_main t1 = Polling /\ test_ok t1) as (t1 & Hr1 & Hm1 & Hok1).
  { destruct Hm as [Hm|Hm]; [by apply append_run|]. exists t. split_and!; [apply rtc_refl|done..]. }
  destruct (poll_run t1 Hok1 Hm1) as (t2 & Hr2 & Hm2 & Hok2 & Hc & Hb).
  destruct (stop_run t2 Hok2 Hm2 Hc Hb) as (t3 & Hr3 & Hm3).
  exists t3. split; [|done]. etrans; [exact Hr1|]. by etrans.
Qed.

(** ** How the test can hang *)

(** Schedules: [MNotify] finds nobody waiting, [MCount] is the task of worker [k]. *)
Inductive test_move := MNext | MNotify | MCount (k : nat) | MLeave | MPool (m : @move nat).

(** The moves of the pool that are the workers' and [notify_all]. *)
Definition pool_move (m : @move nat) : bool :=
  match m with MWorker _ | MNotifyAll => true | _ => false end.

(** A step of the pool, if all that has been called by then has counted. *)
Definition moved (t : TestState) (p : Pool nat) : option TestState :=
  if decide (jobs (called p) ⊆+ t_counted t) then Some (pool_moved p t) else None.

Definition test_move1 (m : test_move) (t : TestState) : option TestState :=
  match m with
  | MNext =>
      if decide (t_main t = Appending /\ notifies (t_pool t) = 0%nat /\ mutex_free (t_pool t))
      then Some (append_next t) else None
  | MNotify =>
      match notifies (t_pool t) with
      | S n => if forallb (fun ph => negb (is_waiting ph)) (workers_ (t_pool t))
               then moved t (set_notifies n (t_pool t)) else None
      | O => None
      end
  | MCount k =>
      match workers_ (t_pool t) !! k with
      | Some (Running task) =>
          match func_ task with
          | Some i => if decide (t_counted t ++ [i] ⊆+ executions t) then Some (count i t) else None
          | None => None
          end
      | _ => None
      end
  | MLeave =>
      if decide (t_main t = Polling /\ notifies (t_pool t) = 0%nat /\ (task_count <= counter t)%nat)
      then Some (leave_loop t) else None
  | MPool m => if pool_move m then play_move m (t_pool t) ≫= moved t else None
  end.

Definition test_play (ms : list test_move) (t : TestState) : option TestState :=
  foldl (fun o m => o ≫= test_move1 m) (Some t) ms.

Lemma pool_move_step m (p p' : Pool nat) :
  pool_move m = true -> play_move m p = Some p' ->
  exists l, plain_label l = true /\ l <> LShutdown /\ l <> LSpurious /\ step l p p'.
Proof.
  destruct m as [k| | | |]; intros Hm; try done; cbn; intros H; repeat case_match; simplify_eq.
  - exists LWorker. split_and!; [done..|]. eapply step_worker; [|done].
    match goal with E : drop _ _ = _ |- _ => by rewrite <-E, take_drop end.
  - exists LNotifyAll. split_and!; [done..|]. by apply step_notify_all.
Qed.

Lemma moved_step l t p t' :
  plain_label l = true -> l <> LShutdown -> l <> LSpurious -> step l (t_pool t) p ->
  moved t p = Some t' -> test_step true t t'.
Proof.
  unfold moved. intros Hl Hn Hs Hst. case_decide; [|done]. intros [= <-]. by apply (ts_pool true t l).
Qed.

Lemma test_move_step m t t' : test_move1 m t = Some t' -> test_step true t t'.
Proof.
  destruct m as [| |k| |m]; cbn; intros H.
  - case_decide as Hd; [|done]. destruct Hd as (? & ? & ?). simplify_eq. by apply ts_append.
  - destruct (notifies (t_pool t)) as [|n] eqn:En; [done|]. destruct (forallb _ _) eqn:Hw; [|done].
    apply (moved_step LNotify) in H; try done. apply step_notify_none; [done|].
    apply Is_true_true, forallb_True in Hw. eapply Forall_impl; [exact Hw|]. by intros [] ? ?.
  - destruct (workers_ (t_pool t) !! k) as [ph|] eqn:Ew; [|done]. destruct ph as [| | | |u|]; try done.
    destruct (func_ u) as [i|] eqn:Ei; [|done]. case_decide as Hi; [|done]. simplify_eq.
    apply (ts_count true t u i); try done. apply list_elem_of_omap. exists (Running u).
    by split; [by eapply list_elem_of_lookup_2|].
  - case_decide as Hd; [|done]. destruct Hd as (? & ? & ?). simplify_eq. by apply ts_poll.
  - destruct (pool_move m) eqn:Em; [|done]. destruct (play_move m (t_pool t)) as [p|] eqn:Ep; [|done].
    destruct (pool_move_step _ _ _ Em Ep) as (l & ? & ? & ? & ?). by apply (moved_step l t p).
Qed.

Lemma test_play_run ms t t' : test_play ms t = Some t' -> test_run true t t'.
Proof.
  unfold test_play, test_run. revert t. induction ms as [|m ms IH]; intros t.
  - intros [= ->]. apply rtc_refl.
  - cbn. destruct (test_move1 m t) as [t1|] eqn:Em.
    + intros Ht. eapply rtc_l; [by eapply test_move_step|by apply IH].
    + intros Ht. exfalso. clear -Ht. induction ms; [done|]. by apply IHms.
Qed.

(** All tasks are appended, worker 0 executes them, and worker 1 finds the queue empty just
    before [main] calls [shutdown]. *)
Definition hang_moves : list test_move :=
  flat_map (fun _ => [MNext; MNotify]) (seq 0 task_count) ++
  flat_map (fun _ => [MPool (MWorker 0); MPool (MWorker 0); MCount 0; MPool (MWorker 0)]) (seq 0 task_count) ++
  [MPool (MWorker 1); MPool (MWorker 1); MLeave; MPool MNotifyAll; MPool (MWorker 1)].

Definition hung_test : option TestState := test_play hang_moves test_start.

Lemma overslept_run t t' :
  t_main t = Stopping -> overslept (t_pool t) -> test_run true t t' ->
  t_main t' = Stopping /\ overslept (t_pool t').
Proof.
  intros Hm Ho Hr. induction Hr as [|x y z Hst _ IH]; [done|].
  assert (t_main y = Stopping /\ overslept (t_pool y)) as [Hy Hoy]; [|by apply IH].
  destruct Hst as [t Ha|t Ha|t task i Ht Hi Hn|t l p Hl Hn Hs Hst Hc]; try congruence; try done.
  assert (overslept p) as Hp by (by eapply overslept_step; [| |exact Hst|]; [intros ->|apply Hs|]).
  split; [|done]. destruct Hp as [[now Ec] _]. cbn. by rewrite Ec.
Qed.

Lemma hung_test_run t : hung_test = Some t -> test_run true test_start t.
Proof. unfold hung_test. generalize hang_moves. intros ms. apply test_play_run. Qed.

Lemma hang_run :
  exists t0, test_run true test_start t0 /\ t_main t0 = Stopping /\ counter t0 = task_count /\
    forall t', test_run true t0 t' -> t_main t' = Stopping.
Proof.
  destruct hung_test as [t0|] eqn:E; [|by vm_compute in E].
  exists t0. split; [by apply hung_test_run|].
  assert (t_main t0 = Stopping /\ counter t0 = task_count /\ overslept (t_pool t0)) as (Hm & Hc & Ho).
  { apply (f_equal (fun o => match o with Some x => x | None => test_start end)) in E.
    rewrite <-E. split_and!; [vm_compute; reflexivity..|]. split_and!; [exists false|..].
    - vm_compute. reflexivity.
    - apply (list_elem_of_lookup_2 _ 1). vm_compute. reflexivity.
    - vm_compute. reflexivity. }
  split_and!; [done..|]. intros t' Ht'. by apply (overslept_run t0 t').
Qed.

(** C7: The test of the pool.  In every run of it, with spurious wake-ups or not, each of the
    twenty tasks is counted at most once; [main] calls [shutdown] only when all have been
    counted and the queue is empty, and "test passed" is reached only when every task has been
    finished once and every worker is gone, so that the destructor of the pool has nothing left
    to do.  As long as [shutdown] has not been called the run
    can go on, without spurious wake-ups, to "test passed".  But not every run gets there: in
    one all tasks are counted, and a worker is just about to sleep when [shutdown] calls
    [notify_all], so that [main] waits for it for ever. *)
Theorem pool_test_passes (quiet : bool) (t : TestState) :
  test_run quiet test_start t ->
  NoDup (t_counted t) /\ t_counted t ⊆+ seq 0 (t_appended t) /\ (counter t <= task_count)%nat /\
  (t_main t = Stopping \/ t_main t = Passed ->
   t_counted t ≡ₚ seq 0 task_count /\ tasks_ (t_pool t) = []) /\
  (t_main t = Passed ->
   jobs (finished (t_pool t)) ≡ₚ seq 0 task_count /\ workers_ (t_pool t) = [] /\
   stops_again (t_pool t) = false) /\
  (t_main t = Appending \/ t_main t = Polling ->
   exists t', test_run true t t' /\ t_main t' = Passed) /\
  exists t0, test_run true test_start t0 /\ t_main t0 = Stopping /\ counter t0 = task_count /\
    forall t', test_run true t0 t' -> t_main t' = Stopping.
Proof.
  intros Hr. pose proof (test_run_ok _ _ _ Hr test_start_ok) as Hok. pose proof (counted_seq _ Hok) as Hs.
  assert (t_appended t <= task_count)%nat as Ha
    by (pose proof (te_main _ Hok) as Hm; destruct (t_main t); lia).
  assert (t_main t = Stopping \/ t_main t = Passed ->
    t_counted t ≡ₚ seq 0 task_count /\ tasks_ (t_pool t) = []) as Hall.
  { intros Hm. pose proof (te_main _ Hok) as Hmm. apply counted_all; [done|..];
      destruct Hm as [Hm|Hm]; rewrite Hm in Hmm; tauto. }
  split_and!; try done.
  - by apply counted_once.
  - apply submseteq_length in Hs. rewrite length_seq in Hs. unfold counter. lia.
  - intros Hm. destruct (Hall (or_intror Hm)) as [Hp Hq]. pose proof (te_main _ Hok) as Hmm.
    rewrite Hm in Hmm. destruct Hmm as (Ha' & _ & Hc). pose proof (test_done_workers _ Hok Hc) as Hw.
    split_and!; [|done|unfold stops_again; by rewrite (test_stopped _ Hok) by by rewrite Hc]. pose proof (jobs_split _ Hok) as Hj.
    unfold executions in Hj. rewrite Hq, Hw, Ha' in Hj. change (jobs []) with (@nil nat) in Hj.
    change (jobs (running [])) with (@nil nat) in Hj.
    by rewrite !app_nil_r, (po_called _ _ (te_pool _ Hok)) in Hj.
  - by apply passing_run.
  - exact hang_run.
Qed.

(** The run above is one of the test: no task is counted twice in it. *)
Lemma pool_test_passes_witness :
  exists t, hung_test = Some t /\ NoDup (t_counted t) /\ t_counted t ≡ₚ seq 0 20.
Proof.
  destruct hung_test as [t|] eqn:E; [|vm_compute in E; discriminate].
  exists t. split; [reflexivity|].
  destruct (pool_test_passes true t (hung_test_run _ E)) as (Hn & _ & _ & Hall & _).
  split; [exact Hn|]. apply Hall. left.
  assert (t = match hung_test with Some x => x | None => test_start end) as -> by (rewrite E; reflexivity).
  vm_compute. reflexivity.
Defined.
