(* ===== verification/SessionMgr.v ===== *)
(** * SessionMgr (business/session)

    The table of sessions.  Every public operation but [cleanup_timeout] runs under
    [mutex_] and is one step; [cleanup_timeout] scans in one critical section and
    removes in others, so operations of other threads can come between.  [next_sid_]
    ([int64_t]) and the counters ([size_t]) are mathematical integers: the model is exact
    up to 2^63 - 1 calls of [add]. *)

From S2P Require Import Prelude.

Open Scope Z_scope.

Record ConnectionContext := {
  session_id : Z;
  socket_fd : Z;
  remote_ip : string;
  remote_port : Z;
  connect_time : Z;
  last_msg_time : Z;
  heartbeat_count : Z;
  is_alive : bool;
}.

(** [closed] records the calls of [close_socket]. *)
Record SessionMgr := {
  next_sid_ : Z;
  sessions_ : gmap Z ConnectionContext;
  total_count_ : Z;
  peak_count_ : Z;
  closed : list Z;
}.

Definition SessionMgr0 : SessionMgr :=
  {| next_sid_ := 1; sessions_ := ∅; total_count_ := 0; peak_count_ := 0; closed := [] |}.

Definition set_sessions (m : gmap Z ConnectionContext) (s : SessionMgr) : SessionMgr :=
  {| next_sid_ := next_sid_ s; sessions_ := m; total_count_ := total_count_ s;
     peak_count_ := peak_count_ s; closed := closed s |}.

Definition shutdown (s : SessionMgr) : SessionMgr := set_sessions ∅ s.

Definition count (s : SessionMgr) : Z := Z.of_nat (size (sessions_ s)).

(** [tick] is the value of [get_tick_ms()]; the loop of the exchange leaves the
    greater of the two values. *)
Definition add (tick fd : Z) (ip : string) (port : Z) (s : SessionMgr) : Z * SessionMgr :=
  let sid := next_sid_ s in
  let ctx := {| session_id := sid; socket_fd := fd; remote_ip := ip; remote_port := port;
                connect_time := tick; last_msg_time := tick; heartbeat_count := 0;
                is_alive := true |} in
  let m := <[sid := ctx]> (sessions_ s) in
  let alive := Z.of_nat (size m) in
  (sid, {| next_sid_ := sid + 1; sessions_ := m; total_count_ := total_count_ s + 1;
           peak_count_ := if peak_count_ s <? alive then alive else peak_count_ s;
           closed := closed s |}).

Definition remove (sid : Z) (s : SessionMgr) : SessionMgr :=
  match sessions_ s !! sid with
  | Some _ => set_sessions (delete sid (sessions_ s)) s
  | None => s
  end.

Definition exists_ (sid : Z) (s : SessionMgr) : bool := bool_decide (is_Some (sessions_ s !! sid)).
Definition get (sid : Z) (s : SessionMgr) : option ConnectionContext := sessions_ s !! sid.

Definition heartbeat (tick sid : Z) (s : SessionMgr) : SessionMgr :=
  match sessions_ s !! sid with
  | Some c =>
      set_sessions (<[sid := {| session_id := session_id c; socket_fd := socket_fd c;
        remote_ip := remote_ip c; remote_port := remote_port c; connect_time := connect_time c;
        last_msg_time := tick; heartbeat_count := u32 (heartbeat_count c + 1);
        is_alive := is_alive c |}]> (sessions_ s)) s
  | None => s
  end.

Definition kick (sid : Z) (s : SessionMgr) : bool * SessionMgr :=
  match sessions_ s !! sid with
  | None => (false, s)
  | Some c =>
      (true, {| next_sid_ := next_sid_ s; sessions_ := delete sid (sessions_ s);
                total_count_ := total_count_ s; peak_count_ := peak_count_ s;
                closed := if 0 <=? socket_fd c then closed s ++ [socket_fd c] else closed s |})
  end.

Definition mark_dead (sid : Z) (s : SessionMgr) : SessionMgr :=
  match sessions_ s !! sid with
  | Some c =>
      set_sessions (<[sid := {| session_id := session_id c; socket_fd := socket_fd c;
        remote_ip := remote_ip c; remote_port := remote_port c; connect_time := connect_time c;
        last_msg_time := last_msg_time c; heartbeat_count := heartbeat_count c;
        is_alive := false |}]> (sessions_ s)) s
  | None => s
  end.

Definition send_to (sid : Z) (s : SessionMgr) : bool :=
  match sessions_ s !! sid with
  | None => false
  | Some c => if negb (is_alive c) then false else true
  end.

Fixpoint count_sent (sids : list Z) (m : gmap Z ConnectionContext) (sent : Z) : Z :=
  match sids with
  | [] => sent
  | sid :: sids' =>
      count_sent sids' m
        (match m !! sid with Some c => if is_alive c then sent + 1 else sent | None => sent end)
  end.
Definition send_to_multiple (sids : list Z) (s : SessionMgr) : Z := count_sent sids (sessions_ s) 0.

Record Stats := { alive_count : Z; total_count : Z; peak_count : Z }.
Definition stats (s : SessionMgr) : Stats :=
  {| alive_count := count s; total_count := total_count_ s; peak_count := peak_count_ s |}.

Section iteration.
(** The order in which the unordered map is traversed. *)
Context (iter : gmap Z ConnectionContext -> list (Z * ConnectionContext)).

Definition all_ids (s : SessionMgr) : list Z := fst <$> iter (sessions_ s).
Definition alive_sessions (s : SessionMgr) : list ConnectionContext := snd <$> iter (sessions_ s).

(** The sessions the broadcaster is called for; [has] says whether there is one. *)
Fixpoint broadcast_loop (has : bool) (kvs : list (Z * ConnectionContext)) : list Z :=
  match kvs with
  | [] => []
  | (sid, c) :: kvs' =>
      if is_alive c && has then sid :: broadcast_loop has kvs' else broadcast_loop has kvs'
  end.
Definition broadcast (has : bool) (s : SessionMgr) : list Z := broadcast_loop has (iter (sessions_ s)).

(** The first critical section of [cleanup_timeout]. *)
Fixpoint scan_loop (now timeout : Z) (kvs : list (Z * ConnectionContext)) : list Z :=
  match kvs with
  | [] => []
  | (sid, c) :: kvs' =>
      if negb (is_alive c) then scan_loop now timeout kvs'
      else if u64 (last_msg_time c + timeout) <? now then sid :: scan_loop now timeout kvs'
      else scan_loop now timeout kvs'
  end.
Definition cleanup_scan (now timeout : Z) (s : SessionMgr) : list Z :=
  scan_loop now timeout (iter (sessions_ s)).

(** The others: one [remove] each; [between] is what other threads do before it. *)
Fixpoint cleanup_remove (to_remove : list Z) (between : Z -> SessionMgr -> SessionMgr)
    (s : SessionMgr) : Z * SessionMgr :=
  match to_remove with
  | [] => (0, s)
  | sid :: l =>
      let '(n, s') := cleanup_remove l between (remove sid (between sid s)) in (n + 1, s')
  end.

Definition cleanup_timeout (now timeout : Z) (between : Z -> SessionMgr -> SessionMgr)
    (s : SessionMgr) : Z * SessionMgr :=
  cleanup_remove (cleanup_scan now timeout s) between s.
End iteration.

(** The steps of the threads that share the manager. *)
Inductive sop :=
| SAdd (tick fd : Z) (ip : string) (port : Z)
| SRemove (sid : Z)
| SHeartbeat (tick sid : Z)
| SKick (sid : Z)
| SMarkDead (sid : Z)
| SShutdown.

Definition run_sop (o : sop) (s : SessionMgr) : SessionMgr :=
  match o with
  | SAdd tick fd ip port => snd (add tick fd ip port s)
  | SRemove sid => remove sid s
  | SHeartbeat tick sid => heartbeat tick sid s
  | SKick sid => snd (kick sid s)
  | SMarkDead sid => mark_dead sid s
  | SShutdown => shutdown s
  end.

(** The states passed through, the last one first. *)
Fixpoint states (os : list sop) (s : SessionMgr) : list SessionMgr :=
  match os with
  | [] => [s]
  | o :: os' => states os' (run_sop o s) ++ [s]
  end.
Definition run_sops (os : list sop) (s : SessionMgr) : SessionMgr :=
  foldl (fun s o => run_sop o s) s os.

(** ** Invariant *)

Record wf (s : SessionMgr) : Prop := {
  wf_total : total_count_ s = next_sid_ s - 1;
  wf_keys : forall sid c, sessions_ s !! sid = Some c ->
    1 <= sid < next_sid_ s /\ session_id c = sid;
  wf_next : 1 <= next_sid_ s;
  wf_peak : 0 <= peak_count_ s <= total_count_ s;
  wf_count : count s <= peak_count_ s;
}.

(** No step but [add] makes the table larger or touches the counters. *)
Definition quiet_step (s s' : SessionMgr) : Prop :=
  next_sid_ s' = next_sid_ s /\ total_count_ s' = total_count_ s /\
  peak_count_ s' = peak_count_ s /\ count s' <= count s /\
  forall sid c, sessions_ s' !! sid = Some c ->
    exists c', sessions_ s !! sid = Some c' /\ session_id c = session_id c'.

Lemma quiet_update sid c c' (s : SessionMgr) :
  sessions_ s !! sid = Some c -> session_id c' = session_id c ->
  quiet_step s (set_sessions (<[sid := c']> (sessions_ s)) s).
Proof.
  intros Hs Hid. unfold quiet_step, count. simpl. split_and!; [done..| |].
  - rewrite map_size_insert, Hs. unfold id. lia.
  - intros sid' c0. destruct (decide (sid = sid')) as [<-|].
    + rewrite lookup_insert_eq. intros [= <-]. eauto.
    + rewrite lookup_insert_ne by done. eauto.
Qed.

Lemma quiet_delete sid (s s' : SessionMgr) :
  sessions_ s' = delete sid (sessions_ s) -> next_sid_ s' = next_sid_ s ->
  total_count_ s' = total_count_ s -> peak_count_ s' = peak_count_ s -> quiet_step s s'.
Proof.
  intros Hm H1 H2 H3. unfold quiet_step, count. rewrite Hm. split_and!; [done..| |].
  - rewrite map_size_delete. case_match; unfold id; lia.
  - intros sid' c0 [_ Hc]%lookup_delete_Some. eauto.
Qed.

Lemma quiet_refl s : quiet_step s s.
Proof. unfold quiet_step. split_and!; eauto. lia. Qed.

Lemma run_sop_quiet o s :
  match o with SAdd _ _ _ _ => True | _ => quiet_step s (run_sop o s) end.
Proof.
  destruct o as [| sid|tick sid|sid|sid|]; [done| | | | |]; simpl.
  - unfold remove. case_match; [by eapply quiet_delete|apply quiet_refl].
  - unfold heartbeat. case_match; [by eapply quiet_update|apply quiet_refl].
  - unfold kick. case_match; [by eapply quiet_delete|apply quiet_refl].
  - unfold mark_dead. case_match; [by eapply quiet_update|apply quiet_refl].
  - unfold quiet_step, count. simpl. split_and!; [done..| |].
    + rewrite map_size_empty. lia.
    + intros sid c. by rewrite lookup_empty.
Qed.

Lemma quiet_wf s s' : quiet_step s s' -> wf s -> wf s'.
Proof.
  intros (H1 & H2 & H3 & H4 & H5) []. split; rewrite ?H1, ?H2, ?H3; try lia.
  intros sid c Hc. destruct (H5 sid c Hc) as (c' & Hc' & ->). auto.
Qed.

(** What [add] does on a well-formed table. *)
Lemma add_spec tick fd ip port s :
  wf s ->
  let '(sid, s') := add tick fd ip port s in
  sid = next_sid_ s /\ sessions_ s !! sid = None /\ count s' = count s + 1 /\
  peak_count_ s' = Z.max (peak_count_ s) (count s').
Proof.
  intros [Ht Hk Hn Hp Hc]. simpl. assert (sessions_ s !! next_sid_ s = None) as Hno.
  { destruct (sessions_ s !! next_sid_ s) as [c|] eqn:E; [|done]. apply Hk in E. lia. }
  unfold count. simpl. rewrite map_size_insert_None by done. split_and!; [done..|lia|].
  destruct (Z.ltb_spec (peak_count_ s) (Z.of_nat (S (base.size (sessions_ s))))); lia.
Qed.

Lemma add_wf tick fd ip port s : wf s -> wf (snd (add tick fd ip port s)).
Proof.
  intros Hwf. pose proof (add_spec tick fd ip port s Hwf) as (_ & Hno & Hcnt & Hpk).
  destruct Hwf as [Ht Hk Hn Hp Hc]. split; [simpl; lia| |simpl; lia|simpl in *; lia|simpl in *; lia].
  intros sid c. simpl. destruct (decide (sid = next_sid_ s)) as [->|].
  - rewrite lookup_insert_eq. intros [= <-]. simpl. lia.
  - rewrite lookup_insert_ne by done. intros Hs%Hk. lia.
Qed.

Lemma run_sop_wf o s : wf s -> wf (run_sop o s).
Proof.
  intros Hwf. pose proof (run_sop_quiet o s) as Hq. destruct o; [by apply add_wf|..];
    by eapply quiet_wf.
Qed.

Lemma SessionMgr0_wf : wf SessionMgr0.
Proof. split; simpl; try lia; [intros sid c; by rewrite lookup_empty|by vm_compute]. Qed.

(** [peak_count_] after a run. *)
Lemma run_peak os s :
  wf s ->
  wf (run_sops os s) /\
  (forall s', s' ∈ states os s -> count s' <= peak_count_ (run_sops os s)) /\
  peak_count_ s <= peak_count_ (run_sops os s) /\
  (peak_count_ (run_sops os s) = peak_count_ s \/
   exists s', s' ∈ states os s /\ count s' = peak_count_ (run_sops os s)).
Proof.
  revert s. induction os as [|o os IH]; intros s Hwf; simpl.
  - split_and!; [done| |lia|by left]. intros s' ->%list_elem_of_singleton. apply Hwf.
  - destruct (IH (run_sop o s) (run_sop_wf o s Hwf)) as (H1 & H2 & H3 & H4).
    assert (peak_count_ (run_sop o s) = peak_count_ s \/
            peak_count_ (run_sop o s) = count (run_sop o s) /\
            peak_count_ s <= peak_count_ (run_sop o s)) as Hone.
    { pose proof (run_sop_quiet o s) as Hq. destruct o as [tick fd ip port| | | | |];
        [|left; apply Hq..].
      pose proof (add_spec tick fd ip port s Hwf) as (_ & _ & _ & Hpk). simpl in *. lia. }
    assert (peak_count_ s <= peak_count_ (run_sops os (run_sop o s))) as Hmono by lia.
    assert (run_sop o s ∈ states os (run_sop o s)) as Hin.
    { destruct os; simpl; [left|apply elem_of_app; right; left]. }
    split_and!; [done| |exact Hmono|].
    + intros s' [Hs'|Hs'%list_elem_of_singleton]%elem_of_app; [auto|]. subst s'.
      pose proof (wf_count _ Hwf). unfold run_sops in Hmono. lia.
    + destruct H4 as [E|(s' & Hs' & E)].
      * destruct Hone as [E'|[E' _]]; [left; unfold run_sops in *; simpl; congruence|].
        right. exists (run_sop o s). rewrite elem_of_app. split; [by left|].
        unfold run_sops in *. simpl. congruence.
      * right. exists s'. rewrite elem_of_app. split; [by left|done].
Qed.

(** The identifiers handed out. *)
Fixpoint issued (os : list sop) (s : SessionMgr) : list Z :=
  match os with
  | [] => []
  | o :: os' =>
      match o with
      | SAdd tick fd ip port => fst (add tick fd ip port s) :: issued os' (run_sop o s)
      | _ => issued os' (run_sop o s)
      end
  end.

Lemma issued_from os s : wf s -> NoDup (issued os s) /\ Forall (fun i => next_sid_ s <= i) (issued os s).
Proof.
  revert s. induction os as [|o os IH]; intros s Hwf; simpl; [split; constructor|].
  destruct (IH (run_sop o s) (run_sop_wf o s Hwf)) as [Hnd Hall].
  pose proof (run_sop_quiet o s) as Hq.
  destruct o as [tick fd ip port| | | | |]; [|destruct Hq as [Hq _]; by rewrite Hq in Hall..].
  simpl in Hall. split.
  - constructor; [|done]. intros Hin. rewrite Forall_forall in Hall. apply Hall in Hin. lia.
  - constructor; [lia|]. eapply Forall_impl; [exact Hall|]. simpl. lia.
Qed.

(** The number of calls of [add] in a run. *)
Fixpoint adds (os : list sop) : Z :=
  match os with
  | [] => 0
  | SAdd _ _ _ _ :: os' => 1 + adds os'
  | _ :: os' => adds os'
  end.

Lemma adds_nonneg os : 0 <= adds os.
Proof. induction os as [|[] os IH]; cbn [adds]; lia. Qed.

(** Every [add] counts one session and takes the next number as its identifier. *)
Lemma run_adds os s :
  wf s ->
  total_count_ (run_sops os s) = total_count_ s + adds os /\
  issued os s = seqZ (next_sid_ s) (adds os).
Proof.
  revert s. induction os as [|o os IH]; intros s Hwf; [split; [cbn; lia|done]|].
  destruct (IH (run_sop o s) (run_sop_wf o s Hwf)) as [E1 E2].
  pose proof (run_sop_quiet o s) as Hq. pose proof (adds_nonneg os).
  change (run_sops (o :: os) s) with (run_sops os (run_sop o s)). rewrite E1.
  cbn [issued]. rewrite E2.
  destruct o as [tick fd ip port| | | | |]; [|destruct Hq as (-> & -> & _); by split..].
  cbn [adds]. rewrite (seqZ_cons (next_sid_ s)) by lia. cbn.
  split; [lia|]. f_equal. f_equal; lia.
Qed.

(** C22: Whatever the threads do, every session is stored under its own identifier; the
    calls of [add] get the identifiers 1, 2, 3, ... in their order; [total_count_] is the
    number of those calls, and [peak_count_] the greatest number of sessions there ever
    was at once.  (Below 2^63 calls, as no counter wraps around.) *)
Theorem session_counters (os : list sop) :
  let s := run_sops os SessionMgr0 in
  wf s /\ issued os SessionMgr0 = seqZ 1 (adds os) /\ NoDup (issued os SessionMgr0) /\
  total_count_ s = adds os /\ next_sid_ s = adds os + 1 /\
  (forall s', s' ∈ states os SessionMgr0 -> count s' <= peak_count_ s) /\
  (exists s', s' ∈ states os SessionMgr0 /\ count s' = peak_count_ s).
Proof.
  destruct (run_peak os SessionMgr0 SessionMgr0_wf) as (H1 & H2 & _ & H4).
  destruct (run_adds os SessionMgr0 SessionMgr0_wf) as [E1 E2].
  split_and!; [done|exact E2|apply issued_from, SessionMgr0_wf|exact E1| |done|].
  - pose proof (wf_total _ H1). cbn in E1. lia.
  - destruct H4 as [E|?]; [|done]. exists SessionMgr0. split; [|by rewrite E].
    destruct os; simpl; [left|apply elem_of_app; right; left].
Qed.

(** ** Traversals *)

Section traversals.
Context (iter : gmap Z ConnectionContext -> list (Z * ConnectionContext)).
Hypothesis iter_perm : forall m, iter m ≡ₚ map_to_list m.

Lemma elem_of_iter m sid c : (sid, c) ∈ iter m <-> m !! sid = Some c.
Proof. by rewrite iter_perm, elem_of_map_to_list. Qed.

Lemma NoDup_iter m : NoDup (fst <$> iter m).
Proof. rewrite iter_perm. apply NoDup_fst_map_to_list. Qed.

(** Stale by the test of the scan; the sum is one of 64-bit unsigned integers. *)
Definition expired (now timeout : Z) (c : ConnectionContext) : Prop :=
  is_alive c = true /\ u64 (last_msg_time c + timeout) < now.

#[global] Instance expired_dec now timeout c : Decision (expired now timeout c).
Proof. unfold expired. apply _. Defined.

Lemma scan_loop_filter now timeout kvs :
  scan_loop now timeout kvs = fst <$> filter (fun kv => expired now timeout (snd kv)) kvs.
Proof.
  induction kvs as [|[sid c] kvs IH]; [done|]. rewrite filter_cons. simpl.
  destruct (decide (expired now timeout c)) as [[-> Hx]|Hx]; simpl.
  - by rewrite (proj2 (Z.ltb_lt _ _) Hx), IH.
  - destruct (is_alive c) eqn:Ha; simpl; [|exact IH].
    rewrite (proj2 (Z.ltb_ge _ _)); [exact IH|].
    apply Z.nlt_ge. intros Hlt. by apply Hx.
Qed.

Lemma elem_of_scan now timeout s sid :
  sid ∈ cleanup_scan iter now timeout s <->
  exists c, sessions_ s !! sid = Some c /\ expired now timeout c.
Proof.
  unfold cleanup_scan. rewrite scan_loop_filter, list_elem_of_fmap. split.
  - intros ([k c] & -> & [Hx Hin]%list_elem_of_filter). apply elem_of_iter in Hin. eauto.
  - intros (c & Hc & Hx). exists (sid, c). split; [done|].
    apply list_elem_of_filter. split; [done|]. by apply elem_of_iter.
Qed.

Lemma NoDup_scan now timeout s : NoDup (cleanup_scan iter now timeout s).
Proof.
  unfold cleanup_scan. rewrite scan_loop_filter.
  eapply sublist_NoDup; [apply NoDup_iter|]. apply fmap_sublist, sublist_filter.
Qed.

Lemma remove_lookup sid s sid' :
  sessions_ (remove sid s) !! sid' = if decide (sid = sid') then None else sessions_ s !! sid'.
Proof.
  unfold remove. destruct (sessions_ s !! sid) as [c|] eqn:E; simpl.
  - case_decide as Hd; [subst; apply lookup_delete_eq|by rewrite lookup_delete_ne].
  - case_decide as Hd; [by subst|done].
Qed.

Lemma cleanup_remove_alone l s :
  fst (cleanup_remove l (fun _ s => s) s) = zlen l /\
  forall sid, sessions_ (snd (cleanup_remove l (fun _ s => s) s)) !! sid =
    if decide (sid ∈ l) then None else sessions_ s !! sid.
Proof.
  revert s. induction l as [|k l IH]; intros s.
  - split; [done|]. intros sid. rewrite decide_False; [done|apply not_elem_of_nil].
  - specialize (IH (remove k s)). cbn [cleanup_remove].
    destruct (cleanup_remove l (fun _ s => s) (remove k s)) as [n s']. simpl in *.
    destruct IH as [-> IH]. split; [unfold zlen; simpl; lia|].
    intros sid. rewrite IH, remove_lookup.
    repeat case_decide; try done; exfalso; rewrite ?elem_of_cons in *; naive_solver.
Qed.

(** Undisturbed, [cleanup_timeout] removes exactly the live sessions whose
    deadline is past and returns their number; sessions marked dead stay.  The
    deadline wraps around: with the greatest timeout every live session that was
    heard of after time 0 counts as expired at once. *)
Theorem session_cleanup now timeout s :
  let '(n, s') := cleanup_timeout iter now timeout (fun _ s => s) s in
  (forall sid, sessions_ s' !! sid =
     match sessions_ s !! sid with
     | Some c => if decide (expired now timeout c) then None else Some c
     | None => None
     end) /\
  n = zlen (filter (fun kv => expired now timeout (snd kv)) (iter (sessions_ s))) /\
  (timeout = 2 ^ 64 - 1 -> forall sid c, sessions_ s !! sid = Some c -> is_alive c = true ->
     0 < last_msg_time c <= now -> now < 2 ^ 64 -> sessions_ s' !! sid = None).
Proof.
  unfold cleanup_timeout.
  pose proof (cleanup_remove_alone (cleanup_scan iter now timeout s) s) as [Hn Hl].
  destruct (cleanup_remove _ _ s) as [n s']. simpl in *.
  assert (forall sid, sessions_ s' !! sid =
     match sessions_ s !! sid with
     | Some c => if decide (expired now timeout c) then None else Some c
     | None => None
     end) as Hall.
  { intros sid. rewrite Hl. destruct (decide (sid ∈ _)) as [Hin|Hout].
    - apply elem_of_scan in Hin as (c & -> & Hx). by rewrite decide_True.
    - destruct (sessions_ s !! sid) as [c|] eqn:E; [|done].
      rewrite decide_False; [done|]. intros Hx. apply Hout, elem_of_scan. eauto. }
  split_and!; [done| |].
  - rewrite Hn. unfold cleanup_scan, zlen. by rewrite scan_loop_filter, length_fmap.
  - intros -> sid c Hc Ha Hlast Hnow. rewrite Hall, Hc, decide_True; [done|]. split; [done|].
    unfold u64. replace (last_msg_time c + (2 ^ 64 - 1)) with (last_msg_time c - 1 + 1 * 2 ^ 64) by lia.
    rewrite Z.mod_add, Z.mod_small by lia. lia.
Qed.

(** The scan and the removals are separate critical sections: a session found
    expired is removed even when its heartbeat arrives in between, which makes it
    live again for any later scan. *)
Theorem session_cleanup_race now timeout s sid tick :
  sid ∈ cleanup_scan iter now timeout s ->
  sessions_ (snd (cleanup_timeout iter now timeout
    (fun _ s' => heartbeat tick sid s') s)) !! sid = None /\
  (now <= u64 (tick + timeout) ->
   forall c, sessions_ (heartbeat tick sid s) !! sid = Some c -> ~ expired now timeout c).
Proof.
  intros Hin. split.
  - unfold cleanup_timeout.
    assert (forall l s', sid ∈ l \/ sessions_ s' !! sid = None ->
      sessions_ (snd (cleanup_remove l (fun _ s' => heartbeat tick sid s') s')) !! sid = None) as Hl;
      [|by apply Hl; left].
    induction l as [|k l IH]; intros s' Hor; simpl.
    { destruct Hor as [?%not_elem_of_nil|]; done. }
    specialize (IH (remove k (heartbeat tick sid s'))). rewrite remove_lookup in IH.
    destruct (cleanup_remove l _ _). apply IH. case_decide as Hk; [by right|].
    destruct Hor as [[->|?]%elem_of_cons|Hn]; [done|by left|right].
    unfold heartbeat. by rewrite Hn.
  - intros Hle c. apply elem_of_scan in Hin as (c0 & Hc0 & _). unfold heartbeat.
    rewrite Hc0. simpl. rewrite lookup_insert_eq. intros [= <-] [_ Hx]. simpl in Hx. lia.
Qed.

(** ** Dead sessions *)

Lemma broadcast_loop_filter kvs :
  broadcast_loop true kvs = fst <$> filter (fun kv => is_alive (snd kv) = true) kvs.
Proof.
  induction kvs as [|[sid c] kvs IH]; [done|]. rewrite filter_cons. simpl.
  destruct (is_alive c); simpl; by rewrite IH.
Qed.

Lemma elem_of_broadcast s sid :
  sid ∈ broadcast iter true s <-> exists c, sessions_ s !! sid = Some c /\ is_alive c = true.
Proof.
  unfold broadcast. rewrite broadcast_loop_filter, list_elem_of_fmap. split.
  - intros ([k c] & -> & [Hx Hin]%list_elem_of_filter). apply elem_of_iter in Hin. eauto.
  - intros (c & Hc & Hx). exists (sid, c). split; [done|].
    apply list_elem_of_filter. split; [done|]. by apply elem_of_iter.
Qed.

Definition receives (s : SessionMgr) (sid : Z) : Prop := send_to sid s = true.
#[global] Instance receives_dec s sid : Decision (receives s sid).
Proof. unfold receives. apply _. Defined.

Lemma count_sent_spec sids s n :
  count_sent sids (sessions_ s) n = n + zlen (filter (receives s) sids).
Proof.
  revert n. induction sids as [|sid sids IH]; intros n; simpl; [unfold zlen; simpl; lia|].
  rewrite IH, filter_cons. unfold zlen.
  destruct (decide (receives s sid)) as [Hx|Hx]; unfold receives, send_to in Hx;
    destruct (sessions_ s !! sid) as [c|]; try done; destruct (is_alive c); simpl in *; lia || done.
Qed.

(** A session marked dead and still in the table. *)
Definition dead (sid : Z) (s : SessionMgr) : Prop :=
  exists c, sessions_ s !! sid = Some c /\ is_alive c = false.

Lemma dead_sop sid o s :
  wf s -> o <> SRemove sid -> o <> SKick sid -> o <> SShutdown -> dead sid s -> dead sid (run_sop o s).
Proof.
  intros Hwf Hr Hk Hsh (c & Hc & Ha). unfold dead.
  destruct o as [tick fd ip port|k|tick k|k|k|]; simpl.
  - exists c. split; [|done]. rewrite lookup_insert_ne; [done|].
    apply (wf_keys _ Hwf) in Hc. lia.
  - exists c. split; [|done]. rewrite remove_lookup. rewrite decide_False; [done|congruence].
  - unfold heartbeat. destruct (decide (k = sid)) as [->|Hne].
    + rewrite Hc. simpl. rewrite lookup_insert_eq. eauto.
    + exists c. split; [|done]. case_match; [|done]. simpl. by rewrite lookup_insert_ne.
  - exists c. split; [|done]. unfold kick. case_match; [|done]. simpl.
    rewrite lookup_delete_ne; [done|congruence].
  - unfold mark_dead. destruct (decide (k = sid)) as [->|Hne].
    + rewrite Hc. simpl. rewrite lookup_insert_eq. eauto.
    + exists c. split; [|done]. case_match; [|done]. simpl. by rewrite lookup_insert_ne.
  - done.
Qed.

Lemma dead_sops sid os s :
  wf s -> SRemove sid ∉ os -> SKick sid ∉ os -> SShutdown ∉ os -> dead sid s ->
  dead sid (run_sops os s).
Proof.
  revert s. induction os as [|o os IH]; intros s Hwf H1 H2 H3 Hd; [done|].
  apply not_elem_of_cons in H1 as [? ?]. apply not_elem_of_cons in H2 as [? ?].
  apply not_elem_of_cons in H3 as [? ?].
  apply IH; [by apply run_sop_wf|done..|]. by apply dead_sop.
Qed.

(** A session marked dead gets no message by any of the three ways, and no
    clean-up ever selects it: until somebody removes or kicks it (or shuts the manager
    down) it stays in the table, is listed by [alive_sessions] and counted as alive. *)
Theorem session_dead_lingers os s sid c :
  wf s -> sessions_ s !! sid = Some c ->
  SRemove sid ∉ os -> SKick sid ∉ os -> SShutdown ∉ os ->
  let s' := run_sops os (mark_dead sid s) in
  send_to sid s' = false /\ send_to_multiple [sid] s' = 0 /\ (sid ∉ broadcast iter true s') /\
  (forall now timeout, sid ∉ cleanup_scan iter now timeout s') /\
  (exists c', c' ∈ alive_sessions iter s' /\ session_id c' = sid /\ is_alive c' = false) /\
  1 <= alive_count (stats s').
Proof.
  intros Hwf Hc H1 H2 H3 s'.
  assert (wf (mark_dead sid s)) as Hwf1 by apply (run_sop_wf (SMarkDead sid) s Hwf).
  assert (dead sid s') as (c' & Hc' & Ha).
  { apply dead_sops; [done..|]. unfold dead, mark_dead. rewrite Hc. simpl.
    rewrite lookup_insert_eq. eauto. }
  assert (send_to sid s' = false) as Hsend by (unfold send_to; by rewrite Hc', Ha).
  split_and!; [done| | | | |].
  - unfold send_to_multiple. rewrite count_sent_spec, filter_cons_False by (unfold receives; congruence).
    done.
  - rewrite elem_of_broadcast. intros (c0 & ? & ?). congruence.
  - intros now timeout. rewrite elem_of_scan. intros (c0 & ? & ? & ?). congruence.
  - exists c'. split_and!; [| |done].
    + unfold alive_sessions. apply list_elem_of_fmap. exists (sid, c'). split; [done|].
      by apply elem_of_iter.
    + assert (wf s') as Hwf'.
      { apply (run_peak os _ Hwf1). }
      by apply (wf_keys _ Hwf').
  - simpl. unfold count. destruct (base.size (sessions_ s')) eqn:E; [|lia].
    apply map_size_empty_inv in E. rewrite E, lookup_empty in Hc'. done.
Qed.
End traversals.

(** ** Instances *)

Definition sample_ops : list sop :=
  [SAdd 100 7 "10.0.0.1" 4000; SAdd 150 8 "10.0.0.2" 4001; SHeartbeat 300 2].
Definition sample : SessionMgr := run_sops sample_ops SessionMgr0.

Lemma sample_wf : wf sample.
Proof. apply run_peak, SessionMgr0_wf. Qed.

Lemma session_cleanup_witness :
  sessions_ (snd (cleanup_timeout map_to_list 350 100 (fun _ s => s) sample)) !! 1 = None.
Proof.
  pose proof (session_cleanup map_to_list (fun m => reflexivity _) 350 100 sample) as H.
  destruct (cleanup_timeout _ _ _ _ _) as [n s']. destruct H as [H _]. simpl.
  rewrite H. reflexivity.
Defined.

Lemma session_cleanup_race_witness :
  sessions_ (snd (cleanup_timeout map_to_list 350 100
    (fun _ s' => heartbeat 349 1 s') sample)) !! 1 = None.
Proof.
  apply (session_cleanup_race map_to_list (fun m => reflexivity _) 350 100 sample 1 349).
  vm_compute. left.
Defined.

Lemma session_dead_lingers_witness :
  send_to 1 (run_sops [SHeartbeat 500 1] (mark_dead 1 sample)) = false /\
  1 ∉ cleanup_scan map_to_list 1000000 10 (run_sops [SHeartbeat 500 1] (mark_dead 1 sample)).
Proof.
  destruct (session_dead_lingers map_to_list (fun m => reflexivity _) [SHeartbeat 500 1] sample 1
    {| session_id := 1; socket_fd := 7; remote_ip := "10.0.0.1"; remote_port := 4000;
       connect_time := 100; last_msg_time := 100; heartbeat_count := 0; is_alive := true |}
    sample_wf eq_refl ltac:(by rewrite list_elem_of_singleton) ltac:(by rewrite list_elem_of_singleton)
    ltac:(by rewrite list_elem_of_singleton)) as (H1 & _ & _ & H2 & _).
  split; [exact H1|apply H2].
Defined.
