(* ===== verification/MemoryPool.v ===== *)
(** * MemoryPool and MemoryPoolManager (base/memory)

    A pool of fixed-size blocks over a byte memory.  The free blocks are chained
    through their own first eight bytes, so what the clients write into their blocks
    and the links of the pool live in the same memory.  [malloc] is a parameter of
    the operations: each takes the result of the calls it makes. *)

From S2P Require Import Prelude.

Open Scope Z_scope.

(** ** Memory *)

Definition memory := Z -> byte.

Definition in_range (p n a : Z) : bool := (p <=? a) && (a <? p + n).

(** A pointer is eight bytes. *)
Definition store_ptr (p v : Z) (m : memory) : memory :=
  fun a => if in_range p 8 a then nth (Z.to_nat (a - p)) (le_bytes 8 v) x00 else m a.
Definition load_ptr (p : Z) (m : memory) : Z := le_val ((fun i => m (p + i)) <$> seqZ 0 8).
Definition fill_zero (p n : Z) (m : memory) : memory :=
  fun a => if in_range p n a then x00 else m a.

Lemma in_range_spec p n a : in_range p n a = true <-> p <= a < p + n.
Proof. unfold in_range. rewrite andb_true_iff, Z.leb_le, Z.ltb_lt. lia. Qed.

Lemma in_range_false p n a : ~ (p <= a < p + n) -> in_range p n a = false.
Proof. rewrite <-in_range_spec. by destruct (in_range p n a). Qed.

Lemma load_store p v m : 0 <= v < 2 ^ 64 -> load_ptr p (store_ptr p v m) = v.
Proof.
  intros Hv. unfold load_ptr, store_ptr.
  replace (_ <$> seqZ 0 8) with (le_bytes 8 v).
  { rewrite le_val_bytes, Z.mod_small; [done|exact Hv]. }
  rewrite <-(length_le_bytes 8 v) at 1.
  apply list_eq_same_length with 8%nat; [by rewrite length_fmap, length_seqZ|apply length_le_bytes|].
  intros i x y Hi Hx Hy. rewrite list_lookup_fmap in Hy.
  apply fmap_Some in Hy as (z & Hz & ->). apply lookup_seqZ in Hz as [-> Hz].
  rewrite (proj2 (in_range_spec _ _ _)) by lia.
  replace (Z.to_nat (p + (0 + Z.of_nat i) - p)) with i by lia.
  symmetry. by apply nth_lookup_Some.
Qed.

Lemma load_ext p m m' : (forall a, p <= a < p + 8 -> m a = m' a) -> load_ptr p m = load_ptr p m'.
Proof.
  intros H. unfold load_ptr. f_equal. apply list_fmap_ext. intros i x Hx.
  apply lookup_seqZ in Hx as [-> Hx]. apply H. lia.
Qed.

(** ** The pool *)

(** [all_chunks_] with the size given to [malloc]; the null pointer is 0. *)
Record MemoryPool := {
  item_size_ : Z;
  block_size_ : Z;
  free_list_ : Z;
  total_blocks_ : Z;
  free_blocks_ : Z;
  all_chunks_ : list (Z * Z);
  mem : memory;
}.

Definition set_mem (m : memory) (s : MemoryPool) : MemoryPool :=
  {| item_size_ := item_size_ s; block_size_ := block_size_ s; free_list_ := free_list_ s;
     total_blocks_ := total_blocks_ s; free_blocks_ := free_blocks_ s;
     all_chunks_ := all_chunks_ s; mem := m |}.
Definition set_free (head blocks : Z) (s : MemoryPool) : MemoryPool :=
  {| item_size_ := item_size_ s; block_size_ := block_size_ s; free_list_ := head;
     total_blocks_ := total_blocks_ s; free_blocks_ := u64 blocks;
     all_chunks_ := all_chunks_ s; mem := mem s |}.
Definition add_chunk (chunk size blocks : Z) (s : MemoryPool) : MemoryPool :=
  {| item_size_ := item_size_ s; block_size_ := block_size_ s; free_list_ := free_list_ s;
     total_blocks_ := u64 (total_blocks_ s + blocks);
     free_blocks_ := u64 (free_blocks_ s + blocks);
     all_chunks_ := all_chunks_ s ++ [(chunk, size)]; mem := mem s |}.

(** An access of [n] bytes is defined inside one allocated chunk. *)
Definition allocated (p n : Z) (s : MemoryPool) : bool :=
  existsb (fun '(a, size) => (a <=? p) && (p + n <=? a + size)) (all_chunks_ s).

Definition read_ptr (p : Z) (s : MemoryPool) : outcome Z :=
  if allocated p 8 s then Ret (load_ptr p (mem s)) else Undef.
Definition write_ptr (p v : Z) (s : MemoryPool) : outcome MemoryPool :=
  if allocated p 8 s then Ret (set_mem (store_ptr p v (mem s)) s) else Undef.
Definition memset0 (p n : Z) (s : MemoryPool) : outcome MemoryPool :=
  if allocated p n s then Ret (set_mem (fill_zero p n (mem s)) s) else Undef.

(** [for (i = start; i < stop; ++i) link block i to block i + 1]. *)
Fixpoint link_loop (fuel : nat) (base i stop : Z) (s : MemoryPool) : outcome MemoryPool :=
  match fuel with
  | O => Ret s
  | S fuel' =>
      if i <? stop then
        s' ← write_ptr (base + i * item_size_ s) (base + (i + 1) * item_size_ s) s;
        link_loop fuel' base (i + 1) stop s'
      else Ret s
  end.

Definition allocate (malloc : option Z) (s : MemoryPool) : outcome (Z * MemoryPool) :=
  if negb (free_list_ s =? 0) then
    let ptr := free_list_ s in
    next ← read_ptr ptr s;
    s' ← memset0 ptr (item_size_ s) (set_free next (free_blocks_ s - 1) s);
    Ret (ptr, s')
  else
    match malloc with
    | None => Ret (0, s)
    | Some base =>
        let last := u64 (block_size_ s - 1) in
        let s1 := add_chunk base (u64 (item_size_ s * block_size_ s)) (block_size_ s) s in
        let s2 := set_free (base + item_size_ s) (free_blocks_ s1) s1 in
        s3 ← link_loop (Z.to_nat last) base 1 last s2;
        s4 ← write_ptr (base + last * item_size_ s) 0 s3;
        s5 ← memset0 base (item_size_ s) s4;
        Ret (base, set_free (free_list_ s5) (free_blocks_ s5 - 1) s5)
    end.

Definition deallocate (ptr : Z) (s : MemoryPool) : outcome MemoryPool :=
  if ptr =? 0 then Ret s
  else
    s' ← write_ptr ptr (free_list_ s) s;
    Ret (set_free ptr (free_blocks_ s' + 1) s').

(** One turn of the loop of [pre_allocate], on a chunk of [batch] blocks. *)
Definition pre_batch (base batch : Z) (s : MemoryPool) : outcome MemoryPool :=
  let s1 := add_chunk base (u64 (item_size_ s * batch)) batch s in
  let last := u64 (batch - 1) in
  s2 ← link_loop (Z.to_nat last) base 0 last s1;
  s3 ← write_ptr (base + last * item_size_ s) (free_list_ s2) s2;
  Ret (set_free base (free_blocks_ s3) s3).

(** [mallocs] are the results of the calls, in order; the list ends like a failure. *)
Fixpoint pre_loop (mallocs : list (option Z)) (todo : Z) (s : MemoryPool) : outcome MemoryPool :=
  if todo <=? 0 then Ret s
  else
    match mallocs with
    | Some base :: l =>
        let batch := Z.min todo (block_size_ s) in
        s' ← pre_batch base batch s;
        pre_loop l (todo - batch) s'
    | _ => Ret s
    end.
Definition pre_allocate (mallocs : list (option Z)) (count : Z) (s : MemoryPool)
    : outcome MemoryPool := pre_loop mallocs count s.

Definition new_pool (item_size block_size : Z) (m : memory) : MemoryPool :=
  {| item_size_ := if item_size <? 8 then 8 else item_size; block_size_ := block_size;
     free_list_ := 0; total_blocks_ := 0; free_blocks_ := 0; all_chunks_ := []; mem := m |}.
Definition construct (mallocs : list (option Z)) (item_size pre_alloc block_size : Z) (m : memory)
    : outcome MemoryPool := pre_allocate mallocs pre_alloc (new_pool item_size block_size m).

Definition used_blocks (s : MemoryPool) : Z := u64 (total_blocks_ s - free_blocks_ s).

(** ** What the pool promises: free and used blocks share the chunks *)

Definition block (base item i : Z) : Z := base + i * item.
Definition blocks_of (item : Z) (chunk : Z * Z) : list Z :=
  block (fst chunk) item <$> seqZ 0 (snd chunk / item).
Definition all_blocks (s : MemoryPool) : list Z := all_chunks_ s ≫= blocks_of (item_size_ s).

(** The chain that starts at [h]. *)
Fixpoint chain (m : memory) (h : Z) (l : list Z) : Prop :=
  match l with
  | [] => h = 0
  | p :: l' => h = p /\ chain m (load_ptr p m) l'
  end.

Record inv (s : MemoryPool) (free used : list Z) : Prop := {
  inv_item : 8 <= item_size_ s;
  inv_perm : free ++ used ≡ₚ all_blocks s;
  inv_sep : forall p q, p ∈ all_blocks s -> q ∈ all_blocks s -> p <> q ->
    p + item_size_ s <= q \/ q + item_size_ s <= p;
  inv_nodup : NoDup (all_blocks s);
  inv_chunk : forall p, p ∈ all_blocks s -> 0 < p < 2 ^ 64 /\
    exists a size, (a, size) ∈ all_chunks_ s /\ a <= p /\ p + item_size_ s <= a + size;
  inv_chain : chain (mem s) (free_list_ s) free;
  inv_total : total_blocks_ s = u64 (zlen (all_blocks s));
  inv_free : free_blocks_ s = u64 (zlen free);
}.

(** What [malloc] returns: [n] bytes outside every other chunk. *)
Definition fresh_chunk (base n : Z) (s : MemoryPool) : Prop :=
  0 < base /\ base + n < 2 ^ 64 /\
  forall a size, (a, size) ∈ all_chunks_ s -> base + n <= a \/ a + size <= base.

Definition zeroed (p n : Z) (m : memory) : Prop := forall a, p <= a < p + n -> m a = x00.
Definition same_bytes (p n : Z) (m m' : memory) : Prop := forall a, p <= a < p + n -> m' a = m a.

Lemma in_blocks_of item a n p :
  0 < item -> p ∈ blocks_of item (a, item * n) <-> exists i, 0 <= i < n /\ p = a + i * item.
Proof.
  intros Hi. unfold blocks_of. simpl. rewrite (Z.mul_comm item n), Z.div_mul by lia.
  rewrite list_elem_of_fmap. split.
  - intros (i & -> & Hin%elem_of_seqZ). exists i. split; [lia|done].
  - intros (i & Hin & ->). exists i. split; [done|]. apply elem_of_seqZ. lia.
Qed.

Lemma NoDup_blocks_of item a n : 0 < item -> NoDup (blocks_of item (a, item * n)).
Proof.
  intros Hi. unfold blocks_of. apply NoDup_fmap_2; [|apply NoDup_seqZ].
  intros i j. unfold block. simpl. nia.
Qed.

Lemma chain_ext m m' h l :
  (forall p, p ∈ l -> forall a, p <= a < p + 8 -> m a = m' a) -> chain m h l -> chain m' h l.
Proof.
  revert h. induction l as [|p l IH]; intros h Hm; simpl; [done|]. intros [-> Hc].
  split; [done|]. rewrite <-(load_ext p m m') by (apply Hm; left).
  apply IH; [|done]. intros q Hq. apply Hm. by right.
Qed.

(** A run of linked blocks in front of a chain. *)
Lemma chain_blocks m (b : Z -> Z) (k : nat) start h l :
  (forall i, start <= i < start + Z.of_nat k -> load_ptr (b i) m =
     if decide (i = start + Z.of_nat k - 1) then h else b (i + 1)) ->
  chain m h l -> chain m (if decide (k = 0%nat) then h else b start) ((b <$> seqZ start (Z.of_nat k)) ++ l).
Proof.
  revert start. induction k as [|k IH]; intros start Hl Hc; [done|].
  rewrite seqZ_cons by lia. simpl. split; [done|].
  rewrite Hl by lia. replace (Z.pred (Z.of_nat (S k))) with (Z.of_nat k) by lia.
  replace (Z.succ start) with (start + 1) by lia.
  specialize (IH (start + 1)). destruct (decide (k = 0%nat)) as [->|Hk].
  - rewrite decide_True by lia. exact Hc.
  - rewrite decide_False by lia. apply IH; [|done]. intros i Hi. rewrite Hl by lia.
    by destruct (decide (i = start + 1 + Z.of_nat k - 1)), (decide (i = start + Z.of_nat (S k) - 1));
      [..|lia|lia|].
Qed.

Lemma allocated_intro p n a size (s : MemoryPool) :
  (a, size) ∈ all_chunks_ s -> a <= p -> p + n <= a + size -> allocated p n s = true.
Proof.
  intros Hin H1 H2. unfold allocated. apply existsb_exists. exists (a, size).
  rewrite <-list_elem_of_In. split; [done|]. rewrite andb_true_iff, !Z.leb_le. lia.
Qed.

Lemma inv_allocated s free used p n :
  inv s free used -> p ∈ all_blocks s -> n <= item_size_ s -> allocated p n s = true.
Proof.
  intros Hi Hp Hn. destruct (inv_chunk _ _ _ Hi p Hp) as (_ & a & size & Hin & H1 & H2).
  apply (allocated_intro _ _ a size); [done|lia..].
Qed.

(** ** Linking a chunk *)

Lemma link_loop_spec fuel base i stop s n :
  8 <= item_size_ s -> (base, item_size_ s * n) ∈ all_chunks_ s ->
  0 <= i -> stop < n -> 0 < base -> base + item_size_ s * n < 2 ^ 64 ->
  stop - i <= Z.of_nat fuel ->
  exists m,
    link_loop fuel base i stop s = Ret (set_mem m s) /\
    (forall j, i <= j < stop -> load_ptr (block base (item_size_ s) j) m =
       block base (item_size_ s) (j + 1)) /\
    (forall a, ~ (base + i * item_size_ s <= a < base + stop * item_size_ s) -> m a = mem s a).
Proof.
  revert i s. induction fuel as [|fuel IH]; intros i s Hit Hin Hi Hstop Hb Hmax Hf.
  - exists (mem s). split; [by destruct s|]. split; [lia|done].
  - cbn [link_loop]. destruct (Z.ltb_spec i stop).
    2: { exists (mem s). split; [by destruct s|]. split; [lia|done]. }
    unfold write_ptr. rewrite (allocated_intro _ _ base (item_size_ s * n)) by (done || nia).
    rewrite bind_Ret.
    set (s1 := set_mem _ s).
    destruct (IH (i + 1) s1) as (m & E & Hl & Hm); try (done || lia).
    exists m. simpl in *. split; [exact E|]. split.
    + intros j Hj. destruct (decide (j = i)) as [->|]; [|apply Hl; lia].
      rewrite (load_ext _ m (store_ptr (base + i * item_size_ s)
        (base + (i + 1) * item_size_ s) (mem s))).
      * apply load_store. unfold block.
        pose proof (Z.mul_le_mono_nonneg_r (i + 1) n (item_size_ s) ltac:(lia) ltac:(lia)).
        pose proof (Z.mul_nonneg_nonneg (i + 1) (item_size_ s) ltac:(lia) ltac:(lia)). lia.
      * intros a Ha. apply Hm. unfold block in Ha. nia.
    + intros a Ha. rewrite Hm by (intros ?; apply Ha; nia). unfold store_ptr.
      rewrite in_range_false; [done|]. intros ?. apply Ha. nia.
Qed.

Lemma set_mem_fields m s :
  item_size_ (set_mem m s) = item_size_ s /\ all_blocks (set_mem m s) = all_blocks s.
Proof. done. Qed.

(** ** Adding a chunk *)

Lemma all_blocks_grow s s' base n :
  item_size_ s' = item_size_ s -> all_chunks_ s' = all_chunks_ s ++ [(base, item_size_ s * n)] ->
  all_blocks s' = all_blocks s ++ blocks_of (item_size_ s) (base, item_size_ s * n).
Proof.
  intros E1 E2. unfold all_blocks. rewrite E1, E2, bind_app. simpl. by rewrite app_nil_r.
Qed.

(** A new block lies in the new chunk, an old one in an old chunk. *)
Lemma grow_apart s free used base n p q :
  inv s free used -> fresh_chunk base (item_size_ s * n) s ->
  p ∈ all_blocks s -> q ∈ blocks_of (item_size_ s) (base, item_size_ s * n) ->
  p + item_size_ s <= q \/ q + item_size_ s <= p.
Proof.
  intros Hi (_ & _ & Hf) Hp Hq. pose proof (inv_item _ _ _ Hi).
  destruct (inv_chunk _ _ _ Hi p Hp) as (_ & a & size & Hin & H1 & H2).
  apply in_blocks_of in Hq as (i & Hin' & ->); [|lia].
  assert (0 <= i * item_size_ s) by (apply Z.mul_nonneg_nonneg; lia).
  assert ((i + 1) * item_size_ s <= n * item_size_ s) by (apply Z.mul_le_mono_nonneg_r; lia).
  destruct (Hf a size Hin); [right|left]; lia.
Qed.

Record grown (s s' : MemoryPool) : Prop := {
  gr_sep : forall p q, p ∈ all_blocks s' -> q ∈ all_blocks s' -> p <> q ->
    p + item_size_ s <= q \/ q + item_size_ s <= p;
  gr_nodup : NoDup (all_blocks s');
  gr_chunk : forall p, p ∈ all_blocks s' -> 0 < p < 2 ^ 64 /\
    exists a size, (a, size) ∈ all_chunks_ s' /\ a <= p /\ p + item_size_ s <= a + size;
}.

Lemma inv_grown s free used s' base n :
  inv s free used -> fresh_chunk base (item_size_ s * n) s ->
  item_size_ s' = item_size_ s -> all_chunks_ s' = all_chunks_ s ++ [(base, item_size_ s * n)] ->
  grown s s'.
Proof.
  intros Hi Hf E1 E2. pose proof (inv_item _ _ _ Hi) as Hit.
  split.
  - rewrite (all_blocks_grow s s' base n E1 E2). intros p q.
    rewrite !elem_of_app. intros [Hp|Hp] [Hq|Hq] Hne.
    + by apply (inv_sep _ _ _ Hi).
    + by eapply grow_apart.
    + destruct (grow_apart s free used base n q p); auto.
    + apply in_blocks_of in Hp as (i & ? & ->); [|lia]. apply in_blocks_of in Hq as (j & ? & ->); [|lia].
      assert (i <> j) by congruence. destruct (decide (i < j)).
      * assert ((i + 1) * item_size_ s <= j * item_size_ s) by (apply Z.mul_le_mono_nonneg_r; lia).
        left. lia.
      * assert ((j + 1) * item_size_ s <= i * item_size_ s) by (apply Z.mul_le_mono_nonneg_r; lia).
        right. lia.
  - rewrite (all_blocks_grow s s' base n E1 E2). apply NoDup_app.
    split_and!; [apply Hi| |apply NoDup_blocks_of; lia].
    intros p Hp Hp'. destruct (grow_apart s free used base n p p); try done; lia.
  - rewrite (all_blocks_grow s s' base n E1 E2). intros p [Hp|Hp]%elem_of_app.
    + destruct (inv_chunk _ _ _ Hi p Hp) as (? & a & size & Hin & ?).
      split; [done|]. exists a, size. rewrite E2, elem_of_app. auto.
    + destruct Hf as (Hb & Hmax & _). apply in_blocks_of in Hp as (i & Hin & ->); [|lia].
      assert (0 <= i * item_size_ s) by (apply Z.mul_nonneg_nonneg; lia).
      assert ((i + 1) * item_size_ s <= n * item_size_ s) by (apply Z.mul_le_mono_nonneg_r; lia).
      split; [lia|]. exists base, (item_size_ s * n). rewrite E2, elem_of_app, list_elem_of_singleton.
      split; [by right|lia].
Qed.

(** ** Allocation *)

(** What [allocate] promises for the block [p] it returns. *)
Record allocated_block (s s' : MemoryPool) (p : Z) (used : list Z) : Prop := {
  ab_fresh : p ∉ used;
  ab_valid : allocated p (item_size_ s) s' = true;
  ab_zero : zeroed p (item_size_ s) (mem s');
  ab_apart : forall q, q ∈ used -> p + item_size_ s <= q \/ q + item_size_ s <= p;
  ab_same : forall q, q ∈ used -> same_bytes q (item_size_ s) (mem s) (mem s');
}.

Lemma fill_zero_spec p n m : zeroed p n (fill_zero p n m).
Proof. intros a Ha. unfold fill_zero. by rewrite (proj2 (in_range_spec _ _ _)). Qed.

Lemma fill_zero_other p n q k m :
  p + n <= q \/ q + k <= p -> same_bytes q k m (fill_zero p n m).
Proof. intros H a Ha. unfold fill_zero. rewrite in_range_false; [done|lia]. Qed.

Lemma inv_elems s free used p :
  inv s free used -> p ∈ free ++ used -> p ∈ all_blocks s.
Proof. intros Hi. by rewrite (inv_perm _ _ _ Hi). Qed.

Lemma inv_NoDup s free used : inv s free used -> NoDup (free ++ used).
Proof. intros Hi. rewrite (inv_perm _ _ _ Hi). apply Hi. Qed.

Lemma u64_step a b : u64 (u64 a + b) = u64 (a + b).
Proof. unfold u64. by rewrite Zplus_mod_idemp_l. Qed.

Lemma allocate_pop malloc s p free used :
  inv s (p :: free) used ->
  exists s', allocate malloc s = Ret (p, s') /\ inv s' free (p :: used) /\
    allocated_block s s' p used /\ item_size_ s' = item_size_ s /\ block_size_ s' = block_size_ s.
Proof.
  intros Hi. pose proof (inv_item _ _ _ Hi) as Hit. pose proof (inv_NoDup _ _ _ Hi) as Hnd.
  assert (p ∈ all_blocks s) as Hp by (eapply inv_elems; [done|left]).
  destruct (inv_chain _ _ _ Hi) as [Hh Hc].
  destruct (inv_chunk _ _ _ Hi p Hp) as [[Hp0 _] _].
  simpl in Hnd. apply NoDup_cons in Hnd as [Hpn Hnd]. rewrite not_elem_of_app in Hpn.
  assert (forall q, q ∈ free ++ used -> p + item_size_ s <= q \/ q + item_size_ s <= p) as Hsep.
  { intros q Hq. apply (inv_sep _ _ _ Hi); [done|eapply inv_elems; [done|by right]|].
    intros ->. apply elem_of_app in Hq. tauto. }
  unfold allocate. rewrite Hh, (proj2 (Z.eqb_neq _ _)) by lia. cbn [negb].
  unfold read_ptr. rewrite (inv_allocated _ _ _ _ 8 Hi Hp) by lia. rewrite bind_Ret.
  unfold memset0. assert (forall h n, allocated p (item_size_ s) (set_free h n s) = true) as Hal.
  { intros h n. by apply (inv_allocated _ _ _ _ _ Hi Hp). }
  rewrite Hal, bind_Ret. eexists. split; [done|]. split; [|split; [|done]].
  - split; simpl; try apply Hi.
    + change (all_blocks _) with (all_blocks s). rewrite <-(inv_perm _ _ _ Hi). simpl.
      by rewrite Permutation_middle.
    + eapply chain_ext; [|exact Hc]. intros q Hq a Ha. symmetry.
      apply (fill_zero_other p (item_size_ s) q 8); [|exact Ha].
      destruct (Hsep q); [apply elem_of_app; by left|lia..].
    + rewrite (inv_free _ _ _ Hi), zlen_cons. rewrite <-Z.add_opp_r, u64_step. f_equal. lia.
  - split; simpl; [tauto|apply Hal|apply fill_zero_spec| |].
    + intros q Hq. apply Hsep, elem_of_app. by right.
    + intros q Hq. apply fill_zero_other. apply Hsep, elem_of_app. by right.
Qed.

(** The memory after the links of a chunk were written: [k] links, then the link [h]
    of the last block. *)
Lemma link_chunk base i n h s :
  8 <= item_size_ s -> (base, item_size_ s * n) ∈ all_chunks_ s ->
  0 <= i <= n - 1 -> 0 < base -> base + item_size_ s * n < 2 ^ 64 -> 0 <= h < 2 ^ 64 ->
  exists m,
    (s' ← link_loop (Z.to_nat (n - 1)) base i (n - 1) s;
     write_ptr (base + (n - 1) * item_size_ s) h s') = Ret (set_mem m s) /\
    (forall j, i <= j < n -> load_ptr (block base (item_size_ s) j) m =
       if decide (j = n - 1) then h else block base (item_size_ s) (j + 1)) /\
    (forall a, ~ (base + i * item_size_ s <= a < base + n * item_size_ s) -> m a = mem s a).
Proof.
  intros Hit Hin Hi Hb Hmax Hh.
  destruct (link_loop_spec (Z.to_nat (n - 1)) base i (n - 1) s n) as (m & -> & Hl & Hm);
    [done|done|lia..|].
  rewrite bind_Ret. unfold write_ptr.
  assert (0 <= (n - 1) * item_size_ s) by (apply Z.mul_nonneg_nonneg; lia).
  rewrite (allocated_intro _ _ base (item_size_ s * n)) by (done || lia).
  eexists. split; [done|]. simpl. split.
  - intros j Hj. case_decide as E; [subst j; by apply load_store|].
    rewrite <-Hl by lia. apply load_ext. intros a Ha. unfold store_ptr.
    rewrite in_range_false; [done|]. unfold block in Ha.
    assert ((j + 1) * item_size_ s <= (n - 1) * item_size_ s) by (apply Z.mul_le_mono_nonneg_r; lia).
    lia.
  - assert (i * item_size_ s <= (n - 1) * item_size_ s) by (apply Z.mul_le_mono_nonneg_r; lia).
    intros a Ha. unfold store_ptr. rewrite in_range_false by lia. apply Hm. lia.
Qed.

Lemma allocate_grow s base used :
  inv s [] used -> 2 <= block_size_ s -> item_size_ s * block_size_ s < 2 ^ 64 ->
  fresh_chunk base (item_size_ s * block_size_ s) s ->
  exists s' free, allocate (Some base) s = Ret (base, s') /\ inv s' free (base :: used) /\
    allocated_block s s' base used /\ zlen free = block_size_ s - 1 /\
    item_size_ s' = item_size_ s /\ block_size_ s' = block_size_ s.
Proof.
  intros Hi Hbs Hfit Hf. pose proof (inv_item _ _ _ Hi) as Hit.
  pose proof (inv_chain _ _ _ Hi) as Hh. simpl in Hh. pose proof Hf as (Hb & Hmax & _).
  set (n := block_size_ s) in *. set (it := item_size_ s) in *.
  assert (0 <= it * n) by (apply Z.mul_nonneg_nonneg; lia).
  unfold allocate. rewrite Hh. cbn [negb Z.eqb]. fold n it.
  rewrite !(u64_small (n - 1)), (u64_small (it * n)) by nia.
  set (s2 := set_free _ _ _). 
  assert ((base, it * n) ∈ all_chunks_ s2) as Hin by (simpl; apply elem_of_app; right; left).
  destruct (link_chunk base 1 n 0 s2) as (m & E & Hl & Hm); [exact Hit|exact Hin|lia|lia|exact Hmax|lia|].
  change (item_size_ s2) with it in *.
  destruct (link_loop (Z.to_nat (n - 1)) base 1 (n - 1) s2) as [s3| |]; try done.
  rewrite bind_Ret in E. rewrite bind_Ret, E, bind_Ret. unfold memset0.
  change (item_size_ s) with it.
  rewrite (allocated_intro _ _ base (it * n)); [|done|lia|nia]. rewrite bind_Ret.
  set (s' := set_free _ _ _).
  assert (all_chunks_ s' = all_chunks_ s ++ [(base, it * n)]) as Ech by done.
  pose proof (inv_grown s [] used s' base n Hi Hf eq_refl Ech) as [Hsep Hnd Hch].
  pose proof (all_blocks_grow s s' base n eq_refl Ech) as Eall. fold it in Eall.
  assert (blocks_of it (base, it * n) = base :: (block base it <$> seqZ 1 (n - 1))) as Ebl.
  { unfold blocks_of. simpl. rewrite (Z.mul_comm it n), Z.div_mul by lia.
    rewrite seqZ_cons by lia. simpl. f_equal. unfold block. lia. }
  assert (forall q, q ∈ used -> base + it * n <= q \/ q + it <= base) as Hold.
  { intros q Hq. destruct (inv_chunk _ _ _ Hi q) as (_ & a & size & Hq1 & Hq2 & Hq3).
    { eapply inv_elems; [done|]. exact Hq. }
    destruct Hf as (_ & _ & Hf). fold it in Hq3. destruct (Hf a size Hq1); lia. }
  assert (it <= it * n) by nia. assert (n < 2 ^ 64) by nia.
  exists s', (block base it <$> seqZ 1 (n - 1)). split; [done|].
  split; [|split; [|split_and!; try done]].
  - split; try done.
    + rewrite Eall, Ebl, <-(inv_perm _ _ _ Hi). simpl.
      rewrite <-!Permutation_middle. constructor. apply Permutation_app_comm.
    + simpl. apply (chain_ext m).
      { intros p Hp a Ha. symmetry. apply (fill_zero_other base it p 8); [|exact Ha].
        apply list_elem_of_fmap in Hp as (i & -> & Hi'%elem_of_seqZ). left. unfold block. nia. }
      pose proof (chain_blocks m (block base it) (Z.to_nat (n - 1)) 1 0 []) as Hcb.
      rewrite Z2Nat.id, app_nil_r in Hcb by lia. rewrite decide_False in Hcb by lia.
      replace (base + it) with (block base it 1) by (unfold block; lia). apply Hcb; [|done].
      intros i Hi'. rewrite Hl by lia. by repeat case_decide; try lia.
    + rewrite Eall, zlen_app, Ebl, zlen_cons. simpl. rewrite (inv_total _ _ _ Hi), u64_step.
      f_equal. unfold zlen at 3. rewrite length_fmap, length_seqZ. fold n. lia.
    + simpl. rewrite (inv_free _ _ _ Hi), (zlen_nil (A := Z)). unfold zlen. rewrite length_fmap, length_seqZ.
      fold n. rewrite (u64_small 0), Z.add_0_l, !(u64_small n), Z2Nat.id by lia. done.
  - split; simpl.
    + intros Hu. destruct (Hold base Hu); lia.
    + apply (allocated_intro _ _ base (it * n)); [done|lia|fold it; lia].
    + apply fill_zero_spec.
    + fold it. intros q Hq. destruct (Hold q Hq); [left|right]; lia.
    + fold it. intros q Hq a Ha. rewrite (fill_zero_other base it q it) by
        (exact Ha || (destruct (Hold q Hq); [left|right]; lia)).
      apply Hm. destruct (Hold q Hq); [|lia]. intros ?. nia.
  - unfold zlen. rewrite length_fmap, length_seqZ. lia.
Qed.

(** ** Release, and what the clients write *)

Lemma store_ptr_other p v q k m :
  p + 8 <= q \/ q + k <= p -> same_bytes q k m (store_ptr p v m).
Proof. intros H a Ha. unfold store_ptr. rewrite in_range_false; [done|lia]. Qed.

Lemma chain_head_range s free used : inv s free used -> 0 <= free_list_ s < 2 ^ 64.
Proof.
  intros Hi. pose proof (inv_chain _ _ _ Hi) as Hc. destruct free as [|p free]; simpl in Hc; [lia|].
  destruct Hc as [-> _]. destruct (inv_chunk _ _ _ Hi p) as [? _]; [eapply inv_elems; [done|left]|lia].
Qed.

Lemma deallocate_spec s free used p used' :
  inv s free used -> used ≡ₚ p :: used' ->
  exists s', deallocate p s = Ret s' /\ inv s' (p :: free) used' /\
    (forall q, q ∈ used' -> same_bytes q (item_size_ s) (mem s) (mem s')) /\
    item_size_ s' = item_size_ s /\ block_size_ s' = block_size_ s.
Proof.
  intros Hi Hu. pose proof (inv_item _ _ _ Hi) as Hit. pose proof (inv_NoDup _ _ _ Hi) as Hnd.
  assert (p ∈ free ++ used) as Hin by (rewrite Hu, elem_of_app; right; left).
  pose proof (inv_elems _ _ _ _ Hi Hin) as Hp.
  destruct (inv_chunk _ _ _ Hi p Hp) as [[Hp0 _] _].
  assert (free ++ used ≡ₚ p :: (free ++ used')) as Hperm by (rewrite Hu; by rewrite <-Permutation_middle).
  assert (forall q, q ∈ free ++ used' -> p + item_size_ s <= q \/ q + item_size_ s <= p) as Hsep.
  { intros q Hq. apply (inv_sep _ _ _ Hi); [done|eapply inv_elems; [done|]|].
    - rewrite Hperm. by right.
    - intros ->. rewrite Hperm in Hnd. by apply NoDup_cons in Hnd as [? _]. }
  unfold deallocate. rewrite (proj2 (Z.eqb_neq _ _)) by lia. unfold write_ptr.
  rewrite (inv_allocated _ _ _ _ 8 Hi Hp), bind_Ret by lia.
  eexists. split; [done|]. split; [|split; [|done]].
  - split; simpl; try apply Hi.
    + change (all_blocks _) with (all_blocks s). by rewrite <-(inv_perm _ _ _ Hi), Hperm.
    + split; [done|]. rewrite load_store by (by eapply chain_head_range).
      eapply chain_ext; [|apply Hi]. intros q Hq a Ha. symmetry.
      apply (store_ptr_other p _ q 8); [|done].
      destruct (Hsep q); [apply elem_of_app; by left|lia..].
    + by rewrite (inv_free _ _ _ Hi), u64_step, zlen_cons, Z.add_comm.
  - intros q Hq. simpl. apply store_ptr_other.
    destruct (Hsep q); [apply elem_of_app; by right|lia..].
Qed.

(** Clients write inside their blocks only. *)
Definition client_write (used : list Z) (m : memory) (s : MemoryPool) : Prop :=
  forall a, (forall q, q ∈ used -> ~ (q <= a < q + item_size_ s)) -> m a = mem s a.

Lemma client_write_inv s free used m :
  inv s free used -> client_write used m s -> inv (set_mem m s) free used.
Proof.
  intros Hi Hw. pose proof (inv_item _ _ _ Hi) as Hit. pose proof (inv_NoDup _ _ _ Hi) as Hnd.
  split; try apply Hi. simpl. eapply chain_ext; [|apply Hi].
  intros p Hp a Ha. symmetry. apply Hw. intros q Hq Hqa.
  apply NoDup_app in Hnd as (_ & Hdis & _).
  destruct (inv_sep _ _ _ Hi p q); [eapply inv_elems; [done|]; apply elem_of_app; auto..| |lia|lia].
  intros ->. by apply (Hdis q).
Qed.

(** ** Pre-allocation *)

Lemma pre_batch_spec s free used base batch :
  inv s free used -> 1 <= batch -> fresh_chunk base (item_size_ s * batch) s ->
  exists s', pre_batch base batch s = Ret s' /\
    inv s' ((block base (item_size_ s) <$> seqZ 0 batch) ++ free) used /\
    item_size_ s' = item_size_ s /\ block_size_ s' = block_size_ s /\
    all_chunks_ s' = all_chunks_ s ++ [(base, item_size_ s * batch)].
Proof.
  intros Hi Hb1 Hf. pose proof (inv_item _ _ _ Hi) as Hit. pose proof Hf as (Hb & Hmax & _).
  pose proof (chain_head_range _ _ _ Hi) as Hh.
  set (it := item_size_ s) in *. assert (it <= it * batch) by nia. assert (batch <= it * batch) by nia.
  unfold pre_batch. fold it. rewrite !(u64_small (batch - 1)), (u64_small (it * batch)) by nia.
  set (s1 := add_chunk _ _ _ _).
  assert ((base, it * batch) ∈ all_chunks_ s1) as Hin by (simpl; apply elem_of_app; right; left).
  destruct (link_chunk base 0 batch (free_list_ s) s1) as (m & E & Hl & Hm);
    [exact Hit|exact Hin|lia|lia|exact Hmax|lia|].
  change (item_size_ s1) with it in *.
  destruct (link_loop_spec (Z.to_nat (batch - 1)) base 0 (batch - 1) s1 batch) as (m2 & E2 & _ & _);
    [exact Hit|exact Hin|lia|lia|lia|exact Hmax|lia|].
  rewrite E2, bind_Ret in E. rewrite E2, bind_Ret. simpl free_list_. rewrite E, bind_Ret.
  set (s' := set_free _ _ _).
  assert (all_chunks_ s' = all_chunks_ s ++ [(base, it * batch)]) as Ech by done.
  pose proof (inv_grown s free used s' base batch Hi Hf eq_refl Ech) as [Hsep Hnd Hch].
  pose proof (all_blocks_grow s s' base batch eq_refl Ech) as Eall. fold it in Eall.
  assert (blocks_of it (base, it * batch) = block base it <$> seqZ 0 batch) as Ebl.
  { unfold blocks_of. simpl. by rewrite (Z.mul_comm it batch), Z.div_mul by lia. }
  exists s'. split; [done|]. split; [|done]. split; try done.
  - rewrite Eall, Ebl, <-(inv_perm _ _ _ Hi), <-app_assoc. apply Permutation_app_comm.
  - simpl. pose proof (chain_blocks m (block base it) (Z.to_nat batch) 0 (free_list_ s) free) as Hcb.
    rewrite Z2Nat.id, decide_False in Hcb by lia.
    replace base with (block base it 0) at 1 by (unfold block; lia). apply Hcb.
    + intros i Hi'. rewrite Hl by lia. by repeat case_decide; try lia.
    + eapply chain_ext; [|apply Hi]. intros p Hp a Ha. symmetry. apply Hm.
      intros Hba. destruct (inv_chunk _ _ _ Hi p) as (_ & c & size & Hc1 & Hc2 & Hc3).
      { eapply inv_elems; [done|]. apply elem_of_app. by left. }
      destruct Hf as (_ & _ & Hf). destruct (Hf c size Hc1); fold it in Hc3; nia.
  - rewrite Eall, zlen_app, Ebl. simpl. rewrite (inv_total _ _ _ Hi), u64_step. f_equal.
    unfold zlen at 3. rewrite length_fmap, length_seqZ. lia.
  - simpl. rewrite (inv_free _ _ _ Hi), u64_step, zlen_app. unfold u64. rewrite Z.mod_mod by lia.
    f_equal. unfold zlen at 2. rewrite length_fmap, length_seqZ. lia.
Qed.

(** The results of the [malloc] calls of [pre_allocate]: each a fresh chunk. *)
Fixpoint fresh_mallocs (bases : list Z) (todo : Z) (s : MemoryPool) : Prop :=
  match bases with
  | [] => True
  | base :: l =>
      todo <= 0 \/
      let batch := Z.min todo (block_size_ s) in
      fresh_chunk base (item_size_ s * batch) s /\
      fresh_mallocs l (todo - batch) (add_chunk base (item_size_ s * batch) batch s)
  end.

Lemma fresh_mallocs_ext bases todo s s' :
  item_size_ s = item_size_ s' -> block_size_ s = block_size_ s' -> all_chunks_ s = all_chunks_ s' ->
  fresh_mallocs bases todo s -> fresh_mallocs bases todo s'.
Proof.
  revert todo s s'. induction bases as [|base l IH]; intros todo s s' E1 E2 E3; simpl; [done|].
  intros [?|[Hf Hl]]; [by left|right]. rewrite <-E1, <-E2. split.
  - unfold fresh_chunk in *. by rewrite <-E3.
  - eapply IH; [..|exact Hl]; simpl; congruence.
Qed.

Lemma pre_loop_spec bases todo s free used :
  inv s free used -> 1 <= block_size_ s -> 0 <= todo <= block_size_ s * zlen bases ->
  fresh_mallocs bases todo s ->
  exists s' new, pre_loop (Some <$> bases) todo s = Ret s' /\ inv s' (new ++ free) used /\
    zlen new = todo /\ item_size_ s' = item_size_ s /\ block_size_ s' = block_size_ s.
Proof.
  revert todo s free. induction bases as [|base l IH]; intros todo s free Hi Hbs Htodo Hf.
  - unfold zlen in Htodo; simpl in Htodo. assert (todo = 0) as -> by lia. exists s, []. done.
  - cbn [pre_loop fmap list_fmap]. destruct (Z.leb_spec todo 0).
    { exists s, []. split_and!; try done. unfold zlen. simpl. lia. }
    rewrite zlen_cons in Htodo. simpl in Hf. destruct Hf as [|[Hf Hl]]; [lia|].
    set (batch := Z.min todo (block_size_ s)) in *.
    destruct (pre_batch_spec s free used base batch Hi ltac:(lia) Hf)
      as (s1 & -> & Hi1 & E1 & E2 & E3). rewrite bind_Ret.
    destruct (IH (todo - batch) s1 _ Hi1) as (s' & new & Hs' & Hi' & Hn & E4 & E5).
    { lia. }
    { rewrite E2. pose proof (zlen_nonneg l). unfold batch. nia. }
    { eapply fresh_mallocs_ext; [..|exact Hl]; simpl; congruence. }
    exists s', (new ++ (block base (item_size_ s) <$> seqZ 0 batch)).
    rewrite <-app_assoc. split_and!; [done|done| |congruence|congruence].
    rewrite zlen_app, Hn. unfold zlen. rewrite length_fmap, length_seqZ. lia.
Qed.

Lemma new_pool_inv item block m : inv (new_pool item block m) [] [].
Proof.
  split; simpl; try done.
  - case_match; [done|]. by apply Z.ltb_ge.
  - intros p q Hp. by apply not_elem_of_nil in Hp.
  - constructor.
  - intros p Hp. by apply not_elem_of_nil in Hp.
Qed.

(** ** The manager *)

(** [while (alloc_size < size) alloc_size *= 2;] *)
Fixpoint round_loop (fuel : nat) (alloc_size size : Z) : option Z :=
  if alloc_size <? size then
    match fuel with O => None | S fuel' => round_loop fuel' (u64 (alloc_size * 2)) size end
  else Some alloc_size.

(** [pools_]: the sizes with their pools, in order of creation. *)
Abbreviation Manager := (list (Z * MemoryPool)).

(** The index of the first pool of a size. *)
Fixpoint find_pool (alloc_size : Z) (pools : Manager) : option nat :=
  match pools with
  | [] => None
  | (sz, _) :: l => if sz =? alloc_size then Some 0%nat else S <$> find_pool alloc_size l
  end.

(** [None]: the rounding has not ended within [fuel] turns. *)
Definition get_pool (fuel : nat) (mallocs : list (option Z)) (m : memory) (size : Z)
    (pools : Manager) : option (outcome (nat * Manager)) :=
  alloc_size ← round_loop fuel 64 size;
  Some match find_pool alloc_size pools with
       | Some i => Ret (i, pools)
       | None =>
           pool ← construct mallocs alloc_size 64 64 m;
           Ret (length pools, pools ++ [(alloc_size, pool)])
       end.

(** One pool per size of the list, whether or not there is one already. *)
Fixpoint pre_alloc_loop (sizes : list Z) (mallocs : Z -> list (option Z)) (m : memory)
    (pools : Manager) : outcome Manager :=
  match sizes with
  | [] => Ret pools
  | sz :: l =>
      pool ← construct (mallocs sz) sz 32 32 m;
      pre_alloc_loop l mallocs m (pools ++ [(sz, pool)])
  end.
Definition pre_alloc (mallocs : Z -> list (option Z)) (m : memory) (pools : Manager)
    : outcome Manager :=
  pre_alloc_loop [64; 128; 256; 512; 1024; 2048; 4096; 8192] mallocs m pools.

(** The sums over the pools, as [size_t]. *)
Definition stats (pools : Manager) : Z * Z * Z :=
  let total := foldl (fun n e => u64 (n + total_blocks_ (snd e))) 0 pools in
  let free := foldl (fun n e => u64 (n + free_blocks_ (snd e))) 0 pools in
  (total, free, u64 (total - free)).

(** ** Properties *)

(** C23: [allocate] on a well-formed pool with [block_size] at least 2, whose chunks are
    smaller than 2^64 bytes, has no undefined behaviour.  When no block is free and [malloc]
    fails it returns null and leaves the pool alone; in every other case it returns a
    block of the pool that is not in use, apart from all blocks in use, filled with
    zero bytes, without changing a byte of the others; the free list, the counters
    and the chunks stay consistent.  A [block_size] of 0 or 1 corrupts memory
    ([memory_pool_unit_blocks]).  API.md promises a pointer that is never null. *)
Theorem memory_pool_allocate malloc s free used :
  inv s free used -> 2 <= block_size_ s -> item_size_ s * block_size_ s < 2 ^ 64 ->
  (forall base, malloc = Some base -> fresh_chunk base (item_size_ s * block_size_ s) s) ->
  exists p s', allocate malloc s = Ret (p, s') /\
    (p = 0 /\ s' = s /\ free = [] /\ malloc = None \/
     exists free', inv s' free' (p :: used) /\ allocated_block s s' p used /\
       used_blocks s' = u64 (zlen used + 1) /\
       (free = p :: free' \/ free = [] /\ zlen free' = block_size_ s - 1)).
Proof.
  intros Hi Hbs Hfit Hm.
  assert (forall s' free' p, inv s' free' (p :: used) -> used_blocks s' = u64 (zlen used + 1)) as Hused.
  { intros s' free' p Hi'. unfold used_blocks.
    rewrite (inv_total _ _ _ Hi'), (inv_free _ _ _ Hi').
    rewrite <-(zlen_perm _ _ (inv_perm _ _ _ Hi')), zlen_app, zlen_cons.
    unfold u64. rewrite <-Zminus_mod. f_equal. lia. }
  destruct free as [|p free].
  - destruct malloc as [base|].
    + destruct (allocate_grow s base used Hi Hbs Hfit (Hm _ eq_refl))
        as (s' & free' & E & Hi' & Hab & Hn & _).
      exists base, s'. split; [done|]. right. exists free'. split_and!; try done; eauto.
    + exists 0, s. unfold allocate. rewrite (inv_chain _ _ _ Hi). split; [done|]. by left.
  - destruct (allocate_pop malloc s p free used Hi) as (s' & E & Hi' & Hab & _).
    exists p, s'. split; [done|]. right. exists free. split_and!; try done; eauto.
Qed.

(** Whatever the clients wrote into their blocks, [deallocate] of one of them
    keeps the pool consistent and the other blocks untouched, and the next [allocate]
    returns that block again, filled with zero bytes. *)
Theorem memory_pool_release malloc m s free used p used' :
  inv s free used -> client_write used m s -> used ≡ₚ p :: used' ->
  exists s1 s2, deallocate p (set_mem m s) = Ret s1 /\ inv s1 (p :: free) used' /\
    allocate malloc s1 = Ret (p, s2) /\ inv s2 free (p :: used') /\
    zeroed p (item_size_ s) (mem s2) /\
    forall q, q ∈ used' -> same_bytes q (item_size_ s) m (mem s2).
Proof.
  intros Hi Hw Hu. pose proof (client_write_inv _ _ _ _ Hi Hw) as Hi0.
  destruct (deallocate_spec _ free used p used' Hi0 Hu) as (s1 & E1 & Hi1 & Hs1 & E2 & _).
  destruct (allocate_pop malloc s1 p free used' Hi1) as (s2 & E3 & Hi2 & Hab & _).
  exists s1, s2. simpl in *. split_and!; try done.
  - rewrite <-E2. apply Hab.
  - intros q Hq a Ha. rewrite (ab_same _ _ _ _ Hab q Hq a) by (rewrite E2; done).
    by apply (Hs1 q Hq).
Qed.

(** The constructor, when every [malloc] succeeds, leaves a consistent pool with
    exactly [pre_alloc] free blocks and none in use. *)
Theorem memory_pool_construct bases item pre_alloc block m :
  1 <= block -> 0 <= pre_alloc <= block * zlen bases ->
  fresh_mallocs bases pre_alloc (new_pool item block m) ->
  exists s free, construct (Some <$> bases) item pre_alloc block m = Ret s /\
    inv s free [] /\ zlen free = pre_alloc /\ free_blocks_ s = u64 pre_alloc /\ used_blocks s = 0.
Proof.
  intros Hb Hp Hf.
  destruct (pre_loop_spec bases pre_alloc (new_pool item block m) [] [] (new_pool_inv _ _ _) Hb Hp Hf)
    as (s & free & E & Hi & Hn & _).
  rewrite app_nil_r in Hi. exists s, free. split_and!; [done|done|done| |].
  - rewrite (inv_free _ _ _ Hi). by rewrite Hn.
  - unfold used_blocks. rewrite (inv_total _ _ _ Hi), (inv_free _ _ _ Hi).
    rewrite <-(zlen_perm _ _ (inv_perm _ _ _ Hi)), app_nil_r. by rewrite Z.sub_diag.
Qed.

Lemma new_pool_item item block m :
  8 <= item -> new_pool item block m =
    {| item_size_ := item; block_size_ := block; free_list_ := 0; total_blocks_ := 0;
       free_blocks_ := 0; all_chunks_ := []; mem := m |}.
Proof. intros Hi. unfold new_pool. by rewrite (proj2 (Z.ltb_ge _ _)). Qed.

(** No pointer fits in a chunk of no byte: the first link is out of bounds. *)
Lemma link_loop_empty base i s :
  all_chunks_ s = [(base, 0)] -> i < u64 (0 - 1) ->
  link_loop (Z.to_nat (u64 (0 - 1))) base i (u64 (0 - 1)) s = Undef.
Proof.
  intros Hc Hi. assert (exists f, Z.to_nat (u64 (0 - 1)) = S f) as [f ->].
  { exists (Z.to_nat (u64 (0 - 1) - 1)). change (u64 (0 - 1)) with (2 ^ 64 - 1). lia. }
  cbn [link_loop]. rewrite (proj2 (Z.ltb_lt _ _) Hi). unfold write_ptr, allocated. rewrite Hc.
  cbn [existsb]. destruct (Z.leb_spec base (base + i * item_size_ s)); [|done].
  by rewrite (proj2 (Z.leb_gt (base + i * item_size_ s + 8) (base + 0))) by lia.
Qed.

(** A pool that grows by one block at a time breaks: the first [allocate] leaves
    the end of the chunk as the head of the free list, and the second reads it.  One
    that grows by no block at all writes outside its chunk at once. *)
Theorem memory_pool_unit_blocks item base m :
  8 <= item < 2 ^ 64 ->
  (exists s, allocate (Some base) (new_pool item 1 m) = Ret (base, s) /\
     (base + item <> 0 -> forall malloc, allocate malloc s = Undef)) /\
  allocate (Some base) (new_pool item 0 m) = Undef /\
  (forall count, 0 < count -> pre_allocate [Some base] count (new_pool item 0 m) = Undef).
Proof.
  intros Hit. rewrite !new_pool_item by lia. split; [|split].
  - unfold allocate at 1. cbn -[Z.mul Z.add Z.sub u64 link_loop]. rewrite Z.mul_1_r, (u64_small item) by lia.
    change (u64 (1 - 1)) with 0. change (Z.to_nat 0) with 0%nat. cbn [link_loop]. rewrite bind_Ret.
    unfold write_ptr. rewrite (allocated_intro _ _ base item) by (simpl; lia || left). rewrite bind_Ret.
    unfold memset0. rewrite (allocated_intro _ _ base item) by (simpl; lia || left). rewrite bind_Ret.
    eexists. split; [done|]. intros Hne malloc. unfold allocate. cbn [free_list_ set_free set_mem].
    rewrite (proj2 (Z.eqb_neq _ _) Hne). cbn [negb]. unfold read_ptr, allocated. cbn -[Z.add].
    rewrite (proj2 (Z.leb_gt (base + item + 8) (base + item))) by lia.
    by rewrite andb_false_r.
  - unfold allocate. cbn -[Z.mul Z.add Z.sub u64 link_loop Z.to_nat]. rewrite Z.mul_0_r.
    change (u64 0) with 0. rewrite link_loop_empty; [done|done|by vm_compute].
  - intros count Hc. unfold pre_allocate. cbn [pre_loop].
    rewrite (proj2 (Z.leb_gt _ _) Hc). cbn [block_size_]. rewrite Z.min_r by lia.
    unfold pre_batch. cbn -[Z.mul Z.add Z.sub u64 link_loop Z.to_nat]. rewrite Z.mul_0_r.
    change (u64 0) with 0. rewrite link_loop_empty; [done|done|by vm_compute].
Qed.

(** ** Rounding *)

Lemma round_loop_spec fuel k size :
  0 <= k -> k + Z.of_nat fuel <= 63 -> size <= 2 ^ (k + Z.of_nat fuel) ->
  exists j, k <= j /\ j <= k + Z.of_nat fuel /\ round_loop fuel (2 ^ k) size = Some (2 ^ j) /\
    size <= 2 ^ j /\ (j = k \/ 2 ^ (j - 1) < size).
Proof.
  revert k. induction fuel as [|fuel IH]; intros k Hk Hmax Hs.
  - exists k. simpl in *. rewrite Z.add_0_r in Hs. rewrite (proj2 (Z.ltb_ge _ _)) by lia.
    split_and!; [lia|lia|done|lia|by left].
  - simpl. destruct (Z.ltb_spec (2 ^ k) size).
    + assert (2 ^ k * 2 = 2 ^ (k + 1)) as E by (rewrite Z.pow_add_r; lia).
      assert (2 ^ (k + 1) <= 2 ^ 63) by (apply Z.pow_le_mono_r; lia).
      rewrite E, u64_small by lia.
      destruct (IH (k + 1)) as (j & H1 & H2 & -> & H4 & H5); [lia|lia| |].
      { replace (k + 1 + Z.of_nat fuel) with (k + Z.of_nat (S fuel)) by lia. done. }
      exists j. split_and!; try done; try lia.
      right. destruct H5 as [->|]; [|done]. by replace (k + 1 - 1) with k by lia.
    + exists k. split_and!; [lia|lia|done|lia|by left].
Qed.

(** Past [2^63] the doubling reaches 0 and stays there. *)
Lemma round_loop_diverges fuel k size :
  0 <= k <= 64 -> 2 ^ 63 < size < 2 ^ 64 ->
  round_loop fuel (if decide (k = 64) then 0 else 2 ^ k) size = None.
Proof.
  revert k. induction fuel as [|fuel IH]; intros k Hk Hs.
  - simpl. assert ((if decide (k = 64) then 0 else 2 ^ k) < size) as Hlt.
    { case_decide; [lia|]. assert (2 ^ k <= 2 ^ 63) by (apply Z.pow_le_mono_r; lia). lia. }
    by rewrite (proj2 (Z.ltb_lt _ _) Hlt).
  - simpl. assert ((if decide (k = 64) then 0 else 2 ^ k) < size) as Hlt.
    { case_decide; [lia|]. assert (2 ^ k <= 2 ^ 63) by (apply Z.pow_le_mono_r; lia). lia. }
    rewrite (proj2 (Z.ltb_lt _ _) Hlt). destruct (decide (k = 64)) as [->|Hne].
    + change (u64 (0 * 2)) with 0. specialize (IH 64 ltac:(lia) Hs).
      by rewrite decide_True in IH.
    + replace (2 ^ k * 2) with (2 ^ (k + 1)) by (rewrite Z.pow_add_r; lia).
      specialize (IH (k + 1) ltac:(lia) Hs). destruct (decide (k + 1 = 64)) as [E|].
      * rewrite E. exact IH.
      * rewrite u64_small; [exact IH|].
        assert (2 ^ (k + 1) <= 2 ^ 63) by (apply Z.pow_le_mono_r; lia). lia.
Qed.

Lemma find_pool_Some sz pools i :
  find_pool sz pools = Some i -> exists p, pools !! i = Some (sz, p).
Proof.
  revert i. induction pools as [|[sz' p] l IH]; intros i; simpl; [done|].
  destruct (Z.eqb_spec sz' sz) as [->|].
  - intros [= <-]. by exists p.
  - intros (j & Hj & ->)%fmap_Some. simpl. by apply IH.
Qed.

Lemma find_pool_app sz pools p :
  find_pool sz pools = None -> find_pool sz (pools ++ [(sz, p)]) = Some (length pools).
Proof.
  induction pools as [|[sz' p'] l IH]; simpl; [by rewrite Z.eqb_refl|].
  destruct (sz' =? sz); [done|]. intros Hn. destruct (find_pool sz l); [done|]. by rewrite IH.
Qed.

(** [get_pool] serves a size up to [2^63] from the pool of the least power of two
    that is at least 64 and the size; asking again, for any size with the same power,
    gives the same pool and creates none.  A greater size never returns: the doubling
    wraps around to 0. *)
Theorem memory_manager_get_pool mallocs m size pools i pools' :
  0 <= size < 2 ^ 64 ->
  (size <= 2 ^ 63 -> get_pool 57 mallocs m size pools = Some (Ret (i, pools')) ->
     exists j p, 6 <= j <= 63 /\ size <= 2 ^ j /\ (j = 6 \/ 2 ^ (j - 1) < size) /\
       pools' !! i = Some (2 ^ j, p) /\
       forall mallocs' m' size', 2 ^ (j - 1) < size' <= 2 ^ j ->
         get_pool 57 mallocs' m' size' pools' = Some (Ret (i, pools'))) /\
  (2 ^ 63 < size -> forall fuel, get_pool fuel mallocs m size pools = None).
Proof.
  intros Hs. split.
  - intros Hle. unfold get_pool.
    destruct (round_loop_spec 57 6 size ltac:(lia) ltac:(lia) Hle) as (j & H1 & H2 & E & H4 & H5).
    change (2 ^ 6) with 64 in E. rewrite E. cbn [mbind option_bind]. intros [= Hg].
    assert (find_pool (2 ^ j) pools' = Some i /\ exists p, pools' !! i = Some (2 ^ j, p)) as [Hf [p Hp]].
    { destruct (find_pool (2 ^ j) pools) as [i'|] eqn:Ef.
      - injection Hg as <- <-. split; [done|]. by apply find_pool_Some.
      - destruct (construct _ _ _ _ _) as [pool| |]; try done. rewrite bind_Ret in Hg.
        injection Hg as <- <-. pose proof (find_pool_app _ _ pool Ef) as Hf.
        split; [done|]. by apply find_pool_Some. }
    exists j, p. split_and!; try done; try lia.
    intros mallocs' m' size' Hs'.
    assert (size' <= 2 ^ 63) as Hle'.
    { assert (2 ^ j <= 2 ^ 63) by (apply Z.pow_le_mono_r; lia). lia. }
    destruct (round_loop_spec 57 6 size' ltac:(lia) ltac:(lia) Hle') as (j' & H1' & H2' & E' & H4' & H5').
    assert (j' = j) as ->.
    { destruct (Z.lt_trichotomy j j') as [Hlt|[->|Hlt]]; [|done|].
      - destruct H5' as [->|H5']; [lia|]. assert (2 ^ j <= 2 ^ (j' - 1)) by (apply Z.pow_le_mono_r; lia). lia.
      - assert (2 ^ j' <= 2 ^ (j - 1)) by (apply Z.pow_le_mono_r; lia). lia. }
    change (2 ^ 6) with 64 in E'. rewrite E'. cbn [mbind option_bind]. by rewrite Hf.
  - intros Hgt fuel. unfold get_pool.
    pose proof (round_loop_diverges fuel 6 size ltac:(lia) ltac:(lia)) as E.
    rewrite decide_False in E by lia. change (2 ^ 6) with 64 in E. by rewrite E.
Qed.

(** ** Instances *)

Definition blank : memory := fun _ => x00.
Definition sample : MemoryPool := new_pool 16 2 blank.

Lemma sample_fresh base : Some 4096 = Some base -> fresh_chunk base (16 * 2) sample.
Proof.
  intros [= <-]. split_and!; [lia|lia|]. intros a size Hin. by apply not_elem_of_nil in Hin.
Qed.

(** The pool after its first block was handed out. *)
Definition sample1 : MemoryPool :=
  match allocate (Some 4096) sample with Ret (_, s) => s | _ => sample end.

Lemma sample1_inv : inv sample1 [4112] [4096].
Proof.
  destruct (allocate_grow sample 4096 [] (new_pool_inv 16 2 blank) ltac:(simpl; lia) ltac:(simpl; lia)
    (sample_fresh 4096 eq_refl)) as (s' & free & E & Hi & _ & Hn & _).
  assert (s' = sample1) as -> by (unfold sample1; by rewrite E).
  assert (free ≡ₚ [4112]) as Hp.
  { apply (Permutation_cons_inv (a := 4096)). rewrite Permutation_cons_append.
    rewrite (inv_perm _ _ _ Hi). reflexivity. }
  apply Permutation_singleton_r in Hp. by subst free.
Qed.

Lemma memory_pool_allocate_witness :
  exists p s', allocate None sample1 = Ret (p, s') /\ p = 4112.
Proof.
  destruct (memory_pool_allocate None sample1 [4112] [4096] sample1_inv)
    as (p & s' & E & H); [vm_compute; discriminate|vm_compute; reflexivity|done|].
  exists p, s'. split; [exact E|].
  destruct H as [(_ & _ & H & _)|(free' & _ & _ & _ & [H|[H _]])]; [done| |done].
  by injection H as <- _.
Defined.

Lemma memory_pool_release_witness :
  exists s1 s2, deallocate 4096 (set_mem (store_ptr 4096 77 (mem sample1)) sample1) = Ret s1 /\
    allocate None s1 = Ret (4096, s2) /\ mem s2 4096 = x00.
Proof.
  destruct (memory_pool_release None (store_ptr 4096 77 (mem sample1)) sample1 [4112] [4096] 4096 []
    sample1_inv) as (s1 & s2 & E1 & _ & E2 & _ & Hz & _).
  - intros a Ha. apply (store_ptr_other 4096 77 a 1); [|lia].
    destruct (decide (4096 <= a < 4096 + 16)) as [Hin|Hout].
    + destruct (Ha 4096 ltac:(left) Hin).
    + lia.
  - reflexivity.
  - exists s1, s2. split; [exact E1|]. split; [exact E2|]. apply Hz. vm_compute. by split.
Defined.

Lemma memory_pool_construct_witness :
  exists s, construct (Some <$> [4096; 8192]) 16 3 2 blank = Ret s /\ free_blocks_ s = 3.
Proof.
  destruct (memory_pool_construct [4096; 8192] 16 3 2 blank) as (s & free & E & _ & _ & Hf & _);
    [lia|vm_compute; by split| |].
  - right. split; [apply sample_fresh; done|]. right. split; [|done].
    split_and!; [lia|vm_compute; reflexivity|].
    intros a size Hin. apply list_elem_of_singleton in Hin. injection Hin as -> ->. simpl. lia.
  - exists s. split; [exact E|exact Hf].
Defined.

Lemma memory_pool_unit_blocks_witness :
  exists s, allocate (Some 4096) (new_pool 16 1 blank) = Ret (4096, s) /\ allocate None s = Undef.
Proof.
  destruct (memory_pool_unit_blocks 16 4096 blank ltac:(lia)) as [(s & E & H) _].
  exists s. split; [exact E|]. apply H. discriminate.
Defined.

Lemma memory_manager_get_pool_witness :
  get_pool 1000 [] blank (2 ^ 63 + 1) [] = None.
Proof.
  destruct (memory_manager_get_pool [] blank (2 ^ 63 + 1) [] 0 []) as [_ H]; [lia|].
  apply H. lia.
Defined.
