(* ===== verification/ObjectPool.v ===== *)
(** * ObjectPool (base/object_pool/object_pool.h)

    The pool of objects of a type [T]: slots of 64-slot chunks, the free ones linked
    through their field [next].  The constructor of [T] and the two callbacks are
    parameters of each call (they may throw), and the callbacks are recorded.

    [allocate] takes the mutex up to three times, with [new] and the constructor outside
    of it, and changes its counters outside of it too; [deallocate] takes it once.  A call
    is a sequence of steps, cut at those places, and the calls of several threads are
    interleaved step by step.  No lock is held while a callback runs, so a callback that
    uses the pool does what another thread could do at that point.  The destructor of [T]
    does not throw, and [T] needs no alignment beyond that of a pointer.  [clear] frees the
    slots that are lent with the others: it is no step of the runs below. *)

From S2P Require Import Prelude.

Open Scope Z_scope.

Definition CHUNK_SIZE : Z := 64.

Inductive event := OnCreate (slot : Z) | OnDestroy (slot : Z) | Dtor (slot : Z).

(** A slot is its address; [next] is the field of that name; [chunks_] holds the
    address of the first slot of each chunk. *)
Record ObjectPool := {
  free_list_ : Z;
  free_list_size_ : Z;
  allocated_ : Z;
  total_created_ : Z;
  chunks_ : list Z;
  next : Z -> Z;
  events : list event;
}.

Definition new_pool : ObjectPool :=
  {| free_list_ := 0; free_list_size_ := 0; allocated_ := 0; total_created_ := 0; chunks_ := [];
     next := fun _ => 0; events := [] |}.

Definition set_free (head n : Z) (nx : Z -> Z) (s : ObjectPool) : ObjectPool :=
  {| free_list_ := head; free_list_size_ := u64 n; allocated_ := allocated_ s;
     total_created_ := total_created_ s; chunks_ := chunks_ s; next := nx; events := events s |}.
Definition count (alloc created : Z) (s : ObjectPool) : ObjectPool :=
  {| free_list_ := free_list_ s; free_list_size_ := free_list_size_ s; allocated_ := u64 alloc;
     total_created_ := u64 created; chunks_ := chunks_ s; next := next s; events := events s |}.
Definition emit (e : list event) (s : ObjectPool) : ObjectPool :=
  {| free_list_ := free_list_ s; free_list_size_ := free_list_size_ s; allocated_ := allocated_ s;
     total_created_ := total_created_ s; chunks_ := chunks_ s; next := next s;
     events := events s ++ e |}.

Definition write_next (p v : Z) (nx : Z -> Z) : Z -> Z := fun q => if q =? p then v else nx q.

Definition pop_free (s : ObjectPool) : Z * ObjectPool :=
  if free_list_ s =? 0 then (0, s)
  else
    let slot := free_list_ s in
    (slot, set_free (next s slot) (free_list_size_ s - 1) (next s) s).

Definition push_free (slot : Z) (s : ObjectPool) : ObjectPool :=
  set_free slot (free_list_size_ s + 1) (write_next slot (free_list_ s) (next s)) s.

(** [for (i = 1; i < CHUNK_SIZE; ++i) chunk[i - 1].next = &chunk[i];] *)
Fixpoint link_slots (fuel : nat) (base i : Z) (nx : Z -> Z) : Z -> Z :=
  match fuel with
  | O => nx
  | S fuel' => link_slots fuel' base (i + 1) (write_next (base + (i - 1)) (base + i) nx)
  end.

Definition add_chunk (base : Z) (s : ObjectPool) : ObjectPool :=
  let nx := link_slots 63 base 1 (next s) in
  let nx := write_next (base + (CHUNK_SIZE - 1)) (free_list_ s) nx in
  {| free_list_ := base; free_list_size_ := u64 (free_list_size_ s + CHUNK_SIZE);
     allocated_ := allocated_ s; total_created_ := total_created_ s;
     chunks_ := chunks_ s ++ [base]; next := nx; events := events s |}.

(** ** The steps of a call

    What a call meets: the chunk [new] returns (none: [std::bad_alloc]), whether the
    constructor of [T] throws, and the callbacks, if any, with whether they throw. *)
Record env := {
  fresh : option Z;
  ctor_throws : bool;
  on_create : option bool;
  on_destroy : option bool;
}.

(** How a call ends: with a pointer, without a result, or with an exception. *)
Inductive result := Obj (p : Z) | Done | Threw.

#[global] Instance result_eq_dec : EqDecision result.
Proof. solve_decision. Defined.

(** Where a thread is in a call. *)
Inductive pc :=
| Idle
| A_pop                    (* slot = pop_free() *)
| A_new                    (* make_unique<Slot[]>, after a null *)
| A_link (base : Z)        (* the block that holds the mutex *)
| A_again                  (* slot = pop_free() *)
| A_count (slot : Z)       (* allocated_.fetch_add *)
| A_created (slot : Z)     (* total_created_.fetch_add *)
| A_ctor (slot : Z)        (* new (obj) T() *)
| A_undo (slot : Z)        (* push_free(slot), after an exception *)
| A_uncount                (* allocated_.fetch_sub *)
| A_create (slot : Z)      (* on_create_(obj) *)
| D_destroy (p : Z)        (* on_destroy_(ptr) *)
| D_dtor (p : Z)           (* ptr->~T() *)
| D_push (p : Z)           (* push_free(slot) *)
| D_uncount                (* allocated_.fetch_sub *)
| Finished (r : result).

#[global] Instance pc_eq_dec : EqDecision pc.
Proof. solve_decision. Defined.

(** A callback that is there is called; it may throw. *)
Definition callback (cb : option bool) (e : event) (normal : pc) (s : ObjectPool) : pc * ObjectPool :=
  match cb with
  | None => (normal, s)
  | Some throws => (if throws : bool then Finished Threw else normal, emit [e] s)
  end.

Definition turn (e : env) (c : pc) (s : ObjectPool) : pc * ObjectPool :=
  match c with
  | Idle | Finished _ => (c, s)
  | A_pop => let '(slot, s') := pop_free s in (if slot =? 0 then A_new else A_count slot, s')
  | A_new => (match fresh e with Some base => A_link base | None => Finished Threw end, s)
  | A_link base => (A_again, add_chunk base s)
  | A_again => let '(slot, s') := pop_free s in (if slot =? 0 then Finished (Obj 0) else A_count slot, s')
  | A_count slot => (A_created slot, count (allocated_ s + 1) (total_created_ s) s)
  | A_created slot => (A_ctor slot, count (allocated_ s) (total_created_ s + 1) s)
  | A_ctor slot => (if ctor_throws e then A_undo slot else A_create slot, s)
  | A_undo slot => (A_uncount, push_free slot s)
  | A_uncount => (Finished (Obj 0), count (allocated_ s - 1) (total_created_ s) s)
  | A_create slot => callback (on_create e) (OnCreate slot) (Finished (Obj slot)) s
  | D_destroy p => callback (on_destroy e) (OnDestroy p) (D_dtor p) s
  | D_dtor p => (D_push p, emit [Dtor p] s)
  | D_push p => (D_uncount, push_free p s)
  | D_uncount => (Finished Done, count (allocated_ s - 1) (total_created_ s) s)
  end.

(** A call that no other thread interrupts. *)
Fixpoint run (fuel : nat) (e : env) (c : pc) (s : ObjectPool) : result * ObjectPool :=
  match c, fuel with
  | Finished r, _ => (r, s)
  | _, O => (Done, s)
  | _, S fuel' => let '(c', s') := turn e c s in run fuel' e c' s'
  end.

Definition allocate (e : env) (s : ObjectPool) : result * ObjectPool := run 9 e A_pop s.

Definition deallocate (e : env) (ptr : Z) (s : ObjectPool) : result * ObjectPool :=
  if ptr =? 0 then (Done, s) else run 4 e (D_destroy ptr) s.

Fixpoint deallocate_range (e : env) (ptrs : list Z) (s : ObjectPool) : result * ObjectPool :=
  match ptrs with
  | [] => (Done, s)
  | p :: ptrs' =>
      match deallocate e p s with
      | (Threw, s') => (Threw, s')
      | (_, s') => deallocate_range e ptrs' s'
      end
  end.

(** [es] gives what each turn of the loop meets. *)
Fixpoint pre_allocate (count : nat) (es : nat -> env) (s : ObjectPool) : result * ObjectPool :=
  match count with
  | O => (Done, s)
  | S n =>
      match allocate (es O) s with
      | (Obj obj, s1) =>
          if obj =? 0 then (Done, s1)
          else match deallocate (es O) obj s1 with
               | (Threw, s2) => (Threw, s2)
               | (_, s2) => pre_allocate n (fun k => es (S k)) s2
               end
      | r => r
      end
  end.

Definition clear (s : ObjectPool) : ObjectPool :=
  {| free_list_ := 0; free_list_size_ := 0; allocated_ := allocated_ s;
     total_created_ := total_created_ s; chunks_ := []; next := next s; events := events s |}.

(** The constructor with the number of objects to pre-allocate, and the destructor. *)
Definition ObjectPool0 (pre_alloc : nat) (es : nat -> env) : result * ObjectPool :=
  if (0 <? pre_alloc)%nat then pre_allocate pre_alloc es new_pool else (Done, new_pool).
Definition destroy (s : ObjectPool) : ObjectPool := clear s.

(** [make_pooled] without arguments for the constructor, which it would drop: a
    [unique_ptr], null when there is no object, and the end of its life. *)
Definition make_pooled (e : env) (s : ObjectPool) : result * ObjectPool := allocate e s.
Definition release_pooled (e : env) (p : option Z) (s : ObjectPool) : result * ObjectPool :=
  match p with Some obj => deallocate e obj s | None => (Done, s) end.

(** ** Threads

    [lent] are the objects that calls returned and that were not given back, [lost] those
    whose [on_create] threw: nobody has their pointer.  [returned] are the results of the
    calls so far. *)
Record system := {
  pool : ObjectPool;
  threads : list pc;
  lent : list Z;
  lost : list Z;
  returned : list (nat * result);
}.

Definition start (n : nat) : system :=
  {| pool := new_pool; threads := replicate n Idle; lent := []; lost := []; returned := [] |}.

Inductive choice := Allocate | Deallocate (p : Z) | Turn (e : env).

(** Who has the slot of a call that ends in a step from [c]: the caller, whom an object
    whose [on_destroy] threw stays with, as it was not destroyed; or nobody. *)
Definition given (c : pc) (r : result) : list Z :=
  match c, r with
  | A_create slot, Obj _ => [slot]
  | D_destroy p, Threw => [p]
  | _, _ => []
  end.
Definition leaked (c : pc) (r : result) : list Z :=
  match c, r with A_create slot, Threw => [slot] | _, _ => [] end.

Definition settle (t : nat) (c : pc) (r : result) (s : ObjectPool) (y : system) : system :=
  {| pool := s; threads := <[t := Idle]> (threads y); lent := lent y ++ given c r;
     lost := lost y ++ leaked c r; returned := returned y ++ [(t, r)] |}.

Definition move (t : nat) (c : pc) (s : ObjectPool) (l : list Z) (y : system) : system :=
  {| pool := s; threads := <[t := c]> (threads y); lent := l; lost := lost y; returned := returned y |}.

(** A thread begins a call, giving back only objects that are lent, or takes a step. *)
Definition step (t : nat) (ch : choice) (y : system) : option system :=
  match threads y !! t, ch with
  | Some Idle, Allocate => Some (move t A_pop (pool y) (lent y) y)
  | Some Idle, Deallocate p =>
      if decide (p ∈ lent y)
      then Some (move t (D_destroy p) (pool y) (list_difference (lent y) [p]) y) else None
  | Some Idle, Turn _ | None, _ => None
  | Some c, Turn e =>
      let '(c', s') := turn e c (pool y) in
      Some (match c' with Finished r => settle t c r s' y | _ => move t c' s' (lent y) y end)
  | Some _, _ => None
  end.

(** ** Consistency *)

Definition slots_of (base : Z) : list Z := seqZ base CHUNK_SIZE.
#[global] Arguments slots_of : simpl never.
Definition all_slots (s : ObjectPool) : list Z := chunks_ s ≫= slots_of.

Fixpoint chain (nx : Z -> Z) (h : Z) (l : list Z) : Prop :=
  match l with
  | [] => h = 0
  | p :: l' => h = p /\ chain nx (nx p) l'
  end.

(** Every slot is either in the free list or in use. *)
Record inv (s : ObjectPool) (free used : list Z) : Prop := {
  inv_perm : free ++ used ≡ₚ all_slots s;
  inv_nodup : NoDup (all_slots s);
  inv_pos : forall p, p ∈ all_slots s -> 0 < p;
  inv_chain : chain (next s) (free_list_ s) free;
  inv_free : free_list_size_ s = u64 (zlen free);
}.

Lemma empty_pool_inv : inv new_pool [] [].
Proof. split; simpl; try done; [constructor|intros p Hp; by apply not_elem_of_nil in Hp]. Qed.

(** A chunk of slots outside all others. *)
Definition fresh_slots (base : Z) (s : ObjectPool) : Prop :=
  0 < base /\ forall p, p ∈ slots_of base -> p ∉ all_slots s.

Lemma slot_chain_ext nx nx' h l : (forall p, p ∈ l -> nx p = nx' p) -> chain nx h l -> chain nx' h l.
Proof.
  revert h. induction l as [|p l IH]; intros h H; simpl; [done|]. intros [-> Hc].
  split; [done|]. rewrite <-H by left. apply IH; [|done]. intros q Hq. apply H. by right.
Qed.

Lemma write_next_eq p v nx : write_next p v nx p = v.
Proof. unfold write_next. by rewrite Z.eqb_refl. Qed.

Lemma chain_write nx p v h l : p ∉ l -> chain nx h l -> chain (write_next p v nx) h l.
Proof.
  intros Hp. apply slot_chain_ext. intros q Hq. unfold write_next.
  destruct (Z.eqb_spec q p) as [->|]; [|done]. by destruct Hp.
Qed.

Lemma u64_add a b : u64 (u64 a + b) = u64 (a + b).
Proof. unfold u64. by rewrite Zplus_mod_idemp_l. Qed.
Lemma u64_sub a b : u64 (u64 a - b) = u64 (a - b).
Proof. unfold u64. by rewrite Zminus_mod_idemp_l. Qed.
Lemma u64_u64 a : u64 (u64 a) = u64 a.
Proof. unfold u64. by rewrite Z.mod_mod by lia. Qed.

Lemma slots_NoDup s free used : inv s free used -> NoDup (free ++ used).
Proof. intros Hi. rewrite (inv_perm _ _ _ Hi). apply Hi. Qed.

Lemma link_slots_spec fuel base i nx p :
  link_slots fuel base i nx p =
    if bool_decide (base + i - 1 <= p < base + i - 1 + Z.of_nat fuel) then p + 1 else nx p.
Proof.
  revert i nx. induction fuel as [|fuel IH]; intros i nx.
  - rewrite bool_decide_false by lia. done.
  - cbn [link_slots]. rewrite IH. unfold write_next.
    destruct (Z.eqb_spec p (base + (i - 1))); repeat case_bool_decide; done || lia.
Qed.

Lemma chain_run nx base (k : nat) h l :
  (forall p, base <= p < base + Z.of_nat k - 1 -> nx p = p + 1) ->
  (0 < k)%nat -> nx (base + Z.of_nat k - 1) = h -> chain nx h l ->
  chain nx base (seqZ base (Z.of_nat k) ++ l).
Proof.
  revert base. induction k as [|k IH]; intros base Hl Hk Hlast Hc; [lia|].
  rewrite seqZ_cons by lia. simpl. split; [done|].
  replace (Z.pred (Z.of_nat (S k))) with (Z.of_nat k) by lia.
  destruct (decide (k = 0%nat)) as [->|].
  - simpl. replace (base + Z.of_nat 1 - 1) with base in Hlast by lia. by rewrite Hlast.
  - rewrite Hl by lia. replace (Z.succ base) with (base + 1) by lia. apply IH; [|lia| |done].
    + intros p Hp. apply Hl. lia.
    + rewrite <-Hlast. f_equal. lia.
Qed.

Lemma all_slots_add base s : all_slots (add_chunk base s) = all_slots s ++ slots_of base.
Proof.
  unfold all_slots. change (chunks_ (add_chunk base s)) with (chunks_ s ++ [base]).
  rewrite bind_app. cbn [mbind list_bind]. by rewrite app_nil_r.
Qed.

(** ** The critical sections *)

Lemma add_chunk_inv base s free used :
  inv s free used -> fresh_slots base s -> inv (add_chunk base s) (slots_of base ++ free) used.
Proof.
  intros Hi [Hb Hf]. assert (forall p, p ∈ free -> p ∉ slots_of base) as Hfree.
  { intros p Hp Hq. apply (Hf p Hq). rewrite <-(inv_perm _ _ _ Hi), elem_of_app. by left. }
  split.
  - rewrite all_slots_add, <-(inv_perm _ _ _ Hi), <-app_assoc. apply Permutation_app_comm.
  - rewrite all_slots_add. apply NoDup_app. split_and!; [apply Hi| |apply NoDup_seqZ].
    intros p Hp Hq. by apply (Hf p).
  - rewrite all_slots_add. intros p [Hp|Hp%elem_of_seqZ]%elem_of_app; [by apply Hi|lia].
  - cbn [next add_chunk free_list_]. unfold slots_of.
    apply (chain_run _ base 64 (free_list_ s)); [|lia| |].
    + intros p Hp. unfold write_next, CHUNK_SIZE. rewrite (proj2 (Z.eqb_neq _ _)) by lia.
      rewrite link_slots_spec. rewrite bool_decide_true by lia. done.
    + unfold write_next, CHUNK_SIZE. by rewrite (proj2 (Z.eqb_eq _ _)) by lia.
    + eapply slot_chain_ext; [|apply Hi]. intros p Hp. specialize (Hfree p Hp).
      unfold slots_of in Hfree. rewrite elem_of_seqZ in Hfree. unfold CHUNK_SIZE in *.
      unfold write_next. rewrite (proj2 (Z.eqb_neq _ _)) by lia.
      rewrite link_slots_spec. by rewrite bool_decide_false by lia.
  - cbn [add_chunk free_list_size_]. rewrite (inv_free _ _ _ Hi), u64_add, zlen_app.
    replace (zlen (slots_of base)) with CHUNK_SIZE by (unfold zlen, slots_of; by rewrite length_seqZ).
    f_equal. lia.
Qed.

Lemma pop_none s used : inv s [] used -> pop_free s = (0, s).
Proof. intros Hi. unfold pop_free. by rewrite (inv_chain _ _ _ Hi). Qed.

Lemma pop_slot s p free used :
  inv s (p :: free) used ->
  exists s', pop_free s = (p, s') /\ 0 < p /\ inv s' free (p :: used) /\ allocated_ s' = allocated_ s /\
    total_created_ s' = total_created_ s /\ chunks_ s' = chunks_ s.
Proof.
  intros Hi. destruct (inv_chain _ _ _ Hi) as [Hh Hc].
  assert (0 < p) as Hp by (apply Hi; rewrite <-(inv_perm _ _ _ Hi); left).
  eexists. unfold pop_free. rewrite Hh, (proj2 (Z.eqb_neq _ _)) by lia.
  split_and!; [done..| |done|done|done]. split; simpl; try apply Hi.
  - rewrite <-Permutation_middle. apply Hi.
  - rewrite (inv_free _ _ _ Hi), zlen_cons, u64_sub. f_equal. lia.
Qed.

Lemma push_inv s p free used used' :
  inv s free used -> used ≡ₚ p :: used' -> inv (push_free p s) (p :: free) used'.
Proof.
  intros Hi Hu. assert (free ++ used ≡ₚ p :: free ++ used') as Hperm.
  { rewrite Hu. by rewrite <-Permutation_middle. }
  pose proof (slots_NoDup _ _ _ Hi) as Hnd.
  rewrite Hperm in Hnd. apply NoDup_cons in Hnd as [Hpn _]. rewrite not_elem_of_app in Hpn.
  split; simpl; try apply Hi.
  - by rewrite <-Hperm, (inv_perm _ _ _ Hi).
  - split; [done|]. rewrite write_next_eq. apply chain_write; [tauto|apply Hi].
  - rewrite (inv_free _ _ _ Hi), zlen_cons, u64_add. f_equal. lia.
Qed.

(** The counters and the record of events are nobody's slots. *)
Lemma count_inv a t s free used : inv s free used -> inv (count a t s) free used.
Proof. by intros []. Qed.
Lemma emit_inv e s free used : inv s free used -> inv (emit e s) free used.
Proof. by intros []. Qed.
Lemma inv_perm_used s free used used' : used ≡ₚ used' -> inv s free used -> inv s free used'.
Proof. intros Hu []. split; try done. by rewrite <-Hu. Qed.

(** ** Whatever the threads do *)

(** The slots a thread holds, what it has added to [allocated_], and its chunk that is not
    linked yet. *)
Definition held (c : pc) : list Z :=
  match c with
  | A_count p | A_created p | A_ctor p | A_undo p | A_create p | D_destroy p | D_dtor p | D_push p => [p]
  | _ => []
  end.
Definition counted (c : pc) : list unit :=
  match c with
  | A_created _ | A_ctor _ | A_undo _ | A_uncount | A_create _
  | D_destroy _ | D_dtor _ | D_push _ | D_uncount => [tt]
  | _ => []
  end.
Definition pending (c : pc) : list Z := match c with A_link base => [base] | _ => [] end.

Definition in_use (y : system) : list Z := (threads y ≫= held) ++ lent y ++ lost y.
Definition new_slots (y : system) : list Z := (threads y ≫= pending) ≫= slots_of.

(** [new] gives memory apart from everything allocated before. *)
Definition fresh_for (y : system) (ch : choice) : Prop :=
  match ch with
  | Turn e => forall base, fresh e = Some base ->
      0 < base /\ forall p, p ∈ slots_of base -> p ∉ all_slots (pool y) ++ new_slots y
  | _ => True
  end.

Inductive reachable (n : nat) : system -> Prop :=
| reach_start : reachable n (start n)
| reach_step y t ch y' : reachable n y -> fresh_for y ch -> step t ch y = Some y' -> reachable n y'.

Record system_inv (y : system) (free : list Z) : Prop := {
  sys_inv : inv (pool y) free (in_use y);
  sys_new : NoDup (all_slots (pool y) ++ new_slots y);
  sys_pos : forall p, p ∈ new_slots y -> 0 < p;
  sys_count : allocated_ (pool y) = u64 (zlen (threads y ≫= counted) + zlen (lent y) + zlen (lost y));
  sys_quiet : Forall (fun c => match c with Finished _ => False | _ => True end) (threads y);
}.

Lemma thread_parts {A} (f : pc -> list A) (l : list pc) t c c' :
  l !! t = Some c ->
  l ≫= f ≡ₚ f c ++ (delete t l ≫= f) /\ <[t := c']> l ≫= f ≡ₚ f c' ++ (delete t l ≫= f).
Proof.
  intros Ht. split.
  - rewrite (delete_Permutation l t c Ht) at 1. done.
  - assert (<[t := c']> l !! t = Some c') as Ht' by (apply list_lookup_insert_eq; by eapply lookup_lt_Some).
    rewrite (delete_Permutation _ t c' Ht') at 1. cbn. f_equiv. f_equiv.
    clear Ht'. revert t Ht. induction l as [|x l IH]; intros [|t] Ht; cbn in *; [done..|].
    f_equiv. by apply IH.
Qed.

(** What a turn does to the slots, the counter and the new chunk of its thread: [out] are
    the slots it holds afterwards, or gives to its caller. *)
Definition outcome_of (c' : pc) (c : pc) : list Z :=
  match c', c with
  | Finished _, (A_create p | D_destroy p) => [p]
  | Finished _, _ => []
  | _, _ => held c'
  end.

Lemma turn_inv e c s free used :
  inv s free (held c ++ used) -> u64 (allocated_ s) = allocated_ s ->
  (forall base, c = A_link base -> fresh_slots base s) ->
  let '(c', s') := turn e c s in
  exists free', inv s' free' (outcome_of c' c ++ used) /\
    (all_slots s' = all_slots s \/ exists base, c = A_link base /\ all_slots s' = all_slots s ++ slots_of base) /\
    match c with Idle | Finished _ => True | _ =>
      exists d, allocated_ s' = u64 (allocated_ s + d) /\
        d = zlen (counted c') + zlen (match c' with Finished _ => outcome_of c' c | _ => [] end) - zlen (counted c)
    end /\
    (forall base, c' = A_link base -> c = A_new /\ fresh e = Some base).
Proof.
  intros Hi Hu Hf. destruct c; cbn [turn held app] in *.
  - exists free. split_and!; [done|by left|done|done].
  - destruct free as [|p free].
    + rewrite (pop_none s used Hi). cbn. exists []. split_and!; [done|by left| |done].
      exists 0. split; [by rewrite Z.add_0_r, Hu|done].
    + destruct (pop_slot s p free used Hi) as (s' & -> & Hp & Hi' & Ea & _ & Ec).
      rewrite (proj2 (Z.eqb_neq _ _)) by lia. exists free. unfold all_slots.
      split_and!; [done|left; by rewrite Ec| |done]. exists 0. by rewrite Ea, Z.add_0_r, Hu.
  - destruct (fresh e) as [base|] eqn:E; exists free.
    + split_and!; [done|by left| |by intros ? [= <-]]. exists 0. by rewrite Z.add_0_r, Hu.
    + split_and!; [done|by left| |done]. exists 0. by rewrite Z.add_0_r, Hu.
  - exists (slots_of base ++ free). split_and!; [apply add_chunk_inv; auto| | |done].
    + right. exists base. by rewrite all_slots_add.
    + exists 0. by rewrite Z.add_0_r, Hu.
  - destruct free as [|p free].
    + rewrite (pop_none s used Hi). cbn. exists []. split_and!; [done|by left| |done].
      exists 0. split; [by rewrite Z.add_0_r, Hu|done].
    + destruct (pop_slot s p free used Hi) as (s' & -> & Hp & Hi' & Ea & _ & Ec).
      rewrite (proj2 (Z.eqb_neq _ _)) by lia. exists free. unfold all_slots.
      split_and!; [done|left; by rewrite Ec| |done]. exists 0. by rewrite Ea, Z.add_0_r, Hu.
  - exists free. split_and!; [by apply count_inv|by left| |done]. exists 1. by cbn.
  - exists free. split_and!; [by apply count_inv|by left| |done]. exists 0. cbn. by rewrite Z.add_0_r.
  - destruct (ctor_throws e); exists free; (split_and!; [done|by left| |done]); exists 0; by rewrite Z.add_0_r, Hu.
  - exists (slot :: free). split_and!; [by eapply push_inv|by left| |done]. exists 0. by rewrite Z.add_0_r, Hu.
  - exists free. split_and!; [by apply count_inv|by left| |done]. exists (-1). by cbn.
  - unfold callback. destruct (on_create e) as [[]|]; cbn; exists free;
      (split_and!; [try apply emit_inv; done|by left| |done]); exists 0; by rewrite Z.add_0_r, Hu.
  - unfold callback. destruct (on_destroy e) as [[]|]; cbn; exists free;
      (split_and!; [try apply emit_inv; done|by left| |done]); exists 0; by rewrite Z.add_0_r, Hu.
  - exists free. split_and!; [by apply emit_inv|by left| |done]. exists 0. by rewrite Z.add_0_r, Hu.
  - exists (p :: free). split_and!; [by eapply push_inv|by left| |done]. exists 0. by rewrite Z.add_0_r, Hu.
  - exists free. split_and!; [by apply count_inv|by left| |done]. exists (-1). by cbn.
  - exists free. split_and!; [done|by left|done|done].
Qed.

Lemma list_difference_one (l : list Z) p : NoDup l -> p ∈ l -> l ≡ₚ p :: list_difference l [p].
Proof.
  intros Hn Hp. apply NoDup_Permutation; [done| |].
  - constructor; [|by apply NoDup_list_difference]. rewrite list_elem_of_difference. set_solver.
  - intros q. rewrite elem_of_cons, list_elem_of_difference, list_elem_of_singleton.
    destruct (decide (q = p)) as [->|]; tauto.
Qed.

Lemma system_inv_used y free : system_inv y free -> NoDup (free ++ in_use y).
Proof. intros Hs. apply slots_NoDup with (s := pool y), Hs. Qed.

(** Another program counter, and other owners, for one thread. *)
Lemma system_inv_step t c c' s' lent' lost' returned' y free free' :
  system_inv y free -> threads y !! t = Some c ->
  inv s' free' ((held c' ++ (delete t (threads y) ≫= held)) ++ lent' ++ lost') ->
  NoDup (all_slots s' ++ (pending c' ≫= slots_of) ++ ((delete t (threads y) ≫= pending) ≫= slots_of)) ->
  (forall base, c' = A_link base -> 0 < base) ->
  allocated_ s' =
    u64 (allocated_ (pool y) + (zlen (counted c') - zlen (counted c)) + (zlen lent' - zlen (lent y)) +
         (zlen lost' - zlen (lost y))) ->
  (forall r, c' <> Finished r) ->
  system_inv {| pool := s'; threads := <[t := c']> (threads y); lent := lent'; lost := lost';
                returned := returned' |} free'.
Proof.
  intros [H1 H2 H3 H4 H5] Ht Hi Hn Hb Ha Hq.
  destruct (thread_parts held _ t c c' Ht) as [_ Hh]. destruct (thread_parts pending _ t c c' Ht) as [Hp0 Hp].
  destruct (thread_parts counted _ t c c' Ht) as [Hc0 Hc].
  split; unfold in_use, new_slots in *; cbn [pool threads lent lost].
  - eapply inv_perm_used; [|exact Hi]. by rewrite Hh.
  - by rewrite Hp, bind_app.
  - intros p. rewrite Hp, bind_app, elem_of_app. intros [Hin|Hin].
    + destruct c'; cbn in Hin; try by apply not_elem_of_nil in Hin. rewrite app_nil_r in Hin.
      unfold slots_of in Hin. rewrite elem_of_seqZ in Hin. specialize (Hb _ eq_refl). lia.
    + apply H3. rewrite Hp0, bind_app, elem_of_app. by right.
  - rewrite Ha, H4, (zlen_perm _ _ Hc), (zlen_perm _ _ Hc0), !zlen_app, <-!Z.add_assoc, u64_add.
    f_equal. lia.
  - apply Forall_insert; [done|]. destruct c'; try done. by destruct (Hq r).
Qed.

Lemma turn_finished e c s r s' :
  match c with Finished _ => False | _ => True end ->
  turn e c s = (Finished r, s') -> outcome_of (Finished r) c = given c r ++ leaked c r.
Proof.
  destruct c; cbn [turn]; try done; unfold callback; repeat case_match; intros _ ?; by simplify_eq/=.
Qed.

Lemma settle_perm (l1 l2 x l3 z : list Z) : (x ++ z) ++ l1 ++ l2 ++ l3 ≡ₚ l1 ++ (l2 ++ x) ++ l3 ++ z.
Proof.
  rewrite (Permutation_app_comm (x ++ z)), <-!app_assoc. do 2 f_equiv. apply Permutation_app_swap_app.
Qed.

(** A turn of a thread that is in a call. *)
Lemma turn_system_inv t c e y free :
  system_inv y free -> fresh_for y (Turn e) -> threads y !! t = Some c ->
  c <> Idle ->
  let '(c', s') := turn e c (pool y) in
  exists free', system_inv
    (match c' with Finished r => settle t c r s' y | _ => move t c' s' (lent y) y end) free'.
Proof.
  intros Hs Hf Ht Hne. pose proof Hs as [H1 H2 H3 H4 H5].
  assert (match c with Finished _ => False | _ => True end) as Hact.
  { rewrite Forall_lookup in H5. by apply (H5 t). }
  destruct (thread_parts held _ t c c Ht) as [Hh _]. destruct (thread_parts pending _ t c c Ht) as [Hp _].
  set (H := delete t (threads y) ≫= held) in *. set (P := delete t (threads y) ≫= pending) in *.
  pose proof (turn_inv e c (pool y) free (H ++ lent y ++ lost y)) as Hturn.
  unfold new_slots in H2, H3. rewrite Hp, bind_app in H2.
  pose proof (turn_finished e c (pool y)) as Hfin.
  destruct (turn e c (pool y)) as [c' s']. destruct Hturn as (free' & Hi & Hall & Hd & Hlink).
  { eapply inv_perm_used; [|exact H1]. unfold in_use. by rewrite Hh, <-app_assoc. }
  { by rewrite H4, u64_u64. }
  { intros base ->. split.
    - apply H3. rewrite Hp, bind_app, elem_of_app. left. cbn. rewrite app_nil_r. unfold slots_of.
      apply elem_of_seqZ. unfold CHUNK_SIZE. lia.
    - intros p Hin Hin'. apply NoDup_app in H2 as (_ & H2 & _). apply (H2 p Hin'). cbn. rewrite app_nil_r.
      apply elem_of_app. by left. }
  exists free'.
  assert (exists d, allocated_ s' = u64 (allocated_ (pool y) + d) /\
    d = zlen (counted c') + zlen (match c' with Finished _ => outcome_of c' c | _ => [] end) - zlen (counted c))
    as (d & Hd1 & Hd2) by by destruct c.
  assert (NoDup (all_slots s' ++ (pending c' ≫= slots_of) ++ (P ≫= slots_of))) as HN.
  { assert (c' = A_new \/ pending c' = [] \/ exists base, c' = A_link base) as Hc'
      by (destruct c'; eauto).
    destruct Hall as [Eall|(base & -> & Eall)].
    - rewrite Eall. destruct Hc' as [->|[->|[base ->]]].
      + cbn. apply NoDup_app in H2 as (N1 & N2 & N3). apply NoDup_app in N3 as (_ & _ & N3).
        apply NoDup_app. split_and!; [done| |done]. intros p Hin Hin'. apply (N2 p Hin), elem_of_app. by right.
      + cbn. apply NoDup_app in H2 as (N1 & N2 & N3). apply NoDup_app in N3 as (_ & _ & N3).
        apply NoDup_app. split_and!; [done| |done]. intros p Hin Hin'. apply (N2 p Hin), elem_of_app. by right.
      + destruct (Hlink base eq_refl) as [-> Hb]. cbn in H2 |- *. rewrite app_nil_r.
        destruct (Hf base Hb) as [_ Hfresh]. setoid_rewrite elem_of_app in Hfresh.
        unfold new_slots in Hfresh. setoid_rewrite Hp in Hfresh. cbn in Hfresh.
        apply NoDup_app in H2 as (N1 & N2 & N3). apply NoDup_app. split_and!; [done| |].
        * intros p Hin [Hin'|Hin']%elem_of_app; [by apply (Hfresh p Hin'); left|by apply (N2 p Hin)].
        * apply NoDup_app. split_and!; [apply NoDup_seqZ| |done]. intros p Hin Hin'.
          apply (Hfresh p Hin). by right.
    - rewrite Eall, <-app_assoc. cbn in H2. rewrite app_nil_r in H2.
      destruct Hc' as [->|[->|[base' ->]]]; [exact H2|exact H2|]. by destruct (Hlink base' eq_refl). }
  assert (forall base, c' = A_link base -> 0 < base) as Hpos.
  { intros base ->. destruct (Hlink base eq_refl) as [_ Hb]. by destruct (Hf base Hb). }
  assert ((exists r, c' = Finished r) \/ forall r, c' <> Finished r) as [[r ->]|Hnf]
    by (destruct c'; eauto; by right).
  - specialize (Hfin r s' Hact eq_refl). cbv iota in Hd2. rewrite Hfin in Hi, Hd2.
    apply (system_inv_step t c Idle s' _ _ _ y free free'); try done.
    + eapply inv_perm_used; [|exact Hi]. apply settle_perm.
    + rewrite Hd1. f_equal. rewrite Hd2, !zlen_app. cbn. lia.
  - assert (outcome_of c' c = held c') as Eo by (destruct c'; try done; by destruct (Hnf r)).
    rewrite Eo in Hi.
    assert (system_inv (move t c' s' (lent y) y) free') as Hgoal; [|by destruct c'; try done; destruct (Hnf r)].
    apply (system_inv_step t c c' s' _ _ _ y free free'); try done.
    + by rewrite <-app_assoc.
    + rewrite Hd1. f_equal. rewrite Hd2. destruct c'; try (by destruct (Hnf r)); cbn; rewrite ?(zlen_nil (A:=Z)), ?(zlen_nil (A:=unit)); lia.
Qed.

Lemma step_system_inv t ch y y' free :
  system_inv y free -> fresh_for y ch -> step t ch y = Some y' -> exists free', system_inv y' free'.
Proof.
  intros Hs Hf. unfold step. destruct (threads y !! t) as [c|] eqn:Ht; [|done].
  assert (c <> Idle -> forall e, ch = Turn e -> exists free', system_inv
    (let '(c', s') := turn e c (pool y) in
     match c' with Finished r => settle t c r s' y | _ => move t c' s' (lent y) y end) free') as Hturn.
  { intros Hne e ->. pose proof (turn_system_inv t c e y free Hs Hf Ht Hne) as H.
    destruct (turn e c (pool y)) as [c' s']. exact H. }
  destruct (decide (c = Idle)) as [->|Hne].
  2: { specialize (Hturn Hne). clear Hf. destruct c; try done; (destruct ch as [|p'|e]; [done..|]);
         specialize (Hturn e eq_refl); destruct (turn e _ _) as [c' s']; by intros [= <-]. }
  clear Hturn. pose proof Hs as [H1 H2 H3 H4 H5].
  destruct (thread_parts held _ t Idle Idle Ht) as [Hh _]. destruct (thread_parts pending _ t Idle Idle Ht) as [Hp _].
  unfold in_use in H1. unfold new_slots in H2. rewrite Hp in H2. cbn [pending app] in H2.
  destruct ch as [|p|e]; [| |done].
  - intros [= <-]. exists free. apply (system_inv_step t Idle A_pop _ _ _ _ y free free); try done.
    + eapply inv_perm_used; [|exact H1]. by rewrite Hh.
    + rewrite H4, <-!Z.add_assoc, u64_add. f_equal. cbn. rewrite ?(zlen_nil (A:=Z)), ?(zlen_nil (A:=unit)). lia.
  - case_decide as Hin; [|done]. intros [= <-]. exists free.
    assert (NoDup (lent y)) as Hnd.
    { pose proof (system_inv_used y free Hs) as Hu. unfold in_use in Hu.
      apply NoDup_app in Hu as (_ & _ & Hu). apply NoDup_app in Hu as (_ & _ & Hu). by apply NoDup_app in Hu as (? & _). }
    pose proof (list_difference_one (lent y) p Hnd Hin) as Hl.
    apply (system_inv_step t Idle (D_destroy p) _ _ _ _ y free free); try done.
    + eapply inv_perm_used; [|exact H1]. rewrite Hh. cbn [held app]. rewrite Hl at 1.
      cbn [app]. by rewrite <-Permutation_middle.
    + rewrite H4, <-!Z.add_assoc, u64_add. f_equal. rewrite (zlen_perm _ _ Hl), zlen_cons. cbn. rewrite ?(zlen_nil (A:=Z)), ?(zlen_nil (A:=unit)).
      change (zlen [tt]) with 1. lia.
Qed.

Lemma start_inv n : system_inv (start n) [].
Proof.
  assert (forall A (f : pc -> list A), f Idle = [] -> replicate n Idle ≫= f = []) as Hrep.
  { intros A f E. induction n as [|k IH]; [done|]. cbn. by rewrite E. }
  split; unfold in_use, new_slots; cbn [start pool threads lent lost]; rewrite ?Hrep by done; try done.
  - apply empty_pool_inv.
  - constructor.
  - intros p Hp. by apply not_elem_of_nil in Hp.
  - by apply Forall_replicate.
Qed.

Lemma reachable_inv n y : reachable n y -> exists free, system_inv y free.
Proof.
  induction 1 as [|y t ch y' _ [free Hs] Hf Hst]; [eexists; apply start_inv|]. by eapply step_system_inv.
Qed.

(** ** Calls without interruption *)

(** The free list [allocate] takes from: the old one, or a new chunk. *)
Definition supply (e : env) (free : list Z) : list Z :=
  match free, fresh e with
  | [], Some base => slots_of base
  | _, _ => free
  end.

Lemma slots_of_cons base : slots_of base = base :: seqZ (Z.succ base) 63.
Proof. unfold slots_of. by rewrite seqZ_cons. Qed.

Lemma run_turn n e c s :
  match c with Finished _ => False | _ => True end ->
  run (S n) e c s = let '(c', s') := turn e c s in run n e c' s'.
Proof. by destruct c. Qed.

(** From the slot taken to the end of the call. *)
Lemma run_slot n e p s free used :
  inv s free (p :: used) ->
  let '(r, s') := run (5 + n) e (A_count p) s in
  total_created_ s' = u64 (total_created_ s + 1) /\ chunks_ s' = chunks_ s /\
  if ctor_throws e then r = Obj 0 /\ inv s' (p :: free) used /\ allocated_ s' = u64 (allocated_ s)
  else r = (if bool_decide (on_create e = Some true) then Threw else Obj p) /\
       inv s' free (p :: used) /\ allocated_ s' = u64 (allocated_ s + 1).
Proof.
  intros Hi. cbn [Nat.add run turn]. destruct (ctor_throws e).
  - cbn [run turn]. destruct n; cbn; rewrite ?u64_u64, ?u64_add, ?u64_sub, ?u64_u64;
      (split_and!; [done|done|done| |f_equal; lia]);
      by apply count_inv, (push_inv _ _ _ _ _ (count_inv _ _ _ _ _ (count_inv _ _ _ _ _ Hi))).
  - cbn [run turn]. unfold callback. destruct (on_create e) as [[]|]; destruct n; cbn; rewrite ?u64_u64, ?u64_add;
      split_and!; try done; by repeat (apply emit_inv || apply count_inv).
Qed.

Lemma allocate_run e s free used :
  inv s free used -> (forall base, fresh e = Some base -> fresh_slots base s) ->
  (free = [] -> is_Some (fresh e)) ->
  exists p free', supply e free = p :: free' /\ 0 < p /\ p ∉ used /\
    let '(r, s') := allocate e s in
    total_created_ s' = u64 (total_created_ s + 1) /\
    chunks_ s' = chunks_ s ++ (match free, fresh e with [], Some base => [base] | _, _ => [] end) /\
    if ctor_throws e then r = Obj 0 /\ inv s' (p :: free') used /\ allocated_ s' = u64 (allocated_ s)
    else r = (if bool_decide (on_create e = Some true) then Threw else Obj p) /\
         inv s' free' (p :: used) /\ allocated_ s' = u64 (allocated_ s + 1).
Proof.
  intros Hi Hf Hne. unfold allocate, supply. destruct free as [|p free].
  - destruct (Hne eq_refl) as [base Hb]. rewrite Hb.
    pose proof (add_chunk_inv base s [] used Hi (Hf base Hb)) as Hi'. rewrite app_nil_r in Hi'.
    rewrite slots_of_cons in *. exists base, (seqZ (Z.succ base) 63).
    destruct (pop_slot _ _ _ _ Hi') as (s2 & Ep & Hp & Hi2 & Ea & Et & Ec).
    pose proof (run_slot 0 e base s2 _ _ Hi2) as Hrun. cbn [Nat.add] in Hrun.
    assert (run 9 e A_pop s = run 5 e (A_count base) s2) as ->.
    { rewrite run_turn by done. cbn [turn]. rewrite (pop_none s used Hi). cbn [Z.eqb].
      rewrite run_turn by done. cbn [turn]. rewrite Hb. do 2 (rewrite run_turn by done; cbn [turn]).
      rewrite Ep. by rewrite (proj2 (Z.eqb_neq _ _)) by lia. }
    destruct (run 5 e (A_count base) s2) as [r s']. destruct Hrun as (H1 & H2 & H3).
    rewrite Et in H1. rewrite Ec in H2. rewrite Ea in H3. split_and!; try done.
    intros Hin. pose proof (slots_NoDup _ _ _ Hi2) as Hnd. apply NoDup_app in Hnd as (_ & _ & [Hn _]%NoDup_cons).
    done.
  - exists p, free. destruct (pop_slot _ _ _ _ Hi) as (s2 & Ep & Hp & Hi2 & Ea & Et & Ec).
    pose proof (run_slot 3 e p s2 _ _ Hi2) as Hrun. cbn [Nat.add] in Hrun.
    assert (run 9 e A_pop s = run 8 e (A_count p) s2) as ->.
    { rewrite run_turn by done. cbn [turn].
      rewrite Ep. by rewrite (proj2 (Z.eqb_neq _ _)) by lia. }
    destruct (run 8 e (A_count p) s2) as [r s']. destruct Hrun as (H1 & H2 & H3).
    rewrite Et in H1. rewrite Ec in H2. rewrite Ea in H3. rewrite app_nil_r. split_and!; try done.
    intros Hin. pose proof (slots_NoDup _ _ _ Hi2) as Hnd. apply NoDup_app in Hnd as (_ & _ & [Hn _]%NoDup_cons).
    done.
Qed.

Lemma deallocate_run e s p free used used' :
  inv s free used -> used ≡ₚ p :: used' ->
  let '(r, s') := deallocate e p s in
  chunks_ s' = chunks_ s /\ u64 (total_created_ s') = u64 (total_created_ s) /\
  if bool_decide (on_destroy e = Some true)
  then r = Threw /\ inv s' free used /\ allocated_ s' = allocated_ s
  else r = Done /\ inv s' (p :: free) used' /\ allocated_ s' = u64 (allocated_ s - 1).
Proof.
  intros Hi Hu. assert (0 < p) as Hp.
  { apply Hi. rewrite <-(inv_perm _ _ _ Hi), elem_of_app, Hu. right. left. }
  unfold deallocate. rewrite (proj2 (Z.eqb_neq _ _)) by lia. cbn [run turn]. unfold callback.
  destruct (on_destroy e) as [[]|]; cbn [run turn]; case_bool_decide; simplify_eq;
    cbn; rewrite ?u64_u64; split_and!; try done; try (by apply emit_inv);
    apply count_inv; eapply push_inv; try done; by repeat apply emit_inv.
Qed.

(** ** Two threads and an empty pool *)

Fixpoint play (l : list (nat * choice)) (y : system) : option system :=
  match l with
  | [] => Some y
  | (t, ch) :: l' => match step t ch y with Some y' => play l' y' | None => None end
  end.

(** What a call meets when nothing throws. *)
Definition calm (base : option Z) : env :=
  {| fresh := base; ctor_throws := false; on_create := Some false; on_destroy := Some false |}.

Definition whole_allocate (t : nat) : list (nat * choice) :=
  (t, Allocate) :: replicate 5 (t, Turn (calm None)).

(** Thread 0 adds a chunk, and thread 1 takes all of its slots before thread 0 looks for
    one. *)
Definition race_begin : list (nat * choice) := [(0%nat, Allocate); (0%nat, Turn (calm None))].
Definition race_end : list (nat * choice) :=
  [(0%nat, Turn (calm None))] ++ concat (replicate 64 (whole_allocate 1)) ++ [(0%nat, Turn (calm None))].
Definition race : list (nat * choice) := race_begin ++ (0%nat, Turn (calm (Some 1000))) :: race_end.

Definition no_throw (ch : choice) : Prop :=
  match ch with
  | Turn e => ctor_throws e = false /\ on_create e <> Some true /\ on_destroy e <> Some true
  | _ => True
  end.

Lemma play_reaches n l y y' :
  reachable n y -> Forall (fun x => match x.2 with Turn e => fresh e = None | _ => True end) l ->
  play l y = Some y' -> reachable n y'.
Proof.
  intros Hr Hl. revert y Hr. induction Hl as [|[t ch] l Hch _ IH]; intros y Hr; cbn [play]; [by intros [= <-]|].
  destruct (step t ch y) as [y1|] eqn:E; [|done]. apply IH. apply (reach_step n y t ch y1); [done| |done].
  destruct ch as [|p|e]; [done..|]. intros base Hb. cbn in Hch. congruence.
Qed.

Lemma play_app l1 l2 y :
  play (l1 ++ l2) y = match play l1 y with Some y1 => play l2 y1 | None => None end.
Proof. revert y. induction l1 as [|[t ch] l1 IH]; intros y; [done|]. cbn. by destruct (step t ch y). Qed.

Lemma race_calm : Forall (fun x => no_throw x.2) race.
Proof.
  unfold race, race_begin, race_end, whole_allocate. apply Forall_app. split; [by repeat constructor|].
  constructor; [done|]. apply Forall_app. split; [by repeat constructor|].
  apply Forall_app. split; [|by repeat constructor].
  apply Forall_concat, Forall_replicate. by repeat constructor.
Qed.

Lemma race_result :
  exists y, play race (start 2) = Some y /\ last (returned y) = Some (0%nat, Obj 0) /\ length (lent y) = 64%nat.
Proof. vm_compute. eexists. by repeat split. Qed.

Lemma race_end_quiet : Forall (fun x => match x.2 with Turn e => fresh e = None | _ => True end) race_end.
Proof.
  unfold race_end, whole_allocate. apply Forall_app. split; [by repeat constructor|].
  apply Forall_app. split; [|by repeat constructor].
  apply Forall_concat, Forall_replicate. by repeat constructor.
Qed.

Lemma race_reachable y : play race (start 2) = Some y -> reachable 2 y.
Proof.
  unfold race. rewrite play_app. destruct (play race_begin (start 2)) as [y0|] eqn:E0; [|done]. cbn [play].
  destruct (step 0 (Turn (calm (Some 1000))) y0) as [y1|] eqn:E1; [|done].
  apply play_reaches; [|apply race_end_quiet]. eapply reach_step; [| |exact E1].
  - apply (play_reaches 2 race_begin (start 2)); [constructor|by repeat constructor|done].
  - vm_compute in E0. injection E0 as <-. intros base [= <-]. split; [lia|].
    intros p _. apply not_elem_of_nil.
Qed.

Lemma idle_counted l : Forall (fun c => c = Idle) l -> l ≫= counted = [].
Proof. by induction 1 as [|c l -> _ IH]. Qed.

(** ** The property *)

(** C24: Whatever the threads do, with calls cut at the critical sections and at the
    constructor and the callbacks, which may throw, and with objects given back only by
    whoever holds them: the slots of the chunks are in the free list, in the hands of a
    call, lent, or lost (when [on_create] threw nobody has the object), each in one of
    these places only; so [allocate] never hands out a slot that is in use.  The free
    list is intact, [pool_size] its length, and when no call is under way [allocated] is
    the number of objects lent and lost.
    From any such state an [allocate] that no other thread interrupts takes the first
    free slot, or the first of a new chunk of 64 when there is none, and [deallocate] puts
    it back.  When the constructor throws it returns null and puts the slot back, with
    [allocated] as before and [total_created] one higher; an exception of [on_create] leaves [allocate] with
    the slot in use.
    And [allocate] may return null although nothing throws and [new] succeeds: between
    adding a chunk and taking from it other threads can empty the free list. *)
Theorem object_pool_allocate n y :
  reachable n y ->
  (exists free,
    free ++ in_use y ≡ₚ all_slots (pool y) /\ NoDup (free ++ in_use y) /\
    chain (next (pool y)) (free_list_ (pool y)) free /\ free_list_size_ (pool y) = u64 (zlen free) /\
    (Forall (fun c => c = Idle) (threads y) ->
       allocated_ (pool y) = u64 (zlen (lent y) + zlen (lost y))) /\
    forall e, fresh_for y (Turn e) -> (free = [] -> is_Some (fresh e)) ->
      exists p free', supply e free = p :: free' /\ 0 < p /\ p ∉ in_use y /\
        let '(r, s) := allocate e (pool y) in
        total_created_ s = u64 (total_created_ (pool y) + 1) /\
        if ctor_throws e then r = Obj 0 /\ inv s (p :: free') (in_use y) /\ allocated_ s = allocated_ (pool y)
        else r = (if bool_decide (on_create e = Some true) then Threw else Obj p) /\
          inv s free' (p :: in_use y) /\ allocated_ s = u64 (allocated_ (pool y) + 1) /\
          (on_destroy e <> Some true ->
           let '(r', s') := deallocate e p s in
           r' = Done /\ inv s' (p :: free') (in_use y) /\ allocated_ s' = allocated_ (pool y))) /\
  (exists l z, Forall (fun x => no_throw x.2) l /\ play l (start 2) = Some z /\ reachable 2 z /\
     last (returned z) = Some (0%nat, Obj 0)).
Proof.
  intros Hr. split.
  2: { destruct race_result as (z & Hz & Hlast & _). exists race, z.
       split_and!; [apply race_calm|done|by apply race_reachable|done]. }
  destruct (reachable_inv n y Hr) as [free Hs]. pose proof Hs as [H1 H2 H3 H4 H5].
  exists free. split_and!; [apply H1|by apply system_inv_used|apply H1|apply H1| |].
  - intros Hidle. rewrite H4. f_equal.
    by rewrite (idle_counted _ Hidle).
  - intros e Hf Hne. destruct (allocate_run e (pool y) free (in_use y) H1) as (p & free' & Hsup & Hp & Hin & Hrun).
    { intros base Hb. destruct (Hf base Hb) as [Hb0 Hb1]. split; [done|]. intros q Hq Hq'. apply (Hb1 q Hq).
      apply elem_of_app. by left. }
    { done. }
    exists p, free'. split_and!; [done..|]. destruct (allocate e (pool y)) as [r s].
    destruct Hrun as (Ht & _ & Hrun). split; [done|].
    assert (u64 (allocated_ (pool y)) = allocated_ (pool y)) as Hu by by rewrite H4, u64_u64.
    destruct (ctor_throws e); [by rewrite Hu in Hrun|]. destruct Hrun as (-> & Hi & Ha).
    split_and!; [done..|]. intros Hd. pose proof (deallocate_run e s p free' _ (in_use y) Hi ltac:(done)) as Hde.
    destruct (deallocate e p s) as [r' s']. destruct Hde as (_ & _ & Hde). rewrite bool_decide_false in Hde by done.
    destruct Hde as (-> & Hi' & ->). split_and!; [done|done|]. rewrite Ha, u64_sub.
    replace (allocated_ (pool y) + 1 - 1) with (allocated_ (pool y)) by lia. done.
Qed.

(** A unique_ptr of the pool gives its slot back. *)
Lemma pooled_released e s free used :
  inv s free used -> (forall base, fresh e = Some base -> fresh_slots base s) ->
  (free = [] -> is_Some (fresh e)) -> ctor_throws e = false -> on_create e <> Some true ->
  on_destroy e <> Some true ->
  exists p s', make_pooled e s = (Obj p, s') /\ 0 < p /\
    inv (snd (release_pooled e (Some p) s')) (supply e free) used.
Proof.
  intros Hi Hf Hne Ht Hc Hd. destruct (allocate_run e s free used Hi Hf Hne) as (p & free' & Hsup & Hp & _ & Hrun).
  unfold make_pooled, release_pooled. destruct (allocate e s) as [r s']. rewrite Ht in Hrun.
  rewrite bool_decide_false in Hrun by done. destruct Hrun as (_ & _ & -> & Hi' & _).
  exists p, s'. split_and!; [done..|]. rewrite Hsup.
  pose proof (deallocate_run e s' p free' _ used Hi' ltac:(done)) as H. destruct (deallocate e p s') as [r s2].
  rewrite bool_decide_false in H by done. apply H.
Qed.

(** ** Pre-allocation *)

Definition quiet (e : env) : Prop := ctor_throws e = false /\ on_create e <> Some true /\ on_destroy e <> Some true.

(** One turn of the loop of [pre_allocate]. *)
Lemma pre_step e s free used :
  inv s free used -> quiet e ->
  (forall base, fresh e = Some base -> fresh_slots base s) -> (free = [] -> is_Some (fresh e)) ->
  exists p s1 s2 l, allocate e s = (Obj p, s1) /\ 0 < p /\ deallocate e p s1 = (Done, s2) /\
    supply e free = p :: l /\ inv s2 (p :: l) used /\
    chunks_ s2 = chunks_ s ++ (match free, fresh e with [], Some base => [base] | _, _ => [] end) /\
    u64 (total_created_ s2) = u64 (total_created_ s + 1) /\ allocated_ s2 = u64 (allocated_ s).
Proof.
  intros Hi (Ht & Hc & Hd) Hf Hne. destruct (allocate_run e s free used Hi Hf Hne) as (p & l & Hsup & Hp & _ & Hrun).
  destruct (allocate e s) as [r s1]. rewrite Ht in Hrun. rewrite bool_decide_false in Hrun by done.
  destruct Hrun as (E1 & E2 & -> & Hi1 & E3).
  pose proof (deallocate_run e s1 p l _ used Hi1 ltac:(done)) as H. destruct (deallocate e p s1) as [r s2] eqn:Ed.
  rewrite bool_decide_false in H by done. destruct H as (F1 & F2 & -> & Hi2 & F3).
  exists p, s1, s2, l. split_and!; [done..| | |].
  - by rewrite F1.
  - by rewrite F2, E1, u64_u64.
  - rewrite F3, E3, u64_sub. f_equal. lia.
Qed.

(** A call that has its slot does not ask for a chunk. *)
Lemma run_count_ext e1 e2 p s :
  ctor_throws e1 = ctor_throws e2 -> on_create e1 = on_create e2 ->
  run 8 e1 (A_count p) s = run 8 e2 (A_count p) s.
Proof.
  intros E1 E2. do 3 (rewrite !run_turn by done; cbn [turn]). rewrite E1.
  destruct (ctor_throws e2); (rewrite !run_turn by done; cbn [turn]).
  - by rewrite !run_turn by done.
  - unfold callback. rewrite E2. by destruct (on_create e2) as [[]|].
Qed.

Lemma deallocate_ext e1 e2 p s : on_destroy e1 = on_destroy e2 -> deallocate e1 p s = deallocate e2 p s.
Proof.
  intros E. unfold deallocate. destruct (p =? 0); [done|]. rewrite !run_turn by done. cbn [turn].
  unfold callback. rewrite E. by destruct (on_destroy e2) as [[]|].
Qed.

(** The turns that find a free slot. *)
Lemma pre_allocate_warm k es s p free used :
  inv s (p :: free) used -> (forall i, quiet (es i)) ->
  exists s', pre_allocate k es s = (Done, s') /\ inv s' (p :: free) used /\ chunks_ s' = chunks_ s /\
    u64 (total_created_ s') = u64 (total_created_ s + Z.of_nat k) /\ u64 (allocated_ s') = u64 (allocated_ s).
Proof.
  revert es s. induction k as [|k IH]; intros es s Hi Ht; cbn [pre_allocate].
  - exists s. by rewrite Z.add_0_r.
  - set (e := {| fresh := None; ctor_throws := ctor_throws (es 0%nat);
                 on_create := on_create (es 0%nat); on_destroy := on_destroy (es 0%nat) |}).
    assert (allocate (es 0%nat) s = allocate e s) as ->.
    { unfold allocate. destruct (pop_slot _ _ _ _ Hi) as (s1 & Ep & Hp & _).
      rewrite !run_turn by done. cbn [turn]. rewrite Ep, (proj2 (Z.eqb_neq _ _)) by lia.
      by apply run_count_ext. }
    destruct (pre_step e s (p :: free) used Hi) as (q & s1 & s2 & l & -> & Hq & Ed & Hsup & Hi2 & Hch & Htot & Ha);
      [apply Ht|done|done|].
    rewrite (proj2 (Z.eqb_neq _ _)) by lia.
    rewrite (deallocate_ext (es 0%nat) e) by done. rewrite Ed. cbn in Hsup. rewrite <-Hsup in Hi2.
    destruct (IH (fun i => es (S i)) s2 Hi2) as (s' & E & Hi' & Hch' & Htot' & Ha'); [intros; apply Ht|].
    exists s'. split_and!; [done|done| | |].
    + by rewrite Hch', Hch, app_nil_r.
    + rewrite Htot', <-u64_add, Htot, u64_add. f_equal. lia.
    + by rewrite Ha', Ha, u64_u64.
Qed.

(** However many objects it is asked for, [pre_allocate] constructs and destroys
    them one after another in the first free slot: it adds at most the one chunk of 64
    slots it needs for the first, and counts every one as created. *)
Theorem object_pool_pre_allocate k es s free used :
  inv s free used -> (forall i, quiet (es i)) ->
  (forall base, fresh (es 0%nat) = Some base -> fresh_slots base s) ->
  (free = [] -> is_Some (fresh (es 0%nat))) -> (0 < k)%nat ->
  exists s', pre_allocate k es s = (Done, s') /\
    inv s' (supply (es 0%nat) free) used /\
    chunks_ s' = chunks_ s ++
      (match free, fresh (es 0%nat) with [], Some base => [base] | _, _ => [] end) /\
    u64 (total_created_ s') = u64 (total_created_ s + Z.of_nat k) /\
    u64 (allocated_ s') = u64 (allocated_ s).
Proof.
  intros Hi Ht Hf Hne Hk. destruct k as [|k]; [lia|]. cbn [pre_allocate].
  destruct (pre_step (es 0%nat) s free used Hi (Ht 0%nat) Hf Hne)
    as (p & s1 & s2 & l & -> & Hp & -> & Hsup & Hi2 & Hch & Htot & Ha).
  rewrite (proj2 (Z.eqb_neq _ _)) by lia. rewrite Hsup in *.
  destruct (pre_allocate_warm k (fun i => es (S i)) _ p l used Hi2)
    as (s' & E & Hi' & Hch' & Htot' & Ha'); [intros; apply Ht|].
  exists s'. split_and!; [done|done|congruence| |by rewrite Ha', Ha, u64_u64].
  rewrite Htot', <-u64_add, Htot, u64_add. f_equal. lia.
Qed.

(** ** Instances *)

Lemma calm_fresh base : fresh (calm (Some 1000)) = Some base -> fresh_slots base new_pool.
Proof. intros [= <-]. split; [lia|]. intros p _. apply not_elem_of_nil. Qed.

Lemma object_pool_allocate_witness :
  exists s, allocate (calm (Some 1000)) (pool (start 2)) = (Obj 1000, s) /\ total_created_ s = 1.
Proof.
  destruct (object_pool_allocate 2 (start 2) (reach_start 2)) as [(free & Hp & _ & _ & _ & _ & H) _].
  assert (free = []) as -> by (apply Permutation_nil_r in Hp; by apply app_eq_nil in Hp as [-> _]).
  destruct (H (calm (Some 1000))) as (p & free' & Hs & _ & _ & Ha); [|by eexists|].
  { intros base [= <-]. split; [lia|]. intros q _. apply not_elem_of_nil. }
  injection Hs as <- _.
  destruct (allocate (calm (Some 1000)) (pool (start 2))) as [r s]. destruct Ha as (Ht & Hr & _).
  exists s. split; [by rewrite Hr|exact Ht].
Defined.

Lemma object_pool_pre_allocate_witness :
  exists s', pre_allocate 100 (fun _ => calm (Some 1000)) new_pool = (Done, s') /\
    chunks_ s' = [1000] /\ u64 (allocated_ s') = 0.
Proof.
  destruct (object_pool_pre_allocate 100 (fun _ => calm (Some 1000)) new_pool [] [])
    as (s' & E & _ & Hc & _ & Ha).
  - exact empty_pool_inv.
  - intros _. by split_and!.
  - exact calm_fresh.
  - intros _. by eexists.
  - lia.
  - exists s'. split; [exact E|]. split; [exact Hc|exact Ha].
Defined.
