(* ===== verification/TcpConnection.v ===== *)
(** * TcpConnection (network/tcp/tcp_connection.h, tcp_connection.cpp)

    One connection: its reader thread appends what [recv] returns to a buffer and
    takes whole packets off its front; its writer thread sends the queued packets.
    The results of [recv] and [send] are parameters of the loops.

    [close] takes no lock, and [closed_] is a plain bool: the reader, which closes when it
    leaves, and one of the threads that close under the mutex of the server (heartbeat,
    [stop], [close_session]) may be inside it at once.  [close] below is one call that no
    other overlaps, and that is how the other files use it; [close_step] cuts the calls
    of any number of threads at their accesses, and [overlapping_closes] says what they
    do then. *)

From S2P Require Import Prelude ByteOrder Packet.

Open Scope Z_scope.

Inductive ConnStatus := CONNECTED | RECONNECTING | CLOSED.

Definition INVALID_SOCKET : Z := -1.
Definition EINTR : Z := 4.
Definition EAGAIN : Z := 11.

(** The members, and what the connection did to its surroundings: the packets given
    to [on_message_], the sockets closed, the bytes sent, the calls of [on_close_]. *)
Record Conn := {
  sock_ : Z;
  session_id_ : Z;
  status_ : ConnStatus;
  read_buf_ : list byte;
  write_queue_ : list (list byte);
  last_recv_time_ : Z;
  closed_ : bool;
  messages : list Packet;
  closed_socks : list Z;
  sent_bytes : list byte;
  close_calls : nat;
}.

Definition new_conn (tick sock session_id : Z) : Conn :=
  {| sock_ := sock; session_id_ := session_id; status_ := CONNECTED; read_buf_ := [];
     write_queue_ := []; last_recv_time_ := tick; closed_ := false; messages := [];
     closed_socks := []; sent_bytes := []; close_calls := 0 |}.

Definition set_read (buf : list byte) (tick : Z) (msgs : list Packet) (s : Conn) : Conn :=
  {| sock_ := sock_ s; session_id_ := session_id_ s; status_ := status_ s; read_buf_ := buf;
     write_queue_ := write_queue_ s; last_recv_time_ := tick; closed_ := closed_ s;
     messages := msgs; closed_socks := closed_socks s; sent_bytes := sent_bytes s;
     close_calls := close_calls s |}.
Definition set_write (q : list (list byte)) (out : list byte) (s : Conn) : Conn :=
  {| sock_ := sock_ s; session_id_ := session_id_ s; status_ := status_ s;
     read_buf_ := read_buf_ s; write_queue_ := q; last_recv_time_ := last_recv_time_ s;
     closed_ := closed_ s; messages := messages s; closed_socks := closed_socks s;
     sent_bytes := out; close_calls := close_calls s |}.

Definition close (s : Conn) : Conn :=
  if closed_ s then s
  else
    {| sock_ := INVALID_SOCKET; session_id_ := session_id_ s; status_ := CLOSED;
       read_buf_ := read_buf_ s; write_queue_ := write_queue_ s;
       last_recv_time_ := last_recv_time_ s; closed_ := true; messages := messages s;
       closed_socks := closed_socks s ++ [sock_ s]; sent_bytes := sent_bytes s;
       close_calls := close_calls s |}.

(** The same, access by access, for several threads: where each of them is.  A step of a
    thread that has returned is none. *)
Inductive close_pc :=
| C_test                   (* if (closed_) return *)
| C_flag                   (* closed_ = true *)
| C_status                 (* status_ = ConnStatus::CLOSED *)
| C_notify                 (* write_cv_.notify_one() *)
| C_socket                 (* close_socket(sock_) *)
| C_invalid                (* sock_ = INVALID_SOCKET *)
| C_done.

Definition set_closing (sock : Z) (st : ConnStatus) (closed : bool) (socks : list Z) (s : Conn) : Conn :=
  {| sock_ := sock; session_id_ := session_id_ s; status_ := st;
     read_buf_ := read_buf_ s; write_queue_ := write_queue_ s;
     last_recv_time_ := last_recv_time_ s; closed_ := closed; messages := messages s;
     closed_socks := socks; sent_bytes := sent_bytes s; close_calls := close_calls s |}.

Definition close_turn (pc : close_pc) (s : Conn) : close_pc * Conn :=
  match pc with
  | C_test => (if closed_ s then C_done else C_flag, s)
  | C_flag => (C_status, set_closing (sock_ s) (status_ s) true (closed_socks s) s)
  | C_status => (C_notify, set_closing (sock_ s) CLOSED (closed_ s) (closed_socks s) s)
  | C_notify => (C_socket, s)
  | C_socket => (C_invalid, set_closing (sock_ s) (status_ s) (closed_ s) (closed_socks s ++ [sock_ s]) s)
  | C_invalid => (C_done, set_closing INVALID_SOCKET (status_ s) (closed_ s) (closed_socks s) s)
  | C_done => (C_done, s)
  end.

Definition close_step (t : nat) (x : list close_pc * Conn) : list close_pc * Conn :=
  match x.1 !! t with
  | Some pc => let '(pc', s') := close_turn pc x.2 in (<[t := pc']> x.1, s')
  | None => x
  end.

(** The threads take their steps in some order. *)
Definition close_steps (order : list nat) (x : list close_pc * Conn) : list close_pc * Conn :=
  foldl (fun x t => close_step t x) x order.

Definition call_on_close (s : Conn) : Conn :=
  {| sock_ := sock_ s; session_id_ := session_id_ s; status_ := status_ s;
     read_buf_ := read_buf_ s; write_queue_ := write_queue_ s;
     last_recv_time_ := last_recv_time_ s; closed_ := closed_ s; messages := messages s;
     closed_socks := closed_socks s; sent_bytes := sent_bytes s;
     close_calls := S (close_calls s) |}.

Definition is_idle (tick timeout : Z) (s : Conn) : bool := timeout <? u64 (tick - last_recv_time_ s).

(** ** Reading *)

Section reading.
Context (host : bool).

(** Take one packet off the buffer and hand it to [on_message_]. *)
Definition process_read (s : Conn) : outcome (bool * Conn) :=
  r ← decode_from host (read_buf_ s) Packet0 0;
  let '(ok, pkt, consumed) := r in
  if ok : bool then
    Ret (true, set_read (drop (Z.to_nat consumed) (read_buf_ s)) (last_recv_time_ s)
                 (messages s ++ [pkt]) s)
  else Ret (false, s).

(** [while (process_read()) {}]; every turn takes at least six bytes. *)
Fixpoint drain (fuel : nat) (s : Conn) : outcome Conn :=
  match fuel with
  | O => Ret s
  | S fuel' =>
      r ← process_read s;
      let '(more, s') := r in
      if more : bool then drain fuel' s' else Ret s'
  end.

(** What [recv] returns: bytes, or nothing ([n <= 0]) with the value [errno] has
    then, stale when [n = 0]; or another thread closes the connection meanwhile. *)
Inductive recv_event :=
| Data (tick : Z) (bs : list byte)
| NoData (errno : Z)
| ClosedElsewhere.

(** A reader that waits for more, or has left its loop. *)
Inductive reader :=
| Reading (s : Conn)
| Left (s : Conn).

Definition leave (s : Conn) : reader := Left (call_on_close (close s)).

Fixpoint read_loop (evs : list recv_event) (s : Conn) : outcome reader :=
  if closed_ s then Ret (leave s)
  else
    match evs with
    | [] => Ret (Reading s)
    | Data tick bs :: evs' =>
        let s1 := set_read (read_buf_ s ++ bs) tick (messages s) s in
        s2 ← drain (S (length (read_buf_ s1))) s1;
        read_loop evs' s2
    | NoData errno :: evs' => if errno =? EINTR then read_loop evs' s else Ret (leave s)
    | ClosedElsewhere :: evs' => read_loop evs' (close s)
    end.
End reading.

(** ** Writing *)

Definition send_packet (host : bool) (c : Z) (d : list byte) (s : Conn) : bool * Conn :=
  (true, set_write (write_queue_ s ++ [encode host (mkPacket c d)]) (sent_bytes s) s).

(** The result of a call of [send]: the number of bytes taken, or an error. *)
Inductive send_result := Took (n : nat) | SendErr (errno : Z).

(** The loop of [send_raw]: whether it returned, and what is out; [None] while the
    call is blocked after the results given. *)
Fixpoint send_loop (rs : list send_result) (todo out : list byte) : option bool * list byte :=
  match todo with
  | [] => (Some true, out)
  | _ =>
      match rs with
      | [] => (None, out)
      | Took n :: rs' => send_loop rs' (drop n todo) (out ++ take n todo)
      | SendErr errno :: rs' =>
          if errno =? EINTR then send_loop rs' todo out else (Some false, out)
      end
  end.

Definition send_raw (rs : list send_result) (bs : list byte) (s : Conn) : option bool * Conn :=
  if closed_ s then (Some false, s)
  else
    match status_ s with
    | CONNECTED =>
        let '(r, out) := send_loop rs bs (sent_bytes s) in (r, set_write (write_queue_ s) out s)
    | _ => (Some false, s)
    end.

(** One turn of [write_loop]: whether the loop goes on.  [closing] says that another
    thread closes the connection between the test of the loop and the wait. *)
Definition write_turn (closing : bool) (rs : list send_result) (s : Conn) : option bool * Conn :=
  if closed_ s then (Some false, s)
  else
    let s0 := if closing then close s else s in
    match write_queue_ s0 with
    | [] => (Some (negb (closed_ s0)), s0)
    | msg :: q =>
        let s1 := set_write q (sent_bytes s0) s0 in
        match msg with
        | [] => (Some true, s1)
        | _ => send_raw rs msg s1
        end
    end.

Fixpoint write_loop (turns : list (bool * list send_result)) (s : Conn) : option bool * Conn :=
  match turns with
  | [] => (Some true, s)
  | (closing, rs) :: turns' =>
      match write_turn closing rs s with
      | (Some true, s') => write_loop turns' s'
      | r => r
      end
  end.

(** ** The stream the reader sees *)

Definition stream (ps : list Packet) : list byte := ps ≫= wire.

Lemma stream_cons p ps : stream (p :: ps) = wire p ++ stream ps.
Proof. done. Qed.
Lemma stream_nil : stream [] = [].
Proof. done. Qed.

Lemma stream_encode host ps : Forall wf_packet ps -> (ps ≫= encode host) = stream ps.
Proof.
  induction 1 as [|p ps Hp _ IH]; [done|].
  rewrite stream_cons, <-IH, <-(encode_wire host) by done. done.
Qed.

(** Bytes from which no packet can be taken. *)
Definition incomplete (tail : list byte) : Prop :=
  zlen tail < 2 ^ 32 /\ (zlen tail < 4 \/ announced tail = 0 \/ zlen tail < announced tail).

Lemma process_read_incomplete host s :
  incomplete (read_buf_ s) -> process_read host s = Ret (false, s).
Proof.
  intros [Hl Hi]. unfold process_read. rewrite decode_from_spec by done.
  destruct (_ || _) eqn:E; [done|]. exfalso.
  rewrite !orb_false_iff, !Z.ltb_ge, Z.eqb_neq in E. lia.
Qed.

Lemma process_read_packet host s p rest :
  wf_packet p -> read_buf_ s = wire p ++ rest ->
  process_read host s = Ret (true, set_read rest (last_recv_time_ s) (messages s ++ [p]) s).
Proof.
  intros Hp E. unfold process_read. rewrite E, decode_from_wire by done. rewrite bind_Ret.
  rewrite drop_app_length'; [done|]. pose proof (zlen_wire p) as Hw. unfold zlen in *. lia.
Qed.

Lemma drain_stream host fuel ps tail s :
  Forall wf_packet ps -> incomplete tail -> read_buf_ s = stream ps ++ tail ->
  (length ps < fuel)%nat ->
  drain host fuel s = Ret (set_read tail (last_recv_time_ s) (messages s ++ ps) s).
Proof.
  revert fuel s. induction ps as [|p ps IH]; intros fuel s Hps Ht E Hf;
    (destruct fuel as [|fuel]; [simpl in Hf; lia|]); cbn [drain].
  - simpl in E. rewrite process_read_incomplete by (by rewrite E). rewrite bind_Ret, app_nil_r.
    destruct s; simpl in *; by subst.
  - apply Forall_cons in Hps as [Hp Hps]. rewrite stream_cons, <-app_assoc in E. rewrite (process_read_packet host s p _ Hp E), bind_Ret.
    rewrite (IH fuel) by (done || (simpl in Hf; lia)). simpl. by rewrite <-app_assoc.
Qed.

Lemma length_stream ps : (length ps <= length (stream ps))%nat.
Proof.
  induction ps as [|p ps IH]; [simpl; lia|]. rewrite stream_cons, length_app. cbn [length].
  pose proof (zlen_wire p). pose proof (zlen_nonneg (data p)). unfold zlen in *. lia.
Qed.

(** A prefix of incomplete bytes is incomplete. *)
Lemma incomplete_prefix x r tail : x ++ r = tail -> incomplete tail -> incomplete x.
Proof.
  intros <- [Hl Hi]. rewrite zlen_app in *. pose proof (zlen_nonneg r). split; [lia|].
  destruct (Z.ltb_spec (zlen x) 4); [by left|right]. rewrite announced_app in Hi by lia. lia.
Qed.

(** Where a prefix of the stream ends: after whole packets and an incomplete rest. *)
Lemma stream_prefix ps tail x r :
  Forall wf_packet ps -> incomplete tail -> x ++ r = stream ps ++ tail ->
  exists ps1 ps2 y, ps = ps1 ++ ps2 /\ x = stream ps1 ++ y /\ incomplete y /\
    y ++ r = stream ps2 ++ tail.
Proof.
  revert x. induction ps as [|p ps IH]; intros x Hps Ht E.
  - exists [], [], x. split_and!; [done..| |done]. by eapply incomplete_prefix.
  - apply Forall_cons in Hps as [Hp Hps]. rewrite stream_cons, <-app_assoc in E. destruct (decide (length (wire p) <= length x)%nat) as [Hle|Hlt].
    + assert (exists x', x = wire p ++ x') as [x' ->].
      { exists (drop (length (wire p)) x). rewrite <-(take_drop (length (wire p)) x) at 1.
        f_equal. apply (f_equal (take (length (wire p)))) in E.
        by rewrite take_app_le, take_app_length in E by lia. }
      rewrite <-app_assoc in E. apply app_inv_head in E.
      destruct (IH x' Hps Ht E) as (ps1 & ps2 & y & -> & -> & Hy & E').
      exists (p :: ps1), ps2, y. split_and!; try done. by rewrite stream_cons, app_assoc.
    + exists [], (p :: ps), x. split_and!; try done.
      * assert (zlen x < zlen (wire p)) as Hx by (unfold zlen; lia). pose proof Hp as [_ Hmax].
        rewrite zlen_wire in Hx. split; [lia|].
        destruct (Z.ltb_spec (zlen x) 4); [by left|right; right].
        rewrite <-(announced_app x r) by lia. rewrite E, announced_wire by done. lia.
      * by rewrite stream_cons, <-app_assoc.
Qed.

Definition data_events (chunks : list (Z * list byte)) : list recv_event :=
  (fun c => Data (fst c) (snd c)) <$> chunks.

Lemma read_loop_stream host chunks ps tail s :
  closed_ s = false -> incomplete (read_buf_ s) -> Forall wf_packet ps -> incomplete tail ->
  read_buf_ s ++ concat (snd <$> chunks) = stream ps ++ tail ->
  exists tick, read_loop host (data_events chunks) s =
    Ret (Reading (set_read tail tick (messages s ++ ps) s)).
Proof.
  revert s ps. induction chunks as [|[t c] chunks IH]; intros s ps Hc Hb Hps Ht E.
  - simpl in *. rewrite Hc. rewrite app_nil_r in E. destruct ps as [|p ps].
    + exists (last_recv_time_ s). rewrite app_nil_r. simpl in E. destruct s; simpl in *; by subst.
    + exfalso. apply Forall_cons in Hps as [Hp _]. rewrite stream_cons, <-app_assoc in E. rewrite E in Hb. destruct Hb as [_ Hb].
      rewrite announced_wire, zlen_app, zlen_wire in Hb by done.
      pose proof (zlen_nonneg (data p)). pose proof (zlen_nonneg (stream ps ++ tail)). lia.
  - cbn [data_events fmap list_fmap read_loop fst snd]. rewrite Hc.
    simpl in E. rewrite app_assoc in E.
    destruct (stream_prefix ps tail _ _ Hps Ht E) as (ps1 & ps2 & y & -> & Ex & Hy & E').
    apply Forall_app in Hps as [Hps1 Hps2].
    rewrite (drain_stream host _ ps1 y) by (try done;
      simpl; rewrite Ex, length_app; pose proof (length_stream ps1); lia).
    rewrite bind_Ret. fold (data_events chunks).
    match goal with |- context [read_loop _ _ ?st] =>
      change st with (set_read y t (messages s ++ ps1) s) end.
    destruct (IH (set_read y t (messages s ++ ps1) s) ps2) as [tick ->]; try done.
    exists tick. simpl. by rewrite <-app_assoc.
Qed.

(** ** Overlapping calls of close *)

(** One call alone is [close]. *)
Lemma close_alone s : close_steps (replicate 6 0%nat) ([C_test], s) = ([C_done], close s).
Proof. unfold close. destruct s as [? ? ? ? ? ? []]; reflexivity. Qed.

(** The calls that have not closed the socket yet, and whether one of them will. *)
Definition to_close (pc : close_pc) : nat := match pc with C_invalid | C_done => 0 | _ => 1 end.
Definition will_close (pc : close_pc) : Prop := pc = C_status \/ pc = C_notify \/ pc = C_socket.

Record closing_inv (sock : Z) (k : nat) (pcs : list close_pc) (s : Conn) : Prop := {
  ci_count : (length (closed_socks s) + sum_list (to_close <$> pcs) <= k)%nat;
  ci_socks : Forall (fun x => x = sock \/ x = INVALID_SOCKET) (closed_socks s);
  ci_sock : sock_ s = sock \/ sock_ s = INVALID_SOCKET;
  ci_first : match closed_socks s with
             | [] => sock_ s = sock /\ Forall (fun pc => pc <> C_invalid) pcs
             | x :: _ => x = sock
             end;
  ci_open : closed_ s = false -> Forall (fun pc => pc = C_test \/ pc = C_flag) pcs;
  ci_closed : closed_ s = true -> closed_socks s <> [] \/ Exists will_close pcs;
}.

Lemma sum_insert (f : close_pc -> nat) l t a b :
  l !! t = Some a -> (sum_list (f <$> <[t := b]> l) + f a = sum_list (f <$> l) + f b)%nat.
Proof.
  revert t. induction l as [|x l IH]; intros [|t]; [done..| |]; intros H.
  - injection H as ->. cbn. lia.
  - specialize (IH t H). change (<[S t := b]> (x :: l)) with (x :: <[t := b]> l).
    rewrite !fmap_cons. cbn [sum_list sum_list_with id]. rewrite <-!Nat.add_assoc. f_equal. exact IH.
Qed.

Lemma Exists_insert_ne {A} (P : A -> Prop) l t a b :
  l !! t = Some a -> ~ P a -> Exists P l -> Exists P (<[t := b]> l).
Proof.
  intros Ht Ha (x & Hx & HP)%list.Exists_exists. apply list_elem_of_lookup in Hx as [i Hi].
  apply list.Exists_exists. exists x. split; [|done]. apply list_elem_of_lookup. exists i.
  destruct (decide (i = t)) as [->|]; [|by rewrite list_lookup_insert_ne].
  rewrite Ht in Hi. by injection Hi as ->.
Qed.

Lemma Exists_insert_eq {A} (P : A -> Prop) l t a b : l !! t = Some a -> P b -> Exists P (<[t := b]> l).
Proof.
  intros Ht Hb. apply list.Exists_exists. exists b. split; [|done]. apply list_elem_of_lookup. exists t.
  apply list_lookup_insert_eq. by eapply lookup_lt_Some.
Qed.

Lemma close_step_inv sock k t pcs s :
  closing_inv sock k pcs s -> let '(pcs', s') := close_step t (pcs, s) in closing_inv sock k pcs' s'.
Proof.
  intros [H1 H2 H3 H4 H5 H6]. unfold close_step. cbn [fst snd].
  destruct (pcs !! t) as [pc|] eqn:Ht; [|by split].
  pose proof (fun b => sum_insert to_close pcs t pc b Ht) as Hsum.
  assert (closed_ s = false -> pc = C_test \/ pc = C_flag) as Hpc.
  { intros Hc. specialize (H5 Hc). rewrite Forall_lookup in H5. by apply (H5 t). }
  assert (forall b, ~ will_close pc -> closed_ s = true ->
    closed_socks s <> [] \/ Exists will_close (<[t := b]> pcs)) as Hkeep.
  { intros b Hw Hc. destruct (H6 Hc) as [?|?]; [by left|right]. by eapply Exists_insert_ne. }
  assert (forall b, b <> C_invalid -> match closed_socks s with
    | [] => sock_ s = sock /\ Forall (fun pc => pc <> C_invalid) (<[t := b]> pcs) | x :: _ => x = sock end) as Hfirst.
  { intros b Hb. destruct (closed_socks s); [|done]. destruct H4 as [? ?]. split; [done|].
    by apply Forall_insert. }
  destruct pc; cbn [close_turn];
    [destruct (closed_ s) eqn:Ec| | | | | |].
  - specialize (Hsum C_done). cbn [to_close] in Hsum. split; try done; [lia|by apply Hfirst|by rewrite Ec|].
    intros _. apply Hkeep; [|done]. by intros [?|[?|?]].
  - specialize (Hsum C_flag). cbn [to_close] in Hsum. split; try done; [lia|by apply Hfirst| |by rewrite Ec].
    intros _. apply Forall_insert; [by apply H5|by right].
  - specialize (Hsum C_status). cbn [to_close] in Hsum. split; cbn; try done; [lia|by apply Hfirst|].
    intros _. right. eapply Exists_insert_eq; [done|by left].
  - specialize (Hsum C_notify). cbn [to_close] in Hsum. split; cbn; try done; [lia|by apply Hfirst| |].
    + intros Hc. by destruct (Hpc Hc).
    + intros _. right. eapply Exists_insert_eq; [done|by right; left].
  - specialize (Hsum C_socket). cbn [to_close] in Hsum. split; try done; [lia|by apply Hfirst| |].
    + intros Hc. by destruct (Hpc Hc).
    + intros _. right. eapply Exists_insert_eq; [done|by right; right].
  - specialize (Hsum C_invalid). cbn [to_close] in Hsum. split; cbn; try done.
    + rewrite length_app. cbn. lia.
    + apply Forall_app. split; [done|]. by constructor.
    + by destruct (closed_socks s); [destruct H4|].
    + intros Hc. by destruct (Hpc Hc).
    + intros _. left. by destruct (closed_socks s).
  - specialize (Hsum C_done). cbn [to_close] in Hsum. split; cbn; try done; [lia|by right| | |].
    + destruct (closed_socks s); [|done]. destruct H4 as [_ H4]. rewrite Forall_lookup in H4. by destruct (H4 t C_invalid).
    + intros Hc. by destruct (Hpc Hc).
    + intros Hc. apply Hkeep; [|done]. by intros [?|[?|?]].
  - rewrite list_insert_id by done. by split.
Qed.

Lemma close_steps_inv sock k order x :
  closing_inv sock k x.1 x.2 -> closing_inv sock k (close_steps order x).1 (close_steps order x).2.
Proof.
  revert x. induction order as [|t order IH]; intros [pcs s] H; [done|]. cbn [close_steps foldl].
  apply IH. pose proof (close_step_inv sock k t pcs s H) as Hs. by destruct (close_step t (pcs, s)).
Qed.

(** Any number of calls of [close] on an open connection, whatever way they overlap: when
    all have returned, the connection is closed and the descriptor was closed at least once
    and, as far as the calls go, at most once by each of them; and two calls that both
    test the flag before one of them sets it close the descriptor twice, the second time
    perhaps when the number already belongs to another connection. *)
Lemma overlapping_closes k s :
  closed_ s = false -> closed_socks s = [] -> (0 < k)%nat ->
  (forall order, let '(pcs, s') := close_steps order (replicate k C_test, s) in
     (length (closed_socks s') <= k)%nat /\
     Forall (fun x => x = sock_ s \/ x = INVALID_SOCKET) (closed_socks s') /\
     (Forall (fun pc => pc = C_done) pcs -> closed_ s' = true /\ head (closed_socks s') = Some (sock_ s))) /\
  (let '(pcs, s') := close_steps [0; 1; 0; 1; 0; 1; 0; 1; 0; 1; 0; 1]%nat ([C_test; C_test], s) in
     pcs = [C_done; C_done] /\ closed_ s' = true /\ closed_socks s' = [sock_ s; sock_ s]).
Proof.
  intros Hc Hs Hk. split.
  - intros order. pose proof (close_steps_inv (sock_ s) k order (replicate k C_test, s)) as H.
    destruct (close_steps order _) as [pcs s'] eqn:E. cbn [fst snd] in H.
    assert (length pcs = k) as Hlen.
    { assert (forall o x, length (close_steps o x).1 = length x.1) as Hl.
      { induction o as [|t o IHo]; intros [q c]; [done|]. cbn [close_steps foldl].
        change (foldl (fun x t => close_step t x) (close_step t (q, c)) o) with (close_steps o (close_step t (q, c))).
        rewrite IHo. unfold close_step. cbn [fst snd]. destruct (q !! t); [|done].
        destruct (close_turn _ c). cbn. by rewrite length_insert. }
      pose proof (Hl order (replicate k C_test, s)) as H'. rewrite E in H'. cbn in H'. by rewrite length_replicate in H'. }
    destruct H as [H1 H2 H3 H4 H5 H6].
    { split; rewrite ?Hs; cbn; try done.
      - clear. induction k; cbn; lia.
      - by left.
      - split; [done|]. by apply Forall_replicate.
      - intros _. apply Forall_replicate. by left.
      - by rewrite Hc. }
    split_and!; [lia|done|]. intros Hd.
    assert (closed_ s' = true) as Hcl.
    { destruct (closed_ s'); [done|]. specialize (H5 eq_refl). destruct pcs as [|pc pcs]; [simpl in Hlen; lia|].
      apply Forall_cons in Hd as [-> _]. apply Forall_cons in H5 as [[?|?] _]; done. }
    split; [done|]. destruct (H6 Hcl) as [Hne|Hw].
    + destruct (closed_socks s'); [done|]. by subst.
    + apply list.Exists_exists in Hw as (pc & Hin & Hw). rewrite list.Forall_forall in Hd.
      rewrite (Hd pc Hin) in Hw. by destruct Hw as [?|[?|?]].
  - destruct s as [? ? ? ? ? ? []]; cbn in *; [done|]. subst. by repeat split.
Qed.

(** The reader delivers the stream, not the chunks: however [recv] cuts the bytes
    of the encoded packets and an incomplete rest, exactly those packets are handed to
    [on_message_], in order, and the rest stays in the buffer.  A rest that starts
    with a zero length field is never completed: the connection stalls. *)
Theorem tcp_reader_stream host chunks ps tail s :
  closed_ s = false -> read_buf_ s = [] -> Forall wf_packet ps -> incomplete tail ->
  concat (snd <$> chunks) = (ps ≫= encode host) ++ tail ->
  (exists tick, read_loop host (data_events chunks) s =
     Ret (Reading (set_read tail tick (messages s ++ ps) s))) /\
  (announced tail = 0 -> 4 <= zlen tail -> forall more,
     zlen tail + zlen (concat (snd <$> more)) < 2 ^ 32 ->
     exists tick, read_loop host (data_events (chunks ++ more)) s =
       Ret (Reading (set_read (tail ++ concat (snd <$> more)) tick (messages s ++ ps) s))).
Proof.
  intros Hc Hb Hps Ht E.
  rewrite stream_encode in E by done. assert (incomplete (read_buf_ s)) as Hi.
  { rewrite Hb. split; [by vm_compute|]. left. by vm_compute. }
  split.
  - apply read_loop_stream; try done. by rewrite Hb.
  - intros Hz H4 more Hmax. apply read_loop_stream; try done.
    + split; [rewrite zlen_app; lia|]. right. left. by rewrite announced_app by lia.
    + rewrite Hb, fmap_app, concat_app, E. simpl. by rewrite app_assoc.
Qed.

Lemma drain_frame host fuel s s' :
  drain host fuel s = Ret s' ->
  closed_ s' = closed_ s /\ sock_ s' = sock_ s /\ close_calls s' = close_calls s /\
  closed_socks s' = closed_socks s.
Proof.
  revert s. induction fuel as [|fuel IH]; intros s; cbn [drain]; [by intros [= <-]|].
  unfold process_read. destruct (decode_from _ _ _ _) as [[[[] pkt] n]| |]; try done;
    rewrite bind_Ret; [|by intros [= <-]].
  rewrite bind_Ret. intros H. apply IH in H. done.
Qed.

Lemma drain_no_throw host fuel s : drain host fuel s <> Throw.
Proof.
  revert s. induction fuel as [|fuel IH]; intros s; cbn [drain]; [done|].
  unfold process_read. destruct (decode_from host (read_buf_ s) Packet0 0) as [[[[] p] n]| |] eqn:E;
    rewrite ?bind_Ret; [apply IH|done| |done].
  unfold decode_from in E. by repeat case_match.
Qed.

(** What the reader's exit leaves of a connection that was open. *)
Definition ended (s s' : Conn) : Prop :=
  closed_ s' = true /\ closed_socks s' = closed_socks s ++ [sock_ s] /\
  close_calls s' = S (close_calls s).

Lemma leave_open s : closed_ s = false -> exists s', leave s = Left s' /\ ended s s' /\ messages s' = messages s.
Proof. intros Hc. unfold leave, close. rewrite Hc. eexists. split; [done|]. by repeat split. Qed.

Lemma leave_closed s : closed_ s = false -> exists s', leave (close s) = Left s' /\ ended s s'.
Proof. intros Hc. unfold leave, close. rewrite Hc. eexists. split; [done|]. by repeat split. Qed.

(** Whatever the events, when the reader leaves, the socket has been closed
    exactly once and [on_close_] called once more than before.  On the non-blocking
    sockets of the server that is at the first [recv] that finds no byte: EAGAIN
    ends the connection like an error. *)
Theorem tcp_reader_end host evs s :
  closed_ s = false ->
  match read_loop host evs s with
  | Ret (Left s') => ended s s'
  | Ret (Reading s') =>
      closed_ s' = false /\ closed_socks s' = closed_socks s /\ close_calls s' = close_calls s
  | Throw => False
  | Undef => True
  end /\
  (forall evs', evs = NoData EAGAIN :: evs' ->
     exists s', read_loop host evs s = Ret (Left s') /\ messages s' = messages s).
Proof.
  intros Hc. split.
  - revert s Hc. induction evs as [|[tick bs|errno|] evs IH]; intros s Hc;
      cbn [read_loop]; rewrite Hc.
    + done.
    + destruct (drain host _ _) as [s2| |] eqn:E; [|by apply drain_no_throw in E|done].
      rewrite bind_Ret. apply drain_frame in E as (E1 & E2 & E3 & E4). simpl in E1, E2, E3, E4.
      specialize (IH s2 ltac:(congruence)). unfold ended in *. by rewrite E2, E3, E4 in IH.
    + destruct (errno =? EINTR); [by apply IH|].
      destruct (leave_open s Hc) as (s' & -> & He & _). exact He.
    + destruct (leave_closed s Hc) as (s' & El & He).
      assert (closed_ (close s) = true) as Hc1 by (unfold close; by rewrite Hc).
      destruct evs; cbn [read_loop]; rewrite Hc1, El; exact He.
  - intros evs' ->. cbn [read_loop]. rewrite Hc.
    destruct (leave_open s Hc) as (s' & E & _ & Hm). exists s'. by rewrite <-E.
Qed.

(** ** The writer *)

Lemma send_loop_spec rs todo out :
  exists sent, snd (send_loop rs todo out) = out ++ sent /\
    exists rest, todo = sent ++ rest /\ (fst (send_loop rs todo out) = Some true -> rest = []).
Proof.
  revert todo out. induction rs as [|[n|errno] rs IH]; intros todo out;
    (destruct todo as [|b todo]; [exists []; simpl; rewrite app_nil_r; split; [done|]; by exists []|]).
  - exists []. simpl. rewrite app_nil_r. split; [done|]. by exists (b :: todo).
  - destruct (IH (drop n (b :: todo)) (out ++ take n (b :: todo))) as (sent & E & rest & E' & Hr).
    exists (take n (b :: todo) ++ sent). cbn [send_loop]. rewrite E, <-app_assoc. split; [done|].
    exists rest. split; [|done]. by rewrite <-app_assoc, <-E', take_drop.
  - cbn [send_loop]. case_match; [apply IH|]. exists []. simpl. rewrite app_nil_r.
    split; [done|]. by exists (b :: todo).
Qed.

(** Without errors beyond EINTR a call that returns has sent everything. *)
Lemma send_loop_done rs todo out :
  Forall (fun r => match r with Took n => True | SendErr e => e = EINTR end) rs ->
  fst (send_loop rs todo out) = None \/ fst (send_loop rs todo out) = Some true.
Proof.
  intros H. revert todo out. induction H as [|[n|e] rs He _ IH]; intros [|b todo] out; simpl; auto.
  subst e. exact (IH (b :: todo) out).
Qed.

(** A failing result: an error that is not an interruption. *)
Definition failing (r : send_result) : Prop :=
  match r with Took _ => False | SendErr e => e <> EINTR end.
#[global] Instance failing_dec r : Decision (failing r).
Proof. destruct r; apply _. Defined.

Lemma send_loop_fails rs todo out :
  fst (send_loop rs todo out) = Some false -> Exists failing rs.
Proof.
  intros Hf. destruct (decide (Exists failing rs)) as [|Hno]; [done|exfalso].
  destruct (send_loop_done rs todo out) as [H|H]; [|congruence..].
  apply Forall_forall. intros [n|e] Hin; [done|]. destruct (decide (e = EINTR)); [done|].
  destruct Hno. apply Exists_exists. by exists (SendErr e).
Qed.

(** What one turn, or the loop, does to the queue and the wire. *)
Definition written (s : Conn) (r : option bool) (s' : Conn) : Prop :=
  exists out lost,
    sent_bytes s' = sent_bytes s ++ out /\
    concat (write_queue_ s) = out ++ lost ++ concat (write_queue_ s') /\
    (r = Some true -> lost = []).

Lemma written_same s r : written s r s.
Proof. exists [], []. by rewrite app_nil_r. Qed.

(** A closed connection writes nothing any more. *)
Lemma write_loop_closed s :
  closed_ s = true -> forall more, write_loop more s = (Some (bool_decide (more = [])), s).
Proof.
  intros Hc [|[closing rs] more]; [done|]. cbn [write_loop]. unfold write_turn. by rewrite Hc.
Qed.

Lemma written_trans s1 s2 s3 r :
  written s1 (Some true) s2 -> written s2 r s3 -> written s1 r s3.
Proof.
  intros (out & lost & E1 & E2 & Hl) (out' & lost' & E1' & E2' & Hl').
  exists (out ++ out'), lost'. rewrite Hl in E2 by done. rewrite E1', E1, E2. simpl.
  rewrite E2', <-!app_assoc. done.
Qed.

Lemma close_frame s :
  write_queue_ (close s) = write_queue_ s /\ sent_bytes (close s) = sent_bytes s /\
  closed_ (close s) = true.
Proof. unfold close. by destruct (closed_ s) eqn:E. Qed.

Lemma write_turn_spec closing rs s :
  let '(r, s') := write_turn closing rs s in
  written s r s' /\
  (closed_ s = false -> status_ s = CONNECTED ->
     (closing = false -> closed_ s' = false /\ status_ s' = CONNECTED) /\
     (r = Some false -> closing = true \/ Exists failing rs)).
Proof.
  unfold write_turn, send_raw. destruct (closed_ s) eqn:Hc; [split; [apply written_same|done]|].
  set (s0 := if closing then close s else s).
  assert (write_queue_ s0 = write_queue_ s /\ sent_bytes s0 = sent_bytes s /\
    closed_ s0 = closing /\ (closing = false -> s0 = s)) as (Hq0 & Hs0 & Hc0 & Hsame).
  { unfold s0. destruct closing; [|done]. destruct (close_frame s) as (-> & -> & ->). done. }
  rewrite Hq0. destruct (write_queue_ s) as [|[|x msg] q] eqn:Hq.
  - split; [exists [], []; by rewrite app_nil_r, Hs0, Hq0, Hq|]. rewrite Hc0. intros _ Hst.
    split; [intros Hcl; by rewrite (Hsame Hcl)|]. intros [=]. left. by destruct closing.
  - split; [exists [], []; simpl; by rewrite app_nil_r, Hs0, Hq|]. intros _ Hst.
    split; [intros Hcl; simpl; by rewrite (Hsame Hcl)|done].
  - simpl. rewrite Hc0. destruct closing.
    { split; [exists [], (x :: msg); simpl; by rewrite app_nil_r, Hs0, Hq|].
      intros _ _. split; [done|by left]. }
    rewrite (Hsame eq_refl) in *. clear s0 Hsame Hq0 Hs0 Hc0.
    destruct (status_ s) eqn:Hst.
    + destruct (send_loop_spec rs (x :: msg) (sent_bytes s)) as (sent & E & rest & E' & Hr).
      pose proof (send_loop_fails rs (x :: msg) (sent_bytes s)) as Hf.
      destruct (send_loop rs (x :: msg) (sent_bytes s)) as [r out]. simpl in E, Hr, Hf. subst out.
      split; [|by auto]. exists sent, rest. rewrite Hq. cbn [concat].
      rewrite E', <-app_assoc. done.
    + split; [|done]. exists [], (x :: msg). simpl. by rewrite app_nil_r, Hq.
    + split; [|done]. exists [], (x :: msg). simpl. by rewrite app_nil_r, Hq.
Qed.

(** The writer sends the queued packets one after another, without losing,
    repeating or reordering a byte over partial sends: what is out is a prefix of the
    queue's bytes, cut inside a packet only when [send_raw] failed or is blocked.  The
    loop ends at the first error, EAGAIN of a full non-blocking socket included, or
    when the connection is closed; what is queued then is never sent, and
    [send_packet] reports success all the same. *)
Theorem tcp_writer turns s :
  let '(r, s') := write_loop turns s in
  written s r s' /\
  (closed_ s = false -> status_ s = CONNECTED -> r = Some false ->
     exists closing rs, (closing, rs) ∈ turns /\ (closing = true \/ Exists failing rs)) /\
  (closed_ s' = true -> forall more, write_loop more s' = (Some (bool_decide (more = [])), s')) /\
  forall host c d, fst (send_packet host c d s') = true.
Proof.
  revert s. induction turns as [|[closing rs] turns IH]; intros s; cbn [write_loop].
  - split_and!; [apply written_same|done|apply write_loop_closed|done].
  - pose proof (write_turn_spec closing rs s) as Ht. destruct (write_turn closing rs s) as [r s1].
    destruct Ht as (Hw & Hf). destruct r as [[]|].
    2, 3: split_and!; [done| |apply write_loop_closed|done]; intros H1 H2 H3; exists closing, rs;
      (split; [left|by apply Hf]).
    specialize (IH s1). destruct (write_loop turns s1) as [r' s']. destruct IH as (Hw' & Hf' & Hs).
    split_and!; [by eapply written_trans| |apply write_loop_closed|done].
    intros H1 H2 H3. destruct closing.
    { exists true, rs. split; [left|by left]. }
    destruct (Hf H1 H2) as [[? ?] _]; [done|].
    destruct Hf' as (cl & rs' & Hin & ?); [done..|]. exists cl, rs'. split; [by right|done].
Qed.

(** ** Instances *)

Definition hello : Packet := mkPacket CMD_DATA [x68; x69].

Lemma tcp_reader_stream_witness :
  exists tick, read_loop true (data_events [(5, take 3 (wire hello)); (6, drop 3 (wire hello) ++ [x00])])
    (new_conn 0 9 1) = Ret (Reading (set_read [x00] tick [hello] (new_conn 0 9 1))).
Proof.
  destruct (tcp_reader_stream true [(5, take 3 (wire hello)); (6, drop 3 (wire hello) ++ [x00])]
    [hello] [x00] (new_conn 0 9 1)) as [H _]; [done|done| | |vm_compute; reflexivity|exact H].
  - constructor; [by_compute|constructor].
  - split; [by vm_compute|left; by vm_compute].
Defined.

Lemma tcp_reader_end_witness :
  exists s', read_loop true [NoData EAGAIN] (new_conn 0 9 1) = Ret (Left s') /\ messages s' = [].
Proof. apply (tcp_reader_end true [NoData EAGAIN] (new_conn 0 9 1) eq_refl) with []. reflexivity. Defined.
