(* ===== verification/TcpServer.v ===== *)
(** * TcpServer (network/tcp/tcp_server.h, tcp_server.cpp, Linux)

    The table of connections and what the accept, heartbeat and reader threads and
    the callers do to it.  A connection object outlives its entry in the table: the
    reader thread holds it until it leaves its loop.

    Heartbeat, [stop] and [close_session] close connections under [conn_mutex_], the
    reader of a connection without it: their calls of [TcpConnection::close] on one
    connection can overlap.  The steps below are those of runs in which they do not; what
    overlapping calls do is in the last part of [tcp_server_sessions]. *)

From S2P Require Import Prelude ByteOrder Packet TcpConnection.

Open Scope Z_scope.

(** [connections_] holds the identifiers of the table; the objects themselves are in
    [objs], with the ones whose reader still runs in [readers].  [user_close] records
    the calls of the server's [on_close_]. *)
Record TcpServer := {
  port_ : Z;
  heartbeat_interval_ms_ : Z;
  idle_timeout_ms_ : Z;
  server_sock_ : Z;
  running_ : bool;
  connections_ : gset Z;
  next_session_id_ : Z;
  objs : gmap Z Conn;
  readers : gset Z;
  user_close : list Z;
  server_closed : list Z;
}.

Definition new_server (port idle_timeout : Z) : TcpServer :=
  {| port_ := port; heartbeat_interval_ms_ := 10000; idle_timeout_ms_ := idle_timeout;
     server_sock_ := INVALID_SOCKET; running_ := false; connections_ := ∅;
     next_session_id_ := 1; objs := ∅; readers := ∅; user_close := []; server_closed := [] |}.

Definition set_objs (cs : gset Z) (m : gmap Z Conn) (s : TcpServer) : TcpServer :=
  {| port_ := port_ s; heartbeat_interval_ms_ := heartbeat_interval_ms_ s;
     idle_timeout_ms_ := idle_timeout_ms_ s; server_sock_ := server_sock_ s;
     running_ := running_ s; connections_ := cs; next_session_id_ := next_session_id_ s;
     objs := m; readers := readers s; user_close := user_close s;
     server_closed := server_closed s |}.
Definition set_listener (sock : Z) (run : bool) (closed : list Z) (s : TcpServer) : TcpServer :=
  {| port_ := port_ s; heartbeat_interval_ms_ := heartbeat_interval_ms_ s;
     idle_timeout_ms_ := idle_timeout_ms_ s; server_sock_ := sock; running_ := run;
     connections_ := connections_ s; next_session_id_ := next_session_id_ s; objs := objs s;
     readers := readers s; user_close := user_close s; server_closed := closed |}.

Definition set_heartbeat_interval (ms : Z) (s : TcpServer) : TcpServer :=
  {| port_ := port_ s; heartbeat_interval_ms_ := ms; idle_timeout_ms_ := idle_timeout_ms_ s;
     server_sock_ := server_sock_ s; running_ := running_ s; connections_ := connections_ s;
     next_session_id_ := next_session_id_ s; objs := objs s; readers := readers s;
     user_close := user_close s; server_closed := server_closed s |}.
Definition set_idle_timeout (ms : Z) (s : TcpServer) : TcpServer :=
  {| port_ := port_ s; heartbeat_interval_ms_ := heartbeat_interval_ms_ s; idle_timeout_ms_ := ms;
     server_sock_ := server_sock_ s; running_ := running_ s; connections_ := connections_ s;
     next_session_id_ := next_session_id_ s; objs := objs s; readers := readers s;
     user_close := user_close s; server_closed := server_closed s |}.

(** [sock] is what [socket] returns, [bound] whether [bind_and_listen] succeeds; the
    socket of a failed bind stays in the member. *)
Definition start (sock : Z) (bound : bool) (s : TcpServer) : bool * TcpServer :=
  if running_ s then (true, s)
  else if sock =? INVALID_SOCKET then (false, set_listener sock (running_ s) (server_closed s) s)
  else if negb bound then (false, set_listener sock (running_ s) (server_closed s) s)
  else (true, set_listener sock true (server_closed s) s).

(** A turn of the accept thread that finds a connection; [start] of the connection
    runs its two threads.  [tested] says that the thread has read [running_] before,
    when it was true: [stop] may have run since. *)
Definition accept (tested : bool) (tick sock : Z) (s : TcpServer) : TcpServer :=
  if negb (running_ s || tested) || (sock =? INVALID_SOCKET) then s
  else
    let sid := next_session_id_ s in
    {| port_ := port_ s; heartbeat_interval_ms_ := heartbeat_interval_ms_ s;
       idle_timeout_ms_ := idle_timeout_ms_ s; server_sock_ := server_sock_ s;
       running_ := running_ s; connections_ := {[sid]} ∪ connections_ s;
       next_session_id_ := sid + 1; objs := <[sid := new_conn tick sock sid]> (objs s);
       readers := {[sid]} ∪ readers s; user_close := user_close s;
       server_closed := server_closed s |}.

(** The function given to [set_on_close]: erase, then the server's callback. *)
Definition reader_left (sid : Z) (c : Conn) (s : TcpServer) : TcpServer :=
  {| port_ := port_ s; heartbeat_interval_ms_ := heartbeat_interval_ms_ s;
     idle_timeout_ms_ := idle_timeout_ms_ s; server_sock_ := server_sock_ s;
     running_ := running_ s; connections_ := connections_ s ∖ {[sid]};
     next_session_id_ := next_session_id_ s; objs := <[sid := c]> (objs s);
     readers := readers s ∖ {[sid]}; user_close := user_close s ++ [sid];
     server_closed := server_closed s |}.

(** The reader of a session goes through some events. *)
Definition reader_step (host : bool) (sid : Z) (evs : list recv_event) (s : TcpServer)
    : outcome TcpServer :=
  if decide (sid ∈ readers s) then
    match objs s !! sid with
    | Some c =>
        r ← read_loop host evs c;
        match r with
        | Reading c' => Ret (set_objs (connections_ s) (<[sid := c']> (objs s)) s)
        | Left c' => Ret (reader_left sid c' s)
        end
    | None => Ret s
    end
  else Ret s.

(** A pass over the connections of the table. *)
Definition map_table (f : Conn -> Conn) (s : TcpServer) : gmap Z Conn :=
  map_imap (fun sid c => Some (if decide (sid ∈ connections_ s) then f c else c)) (objs s).

Definition heartbeat (tick : Z) (s : TcpServer) : TcpServer :=
  set_objs (connections_ s)
    (map_table (fun c => if is_idle tick (idle_timeout_ms_ s) c then close c else c) s) s.

Definition stop (s : TcpServer) : TcpServer :=
  if running_ s then
    set_listener INVALID_SOCKET false (server_closed s ++ [server_sock_ s])
      (set_objs ∅ (map_table close s) s)
  else s.

Definition broadcast (host : bool) (c : Z) (d : list byte) (s : TcpServer) : bool * TcpServer :=
  (true, set_objs (connections_ s) (map_table (fun o => snd (send_packet host c d o)) s) s).

Definition send_to (host : bool) (sid c : Z) (d : list byte) (s : TcpServer) : bool * TcpServer :=
  if decide (sid ∈ connections_ s) then
    match objs s !! sid with
    | Some o =>
        let '(r, o') := send_packet host c d o in
        (r, set_objs (connections_ s) (<[sid := o']> (objs s)) s)
    | None => (false, s)
    end
  else (false, s).

Definition close_session (sid : Z) (s : TcpServer) : TcpServer :=
  if decide (sid ∈ connections_ s) then
    match objs s !! sid with
    | Some o => set_objs (connections_ s ∖ {[sid]}) (<[sid := close o]> (objs s)) s
    | None => s
    end
  else s.

Definition session_count (s : TcpServer) : nat := base.size (connections_ s).

(** The steps of the threads around the server. *)
Inductive server_op :=
| SrvStart (sock : Z) (bound : bool)
| SrvAccept (tested : bool) (tick sock : Z)
| SrvReader (sid : Z) (evs : list recv_event)
| SrvHeartbeat (tick : Z)
| SrvStop
| SrvBroadcast (c : Z) (d : list byte)
| SrvSendTo (sid c : Z) (d : list byte)
| SrvClose (sid : Z).

Definition run_server_op (host : bool) (o : server_op) (s : TcpServer) : outcome TcpServer :=
  match o with
  | SrvStart sock bound => Ret (snd (start sock bound s))
  | SrvAccept tested tick sock => Ret (accept tested tick sock s)
  | SrvReader sid evs => reader_step host sid evs s
  | SrvHeartbeat tick => Ret (heartbeat tick s)
  | SrvStop => Ret (stop s)
  | SrvBroadcast c d => Ret (snd (broadcast host c d s))
  | SrvSendTo sid c d => Ret (snd (send_to host sid c d s))
  | SrvClose sid => Ret (close_session sid s)
  end.

Fixpoint run_server (host : bool) (ops : list server_op) (s : TcpServer) : outcome TcpServer :=
  match ops with
  | [] => Ret s
  | o :: ops' => s' ← run_server_op host o s; run_server host ops' s'
  end.

(** ** Invariant *)

(** A connection closed at most once, as its flag says. *)
Definition conn_ok (sid : Z) (running : bool) (c : Conn) : Prop :=
  session_id_ c = sid /\
  (if closed_ c then length (closed_socks c) = 1%nat else closed_socks c = [] /\ running = true) /\
  close_calls c = (if running then 0 else 1)%nat.

Record wf (s : TcpServer) : Prop := {
  wf_ids : forall sid c, objs s !! sid = Some c ->
    1 <= sid < next_session_id_ s /\ conn_ok sid (bool_decide (sid ∈ readers s)) c;
  wf_table : connections_ s ⊆ readers s;
  wf_readers : readers s ⊆ dom (objs s);
  wf_next : 1 <= next_session_id_ s;
  wf_close : NoDup (user_close s) /\
    forall sid, sid ∈ user_close s <-> sid ∈ dom (objs s) /\ sid ∉ readers s;
}.

Lemma close_conn_ok sid running c : conn_ok sid running c -> conn_ok sid running (close c).
Proof.
  unfold conn_ok, close. destruct (closed_ c) eqn:E; [by rewrite E|].
  intros (H1 & [H2 H3] & H4). simpl. by rewrite H2.
Qed.

Lemma send_conn_ok host sid running p d c :
  conn_ok sid running c -> conn_ok sid running (snd (send_packet host p d c)).
Proof. done. Qed.

(** A change of the objects that keeps every connection sound, and of the table that
    only shrinks it. *)
Lemma set_objs_wf cs m s :
  wf s -> cs ⊆ connections_ s -> dom m = dom (objs s) ->
  (forall sid c c', objs s !! sid = Some c -> m !! sid = Some c' ->
     conn_ok sid (bool_decide (sid ∈ readers s)) c -> conn_ok sid (bool_decide (sid ∈ readers s)) c') ->
  wf (set_objs cs m s).
Proof.
  intros [Hids Htab Hrd Hn Hcl] Hcs Hdom Hok. split; simpl.
  - intros sid c Hc. assert (is_Some (objs s !! sid)) as [c0 Hc0].
    { apply elem_of_dom. rewrite <-Hdom. apply elem_of_dom. by exists c. }
    destruct (Hids sid c0 Hc0) as [? ?]. split; [done|]. by eapply Hok.
  - set_solver.
  - by rewrite Hdom.
  - done.
  - by rewrite Hdom.
Qed.

Lemma map_table_dom f s : dom (map_table f s) = dom (objs s).
Proof.
  apply set_eq. intros sid. rewrite !elem_of_dom. unfold map_table. rewrite map_lookup_imap.
  destruct (objs s !! sid); simpl; [split; intros _; by eexists|done].
Qed.

Lemma map_table_wf cs f s :
  wf s -> cs ⊆ connections_ s -> (forall sid b c, conn_ok sid b c -> conn_ok sid b (f c)) ->
  wf (set_objs cs (map_table f s) s).
Proof.
  intros Hwf Hcs Hf. apply set_objs_wf; [done|done|apply map_table_dom|].
  intros sid c c' Hc. unfold map_table. rewrite map_lookup_imap, Hc. simpl. intros [= <-] Hok.
  destruct (decide (sid ∈ connections_ s)); [by apply Hf|done].
Qed.

Lemma insert_wf cs sid c c' s :
  wf s -> cs ⊆ connections_ s -> objs s !! sid = Some c ->
  (forall b, conn_ok sid b c -> conn_ok sid b c') ->
  wf (set_objs cs (<[sid := c']> (objs s)) s).
Proof.
  intros Hwf Hcs Hc Hf. apply set_objs_wf; [done|done| |].
  - rewrite dom_insert_L. apply elem_of_dom_2 in Hc. set_solver.
  - intros sid' c0 c1 Hc0. destruct (decide (sid = sid')) as [<-|Hne].
    + rewrite lookup_insert_eq. intros [= <-]. rewrite Hc in Hc0. injection Hc0 as <-. apply Hf.
    + rewrite lookup_insert_ne by done. rewrite Hc0. by intros [= <-].
Qed.

Lemma set_listener_wf sock run closed s : wf s -> wf (set_listener sock run closed s).
Proof. by intros []. Qed.

Lemma accept_wf tested tick sock s : wf s -> wf (accept tested tick sock s).
Proof.
  intros Hwf. unfold accept. case_match; [done|]. pose proof Hwf as [Hids Htab Hrd Hn [Hnd Hcl]].
  set (sid := next_session_id_ s). assert (sid ∉ dom (objs s)) as Hnew.
  { intros (c & Hc)%elem_of_dom. apply Hids in Hc. unfold sid in *. lia. }
  split; simpl.
  - intros k c. destruct (decide (sid = k)) as [<-|Hne].
    + rewrite lookup_insert_eq. intros [= <-]. split; [unfold sid; lia|].
      rewrite bool_decide_true by set_solver. done.
    + rewrite lookup_insert_ne by done. intros Hc. destruct (Hids k c Hc) as [? Hok].
      split; [unfold sid; lia|]. erewrite bool_decide_ext; [exact Hok|set_solver].
  - set_solver.
  - rewrite dom_insert_L. set_solver.
  - unfold sid. lia.
  - split; [done|]. intros k. rewrite Hcl, dom_insert_L. set_solver.
Qed.

(** What the reader's loop does to a connection. *)
Lemma process_read_ok host sid b c more c' :
  conn_ok sid b c -> process_read host c = Ret (more, c') -> conn_ok sid b c'.
Proof.
  intros Hok. unfold process_read. destruct (decode_from _ _ _ _) as [[[[] p] n]| |]; try done;
    rewrite bind_Ret; by intros [= <- <-].
Qed.

Lemma drain_ok host sid b fuel c c' : conn_ok sid b c -> drain host fuel c = Ret c' -> conn_ok sid b c'.
Proof.
  revert c. induction fuel as [|fuel IH]; intros c Hok; cbn [drain]; [by intros [= <-]|].
  destruct (process_read host c) as [[[] c1]| |] eqn:E; try done; rewrite bind_Ret;
    apply (process_read_ok host sid b) in E; try done; [by apply IH|by intros [= <-]].
Qed.

Lemma leave_ok sid c : conn_ok sid true c -> conn_ok sid false (call_on_close (close c)).
Proof.
  unfold conn_ok, close. destruct (closed_ c) eqn:E; simpl.
  - rewrite E. intros (-> & -> & ->). done.
  - intros (-> & [-> _] & ->). done.
Qed.

Lemma read_loop_ok host sid evs c :
  conn_ok sid true c ->
  match read_loop host evs c with
  | Ret (Reading c') => conn_ok sid true c'
  | Ret (Left c') => conn_ok sid false c'
  | _ => True
  end.
Proof.
  revert c. induction evs as [|[tick bs|errno|] evs IH]; intros c Hok; cbn [read_loop];
    (destruct (closed_ c) eqn:Hc; [by apply leave_ok|]).
  - done.
  - destruct (drain host _ _) as [c2| |] eqn:E; [|done..]. rewrite bind_Ret. apply IH.
    eapply drain_ok; [|exact E]. exact Hok.
  - destruct (errno =? EINTR); [by apply IH|by apply leave_ok].
  - apply IH. by apply close_conn_ok.
Qed.

Lemma reader_left_wf sid c c' s :
  wf s -> sid ∈ readers s -> objs s !! sid = Some c -> conn_ok sid false c' ->
  wf (reader_left sid c' s).
Proof.
  intros [Hids Htab Hrd Hn [Hnd Hcl]] Hin Hc Hok.
  assert (dom (<[sid := c']> (objs s)) = dom (objs s)) as Hdom.
  { rewrite dom_insert_L. apply elem_of_dom_2 in Hc. set_solver. }
  split; simpl; rewrite ?Hdom.
  - intros k o. destruct (decide (sid = k)) as [<-|Hne].
    + rewrite lookup_insert_eq. intros [= <-]. split; [by apply (Hids sid c)|].
      rewrite bool_decide_false by set_solver. done.
    + rewrite lookup_insert_ne by done. intros Ho. destruct (Hids k o Ho) as [? Hk].
      split; [done|]. erewrite bool_decide_ext; [exact Hk|set_solver].
  - set_solver.
  - set_solver.
  - done.
  - split.
    + apply NoDup_app. split_and!; [done| |apply NoDup_singleton].
      intros k Hk ->%list_elem_of_singleton. by apply Hcl in Hk as [_ ?].
    + intros k. rewrite elem_of_app, list_elem_of_singleton, Hcl.
      destruct (decide (k = sid)) as [->|]; set_solver.
Qed.

Lemma reader_step_wf host sid evs s s' : wf s -> reader_step host sid evs s = Ret s' -> wf s'.
Proof.
  intros Hwf. unfold reader_step. destruct (decide (sid ∈ readers s)) as [Hin|]; [|by intros [= <-]].
  destruct (objs s !! sid) as [c|] eqn:Hc; [|by intros [= <-]].
  pose proof (wf_ids _ Hwf sid c Hc) as [_ Hok]. rewrite bool_decide_true in Hok by done.
  pose proof (read_loop_ok host sid evs c Hok) as Hr.
  destruct (read_loop host evs c) as [[c'|c']| |]; try done; rewrite bind_Ret; intros [= <-].
  - apply set_objs_wf; [done|done| |].
    + rewrite dom_insert_L. apply elem_of_dom_2 in Hc. set_solver.
    + intros k c0 c1 Hc0. destruct (decide (sid = k)) as [<-|Hne].
      * rewrite lookup_insert_eq. intros [= <-] _. by rewrite bool_decide_true.
      * rewrite lookup_insert_ne by done. rewrite Hc0. by intros [= <-].
  - by eapply reader_left_wf.
Qed.

Lemma run_server_op_wf host o s s' : wf s -> run_server_op host o s = Ret s' -> wf s'.
Proof.
  intros Hwf. destruct o as [sock bound|tested tick sock|sid evs|tick| |c d|sid c d|sid]; simpl.
  - intros [= <-]. unfold start. repeat case_match; simpl; try done; by apply set_listener_wf.
  - intros [= <-]. by apply accept_wf.
  - by apply reader_step_wf.
  - intros [= <-]. apply map_table_wf; [done|done|]. intros sid b c Hok.
    case_match; [by apply close_conn_ok|done].
  - intros [= <-]. unfold stop. case_match; [|done]. apply set_listener_wf.
    apply map_table_wf; [done|apply empty_subseteq|]. intros sid b c. apply close_conn_ok.
  - intros [= <-]. apply map_table_wf; [done|done|]. intros sid b o. apply send_conn_ok.
  - intros [= <-]. unfold send_to. case_decide; [|done]. destruct (objs s !! sid) eqn:E; [|done].
    simpl. by eapply insert_wf.
  - intros [= <-]. unfold close_session. case_decide; [|done].
    destruct (objs s !! sid) eqn:E; [|done]. eapply insert_wf; [done|set_solver|done|].
    intros b. apply close_conn_ok.
Qed.

Lemma new_server_wf port timeout : wf (new_server port timeout).
Proof.
  split; simpl; try done. split; [constructor|]. intros sid. split.
  - by intros ?%not_elem_of_nil.
  - rewrite dom_empty_L. by intros [?%not_elem_of_empty _].
Qed.

Lemma run_server_wf host ops s s' : wf s -> run_server host ops s = Ret s' -> wf s'.
Proof.
  revert s. induction ops as [|o ops IH]; intros s Hwf; simpl; [by intros [= <-]|].
  destruct (run_server_op host o s) as [s1| |] eqn:E; try done. rewrite bind_Ret.
  apply IH. by eapply run_server_op_wf.
Qed.

(** C26: Whatever the threads do, as long as no two calls of [TcpConnection::close] on the
    same connection overlap: a session of the table has a reader that still runs; every
    accepted connection has an identifier of its own, closes its socket at most once, and
    is reported to [on_close_] once, exactly when its reader has left; and [stop] leaves the
    table empty and every connection of it closed.
    When calls on an open connection do overlap (that of the reader with one of the
    heartbeat, [stop] or [close_session]), the connection is closed when all have returned and
    the socket was closed at least once, but two of them can close it twice: the flag
    is tested and set in two steps without a lock. *)
Theorem tcp_server_sessions host port timeout ops s :
  run_server host ops (new_server port timeout) = Ret s ->
  connections_ s ⊆ readers s /\ readers s ⊆ dom (objs s) /\ NoDup (user_close s) /\
  (forall sid c, objs s !! sid = Some c ->
     1 <= sid < next_session_id_ s /\ session_id_ c = sid /\
     (length (closed_socks c) <= 1)%nat /\
     close_calls c = (if bool_decide (sid ∈ user_close s) then 1 else 0)%nat /\
     (sid ∈ user_close s <-> sid ∉ readers s) /\
     (sid ∈ user_close s -> closed_ c = true)) /\
  (running_ s = true -> connections_ (stop s) = ∅ /\
     forall sid, sid ∈ connections_ s ->
       exists c, objs (stop s) !! sid = Some c /\ closed_ c = true) /\
  (forall sid c, objs s !! sid = Some c -> closed_ c = false ->
     (forall k order, (0 < k)%nat ->
        let '(pcs, c') := close_steps order (replicate k C_test, c) in
        (length (closed_socks c') <= k)%nat /\
        (Forall (fun pc => pc = C_done) pcs -> closed_ c' = true /\ head (closed_socks c') = Some (sock_ c))) /\
     close_steps (replicate 6 0%nat) ([C_test], c) = ([C_done], close c) /\
     exists order c', close_steps order ([C_test; C_test], c) = ([C_done; C_done], c') /\
       closed_socks c' = [sock_ c; sock_ c]).
Proof.
  intros Hr. apply run_server_wf in Hr; [|apply new_server_wf].
  destruct Hr as [Hids Htab Hrd Hn [Hnd Hcl]]. split_and!; [done..| | |].
  - intros sid c Hc. destruct (Hids sid c Hc) as [Hid (H1 & H2 & H3)].
    assert (sid ∈ user_close s <-> sid ∉ readers s) as Hiff.
    { rewrite Hcl. apply elem_of_dom_2 in Hc. tauto. }
    split_and!; [lia|lia|done| | |done|].
    + destruct (closed_ c); [lia|]. destruct H2 as [-> _]. simpl. lia.
    + rewrite H3. destruct (decide (sid ∈ readers s)) as [Hi|Hi].
      * rewrite bool_decide_true, bool_decide_false by tauto. done.
      * rewrite bool_decide_false, bool_decide_true by tauto. done.
    + intros Hu%Hiff. rewrite bool_decide_false in H2 by done. by destruct (closed_ c), H2.
  - intros Hrun. unfold stop. rewrite Hrun. split; [done|]. intros sid Hsid.
    assert (is_Some (objs s !! sid)) as [c Hc] by (apply elem_of_dom; set_solver).
    exists (close c). simpl. unfold map_table. rewrite map_lookup_imap, Hc. simpl.
    rewrite decide_True by done. split; [done|]. unfold close. by destruct (closed_ c) eqn:E.
  - intros sid c Hc Hopen. destruct (Hids sid c Hc) as [_ (_ & H2 & _)]. rewrite Hopen in H2.
    destruct H2 as [Hs _]. split_and!; [|apply close_alone|].
    + intros k order Hk. destruct (overlapping_closes k c Hopen Hs Hk) as [H _]. specialize (H order).
      destruct (close_steps order _) as [pcs c']. by destruct H as (? & _ & ?).
    + destruct (overlapping_closes 1 c Hopen Hs ltac:(lia)) as [_ H].
      destruct (close_steps _ ([C_test; C_test], c)) as [pcs c'] eqn:E. destruct H as (-> & _ & H).
      by exists [0; 1; 0; 1; 0; 1; 0; 1; 0; 1; 0; 1]%nat, c'.
Qed.

(** A server with one session whose first [recv] finds nothing. *)
Lemma tcp_server_sessions_witness :
  exists s, run_server true [SrvStart 3 true; SrvAccept false 100 7; SrvReader 1 [NoData EAGAIN]]
      (new_server 8080 30000) = Ret s /\ NoDup (user_close s) /\ user_close s = [1].
Proof.
  eexists. split; [reflexivity|]. split; [|reflexivity].
  apply (tcp_server_sessions true 8080 30000
    [SrvStart 3 true; SrvAccept false 100 7; SrvReader 1 [NoData EAGAIN]]). reflexivity.
Defined.
