(* ===== verification/AcceptLoop.v ===== *)
(** * The accept thread (network/tcp/tcp_server.cpp, [accept_loop])

    The loop over [epoll_wait] around [TcpServer.accept].  The kernel is a parameter through
    what its calls return; its list of descriptors is part of the state: [epoll_ctl] adds to
    it, and closing a descriptor takes it out. *)

From S2P Require Import Prelude ByteOrder Packet TcpConnection TcpServer.

Open Scope Z_scope.

(** What a descriptor is registered for: EPOLLIN, EPOLLOUT.  Registration is
    level-triggered. *)
Record Acceptor := { server : TcpServer; interest : gmap Z (bool * bool); alive : bool }.

(** [epoll_wait]: an error, or the descriptors reported, none when the time is over; for
    every event of the listener what [accept_connection] and the clock return. *)
Inductive wait_result := WaitErr (errno : Z) | Events (fds : list Z) (accs : list (Z * Z)).

(** The thread starts after [start]; [created] says whether [epoll_create1] succeeds. *)
Definition accept_start (created : bool) (s : TcpServer) : Acceptor :=
  {| server := s; interest := if created then {[ server_sock_ s := (true, false) ]} else ∅;
     alive := created |}.

(** One event.  [server_sock_] is the member now: [stop] may have run. *)
Definition accept_event (fd : Z) (a : Acceptor * list (Z * Z)) : Acceptor * list (Z * Z) :=
  let '(s, accs) := a in
  if fd =? server_sock_ (server s) then
    match accs with
    | (tick, sock) :: accs' =>
        ({| server := accept true tick sock (server s);
            interest := if sock =? INVALID_SOCKET then interest s
                        else <[sock := (true, true)]> (interest s);
            alive := alive s |}, accs')
    | [] => (s, [])
    end
  else (s, accs).

(** One turn of [while (running_)]; [tested] says that it has read [running_] before, when it
    was true. *)
Definition accept_turn (tested : bool) (r : wait_result) (s : Acceptor) : Acceptor :=
  if negb (alive s) then s
  else if negb (running_ (server s) || tested) then {| server := server s; interest := interest s; alive := false |}
  else
    match r with
    | WaitErr errno =>
        if errno =? EINTR then s
        else {| server := server s; interest := interest s; alive := false |}
    | Events fds accs => fst (foldl (fun a fd => accept_event fd a) (s, accs) fds)
    end.

(** The sockets a step of another thread has closed. *)
Definition socks_closed (s s' : TcpServer) : list Z :=
  omap (fun kv : Z * Conn =>
    if closed_ kv.2 then None
    else match objs s' !! kv.1 with
         | Some c' => if closed_ c' then Some (sock_ kv.2) else None
         | None => None
         end) (map_to_list (objs s)) ++
  (if decide (server_sock_ s' = server_sock_ s) then [] else [server_sock_ s]).

Definition other_step (host : bool) (o : server_op) (s : Acceptor) : outcome Acceptor :=
  s' ← run_server_op host o (server s);
  Ret {| server := s';
         interest := filter (fun kv => kv.1 ∉ socks_closed (server s) s') (interest s);
         alive := alive s |}.

(** What [epoll_wait] promises: it reports registered descriptors that are ready, at most
    64, each once, and some if there are any; [readable] and [writable] say what the
    sockets are.  [accept] gives a descriptor that is not open. *)
Definition is_ready (readable writable : Z -> bool) (s : Acceptor) (fd : Z) : Prop :=
  exists i o, interest s !! fd = Some (i, o) /\ i && readable fd || o && writable fd = true.

Definition wait_ok (readable writable : Z -> bool) (s : Acceptor) (r : wait_result) : Prop :=
  match r with
  | WaitErr _ => True
  | Events fds accs =>
      NoDup fds /\ (length fds <= 64)%nat /\ (forall fd, fd ∈ fds -> is_ready readable writable s fd) /\
      ((exists fd, is_ready readable writable s fd) -> fds <> []) /\
      (length fds <= length accs)%nat /\
      forall tick sock, (tick, sock) ∈ accs -> sock <> INVALID_SOCKET -> interest s !! sock = None
  end.

(** The steps of the accept thread and of the others, which do not accept. *)
Inductive accept_step (host : bool) : Acceptor -> Acceptor -> Prop :=
| as_turn s readable writable tested r :
    wait_ok readable writable s r -> accept_step host s (accept_turn tested r s)
| as_other s o s' :
    match o with SrvStart _ _ | SrvAccept _ _ _ => False | _ => True end ->
    other_step host o s = Ret s' -> accept_step host s s'.

(** ** Open connections keep their sockets *)

(** Every connection open after the step was open before, with the same socket. *)
Definition still_open (s s' : TcpServer) : Prop :=
  forall sid c', objs s' !! sid = Some c' -> closed_ c' = false ->
    exists c, objs s !! sid = Some c /\ closed_ c = false /\ sock_ c' = sock_ c.

Lemma close_closed c : closed_ (close c) = true.
Proof. unfold close. by destruct (closed_ c) eqn:E. Qed.

Lemma still_open_refl s : still_open s s.
Proof. intros sid c Hc Ho. by exists c. Qed.

Lemma still_open_map_table f cs s :
  (forall c, closed_ (f c) = false -> closed_ c = false /\ sock_ (f c) = sock_ c) ->
  still_open s (set_objs cs (map_table f s) s).
Proof.
  intros Hf sid c'. cbn. unfold map_table. rewrite map_lookup_imap.
  destruct (objs s !! sid) as [c|]; [|done]. cbn. intros [= <-] Ho. exists c. split; [done|].
  destruct (decide (sid ∈ connections_ s)); [by apply Hf|done].
Qed.

Lemma still_open_insert sid c c' cs s :
  objs s !! sid = Some c -> (closed_ c' = false -> closed_ c = false /\ sock_ c' = sock_ c) ->
  still_open s (set_objs cs (<[sid := c']> (objs s)) s).
Proof.
  intros Hc Hc' k o. cbn. destruct (decide (sid = k)) as [<-|Hne].
  - rewrite lookup_insert_eq. intros [= <-] Ho. exists c. split; [done|by apply Hc'].
  - rewrite lookup_insert_ne by done. intros Ho Hcl. by exists o.
Qed.

Lemma read_loop_open host evs c :
  match read_loop host evs c with
  | Ret (Reading c') => closed_ c' = false -> closed_ c = false /\ sock_ c' = sock_ c
  | Ret (Left c') => closed_ c' = true
  | _ => True
  end.
Proof.
  revert c. induction evs as [|[tick bs|errno|] evs IH]; intros c; cbn [read_loop];
    (destruct (closed_ c) eqn:Hc; [apply close_closed|]).
  - done.
  - destruct (drain host _ _) as [c2| |] eqn:E; [|done..]. rewrite bind_Ret.
    apply drain_frame in E as (E1 & E2 & _). specialize (IH c2).
    destruct (read_loop host evs c2) as [[c'|c']| |]; [|done..]. intros Ho.
    destruct (IH Ho) as [_ ->]. by rewrite E2.
  - destruct (errno =? EINTR); [|apply close_closed]. specialize (IH c).
    destruct (read_loop host evs c) as [[c'|c']| |]; [|done..]. intros Ho. by destruct (IH Ho).
  - specialize (IH (close c)). destruct (read_loop host evs (close c)) as [[c'|c']| |]; [|done..].
    intros Ho. destruct (IH Ho) as [H _]. by rewrite close_closed in H.
Qed.

Lemma other_still_open host o s s' :
  match o with SrvStart _ _ | SrvAccept _ _ _ => False | _ => True end ->
  run_server_op host o s = Ret s' ->
  still_open s s' /\ (server_sock_ s' = server_sock_ s \/ server_sock_ s' = INVALID_SOCKET).
Proof.
  intros Ho. destruct o as [| |sid evs|tick| |c d|sid c d|sid]; try done; cbn [run_server_op].
  - unfold reader_step. case_decide; [|intros [= <-]; split; [apply still_open_refl|by left]].
    destruct (objs s !! sid) as [c|] eqn:Hc; [|intros [= <-]; split; [apply still_open_refl|by left]].
    pose proof (read_loop_open host evs c) as Hr.
    destruct (read_loop host evs c) as [[c'|c']| |]; [..|done|done]; rewrite bind_Ret; intros [= <-];
      (split; [|by left]).
    + by apply (still_open_insert sid c).
    + apply (still_open_insert sid c c' ∅ s Hc). rewrite Hr. done.
  - intros [= <-]. split; [|by left]. apply still_open_map_table. intros c.
    case_match; [by rewrite close_closed|done].
  - intros [= <-]. unfold stop. case_match; [|split; [apply still_open_refl|by left]].
    split; [|by right]. apply (still_open_map_table close ∅ s). intros c. by rewrite close_closed.
  - intros [= <-]. split; [|by left]. by apply still_open_map_table.
  - intros [= <-]. unfold send_to. case_decide; [|split; [apply still_open_refl|by left]].
    destruct (objs s !! sid) as [o|] eqn:Hc; [|split; [apply still_open_refl|by left]].
    split; [|by left]. by apply (still_open_insert sid o).
  - intros [= <-]. unfold close_session. case_decide; [|split; [apply still_open_refl|by left]].
    destruct (objs s !! sid) as [o|] eqn:Hc; [|split; [apply still_open_refl|by left]].
    split; [|by left]. apply (still_open_insert sid o); [done|]. by rewrite close_closed.
Qed.

(** ** The invariant *)

Record accept_ok (s : Acceptor) : Prop := {
  ao_open : forall sid c, objs (server s) !! sid = Some c -> closed_ c = false ->
    interest s !! sock_ c = Some (true, true) /\ sock_ c <> server_sock_ (server s);
  ao_apart : forall sid c k o, objs (server s) !! sid = Some c -> objs (server s) !! k = Some o ->
    closed_ c = false -> closed_ o = false -> sock_ c = sock_ o -> sid = k;
  ao_listener : alive s = true -> server_sock_ (server s) <> INVALID_SOCKET ->
    interest s !! server_sock_ (server s) = Some (true, false);
  ao_invalid : interest s !! INVALID_SOCKET = None;
}.

Lemma accept_ok_alive s b :
  (b = true -> alive s = true) -> accept_ok s ->
  accept_ok {| server := server s; interest := interest s; alive := b |}.
Proof. intros Hb [H1 H2 H3 H4]. split; cbn; auto. Qed.

Lemma accept_start_ok created sock s :
  objs s = ∅ -> server_sock_ s = sock -> sock <> INVALID_SOCKET -> accept_ok (accept_start created s).
Proof.
  intros He <- Hs. unfold accept_start. split; cbn; rewrite ?He; try done.
  - intros ->. intros _. apply lookup_singleton_eq.
  - destruct created; [|done]. by apply lookup_singleton_ne.
Qed.

(** A closed socket is nobody's that is open after the step. *)
Lemma not_socks_closed s s' sid c c' :
  (forall k1 c1 k2 c2, objs s !! k1 = Some c1 -> objs s !! k2 = Some c2 ->
     closed_ c1 = false -> closed_ c2 = false -> sock_ c1 = sock_ c2 -> k1 = k2) ->
  objs s !! sid = Some c -> closed_ c = false -> objs s' !! sid = Some c' -> closed_ c' = false ->
  sock_ c <> server_sock_ s -> sock_ c ∉ socks_closed s s'.
Proof.
  intros Hinj Hc Ho Hc' Ho' Hl. unfold socks_closed. intros [Hin|Hin]%elem_of_app.
  - apply list_elem_of_omap in Hin as ([k o] & Hk & Hcl). apply elem_of_map_to_list in Hk. cbn in Hcl.
    destruct (closed_ o) eqn:E; [done|]. destruct (objs s' !! k) as [o'|] eqn:Ek; [|done].
    destruct (closed_ o') eqn:E'; [|done]. injection Hcl as Hsk.
    assert (k = sid) as -> by by eapply Hinj. congruence.
  - case_decide; [by apply not_elem_of_nil in Hin|]. by apply list_elem_of_singleton in Hin.
Qed.

Lemma other_step_ok host o s s' :
  match o with SrvStart _ _ | SrvAccept _ _ _ => False | _ => True end ->
  other_step host o s = Ret s' -> accept_ok s -> accept_ok s'.
Proof.
  intros Ho. unfold other_step. destruct (run_server_op host o (server s)) as [t| |] eqn:E; [|done..].
  rewrite bind_Ret. intros [= <-] [H1 H2 H3 H4].
  destruct (other_still_open host o _ _ Ho E) as [Hop Hsk]. split; cbn.
  - intros sid c' Hc' Hcl'. destruct (Hop sid c' Hc' Hcl') as (c & Hc & Hcl & Es).
    destruct (H1 sid c Hc Hcl) as [Hi Hne]. rewrite Es. split.
    + apply map_lookup_filter_Some. split; [done|]. cbn. by eapply not_socks_closed.
    + destruct Hsk as [->| ->]; [done|]. intros Heq. rewrite Heq in Hi. congruence.
  - intros sid c k o' Hc Ho' Hcl Hclo Heq.
    destruct (Hop sid c Hc Hcl) as (c0 & ? & ? & ?). destruct (Hop k o' Ho' Hclo) as (o0 & ? & ? & ?).
    eapply H2; [done|done|done|done|congruence].
  - intros Hal Hne. destruct Hsk as [Hsk|]; [|done]. rewrite Hsk in *.
    apply map_lookup_filter_Some. split; [by apply H3|]. cbn. unfold socks_closed.
    rewrite elem_of_app, decide_True, elem_of_nil by done. intros [Hin|[]].
    apply list_elem_of_omap in Hin as ([k o'] & Hk & Hcl). apply elem_of_map_to_list in Hk. cbn in Hcl.
    destruct (closed_ o') eqn:Eo; [done|]. destruct (objs t !! k) as [o1|]; [|done].
    destruct (closed_ o1); [|done]. injection Hcl as Hs. by destruct (H1 k o' Hk Eo).
  - rewrite map_lookup_filter_None. by left.
Qed.

(** ** A turn of the accept thread *)

(** A connection is taken from the queue of the listener. *)
Definition accept_one (tick sock : Z) (s : Acceptor) : Acceptor :=
  {| server := accept true tick sock (server s);
     interest := if sock =? INVALID_SOCKET then interest s
                 else <[sock := (true, true)]> (interest s);
     alive := alive s |}.

Lemma accept_server_sock tested tick sock s : server_sock_ (accept tested tick sock s) = server_sock_ s.
Proof. unfold accept. by case_match. Qed.

Lemma events_ignored fds s accs :
  server_sock_ (server s) ∉ fds -> foldl (fun a fd => accept_event fd a) (s, accs) fds = (s, accs).
Proof.
  induction fds as [|fd fds IH]; intros Hn; [done|]. cbn [foldl]. unfold accept_event at 2.
  rewrite (proj2 (Z.eqb_neq _ _)) by set_solver. apply IH. set_solver.
Qed.

Lemma events_accept fds s tick sock accs :
  NoDup fds -> server_sock_ (server s) ∈ fds ->
  fst (foldl (fun a fd => accept_event fd a) (s, (tick, sock) :: accs) fds) = accept_one tick sock s.
Proof.
  induction fds as [|fd fds IH]; intros Hnd Hin; [by apply not_elem_of_nil in Hin|].
  apply NoDup_cons in Hnd as [Hn Hnd]. cbn [foldl]. unfold accept_event at 2.
  destruct (Z.eqb_spec fd (server_sock_ (server s))) as [->|Hne].
  - rewrite events_ignored; [done|]. cbn. by rewrite accept_server_sock.
  - apply IH; [done|]. apply elem_of_cons in Hin as [|]; [by subst|done].
Qed.

Lemma accept_one_ok tick sock s :
  (sock <> INVALID_SOCKET -> interest s !! sock = None) ->
  server_sock_ (server s) <> INVALID_SOCKET -> alive s = true -> accept_ok s ->
  accept_ok (accept_one tick sock s).
Proof.
  intros Hs Hl Hal Hok. unfold accept_one, accept. cbn. rewrite orb_true_r. cbn.
  destruct (Z.eqb_spec sock INVALID_SOCKET) as [->|Hv]; [by destruct Hok|].
  specialize (Hs Hv). destruct Hok as [H1 H2 H3 H4].
  assert (sock <> server_sock_ (server s)) as Hne by (intros ->; rewrite H3 in Hs by done; done).
  assert (forall k o, objs (server s) !! k = Some o -> closed_ o = false -> sock_ o <> sock) as Hfresh
    by (intros k o Ho Hcl Heq; destruct (H1 k o Ho Hcl) as [Hi _]; rewrite Heq in Hi; congruence).
  split; cbn.
  - intros sid c. destruct (decide (next_session_id_ (server s) = sid)) as [<-|Hk].
    + rewrite lookup_insert_eq. intros [= <-] _. cbn. by rewrite lookup_insert_eq.
    + rewrite lookup_insert_ne by done. intros Hc Hcl. destruct (H1 sid c Hc Hcl) as [Hi ?].
      rewrite lookup_insert_ne by (intros Heq; by eapply Hfresh). done.
  - intros sid c k o. destruct (decide (next_session_id_ (server s) = sid)) as [<-|Hk],
      (decide (next_session_id_ (server s) = k)) as [<-|Hk']; try done.
    + rewrite lookup_insert_eq, lookup_insert_ne by done. intros [= <-] Ho _ Hcl Heq.
      by destruct (Hfresh k o Ho Hcl).
    + rewrite lookup_insert_eq, lookup_insert_ne by done. intros Hc [= <-] Hcl _ Heq.
      by destruct (Hfresh sid c Hc Hcl).
    + rewrite !lookup_insert_ne by done. apply H2.
  - intros _ _. rewrite lookup_insert_ne by done. by apply H3.
  - rewrite lookup_insert_ne by done. done.
Qed.

(** What a turn does with the events: at most one connection is accepted, when the listener
    is among them; the events of the connections are dropped. *)
Lemma accept_turn_events tested fds accs s :
  alive s = true -> running_ (server s) || tested = true -> NoDup fds ->
  (length fds <= length accs)%nat ->
  accept_turn tested (Events fds accs) s =
    match accs with
    | (tick, sock) :: _ =>
        if decide (server_sock_ (server s) ∈ fds) then accept_one tick sock s else s
    | [] => s
    end.
Proof.
  intros Hal Hr Hnd Hlen. unfold accept_turn. rewrite Hal, Hr. cbn [negb].
  destruct accs as [|[tick sock] accs].
  - destruct fds; [done|cbn in Hlen; lia].
  - case_decide; [by apply events_accept|by rewrite events_ignored].
Qed.

Lemma accept_turn_ok readable writable tested r s :
  wait_ok readable writable s r -> accept_ok s -> accept_ok (accept_turn tested r s).
Proof.
  intros Hw Hok. destruct (alive s) eqn:Hal; [|unfold accept_turn; by rewrite Hal].
  destruct (running_ (server s) || tested) eqn:Hr.
  2: { unfold accept_turn. rewrite Hal, Hr. by apply accept_ok_alive. }
  destruct r as [errno|fds accs].
  - unfold accept_turn. rewrite Hal, Hr. cbn [negb]. case_match; [done|]. by apply accept_ok_alive.
  - destruct Hw as (Hnd & _ & Hready & _ & Hlen & Haccs). rewrite accept_turn_events by done.
    destruct accs as [|[tick sock] accs]; [done|]. case_decide as Hin; [|done].
    apply accept_one_ok; [|..|done|done].
    + intros Hv. apply (Haccs tick); [left|done].
    + intros Heq. destruct (Hready _ Hin) as (i & o & Hi & _). rewrite Heq in Hi.
      by rewrite (ao_invalid _ Hok) in Hi.
Qed.

Lemma accept_step_ok host s s' : accept_step host s s' -> accept_ok s -> accept_ok s'.
Proof.
  destruct 1 as [s readable writable tested r Hw|s o s' Ho Hst].
  - by eapply accept_turn_ok.
  - by eapply other_step_ok.
Qed.

(** Without the thread no session is added. *)
Lemma other_next host o s s' :
  match o with SrvStart _ _ | SrvAccept _ _ _ => False | _ => True end ->
  run_server_op host o s = Ret s' -> next_session_id_ s' = next_session_id_ s.
Proof.
  intros Ho. destruct o as [| |sid evs|tick| |c d|sid c d|sid]; try done; cbn [run_server_op].
  - unfold reader_step. case_decide; [|by intros [= <-]]. destruct (objs s !! sid); [|by intros [= <-]].
    destruct (read_loop host evs _) as [[c'|c']| |]; [..|done|done]; rewrite bind_Ret; by intros [= <-].
  - by intros [= <-].
  - intros [= <-]. unfold stop. by case_match.
  - by intros [= <-].
  - intros [= <-]. unfold send_to. by repeat case_match.
  - intros [= <-]. unfold close_session. by repeat case_match.
Qed.

Lemma dead_step host s s' :
  accept_step host s s' -> alive s = false ->
  alive s' = false /\ next_session_id_ (server s') = next_session_id_ (server s).
Proof.
  destruct 1 as [s readable writable tested r Hw|s o s' Ho Hst]; intros Hal.
  - unfold accept_turn. by rewrite Hal.
  - unfold other_step in Hst. destruct (run_server_op host o (server s)) as [t| |] eqn:E; [|done..].
    rewrite bind_Ret in Hst. injection Hst as <-. split; [done|]. by eapply other_next.
Qed.

(** C25: The accept thread, from [start] on, with the other threads of the server in any order.
    A turn accepts at most one connection, when the listener is reported, under the next
    identifier; what is reported of the connections is dropped.  Since a connection is
    registered for EPOLLOUT, which is level-triggered, [epoll_wait] never waits while some
    connection is open and can be written to: the thread spins.  And when [epoll_create1] or
    [epoll_wait] fails, other than by EINTR, the thread ends and no session is ever added
    again, although [running_] stays what it was. *)
Theorem accept_loop_turns host created sock port timeout s :
  sock <> INVALID_SOCKET ->
  rtc (accept_step host) (accept_start created (snd (start sock true (new_server port timeout)))) s ->
  (forall readable writable tested fds accs, wait_ok readable writable s (Events fds accs) ->
     alive s = true -> running_ (server s) || tested = true ->
     server (accept_turn tested (Events fds accs) s) =
       match accs with
       | (tick, sock) :: _ =>
           if decide (server_sock_ (server s) ∈ fds) then accept true tick sock (server s) else server s
       | [] => server s
       end) /\
  (forall sid c readable writable fds accs, objs (server s) !! sid = Some c -> closed_ c = false ->
     writable (sock_ c) = true -> wait_ok readable writable s (Events fds accs) -> fds <> []) /\
  (created = false \/ (exists s0 tested errno, errno <> EINTR /\ alive s0 = true /\
       s = accept_turn tested (WaitErr errno) s0) ->
     forall s', rtc (accept_step host) s s' -> next_session_id_ (server s') = next_session_id_ (server s)) /\
  (forall tested errno, running_ (server (accept_turn tested (WaitErr errno) s)) = running_ (server s)).
Proof.
  intros Hsock Hs.
  assert (forall s1 s2, rtc (accept_step host) s1 s2 -> alive s1 = false ->
    alive s2 = false /\ next_session_id_ (server s2) = next_session_id_ (server s1)) as Hdead.
  { intros s1 s2 H. induction H as [|x y z Hxy _ IH]; intros Hal; [done|].
    destruct (dead_step _ _ _ Hxy Hal) as [Hal' <-]. by apply IH. }
  assert (accept_ok s) as Hok.
  { revert s Hs. apply rtc_ind_r; [|intros y z _ Hyz; by apply (accept_step_ok host)].
    apply (accept_start_ok created sock); [..|done]; unfold start; cbn;
      by rewrite (proj2 (Z.eqb_neq _ _)). }
  split_and!.
  - intros readable writable tested fds accs (Hnd & _ & _ & _ & Hlen & _) Hal Hr.
    rewrite accept_turn_events by done. destruct accs as [|[tick sk] accs]; [done|]. by case_decide.
  - intros sid c readable writable fds accs Hc Ho Hwr (_ & _ & _ & Hne & _). apply Hne.
    exists (sock_ c), true, true. destruct (ao_open _ Hok sid c Hc Ho) as [Hi _].
    by rewrite Hi, Hwr, orb_true_r.
  - intros Hd s' Hs'. apply Hdead; [done|]. destruct Hd as [->|(s0 & tested & errno & He & Hal & ->)].
    + by apply (Hdead _ _ Hs).
    + unfold accept_turn. rewrite Hal. cbn [negb]. case_match; [done|].
      by rewrite (proj2 (Z.eqb_neq _ _)).
  - intros tested errno. unfold accept_turn. by repeat case_match.
Qed.

(** A client connects and does nothing: every wait returns at once, and nothing is done. *)
Example accept_loop_turns_witness :
  let s := accept_turn false (Events [3] [(0, 4)]) (accept_start true (snd (start 3 true (new_server 9000 30000)))) in
  next_session_id_ (server s) = 2 /\
  (forall fds accs, wait_ok (fun _ => false) (fun fd => fd =? 4) s (Events fds accs) -> fds <> []) /\
  server (accept_turn false (Events [4] [(1, INVALID_SOCKET)]) s) = server s.
Proof.
  intros s. assert (rtc (accept_step true) (accept_start true (snd (start 3 true (new_server 9000 30000)))) s) as Hs.
  { apply rtc_once, (as_turn _ _ (fun fd => fd =? 3) (fun _ => false)). split_and!; cbn; try done.
    - apply NoDup_singleton.
    - lia.
    - intros fd ->%list_elem_of_singleton. by exists true, false.
    - intros tick sk Hin%list_elem_of_singleton _. by injection Hin as -> ->. }
  destruct (accept_loop_turns true true 3 9000 30000 s ltac:(done) Hs) as (Hturn & Hspin & _).
  split; [reflexivity|]. split.
  - intros fds accs. apply (Hspin 1 (new_conn 0 4 1)); reflexivity.
  - apply (Hturn (fun _ => false) (fun fd => fd =? 4) false [4] [(1, INVALID_SOCKET)]);
      [|reflexivity..]. split_and!; cbn; try done.
    + apply NoDup_singleton.
    + lia.
    + intros fd ->%list_elem_of_singleton. by exists true, true.
    + intros tick sk Hin%list_elem_of_singleton. by injection Hin as -> ->.
Defined.
