(* ===== verification/MessageQueue.v ===== *)
(** * MessageQueue (base/message_queue/message_queue.h, message_queue.cpp)

    The queue of typed messages between threads, as a transition system: each step
    is one critical section of [mtx_] or one [notify_one].  The classes [Message<T>]
    are the pairs of a type index and a value of that type. *)

From S2P Require Import Prelude.

Section queue.

(** The type indices, and the values of each type. *)
Context {Ty : Type} `{EqDecision Ty} (V : Ty -> Type).

Definition Message : Type := {t : Ty & V t}.

(** [std::static_pointer_cast<Message<T>>] after the comparison of the types. *)
Definition typed (t : Ty) (m : Message) : option (V t) :=
  match decide (projT1 m = t) with
  | left e => Some (eq_rect (projT1 m) V (projT2 m) t e)
  | right _ => None
  end.

(** The queue and the condition variable: how many threads sleep in [wait], how many
    were woken and have not yet taken the mutex again, and how many calls of [send]
    have pushed and not yet notified. *)
Record MessageQueue := {
  queue_ : list Message;
  sleeping : nat;
  woken : nat;
  notifying : nat;
}.

Definition MessageQueue0 : MessageQueue :=
  {| queue_ := []; sleeping := 0; woken := 0; notifying := 0 |}.

Definition set_queue (q : list Message) (s : MessageQueue) : MessageQueue :=
  {| queue_ := q; sleeping := sleeping s; woken := woken s; notifying := notifying s |}.

Definition size (s : MessageQueue) : nat := length (queue_ s).
Definition empty (s : MessageQueue) : bool :=
  match queue_ s with [] => true | _ => false end.
Definition clear (s : MessageQueue) : MessageQueue := set_queue [] s.

(** [send]: the push under the mutex, then the notification outside it. *)
Definition send_push (t : Ty) (v : V t) (s : MessageQueue) : MessageQueue :=
  {| queue_ := queue_ s ++ [existT t v]; sleeping := sleeping s; woken := woken s;
     notifying := S (notifying s) |}.
Definition notify_one (s : MessageQueue) : MessageQueue :=
  match notifying s, sleeping s with
  | S n, S k => {| queue_ := queue_ s; sleeping := k; woken := S (woken s); notifying := n |}
  | S n, O => {| queue_ := queue_ s; sleeping := 0; woken := woken s; notifying := n |}
  | O, _ => s
  end.

(** What a call of [recv] or [try_recv] has come to: it sleeps; it returned false
    without a message; it popped a message, and returns it or, when its type is
    another one, false. *)
Inductive recv_state (t : Ty) :=
| Sleeps
| NoMessage
| Popped (m : Message) (out : option (V t)).
#[global] Arguments Sleeps {t}.
#[global] Arguments NoMessage {t}.
#[global] Arguments Popped {t} m out.

(** [front] and [pop], then the comparison of the types. *)
Definition pop (t : Ty) (s : MessageQueue) : option (recv_state t * MessageQueue) :=
  match queue_ s with
  | [] => None
  | m :: q => Some (Popped m (typed t m), set_queue q s)
  end.

Definition try_recv (t : Ty) (s : MessageQueue) : recv_state t * MessageQueue :=
  default (NoMessage, s) (pop t s).

Definition sleep (s : MessageQueue) : MessageQueue :=
  {| queue_ := queue_ s; sleeping := S (sleeping s); woken := woken s;
     notifying := notifying s |}.

(** [recv] up to its first test of the predicate; with a timeout that is already
    over, [wait_for] returns the predicate at once. *)
Definition recv (t : Ty) (timeout_ms : Z) (s : MessageQueue) : recv_state t * MessageQueue :=
  match pop t s with
  | Some r => r
  | None => if (timeout_ms =? 0)%Z then (NoMessage, s) else (Sleeps, sleep s)
  end.

(** A sleeping call that was woken tests the predicate again. *)
Definition recv_woken (t : Ty) (s : MessageQueue) : recv_state t * MessageQueue :=
  match woken s with
  | O => (Sleeps, s)
  | S w =>
      let s1 := {| queue_ := queue_ s; sleeping := sleeping s; woken := w;
                   notifying := notifying s |} in
      default (Sleeps, sleep s1) (pop t s1)
  end.

(** The time of a sleeping [wait_for] is over: it returns what the predicate says. *)
Definition recv_timeout (t : Ty) (s : MessageQueue) : recv_state t * MessageQueue :=
  match sleeping s with
  | O => (Sleeps, s)
  | S k =>
      let s1 := {| queue_ := queue_ s; sleeping := k; woken := woken s;
                   notifying := notifying s |} in
      default (NoMessage, s1) (pop t s1)
  end.

(** ** Steps *)

Inductive queue_op :=
| Push (t : Ty) (v : V t)
| Notify
| TryRecv (t : Ty)
| Recv (t : Ty) (timeout_ms : Z)
| Woken (t : Ty)
| TimedOut (t : Ty)
| Clear.

(** What the threads have seen so far: the messages sent, those taken out of the
    queue (by a pop or by [clear]), and the pops with what their callers got. *)
Record history := {
  sent : list Message;
  taken : list Message;
  pops : list (Message * bool);
}.
Definition history0 : history := {| sent := []; taken := []; pops := [] |}.

Definition record {t} (r : recv_state t) (h : history) : history :=
  match r with
  | Popped m out =>
      {| sent := sent h; taken := taken h ++ [m];
         pops := pops h ++ [(m, match out with Some _ => true | None => false end)] |}
  | _ => h
  end.

Definition run_op (o : queue_op) (x : MessageQueue * history) : MessageQueue * history :=
  let '(s, h) := x in
  match o with
  | Push t v =>
      (send_push t v s, {| sent := sent h ++ [existT t v]; taken := taken h; pops := pops h |})
  | Notify => (notify_one s, h)
  | TryRecv t => let '(r, s') := try_recv t s in (s', record r h)
  | Recv t ms => let '(r, s') := recv t ms s in (s', record r h)
  | Woken t => let '(r, s') := recv_woken t s in (s', record r h)
  | TimedOut t => let '(r, s') := recv_timeout t s in (s', record r h)
  | Clear => (clear s, {| sent := sent h; taken := taken h ++ queue_ s; pops := pops h |})
  end.

Definition run (ops : list queue_op) : MessageQueue * history :=
  foldl (fun x o => run_op o x) (MessageQueue0, history0) ops.

(** The type a step of a receiver asks for. *)
Definition asks (o : queue_op) : option Ty :=
  match o with
  | TryRecv t | Recv t _ | Woken t | TimedOut t => Some t
  | _ => None
  end.

(** ** Invariants *)

(** First in, first out, and every message is sent, taken or queued once. *)
Definition fifo (x : MessageQueue * history) : Prop :=
  sent (snd x) = taken (snd x) ++ queue_ (fst x).

(** No receiver sleeps beside a message that nobody is on the way to take. *)
Definition attended (s : MessageQueue) : Prop :=
  sleeping s = 0 \/ length (queue_ s) <= woken s + notifying s.

Lemma pop_spec t s :
  match pop t s with
  | None => queue_ s = []
  | Some (r, s') => exists m q, queue_ s = m :: q /\ r = Popped m (typed t m) /\ s' = set_queue q s
  end.
Proof. unfold pop. destruct (queue_ s) as [|m q] eqn:E; [done|]. by exists m, q. Qed.

(** What a step of a receiver does: nothing to the queue, or one pop. *)
Lemma record_fifo t (r : recv_state t) s s' h :
  (match r with
   | Popped m _ => queue_ s = m :: queue_ s'
   | _ => queue_ s' = queue_ s
   end) -> fifo (s, h) -> fifo (s', record r h).
Proof.
  unfold fifo. destruct r as [| |m out]; simpl; [by intros ->..|].
  intros E ->. by rewrite E, <-app_assoc.
Qed.

Ltac step_pop :=
  match goal with
  | |- context [pop ?t ?s] =>
      let H := fresh "Hpop" in
      pose proof (pop_spec t s) as H;
      destruct (pop t s) as [[? ?]|];
      [destruct H as (? & ? & ? & -> & ->)|]
  end.

Ltac try_fifo := first [by apply record_fifo|let H := fresh in intros H; exact H].

Lemma run_op_fifo o x : fifo x -> fifo (run_op o x).
Proof.
  destruct x as [s h]. destruct o as [t v| |t|t ms|t|t|]; simpl.
  - unfold fifo; simpl. intros ->. by rewrite <-app_assoc.
  - unfold fifo, notify_one; simpl. by repeat case_match.
  - unfold try_recv. step_pop; try_fifo.
  - unfold recv. step_pop; [try_fifo|]. destruct (ms =? 0)%Z; try_fifo.
  - unfold recv_woken. destruct (woken s) as [|w]; [try_fifo|]. step_pop; try_fifo.
  - unfold recv_timeout. destruct (sleeping s) as [|k]; [try_fifo|]. step_pop; try_fifo.
  - unfold fifo; simpl. intros ->. by rewrite app_nil_r.
Qed.

Lemma run_op_attended o x : attended (fst x) -> attended (fst (run_op o x)).
Proof.
  destruct x as [s h]. unfold attended. destruct o as [t v| |t|t ms|t|t|]; simpl.
  - rewrite length_app. simpl. lia.
  - unfold notify_one. repeat case_match; simpl; lia.
  - unfold try_recv. step_pop; simpl; [|done].
    match goal with E : queue_ s = _ |- _ => rewrite E end. simpl. lia.
  - unfold recv. step_pop; simpl.
    + match goal with E : queue_ s = _ |- _ => rewrite E end. simpl. lia.
    + rewrite Hpop. destruct (ms =? 0)%Z; simpl; rewrite ?Hpop; simpl; lia.
  - unfold recv_woken. destruct (woken s) as [|w] eqn:Ew; [simpl; lia|]. step_pop; simpl in *.
    + match goal with E : queue_ s = _ |- _ => rewrite E end. simpl. lia.
    + rewrite Hpop. simpl. lia.
  - unfold recv_timeout. destruct (sleeping s) as [|k] eqn:Ek; [simpl; lia|]. step_pop; simpl in *.
    + match goal with E : queue_ s = _ |- _ => rewrite E end. simpl. lia.
    + rewrite Hpop. simpl. lia.
  - lia.
Qed.

(** A step adds at most one pop, of a message it takes. *)
Definition step_adds (o : queue_op) (h h' : history) : Prop :=
  exists new m, taken h' = taken h ++ new /\
    ((o = Clear \/ new = []) /\ pops h' = pops h \/
     new = [m] /\ exists t, asks o = Some t /\
       pops h' = pops h ++ [(m, bool_decide (projT1 m = t))]).

Lemma typed_spec t m :
  match typed t m with Some _ => true | None => false end = bool_decide (projT1 m = t).
Proof.
  unfold typed. destruct (decide _); [by rewrite bool_decide_true|by rewrite bool_decide_false].
Qed.

Lemma record_adds o t (r : recv_state t) h :
  (match r with Popped m out => out = typed t m | _ => True end) ->
  asks o = Some t -> inhabited Message -> step_adds o h (record r h).
Proof.
  intros Hr Ho [m0]. destruct r as [| |m out].
  - exists [], m0. rewrite app_nil_r. auto.
  - exists [], m0. rewrite app_nil_r. auto.
  - exists [m], m. split; [done|]. right. split; [done|]. exists t. split; [done|].
    simpl. by rewrite Hr, typed_spec.
Qed.

Lemma run_op_adds o s h :
  inhabited Message -> step_adds o h (snd (run_op o (s, h))).
Proof.
  intros Hin. assert (forall t (r : recv_state t),
    (match r with Popped m out => out = typed t m | _ => True end) ->
    asks o = Some t -> step_adds o h (record r h)) as Hadd.
  { intros t r Hr Ho. by apply (record_adds o t). }
  destruct Hin as [m0]. destruct o as [t v| |t|t ms|t|t|]; simpl.
  - exists [], m0. rewrite app_nil_r. auto.
  - exists [], m0. rewrite app_nil_r. auto.
  - unfold try_recv. step_pop; by apply Hadd.
  - unfold recv. step_pop; [by apply Hadd|]. destruct (ms =? 0)%Z; by apply Hadd.
  - unfold recv_woken. destruct (woken s) as [|w]; [by apply Hadd|]. step_pop; by apply Hadd.
  - unfold recv_timeout. destruct (sleeping s) as [|k]; [by apply Hadd|]. step_pop; by apply Hadd.
  - exists (queue_ s), m0. simpl. auto.
Qed.

Lemma run_snoc ops o : run (ops ++ [o]) = run_op o (run ops).
Proof. unfold run. by rewrite foldl_app. Qed.

Lemma run_fifo ops : fifo (run ops).
Proof.
  induction ops as [|o ops IH] using rev_ind; [done|]. rewrite run_snoc. by apply run_op_fifo.
Qed.

Lemma run_attended ops : attended (fst (run ops)).
Proof.
  induction ops as [|o ops IH] using rev_ind; [by left|]. rewrite run_snoc. by apply run_op_attended.
Qed.

(** Every pop is the answer to a call for some type. *)
Definition answered (ops : list queue_op) (p : Message * bool) : Prop :=
  exists o t, o ∈ ops /\ asks o = Some t /\ snd p = bool_decide (projT1 (fst p) = t).

Lemma run_pops ops :
  inhabited Message ->
  let h := snd (run ops) in
  Forall (answered ops) (pops h) /\ (fst <$> pops h) `sublist_of` taken h /\
  (Clear ∉ ops -> taken h = fst <$> pops h).
Proof.
  intros Hin. induction ops as [|o ops IH] using rev_ind.
  { split_and!; [constructor|constructor|done]. }
  rewrite run_snoc. destruct (run ops) as [s h]. simpl in IH. destruct IH as (Ha & Hs & Hc).
  assert (Forall (answered (ops ++ [o])) (pops h)) as Ha'.
  { eapply Forall_impl; [exact Ha|]. intros p (o' & t & ? & ?). exists o', t.
    split; [|done]. apply elem_of_app. by left. }
  destruct (run_op_adds o s h Hin) as (new & m & E & [[Hnew Ep]|(-> & t & Ho & Ep)]);
    cbn zeta; rewrite E, Ep.
  - split_and!; [done|by apply sublist_inserts_r|]. intros Hn.
    destruct Hnew as [->| ->]; [exfalso; apply Hn, elem_of_app; right; left|].
    rewrite app_nil_r. apply Hc. intros ?. apply Hn, elem_of_app. by left.
  - split_and!.
    + apply Forall_app. split; [done|]. constructor; [|constructor]. exists o, t.
      split; [apply elem_of_app; right; left|done].
    + rewrite fmap_app. by apply sublist_app.
    + intros Hn. rewrite fmap_app, <-Hc; [done|]. intros ?. apply Hn, elem_of_app. by left.
Qed.

(** C27: Whatever the producers and consumers do, the messages leave the queue in the
    order they were sent, each once; a pop returns its message exactly when the type
    asked for is the type of the message, and otherwise the message is lost; without
    [clear] nothing else leaves the queue; and no receiver sleeps beside a queued
    message unless a wake-up for it is under way. *)
Theorem message_queue_delivery ops :
  let '(s, h) := run ops in
  sent h = taken h ++ queue_ s /\
  (fst <$> pops h) `sublist_of` taken h /\ (Clear ∉ ops -> taken h = fst <$> pops h) /\
  (forall m ok, (m, ok) ∈ pops h ->
     exists o t, o ∈ ops /\ asks o = Some t /\ ok = bool_decide (projT1 m = t)) /\
  (sleeping s = 0 \/ length (queue_ s) <= woken s + notifying s).
Proof.
  pose proof (run_fifo ops) as Hf. pose proof (run_attended ops) as Hat.
  pose proof (run_pops ops) as Hp. destruct (run ops) as [s h]. unfold fifo in Hf. simpl in *.
  split; [done|]. split_and!; [| | |done].
  - destruct (pops h) as [|[m ok] ps] eqn:E; [apply sublist_nil_l|]. apply Hp. exact (inhabits m).
  - intros Hn. destruct (taken h) as [|m ms] eqn:E.
    + destruct (pops h) as [|[m ok] ps] eqn:E'; [done|]. by apply Hp.
    + rewrite <-E. rewrite <-E in Hp. by apply (Hp (inhabits m)).
  - intros m ok Hm. destruct (Hp (inhabits m)) as [Ha _].
    rewrite Forall_forall in Ha. by apply (Ha (m, ok)).
Qed.
End queue.

(** ** Instances *)

(** Numbers and flags; a flag is asked for where a number is queued. *)
Definition mixed (b : bool) : Type := if b then bool else Z.

Example message_queue_mixed :
  run mixed [Recv mixed false (-1); Push mixed false 5%Z; Notify mixed;
       Push mixed true true; Woken mixed true; Notify mixed; TryRecv mixed true] =
  ({| queue_ := []; sleeping := 0; woken := 0; notifying := 0 |},
   {| sent := [existT false 5%Z; existT true true]; taken := [existT false 5%Z; existT true true];
      pops := [(existT false 5%Z, false); (existT true true, true)] |}).
Proof. reflexivity. Qed.
