(* ===== verification/SubscribeHub.v ===== *)
(** * SubscribeHub (base/message_queue/message_queue.h)

    The subscriptions of callbacks to types of messages.  As it stands the class does not
    compile when it is used: [AnyCallback] is filled from a pair and read through
    [first] and [second]; it is read as the pair of its members [id] and [fn].
    [subscribe] takes its number before the lock and stores the callback under it, so
    the calls of several threads can interleave in between; that the counter is not
    atomic is not modelled. *)

From S2P Require Import Prelude.

Open Scope Z_scope.

Section hub.
(** The type indices and the callables, which take any value of their type; the wrapper
    made by [subscribe] swallows what they throw. *)
Context {Ty : Type} `{Countable Ty} {CB : Type}.

Record SubscribeHub := {
  callbacks_ : gmap Ty (list (Z * CB));
  next_sub_id_ : Z;
  subscribing : gmap nat (Ty * Z * CB);
}.

Definition SubscribeHub0 : SubscribeHub :=
  {| callbacks_ := ∅; next_sub_id_ := 1; subscribing := ∅ |}.

(** A call of [subscribe], named [k], takes its number; then it stores the callback. *)
Definition subscribe_begin (k : nat) (t : Ty) (cb : CB) (s : SubscribeHub) : SubscribeHub :=
  match subscribing s !! k with
  | Some _ => s
  | None =>
      {| callbacks_ := callbacks_ s; next_sub_id_ := next_sub_id_ s + 1;
         subscribing := <[k := (t, next_sub_id_ s, cb)]> (subscribing s) |}
  end.
Definition subscribe_push (k : nat) (s : SubscribeHub) : option (Ty * Z * CB) * SubscribeHub :=
  match subscribing s !! k with
  | None => (None, s)
  | Some (t, id, cb) =>
      (Some (t, id, cb),
       {| callbacks_ := <[t := default [] (callbacks_ s !! t) ++ [(id, cb)]]> (callbacks_ s);
          next_sub_id_ := next_sub_id_ s; subscribing := delete k (subscribing s) |})
  end.

(** The first entry with the number is erased. *)
Fixpoint erase (sub_id : Z) (vec : list (Z * CB)) : option (list (Z * CB)) :=
  match vec with
  | [] => None
  | p :: vec' => if decide (p.1 = sub_id) then Some vec' else cons p <$> erase sub_id vec'
  end.

Definition unsubscribe (t : Ty) (sub_id : Z) (s : SubscribeHub) : bool * SubscribeHub :=
  match callbacks_ s !! t ≫= erase sub_id with
  | None => (false, s)
  | Some vec =>
      (true, {| callbacks_ := <[t := vec]> (callbacks_ s); next_sub_id_ := next_sub_id_ s;
                subscribing := subscribing s |})
  end.

(** [publish] calls the subscribers of the type while it holds the mutex; a callback that
    uses the hub locks it a second time, and the call hangs.  The callbacks called, and
    whether the call returns. *)
Variable uses_hub : CB -> bool.

Fixpoint call_all (vec : list (Z * CB)) : list CB * bool :=
  match vec with
  | [] => ([], true)
  | p :: vec' =>
      if uses_hub p.2 then ([p.2], false)
      else let '(cs, ok) := call_all vec' in (p.2 :: cs, ok)
  end.
Definition publish (t : Ty) (s : SubscribeHub) : list CB * bool :=
  match callbacks_ s !! t with None => ([], true) | Some vec => call_all vec end.

(** ** Sequences of steps, with a log of what took effect *)

Inductive hub_op :=
| SubscribeBegin (k : nat) (t : Ty) (cb : CB)
| SubscribePush (k : nat)
| Unsubscribe (t : Ty) (sub_id : Z).

Inductive hub_event :=
| Subscribed (t : Ty) (id : Z) (cb : CB)
| Unsubscribed (t : Ty) (sub_id : Z).

Definition run_hub_op (o : hub_op) (x : SubscribeHub * list hub_event)
    : SubscribeHub * list hub_event :=
  let '(s, log) := x in
  match o with
  | SubscribeBegin k t cb => (subscribe_begin k t cb s, log)
  | SubscribePush k =>
      match subscribe_push k s with
      | (Some (t, id, cb), s') => (s', log ++ [Subscribed t id cb])
      | (None, s') => (s', log)
      end
  | Unsubscribe t i => (snd (unsubscribe t i s), log ++ [Unsubscribed t i])
  end.

Definition run_hub (os : list hub_op) : SubscribeHub * list hub_event :=
  foldl (fun x o => run_hub_op o x) (SubscribeHub0, []) os.

(** ** Specification: a subscriber is one whose number was not given back later *)

Definition gives_back (t : Ty) (id : Z) (e : hub_event) : bool :=
  match e with
  | Unsubscribed t' i => bool_decide (t' = t) && bool_decide (i = id)
  | _ => false
  end.

Fixpoint subscribers (t : Ty) (log : list hub_event) : list (Z * CB) :=
  match log with
  | [] => []
  | Subscribed t' id cb :: log' =>
      if bool_decide (t' = t) && negb (existsb (gives_back t id) log')
      then (id, cb) :: subscribers t log' else subscribers t log'
  | _ :: log' => subscribers t log'
  end.

Fixpoint numbers (log : list hub_event) : list Z :=
  match log with
  | [] => []
  | Subscribed _ id _ :: log' => id :: numbers log'
  | _ :: log' => numbers log'
  end.
End hub.

Arguments SubscribeHub Ty {_ _} CB.
Arguments hub_op : clear implicits.
Arguments hub_event : clear implicits.

Section hub_lemmas.
Context {Ty : Type} `{Countable Ty} {CB : Type}.
Implicit Types (log : list (hub_event Ty CB)) (s : SubscribeHub Ty CB).

Lemma subscribers_subscribed t log t' id cb :
  subscribers t (log ++ [Subscribed t' id cb]) =
  subscribers t log ++ (if decide (t' = t) then [(id, cb)] else []).
Proof.
  induction log as [|[t1 id1 cb1|t1 i1] log IH]; cbn [app subscribers existsb].
  - cbn [negb]. rewrite andb_true_r. by case_bool_decide; case_decide.
  - rewrite existsb_app, IH. cbn [existsb gives_back]. rewrite !orb_false_r. by destruct (_ && _).
  - exact IH.
Qed.

Lemma subscribers_unsubscribed t log t' i :
  subscribers t (log ++ [Unsubscribed t' i]) =
  if decide (t' = t) then filter (fun p => p.1 <> i) (subscribers t log) else subscribers t log.
Proof.
  induction log as [|[t1 id1 cb1|t1 i1] log IH]; cbn [app subscribers].
  - by destruct (decide (t' = t)).
  - rewrite existsb_app, IH. cbn [existsb gives_back]. rewrite orb_false_r, negb_orb.
    case_decide as Ht; [subst t'|].
    + rewrite (bool_decide_true (t = t)), andb_true_l, andb_assoc by done.
      destruct (bool_decide (t1 = t) && _); [|done]. rewrite andb_true_l.
      destruct (decide (i = id1)) as [->|Hi].
      * rewrite bool_decide_true by done. cbn [negb]. by rewrite filter_cons_False by auto.
      * rewrite bool_decide_false by done. cbn [negb]. by rewrite filter_cons_True by (cbn; congruence).
    + rewrite (bool_decide_false (t' = t)), andb_false_l by done. cbn [negb]. by rewrite andb_true_r.
  - exact IH.
Qed.

Lemma subscribers_numbers t log : sublist (subscribers t log).*1 (numbers log).
Proof.
  induction log as [|[t1 id1 cb1|t1 i1] log IH]; cbn [subscribers numbers]; [done| |done].
  destruct (_ && _); cbn; by constructor.
Qed.

Lemma erase_spec i (vec : list (Z * CB)) :
  NoDup vec.*1 ->
  erase i vec = if decide (i ∈ vec.*1) then Some (filter (fun p => p.1 <> i) vec) else None.
Proof.
  induction vec as [|[j cb] vec IH]; csimpl; [done|].
  intros [Hj Hd]%NoDup_cons. destruct (decide (j = i)) as [->|Hne].
  - rewrite decide_True by left. rewrite filter_cons_False by auto. f_equal. symmetry.
    apply filter_all, list.Forall_forall. intros [k c] Hk Hi. cbn in Hi. subst k. apply Hj.
    apply list_elem_of_fmap. by exists (i, c).
  - rewrite IH, filter_cons_True by done. destruct (decide (i ∈ vec.*1)) as [Hin|Hin].
    + by rewrite decide_True by by right.
    + rewrite decide_False; [done|]. intros [->|?]%elem_of_cons; done.
Qed.

(** ** The table is the log's list of subscribers *)

Record hub_wf s log : Prop := {
  hub_table : forall t, default [] (callbacks_ s !! t) = subscribers t log;
  hub_numbers : NoDup (numbers log);
  hub_issued : forall id, id ∈ numbers log -> id < next_sub_id_ s;
  hub_pending : forall k t id cb, subscribing s !! k = Some (t, id, cb) ->
    id < next_sub_id_ s /\ ~ id ∈ numbers log /\
    forall k' t' cb', subscribing s !! k' = Some (t', id, cb') -> k' = k;
}.

Lemma numbers_subscribed log t id cb : numbers (log ++ [Subscribed t id cb]) = numbers log ++ [id].
Proof. induction log as [|[]]; cbn; [done|by f_equal|done]. Qed.
Lemma numbers_unsubscribed log t i : numbers (log ++ [Unsubscribed t i]) = numbers log.
Proof. induction log as [|[]]; cbn; [done|by f_equal|done]. Qed.

Lemma subscribe_begin_wf k t cb s log : hub_wf s log -> hub_wf (subscribe_begin k t cb s) log.
Proof.
  intros [H1 H2 H3 H4]. unfold subscribe_begin. destruct (subscribing s !! k) as [p|] eqn:E; [done|].
  split; cbn; try done.
  - intros id Hid. specialize (H3 id Hid). lia.
  - intros k' t' id cb'. destruct (decide (k' = k)) as [->|Hk].
    + rewrite lookup_insert_eq. intros [= <- <- <-]. split_and!; [lia|intros Hin; specialize (H3 _ Hin); lia|].
      intros k2 t2 cb2. destruct (decide (k2 = k)) as [->|]; [done|]. rewrite lookup_insert_ne by done.
      intros Hk2. destruct (H4 _ _ _ _ Hk2) as [? _]. lia.
    + rewrite lookup_insert_ne by done. intros Hk'. destruct (H4 _ _ _ _ Hk') as (Hlt & Hn & Hu).
      split_and!; [lia|done|]. intros k2 t2 cb2. destruct (decide (k2 = k)) as [->|].
      * rewrite lookup_insert_eq. intros [= _ <- _]. lia.
      * rewrite lookup_insert_ne by done. apply Hu.
Qed.

Lemma subscribe_push_wf k s log t id cb s' :
  hub_wf s log -> subscribe_push k s = (Some (t, id, cb), s') ->
  hub_wf s' (log ++ [Subscribed t id cb]).
Proof.
  intros [H1 H2 H3 H4]. unfold subscribe_push.
  destruct (subscribing s !! k) as [[[t1 id1] cb1]|] eqn:E; [|done]. intros [= -> -> -> <-].
  destruct (H4 _ _ _ _ E) as (Hlt & Hn & Hu).
  split; cbn.
  - intros t'. rewrite subscribers_subscribed, <-H1. destruct (decide (t = t')) as [->|].
    + by rewrite lookup_insert_eq.
    + by rewrite lookup_insert_ne, app_nil_r.
  - rewrite numbers_subscribed. apply NoDup_app. split_and!; [done| |apply NoDup_singleton].
    by intros x Hx ->%list_elem_of_singleton.
  - intros x. rewrite numbers_subscribed, elem_of_app, list_elem_of_singleton.
    intros [?| ->]; [by apply H3|done].
  - intros k' t' id' cb'. rewrite lookup_delete_Some. intros [Hne Hk'].
    destruct (H4 _ _ _ _ Hk') as (Hlt' & Hn' & Hu'). split_and!; [done| |].
    + rewrite numbers_subscribed, elem_of_app, list_elem_of_singleton. intros [?| ->]; [done|].
      apply Hne. symmetry. by eapply Hu.
    + intros k2 t2 cb2. rewrite lookup_delete_Some. intros [_ ?]. by eapply Hu'.
Qed.

Lemma unsubscribe_wf t i s log :
  hub_wf s log -> hub_wf (snd (unsubscribe t i s)) (log ++ [Unsubscribed t i]) /\
  fst (unsubscribe t i s) = bool_decide (i ∈ (subscribers t log).*1).
Proof.
  intros [H1 H2 H3 H4].
  assert (NoDup (subscribers t log).*1) as Hd by (eapply sublist_NoDup; [done|apply subscribers_numbers]).
  assert (callbacks_ s !! t ≫= erase i = erase i (subscribers t log)) as E.
  { rewrite <-H1. by destruct (callbacks_ s !! t). }
  unfold unsubscribe. rewrite E, erase_spec by done.
  split; [|by destruct (decide (i ∈ (subscribers t log).*1)); [rewrite bool_decide_true|rewrite bool_decide_false]].
  destruct (decide (i ∈ (subscribers t log).*1)) as [Hin|Hin]; split; cbn;
    rewrite ?numbers_unsubscribed; try done; intros t'; rewrite subscribers_unsubscribed.
  - destruct (decide (t = t')) as [->|]; [by rewrite lookup_insert_eq|by rewrite lookup_insert_ne].
  - rewrite H1. destruct (decide (t = t')) as [->|]; [|done]. symmetry. apply filter_all, list.Forall_forall.
    intros p Hp Hi. apply Hin. apply list_elem_of_fmap. by exists p.
Qed.

Lemma run_hub_wf (os : list (hub_op Ty CB)) : let '(s, log) := run_hub os in hub_wf s log.
Proof.
  unfold run_hub.
  assert (hub_wf (SubscribeHub0 (Ty:=Ty) (CB:=CB)) []) as Hw.
  { split; cbn; [|constructor| |]; intros *; [by rewrite lookup_empty| |by rewrite lookup_empty].
    by intros ?%elem_of_nil. }
  revert Hw. generalize (@nil (hub_event Ty CB)) as log. generalize (SubscribeHub0 (Ty:=Ty) (CB:=CB)) as s.
  induction os as [|o os IH]; intros s log Hw; cbn [foldl]; [done|].
  destruct o as [k t cb|k|t i]; cbn [run_hub_op].
  - by apply IH, subscribe_begin_wf.
  - destruct (subscribe_push k s) as [[[[t id] cb]|] s1] eqn:E; apply IH.
    + by eapply subscribe_push_wf.
    + unfold subscribe_push in E. by destruct (subscribing s !! k) as [[[]]|]; simplify_eq.
  - by apply IH, unsubscribe_wf.
Qed.
End hub_lemmas.

(** Whatever the threads do, [publish] calls exactly the callbacks subscribed to the
    type of the message and not unsubscribed since, each once, in the order in which they
    were stored, whatever they throw; it hangs at the first one that uses the hub.  No
    number is given twice, and [unsubscribe] returns true exactly for the number of a
    present subscriber of that type. *)
Theorem hub_publish {Ty} `{Countable Ty} {CB} (uses_hub : CB -> bool) (os : list (hub_op Ty CB)) :
  let '(s, log) := run_hub os in
  NoDup (numbers log) /\
  forall t,
    (forall i, fst (unsubscribe t i s) = bool_decide (i ∈ (subscribers t log).*1)) /\
    (Forall (fun p => uses_hub p.2 = false) (subscribers t log) ->
       publish uses_hub t s = ((subscribers t log).*2, true)) /\
    (forall pre id cb rest, subscribers t log = pre ++ (id, cb) :: rest ->
       Forall (fun p => uses_hub p.2 = false) pre -> uses_hub cb = true ->
       publish uses_hub t s = (pre.*2 ++ [cb], false)).
Proof.
  pose proof (run_hub_wf os) as Hw. destruct (run_hub os) as [s log].
  split; [apply Hw|]. intros t.
  assert (publish uses_hub t s = call_all uses_hub (subscribers t log)) as ->.
  { unfold publish. rewrite <-(hub_table _ _ Hw t). by destruct (callbacks_ s !! t). }
  split_and!.
  - intros i. by apply (unsubscribe_wf t i s log).
  - induction 1 as [|p vec Hp _ IH]; [done|]. cbn [call_all]. by rewrite Hp, IH.
  - intros pre id cb rest -> Hpre Hcb. induction Hpre as [|p pre Hp _ IH]; cbn [app call_all].
    + cbn. by rewrite Hcb.
    + by rewrite Hp, IH.
Qed.
