(* ===== verification/Router.v ===== *)
(** * Router (business/router/router.h, router.cpp)

    The table from command words to handlers, and what becomes of the packets a
    connection's reader delivers when they are routed. *)

From S2P Require Import Prelude ByteOrder Packet TcpConnection.

Open Scope Z_scope.

Section router.

(** The callables of the program; a [std::function] may also be empty. *)
Context {F : Type}.
Definition Handler : Type := option F.

Record Router := { handlers_ : gmap Z Handler }.
Definition Router0 : Router := {| handlers_ := ∅ |}.

Definition reg (cmd : Z) (h : Handler) (s : Router) : Router :=
  {| handlers_ := <[cmd := h]> (handlers_ s) |}.
Definition unreg (cmd : Z) (s : Router) : Router :=
  {| handlers_ := delete cmd (handlers_ s) |}.
Definition has (cmd : Z) (s : Router) : bool := bool_decide (is_Some (handlers_ s !! cmd)).

(** The call a routed packet leads to: the callable with its arguments.  An empty
    [std::function] throws [bad_function_call]. *)
Definition route (sid : Z) (pkt : Packet) (s : Router) : outcome (option (F * Z * list byte)) :=
  match handlers_ s !! Packet.cmd pkt with
  | Some (Some f) => Ret (Some (f, sid, Packet.data pkt))
  | Some None => Throw
  | None => Ret None
  end.

(** The calls made while packets are routed one after another: an exception leaves
    the loop. *)
Fixpoint route_all (sid : Z) (ps : list Packet) (s : Router) : outcome (list (F * Z * list byte)) :=
  match ps with
  | [] => Ret []
  | p :: ps' =>
      c ← route sid p s;
      cs ← route_all sid ps' s;
      Ret (option_list c ++ cs)
  end.

Inductive router_op :=
| Reg (cmd : Z) (h : Handler)
| Unreg (cmd : Z).

Definition run_router_op (o : router_op) (s : Router) : Router :=
  match o with
  | Reg c h => reg c h s
  | Unreg c => unreg c s
  end.
Definition run_router (ops : list router_op) : Router := foldr run_router_op Router0 ops.

(** ** Specification: the last operation on a command decides

    The operations are listed with the last one first. *)

Fixpoint registered (ops : list router_op) (c : Z) : option Handler :=
  match ops with
  | [] => None
  | Reg c' h :: ops' => if decide (c = c') then Some h else registered ops' c
  | Unreg c' :: ops' => if decide (c = c') then None else registered ops' c
  end.

(** The call a packet is due. *)
Definition due (ops : list router_op) (sid : Z) (p : Packet) : option (F * Z * list byte) :=
  match registered ops (Packet.cmd p) with
  | Some (Some f) => Some (f, sid, Packet.data p)
  | _ => None
  end.

Lemma handlers_registered ops c : handlers_ (run_router ops) !! c = registered ops c.
Proof.
  induction ops as [|[c' h|c'] ops IH]; simpl; [apply lookup_empty| |]; case_decide as E; subst.
  - apply lookup_insert_eq.
  - by rewrite lookup_insert_ne.
  - apply lookup_delete_eq.
  - by rewrite lookup_delete_ne.
Qed.

Lemma route_due ops sid p :
  registered ops (Packet.cmd p) <> Some None -> route sid p (run_router ops) = Ret (due ops sid p).
Proof.
  unfold route, due. rewrite handlers_registered.
  by destruct (registered ops (Packet.cmd p)) as [[f|]|].
Qed.

Lemma route_all_due ops sid ps :
  Forall (fun p => registered ops (Packet.cmd p) <> Some None) ps ->
  route_all sid ps (run_router ops) = Ret (omap (due ops sid) ps).
Proof.
  induction 1 as [|p ps Hp _ IH]; [done|]. cbn [route_all].
  rewrite route_due, bind_Ret, IH, bind_Ret by done. simpl. by destruct (due ops sid p).
Qed.

(** Up to the first empty handler the calls are made, then the exception leaves. *)
Lemma route_all_throws ops sid ps p ps' :
  Forall (fun p => registered ops (Packet.cmd p) <> Some None) ps ->
  registered ops (Packet.cmd p) = Some None ->
  route_all sid (ps ++ p :: ps') (run_router ops) = Throw.
Proof.
  intros Hps Hp. induction Hps as [|q ps Hq _ IH]; simpl.
  - unfold route. by rewrite handlers_registered, Hp.
  - rewrite route_due by done. rewrite bind_Ret. by rewrite IH.
Qed.

(** From the bytes to the handlers: whatever routes were set before and however
    [recv] cuts the stream of encoded packets, routing what the reader delivers calls,
    in the order of the packets, the handler last set for the command of each, with
    the session and the data sent, and nothing for commands without a handler or
    whose handler was taken away; an empty handler throws at its packet. *)
Theorem router_stream host sid tick sock chunks ps tail ops :
  Forall wf_packet ps -> incomplete tail ->
  concat (snd <$> chunks) = (ps ≫= encode host) ++ tail ->
  exists c, read_loop host (data_events chunks) (new_conn tick sock sid) = Ret (Reading c) /\
    (Forall (fun p => registered ops (Packet.cmd p) <> Some None) ps ->
       route_all (session_id_ c) (messages c) (run_router ops) = Ret (omap (due ops sid) ps)) /\
    (forall ps1 p ps2, ps = ps1 ++ p :: ps2 ->
       Forall (fun p => registered ops (Packet.cmd p) <> Some None) ps1 ->
       registered ops (Packet.cmd p) = Some None ->
       route_all (session_id_ c) (messages c) (run_router ops) = Throw) /\
    forall cmd, has cmd (run_router ops) = bool_decide (is_Some (registered ops cmd)).
Proof.
  intros Hps Ht E. rewrite stream_encode in E by done.
  destruct (read_loop_stream host chunks ps tail (new_conn tick sock sid)) as [tick' ->];
    [done| |done..|].
  { split; [by vm_compute|]. left. by vm_compute. }
  eexists. split; [done|]. simpl. split_and!.
  - apply route_all_due.
  - intros ps1 p ps2 ->. apply route_all_throws.
  - intros cmd. unfold has. by rewrite handlers_registered.
Qed.
End router.

(** A handler named 1 for CMD_DATA, set after one named 2. *)
Lemma router_stream_witness :
  exists c, read_loop true (data_events [(5, wire hello ++ [x00])]) (new_conn 0 9 1) = Ret (Reading c) /\
    route_all 1 (messages c) (run_router [Reg CMD_DATA (Some 1); Reg CMD_DATA (Some 2)]) =
      Ret [(1, 1, [x68; x69])].
Proof.
  destruct (router_stream true 1 0 9 [(5, wire hello ++ [x00])] [hello] [x00]
    [Reg CMD_DATA (Some 1); Reg CMD_DATA (Some 2)]) as (c & Hc & H & _).
  - constructor; [by_compute|constructor].
  - split; [by vm_compute|left; by vm_compute].
  - vm_compute; reflexivity.
  - exists c. split; [exact Hc|]. vm_compute in Hc. injection Hc as <-. apply H.
    constructor; [done|constructor].
Defined.
