(* ===== verification/RouterLock.v ===== *)
(** * The router and its mutex (business/router/router.cpp)

    The operations of [Router] as code under [mutex_], with handlers that are code of the
    program: [route] calls them while it holds the mutex. *)

From S2P Require Import Prelude Packet TcpConnection Router Lock.

Section router_lock.
Context {F : Type}.

(** A step is one on the table, or any other work, of which the router knows nothing. *)
Definition table_step (o : option (@router_op F)) (s : @Router F) : @Router F :=
  match o with Some o => run_router_op o s | None => s end.
Definition code_of_router : Type := @stmt (@Router F) (option (@router_op F)).
Definition work : code_of_router := Do None.

(** The handlers: what the callable named [f] does with a session and the data. *)
Context (body : F -> Z -> list byte -> list code_of_router).

(** [mutex_]. *)
Definition mutex_ : nat := 0.

Definition reg_code (c : Z) (h : Handler) : code_of_router :=
  Guard mutex_ [Do (Some (Reg c h))].
Definition unreg_code (c : Z) : code_of_router := Guard mutex_ [Do (Some (Unreg c))].
(** [has] only looks. *)
Definition has_code : code_of_router := Guard mutex_ [].

(** The call a packet leads to, as [Router.route] finds it. *)
Definition handler_code (sid : Z) (p : Packet) (s : @Router F) : list code_of_router :=
  match route sid p s with
  | Ret (Some (f, sid, d)) => body f sid d
  | Ret None => []
  | _ => [Raise]
  end.
Definition route_code (sid : Z) (p : Packet) : code_of_router :=
  Guard mutex_ [Call (handler_code sid p)].

(** An operation of the router. *)
Definition uses_router (x : code_of_router) : Prop :=
  exists b, x = Guard mutex_ b.

Lemma handler_code_found sid p s f :
  handlers_ s !! cmd p = Some (Some f) -> handler_code sid p s = body f sid (data p).
Proof. intros Hf. unfold handler_code, route. by rewrite Hf. Qed.

Lemma handler_code_empty sid p s :
  handlers_ s !! cmd p = Some None -> handler_code sid p s = [Raise].
Proof. intros Hf. unfold handler_code, route. by rewrite Hf. Qed.

(** C28: [route] and the mutex it holds, in any state the threads can be in when it is called
    and the mutex is free.  A handler that leaves the router alone runs and [route] returns
    with the mutex free; an exception of the handler, or the one of an empty handler, goes on
    to the caller, the mutex free as well.  A handler that uses the router, to register
    another handler or to route another packet, never returns: its thread stays at that call
    with the mutex held, whatever the others do, and so does every other thread at its
    call of the router. *)
Theorem router_reentry s progs w t k sid p :
  lsteps table_step (start s progs) w -> code w !! t = Some (Run (route_code sid p) :: k) ->
  owner w !! mutex_ = None ->
  (forall f n, handlers_ (state w) !! cmd p = Some (Some f) ->
     body f sid (data p) = replicate n work ->
     exists w', rtc (lstep table_step t) w w' /\ code w' !! t = Some k /\
       owner w' !! mutex_ = None /\ state w' = state w) /\
  (forall f n rest, handlers_ (state w) !! cmd p = Some (Some f) /\
       body f sid (data p) = replicate n work ++ Raise :: rest \/
     handlers_ (state w) !! cmd p = Some None ->
     exists w', rtc (lstep table_step t) w w' /\ code w' !! t = Some (Run Raise :: k) /\
       owner w' !! mutex_ = None /\ state w' = state w) /\
  (forall f n o rest, handlers_ (state w) !! cmd p = Some (Some f) -> uses_router o ->
     body f sid (data p) = replicate n work ++ o :: rest ->
     exists w', rtc (lstep table_step t) w w' /\
       forall w'', lsteps table_step w' w'' ->
         code w'' !! t = Some (Run o :: (Run <$> rest) ++ Unlock mutex_ :: k) /\
         owner w'' !! mutex_ = Some t /\
         forall v o' kv, v <> t -> uses_router o' -> code w !! v = Some (Run o' :: kv) ->
           code w'' !! v = Some (Run o' :: kv)).
Proof.
  intros Hs Hk Ho. pose proof (lsteps_exclusive _ _ _ (exclusive_start s progs) Hs) as Hw.
  assert (forall n, replicate n work = Do <$> replicate n None) as Hwork
    by (intros n; by rewrite fmap_replicate).
  assert (forall n s, foldl (fun s o => table_step o s) s (replicate n None) = s) as Hid
    by (induction n; done).
  split_and!.
  - intros f n Hf Hb. rewrite <-(Hid n (state w)). eapply called_returns; [done|done|].
    rewrite (handler_code_found _ _ _ f) by done. by rewrite Hb, Hwork.
  - intros f n rest [[Hf Hb]|Hf].
    + rewrite <-(Hid n (state w)). eapply (called_throws _ _ _ _ _ rest); [done|done|].
      rewrite (handler_code_found _ _ _ f) by done. by rewrite Hb, Hwork.
    + eapply (called_throws _ _ _ _ [] []); [done|done|]. by apply handler_code_empty.
  - intros f n o rest Hf [b ->] Hb.
    destruct (called_again table_step t mutex_ (handler_code sid p) (replicate n None) b rest k w)
      as (w' & Hs' & Hlost); [done..| |].
    { rewrite (handler_code_found _ _ _ f) by done. by rewrite Hb, Hwork. }
    exists w'. split; [done|]. intros w'' Hw''. destruct (Hlost w'' Hw'') as (H1 & H2 & H3).
    split_and!; [done..|]. intros v o' kv Hv [b' ->] Hkv. eapply H3; [done|done|by eexists _, _].
Qed.
End router_lock.

(** ** Instance *)

(** A handler that removes itself. *)
Definition once_body (f : unit) (sid : Z) (d : list byte) : list (@code_of_router unit) :=
  [work; unreg_code CMD_DATA].
Definition hello_packet : Packet := mkPacket CMD_DATA [x68; x69].
Definition once_start : World :=
  start (run_router [Reg CMD_DATA (Some tt)]) {[ 1%nat := [route_code once_body 7 hello_packet] ]}.

Lemma router_reentry_witness :
  exists w', lsteps table_step once_start w' /\
    forall w'', lsteps table_step w' w'' -> owner w'' !! mutex_ = Some 1%nat.
Proof.
  destruct (router_reentry once_body (run_router [Reg CMD_DATA (Some tt)])
    {[ 1%nat := [route_code once_body 7 hello_packet] ]} once_start 1%nat [] 7 hello_packet)
    as (_ & _ & Hlost).
  - apply rtc_refl.
  - reflexivity.
  - reflexivity.
  - destruct (Hlost tt 1%nat (unreg_code CMD_DATA) []) as (w' & Hs & Hw').
    + vm_compute. reflexivity.
    + exists [Do (Some (Unreg CMD_DATA))]. reflexivity.
    + reflexivity.
    + exists w'. split; [|intros w'' Hw''; apply (Hw' w'' Hw'')].
      clear -Hs. induction Hs; [apply rtc_refl|]. eapply rtc_l; [|exact IHHs]. exists 1%nat. assumption.
Defined.
