(* ===== verification/TcpClient.v ===== *)
(** * TcpClient (network/tcp/tcp_client.h, tcp_client.cpp)

    The client as a state machine: each step is a call of a member function, one turn
    of one of its three threads, or a half of [disconnect], which waits for them.
    What [socket], [connect], [recv] and [send] return is a parameter of the steps. *)

From S2P Require Import Prelude ByteOrder Packet TcpConnection.

Open Scope Z_scope.

(** A [std::thread]: not joinable, running, or ended and still to be joined. *)
Inductive thread := NoThread | Running | Ended.
#[global] Instance thread_eq_dec : EqDecision thread.
Proof. solve_decision. Defined.

(** The members, and what the client did to its surroundings. *)
Record Client := {
  sock_ : Z;
  connected_ : bool;
  running_ : bool;
  read_buf_ : list byte;
  write_queue_ : list (list byte);
  read_thread_ : thread;
  write_thread_ : thread;
  reconnect_thread_ : thread;
  messages : list (list byte);
  sent_bytes : list byte;
  on_close_calls : nat;
  on_connected_calls : nat;
}.

Definition TcpClient0 : Client :=
  {| sock_ := INVALID_SOCKET; connected_ := false; running_ := false; read_buf_ := [];
     write_queue_ := []; read_thread_ := NoThread; write_thread_ := NoThread;
     reconnect_thread_ := NoThread; messages := []; sent_bytes := []; on_close_calls := 0;
     on_connected_calls := 0 |}.

Definition set_sock (sock : Z) (connected : bool) (s : Client) : Client :=
  {| sock_ := sock; connected_ := connected; running_ := running_ s; read_buf_ := read_buf_ s;
     write_queue_ := write_queue_ s; read_thread_ := read_thread_ s;
     write_thread_ := write_thread_ s; reconnect_thread_ := reconnect_thread_ s;
     messages := messages s; sent_bytes := sent_bytes s; on_close_calls := on_close_calls s;
     on_connected_calls := on_connected_calls s |}.
Definition set_running (running : bool) (reconnect : thread) (s : Client) : Client :=
  {| sock_ := sock_ s; connected_ := connected_ s; running_ := running; read_buf_ := read_buf_ s;
     write_queue_ := write_queue_ s; read_thread_ := read_thread_ s;
     write_thread_ := write_thread_ s; reconnect_thread_ := reconnect;
     messages := messages s; sent_bytes := sent_bytes s; on_close_calls := on_close_calls s;
     on_connected_calls := on_connected_calls s |}.
Definition set_threads (r w : thread) (s : Client) : Client :=
  {| sock_ := sock_ s; connected_ := connected_ s; running_ := running_ s;
     read_buf_ := read_buf_ s; write_queue_ := write_queue_ s; read_thread_ := r;
     write_thread_ := w; reconnect_thread_ := reconnect_thread_ s; messages := messages s;
     sent_bytes := sent_bytes s; on_close_calls := on_close_calls s;
     on_connected_calls := on_connected_calls s |}.
Definition set_input (buf : list byte) (msgs : list (list byte)) (s : Client) : Client :=
  {| sock_ := sock_ s; connected_ := connected_ s; running_ := running_ s; read_buf_ := buf;
     write_queue_ := write_queue_ s; read_thread_ := read_thread_ s;
     write_thread_ := write_thread_ s; reconnect_thread_ := reconnect_thread_ s;
     messages := msgs; sent_bytes := sent_bytes s; on_close_calls := on_close_calls s;
     on_connected_calls := on_connected_calls s |}.
Definition set_output (q : list (list byte)) (out : list byte) (s : Client) : Client :=
  {| sock_ := sock_ s; connected_ := connected_ s; running_ := running_ s;
     read_buf_ := read_buf_ s; write_queue_ := q; read_thread_ := read_thread_ s;
     write_thread_ := write_thread_ s; reconnect_thread_ := reconnect_thread_ s;
     messages := messages s; sent_bytes := out; on_close_calls := on_close_calls s;
     on_connected_calls := on_connected_calls s |}.
Definition call_on_close (s : Client) : Client :=
  {| sock_ := sock_ s; connected_ := connected_ s; running_ := running_ s;
     read_buf_ := read_buf_ s; write_queue_ := write_queue_ s; read_thread_ := read_thread_ s;
     write_thread_ := write_thread_ s; reconnect_thread_ := reconnect_thread_ s;
     messages := messages s; sent_bytes := sent_bytes s; on_close_calls := S (on_close_calls s);
     on_connected_calls := on_connected_calls s |}.
Definition call_on_connected (s : Client) : Client :=
  {| sock_ := sock_ s; connected_ := connected_ s; running_ := running_ s;
     read_buf_ := read_buf_ s; write_queue_ := write_queue_ s; read_thread_ := read_thread_ s;
     write_thread_ := write_thread_ s; reconnect_thread_ := reconnect_thread_ s;
     messages := messages s; sent_bytes := sent_bytes s; on_close_calls := on_close_calls s;
     on_connected_calls := S (on_connected_calls s) |}.

(** ** Connecting *)

(** [sock] is what [socket] returns, [ok] whether [connect] succeeds. *)
Definition try_connect (sock : Z) (ok : bool) (s : Client) : bool * Client :=
  if sock =? INVALID_SOCKET then (false, set_sock sock (connected_ s) s)
  else if ok then (true, set_sock sock true s)
  else (false, set_sock INVALID_SOCKET (connected_ s) s).

(** One turn of [reconnect_loop] after its sleep. *)
Definition reconnect_turn (sock : Z) (ok : bool) (s : Client) : Client :=
  if negb (connected_ s) && running_ s then
    let '(r, s1) := try_connect sock ok s in
    if r : bool then call_on_connected s1 else s1
  else s.

(** The end of the program by [std::terminate]: assigning to a joinable thread. *)
Inductive result := Alive (s : Client) | Terminated.

Definition connect (sock : Z) (ok : bool) (s : Client) : result :=
  let s1 := if running_ s then Some s
            else match reconnect_thread_ s with
                 | NoThread => Some (set_running true Running s)
                 | _ => None
                 end in
  match s1 with
  | None => Terminated
  | Some s1 =>
      let '(r, s2) := try_connect sock ok s1 in
      if r : bool then
        match read_thread_ s2, write_thread_ s2 with
        | NoThread, NoThread => Alive (call_on_connected (set_threads Running Running s2))
        | _, _ => Terminated
        end
      else Alive s2
  end.

(** [disconnect] up to the first [join], and after the last one. *)
Definition disconnect_begin (s : Client) : Client :=
  if running_ s then
    set_sock INVALID_SOCKET false (set_running false (reconnect_thread_ s) s)
  else s.
Definition disconnect_end (s : Client) : Client :=
  call_on_close (set_threads NoThread NoThread (set_running (running_ s) NoThread s)).

(** ** Sending *)

Definition send (host : bool) (c : Z) (d : list byte) (s : Client) : bool * Client :=
  if connected_ s
  then (true, set_output (write_queue_ s ++ [encode host (mkPacket c d)]) (sent_bytes s) s)
  else (false, s).
Definition send_raw (d : list byte) (s : Client) : bool * Client :=
  if connected_ s then (true, set_output (write_queue_ s ++ [d]) (sent_bytes s) s) else (false, s).

(** The inner loop of [write_loop]: whether the connection still stands, and what is
    out; [rs] are the values [send] returns, and the call after them takes the rest. *)
Fixpoint write_msg (rs : list Z) (todo out : list byte) : bool * list byte :=
  match todo, rs with
  | [], _ => (true, out)
  | _, [] => (true, out ++ todo)
  | _, n :: rs' =>
      if n <=? 0 then (false, out)
      else write_msg rs' (drop (Z.to_nat n) todo) (out ++ take (Z.to_nat n) todo)
  end.

(** Where [read_loop] ends. *)
Definition stop_reading (s : Client) : Client :=
  call_on_close (set_sock (sock_ s) false (set_threads Ended (write_thread_ s) s)).

(** What another thread does between the test of [write_loop] and the end of its wait. *)
Inductive meanwhile := Nothing | ReaderEnds | Disconnects.

Definition during_wait (m : meanwhile) (s : Client) : Client :=
  match m with
  | Nothing => s
  | ReaderEnds => if decide (read_thread_ s = Running) then stop_reading s else s
  | Disconnects => disconnect_begin s
  end.

(** One turn of [write_loop]: with the connection gone the loop ends at an empty queue,
    but a message that waits is still taken and given to [send]. *)
Definition write_turn (m : meanwhile) (rs : list Z) (s : Client) : Client :=
  if connected_ s then
    let s0 := during_wait m s in
    match write_queue_ s0 with
    | [] => if connected_ s0 then s0 else set_threads (read_thread_ s0) Ended s0
    | msg :: q =>
        let '(ok, out) := write_msg rs msg (sent_bytes s0) in
        set_sock (sock_ s0) (connected_ s0 && ok) (set_output q out s0)
    end
  else set_threads (read_thread_ s) Ended s.

(** ** Reading *)

(** The inner loop of [read_loop]: [total_len - 6] is computed on 32 bits, and the
    string constructor reads that many bytes from offset 6. *)
Fixpoint take_packets (fuel : nat) (buf : list byte) (msgs : list (list byte))
    : outcome (list byte * list (list byte)) :=
  match fuel with
  | O => Ret (buf, msgs)
  | S fuel' =>
      if zlen buf <? 4 then Ret (buf, msgs)
      else
        let total_len := announced buf in
        if zlen buf <? total_len then Ret (buf, msgs)
        else
          match slice 6 (u32 (total_len - 6)) buf with
          | None => Undef
          | Some msg => take_packets fuel' (drop (Z.to_nat total_len) buf) (msgs ++ [msg])
          end
  end.

(** One turn of [read_loop]: [recv] returns bytes, or [None] at the end or an error. *)
Definition read_turn (ev : option (list byte)) (s : Client) : outcome Client :=
  if connected_ s then
    match ev with
    | None => Ret (stop_reading s)
    | Some bs =>
        let buf := read_buf_ s ++ bs in
        r ← take_packets (S (length buf)) buf (messages s);
        Ret (set_input (fst r) (snd r) s)
    end
  else Ret (stop_reading s).

(** ** Steps *)

Inductive client_op :=
| Connect (sock : Z) (ok : bool)
| Reconnect (sock : Z) (ok : bool)
| Send (c : Z) (d : list byte)
| SendRaw (d : list byte)
| ReadTurn (ev : option (list byte))
| WriteTurn (m : meanwhile) (rs : list Z)
| DisconnectBegin
| DisconnectEnd.

(** A thread makes a step while it runs; the joins return when none does, and after
    [disconnect_begin] the reconnecting thread ends of itself. *)
Definition run_client_op (host : bool) (o : client_op) (s : Client) : outcome result :=
  match o with
  | Connect sock ok => Ret (connect sock ok s)
  | Reconnect sock ok => Ret (Alive (reconnect_turn sock ok s))
  | Send c d => Ret (Alive (snd (send host c d s)))
  | SendRaw d => Ret (Alive (snd (send_raw d s)))
  | ReadTurn ev =>
      if decide (read_thread_ s = Running) then s' ← read_turn ev s; Ret (Alive s') else Ret (Alive s)
  | WriteTurn m rs =>
      Ret (Alive (if decide (write_thread_ s = Running) then write_turn m rs s else s))
  | DisconnectBegin => Ret (Alive (disconnect_begin s))
  | DisconnectEnd =>
      Ret (Alive (if decide (running_ s = false /\ read_thread_ s <> Running /\
                             write_thread_ s <> Running /\ reconnect_thread_ s <> NoThread)
                  then disconnect_end s else s))
  end.

Fixpoint run_client (host : bool) (ops : list client_op) (s : Client) : outcome result :=
  match ops with
  | [] => Ret (Alive s)
  | o :: ops' =>
      r ← run_client_op host o s;
      match r with
      | Alive s' => run_client host ops' s'
      | Terminated => Ret Terminated
      end
  end.

(** ** The parser on arbitrary bytes *)

(** Less than a packet; and a packet whose length field is below the six bytes of
    length and command. *)
Definition partial (buf : list byte) : Prop := zlen buf < 4 \/ zlen buf < announced buf.
Definition malformed (buf : list byte) : Prop :=
  4 <= zlen buf /\ announced buf <= zlen buf /\ announced buf < 6.

Lemma take_packets_partial fuel buf msgs : partial buf -> take_packets (S fuel) buf msgs = Ret (buf, msgs).
Proof.
  intros H. cbn [take_packets]. destruct (Z.ltb_spec (zlen buf) 4); [done|].
  by rewrite (proj2 (Z.ltb_lt _ _)) by (destruct H; lia).
Qed.

Lemma take_packets_malformed fuel buf msgs :
  malformed buf -> zlen buf < 2 ^ 32 -> take_packets (S fuel) buf msgs = Undef.
Proof.
  intros (H1 & H2 & H3) Hl. cbn [take_packets]. pose proof (announced_range buf).
  rewrite !(proj2 (Z.ltb_ge _ _)) by lia. rewrite slice_None; [done|].
  replace (u32 (announced buf - 6)) with (announced buf - 6 + 2 ^ 32); [lia|].
  unfold u32. symmetry. rewrite <-(Z.mod_add _ 1) by lia. apply Z.mod_small. lia.
Qed.

(** A buffer with a whole packet in front is the bytes of that packet and a rest. *)
Lemma packet_in_front buf :
  6 <= announced buf -> announced buf <= zlen buf ->
  exists p rest, wf_packet p /\ buf = wire p ++ rest /\ announced buf = zlen (wire p).
Proof.
  intros H6 Hl. pose proof (announced_range buf) as Hr.
  set (n := announced buf) in *. unfold zlen in Hl.
  remember (sub 0 4 buf) as h eqn:Eh. remember (sub 4 2 buf) as c eqn:Ec.
  remember (sub 6 (Z.to_nat (n - 6)) buf) as d eqn:Ed.
  assert (length h = 4%nat) as Hh by (subst h; apply length_sub; lia).
  assert (length c = 2%nat) as Hc by (subst c; apply length_sub; lia).
  assert (length d = Z.to_nat (n - 6)) as Hd by (subst d; apply length_sub; lia).
  assert (buf = h ++ c ++ d ++ drop (Z.to_nat n) buf) as Eb.
  { subst h c d. change buf with (drop 0 buf) at 1.
    rewrite (drop_sub 0 4 buf), (drop_sub (0 + 4) 2 buf), (drop_sub (0 + 4 + 2) (Z.to_nat (n - 6)) buf).
    do 4 f_equal. lia. }
  exists (mkPacket (be_val c) d), (drop (Z.to_nat n) buf).
  assert (wire (mkPacket (be_val c) d) = h ++ c ++ d) as Ew.
  { unfold wire. cbn [cmd data]. f_equal; [|f_equal].
    - transitivity (be_bytes (length h) (be_val h)); [|apply be_bytes_val]. rewrite Hh. f_equal.
      unfold zlen. rewrite Hd. transitivity n; [lia|]. unfold n, announced. by rewrite Eh.
    - transitivity (be_bytes (length c) (be_val c)); [by rewrite Hc|apply be_bytes_val]. }
  split_and!.
  - split; cbn [cmd data].
    + pose proof (be_val_range c) as Hv. rewrite Hc in Hv. lia.
    + unfold zlen. rewrite Hd. lia.
  - by rewrite Ew, <-!app_assoc.
  - rewrite zlen_wire. cbn [data]. unfold zlen. rewrite Hd. lia.
Qed.

Lemma take_packets_packet fuel p rest msgs :
  wf_packet p ->
  take_packets (S fuel) (wire p ++ rest) msgs = take_packets fuel rest (msgs ++ [data p]).
Proof.
  intros Hp. cbn [take_packets]. pose proof (zlen_nonneg (data p)). pose proof (zlen_nonneg rest).
  pose proof (zlen_wire p) as Hw. pose proof Hp as [_ Hmax].
  rewrite announced_wire, zlen_app, Hw by done. rewrite !(proj2 (Z.ltb_ge _ _)) by lia.
  rewrite u32_small by lia. replace (6 + zlen (data p) - 6) with (zlen (data p)) by lia.
  replace (wire p ++ rest) with ((be_bytes 4 (6 + zlen (data p)) ++ be_bytes 2 (cmd p)) ++ data p ++ rest) at 1
    by (unfold wire; by rewrite <-!app_assoc).
  rewrite slice_app by (rewrite ?zlen_app, ?zlen_be_bytes; lia).
  rewrite drop_app_length'; [done|]. unfold zlen in *. lia.
Qed.

(** Every buffer is whole packets followed by part of one or by a malformed one. *)
Lemma parse_buffer buf :
  exists ps rest, Forall wf_packet ps /\ buf = stream ps ++ rest /\ (partial rest \/ malformed rest).
Proof.
  induction buf as [buf IH] using (induction_ltof1 _ length).
  destruct (decide (zlen buf < 4 \/ zlen buf < announced buf)) as [Hp|Hp]; [by exists [], buf; auto|].
  destruct (decide (announced buf < 6)) as [Hm|Hm].
  { exists [], buf. split_and!; [done..|]. right. unfold malformed. lia. }
  destruct (packet_in_front buf) as (p & rest & Hp' & E & Ea); [lia..|].
  destruct (IH rest) as (ps & rest' & Hps & -> & Hr).
  { unfold ltof. rewrite E, length_app. rewrite zlen_wire in Ea. pose proof (zlen_nonneg (data p)).
    pose proof (zlen_wire p). unfold zlen in *. lia. }
  exists (p :: ps), rest'. rewrite stream_cons, <-app_assoc. split_and!; [by constructor|done|done].
Qed.

Lemma take_packets_stream fuel ps rest msgs :
  Forall wf_packet ps -> (length ps < fuel)%nat ->
  take_packets fuel (stream ps ++ rest) msgs =
  take_packets (fuel - length ps) rest (msgs ++ (data <$> ps)).
Proof.
  intros Hps. revert fuel msgs. induction Hps as [|p ps Hp _ IH]; intros fuel msgs Hf.
  - simpl. by rewrite Nat.sub_0_r, app_nil_r.
  - destruct fuel as [|fuel]; [simpl in Hf; lia|]. rewrite stream_cons, <-app_assoc.
    rewrite take_packets_packet by done. rewrite IH by (simpl in Hf; lia). simpl.
    by rewrite <-app_assoc.
Qed.

(** The loop of the reader on a buffer, by what is in it; its fuel is enough. *)
Lemma take_packets_spec ps rest msgs :
  Forall wf_packet ps -> zlen (stream ps ++ rest) < 2 ^ 32 ->
  let buf := stream ps ++ rest in
  (partial rest -> take_packets (S (length buf)) buf msgs = Ret (rest, msgs ++ (data <$> ps))) /\
  (malformed rest -> take_packets (S (length buf)) buf msgs = Undef).
Proof.
  intros Hps Hmax buf. pose proof (length_stream ps) as Hl. unfold buf.
  assert (length ps < S (length (stream ps ++ rest)))%nat as Hf by (rewrite length_app; lia).
  rewrite take_packets_stream by done.
  destruct (S (length (stream ps ++ rest)) - length ps)%nat as [|fuel] eqn:E; [lia|].
  rewrite zlen_app in Hmax. pose proof (zlen_nonneg (stream ps)).
  split; [apply take_packets_partial|]. intros Hm. apply take_packets_malformed; [done|lia].
Qed.

(** C29: The client's parser on arbitrary bytes: the buffer is a
    sequence of whole packets and a rest.  When the rest is part of a packet, exactly the data of those packets is delivered, in order, and
    the rest is kept; when it is a packet with a length field below 6, the string is
    built from memory outside the buffer.  So for the bytes a server's [send_packet]
    wrote, cut anywhere, the client delivers what was sent. *)
Theorem tcp_client_reader bs s :
  connected_ s = true -> zlen (read_buf_ s ++ bs) < 2 ^ 32 ->
  (exists ps rest, Forall wf_packet ps /\ read_buf_ s ++ bs = stream ps ++ rest /\
     (partial rest /\ read_turn (Some bs) s = Ret (set_input rest (messages s ++ (data <$> ps)) s) \/
      malformed rest /\ read_turn (Some bs) s = Undef)) /\
  forall host ps rest, Forall wf_packet ps -> partial rest ->
    read_buf_ s ++ bs = (ps ≫= encode host) ++ rest ->
    read_turn (Some bs) s = Ret (set_input rest (messages s ++ (data <$> ps)) s).
Proof.
  intros Hc Hmax. unfold read_turn. rewrite Hc. split.
  - destruct (parse_buffer (read_buf_ s ++ bs)) as (ps & rest & Hps & E & Hr).
    exists ps, rest. split; [done|]. split; [done|]. rewrite E in Hmax |- *.
    destruct (take_packets_spec ps rest (messages s) Hps Hmax) as [Hp Hm].
    destruct Hr as [Hr|Hr]; [left|right]; (split; [done|]); [by rewrite Hp|by rewrite Hm].
  - intros host ps rest Hps Hr E. rewrite stream_encode in E by done. rewrite E in Hmax |- *.
    destruct (take_packets_spec ps rest (messages s) Hps Hmax) as [Hp _]. by rewrite Hp.
Qed.

(** ** After a lost connection *)

(** Neither of the two worker threads runs. *)
Definition deaf (s : Client) : Prop := read_thread_ s = Ended /\ write_thread_ s = Ended.

(** Not a call that takes the threads away. *)
Definition no_disconnect (o : client_op) : Prop := o <> DisconnectBegin.

Lemma try_connect_deaf sock ok s :
  deaf s -> deaf (snd (try_connect sock ok s)) /\
  sent_bytes (snd (try_connect sock ok s)) = sent_bytes s /\
  messages (snd (try_connect sock ok s)) = messages s /\
  running_ (snd (try_connect sock ok s)) = running_ s /\
  write_queue_ (snd (try_connect sock ok s)) = write_queue_ s.
Proof. intros [? ?]. unfold try_connect. by repeat case_match. Qed.

(** What a step keeps while the threads have ended. *)
Definition stuck (s s' : Client) : Prop :=
  deaf s' /\ running_ s' = true /\ sent_bytes s' = sent_bytes s /\ messages s' = messages s /\
  write_queue_ s `prefix_of` write_queue_ s'.

Lemma deaf_step host o s :
  deaf s -> running_ s = true -> no_disconnect o ->
  match run_client_op host o s with
  | Ret (Alive s') => stuck s s'
  | Ret Terminated => exists sock, o = Connect sock true /\ sock <> INVALID_SOCKET
  | _ => False
  end.
Proof.
  intros Hd Hrun Ho. pose proof Hd as [Hr Hw].
  assert (stuck s s) as Hs by (by repeat split).
  destruct o as [sock ok|sock ok|c d|d|ev|rs| |]; unfold run_client_op.
  - unfold connect. rewrite Hrun. unfold try_connect. destruct (Z.eqb_spec sock INVALID_SOCKET).
    + by repeat split.
    + destruct ok; [|by repeat split]. simpl. rewrite Hr. by exists sock.
  - unfold reconnect_turn. case_match; [|done].
    destruct (try_connect_deaf sock ok s Hd) as (? & ? & ? & ? & Hq).
    destruct (try_connect sock ok s) as [[] s1]; simpl in *; (split; [done|split_and!; simpl; [congruence|done|done|by rewrite Hq]]).
  - unfold send. case_match; [|done]. split_and!; try done. simpl. by apply prefix_app_r.
  - unfold send_raw. case_match; [|done]. split_and!; try done. simpl. by apply prefix_app_r.
  - by rewrite Hr, decide_False.
  - by rewrite Hw, decide_False.
  - done.
  - rewrite decide_False; [done|]. rewrite Hrun. naive_solver.
Qed.

Lemma stuck_trans s1 s2 s3 : stuck s1 s2 -> stuck s2 s3 -> stuck s1 s3.
Proof.
  intros (_ & _ & E1 & E2 & P) (? & ? & E3 & E4 & P'). split_and!; try done; [congruence..|].
  by etrans.
Qed.

Lemma deaf_run host ops s :
  deaf s -> running_ s = true -> Forall no_disconnect ops ->
  match run_client host ops s with
  | Ret (Alive s') => stuck s s'
  | Ret Terminated => exists sock, Connect sock true ∈ ops /\ sock <> INVALID_SOCKET
  | _ => False
  end.
Proof.
  intros Hd Hr Hops. revert s Hd Hr. induction Hops as [|o ops Ho _ IH]; intros s Hd Hr; cbn [run_client].
  { destruct Hd. by repeat split. }
  pose proof (deaf_step host o s Hd Hr Ho) as Hs.
  destruct (run_client_op host o s) as [[s1|]| |]; try done; rewrite bind_Ret.
  - pose proof Hs as (Hd1 & Hr1 & _). specialize (IH s1 Hd1 Hr1).
    destruct (run_client host ops s1) as [[s2|]| |]; try done; [by eapply stuck_trans|].
    destruct IH as (sock & ? & ?). exists sock. split; [by right|done].
  - destruct Hs as (sock & -> & ?). exists sock. split; [left|done].
Qed.

(** C30: Reconnecting does not revive the client.  From the moment the two worker
    threads have ended with the connection, and as long as [disconnect] is not called,
    nothing is received or written any more, whatever is called and however often the
    client reconnects: after a successful reconnect [send] returns true and its packet
    only joins the queue, and the one successful [connect] ends the program, because
    it assigns to a thread that was never joined. *)
Theorem tcp_client_reconnect host ops s :
  read_thread_ s = Ended -> write_thread_ s = Ended -> running_ s = true ->
  DisconnectBegin ∉ ops ->
  match run_client host ops s with
  | Ret (Alive s') =>
      sent_bytes s' = sent_bytes s /\ messages s' = messages s /\
      write_queue_ s `prefix_of` write_queue_ s' /\
      (forall sock, sock <> INVALID_SOCKET -> connect sock true s' = Terminated) /\
      (connected_ s' = false -> forall sock c d, sock <> INVALID_SOCKET ->
         exists s'', run_client host [Reconnect sock true; Send c d] s' = Ret (Alive s'') /\
           connected_ s'' = true /\ sent_bytes s'' = sent_bytes s /\
           write_queue_ s'' = write_queue_ s' ++ [encode host (mkPacket c d)])
  | Ret Terminated => exists sock, Connect sock true ∈ ops
  | _ => False
  end.
Proof.
  intros Hr Hw Hrun Hno.
  assert (Forall no_disconnect ops) as Hops by (apply Forall_forall; intros o Ho ->; done).
  pose proof (deaf_run host ops s (conj Hr Hw) Hrun Hops) as Hs.
  destruct (run_client host ops s) as [[s'|]| |]; try done; [|naive_solver].
  destruct Hs as ([Hr' Hw'] & Hrun' & Es & Em & Hp). split_and!; try done.
  - intros sock Hsock. unfold connect, try_connect. rewrite Hrun', (proj2 (Z.eqb_neq _ _)) by done.
    simpl. by rewrite Hr'.
  - intros Hc sock c d Hsock. cbn [run_client run_client_op]. rewrite !bind_Ret.
    unfold reconnect_turn, try_connect. rewrite Hc, Hrun', (proj2 (Z.eqb_neq _ _)) by done.
    simpl. by eexists.
Qed.

(** ** Instances *)

Lemma tcp_client_reader_witness :
  let s := set_input (take 3 (wire hello)) [] (set_sock 5 true TcpClient0) in
  read_turn (Some (drop 3 (wire hello) ++ [x00])) s = Ret (set_input [x00] [[x68; x69]] s).
Proof.
  set (s := set_input (take 3 (wire hello)) [] (set_sock 5 true TcpClient0)).
  destruct (tcp_client_reader (drop 3 (wire hello) ++ [x00]) s) as [_ H]; [done|by vm_compute|].
  apply (H true [hello] [x00]); [|by left; vm_compute|by vm_compute].
  constructor; [by_compute|constructor].
Defined.

(** A connection that is lost and comes back. *)
Definition lost : list client_op := [Connect 5 true; ReadTurn None; WriteTurn Nothing []].

Definition lost_client : Client :=
  call_on_close (call_on_connected (set_threads Ended Ended
    (set_running true Running (set_sock 5 false TcpClient0)))).

Lemma tcp_client_reconnect_witness :
  run_client true lost TcpClient0 = Ret (Alive lost_client) /\
  exists s', run_client true [Reconnect 6 true; Send CMD_DATA [x68; x69]] lost_client = Ret (Alive s') /\
    sent_bytes s' = [] /\ connect 7 true s' = Terminated.
Proof.
  split; [reflexivity|].
  pose proof (tcp_client_reconnect true [Reconnect 6 true; Send CMD_DATA [x68; x69]] lost_client
    eq_refl eq_refl eq_refl) as H.
  destruct (run_client true [Reconnect 6 true; Send CMD_DATA [x68; x69]] lost_client)
    as [[s'|]| |] eqn:E; [|discriminate E..].
  destruct H as (H1 & _ & _ & H2 & _).
  - rewrite !elem_of_cons. intros [?|[?|?%not_elem_of_nil]]; done.
  - exists s'. split; [done|]. split; [exact H1|]. by apply (H2 7).
Defined.
