(* ===== verification/Monitor.v ===== *)
(** * Monitor (core/monitor/monitor.h, monitor.cpp)

    The counters.  [on_connect] is cut at its atomic accesses, so that several calls
    can interleave; the other operations touch each counter once.  The threads that
    log and that stand for the HTTP server only read. *)

From S2P Require Import Prelude.

Open Scope Z_scope.

(** Where a call of [on_connect] is: the first counter is incremented; the local
    [total] is known; the local [peak] too. *)
Inductive call :=
| Counted
| HasTotal (total : Z)
| HasPeak (total peak : Z).

#[global] Instance call_eq_dec : EqDecision call.
Proof. solve_decision. Defined.

Record Monitor := {
  connections_alive_ : Z;
  connections_total_ : Z;
  connections_peak_ : Z;
  task_queue_length_ : Z;
  threadpool_active_ : Z;
  threadpool_total_ : Z;
  msgs_sent_ : Z;
  msgs_recv_ : Z;
  msgs_error_ : Z;
  bytes_sent_ : Z;
  bytes_recv_ : Z;
  memory_rss_kb_ : Z;
  memory_peak_rss_kb_ : Z;
  calls : gmap nat call;
}.

Definition Monitor0 : Monitor :=
  {| connections_alive_ := 0; connections_total_ := 0; connections_peak_ := 0;
     task_queue_length_ := 0; threadpool_active_ := 0; threadpool_total_ := 0; msgs_sent_ := 0;
     msgs_recv_ := 0; msgs_error_ := 0; bytes_sent_ := 0; bytes_recv_ := 0; memory_rss_kb_ := 0;
     memory_peak_rss_kb_ := 0; calls := ∅ |}.

Definition set_conn (alive total peak : Z) (cs : gmap nat call) (s : Monitor) : Monitor :=
  {| connections_alive_ := alive; connections_total_ := total; connections_peak_ := peak;
     task_queue_length_ := task_queue_length_ s; threadpool_active_ := threadpool_active_ s;
     threadpool_total_ := threadpool_total_ s; msgs_sent_ := msgs_sent_ s;
     msgs_recv_ := msgs_recv_ s; msgs_error_ := msgs_error_ s; bytes_sent_ := bytes_sent_ s;
     bytes_recv_ := bytes_recv_ s; memory_rss_kb_ := memory_rss_kb_ s;
     memory_peak_rss_kb_ := memory_peak_rss_kb_ s; calls := cs |}.
Definition set_pool (len active total : Z) (s : Monitor) : Monitor :=
  {| connections_alive_ := connections_alive_ s; connections_total_ := connections_total_ s;
     connections_peak_ := connections_peak_ s; task_queue_length_ := len;
     threadpool_active_ := active; threadpool_total_ := total; msgs_sent_ := msgs_sent_ s;
     msgs_recv_ := msgs_recv_ s; msgs_error_ := msgs_error_ s; bytes_sent_ := bytes_sent_ s;
     bytes_recv_ := bytes_recv_ s; memory_rss_kb_ := memory_rss_kb_ s;
     memory_peak_rss_kb_ := memory_peak_rss_kb_ s; calls := calls s |}.
Definition set_msgs (ms mr me bs br : Z) (s : Monitor) : Monitor :=
  {| connections_alive_ := connections_alive_ s; connections_total_ := connections_total_ s;
     connections_peak_ := connections_peak_ s; task_queue_length_ := task_queue_length_ s;
     threadpool_active_ := threadpool_active_ s; threadpool_total_ := threadpool_total_ s;
     msgs_sent_ := ms; msgs_recv_ := mr; msgs_error_ := me; bytes_sent_ := bs;
     bytes_recv_ := br; memory_rss_kb_ := memory_rss_kb_ s;
     memory_peak_rss_kb_ := memory_peak_rss_kb_ s; calls := calls s |}.
Definition set_memory (rss peak : Z) (s : Monitor) : Monitor :=
  {| connections_alive_ := connections_alive_ s; connections_total_ := connections_total_ s;
     connections_peak_ := connections_peak_ s; task_queue_length_ := task_queue_length_ s;
     threadpool_active_ := threadpool_active_ s; threadpool_total_ := threadpool_total_ s;
     msgs_sent_ := msgs_sent_ s; msgs_recv_ := msgs_recv_ s; msgs_error_ := msgs_error_ s;
     bytes_sent_ := bytes_sent_ s; bytes_recv_ := bytes_recv_ s; memory_rss_kb_ := rss;
     memory_peak_rss_kb_ := peak; calls := calls s |}.

(** ** Operations *)

(** The first line of [on_connect]; [i] names the call. *)
Definition on_connect_begin (i : nat) (s : Monitor) : Monitor :=
  match calls s !! i with
  | Some _ => s
  | None => set_conn (i32 (connections_alive_ s + 1)) (connections_total_ s) (connections_peak_ s)
              (<[i := Counted]> (calls s)) s
  end.

(** The next access of call [i]; [spurious] says that [compare_exchange_weak] fails
    although the values are equal. *)
Definition on_connect_next (i : nat) (spurious : bool) (s : Monitor) : Monitor :=
  match calls s !! i with
  | None => s
  | Some Counted =>
      let total := i32 (connections_total_ s + 1) in
      set_conn (connections_alive_ s) total (connections_peak_ s) (<[i := HasTotal total]> (calls s)) s
  | Some (HasTotal total) =>
      set_conn (connections_alive_ s) (connections_total_ s) (connections_peak_ s)
        (<[i := HasPeak total (connections_peak_ s)]> (calls s)) s
  | Some (HasPeak total peak) =>
      if peak <? total then
        if (connections_peak_ s =? peak) && negb spurious
        then set_conn (connections_alive_ s) (connections_total_ s) total (delete i (calls s)) s
        else set_conn (connections_alive_ s) (connections_total_ s) (connections_peak_ s)
               (<[i := HasPeak total (connections_peak_ s)]> (calls s)) s
      else set_conn (connections_alive_ s) (connections_total_ s) (connections_peak_ s)
             (delete i (calls s)) s
  end.

Definition on_disconnect (s : Monitor) : Monitor :=
  set_conn (i32 (connections_alive_ s - 1)) (connections_total_ s) (connections_peak_ s) (calls s) s.
Definition set_task_queue_length (len : Z) (s : Monitor) : Monitor :=
  set_pool len (threadpool_active_ s) (threadpool_total_ s) s.
Definition set_threadpool_stats (active total : Z) (s : Monitor) : Monitor :=
  set_pool (task_queue_length_ s) active total s.
Definition on_msg_sent (bytes : Z) (s : Monitor) : Monitor :=
  set_msgs (u64 (msgs_sent_ s + 1)) (msgs_recv_ s) (msgs_error_ s)
    (if bytes =? 0 then bytes_sent_ s else u64 (bytes_sent_ s + bytes)) (bytes_recv_ s) s.
Definition on_msg_recv (bytes : Z) (s : Monitor) : Monitor :=
  set_msgs (msgs_sent_ s) (u64 (msgs_recv_ s + 1)) (msgs_error_ s) (bytes_sent_ s)
    (if bytes =? 0 then bytes_recv_ s else u64 (bytes_recv_ s + bytes)) s.
Definition on_msg_error (s : Monitor) : Monitor :=
  set_msgs (msgs_sent_ s) (msgs_recv_ s) (u64 (msgs_error_ s + 1)) (bytes_sent_ s) (bytes_recv_ s) s.

(** [rss] is the [ru_maxrss] of [getrusage], [None] when the call fails. *)
Definition refresh (rss : option Z) (s : Monitor) : Monitor :=
  match rss with
  | None => s
  | Some r => set_memory r (if memory_peak_rss_kb_ s <? r then r else memory_peak_rss_kb_ s) s
  end.

Record MonitorStats := {
  timestamp : Z;
  connections_alive : Z;
  connections_total : Z;
  connections_peak : Z;
  task_queue_length : Z;
  threadpool_active : Z;
  threadpool_total : Z;
  msgs_sent : Z;
  msgs_recv : Z;
  msgs_error : Z;
  bytes_sent : Z;
  bytes_recv : Z;
  memory_rss_kb : Z;
  memory_peak_rss_kb : Z;
  total_logs : Z;
}.

(** [tick] is [get_tick_ms()]; [total_logs] keeps its initial value. *)
Definition snapshot (tick : Z) (s : Monitor) : MonitorStats :=
  {| timestamp := i64 tick; connections_alive := connections_alive_ s;
     connections_total := connections_total_ s; connections_peak := connections_peak_ s;
     task_queue_length := task_queue_length_ s; threadpool_active := threadpool_active_ s;
     threadpool_total := threadpool_total_ s; msgs_sent := msgs_sent_ s;
     msgs_recv := msgs_recv_ s; msgs_error := msgs_error_ s; bytes_sent := bytes_sent_ s;
     bytes_recv := bytes_recv_ s; memory_rss_kb := memory_rss_kb_ s;
     memory_peak_rss_kb := memory_peak_rss_kb_ s; total_logs := 0 |}.

Inductive monitor_op :=
| ConnectBegin (i : nat)
| ConnectNext (i : nat) (spurious : bool)
| Disconnect
| QueueLength (len : Z)
| PoolStats (active total : Z)
| MsgSent (bytes : Z)
| MsgRecv (bytes : Z)
| MsgError
| Refresh (rss : option Z).

Definition run_monitor_op (o : monitor_op) (s : Monitor) : Monitor :=
  match o with
  | ConnectBegin i => on_connect_begin i s
  | ConnectNext i spurious => on_connect_next i spurious s
  | Disconnect => on_disconnect s
  | QueueLength len => set_task_queue_length len s
  | PoolStats active total => set_threadpool_stats active total s
  | MsgSent bytes => on_msg_sent bytes s
  | MsgRecv bytes => on_msg_recv bytes s
  | MsgError => on_msg_error s
  | Refresh rss => refresh rss s
  end.

(** The state after some operations, listed with the last one first. *)
Definition run_monitor (ops : list monitor_op) : Monitor := foldr run_monitor_op Monitor0 ops.

(** ** Specification *)

(** How many connections began, and how many ended. *)
Fixpoint begun (ops : list monitor_op) : Z :=
  match ops with
  | [] => 0
  | ConnectBegin i :: ops' =>
      match calls (run_monitor ops') !! i with Some _ => begun ops' | None => begun ops' + 1 end
  | _ :: ops' => begun ops'
  end.
Fixpoint ended (ops : list monitor_op) : Z :=
  match ops with
  | [] => 0
  | Disconnect :: ops' => ended ops' + 1
  | _ :: ops' => ended ops'
  end.

(** Total number and bytes of the messages sent and received. *)
Definition sent_of (o : monitor_op) : option Z := match o with MsgSent b => Some b | _ => None end.
Definition recv_of (o : monitor_op) : option Z := match o with MsgRecv b => Some b | _ => None end.
Definition errors_of (o : monitor_op) : option unit := match o with MsgError => Some tt | _ => None end.
Definition rss_of (o : monitor_op) : option Z := match o with Refresh r => r | _ => None end.
Definition sum (l : list Z) : Z := foldr Z.add 0 l.
Definition max_of (l : list Z) : Z := foldr Z.max 0 l.

Lemma begun_nonneg ops : 0 <= begun ops.
Proof. induction ops as [|[] ops IH]; simpl; try lia. case_match; lia. Qed.

(** The call that holds a total. *)
Definition holds (c : call) (t : Z) : Prop :=
  match c with Counted => False | HasTotal t' | HasPeak t' _ => t = t' end.

(** How many calls have not yet incremented the total. *)
Definition counting (cs : gmap nat call) : nat :=
  base.size (filter (fun x => snd x = Counted) cs).

Record wf (n : Z) (s : Monitor) : Prop := {
  wf_total : connections_total_ s + Z.of_nat (counting (calls s)) = n;
  wf_total0 : 0 <= connections_total_ s;
  wf_peak : 0 <= connections_peak_ s <= connections_total_ s;
  wf_covered : forall t, 1 <= t <= connections_total_ s ->
    t <= connections_peak_ s \/ exists i c, calls s !! i = Some c /\ holds c t;
  wf_calls : forall i c, calls s !! i = Some c ->
    match c with
    | Counted => True
    | HasTotal t => 1 <= t <= connections_total_ s
    | HasPeak t p => 1 <= t <= connections_total_ s /\ p <= connections_peak_ s
    end;
}.

Lemma counting_new cs i c :
  cs !! i = None ->
  counting (<[i := c]> cs) = (counting cs + if decide (c = Counted) then 1 else 0)%nat.
Proof.
  intros Hi. unfold counting. rewrite map_filter_insert. simpl. case_decide.
  - rewrite map_size_insert_None; [lia|]. apply map_lookup_filter_None. by left.
  - rewrite delete_id by done. lia.
Qed.

Lemma counting_del cs i c :
  cs !! i = Some c ->
  counting cs = (counting (delete i cs) + if decide (c = Counted) then 1 else 0)%nat.
Proof.
  intros Hi. rewrite <-(insert_delete_id cs i c Hi) at 1.
  apply counting_new, lookup_delete_eq.
Qed.

Lemma counting_set cs i c c' :
  cs !! i = Some c ->
  (counting (<[i := c']> cs) + (if decide (c = Counted) then 1 else 0) =
   counting cs + if decide (c' = Counted) then 1 else 0)%nat.
Proof.
  intros Hi. rewrite (counting_del cs i c Hi), <-insert_delete_eq, counting_new; [lia|].
  apply lookup_delete_eq.
Qed.

(** Moving one call on: what is left to show. *)
Lemma wf_move n s i c c' peak total :
  wf n s -> calls s !! i = Some c -> c' <> Counted ->
  connections_peak_ s <= peak <= total ->
  (total = connections_total_ s /\ c <> Counted /\ (forall t, holds c t -> holds c' t) \/
   total = connections_total_ s + 1 /\ c = Counted /\ c' = HasTotal total) ->
  (match c' with
   | Counted => True
   | HasTotal t => 1 <= t <= total
   | HasPeak t p => 1 <= t <= total /\ p <= peak
   end) ->
  wf n (set_conn (connections_alive_ s) total peak (<[i := c']> (calls s)) s).
Proof.
  intros [Ht H0 Hp Hcov Hc] Hi Hc' Hpk Htot Hok.
  pose proof (counting_set _ i c c' Hi) as Hn. rewrite (decide_False _ _ Hc') in Hn.
  split; simpl.
  - destruct Htot as [(-> & Hne & _)|(-> & -> & _)].
    + rewrite decide_False in Hn by done. lia.
    + rewrite decide_True in Hn by done. lia.
  - lia.
  - lia.
  - intros t Hr. destruct Htot as [(-> & Hne & Hh)|(-> & -> & ->)].
    + destruct (Hcov t Hr) as [?|(j & d & Hj & Hd)]; [left; lia|right].
      destruct (decide (i = j)) as [<-|Hij].
      * exists i, c'. rewrite lookup_insert_eq. split; [done|]. simplify_eq. by apply Hh.
      * exists j, d. by rewrite lookup_insert_ne.
    + destruct (decide (t = connections_total_ s + 1)) as [->|Hne].
      { right. exists i. eexists. rewrite lookup_insert_eq. by split. }
      destruct (Hcov t) as [?|(j & d & Hj & Hd)]; [lia|left; lia|right].
      destruct (decide (i = j)) as [<-|Hij]; [by simplify_eq|].
      exists j, d. by rewrite lookup_insert_ne.
  - intros j d. destruct (decide (i = j)) as [<-|Hij].
    + rewrite lookup_insert_eq. by intros [= <-].
    + rewrite lookup_insert_ne by done. intros Hj. specialize (Hc j d Hj). destruct d; lia.
Qed.

(** A call that returns has brought the peak up to its total. *)
Lemma wf_return n s i c peak :
  wf n s -> calls s !! i = Some c -> c <> Counted ->
  connections_peak_ s <= peak <= connections_total_ s -> (forall t, holds c t -> t <= peak) ->
  wf n (set_conn (connections_alive_ s) (connections_total_ s) peak (delete i (calls s)) s).
Proof.
  intros [Ht H0 Hp Hcov Hc] Hi Hne Hpk Hh.
  pose proof (counting_del _ i c Hi) as Hn. rewrite decide_False in Hn by done.
  split; simpl; [lia..| |].
  - intros t Hr. destruct (Hcov t Hr) as [?|(j & d & Hj & Hd)]; [left; lia|].
    destruct (decide (i = j)) as [<-|Hij].
    + left. simplify_eq. by apply Hh.
    + right. exists j, d. by rewrite lookup_delete_ne.
  - intros j d (Hij & Hj)%lookup_delete_Some. specialize (Hc j d Hj). destruct d; lia.
Qed.

Lemma wf_next_call n s i spurious :
  wf n s -> n < 2 ^ 31 -> wf n (on_connect_next i spurious s).
Proof.
  intros Hwf Hmax. pose proof Hwf as [Ht H0 Hp Hcov Hc]. unfold on_connect_next.
  destruct (calls s !! i) as [[|t|t p]|] eqn:Hi; [| | |done].
  - pose proof (counting_del _ i Counted Hi) as Hn. rewrite decide_True in Hn by done.
    rewrite i32_small by lia. eapply wf_move; [done|done|done|lia|right; by split_and!|simpl; lia].
  - pose proof (Hc _ _ Hi) as Ht'. simpl in Ht'. eapply wf_move; [done|done|done|lia|left; by split_and!|simpl; lia].
  - pose proof (Hc _ _ Hi) as [? ?]. destruct (Z.ltb_spec p t).
    + case_match.
      * rewrite andb_true_iff, Z.eqb_eq in *. eapply wf_return; [done|done|done|lia|].
        intros t' ->. lia.
      * eapply wf_move; [done|done|done|lia|left; by split_and!|simpl; lia].
    + eapply wf_return; [done|done|done|lia|]. intros t' ->. lia.
Qed.

Lemma wf_begin n s i :
  wf n s ->
  wf (match calls s !! i with Some _ => n | None => n + 1 end) (on_connect_begin i s).
Proof.
  intros Hwf. pose proof Hwf as [Ht H0 Hp Hcov Hc]. unfold on_connect_begin.
  destruct (calls s !! i) eqn:Hi; [done|]. split; simpl.
  - rewrite counting_new, decide_True by done. lia.
  - lia.
  - lia.
  - intros t Hr. destruct (Hcov t Hr) as [?|(j & d & Hj & Hd)]; [by left|right].
    exists j, d. rewrite lookup_insert_ne; [done|]. intros ->. congruence.
  - intros j d. destruct (decide (i = j)) as [<-|Hij].
    + rewrite lookup_insert_eq. by intros [= <-].
    + rewrite lookup_insert_ne by done. apply Hc.
Qed.

Lemma begun_mono o ops : begun ops <= begun (o :: ops).
Proof. destruct o; simpl; try lia. case_match; lia. Qed.

Lemma run_monitor_wf ops : begun ops < 2 ^ 31 -> wf (begun ops) (run_monitor ops).
Proof.
  induction ops as [|o ops IH]; intros Hmax.
  { split; simpl; try done. intros t Ht. lia. }
  pose proof (begun_mono o ops) as Hle. specialize (IH ltac:(lia)).
  destruct o as [i|i sp| |len|a t|b|b| |[r|]]; simpl in *;
    [by apply wf_begin|by apply wf_next_call|..]; try exact IH; by destruct IH.
Qed.

Lemma run_monitor_alive ops :
  connections_alive_ (run_monitor ops) = i32 (begun ops - ended ops).
Proof.
  assert (forall a b, i32 (i32 a + b) = i32 (a + b)) as Hi.
  { intros a b. unfold i32. f_equal.
    replace ((a + 2 ^ 31) mod 2 ^ 32 - 2 ^ 31 + b + 2 ^ 31) with ((a + 2 ^ 31) mod 2 ^ 32 + b) by lia.
    rewrite Zplus_mod_idemp_l. f_equal. lia. }
  induction ops as [|o ops IH]; [done|].
  destruct o as [i|i sp| |len|a t|b|b| |[r|]]; simpl; try exact IH.
  - unfold on_connect_begin. destruct (calls (run_monitor ops) !! i); [done|].
    simpl. rewrite IH, Hi. f_equal. lia.
  - unfold on_connect_next. destruct (calls (run_monitor ops) !! i) as [[|t|t p]|]; try done.
    by repeat case_match.
  - rewrite IH. replace (i32 (begun ops - ended ops) - 1) with (i32 (begun ops - ended ops) + -1) by lia.
    rewrite Hi. f_equal. lia.
Qed.

(** The calls under way touch the connection counters only. *)
Lemma run_monitor_msgs ops :
  let s := run_monitor ops in
  msgs_sent_ s = u64 (zlen (omap sent_of ops)) /\ bytes_sent_ s = u64 (sum (omap sent_of ops)) /\
  msgs_recv_ s = u64 (zlen (omap recv_of ops)) /\ bytes_recv_ s = u64 (sum (omap recv_of ops)) /\
  msgs_error_ s = u64 (zlen (omap errors_of ops)) /\
  memory_peak_rss_kb_ s = max_of (omap rss_of ops).
Proof.
  assert (forall a b, u64 (u64 a + b) = u64 (a + b)) as Hu
    by (intros; unfold u64; by rewrite Zplus_mod_idemp_l).
  assert (forall (r : Monitor) b x, (if b =? 0 then u64 x else u64 (u64 x + b)) = u64 (b + x)) as Hb.
  { intros _ b x. destruct (Z.eqb_spec b 0) as [->|]; [done|]. rewrite Hu. f_equal. lia. }
  induction ops as [|o ops IH]; [done|]. cbn zeta in *.
  destruct IH as (H1 & H2 & H3 & H4 & H5 & H6).
  destruct o as [i|i sp| |len|a t|b|b| |[r|]]; simpl;
    repeat match goal with |- context [list_omap _ _ ?f ?l] => change (list_omap _ _ f l) with (omap f l) end;
    try (by split_and!).
  - unfold on_connect_begin. by case_match.
  - unfold on_connect_next. by repeat case_match.
  - rewrite zlen_cons. split_and!; try done; [rewrite H1, Hu; f_equal; lia|by rewrite H2, (Hb Monitor0)].
  - rewrite zlen_cons. split_and!; try done; [rewrite H3, Hu; f_equal; lia|by rewrite H4, (Hb Monitor0)].
  - rewrite zlen_cons. split_and!; try done. rewrite H5, Hu. f_equal. lia.
  - split_and!; try done. rewrite H6. destruct (Z.ltb_spec (max_of (omap rss_of ops)) r); lia.
Qed.

(** C32: However the calls of [on_connect] interleave and whichever exchanges fail,
    when none is under way and fewer than [2^31] connections began, a snapshot shows as
    total the connections ever begun, as alive those minus the ends reported, and as
    peak the total, not the greatest number alive; the message and byte counters are
    the sums modulo [2^64] and the memory peak is the greatest value refreshed. *)
Theorem monitor_snapshot tick ops :
  let st := snapshot tick (run_monitor ops) in
  (calls (run_monitor ops) = ∅ -> begun ops < 2 ^ 31 ->
     connections_total st = begun ops /\ connections_peak st = begun ops) /\
  connections_alive st = i32 (begun ops - ended ops) /\
  msgs_sent st = u64 (zlen (omap sent_of ops)) /\ bytes_sent st = u64 (sum (omap sent_of ops)) /\
  msgs_recv st = u64 (zlen (omap recv_of ops)) /\ bytes_recv st = u64 (sum (omap recv_of ops)) /\
  msgs_error st = u64 (zlen (omap errors_of ops)) /\
  memory_peak_rss_kb st = max_of (omap rss_of ops) /\ total_logs st = 0.
Proof.
  cbn zeta. pose proof (run_monitor_msgs ops) as Hm. cbn zeta in Hm.
  split; [|split; [apply run_monitor_alive|simpl; tauto]].
  intros He Hmax. destruct (run_monitor_wf ops Hmax) as [Ht H0 Hp Hcov _]. simpl.
  rewrite He in Ht, Hcov. change (counting ∅) with 0%nat in Ht. split; [lia|].
  destruct (decide (connections_total_ (run_monitor ops) = 0)) as [Hz|Hz]; [lia|].
  destruct (Hcov (connections_total_ (run_monitor ops))) as [?|(i & c & Hi & _)]; [lia|lia|].
  by rewrite lookup_empty in Hi.
Qed.

(** Two connections one after the other: one alive, a peak of two. *)
Example monitor_peak :
  let st := snapshot 0 (run_monitor (rev
    [ConnectBegin 1; ConnectNext 1 false; ConnectNext 1 false; ConnectNext 1 true; ConnectNext 1 false;
     Disconnect;
     ConnectBegin 2; ConnectNext 2 false; ConnectNext 2 false; ConnectNext 2 false])) in
  connections_alive st = 1 /\ connections_peak st = 2.
Proof. vm_compute. done. Qed.
