(* ===== verification/MonitorThreads.v ===== *)
(** * The threads of the monitor (core/monitor/monitor.cpp)

    [start_logging] and [start_http_server] each start a thread that does its work now and
    then while a flag is set; [stop_logging] and [stop_http_server] clear the flag and wait
    for the thread.  Both pairs are the same code with different members and work, modelled
    once: the calls are cut at their accesses of the flag and of the [std::thread]. *)

From S2P Require Import Prelude Monitor.

Open Scope Z_scope.

(** ** A flag, a thread and the calls around them *)

Section service.
(** What a turn of the thread does; [I] is what it reads from outside. *)
Context {W I : Type} (work : I -> W -> W).

(** Where a thread is in its loop: the test of [while], the sleep, the test after it, the
    work; or at its end. *)
Inductive turn := AtTest | AtSleep | AtCheck | AtWork | Ended.

#[global] Instance turn_eq_dec : EqDecision turn.
Proof. solve_decision. Defined.

(** Where a call of the start or the stop function is. *)
Inductive caller := StartTest | StartStore | StartSpawn | StopTest | StopStore | StopJoin.

(** The members, with the threads ever started; [handle] is the number of the one the
    [std::thread] stands for, while it is joinable.  [terminated]: the process has ended. *)
Record Service := {
  flag : bool;
  handle : option nat;
  turns : list turn;
  callers : gmap nat caller;
  world : W;
  terminated : bool;
}.

Definition Service0 (w : W) : Service :=
  {| flag := false; handle := None; turns := []; callers := ∅; world := w; terminated := false |}.

Definition set_flag (f : bool) (s : Service) : Service :=
  {| flag := f; handle := handle s; turns := turns s; callers := callers s; world := world s;
     terminated := terminated s |}.
Definition set_handle (h : option nat) (ts : list turn) (s : Service) : Service :=
  {| flag := flag s; handle := h; turns := ts; callers := callers s; world := world s;
     terminated := terminated s |}.
Definition set_callers (cs : gmap nat caller) (s : Service) : Service :=
  {| flag := flag s; handle := handle s; turns := turns s; callers := cs; world := world s;
     terminated := terminated s |}.
Definition set_world (w : W) (s : Service) : Service :=
  {| flag := flag s; handle := handle s; turns := turns s; callers := callers s; world := w;
     terminated := terminated s |}.
Definition terminate (s : Service) : Service :=
  {| flag := flag s; handle := handle s; turns := turns s; callers := callers s; world := world s;
     terminated := true |}.

(** A call begins; [k] names it.  With [alone] a call is only made when no other runs. *)
Definition call_begin (alone : bool) (c : caller) (k : nat) (s : Service) : Service :=
  if bool_decide (is_Some (callers s !! k)) || alone && negb (bool_decide (callers s = ∅)) then s
  else set_callers (<[k := c]> (callers s)) s.

(** The next step of a call.  Assigning to a [std::thread] that is joinable calls
    [std::terminate]; [join] waits for the end of the thread. *)
Definition call_next (k : nat) (s : Service) : Service :=
  match callers s !! k with
  | None => s
  | Some StartTest =>
      set_callers (if flag s then delete k (callers s) else <[k := StartStore]> (callers s)) s
  | Some StartStore => set_flag true (set_callers (<[k := StartSpawn]> (callers s)) s)
  | Some StartSpawn =>
      match handle s with
      | Some _ => terminate s
      | None =>
          set_handle (Some (length (turns s))) (turns s ++ [AtTest])
            (set_callers (delete k (callers s)) s)
      end
  | Some StopTest =>
      set_callers (if flag s then <[k := StopStore]> (callers s) else delete k (callers s)) s
  | Some StopStore => set_flag false (set_callers (<[k := StopJoin]> (callers s)) s)
  | Some StopJoin =>
      match handle s with
      | None => set_callers (delete k (callers s)) s
      | Some i =>
          if decide (turns s !! i = Some Ended)
          then set_handle None (turns s) (set_callers (delete k (callers s)) s) else s
      end
  end.

(** The next step of a thread. *)
Definition turn_next (i : nat) (x : I) (s : Service) : Service :=
  match turns s !! i with
  | Some AtTest =>
      set_handle (handle s) (<[i := if flag s then AtSleep else Ended]> (turns s)) s
  | Some AtSleep => set_handle (handle s) (<[i := AtCheck]> (turns s)) s
  | Some AtCheck =>
      set_handle (handle s) (<[i := if flag s then AtWork else Ended]> (turns s)) s
  | Some AtWork => set_world (work x (world s)) (set_handle (handle s) (<[i := AtTest]> (turns s)) s)
  | _ => s
  end.

Inductive service_op :=
| StartCall (k : nat)
| StopCall (k : nat)
| CallNext (k : nat)
| TurnNext (i : nat) (x : I)
| Outside (f : W -> W).

Definition service_step (alone : bool) (o : service_op) (s : Service) : Service :=
  if terminated s then s
  else
    match o with
    | StartCall k => call_begin alone StartTest k s
    | StopCall k => call_begin alone StopTest k s
    | CallNext k => call_next k s
    | TurnNext i x => turn_next i x s
    | Outside f => set_world (f (world s)) s
    end.

Definition run_service (alone : bool) (ops : list service_op) (s : Service) : Service :=
  foldl (fun s o => service_step alone o s) s ops.

(** ** One caller at a time *)

(** The threads that have not ended: none, or the one of the handle. *)
Definition stopped (s : Service) : Prop := handle s = None /\ Forall (fun t => t = Ended) (turns s).
Definition only (live : bool) (s : Service) : Prop :=
  exists i, handle s = Some i /\ (i < length (turns s))%nat /\
    (forall j t, turns s !! j = Some t -> j <> i -> t = Ended) /\
    (live = true -> turns s !! i <> Some Ended).

Definition settled (s : Service) : Prop := if flag s then only true s else stopped s.

(** What holds at each place of the call that runs. *)
Definition place (c : caller) (s : Service) : Prop :=
  match c with
  | StartTest | StopTest => settled s
  | StartStore => flag s = false /\ stopped s
  | StartSpawn => flag s = true /\ stopped s
  | StopStore => flag s = true /\ only true s
  | StopJoin => flag s = false /\ only false s
  end.

Record orderly (s : Service) : Prop := {
  or_alive : terminated s = false;
  or_calls : callers s = ∅ /\ settled s \/ exists k c, callers s = {[k := c]} /\ place c s;
}.

(** These only look at the flag, the handle and the threads. *)
Lemma settled_callers cs s : settled (set_callers cs s) <-> settled s.
Proof. done. Qed.

Lemma call_next_orderly k s : orderly s -> orderly (call_next k s).
Proof.
  intros [Ht Hc]. unfold call_next. destruct Hc as [[Hc Hs]|(k0 & c & Hc & Hp)].
  { rewrite Hc, lookup_empty. split; [done|by left]. }
  rewrite Hc. destruct (decide (k0 = k)) as [->|Hne].
  2: { rewrite lookup_singleton_ne by done. split; [done|]. right. by exists k0, c. }
  rewrite lookup_singleton_eq.
  assert (forall c', <[k := c']> ({[k := c]} : gmap nat caller) = {[k := c']}) as Hins
    by (intros c'; apply insert_singleton_eq).
  assert (delete k ({[k := c]} : gmap nat caller) = ∅) as Hdel by apply delete_singleton_eq.
  destruct c; cbn [place] in Hp; unfold settled in Hp.
  - destruct (flag s) eqn:Hf; (split; [done|]).
    + left. split; [exact Hdel|]. unfold settled. cbn. by rewrite Hf.
    + right. exists k, StartStore. split; [apply Hins|done].
  - split; [done|]. right. exists k, StartSpawn. split; [apply Hins|]. by destruct Hp.
  - destruct Hp as [Hf [Hh Hall]]. rewrite Hh. split; [done|]. left. split; [exact Hdel|].
    unfold settled. cbn. rewrite Hf. exists (length (turns s)). cbn. rewrite length_app. cbn.
    split_and!; [done|lia| |].
    + intros j t [Hj|[Hj _]]%lookup_snoc_Some Hne; [|done]. rewrite Forall_lookup in Hall.
      by eapply Hall; destruct Hj.
    + intros _. by rewrite list_lookup_middle.
  - destruct (flag s) eqn:Hf; (split; [done|]).
    + right. exists k, StopStore. split; [apply Hins|done].
    + left. split; [exact Hdel|]. unfold settled. cbn. by rewrite Hf.
  - split; [done|]. right. exists k, StopJoin. split; [apply Hins|]. split; [done|].
    destruct Hp as [_ (i & H1 & H2 & H3 & _)]. by exists i.
  - destruct Hp as [Hf (i & Hh & Hi & Hj & _)]. rewrite Hh. case_decide as He.
    + split; [done|]. left. split; [exact Hdel|]. unfold settled. cbn. rewrite Hf. split; [done|].
      apply Forall_lookup. intros j t Hjt. cbn in Hjt. destruct (decide (j = i)) as [->|]; [congruence|by eapply Hj].
    + split; [done|]. right. exists k, StopJoin. split; [done|]. split; [done|]. by exists i.
Qed.

Lemma turn_next_stopped i x s : stopped s -> turn_next i x s = s.
Proof.
  intros [_ Hall]. unfold turn_next. destruct (turns s !! i) as [t|] eqn:E; [|done].
  rewrite Forall_lookup in Hall. by rewrite (Hall _ _ E).
Qed.

Lemma turn_next_frame i x s :
  flag (turn_next i x s) = flag s /\ handle (turn_next i x s) = handle s /\
  callers (turn_next i x s) = callers s /\ terminated (turn_next i x s) = terminated s.
Proof. unfold turn_next. destruct (turns s !! i) as [[]|]; done. Qed.

Lemma turn_next_only live i x s :
  (live = true -> flag s = true) -> only live s -> only live (turn_next i x s).
Proof.
  intros Hf (h & Hh & Hlen & Hj & Hl).
  assert (forall t w, turns s !! i <> None -> turns s !! i <> Some Ended ->
    (live = true -> t <> Ended) ->
    only live (set_world w (set_handle (handle s) (<[i := t]> (turns s)) s))) as Hset.
  { intros t w Hi He Hlt. exists h. cbn. rewrite length_insert. split_and!; [done|done| |].
    - intros j t' Hjt Hne. apply list_lookup_insert_Some in Hjt as [(<- & -> & _)|[_ Hjt]]; [|by eapply Hj].
      destruct (turns s !! i) as [t0|] eqn:E; [|done]. destruct He. f_equal. by eapply Hj.
    - intros Hlv. destruct (decide (i = h)) as [->|Hne].
      + rewrite list_lookup_insert_eq by done. intros [=]. by apply Hlt.
      + rewrite list_lookup_insert_ne by done. by apply Hl. }
  unfold turn_next. destruct (turns s !! i) as [[]|] eqn:E; try (by exists h);
    apply (Hset _ (world s)) || apply Hset; try done; intros Hlv; by rewrite Hf.
Qed.

Lemma turn_next_orderly i x s : orderly s -> orderly (turn_next i x s).
Proof.
  intros [Ht Hc]. destruct (turn_next_frame i x s) as (Ef & Eh & Ec & Et). split; [by rewrite Et|].
  rewrite Ec. assert (forall live, (live = true -> flag s = true) -> only live s ->
    only live (turn_next i x s)) as Hon by (intros; by apply turn_next_only).
  assert (settled s -> settled (turn_next i x s)) as Hset.
  { unfold settled. rewrite Ef. destruct (flag s) eqn:E; [by apply Hon|].
    intros Hs. by rewrite turn_next_stopped. }
  destruct Hc as [[Hc Hs]|(k & c & Hc & Hp)]; [left; by auto|right]. exists k, c. split; [done|].
  destruct c; cbn [place] in *; rewrite ?Ef; try by auto.
  - destruct Hp as [? ?]. by rewrite turn_next_stopped.
  - destruct Hp as [? ?]. by rewrite turn_next_stopped.
  - destruct Hp as [? ?]. split; [done|by apply Hon].
  - destruct Hp as [? ?]. split; [done|by apply Hon].
Qed.

Lemma service_step_orderly o s : orderly s -> orderly (service_step true o s).
Proof.
  intros Ho. unfold service_step. rewrite (or_alive _ Ho).
  assert (forall c k, c = StartTest \/ c = StopTest -> orderly (call_begin true c k s)) as Hbegin.
  { intros c k Hp. unfold call_begin. case_bool_decide as Hk; [done|]. case_bool_decide as He; [|done].
    cbn. destruct Ho as [Ht [[Hc Hs]|(k0 & c0 & Hc & _)]].
    - split; [done|]. right. exists k, c. cbn. split; [by rewrite Hc, insert_empty|].
      by destruct Hp as [-> | ->].
    - rewrite Hc in He. by apply map_non_empty_singleton in He. }
  destruct o as [k|k|k|i x|f].
  - apply Hbegin. by left.
  - apply Hbegin. by right.
  - by apply call_next_orderly.
  - by apply turn_next_orderly.
  - by destruct Ho.
Qed.

Lemma run_service_orderly ops w : orderly (run_service true ops (Service0 w)).
Proof.
  assert (orderly (Service0 w)) as H0 by (split; [done|left; by repeat split]).
  revert H0. generalize (Service0 w). induction ops as [|o ops IH]; intros s Hs; [done|].
  apply IH. by apply service_step_orderly.
Qed.

(** A turn while the flag is set, and the end of a thread once it is not. *)
Lemma turn_works i x1 x2 x3 x4 s :
  flag s = true -> turns s !! i = Some AtTest ->
  world (turn_next i x4 (turn_next i x3 (turn_next i x2 (turn_next i x1 s)))) = work x4 (world s) /\
  turns (turn_next i x4 (turn_next i x3 (turn_next i x2 (turn_next i x1 s)))) = turns s.
Proof.
  intros Hf Hi. assert (i < length (turns s))%nat as Hlt by by eapply lookup_lt_Some.
  assert (forall t : turn, <[i := t]> (turns s) !! i = Some t) as Hl
    by (intros t; by apply list_lookup_insert_eq).
  assert (turn_next i x1 s = set_handle (handle s) (<[i := AtSleep]> (turns s)) s) as ->
    by (unfold turn_next; by rewrite Hi, Hf).
  assert (forall t t' x, t = AtSleep /\ t' = AtCheck \/ t = AtCheck /\ t' = AtWork ->
    turn_next i x (set_handle (handle s) (<[i := t]> (turns s)) s) =
    set_handle (handle s) (<[i := t']> (turns s)) s) as Hn.
  { intros t t' x [[-> ->]|[-> ->]]; unfold turn_next; cbn; rewrite Hl, ?Hf;
      unfold set_handle; cbn; by rewrite list_insert_insert_eq. }
  rewrite (Hn AtSleep AtCheck), (Hn AtCheck AtWork) by auto.
  unfold turn_next. cbn. rewrite Hl. cbn. by rewrite list_insert_insert_eq, list_insert_id.
Qed.

Lemma turn_ends i x1 x2 s t :
  flag s = false -> turns s !! i = Some t -> turns (turn_next i x2 (turn_next i x1 s)) !! i = Some Ended.
Proof.
  intros Hf Hi. assert (i < length (turns s))%nat as Hlt by by eapply lookup_lt_Some.
  assert (forall t : turn, <[i := t]> (turns s) !! i = Some t) as Hl
    by (intros t'; by apply list_lookup_insert_eq).
  unfold turn_next at 2. rewrite Hi. destruct t; rewrite ?Hf; unfold turn_next; cbn;
    rewrite ?Hl, ?Hi; cbn; rewrite ?Hf, ?list_insert_insert_eq, ?Hl; done.
Qed.

Lemma join_returns i k s :
  callers s = {[k := StopJoin]} -> handle s = Some i -> turns s !! i = Some Ended ->
  callers (call_next k s) = ∅ /\ handle (call_next k s) = None.
Proof.
  intros Hk Hh He. unfold call_next. rewrite Hk, lookup_singleton_eq, Hh, decide_True by done.
  split; [|done]. apply delete_singleton_eq.
Qed.

(** The call that runs is the only one. *)
Lemma orderly_quiet s : orderly s -> callers s = ∅ -> settled s.
Proof.
  intros [_ [[_ Hs]|(k & c & Hk & _)]] He; [done|]. rewrite He in Hk.
  by apply symmetry, map_non_empty_singleton in Hk.
Qed.

Lemma orderly_place k c s : orderly s -> callers s = {[k := c]} -> place c s.
Proof.
  intros [_ [[He _]|(k0 & c0 & Hk0 & Hp)]] Hk; rewrite Hk in *.
  - by apply map_non_empty_singleton in He.
  - assert (({[k0 := c0]} : gmap nat caller) !! k = Some c) as Hl
      by (rewrite <-Hk0; apply lookup_singleton_eq).
    by apply lookup_singleton_Some in Hl as [_ ->].
Qed.
End service.

Arguments Service W : clear implicits.
Arguments service_op W I : clear implicits.

(** ** Logging *)

(** [refresh], [snapshot] and the line that is logged, of which the numbers are kept; [x] is
    what [getrusage] and [get_tick_ms] return. *)
Definition log_work (x : option Z * Z) (w : Monitor * list MonitorStats)
    : Monitor * list MonitorStats :=
  let m := Monitor.refresh x.1 w.1 in (m, w.2 ++ [Monitor.snapshot x.2 m]).

Definition LogThread : Type := Service (Monitor * list MonitorStats).
Definition LogThread0 : LogThread := Service0 (Monitor0, []).

Definition log_op : Type := service_op (Monitor * list MonitorStats) (option Z * Z).
Definition run_logging (alone : bool) (ops : list log_op) : LogThread :=
  run_service log_work alone ops LogThread0.

(** The counters move while the threads run. *)
Definition counters (o : monitor_op) : log_op := Outside (fun w => (run_monitor_op o w.1, w.2)).

(** The other pair of functions has no work to do. *)
Definition http_work (x : unit) (w : unit) : unit := w.

(** C31: [start_logging] and [stop_logging], with the counters moving all the time.  As long as
    the calls come one at a time there is never more than one thread: one after a start,
    none after a stop has returned, when nothing is logged any more.  While the flag is set,
    each turn of the thread logs one snapshot, taken right after the memory was refreshed.
    A stop returns once the thread has seen the flag, at its second step at the latest, but
    that is after its sleep: not before.  Two starts at the same time can both pass the test
    of the flag: the second assignment to the [std::thread] ends the process. *)
Theorem monitor_logging (ops : list log_op) :
  let s := run_logging true ops in
  terminated s = false /\
  (callers s = ∅ -> flag s = true ->
     exists i t, handle s = Some i /\ turns s !! i = Some t /\ t <> Ended /\
       forall j u, turns s !! j = Some u -> j <> i -> u = Ended) /\
  (callers s = ∅ -> flag s = false ->
     handle s = None /\ forall i x, turn_next log_work i x s = s) /\
  (forall i x1 x2 x3 x4, flag s = true -> turns s !! i = Some AtTest ->
     let s' := turn_next log_work i x4 (turn_next log_work i x3
                 (turn_next log_work i x2 (turn_next log_work i x1 s))) in
     turns s' = turns s /\
     (world s').2 = (world s).2 ++ [Monitor.snapshot x4.2 (Monitor.refresh x4.1 (world s).1)]) /\
  (forall k, callers s = {[k := StopJoin]} ->
     exists i t, handle s = Some i /\ turns s !! i = Some t /\
       (t <> Ended -> call_next k s = s) /\
       forall x1 x2, let s' := turn_next log_work i x2 (turn_next log_work i x1 s) in
         callers (call_next k s') = ∅ /\ handle (call_next k s') = None) /\
  terminated (run_logging false [StartCall 1; StartCall 2; CallNext 1; CallNext 2; CallNext 1;
    CallNext 2; CallNext 1; CallNext 2]) = true.
Proof.
  cbv zeta. assert (orderly (run_logging true ops)) as Hor by apply run_service_orderly.
  generalize dependent (run_logging true ops). intros s Hor. split_and!; [apply Hor|..].
  - intros He Hf. pose proof (orderly_quiet _ Hor He) as Hs. unfold settled in Hs. rewrite Hf in Hs.
    destruct Hs as (i & Hh & Hlt & Hj & Hl).
    apply lookup_lt_is_Some in Hlt as [t Hi]. exists i, t. split_and!; [done|done| |done].
    intros ->. by apply Hl.
  - intros He Hf. pose proof (orderly_quiet _ Hor He) as Hs. unfold settled in Hs. rewrite Hf in Hs.
    split; [apply Hs|]. intros i x. by apply turn_next_stopped.
  - intros i x1 x2 x3 x4 Hf Hi. destruct (turn_works log_work i x1 x2 x3 x4 s Hf Hi) as [-> ->]. done.
  - intros k Hk. destruct (orderly_place _ _ _ Hor Hk) as [Hf (i & Hh & Hlt & Hj & _)].
    apply lookup_lt_is_Some in Hlt as [t Hi]. exists i, t. split_and!; [done|done| |].
    + intros Hne. unfold call_next. rewrite Hk, lookup_singleton_eq, Hh.
      rewrite decide_False; [done|congruence].
    + intros x1 x2. pose proof (turn_ends log_work i x1 x2 s t Hf Hi) as He.
      destruct (turn_next_frame log_work i x1 s) as (_ & Eh & Ec & _).
      destruct (turn_next_frame log_work i x2 (turn_next log_work i x1 s)) as (_ & Eh' & Ec' & _).
      apply (join_returns i); [by rewrite Ec', Ec|by rewrite Eh', Eh|done].
  - vm_compute. reflexivity.
Qed.
