(* ===== verification/Logger.v ===== *)
(** * Logger (base/logger/logger.h, logger.cpp)

    The bounded queue between the callers and the log thread, the two level filters
    and the outputs.  Each step is one critical section of [queue_mtx_], one access of
    an atomic member or the handling of one entry by the log thread.  [localtime] with
    [strftime], [isatty] and the success of opening a file are parameters. *)

From S2P Require Import Prelude.
From stdpp Require Import pretty.

Inductive LogLevel := TRACE | DEBUG | INFO | WARN | ERROR | FATAL | NONE.

Definition level_num (l : LogLevel) : nat :=
  match l with
  | TRACE => 0 | DEBUG => 1 | INFO => 2 | WARN => 3 | ERROR => 4 | FATAL => 5 | NONE => 6
  end.

Open Scope string_scope.

Definition log_level_str (l : LogLevel) : string :=
  match l with
  | TRACE => "TRACE" | DEBUG => "DEBUG" | INFO => "INFO " | WARN => "WARN "
  | ERROR => "ERROR" | FATAL => "FATAL" | NONE => "UNKN "
  end.

Record LogEntry := {
  timestamp_ms : Z;
  level : LogLevel;
  thread_id : Z;
  tag : string;
  message : string;
}.

Record LogFormatter := {
  show_timestamp : bool;
  show_thread_id : bool;
  show_level : bool;
  show_tag : bool;
  colorful : bool;
  time_format : string;
}.
Definition LogFormatter0 : LogFormatter :=
  {| show_timestamp := true; show_thread_id := true; show_level := true; show_tag := true;
     colorful := true; time_format := "%Y-%m-%d %H:%M:%S" |}.

Record LogSink := {
  path : string;
  filename_prefix : string;
  max_file_size_mb : Z;
  max_history_days : Z;
  compress : bool;
  async : bool;
}.
Definition LogSink0 : LogSink :=
  {| path := ""; filename_prefix := ""; max_file_size_mb := 200; max_history_days := 7;
     compress := true; async := true |}.

(** Where the log thread is: not started or joined; before the test of [running_];
    past it, at the wait; handling a batch of some size; out of its loop. *)
Inductive log_thread :=
| NoThread
| AtTest
| AtWait
| Handling (todo : list LogEntry) (size : nat)
| Finished.

(** The members, and the outputs: the console lines with their stream ([true] for
    [stderr]), the lines appended to files. *)
Record Logger := {
  fmt_ : LogFormatter;
  sinks_ : list LogSink;
  console_level_ : LogLevel;
  file_level_ : LogLevel;
  running_ : bool;
  log_thread_ : log_thread;
  queue_ : list LogEntry;
  today_yday_ : Z;
  current_log_path_ : string;
  hook_ : option (LogEntry -> LogEntry);
  dropped_ : nat;
  total_logged_ : nat;
  console : list (bool * string);
  files : list (string * string);
}.

Definition queue_max_ : nat := Z.to_nat 8192.
(** The characters [vsnprintf] can put into the buffer of [vformat_to]. *)
Definition buf_max : nat := Z.to_nat 8191.
#[global] Opaque queue_max_ buf_max.

Definition Logger0 : Logger :=
  {| fmt_ := LogFormatter0; sinks_ := []; console_level_ := INFO; file_level_ := DEBUG;
     running_ := false; log_thread_ := NoThread; queue_ := []; today_yday_ := -1;
     current_log_path_ := ""; hook_ := None; dropped_ := 0; total_logged_ := 0; console := [];
     files := [] |}.

Definition set_levels (c f : LogLevel) (s : Logger) : Logger :=
  {| fmt_ := fmt_ s; sinks_ := sinks_ s; console_level_ := c; file_level_ := f;
     running_ := running_ s; log_thread_ := log_thread_ s; queue_ := queue_ s;
     today_yday_ := today_yday_ s; current_log_path_ := current_log_path_ s; hook_ := hook_ s;
     dropped_ := dropped_ s; total_logged_ := total_logged_ s; console := console s; files := files s |}.
Definition set_hook (h : option (LogEntry -> LogEntry)) (s : Logger) : Logger :=
  {| fmt_ := fmt_ s; sinks_ := sinks_ s; console_level_ := console_level_ s;
     file_level_ := file_level_ s; running_ := running_ s; log_thread_ := log_thread_ s;
     queue_ := queue_ s; today_yday_ := today_yday_ s; current_log_path_ := current_log_path_ s;
     hook_ := h; dropped_ := dropped_ s; total_logged_ := total_logged_ s; console := console s;
     files := files s |}.
Definition set_thread (run : bool) (t : log_thread) (s : Logger) : Logger :=
  {| fmt_ := fmt_ s; sinks_ := sinks_ s; console_level_ := console_level_ s;
     file_level_ := file_level_ s; running_ := run; log_thread_ := t; queue_ := queue_ s;
     today_yday_ := today_yday_ s; current_log_path_ := current_log_path_ s; hook_ := hook_ s;
     dropped_ := dropped_ s; total_logged_ := total_logged_ s; console := console s; files := files s |}.
Definition set_queue (q : list LogEntry) (dropped : nat) (s : Logger) : Logger :=
  {| fmt_ := fmt_ s; sinks_ := sinks_ s; console_level_ := console_level_ s;
     file_level_ := file_level_ s; running_ := running_ s; log_thread_ := log_thread_ s;
     queue_ := q; today_yday_ := today_yday_ s; current_log_path_ := current_log_path_ s;
     hook_ := hook_ s; dropped_ := dropped; total_logged_ := total_logged_ s; console := console s;
     files := files s |}.
Definition set_output (total : nat) (c : list (bool * string)) (f : list (string * string))
    (s : Logger) : Logger :=
  {| fmt_ := fmt_ s; sinks_ := sinks_ s; console_level_ := console_level_ s;
     file_level_ := file_level_ s; running_ := running_ s; log_thread_ := log_thread_ s;
     queue_ := queue_ s; today_yday_ := today_yday_ s; current_log_path_ := current_log_path_ s;
     hook_ := hook_ s; dropped_ := dropped_ s; total_logged_ := total; console := c; files := f |}.

Definition set_console_level (l : LogLevel) (s : Logger) : Logger := set_levels l (file_level_ s) s.
Definition set_file_level (l : LogLevel) (s : Logger) : Logger := set_levels (console_level_ s) l s.
Definition set_level (l : LogLevel) (s : Logger) : Logger := set_levels l l s.

(** [init]; [yday] is today's [tm_yday].  Assigning to a thread that was not joined
    ends the program: [None]. *)
Definition init (sinks : list LogSink) (c f : LogLevel) (fmt : LogFormatter) (yday : Z) (s : Logger)
    : option Logger :=
  match log_thread_ s with
  | NoThread =>
      Some {| fmt_ := fmt; sinks_ := sinks; console_level_ := c; file_level_ := f;
              running_ := true; log_thread_ := AtTest; queue_ := queue_ s; today_yday_ := yday;
              current_log_path_ := current_log_path_ s; hook_ := hook_ s; dropped_ := dropped_ s;
              total_logged_ := total_logged_ s; console := console s; files := files s |}
  | _ => None
  end.
Definition init_dir (log_dir prefix : string) (c f : LogLevel) (yday : Z) (s : Logger) : option Logger :=
  init [{| path := log_dir; filename_prefix := prefix; max_file_size_mb := 200;
           max_history_days := 7; compress := true; async := true |}] c f LogFormatter0 yday s.

(** ** Writing *)

(** [vformat_to]: what [vsnprintf] puts into 8192 bytes, up to the first NUL. *)
Fixpoint until_nul (s : string) : string :=
  match s with
  | EmptyString => EmptyString
  | String c s' => if Ascii.eqb c Ascii.zero then EmptyString else String c (until_nul s')
  end.
Definition vformat_to (text : string) : string := until_nul (String.substring 0 buf_max text).

Definition enqueue (e : LogEntry) (s : Logger) : Logger :=
  if (queue_max_ <=? length (queue_ s))%nat
  then set_queue (queue_ s) (S (dropped_ s)) s
  else set_queue (queue_ s ++ [e]) (dropped_ s) s.

(** [write] up to the queue: the entry, when a level lets it through. *)
Definition entry_of (lvl : LogLevel) (tag msg : string) (tick tid : Z) (s : Logger) : option LogEntry :=
  if (level_num lvl <? level_num (console_level_ s))%nat &&
     (level_num lvl <? level_num (file_level_ s))%nat
  then None
  else
    let e := {| timestamp_ms := i64 tick; level := lvl; thread_id := i32 tid; tag := tag;
                message := msg |} in
    Some (match hook_ s with Some h => h e | None => e end).

Definition write (lvl : LogLevel) (tag msg : string) (tick tid : Z) (s : Logger) : Logger :=
  match entry_of lvl tag msg tick tid s with
  | Some e => enqueue e s
  | None => s
  end.

Definition log (lvl : LogLevel) (tag text : string) (tick tid : Z) (s : Logger) : Logger :=
  write lvl tag (vformat_to text) tick tid s.
Definition trace (text : string) := log TRACE "" text.
Definition debug (text : string) := log DEBUG "" text.
Definition info (text : string) := log INFO "" text.
Definition warn (text : string) := log WARN "" text.
Definition error (text : string) := log ERROR "" text.
Definition fatal (text : string) := log FATAL "" text.

(** ** The log thread *)

Section outputs.
Context (time_text : string -> Z -> string) (tty : bool -> bool) (opens : string -> bool).

Definition format_entry (f : LogFormatter) (e : LogEntry) : string :=
  (if show_timestamp f then time_text (time_format f) (Z.quot (timestamp_ms e) 1000) +:+ " " else "") +:+
  (if show_level f then "[" +:+ log_level_str (level e) +:+ "] " else "") +:+
  (if show_thread_id f then "[T" +:+ pretty (thread_id e) +:+ "] " else "") +:+
  (if show_tag f && negb (String.eqb (tag e) "") then "[" +:+ tag e +:+ "] " else "") +:+
  message e.

Definition newline : string := String (Ascii.ascii_of_nat 10) "".
Definition escape (code : string) : string := String (Ascii.ascii_of_nat 27) code.

Definition color (l : LogLevel) : string :=
  match l with
  | TRACE => escape "[90m"
  | DEBUG => escape "[36m"
  | INFO => escape "[32m"
  | WARN => escape "[33m"
  | ERROR => escape "[31m"
  | FATAL => escape "[35;1m"
  | NONE => ""
  end.

(** What an entry puts on the console. *)
Definition console_line (f : LogFormatter) (e : LogEntry) : bool * string :=
  let line := format_entry f e +:+ newline in
  let err := (level_num ERROR <=? level_num (level e))%nat in
  (err, if colorful f && tty err then color (level e) +:+ line +:+ escape "[0m" else line).

(** The lines of an entry for the files of the asynchronous sinks. *)
Definition file_lines (s : Logger) (line : string) : list (string * string) :=
  k ← sinks_ s;
  if String.eqb (path k) "" || negb (async k) then []
  else if String.eqb (current_log_path_ s) "" then []
  else if opens (current_log_path_ s) then [(current_log_path_ s, line)] else [].

Definition handle_entry (e : LogEntry) (s : Logger) : Logger :=
  set_output (total_logged_ s)
    (if (level_num (console_level_ s) <=? level_num (level e))%nat
     then console s ++ [console_line (fmt_ s) e] else console s)
    (if (level_num (file_level_ s) <=? level_num (level e))%nat
     then files s ++ file_lines s (format_entry (fmt_ s) e +:+ newline) else files s) s.

(** The next step of [log_thread_loop]. *)
Definition thread_step (s : Logger) : Logger :=
  match log_thread_ s with
  | NoThread | Finished => s
  | AtTest => set_thread (running_ s) (if running_ s then AtWait else Finished) s
  | AtWait =>
      match queue_ s with
      | [] => set_thread (running_ s) AtTest s
      | q => set_thread (running_ s) (Handling q (length q)) (set_queue [] (dropped_ s) s)
      end
  | Handling [] n =>
      set_thread (running_ s) AtTest (set_output (total_logged_ s + n) (console s) (files s) s)
  | Handling (e :: todo) n => set_thread (running_ s) (Handling todo n) (handle_entry e s)
  end.

(** ** Flush and shutdown *)

Definition flush_lines (s : Logger) (e : LogEntry) : list (string * string) :=
  k ← sinks_ s;
  if String.eqb (path k) "" then []
  else if opens (path k) then [(path k, format_entry (fmt_ s) e +:+ newline)] else [].

Definition flush (s : Logger) : Logger :=
  set_output (total_logged_ s) (console s) (files s ++ (queue_ s ≫= flush_lines s))
    (set_queue [] (dropped_ s) s).

(** [shutdown] up to the join, and after it. *)
Definition shutdown_begin (s : Logger) : Logger :=
  if running_ s then set_thread false (log_thread_ s) s else s.
Definition shutdown_end (s : Logger) : Logger :=
  match log_thread_ s with
  | Finished => flush (set_thread (running_ s) NoThread s)
  | _ => s
  end.

(** ** Steps *)

Inductive log_op :=
| Log (lvl : LogLevel) (tag text : string) (tick tid : Z)
| SetLevels (c f : LogLevel)
| SetHook (h : option (LogEntry -> LogEntry))
| ThreadStep
| Flush
| ShutdownBegin
| ShutdownEnd.

(** What became of the entries: let through by the levels and put into the queue or
    turned away; handled by the log thread, with the console level at the time; taken
    by a flush. *)
Record account := {
  enqueued : list LogEntry;
  refused : list LogEntry;
  handled : list (LogEntry * LogLevel);
  flushed : list LogEntry;
}.
Definition account0 : account :=
  {| enqueued := []; refused := []; handled := []; flushed := [] |}.

Definition run_log_op (x : Logger * account) (o : log_op) : Logger * account :=
  let '(s, a) := x in
  match o with
  | Log lvl tag text tick tid =>
      (log lvl tag text tick tid s,
       match entry_of lvl tag (vformat_to text) tick tid s with
       | None => a
       | Some e =>
           if (queue_max_ <=? length (queue_ s))%nat
           then {| enqueued := enqueued a; refused := refused a ++ [e]; handled := handled a;
                   flushed := flushed a |}
           else {| enqueued := enqueued a ++ [e]; refused := refused a; handled := handled a;
                   flushed := flushed a |}
       end)
  | SetLevels c f => (set_levels c f s, a)
  | SetHook h => (set_hook h s, a)
  | ThreadStep =>
      (thread_step s,
       match log_thread_ s with
       | Handling (e :: _) _ =>
           {| enqueued := enqueued a; refused := refused a;
              handled := handled a ++ [(e, console_level_ s)]; flushed := flushed a |}
       | _ => a
       end)
  | Flush => (flush s, {| enqueued := enqueued a; refused := refused a; handled := handled a;
                          flushed := flushed a ++ queue_ s |})
  | ShutdownBegin => (shutdown_begin s, a)
  | ShutdownEnd =>
      (shutdown_end s,
       match log_thread_ s with
       | Finished => {| enqueued := enqueued a; refused := refused a; handled := handled a;
                        flushed := flushed a ++ queue_ s |}
       | _ => a
       end)
  end.

Definition run_log (ops : list log_op) (s : Logger) : Logger * account :=
  foldl run_log_op (s, account0) ops.

(** ** Invariant *)

Open Scope list_scope.

Definition in_work (s : Logger) : list LogEntry :=
  match log_thread_ s with Handling todo _ => todo | _ => [] end.

(** What the batch in work will add to [total_logged_]. *)
Definition unlogged (s : Logger) (a : account) : Prop :=
  match log_thread_ s with
  | Handling todo n => (length (handled a) + length todo = total_logged_ s + n)%nat
  | _ => length (handled a) = total_logged_ s
  end.

(** The console line an entry handled at some level gives. *)
Definition shown (f : LogFormatter) (x : LogEntry * LogLevel) : option (bool * string) :=
  if (level_num (snd x) <=? level_num (level (fst x)))%nat then Some (console_line f (fst x)) else None.

Record wf (f : LogFormatter) (s : Logger) (a : account) : Prop := {
  wf_fmt : fmt_ s = f;
  wf_perm : enqueued a ≡ₚ (handled a).*1 ++ in_work s ++ flushed a ++ queue_ s;
  wf_order : ((handled a).*1 ++ in_work s ++ queue_ s) `sublist_of` enqueued a;
  wf_dropped : dropped_ s = length (refused a);
  wf_bound : (length (queue_ s) <= queue_max_)%nat;
  wf_console : console s = omap (shown f) (handled a);
  wf_total : unlogged s a;
  wf_path : current_log_path_ s = "";
}.

Lemma file_lines_none s line : current_log_path_ s = "" -> file_lines s line = [].
Proof.
  intros E. unfold file_lines. rewrite E. simpl. induction (sinks_ s) as [|k ks IH]; [done|].
  csimpl. rewrite IH. by repeat case_match.
Qed.

Lemma handle_entry_path s e : current_log_path_ s = "" -> files (handle_entry e s) = files s.
Proof.
  intros E. unfold handle_entry. simpl. rewrite file_lines_none, app_nil_r by done. by case_match.
Qed.

(** The steps that leave the account alone. *)
Lemma wf_same f s s' a :
  wf f s a -> fmt_ s' = fmt_ s -> queue_ s' = queue_ s -> dropped_ s' = dropped_ s ->
  console s' = console s -> current_log_path_ s' = current_log_path_ s ->
  in_work s' = in_work s -> (unlogged s a -> unlogged s' a) -> wf f s' a.
Proof.
  intros [H1 H2 H3 H4 H5 H6 H7 H8] E1 E2 E3 E4 E5 E6 E7.
  split; rewrite ?E1, ?E2, ?E3, ?E4, ?E5, ?E6; auto.
Qed.

Lemma log_wf f s a lvl tag text tick tid :
  wf f s a ->
  let '(s', a') := run_log_op (s, a) (Log lvl tag text tick tid) in wf f s' a'.
Proof.
  intros Hwf. simpl. unfold log, write.
  destruct (entry_of lvl tag (vformat_to text) tick tid s) as [e|]; [|done].
  unfold enqueue. destruct (Nat.leb_spec queue_max_ (length (queue_ s))) as [Hle|Hlt];
    destruct Hwf as [H1 H2 H3 H4 H5 H6 H7 H8]; unfold in_work, unlogged in *;
    split; unfold in_work, unlogged; simpl; try done.
  - rewrite length_app, H4. simpl. lia.
  - rewrite H2, <-!app_assoc. done.
  - rewrite !app_assoc in *. by apply sublist_app.
  - rewrite length_app. simpl. lia.
Qed.

Lemma thread_wf f s a :
  wf f s a -> let '(s', a') := run_log_op (s, a) ThreadStep in wf f s' a'.
Proof.
  intros Hwf. simpl. unfold thread_step. destruct (log_thread_ s) as [| | |[|e todo] n|] eqn:Et.
  - done.
  - eapply wf_same; [done..| |]; unfold in_work, unlogged; simpl; rewrite Et; by destruct (running_ s).
  - destruct (queue_ s) as [|e q] eqn:Eq.
    + eapply wf_same; [done..| |]; unfold in_work, unlogged; simpl; by rewrite Et.
    + destruct Hwf as [H1 H2 H3 H4 H5 H6 H7 H8]. unfold in_work, unlogged in *. rewrite Et in *.
      split; unfold in_work, unlogged; simpl; try done.
      * rewrite H2, Eq, app_nil_r. simpl. by rewrite <-(Permutation_app_comm (e :: q)).
      * rewrite app_nil_r. by rewrite Eq in H3.
      * lia.
      * lia.
  - eapply wf_same; [done..| |]; unfold in_work, unlogged; simpl; rewrite Et; [done|simpl; lia].
  - destruct Hwf as [H1 H2 H3 H4 H5 H6 H7 H8]. unfold in_work, unlogged in *. rewrite Et in *.
    split; unfold in_work, unlogged; simpl; try done.
    + by rewrite H2, fmap_app, <-app_assoc.
    + by rewrite fmap_app, <-app_assoc.
    + rewrite omap_app, <-H6. simpl. unfold shown. simpl. rewrite <-H1.
      case_match; [done|by rewrite app_nil_r].
    + rewrite length_app. simpl in *. lia.
  - done.
Qed.

Lemma flush_wf f s a :
  wf f s a ->
  wf f (flush s) {| enqueued := enqueued a; refused := refused a; handled := handled a;
                    flushed := flushed a ++ queue_ s |}.
Proof.
  intros [H1 H2 H3 H4 H5 H6 H7 H8]. unfold in_work, unlogged in *.
  split; unfold in_work, unlogged; simpl; try done.
  - by rewrite app_nil_r.
  - rewrite app_nil_r. etrans; [|exact H3]. rewrite app_assoc. by apply sublist_inserts_r.
  - lia.
Qed.

Lemma run_log_op_wf f s a o :
  wf f s a -> let '(s', a') := run_log_op (s, a) o in wf f s' a'.
Proof.
  intros Hwf. destruct o as [lvl tag text tick tid|c l|h| | | |].
  - by apply log_wf.
  - simpl. by eapply wf_same.
  - simpl. by eapply wf_same.
  - by apply thread_wf.
  - simpl. by apply flush_wf.
  - simpl. unfold shutdown_begin. destruct (running_ s); [by eapply wf_same|done].
  - simpl. unfold shutdown_end. destruct (log_thread_ s) eqn:Et; try done.
    apply (flush_wf f (set_thread (running_ s) NoThread s)).
    eapply wf_same; [done..| |]; unfold in_work, unlogged; simpl; by rewrite Et.
Qed.

Lemma run_log_snoc ops o s : run_log (ops ++ [o]) s = run_log_op (run_log ops s) o.
Proof. unfold run_log. by rewrite foldl_app. Qed.

Lemma run_log_wf f s ops :
  wf f s account0 -> let '(s', a) := run_log ops s in wf f s' a.
Proof.
  intros H0. induction ops as [|o ops IH] using rev_ind; [done|]. rewrite run_log_snoc.
  destruct (run_log ops s) as [s' a]. by apply run_log_op_wf.
Qed.

(** Without [flush] and [shutdown] nothing is written to a file. *)
Lemma run_log_files s ops :
  current_log_path_ s = "" -> Flush ∉ ops -> ShutdownEnd ∉ ops ->
  current_log_path_ (fst (run_log ops s)) = "" /\ files (fst (run_log ops s)) = files s.
Proof.
  intros Hp. induction ops as [|o ops IH] using rev_ind; [done|]. rewrite run_log_snoc.
  intros Hf Hs. destruct IH as [IHp IHf]; [set_solver..|].
  destruct (run_log ops s) as [s' a]. simpl in IHp, IHf. rewrite <-IHf.
  destruct o as [lvl tag text tick tid|c l|h| | | |]; simpl.
  - unfold log, write, enqueue. by repeat case_match.
  - done.
  - done.
  - unfold thread_step. destruct (log_thread_ s') as [| | |[|e todo] n|]; try done.
    + by destruct (queue_ s').
    + simpl. by rewrite file_lines_none, app_nil_r, IHp by done; case_match.
  - set_solver.
  - unfold shutdown_begin. by case_match.
  - set_solver.
Qed.

(** C33: After [init], whatever the callers and the log thread do, every entry the
    levels let through is exactly one of: turned away and counted in [dropped_], with
    8192 entries in the queue; queued; in the batch in work; handled; or taken by a
    flush.  It is the new entry that is turned away, whatever its level, and no queued one
    ever is; DESIGN.md 3.1 says that the oldest TRACE and DEBUG entries are discarded.  The log thread handles entries in the order they were queued, the console
    shows exactly the handled ones whose level passes the console level, and no line
    is ever written to a log file except by [flush]: [current_log_path_] stays empty. *)
Theorem logger_accounts sinks c l fmt yday ops s0 :
  init sinks c l fmt yday Logger0 = Some s0 ->
  let '(s, a) := run_log ops s0 in
  enqueued a ≡ₚ (handled a).*1 ++ in_work s ++ flushed a ++ queue_ s /\
  ((handled a).*1 ++ in_work s ++ queue_ s) `sublist_of` enqueued a /\
  dropped_ s = length (refused a) /\ length (queue_ s) <= queue_max_ /\
  console s = omap (shown fmt) (handled a) /\
  (in_work s = [] -> (forall n, log_thread_ s <> Handling [] n) -> total_logged_ s = length (handled a)) /\
  (Flush ∉ ops -> ShutdownEnd ∉ ops -> files s = []).
Proof.
  intros [= <-]. set (s0 := Build_Logger _ _ _ _ _ _ _ _ _ _ _ _ _ _).
  assert (wf fmt s0 account0) as H0 by (split; simpl; try done; lia).
  pose proof (run_log_wf fmt s0 ops H0) as Hwf. pose proof (run_log_files s0 ops eq_refl) as Hf.
  destruct (run_log ops s0) as [s a]. destruct Hwf as [H1 H2 H3 H4 H5 H6 H7 H8].
  split_and!; try done.
  - intros Hw Hn. unfold in_work, unlogged in *. destruct (log_thread_ s); try done.
    simpl in Hw. subst. by destruct (Hn size).
  - intros ? ?. by apply Hf.
Qed.
End outputs.

(** One INFO entry on its way to the console. *)
Lemma logger_accounts_witness :
  exists s0, init [] INFO DEBUG LogFormatter0 42 Logger0 = Some s0 /\
    let '(s, a) := run_log (fun _ _ => "now") (fun _ => false) (fun _ => true)
      [Log INFO "" "hello" 1000 7; ThreadStep; ThreadStep; ThreadStep; ThreadStep] s0 in
    console s = omap (shown (fun _ _ => "now") (fun _ => false) LogFormatter0) (handled a) /\
    console s = [(false, "now [INFO ] [T7] hello" +:+ newline)].
Proof.
  eexists. split; [reflexivity|].
  match goal with |- context [run_log _ _ _ ?ops ?s0] =>
    pose proof (logger_accounts (fun _ _ => "now") (fun _ => false) (fun _ => true)
      [] INFO DEBUG LogFormatter0 42 ops s0 eq_refl) as H;
    pose proof (eq_refl : console (fst (run_log (fun _ _ => "now") (fun _ => false) (fun _ => true) ops s0))
      = [(false, "now [INFO ] [T7] hello" +:+ newline)]) as Hc;
    destruct (run_log (fun _ _ => "now") (fun _ => false) (fun _ => true) ops s0) as [s a]
  end.
  split; [apply H|exact Hc].
Defined.
