(* ===== verification/LoggerTest.v ===== *)
(** * The test of the logger (test/logger_test.cpp)

    The whole program: [main] logs four lines, calls [flush] and returns, after which the
    destructor of the static [Logger] calls [shutdown]; the log thread runs beside it.  The
    logger is [Logger], whose parameters are the ones here; [ticks] and [tid] are what
    [get_tick_ms] and [get_current_thread_id] return to [main]. *)

From S2P Require Import Prelude Logger.

Open Scope string_scope.

Section logger_test.
Context (time_text : string -> Z -> string) (tty : bool -> bool) (opens : string -> bool).
Context (ticks : nat -> Z) (tid : Z) (yday : Z).

Definition log_name : string := "test.log".

(** [LOG_DEBUG], [LOG_INFO], [LOG_WARN] and [LOG_ERROR]. *)
Definition log_lines : list (LogLevel * string) :=
  [(DEBUG, "debug message"); (INFO, "info message"); (WARN, "warn message"); (ERROR, "error message")].

Definition log_call (i : nat) (x : LogLevel * string) : log_op := Log (fst x) "" (snd x) (ticks i) tid.

Definition log_calls : list log_op := imap log_call log_lines.

(** The calls of [main], and those of the destructor. *)
Definition logger_main : list log_op := log_calls ++ [Flush; ShutdownBegin; ShutdownEnd].

(** [init("test.log", LogLevel::DEBUG)] matches no declaration of [init]; read as the second
    one with an empty prefix. *)
Definition logger_start : option Logger := init_dir log_name "" DEBUG DEBUG yday Logger0.

(** The logger with its account, and what [main] has still to do.  The join in [shutdown]
    waits for the log thread. *)
Definition LoggerTest : Type := (Logger * account) * list log_op.

Inductive logger_step : LoggerTest -> LoggerTest -> Prop :=
| logger_thread x todo :
    logger_step (x, todo) (run_log_op time_text tty opens x ThreadStep, todo)
| logger_main_op x o todo :
    (o = ShutdownEnd -> log_thread_ (fst x) = Finished) ->
    logger_step (x, o :: todo) (run_log_op time_text tty opens x o, todo).

Definition logger_run : LoggerTest -> LoggerTest -> Prop := rtc logger_step.

(** The entries of the four lines. *)
Definition log_entry (i : nat) (x : LogLevel * string) : LogEntry :=
  {| timestamp_ms := i64 (ticks i); level := fst x; thread_id := i32 tid; tag := "";
     message := vformat_to (snd x) |}.
Definition log_entries : list LogEntry := imap log_entry log_lines.

(** What an entry gives on the console, and in the file. *)
Definition shown_line (e : LogEntry) : bool * string := console_line time_text tty LogFormatter0 e.
Definition file_line (e : LogEntry) : string * string :=
  (log_name, format_entry time_text LogFormatter0 e +:+ newline).

Open Scope list_scope.

(** ** The invariant *)

(** What nothing changes after [init]. *)
Record logger_set (l : Logger) : Prop := {
  ls_fmt : fmt_ l = LogFormatter0;
  ls_sinks : sinks_ l = [{| path := log_name; filename_prefix := ""; max_file_size_mb := 200;
    max_history_days := 7; compress := true; async := true |}];
  ls_levels : console_level_ l = DEBUG /\ file_level_ l = DEBUG;
  ls_hook : hook_ l = None;
  ls_path : current_log_path_ l = "";
}.

(** [k] calls of [logger_main] are over; [taken] are the entries the log thread has handled,
    [lost] those that [flush] took from it. *)
Record logger_ok (l : Logger) (k : nat) (taken lost : list LogEntry) : Prop := {
  lo_set : logger_set l;
  lo_split : taken ++ in_work l ++ lost ++ queue_ l = take k log_entries;
  lo_lost : (k <= 4)%nat -> lost = [];
  lo_flushed : (4 < k)%nat -> queue_ l = [];
  lo_console : console l = shown_line <$> taken;
  lo_files : files l = if opens log_name then file_line <$> lost else [];
  lo_thread : log_thread_ l = NoThread <-> (6 < k)%nat;
  lo_running : running_ l = bool_decide (k <= 5)%nat;
  lo_dropped : dropped_ l = 0%nat;
}.

Lemma queue_room : (4 < queue_max_)%nat.
Proof. assert (queue_max_ = Z.to_nat 8192) as -> by reflexivity. lia. Qed.

Lemma log_entry_level e : e ∈ log_entries -> (1 <= level_num (level e))%nat.
Proof. unfold log_entries. cbn. rewrite !elem_of_cons. intros [-> |[-> |[-> |[-> | []%not_elem_of_nil]]]]; cbn; lia. Qed.

Lemma take_entries k e : e ∈ take k log_entries -> (1 <= level_num (level e))%nat.
Proof. intros He. apply log_entry_level. by apply (subseteq_take k log_entries). Qed.

(** The levels let the four entries through. *)
Lemma log_entry_of l k x :
  logger_set l -> log_lines !! k = Some x ->
  entry_of (fst x) "" (vformat_to (snd x)) (ticks k) tid l = Some (log_entry k x) /\
  log_entries !! k = Some (log_entry k x).
Proof.
  intros [_ _ [Hc Hf] Hh _] Hx. split; [|unfold log_entries; by rewrite list_lookup_imap, Hx].
  unfold entry_of. rewrite Hc, Hf, Hh.
  do 4 (destruct k as [|k]; [by injection Hx as <-|]). done.
Qed.

Lemma logger_log_ok l k x taken lost :
  log_lines !! k = Some x -> logger_ok l k taken lost ->
  logger_ok (log (fst x) "" (snd x) (ticks k) tid l) (S k) taken lost.
Proof.
  intros Hx [Hset Hsp Hlo Hfl Hco Hfi Hth Hru Hdr]. destruct (log_entry_of l k x Hset Hx) as [He Hl].
  assert (k < 4)%nat as Hk by (apply lookup_lt_Some in Hx; exact Hx).
  unfold log, write. rewrite He. unfold enqueue. rewrite (proj2 (Nat.leb_gt _ _)).
  2: { apply (f_equal length) in Hsp. rewrite !length_app, length_take in Hsp.
       pose proof queue_room. lia. }
  rewrite (Hlo ltac:(lia)) in *.
  split; cbn [queue_ set_queue in_work console files log_thread_ running_ dropped_]; try done.
  - by destruct Hset.
  - rewrite (take_S_r _ _ _ Hl), <-Hsp. cbn [app]. by rewrite <-!app_assoc.
  - lia.
  - rewrite Hth. lia.
  - rewrite Hru. repeat case_bool_decide; lia || done.
Qed.

Lemma flush_lines_eq l q :
  logger_set l ->
  q ≫= flush_lines time_text opens l = if opens log_name then file_line <$> q else [].
Proof.
  intros [Hf Hs _ _ _]. induction q as [|e q IH]; [by case_match|]. csimpl. rewrite IH.
  unfold flush_lines. rewrite Hs, Hf. csimpl. by case_match.
Qed.

(** The thread's steps keep everything but what it has taken. *)
Lemma logger_thread_ok l k taken lost :
  logger_ok l k taken lost ->
  exists taken', logger_ok (thread_step time_text tty opens l) k taken' lost.
Proof.
  intros [Hset Hsp Hlo Hfl Hco Hfi Hth Hru Hdr]. unfold thread_step.
  destruct (log_thread_ l) as [| | |[|e todo] n|] eqn:Et; unfold in_work in Hsp; rewrite Et in Hsp.
  - exists taken. by split; unfold in_work; rewrite ?Et.
  - exists taken. assert (~ (6 < k)%nat) as Hk by by rewrite <-Hth.
    split; unfold in_work; cbn; try done; try by destruct Hset.
    + by destruct (running_ l).
    + destruct (running_ l); intuition done.
  - exists taken. assert (~ (6 < k)%nat) as Hk by by rewrite <-Hth. destruct (queue_ l) as [|e q] eqn:Eq.
    + split; unfold in_work; cbn; rewrite ?Eq; try done; try by destruct Hset.
    + destruct (decide (4 < k)%nat) as [H4|H4]; [by specialize (Hfl H4)|]. rewrite (Hlo ltac:(lia)) in *.
      split; unfold in_work; cbn; try done; try by destruct Hset.
      by rewrite !app_nil_r.
  - exists taken. assert (~ (6 < k)%nat) as Hk by by rewrite <-Hth.
    split; unfold in_work; cbn; try done; try by destruct Hset.
  - exists (taken ++ [e]). assert (~ (6 < k)%nat) as Hk by by rewrite <-Hth.
    assert (1 <= level_num (level e))%nat as Hl.
    { apply (take_entries k). rewrite <-Hsp. set_solver. }
    destruct Hset as [H1 H2 [H3 H4] H5 H6].
    split; unfold in_work; cbn; try done.
    + by rewrite <-!app_assoc.
    + assert ((level_num (console_level_ l) <=? level_num (level e))%nat = true) as ->
        by (rewrite H3; by apply Nat.leb_le).
      by rewrite H1, fmap_app, Hco.
    + rewrite file_lines_none, app_nil_r, <-Hfi by done. by destruct (_ <=? _)%nat.
  - exists taken. by split; unfold in_work; rewrite ?Et.
Qed.

Lemma logger_flush_ok l taken :
  logger_ok l 4 taken [] -> logger_ok (flush time_text opens l) 5 taken (queue_ l).
Proof.
  intros [Hset Hsp Hlo Hfl Hco Hfi Hth Hru Hdr].
  split; cbn [flush set_output set_queue queue_ in_work console files log_thread_ running_ dropped_];
    try done; try lia.
  - by destruct Hset.
  - rewrite app_nil_r. exact Hsp.
  - rewrite Hfi, flush_lines_eq by done. by case_match.
  - rewrite Hth. lia.
Qed.

Lemma logger_begin_ok l taken lost :
  logger_ok l 5 taken lost -> logger_ok (shutdown_begin l) 6 taken lost.
Proof.
  intros [Hset Hsp Hlo Hfl Hco Hfi Hth Hru Hdr]. unfold shutdown_begin. rewrite Hru. cbn.
  split; cbn; try done; try lia.
  - by destruct Hset.
  - intros _. apply Hfl. lia.
  - rewrite Hth. lia.
Qed.

Lemma logger_end_ok l taken lost :
  log_thread_ l = Finished -> logger_ok l 6 taken lost ->
  logger_ok (shutdown_end time_text opens l) 7 taken lost.
Proof.
  intros Ht [Hset Hsp Hlo Hfl Hco Hfi Hth Hru Hdr]. unfold shutdown_end. rewrite Ht.
  assert (queue_ l = []) as Hq by (apply Hfl; lia). unfold in_work in Hsp. rewrite Ht in Hsp.
  split; cbn; try done; try lia.
  - by destruct Hset.
  - rewrite Hq in Hsp. exact Hsp.
  - by rewrite Hq, app_nil_r.
  - split; [lia|done].
Qed.

(** ** Runs *)

Definition test_at (x : LoggerTest) (k : nat) (taken lost : list LogEntry) : Prop :=
  snd x = drop k logger_main /\ (k <= 7)%nat /\ logger_ok (fst (fst x)) k taken lost.

Lemma logger_step_ok x y k taken lost :
  logger_step x y -> test_at x k taken lost -> exists k' taken' lost', test_at y k' taken' lost'.
Proof.
  destruct 1 as [[l a] todo|[l a] o todo Hend]; intros (Ht & Hk & Hok); cbn [fst snd] in *.
  - destruct (logger_thread_ok _ _ _ _ Hok) as [taken' Hok']. by exists k, taken', lost.
  - exists (S k).
    assert (Hl : logger_main !! k = Some o /\ todo = drop (S k) logger_main).
    { rewrite <-(Nat.add_0_r k), <-lookup_drop, <-Ht. split; [done|].
      change (S (k + 0)) with (1 + (k + 0))%nat. by rewrite Nat.add_0_r, <-skipn_skipn, <-Ht. }
    destruct Hl as [Ho ->]. assert (k < 7)%nat as Hk' by (apply lookup_lt_Some in Ho; exact Ho).
    destruct (decide (k < 4)%nat) as [H4|H4].
    + destruct (lookup_lt_is_Some_2 log_lines k H4) as [x Hx].
      assert (o = log_call k x) as ->.
      { unfold logger_main in Ho. rewrite lookup_app_l in Ho by (exact H4).
        unfold log_calls in Ho. rewrite list_lookup_imap, Hx in Ho. by injection Ho. }
      exists taken, lost. split_and!; [done|lia|]. cbn. by apply logger_log_ok.
    + do 4 (destruct k as [|k]; [lia|]).
      destruct k as [|[|[|k]]]; [..|lia]; injection Ho as <-; cbn [fst run_log_op].
      * rewrite (lo_lost _ _ _ _ Hok) in Hok by lia. exists taken, (queue_ l).
        split_and!; [done|lia|]. by apply logger_flush_ok.
      * exists taken, lost. split_and!; [done|lia|]. by apply logger_begin_ok.
      * exists taken, lost. split_and!; [done|lia|]. by apply logger_end_ok; [apply Hend|].
Qed.

Lemma logger_run_ok x y k taken lost :
  logger_run x y -> test_at x k taken lost -> exists k' taken' lost', test_at y k' taken' lost'.
Proof.
  intros Hr. revert k taken lost. induction Hr as [x|x y z Hst _ IH]; intros k taken lost Hx.
  - by exists k, taken, lost.
  - destruct (logger_step_ok _ _ _ _ _ Hst Hx) as (k' & taken' & lost' & Hy). by eapply IH.
Qed.

Definition logger_begin (l : Logger) : LoggerTest := ((l, account0), logger_main).

Lemma logger_begin_at l : logger_start = Some l -> test_at (logger_begin l) 0 [] [].
Proof.
  intros [= <-]. split_and!; [done|lia|]. split; cbn; try done; try lia; [by case_match|]. split; [done|lia].
Qed.

Lemma thread_once l a todo :
  exists a', logger_step ((l, a), todo) ((thread_step time_text tty opens l, a'), todo).
Proof. eexists. apply (logger_thread (l, a)). Qed.

(** The log thread can leave its loop when [running_] is unset. *)
Definition finishes (l : Logger) : Prop :=
  forall a todo, exists l' a', logger_run ((l, a), todo) ((l', a'), todo) /\ log_thread_ l' = Finished.

Lemma finishes_once l : finishes (thread_step time_text tty opens l) -> finishes l.
Proof.
  intros Hf a todo. destruct (thread_once l a todo) as [a1 Hst].
  destruct (Hf a1 todo) as (l2 & a2 & Hrun & Hfin). exists l2, a2. split; [by eapply rtc_l|done].
Qed.

Lemma thread_finishes l :
  running_ l = false -> log_thread_ l <> NoThread -> queue_ l = [] -> finishes l.
Proof.
  assert (forall l, log_thread_ l = Finished -> finishes l) as H0.
  { intros l1 Ht a todo. exists l1, a. split; [apply rtc_refl|done]. }
  assert (forall l, running_ l = false -> log_thread_ l = AtTest -> finishes l) as H1.
  { intros l1 Hr Ht. apply finishes_once, H0. unfold thread_step. by rewrite Ht, Hr. }
  intros Hr Ht Hq. destruct (log_thread_ l) as [| | |b n|] eqn:Et; [done|by apply H1| | |by apply H0].
  - apply finishes_once. unfold thread_step. rewrite Et, Hq. by apply H1.
  - clear Ht. revert l Hr Hq Et. induction b as [|e b IH]; intros l Hr Hq Et; apply finishes_once;
      unfold thread_step; rewrite Et; [by apply H1|by apply IH].
Qed.

(** From every state [main] and the destructor can come to their end. *)
Lemma logger_ends x k taken lost :
  test_at x k taken lost -> exists y, logger_run x y /\ snd y = [].
Proof.
  remember (7 - k)%nat as n eqn:En. revert x k taken lost En.
  induction n as [|n IH]; intros [[l a] todo] k taken lost En Hat; pose proof Hat as (Ht & Hk & Hok);
    cbn [fst snd] in *.
  { exists ((l, a), todo). split; [apply rtc_refl|]. assert (k = 7)%nat as -> by lia. exact Ht. }
  assert (exists l1 a1, logger_run ((l, a), todo) ((l1, a1), todo) /\
    (k = 6%nat -> log_thread_ l1 = Finished)) as (l1 & a1 & Hr1 & Hf).
  { destruct (decide (k = 6)%nat) as [->|Hne]; [|exists l, a; split; [apply rtc_refl|done]].
    destruct (thread_finishes l) with (a := a) (todo := todo) as (l1 & a1 & Hr & Hfin); [..|by exists l1, a1].
    - rewrite (lo_running _ _ _ _ Hok). by rewrite bool_decide_false by lia.
    - rewrite (lo_thread _ _ _ _ Hok). lia.
    - apply (lo_flushed _ _ _ _ Hok). lia. }
  assert (exists o, logger_main !! k = Some o /\ todo = o :: drop (S k) logger_main) as (o & Ho & ->).
  { destruct (lookup_lt_is_Some_2 logger_main k) as [o Ho]; [change (k < 7)%nat; lia|]. exists o. split; [done|].
    by rewrite Ht, (drop_S _ _ _ Ho). }
  assert (logger_step ((l1, a1), o :: drop (S k) logger_main)
    (run_log_op time_text tty opens (l1, a1) o, drop (S k) logger_main)) as Hst.
  { apply logger_main_op. intros ->. apply Hf.
    do 7 (destruct k as [|k]; [try discriminate Ho; try done|]). lia. }
  destruct (logger_run_ok _ _ _ _ _ Hr1 Hat) as (k1 & taken1 & lost1 & Hat1).
  destruct (logger_step_ok _ _ _ _ _ Hst Hat1) as (k2 & taken2 & lost2 & Hat2).
  assert (k2 = S k) as ->.
  { destruct Hat2 as (Ht2 & Hk2 & _). cbn [snd] in Ht2. apply (f_equal length) in Ht2.
    rewrite !length_drop in Ht2. change (length logger_main) with 7%nat in Ht2. lia. }
  destruct (IH _ (S k) _ _ ltac:(lia) Hat2) as (y & Hr2 & Hy). exists y. split; [|done].
  etrans; [exact Hr1|]. by eapply rtc_l.
Qed.

(** ** Schedules *)

Definition main_op (o : log_op) : bool := match o with ThreadStep => false | _ => true end.

Lemma schedule_run ops x todo :
  ShutdownEnd ∉ ops ->
  logger_run (x, filter main_op ops ++ todo) (foldl (run_log_op time_text tty opens) x ops, todo).
Proof.
  revert x. induction ops as [|o ops IH]; intros x Hn; [apply rtc_refl|].
  apply not_elem_of_cons in Hn as [Ho Hn]. cbn [foldl]. destruct (main_op o) eqn:Em.
  - rewrite filter_cons_True by by rewrite Em. eapply rtc_l; [|by apply IH]. cbn [app].
    apply logger_main_op. by intros ->.
  - rewrite filter_cons_False by (rewrite Em; by intros []). eapply rtc_l; [|by apply IH].
    assert (o = ThreadStep) as -> by by destruct o. apply logger_thread.
Qed.

(** The log thread gets through after [n] lines, and next when [running_] is unset. *)
Definition show_first (n : nat) : list log_op :=
  take n log_calls ++ replicate (match n with O => 0 | _ => 3 + n end) ThreadStep ++
  drop n log_calls ++ [Flush; ShutdownBegin; ThreadStep].

Definition shown_first (l : Logger) (n : nat) : Logger * account :=
  foldl (run_log_op time_text tty opens) (l, account0) (show_first n).

Lemma show_first_state l n :
  logger_start = Some l -> (n <= 4)%nat ->
  log_thread_ (fst (shown_first l n)) = Finished /\
  length (console (fst (run_log_op time_text tty opens (shown_first l n) ShutdownEnd))) = n.
Proof.
  intros [= <-] Hn. do 5 (destruct n as [|n]; [split; vm_compute; reflexivity|]). lia.
Qed.

Lemma show_first_main n :
  (n <= 4)%nat -> logger_main = filter main_op (show_first n) ++ [ShutdownEnd] /\
  ShutdownEnd ∉ show_first n.
Proof.
  intros Hn. do 5 (destruct n as [|n]; [split; [reflexivity|set_solver]|]). lia.
Qed.

Lemma show_first_run l n :
  logger_start = Some l -> (n <= 4)%nat ->
  exists y, logger_run (logger_begin l) y /\ snd y = [] /\ length (console (fst (fst y))) = n.
Proof.
  intros Hl Hn. destruct (show_first_state l n Hl Hn) as [Hf Hc].
  destruct (show_first_main n Hn) as [Em Hno].
  exists (run_log_op time_text tty opens (shown_first l n) ShutdownEnd, []). split_and!; [|done|exact Hc].
  unfold logger_begin. rewrite Em. eapply rtc_r; [by apply schedule_run|].
  apply logger_main_op. intros _. exact Hf.
Qed.
End logger_test.

(** C9: The test of the logger.  Every run of it can come to its end, and then the log thread
    has been joined, nothing was turned away, and some first part of the four lines is on the
    console, with their colours and streams, in order.  The others are not on the console but,
    in order, where [flush] and not the log thread writes: in the file "test.log", if that can
    be opened.  It cannot when [init] has made "test.log" a directory, and then they are lost.
    Each of the five outcomes is one of some run. *)
Theorem logger_test_outcome time_text tty opens ticks tid yday :
  exists l, logger_start yday = Some l /\
  (forall x, logger_run time_text tty opens (logger_begin ticks tid l) x ->
   (exists y, logger_run time_text tty opens x y /\ snd y = []) /\
   (snd x = [] -> log_thread_ (fst (fst x)) = NoThread /\ dropped_ (fst (fst x)) = 0%nat /\
    exists n, (n <= 4)%nat /\
      console (fst (fst x)) = shown_line time_text tty <$> take n (log_entries ticks tid) /\
      files (fst (fst x)) =
        if opens log_name then file_line time_text <$> drop n (log_entries ticks tid) else [])) /\
  forall n, (n <= 4)%nat -> exists y, logger_run time_text tty opens (logger_begin ticks tid l) y /\
    snd y = [] /\ length (console (fst (fst y))) = n.
Proof.
  destruct (logger_start yday) as [l|] eqn:Hl; [|discriminate Hl]. exists l. split_and!; [done| |].
  - intros x Hr. pose proof (logger_begin_at time_text tty opens ticks tid yday l Hl) as Hb.
    destruct (logger_run_ok _ _ _ _ _ _ _ _ _ _ Hr Hb) as (k & taken & lost & Hat).
    split; [by eapply logger_ends|]. destruct Hat as (Ht & Hk & Hok). intros Hend.
    assert (k = 7)%nat as ->.
    { rewrite Hend in Ht. apply (f_equal length) in Ht. rewrite length_drop in Ht.
      change (length (logger_main ticks tid)) with 7%nat in Ht. cbn in Ht. lia. }
    assert (log_thread_ (fst (fst x)) = NoThread) as Hth by (apply (lo_thread _ _ _ _ _ _ _ _ _ Hok); lia).
    split_and!; [done|apply Hok|].
    pose proof (lo_split _ _ _ _ _ _ _ _ _ Hok) as Hsp. unfold in_work in Hsp.
    rewrite Hth, (lo_flushed _ _ _ _ _ _ _ _ _ Hok), app_nil_r in Hsp by lia. cbn [app] in Hsp.
    change (take 7 (log_entries ticks tid)) with (log_entries ticks tid) in Hsp.
    exists (length taken). rewrite <-Hsp, take_app_length, drop_app_length. split_and!; [|apply Hok..].
    apply (f_equal length) in Hsp. rewrite length_app in Hsp.
    change (length (log_entries ticks tid)) with 4%nat in Hsp. lia.
  - intros n Hn. by apply (show_first_run _ _ _ _ _ yday).
Qed.

(** Two lines on the console and two in the file. *)
Lemma logger_test_outcome_witness :
  exists y : LoggerTest, snd y = [] /\
    console (fst (fst y)) = shown_line (fun _ _ => "now") (fun _ => false) <$>
      take 2 (log_entries (fun _ => 1000%Z) 7) /\
    files (fst (fst y)) = file_line (fun _ _ => "now") <$> drop 2 (log_entries (fun _ => 1000%Z) 7).
Proof.
  destruct (logger_test_outcome (fun _ _ => "now") (fun _ => false) (fun _ => true) (fun _ => 1000%Z) 7 42)
    as (l & Hl & Hall & Hn).
  destruct (Hn 2%nat ltac:(lia)) as (y & Hr & Hy & Hlen). destruct (Hall y Hr) as [_ Hend].
  destruct (Hend Hy) as (_ & _ & n & Hle & Hc & Hf). exists y. split; [exact Hy|].
  assert (n = 2%nat) as ->.
  { rewrite Hc, length_fmap, length_take in Hlen.
    change (length (log_entries (fun _ => 1000%Z) 7)) with 4%nat in Hlen. lia. }
  split; [exact Hc|exact Hf].
Defined.
