(* ===== verification/LogRotate.v ===== *)
(** * Rotation of log files (base/logger/logger.cpp, check_rotate and compress_old_logs)

    Nothing calls these two functions of [Logger].  What a directory holds is a
    parameter; the commands given to [std::system] are the result. *)

From S2P Require Import Prelude Logger.

Open Scope string_scope.

Record dir_entry := { is_regular_file : bool; filename : string; entry_path : string }.

Section rotate.
(** The entries the directory iterator gives until it ends or throws, which is caught. *)
Context (listing : string -> list dir_entry).

Definition contains (sub s : string) : bool :=
  match String.index 0 sub s with Some _ => true | None => false end.

Definition compressible (e : dir_entry) : bool :=
  is_regular_file e && negb (contains ".gz" (filename e)) && contains "." (filename e).

Definition quotation : string := String (Ascii.ascii_of_nat 34) "".
Definition gzip_command (e : dir_entry) : string :=
  "gzip " +:+ quotation +:+ entry_path e +:+ quotation.

Definition compress_sink (k : LogSink) : list string :=
  if String.eqb (path k) "" || negb (compress k) then []
  else gzip_command <$> List.filter compressible (listing (path k)).

Definition compress_old_logs (s : Logger) : list string := sinks_ s ≫= compress_sink.

Definition set_yday (yday : Z) (s : Logger) : Logger :=
  {| fmt_ := fmt_ s; sinks_ := sinks_ s; console_level_ := console_level_ s;
     file_level_ := file_level_ s; running_ := running_ s; log_thread_ := log_thread_ s;
     queue_ := queue_ s; today_yday_ := yday; current_log_path_ := current_log_path_ s;
     hook_ := hook_ s; dropped_ := dropped_ s; total_logged_ := total_logged_ s;
     console := console s; files := files s |}.

(** [yday] is today's [tm_yday]. *)
Definition check_rotate (yday : Z) (s : Logger) : list string * Logger :=
  if decide (yday = today_yday_ s) then ([], s)
  else
    let s' := set_yday yday s in
    (if running_ s' then compress_old_logs s' else [], s').

(** The day is noticed once, whatever the number of calls. *)
Lemma check_rotate_once yday s :
  check_rotate yday (snd (check_rotate yday s)) = ([], snd (check_rotate yday s)).
Proof.
  unfold check_rotate. destruct (decide (yday = today_yday_ s)) as [E|E]; cbn.
  - by rewrite decide_True.
  - by rewrite decide_True.
Qed.

(** Every regular file of a compressing sink with a dot in its name is compressed, the
    current one included, unless its name says that it is compressed already. *)
Lemma compress_old_logs_spec c s :
  c ∈ compress_old_logs s <->
  exists k e, k ∈ sinks_ s /\ path k <> "" /\ compress k = true /\ e ∈ listing (path k) /\
    is_regular_file e = true /\ contains ".gz" (filename e) = false /\
    contains "." (filename e) = true /\ c = gzip_command e.
Proof.
  unfold compress_old_logs. rewrite list_elem_of_bind. split.
  - intros (k & Hc & Hk). unfold compress_sink in Hc.
    destruct (String.eqb_spec (path k) ""); [by apply elem_of_nil in Hc|].
    destruct (compress k) eqn:Ek; [|by apply elem_of_nil in Hc]. cbn in Hc.
    apply list_elem_of_fmap in Hc as (e & -> & He). apply list_elem_of_In, filter_In in He as [He Hf].
    unfold compressible in Hf. rewrite !andb_true_iff, negb_true_iff in Hf.
    destruct Hf as [[Hr Hg] Hd]. exists k, e. split_and!; try done. by apply list_elem_of_In.
  - intros (k & e & Hk & Hp & Hcomp & He & Hr & Hg & Hd & ->). exists k. split; [|done].
    unfold compress_sink. destruct (String.eqb_spec (path k) ""); [done|]. rewrite Hcomp. cbn.
    apply list_elem_of_fmap. exists e. split; [done|]. apply list_elem_of_In, filter_In.
    split; [by apply list_elem_of_In|]. unfold compressible. by rewrite Hr, Hg, Hd.
Qed.
End rotate.
