(* ===== verification/ConfigNode.v ===== *)
(** * ConfigNode (base/config/config.h, config.cpp)

    The tree of configuration values.  A [std::string] is a list of bytes; [double]
    with its conversions is a parameter.  The children of a node, an unordered map,
    are an association list with one entry per key. *)

From S2P Require Import Prelude.

Open Scope Z_scope.
Open Scope byte_scope.

#[global] Instance byte_countable : Countable byte :=
  inj_countable Byte.to_N Byte.of_N Byte.of_to_N.

Definition str : Type := list byte.

(** A literal of the source. *)
Definition text (s : string) : str := String.list_byte_of_string s.

(** ** Characters and numbers *)

Definition is_blank (c : byte) : bool := bool_decide (c ∈ [" "; x09]).
Definition is_ws (c : byte) : bool := bool_decide (c ∈ [" "; x09; x0a; x0d]).
(** [isspace] of the C locale. *)
Definition is_space (c : byte) : bool := bool_decide (c ∈ [" "; x09; x0a; x0b; x0c; x0d]).
Definition digit (c : byte) : option Z :=
  let z := b2z c - b2z "0" in if (0 <=? z) && (z <? 10) then Some z else None.

Fixpoint drop_while (p : byte -> bool) (s : str) : str :=
  match s with
  | c :: s' => if p c then drop_while p s' else s
  | [] => []
  end.
Definition rdrop_while (p : byte -> bool) (s : str) : str := rev (drop_while p (rev s)).

(** The digits in front, read as a decimal number; [None] when there is none. *)
Fixpoint digits (acc : option Z) (s : str) : option Z :=
  match s with
  | c :: s' =>
      match digit c with
      | Some d => digits (Some (10 * default 0 acc + d)) s'
      | None => acc
      end
  | [] => acc
  end.

(** [strtol] in base 10: what it converts. *)
Definition strto (s : str) : option Z :=
  match drop_while is_space s with
  | c :: s' =>
      if decide (c = "-") then Z.opp <$> digits None s'
      else if decide (c = "+") then digits None s'
      else digits None (c :: s')
  | [] => None
  end.

(** [std::stoi] and [std::stoll]: [invalid_argument] or [out_of_range] otherwise. *)
Definition sto (bits : Z) (s : str) : outcome Z :=
  match strto s with
  | Some z => if (- 2 ^ (bits - 1) <=? z) && (z <? 2 ^ (bits - 1)) then Ret z else Throw
  | None => Throw
  end.
Definition stoi : str -> outcome Z := sto 32.
Definition stoll : str -> outcome Z := sto 64.

(** ** Association lists *)

(** [find] and [map[key] = a] on an unordered map. *)
Fixpoint assoc {A} (key : str) (l : list (str * A)) : option A :=
  match l with
  | [] => None
  | (k, a) :: l' => if decide (k = key) then Some a else assoc key l'
  end.
Fixpoint assign {A} (key : str) (a : A) (l : list (str * A)) : list (str * A) :=
  match l with
  | [] => [(key, a)]
  | (k, b) :: l' => if decide (k = key) then (k, a) :: l' else (k, b) :: assign key a l'
  end.

Lemma assoc_assign {A} key key' (a : A) l :
  assoc key (assign key' a l) = if decide (key' = key) then Some a else assoc key l.
Proof.
  induction l as [|[k b] l IH]; simpl.
  - by repeat case_decide.
  - destruct (decide (k = key')) as [->|Hne]; simpl.
    + by repeat case_decide.
    + rewrite IH. repeat case_decide; congruence.
Qed.

Lemma assign_keys {A} key (a : A) l :
  (assign key a l).*1 = if decide (key ∈ l.*1) then l.*1 else l.*1 ++ [key].
Proof.
  induction l as [|[k b] l IH]; csimpl; [done|].
  destruct (decide (k = key)) as [->|Hne]; csimpl.
  - rewrite decide_True; [done|left].
  - rewrite IH. destruct (decide (key ∈ l.*1)) as [Hin|Hin].
    + rewrite decide_True; [done|by right].
    + rewrite decide_False; [done|]. rewrite elem_of_cons. naive_solver.
Qed.

(** ** Values and nodes *)

Section node.
Context {D : Type} (stod : str -> outcome D) (of_int : Z -> D) (to_int to_int64 : D -> outcome Z).

Inductive ConfigValue :=
| VNull
| VBool (b : bool)
| VInt (z : Z)
| VInt64 (z : Z)
| VDouble (d : D)
| VString (s : str)
| VInts (l : list Z)
| VInt64s (l : list Z)
| VDoubles (l : list D)
| VStrings (l : list str).

(** [value_] is an optional: a default constructed node has none. *)
Inductive ConfigNode := Node (value : option ConfigValue) (children : list (str * ConfigNode)).
Definition ConfigNode0 : ConfigNode := Node None [].
Definition of_value (v : ConfigValue) : ConfigNode := Node (Some v) [].
Definition value_ (n : ConfigNode) : option ConfigValue := let '(Node v _) := n in v.
Definition children_ (n : ConfigNode) : list (str * ConfigNode) := let '(Node _ c) := n in c.

(** The type tests; a node without a value is of no type, as [is_array] says. *)
Definition is_null (n : ConfigNode) : bool := match value_ n with Some VNull => true | _ => false end.
Definition is_bool (n : ConfigNode) : bool := match value_ n with Some (VBool _) => true | _ => false end.
Definition is_int (n : ConfigNode) : bool := match value_ n with Some (VInt _) => true | _ => false end.
Definition is_int64 (n : ConfigNode) : bool := match value_ n with Some (VInt64 _) => true | _ => false end.
Definition is_double (n : ConfigNode) : bool := match value_ n with Some (VDouble _) => true | _ => false end.
Definition is_string (n : ConfigNode) : bool := match value_ n with Some (VString _) => true | _ => false end.
Definition is_array (n : ConfigNode) : bool :=
  match value_ n with
  | Some (VInts _ | VInt64s _ | VDoubles _ | VStrings _) => true
  | _ => false
  end.

Definition truthy : list str :=
  [["t"; "r"; "u"; "e"]; ["1"]; ["y"; "e"; "s"]; ["o"; "n"]].

(** The accessors dereference the optional without a test. *)
Definition as_bool (n : ConfigNode) : outcome bool :=
  match value_ n with
  | None => Undef
  | Some (VBool b) => Ret b
  | Some (VString s) => Ret (bool_decide (s ∈ truthy))
  | Some _ => Ret false
  end.
Definition as_int (n : ConfigNode) : outcome Z :=
  match value_ n with
  | None => Undef
  | Some (VInt z) => Ret z
  | Some (VInt64 z) => Ret (i32 z)
  | Some (VDouble d) => to_int d
  | Some (VString s) => stoi s
  | Some _ => Ret 0
  end.
Definition as_int64 (n : ConfigNode) : outcome Z :=
  match value_ n with
  | None => Undef
  | Some (VInt64 z) | Some (VInt z) => Ret z
  | Some (VDouble d) => to_int64 d
  | Some (VString s) => stoll s
  | Some _ => Ret 0
  end.
Definition as_double (n : ConfigNode) : outcome D :=
  match value_ n with
  | None => Undef
  | Some (VDouble d) => Ret d
  | Some (VInt z) | Some (VInt64 z) => Ret (of_int z)
  | Some (VString s) => stod s
  | Some _ => Ret (of_int 0)
  end.
Definition as_string (n : ConfigNode) : outcome str :=
  match value_ n with
  | None => Undef
  | Some (VString s) => Ret s
  | Some _ => Ret []
  end.
Definition as_array (n : ConfigNode) : outcome (list ConfigValue) :=
  match value_ n with
  | None => Undef
  | Some (VInts l) => Ret (VInt <$> l)
  | Some (VInt64s l) => Ret (VInt64 <$> l)
  | Some (VDoubles l) => Ret (VDouble <$> l)
  | Some (VStrings l) => Ret (VString <$> l)
  | Some _ => Ret []
  end.

Definition get_key (key : str) (n : ConfigNode) : option ConfigNode := assoc key (children_ n).
Definition has_key (key : str) (n : ConfigNode) : bool := bool_decide (is_Some (get_key key n)).
Definition put (key : str) (c n : ConfigNode) : ConfigNode := Node (value_ n) (assign key c (children_ n)).
Definition set_key (key : str) (v : ConfigValue) (n : ConfigNode) : ConfigNode := put key (of_value v) n.
Definition num_keys (n : ConfigNode) : nat := length (children_ n).

(** A node reached by a path of keys, the meaning of a pointer into the tree, and a
    change of that node. *)
Fixpoint node_at (p : list str) (n : ConfigNode) : option ConfigNode :=
  match p with
  | [] => Some n
  | k :: p' => get_key k n ≫= node_at p'
  end.
Fixpoint change_at (p : list str) (f : ConfigNode -> ConfigNode) (n : ConfigNode) : ConfigNode :=
  match p with
  | [] => f n
  | k :: p' =>
      match get_key k n with
      | Some c => put k (change_at p' f c) n
      | None => n
      end
  end.

(** ** [Config::get]: the path is cut at its dots; what follows a last dot is ignored
    when it is empty. *)

(** The part before the first dot, and what follows the dot. *)
Fixpoint cut_dot (s : str) : str * option str :=
  match s with
  | [] => ([], None)
  | c :: s' =>
      if decide (c = ".") then ([], Some s')
      else let '(k, r) := cut_dot s' in (c :: k, r)
  end.

Fixpoint get_loop (fuel : nat) (path : str) (cur : ConfigNode) : option ConfigNode :=
  match fuel, path with
  | _, [] => Some cur
  | O, _ => Some cur
  | S fuel', _ =>
      let '(key, rest) := cut_dot path in
      match get_key key cur with
      | None => None
      | Some c => match rest with None => Some c | Some r => get_loop fuel' r c end
      end
  end.
Definition get (path : str) (root : ConfigNode) : option ConfigNode :=
  get_loop (length path) path root.

(** ** Lemmas *)

Lemma get_key_put key key' c n :
  get_key key (put key' c n) = if decide (key' = key) then Some c else get_key key n.
Proof. apply assoc_assign. Qed.

Lemma put_put key a b n : put key a (put key b n) = put key a n.
Proof.
  unfold put. destruct n as [v l]. simpl. f_equal. induction l as [|[k c] l IH]; simpl.
  - by rewrite decide_True.
  - destruct (decide (k = key)) as [->|Hne]; simpl; [by rewrite decide_True|].
    by rewrite decide_False, IH.
Qed.

Lemma change_at_app p q f n :
  is_Some (node_at p n) -> change_at (p ++ q) f n = change_at p (change_at q f) n.
Proof.
  revert n. induction p as [|k p IH]; intros n; simpl; [done|].
  destruct (get_key k n) as [c|]; [|done]. simpl. intros H. by rewrite IH.
Qed.

Lemma node_at_change p f n :
  is_Some (node_at p n) -> node_at p (change_at p f n) = f <$> node_at p n.
Proof.
  revert n. induction p as [|k p IH]; intros n; simpl; [done|].
  destruct (get_key k n) as [c|]; simpl; [|by intros [? [=]]]. intros H.
  rewrite get_key_put, decide_True by done. simpl. by apply IH.
Qed.

Lemma node_at_app p q n : node_at (p ++ q) n = node_at p n ≫= node_at q.
Proof.
  revert n. induction p as [|k p IH]; intros n; simpl; [done|].
  destruct (get_key k n); simpl; [apply IH|done].
Qed.

Lemma change_at_twice p f g n : change_at p g (change_at p f n) = change_at p (g ∘ f) n.
Proof.
  revert n. induction p as [|k p IH]; intros n; simpl; [done|].
  destruct (get_key k n) as [c|] eqn:E; [|by rewrite E].
  rewrite get_key_put, decide_True by done. by rewrite put_put, IH.
Qed.

Lemma change_at_ext p f g n : (forall m, f m = g m) -> change_at p f n = change_at p g n.
Proof.
  intros E. revert n. induction p as [|k p IH]; intros n; simpl; [apply E|].
  destruct (get_key k n); [by rewrite IH|done].
Qed.

(** Setting a child and then changing it is putting the changed child. *)
Lemma change_at_put p k c f n :
  is_Some (node_at p n) ->
  change_at (p ++ [k]) f (change_at p (put k c) n) = change_at p (put k (f c)) n.
Proof.
  intros Hs. rewrite change_at_app by (rewrite node_at_change by done; by destruct Hs as [x ->]).
  rewrite change_at_twice. apply change_at_ext. intros m. simpl.
  rewrite get_key_put, decide_True by done. apply put_put.
Qed.

Lemma change_at_id p n c : node_at p n = Some c -> forall f, f c = c -> change_at p f n = n.
Proof.
  revert n. induction p as [|k p IH]; intros n; simpl; [by intros [= ->]|].
  destruct (get_key k n) as [d|] eqn:E; simpl; [|done]. intros Hd f Hf.
  rewrite (IH d Hd f Hf). unfold put. destruct n as [v l]. f_equal.
  unfold get_key in E. simpl in E. clear IH. induction l as [|[k' b] l IHl]; simpl in *; [done|].
  case_decide; simplify_eq; [done|]. by rewrite IHl.
Qed.

Lemma cut_dot_split k r : "." ∉ k -> cut_dot (k ++ "." :: r) = (k, Some r).
Proof.
  induction k as [|c k IH]; simpl; [done|]. rewrite not_elem_of_cons. intros [Hne Hk].
  rewrite decide_False by congruence. by rewrite IH.
Qed.
Lemma cut_dot_length s : match snd (cut_dot s) with Some r => (length r < length s)%nat | None => True end.
Proof.
  induction s as [|c s IH]; simpl; [done|]. case_decide; simpl; [lia|].
  destruct (cut_dot s) as [k [r|]]; simpl in *; [lia|done].
Qed.
Lemma cut_dot_none k : "." ∉ k -> cut_dot k = (k, None).
Proof.
  induction k as [|c k IH]; simpl; [done|]. rewrite not_elem_of_cons. intros [Hne Hk].
  rewrite decide_False by congruence. by rewrite IH.
Qed.
End node.
