(* ===== verification/Json.v ===== *)
(** * The JSON reader of Config (base/config/config.cpp, json_parser and
    parse_json_stream)

    The input stream is the text still to be read, or [None] once a [get] has
    failed: from then on every [get] and [putback] does nothing. *)

From S2P Require Import Prelude ConfigNode.

Open Scope Z_scope.
Open Scope byte_scope.

Definition stream : Type := option str.

Definition quote : byte := x22.
Definition backslash : byte := x5c.

(** ** The stream *)

(** [is.get(c)]: the character read and the stream after it; a failing [get] leaves
    the variable as it was. *)
Definition sget (s : stream) : option (byte * stream) :=
  match s with
  | Some (c :: l) => Some (c, Some l)
  | _ => None
  end.
Definition get_or (c : byte) (s : stream) : byte * stream := default (c, None) (sget s).
Definition putback (c : byte) (s : stream) : stream := cons c <$> s.

Fixpoint skip_list (l : str) : stream :=
  match l with
  | [] => None
  | c :: l' => if is_ws c then skip_list l' else Some l
  end.
Definition skip_ws (s : stream) : stream := s ≫= skip_list.

(** ** Values *)

Definition unescape (n : byte) : byte :=
  if decide (n = "n") then x0a
  else if decide (n = "t") then x09
  else if decide (n = "r") then x0d
  else n.

(** [parse_string] after its first [get]; after a backslash at the end of the text an
    uninitialised variable is read. *)
Fixpoint str_body (l : str) : outcome (str * stream) :=
  match l with
  | [] => Ret ([], None)
  | c :: l' =>
      if decide (c = backslash) then
        match l' with
        | [] => Undef
        | n :: l'' => r ← str_body l''; Ret (unescape n :: fst r, snd r)
        end
      else if decide (c = quote) then Ret ([], Some l')
      else r ← str_body l'; Ret (c :: fst r, snd r)
  end.
Definition parse_string (s : stream) : outcome (str * stream) :=
  match sget s with
  | Some (_, Some l) => str_body l
  | _ => Ret ([], None)
  end.

Definition is_delim (c : byte) : bool := is_ws c || bool_decide (c ∈ [","; "]"; "}"]).

Fixpoint tok_body (l : str) : str * stream :=
  match l with
  | [] => ([], None)
  | c :: l' => if is_delim c then ([], Some l) else let '(t, s) := tok_body l' in (c :: t, s)
  end.

Section json.
Context {D : Type} (stod : str -> outcome D).

#[local] Abbreviation value := (@ConfigValue D).
#[local] Abbreviation node := (@ConfigNode D).

Definition token_value (t : str) : outcome value :=
  if decide (t = ["t"; "r"; "u"; "e"]) then Ret (VBool true)
  else if decide (t = ["f"; "a"; "l"; "s"; "e"]) then Ret (VBool false)
  else if decide (t = ["n"; "u"; "l"; "l"]) then Ret VNull
  else if decide ("." ∈ t) then d ← stod t; Ret (VDouble d)
  else z ← stoll t; Ret (VInt64 z).

Definition returns {A} (o : outcome A) : bool := match o with Ret _ => true | _ => false end.

(** All elements converted, or the first exception. *)
Fixpoint convert {A} (f : str -> outcome A) (l : list str) : outcome (list A) :=
  match l with
  | [] => Ret []
  | s :: l' => a ← f s; r ← convert f l'; Ret (a :: r)
  end.

Definition array_value (arr : list str) : outcome value :=
  if forallb (fun s => returns (stoi s)) arr then l ← convert stoll arr; Ret (VInt64s l)
  else if forallb (fun s => returns (stod s)) arr then l ← convert stod arr; Ret (VDoubles l)
  else Ret (VStrings arr).

(** The loop over the elements of an array; [c] is the variable of [parse_value].
    [None] when the fuel is used up. *)
Fixpoint array_loop (fuel : nat) (c : byte) (s : stream) (arr : list str)
    : option (outcome (list str * stream)) :=
  match fuel with
  | O => None
  | S fuel' =>
      let '(c1, s1) := get_or c (skip_ws s) in
      if decide (c1 = "]") then Some (Ret (arr, s1))
      else
        match parse_string (putback c1 s1) with
        | Ret (e, s2) =>
            let arr' := arr ++ [e] in
            let '(c2, s3) := get_or c1 (skip_ws s2) in
            if decide (c2 = "]") then Some (Ret (arr', putback c2 s3))
            else if decide (c2 = ",") then array_loop fuel' c2 s3 arr'
            else Some (Ret (arr', putback c2 s3))
        | Throw => Some Throw
        | Undef => Some Undef
        end
  end.

(** [parse_value]: at the end of the text it reads an uninitialised variable. *)
Definition parse_value (fuel : nat) (s : stream) : option (outcome (value * stream)) :=
  match sget (skip_ws s) with
  | None => Some Undef
  | Some (c, s1) =>
      if decide (c = quote) then
        Some (r ← parse_string (putback c s1); Ret (VString (fst r), snd r))
      else if decide (c = "[") then
        match array_loop fuel c s1 [] with
        | None => None
        | Some o => Some (r ← o; v ← array_value (fst r); Ret (v, snd r))
        end
      else if decide (c = "{") then Some (Ret (VNull, putback c s1))
      else
        let '(t, s2) := tok_body (default [] s1) in
        Some (v ← token_value (c :: t); Ret (v, s2))
  end.

(** ** The main loop

    The stack of pointers is the path of keys from the root to its top. *)

Record JState := {
  input : stream;
  root_ : node;
  stack : list str;
  last_key : str;
}.

Definition open_brace (s : stream) (st : JState) : JState :=
  {| input := s; root_ := root_ st;
     stack := match last_key st with
              | [] => stack st
              | k => match node_at (stack st) (root_ st) ≫= get_key k with
                     | Some _ => stack st ++ [k]
                     | None => stack st
                     end
              end;
     last_key := [] |}.
Definition close_brace (s : stream) (st : JState) : JState :=
  {| input := s; root_ := root_ st; stack := removelast (stack st); last_key := [] |}.

(** A key, and its value when a colon follows. *)
Definition read_key (fuel : nat) (s : stream) (st : JState) : option (outcome JState) :=
  match parse_string (putback quote s) with
  | Throw => Some Throw
  | Undef => Some Undef
  | Ret (key, s1) =>
      let '(c, s2) := get_or quote (skip_ws s1) in
      if decide (c = ":") then
        let '(c', s3) := get_or c (skip_ws s2) in
        match parse_value fuel (putback c' s3) with
        | None => None
        | Some o =>
            Some (r ← o;
                  Ret {| input := snd r;
                         root_ := change_at (stack st) (set_key key (fst r)) (root_ st);
                         stack := stack st; last_key := key |})
        end
      else
        Some (Ret {| input := s2; root_ := root_ st; stack := stack st; last_key := last_key st |})
  end.

(** The outcome of the loop, and the tree it leaves: an exception keeps what was read. *)
Fixpoint json_loop (fuel : nat) (st : JState) : option (outcome unit * node) :=
  match fuel with
  | O => None
  | S fuel' =>
      match sget (input st) with
      | None => Some (Ret tt, root_ st)
      | Some (c, s) =>
          if is_ws c then
            json_loop fuel' {| input := s; root_ := root_ st; stack := stack st; last_key := last_key st |}
          else if decide (c = "{") then json_loop fuel' (open_brace s st)
          else if decide (c = "}") then json_loop fuel' (close_brace s st)
          else if decide (c = quote) then
            match read_key fuel' s st with
            | None => None
            | Some Throw => Some (Throw, root_ st)
            | Some Undef => Some (Undef, root_ st)
            | Some (Ret st') => json_loop fuel' st'
            end
          else json_loop fuel' {| input := s; root_ := root_ st; stack := stack st; last_key := last_key st |}
      end
  end.

(** [parse_json_stream] on a text, from an empty root. *)
Definition parse_json (fuel : nat) (text : str) : option (outcome unit * node) :=
  json_loop fuel {| input := Some text; root_ := ConfigNode0; stack := []; last_key := [] |}.

(** ** The texts the reader is meant for *)

Definition ws (w : str) : Prop := Forall (fun c => is_ws c = true) w.

(** The characters between two quotes, and the string they stand for: a backslash and one
    of the letters n, t and r are a line feed, a tab and a carriage return, a backslash and
    any other character are that character. *)
Inductive escaped : str -> str -> Prop :=
| escaped_nil : escaped [] []
| escaped_plain c t s : c <> quote -> c <> backslash -> escaped t s -> escaped (c :: t) (c :: s)
| escaped_n t s : escaped t s -> escaped (backslash :: "n" :: t) (x0a :: s)
| escaped_t t s : escaped t s -> escaped (backslash :: "t" :: t) (x09 :: s)
| escaped_r t s : escaped t s -> escaped (backslash :: "r" :: t) (x0d :: s)
| escaped_other c t s :
    c <> "n" -> c <> "t" -> c <> "r" -> escaped t s -> escaped (backslash :: c :: t) (c :: s).

Definition quoted (t : str) : str := quote :: t ++ [quote].

Inductive elements : list str -> str -> Prop :=
| elements_one w1 t s w2 : ws w1 -> escaped t s -> ws w2 -> elements [s] (w1 ++ quoted t ++ w2)
| elements_more w1 t s w2 ss u :
    ws w1 -> escaped t s -> ws w2 -> elements ss u ->
    elements (s :: ss) (w1 ++ quoted t ++ w2 ++ "," :: u).

(** A token: not empty, without delimiters, and not another kind of value. *)
Definition token (t : str) : Prop :=
  exists c t', t = c :: t' /\ Forall (fun c => is_delim c = false) t /\
    c <> quote /\ c <> "[" /\ c <> "{".

(** A number that a text begins with: white space, a sign or none, decimal digits, and
    then no digit. *)
Definition numeral (d : Z) : byte :=
  nth (Z.to_nat d) ["0"; "1"; "2"; "3"; "4"; "5"; "6"; "7"; "8"; "9"] "0".
Definition horner (ds : list Z) : Z := foldl (fun n d => 10 * n + d) 0 ds.

Inductive int_prefix : str -> Z -> Prop :=
| int_prefix_text w sign f ds rest :
    Forall (fun c => is_space c = true) w ->
    (sign, f) ∈ [([], id); (["+"], id); (["-"], Z.opp)] ->
    ds <> [] -> Forall (fun d => 0 <= d < 10) ds ->
    (forall d r, 0 <= d < 10 -> rest <> numeral d :: r) ->
    int_prefix (w ++ sign ++ (numeral <$> ds) ++ rest) (f (horner ds)).

(** It is an integer of a width. *)
Definition int_text (bits : Z) (t : str) (z : Z) : Prop :=
  int_prefix t z /\ - 2 ^ (bits - 1) <= z < 2 ^ (bits - 1).
Definition no_int (bits : Z) (t : str) : Prop := forall z, ~ int_text bits t z.

Definition words : list str := [text "true"; text "false"; text "null"].

(** The values and their texts.  A token with a dot is what [std::stod] makes of it, any
    other begins with an integer.  An array of strings is one of integers when all of
    them begin with an integer of 32 bits, one of doubles when [std::stod] reads all of
    them, one of strings otherwise. *)
Inductive value_text : value -> str -> Prop :=
| text_string t s : escaped t s -> value_text (VString s) (quoted t)
| text_true : value_text (VBool true) (text "true")
| text_false : value_text (VBool false) (text "false")
| text_null : value_text VNull (text "null")
| text_int t z : token t -> t ∉ words -> "." ∉ t -> int_text 64 t z -> value_text (VInt64 z) t
| text_double t d : token t -> "." ∈ t -> stod t = Ret d -> value_text (VDouble d) t
| text_empty w : ws w -> value_text (VInt64s []) ("[" :: w ++ ["]"])
| text_ints l zs t : elements l t -> Forall2 (int_text 32) l zs -> value_text (VInt64s zs) ("[" :: t ++ ["]"])
| text_doubles l ds t :
    elements l t -> Exists (no_int 32) l -> Forall2 (fun e d => stod e = Ret d) l ds ->
    value_text (VDoubles ds) ("[" :: t ++ ["]"])
| text_strings l t :
    elements l t -> Exists (no_int 32) l -> Exists (fun e => forall d, stod e <> Ret d) l ->
    value_text (VStrings l) ("[" :: t ++ ["]"]).

Inductive member :=
| Scalar (k : str) (v : value)
| Object (k : str) (ms : list member).

Inductive members_text : list member -> str -> Prop :=
| members_nil w : ws w -> members_text [] w
| members_last m t w : member_text m t -> ws w -> members_text [m] (t ++ w)
| members_more m t w ms u :
    member_text m t -> ws w -> members_text ms u -> members_text (m :: ms) (t ++ w ++ "," :: u)
with member_text : member -> str -> Prop :=
| member_scalar w0 tk k w1 w2 v t :
    ws w0 -> escaped tk k -> ws w1 -> ws w2 -> value_text v t ->
    member_text (Scalar k v) (w0 ++ quoted tk ++ w1 ++ ":" :: w2 ++ t)
| member_object w0 tk k w1 w2 ms u :
    ws w0 -> escaped tk k -> k <> [] -> ws w1 -> ws w2 -> members_text ms u ->
    member_text (Object k ms) (w0 ++ quoted tk ++ w1 ++ ":" :: w2 ++ "{" :: u ++ ["}"]).

(** What the members make of a node. *)
Fixpoint apply_member (m : member) (n : node) : node :=
  match m with
  | Scalar k v => set_key k v n
  | Object k ms =>
      put k ((fix go (ms : list member) (n : node) : node :=
                match ms with [] => n | m' :: ms' => go ms' (apply_member m' n) end)
               ms (of_value VNull)) n
  end.
Fixpoint apply_members (ms : list member) (n : node) : node :=
  match ms with [] => n | m :: ms' => apply_members ms' (apply_member m n) end.

Lemma apply_object k ms n : apply_member (Object k ms) n = put k (apply_members ms (of_value VNull)) n.
Proof.
  reflexivity.
Qed.

(** ** The number at the front of a text *)

Lemma digit_numeral d : 0 <= d < 10 -> digit (numeral d) = Some d.
Proof. intros Hd. case_index d 10%nat; reflexivity. Qed.

Lemma digit_inv c d : digit c = Some d -> 0 <= d < 10 /\ c = numeral d.
Proof. destruct c; vm_compute; try discriminate; intros [= <-]; by split_and!. Qed.

Lemma digit_none c r : (forall d r', 0 <= d < 10 -> c :: r <> numeral d :: r') -> digit c = None.
Proof.
  intros H. destruct (digit c) as [d|] eqn:E; [|done]. apply digit_inv in E as [Hd ->].
  by destruct (H d r Hd).
Qed.

Definition push_digit (n d : Z) : Z := 10 * n + d.

Lemma digits_numerals ds acc rest :
  Forall (fun d => 0 <= d < 10) ds -> (forall d r, 0 <= d < 10 -> rest <> numeral d :: r) ->
  digits acc ((numeral <$> ds) ++ rest) =
    match ds with [] => acc | _ => Some (foldl push_digit (default 0 acc) ds) end.
Proof.
  intros Hds Hr. revert acc. induction Hds as [|d ds Hd _ IH]; intros acc.
  - destruct rest as [|c rest]; [done|]. cbn [fmap list_fmap app digits]. by rewrite (digit_none c rest).
  - cbn [fmap list_fmap app digits]. rewrite digit_numeral, IH by done. by destruct ds.
Qed.

Lemma digits_inv s acc n :
  digits acc s = Some n ->
  exists ds rest, s = (numeral <$> ds) ++ rest /\ Forall (fun d => 0 <= d < 10) ds /\
    (forall d r, 0 <= d < 10 -> rest <> numeral d :: r) /\ (acc = None -> ds <> []) /\
    n = foldl push_digit (default 0 acc) ds.
Proof.
  revert acc. induction s as [|c s IH]; intros acc; cbn [digits].
  - intros ->. by exists [], [].
  - destruct (digit c) as [d|] eqn:E.
    + apply digit_inv in E as [Hd ->]. intros (ds & rest & -> & Hds & Hr & _ & ->)%IH.
      exists (d :: ds), rest. split_and!; [done|by constructor|done|done|done].
    + intros ->. exists [], (c :: s). split_and!; try done. intros d r Hd [= -> _].
      by rewrite digit_numeral in E.
Qed.

Lemma drop_while_split p s :
  exists w, s = w ++ drop_while p s /\ Forall (fun c => p c = true) w /\
    (forall c t, drop_while p s = c :: t -> p c = false).
Proof.
  induction s as [|c s (w & E & Hw & Hh)]; [by exists []|]. cbn. destruct (p c) eqn:Hc.
  - exists (c :: w). split_and!; [by rewrite E at 1|by constructor|done].
  - exists []. split_and!; [done|constructor|by intros ? ? [= <- _]].
Qed.

Lemma drop_while_app p w s :
  Forall (fun c => p c = true) w -> (forall c t, s = c :: t -> p c = false) -> drop_while p (w ++ s) = s.
Proof.
  intros Hw Hs. induction Hw as [|c w Hc _ IH]; simpl; [|by rewrite Hc].
  destruct s as [|c t]; simpl; [done|]. by rewrite (Hs c t).
Qed.

Lemma numeral_plain d : 0 <= d < 10 -> is_space (numeral d) = false /\ numeral d <> "-" /\ numeral d <> "+".
Proof. intros Hd. by case_index d 10%nat. Qed.

Lemma int_prefix_strto t z : int_prefix t z <-> strto t = Some z.
Proof.
  split.
  - intros [w sign f ds rest Hw Hs Hne Hds Hr]. unfold strto.
    destruct ds as [|d ds]; [done|]. pose proof Hds as Hds'. apply Forall_cons in Hds' as [Hd _].
    destruct (numeral_plain d Hd) as (Hsp & Hm & Hp).
    pose proof (digits_numerals (d :: ds) None rest Hds Hr) as E.
    rewrite !elem_of_cons in Hs. destruct Hs as [[= -> ->]|[[= -> ->]|[[= -> ->]|[]%elem_of_nil]]];
      cbn [fmap list_fmap app] in *; (rewrite drop_while_app; [|done|by intros ? ? [= <- _]]).
    + by rewrite !decide_False by done.
    + rewrite decide_False, decide_True by done. exact E.
    + rewrite decide_True by done. by rewrite E.
  - unfold strto. destruct (drop_while_split is_space t) as (w & E & Hw & Hh).
    destruct (drop_while is_space t) as [|c s]; [done|]. rewrite E.
    assert (forall sign f s', (sign, f) ∈ [([], id); (["+"], id); (["-"], Z.opp)] -> c :: s = sign ++ s' ->
      f <$> digits None s' = Some z -> int_prefix (w ++ c :: s) z) as Hmain.
    { intros sign f s' Hin -> H. destruct (digits None s') as [n|] eqn:Ed; [|done].
      apply digits_inv in Ed as (ds & rest & -> & Hds & Hr & Hne & ->). injection H as <-.
      apply (int_prefix_text w sign f ds rest); auto. }
    case_decide as H1; [subst; intros H; apply (Hmain ["-"] Z.opp s); [set_solver|done|done]|].
    case_decide as H2; intros H.
    + subst. apply (Hmain ["+"] id s); [set_solver|done|by rewrite H].
    + apply (Hmain [] id (c :: s)); [set_solver|done|by rewrite H].
Qed.

Lemma int_text_sto bits t z : int_text bits t z <-> sto bits t = Ret z.
Proof.
  unfold int_text, sto. rewrite int_prefix_strto. destruct (strto t) as [y|]; [|naive_solver].
  destruct (Z.leb_spec (- 2 ^ (bits - 1)) y), (Z.ltb_spec y (2 ^ (bits - 1))); cbn; split;
    try (intros [[= ->] ?]; lia || done); try done; intros [= ->]; (split; [done|lia]).
Qed.

Lemma no_int_sto bits t : no_int bits t <-> returns (sto bits t) = false.
Proof.
  unfold no_int. split.
  - intros H. destruct (sto bits t) as [z| |] eqn:E; [|done..]. by destruct (H z); apply int_text_sto.
  - intros E z Hz%int_text_sto. by rewrite Hz in E.
Qed.

(** ** The values of the grammar are those of the reader *)

Lemma forallb_returns {A} (f : str -> outcome A) l :
  forallb (fun s => returns (f s)) l = true <-> exists r, Forall2 (fun e a => f e = Ret a) l r.
Proof.
  split.
  - induction l as [|e l IH]; cbn; [by exists []|]. intros [He (r & Hr)%IH]%andb_prop.
    destruct (f e) as [a| |] eqn:E; [|done..]. exists (a :: r). by constructor.
  - intros [r Hr]. induction Hr as [|e a l r He _ IH]; [done|]. cbn. by rewrite He.
Qed.

Lemma forallb_fails {A} (f : str -> outcome A) (P : str -> Prop) l :
  (forall e, P e <-> returns (f e) = false) -> Exists P l <-> forallb (fun s => returns (f s)) l = false.
Proof.
  intros HP. induction l as [|e l IH]; cbn.
  - rewrite Exists_nil. done.
  - rewrite Exists_cons, IH, HP. by destruct (returns (f e)), (forallb _ l); naive_solver.
Qed.

Lemma convert_returns {A} (f : str -> outcome A) l r : Forall2 (fun e a => f e = Ret a) l r -> convert f l = Ret r.
Proof. induction 1 as [|e a l r He _ IH]; [done|]. cbn. by rewrite He, IH. Qed.

Lemma sto_wider t z : stoi t = Ret z -> stoll t = Ret z.
Proof.
  unfold stoi, stoll. rewrite <-!int_text_sto. unfold int_text. intros [? ?]. split; [done|lia].
Qed.

Lemma array_value_cases l :
  (exists zs, Forall2 (int_text 32) l zs /\ array_value l = Ret (VInt64s zs)) \/
  (exists ds, Exists (no_int 32) l /\ Forall2 (fun e d => stod e = Ret d) l ds /\ array_value l = Ret (VDoubles ds)) \/
  (Exists (no_int 32) l /\ Exists (fun e => forall d, stod e <> Ret d) l /\ array_value l = Ret (VStrings l)).
Proof.
  unfold array_value. case_match eqn:E.
  - left. apply forallb_returns in E as [zs Hzs]. exists zs. split.
    + eapply Forall2_impl; [exact Hzs|]. intros e z. apply int_text_sto.
    + rewrite (convert_returns stoll l zs); [done|]. eapply Forall2_impl; [exact Hzs|]. apply sto_wider.
  - right. apply (forallb_fails stoi (no_int 32)) in E; [|apply no_int_sto]. case_match eqn:E2.
    + left. apply forallb_returns in E2 as [ds Hds]. exists ds. by rewrite (convert_returns stod l ds).
    + right. apply (forallb_fails stod (fun e => forall d, stod e <> Ret d)) in E2; [done|].
      intros e. destruct (stod e); cbn; split; intros He; try done. by destruct (He a).
Qed.

Lemma Forall2_functional {A B} (R : A -> B -> Prop) l r1 r2 :
  (forall a b1 b2, R a b1 -> R a b2 -> b1 = b2) -> Forall2 R l r1 -> Forall2 R l r2 -> r1 = r2.
Proof.
  intros HR H1. revert r2. induction H1 as [|a b l r1 Hab _ IH]; intros r2 H2.
  - by apply Forall2_nil_inv_l in H2.
  - apply Forall2_cons_inv_l in H2 as (b' & r2' & Hb & Hr & ->). f_equal; eauto.
Qed.

Lemma no_int_not l zs : Exists (no_int 32) l -> ~ Forall2 (int_text 32) l zs.
Proof.
  intros H F. apply list.Exists_exists in H as (e & He & Hn).
  apply list_elem_of_lookup in He as [i Hi]. destruct (Forall2_lookup_l _ _ _ _ _ F Hi) as (z & _ & Hz).
  by apply (Hn z).
Qed.

Lemma no_stod_not l ds :
  Exists (fun e => forall d, stod e <> Ret d) l -> ~ Forall2 (fun e d => stod e = Ret d) l ds.
Proof.
  intros H F. apply list.Exists_exists in H as (e & He & Hn).
  apply list_elem_of_lookup in He as [i Hi]. destruct (Forall2_lookup_l _ _ _ _ _ F Hi) as (d & _ & Hd).
  by apply (Hn d).
Qed.

(** What the reader makes of the texts of values. *)
Lemma value_text_reader v t :
  value_text v t ->
  (exists u s, t = quoted u /\ escaped u s /\ v = VString s) \/
  (token t /\ token_value t = Ret v) \/
  (exists w, ws w /\ t = "[" :: w ++ ["]"] /\ v = VInt64s []) \/
  (exists l u, elements l u /\ array_value l = Ret v /\ t = "[" :: u ++ ["]"]).
Proof.
  assert (forall z y e, int_text 32 e z -> int_text 32 e y -> z = y) as Hfun.
  { intros z y e. rewrite !int_text_sto. congruence. }
  intros [u s He| | | |u z Ht Hw Hd Hz|u d Ht Hd Hz|w Hw|l zs u Hl Hz|l ds u Hl Hn Hz|l u Hl Hn Hz].
  - left. by exists u, s.
  - right; left. split; [|done]. by eexists _, _; split_and!; [|repeat constructor| | |].
  - right; left. split; [|done]. by eexists _, _; split_and!; [|repeat constructor| | |].
  - right; left. split; [|done]. by eexists _, _; split_and!; [|repeat constructor| | |].
  - right; left. split; [done|]. unfold words in Hw. rewrite !not_elem_of_cons in Hw.
    destruct Hw as (H1 & H2 & H3 & _). unfold token_value. rewrite !decide_False by done.
    apply int_text_sto in Hz. unfold stoll. by rewrite Hz.
  - right; left. split; [done|]. unfold token_value. repeat (rewrite decide_False by (intros ->; set_solver)).
    by rewrite decide_True, Hz by done.
  - right; right; left. by exists w.
  - do 3 right. exists l, u. split_and!; [done| |done].
    destruct (array_value_cases l) as [(zs' & H & ->)|[(? & H & _)|(H & _)]];
      [|by destruct (no_int_not _ zs H)..].
    do 2 f_equal. eapply Forall2_functional; eauto.
  - do 3 right. exists l, u. split_and!; [done| |done].
    destruct (array_value_cases l) as [(zs' & H & _)|[(ds' & _ & H & ->)|(_ & H & _)]];
      [by destruct (no_int_not _ zs' Hn)| |by destruct (no_stod_not _ ds H)].
    do 2 f_equal. eapply Forall2_functional; [|exact H|exact Hz]. cbn. congruence.
  - do 3 right. exists l, u. split_and!; [done| |done].
    destruct (array_value_cases l) as [(zs' & H & _)|[(ds' & _ & H & _)|(_ & _ & ->)]];
      [by destruct (no_int_not _ zs' Hn)|by destruct (no_stod_not _ ds' Hz)|done].
Qed.

(** Every token the reader converts is the text of the value. *)
Lemma text_token t v : token t -> token_value t = Ret v -> value_text v t.
Proof.
  intros Ht. unfold token_value. case_decide as H1; [subst; intros [= <-]; constructor|].
  case_decide as H2; [subst; intros [= <-]; constructor|].
  case_decide as H3; [subst; intros [= <-]; constructor|]. case_decide as Hd.
  - destruct (stod t) as [d| |] eqn:E; [|done..]. intros [= <-]. by constructor.
  - destruct (stoll t) as [z| |] eqn:E; [|done..]. intros [= <-]. constructor; [done| |done|].
    + unfold words. set_solver.
    + by apply int_text_sto.
Qed.

(** ** Reading the pieces *)

Definition delimited (rest : str) : Prop := exists d r, rest = d :: r /\ is_delim d = true.

Lemma skip_list_ws w c l : ws w -> is_ws c = false -> skip_list (w ++ c :: l) = Some (c :: l).
Proof. intros Hw Hc. induction Hw as [|x w Hx _ IH]; simpl; [by rewrite Hc|by rewrite Hx]. Qed.

Lemma get_after_ws c0 w c l :
  ws w -> is_ws c = false -> get_or c0 (skip_ws (Some (w ++ c :: l))) = (c, Some l).
Proof. intros Hw Hc. unfold get_or, skip_ws. simpl. by rewrite skip_list_ws. Qed.

Lemma str_body_escaped t s rest : escaped t s -> str_body (t ++ quote :: rest) = Ret (s, Some rest).
Proof.
  induction 1 as [|c t s Hq Hb _ IH|t s _ IH|t s _ IH|t s _ IH|c t s Hn Ht Hr _ IH]; simpl.
  - done.
  - rewrite decide_False, decide_False by done. by rewrite IH.
  - by rewrite IH.
  - by rewrite IH.
  - by rewrite IH.
  - rewrite IH. unfold unescape. by rewrite !decide_False.
Qed.

Lemma parse_string_quoted t s rest :
  escaped t s -> parse_string (Some (quoted t ++ rest)) = Ret (s, Some rest).
Proof.
  intros H. unfold parse_string, quoted. simpl. rewrite <-app_assoc. by apply str_body_escaped.
Qed.

Lemma tok_body_delim t d r :
  Forall (fun c => is_delim c = false) t -> is_delim d = true ->
  tok_body (t ++ d :: r) = (t, Some (d :: r)).
Proof. intros Ht Hd. induction Ht as [|c t Hc _ IH]; simpl; [by rewrite Hd|by rewrite Hc, IH]. Qed.

Lemma quoted_app t rest : quoted t ++ rest = quote :: (t ++ quote :: rest).
Proof. unfold quoted. simpl. by rewrite <-app_assoc. Qed.

(** A string element between white space. *)
Lemma array_element fuel c0 w1 t s l arr :
  ws w1 -> escaped t s ->
  array_loop (S fuel) c0 (Some (w1 ++ quoted t ++ l)) arr =
  (let '(c2, s3) := get_or quote (skip_ws (Some l)) in
   if decide (c2 = "]") then Some (Ret (arr ++ [s], putback c2 s3))
   else if decide (c2 = ",") then array_loop fuel c2 s3 (arr ++ [s])
   else Some (Ret (arr ++ [s], putback c2 s3))).
Proof.
  intros Hw He. cbn [array_loop]. rewrite quoted_app, get_after_ws by done. simpl.
  rewrite <-quoted_app, (parse_string_quoted t s) by done. done.
Qed.

Lemma array_loop_elements ss t rest fuel c0 arr :
  elements ss t -> (length t < fuel)%nat ->
  array_loop fuel c0 (Some (t ++ "]" :: rest)) arr = Some (Ret (arr ++ ss, Some ("]" :: rest))).
Proof.
  intros He. revert fuel c0 arr.
  induction He as [w1 t s w2 Hw1 He Hw2|w1 t s w2 ss u Hw1 He Hw2 _ IH]; intros fuel c0 arr Hf;
    (destruct fuel as [|fuel]; [simpl in Hf; lia|]); rewrite <-!app_assoc;
    rewrite (array_element fuel c0 w1 t s) by done.
  - by rewrite get_after_ws by done.
  - cbn [app]. rewrite get_after_ws by done. rewrite decide_False, decide_True by done.
    rewrite IH; [by rewrite <-app_assoc|]. rewrite !length_app in Hf. simpl in Hf. lia.
Qed.

(** What is left in front of the rest after a value: the bracket of a non-empty array
    is put back. *)
Lemma parse_value_text w v t rest :
  value_text v t -> ws w -> delimited rest ->
  exists r, (r = [] \/ r = ["]"]) /\ forall fuel, (length t < fuel)%nat ->
    parse_value fuel (Some (w ++ t ++ rest)) = Some (Ret (v, Some (r ++ rest))).
Proof.
  intros Hv Hw Hd. unfold parse_value, skip_ws. cbn [mbind option_bind].
  apply value_text_reader in Hv
    as [(u & s & -> & He & ->)|[((c & t' & -> & Ht & Hq & Hb & Hc) & Hv)|[(w' & Hw' & -> & ->)|(l & u & Hl & Hv & ->)]]].
  - exists []. split; [by left|]; intros fuel Hf. rewrite quoted_app, skip_list_ws by done. simpl.
    rewrite <-quoted_app, (parse_string_quoted u s) by done. done.
  - exists []. split; [by left|]; intros fuel Hf. inversion Ht as [|? ? Hdc Ht']; subst.
    cbn [app]. rewrite skip_list_ws; [|done|unfold is_delim in Hdc; by destruct (is_ws c)]. simpl.
    rewrite !decide_False by done. destruct Hd as (d & r & -> & Hd).
    rewrite tok_body_delim by done. by rewrite Hv.
  - exists []. split; [by left|]; intros fuel Hf. cbn [app]. rewrite skip_list_ws by done. simpl.
    destruct fuel as [|fuel]; [lia|]. cbn [array_loop]. rewrite <-app_assoc. cbn [app].
    by rewrite get_after_ws by done.
  - exists ["]"]. split; [by right|]; intros fuel Hf. cbn [app]. rewrite skip_list_ws by done. simpl.
    rewrite <-app_assoc. cbn [app]. rewrite (array_loop_elements l) by (done || (simpl in Hf; rewrite length_app in Hf; lia)).
    rewrite bind_Ret. simpl. by rewrite Hv.
Qed.

(** ** Runs of the main loop *)

Definition at_text (l : str) (root : node) (p : list str) (k : str) : JState :=
  {| input := Some l; root_ := root; stack := p; last_key := k |}.

(** The loop comes from one state to another, with enough fuel left over for what is
    left of the text. *)
Definition runs (l : str) (st : JState) (l' : str) (st' : JState) : Prop :=
  forall fuel, (length l < fuel)%nat ->
    exists fuel', (length l' < fuel')%nat /\ json_loop fuel st = json_loop fuel' st'.

Lemma runs_trans l1 st1 l2 st2 l3 st3 : runs l1 st1 l2 st2 -> runs l2 st2 l3 st3 -> runs l1 st1 l3 st3.
Proof.
  intros H1 H2 fuel Hf. destruct (H1 fuel Hf) as (f2 & Hf2 & ->). apply (H2 f2 Hf2).
Qed.

Lemma runs_refl l st : runs l st l st.
Proof. intros fuel Hf. by exists fuel. Qed.

(** One turn of the loop on a character. *)
Lemma runs_skip c l root p k :
  c <> "{" -> c <> "}" -> c <> quote ->
  runs (c :: l) (at_text (c :: l) root p k) l (at_text l root p k).
Proof.
  intros H1 H2 H3 [|fuel] Hf; [simpl in Hf; lia|]. exists fuel. split; [simpl in Hf; lia|]. simpl.
  rewrite !decide_False by done. by destruct (is_ws c).
Qed.

Lemma is_ws_other c : is_ws c = true -> c <> "{" /\ c <> "}" /\ c <> quote.
Proof. intros Hc. by split_and!; intros ->. Qed.

Lemma runs_ws w l root p k : ws w -> runs (w ++ l) (at_text (w ++ l) root p k) l (at_text l root p k).
Proof.
  induction 1 as [|c w Hc _ IH]; [apply runs_refl|]. apply is_ws_other in Hc as (? & ? & ?).
  eapply runs_trans; [by apply runs_skip|exact IH].
Qed.

Lemma runs_open l root p k n :
  node_at p root ≫= get_key k = Some n -> k <> [] ->
  runs ("{" :: l) (at_text ("{" :: l) root p k) l (at_text l root (p ++ [k]) []).
Proof.
  intros Hn Hk [|fuel] Hf; [simpl in Hf; lia|]. exists fuel. split; [simpl in Hf; lia|]. simpl.
  unfold open_brace, at_text. simpl. destruct k as [|c k]; [done|]. by rewrite Hn.
Qed.

Lemma runs_open_root l root p :
  runs ("{" :: l) (at_text ("{" :: l) root p []) l (at_text l root p []).
Proof.
  intros [|fuel] Hf; [simpl in Hf; lia|]. exists fuel. split; [simpl in Hf; lia|]. done.
Qed.

Lemma runs_close l root p k k0 :
  runs ("}" :: l) (at_text ("}" :: l) root (p ++ [k0]) k) l (at_text l root p []).
Proof.
  intros [|fuel] Hf; [simpl in Hf; lia|]. exists fuel. split; [simpl in Hf; lia|]. simpl.
  unfold close_brace, at_text. simpl. by rewrite removelast_last.
Qed.

(** A key with its value: read, and set in the node on top of the stack. *)
Lemma runs_key tk k w1 w2 v t s rest r root p k0 :
  escaped tk k -> ws w1 ->
  (forall fuel, (length t < fuel)%nat ->
     parse_value fuel (Some (w2 ++ t ++ s)) = Some (Ret (v, Some (r ++ rest)))) ->
  (length (r ++ rest) <= length (t ++ s))%nat -> ws w2 ->
  (exists c t', t = c :: t' /\ is_ws c = false) ->
  let l := quoted tk ++ w1 ++ ":" :: w2 ++ t ++ s in
  runs l (at_text l root p k0) (r ++ rest) (at_text (r ++ rest) (change_at p (set_key k v) root) p k).
Proof.
  intros Hk Hw1 Hv Hlen Hw2 (c & t' & Et & Hc) l fuel Hf. unfold l in *. clear l.
  destruct fuel as [|fuel]; [lia|]. exists fuel. split.
  { rewrite !length_app in Hf. simpl in Hf. rewrite !length_app in *. simpl in Hf. lia. }
  rewrite quoted_app. cbn [json_loop at_text input sget]. cbn [is_ws decide]. simpl (is_ws quote).
  cbv iota. rewrite !decide_False by done. rewrite decide_True by done.
  unfold read_key. cbn [putback fmap option_fmap option_map].
  rewrite <-quoted_app, (parse_string_quoted tk k) by done.
  rewrite get_after_ws by done. rewrite decide_True by done.
  rewrite Et. cbn [app]. rewrite get_after_ws by done. cbn [putback fmap option_fmap option_map].
  assert (parse_value fuel (Some (c :: t' ++ s)) = parse_value fuel (Some (w2 ++ t ++ s))) as ->.
  { unfold parse_value, skip_ws. cbn [mbind option_bind]. rewrite Et. cbn [app].
    rewrite skip_list_ws by done. simpl. by rewrite Hc. }
  rewrite Hv by (rewrite !length_app in Hf; simpl in Hf; rewrite !length_app in Hf; lia).
  done.
Qed.

(** ** The grammar is read *)

Scheme members_text_mut := Minimality for members_text Sort Prop
with member_text_mut := Minimality for member_text Sort Prop.

Lemma delimited_ws w c l : ws w -> is_delim c = true -> delimited (w ++ c :: l).
Proof.
  intros Hw Hc. destruct Hw as [|x w Hx _]; [by exists c, l|].
  exists x, (w ++ c :: l). unfold is_delim. by rewrite Hx.
Qed.

Lemma delimited_after w rest : ws w -> delimited rest -> delimited (w ++ rest).
Proof. intros Hw (d & r & -> & Hd). by apply delimited_ws. Qed.

Lemma value_text_head v t : value_text v t -> exists c t', t = c :: t' /\ is_ws c = false.
Proof.
  intros [(u & s & -> & _)|[((c & t' & -> & Ht & _) & _)|[(w & _ & -> & _)|(l & u & _ & _ & ->)]]]%value_text_reader.
  - by eexists _, _.
  - exists c, t'. split; [done|]. inversion Ht as [|? ? Hc]; subst. unfold is_delim in Hc. by destruct (is_ws c).
  - by eexists _, _.
  - by eexists _, _.
Qed.

(** Reading [t] with a rest from the node at the top of the stack has effect [f]. *)
Definition reads (t rest : str) (f : node -> node) : Prop :=
  forall root p k0, is_Some (node_at p root) ->
    exists k, runs (t ++ rest) (at_text (t ++ rest) root p k0) rest
                (at_text rest (change_at p f root) p k).

Lemma reads_scalar w0 tk k w1 w2 v t rest :
  ws w0 -> escaped tk k -> ws w1 -> ws w2 -> value_text v t -> delimited rest ->
  reads (w0 ++ quoted tk ++ w1 ++ ":" :: w2 ++ t) rest (set_key k v).
Proof.
  intros Hw0 Hk Hw1 Hw2 Hv Hd root p k0 Hn. exists k.
  destruct (parse_value_text w2 v t rest Hv Hw2 Hd) as (r & Hr & Hp).
  rewrite <-!app_assoc. cbn [app]. rewrite <-!app_assoc.
  eapply runs_trans; [by apply runs_ws|].
  eapply runs_trans; [eapply (runs_key tk k w1 w2 v t rest rest r)|]; try done.
  - rewrite !length_app. destruct (value_text_head v t Hv) as (c & t' & -> & _).
    destruct Hr as [-> | ->]; simpl; lia.
  - by apply (value_text_head v).
  - destruct Hr as [-> | ->]; [apply runs_refl|]. by apply runs_skip.
Qed.

Lemma reads_object w0 tk k w1 w2 ms u rest :
  ws w0 -> escaped tk k -> k <> [] -> ws w1 -> ws w2 ->
  (forall rest, reads u ("}" :: rest) (apply_members ms)) ->
  reads (w0 ++ quoted tk ++ w1 ++ ":" :: w2 ++ "{" :: u ++ ["}"]) rest (apply_member (Object k ms)).
Proof.
  intros Hw0 Hk Hne Hw1 Hw2 Hms root p k0 Hn. exists [].
  rewrite <-!app_assoc. cbn [app]. rewrite <-!app_assoc. cbn [app]. rewrite <-!app_assoc. cbn [app].
  eapply runs_trans; [by apply runs_ws|].
  set (root1 := change_at p (set_key k VNull) root).
  assert (node_at p root1 ≫= get_key k = Some (of_value VNull)) as Hk1.
  { unfold root1. rewrite node_at_change by done. destruct Hn as [n ->]. simpl.
    unfold set_key. by rewrite get_key_put, decide_True. }
  eapply runs_trans.
  { eapply (runs_key tk k w1 w2 VNull ["{"] (u ++ "}" :: rest) (u ++ "}" :: rest) ["{"]); try done.
    - intros fuel _. unfold parse_value, skip_ws. cbn [mbind option_bind app].
      by rewrite skip_list_ws by done.
    - by exists "{", []. }
  fold root1. cbn [app]. eapply runs_trans; [by eapply runs_open|].
  destruct (Hms rest root1 (p ++ [k]) []) as (k1 & Hr).
  { rewrite node_at_app. destruct (node_at p root1) as [n|]; [|done]. simpl in *. by rewrite Hk1. }
  eapply runs_trans; [exact Hr|]. unfold root1. unfold set_key at 1.
  rewrite change_at_put by done.
  apply runs_close.
Qed.

Lemma members_read ms u :
  members_text ms u -> forall rest, delimited rest -> reads u rest (apply_members ms).
Proof.
  apply (members_text_mut
    (fun ms u => forall rest, delimited rest -> reads u rest (apply_members ms))
    (fun m t => forall rest, delimited rest -> reads t rest (apply_member m))).
  - intros w Hw rest _ root p k0 [n Hn]. exists k0. simpl. rewrite (change_at_id p root n) by done.
    by apply runs_ws.
  - intros m t w _ IH Hw rest Hd root p k0 Hn. destruct (IH (w ++ rest)) with root p k0 as (k & Hr);
      [by apply delimited_after|done|].
    exists k. rewrite <-app_assoc. eapply runs_trans; [exact Hr|]. by apply runs_ws.
  - intros m t w ms' u' _ IHm Hw _ IHms rest Hd root p k0 Hn.
    destruct (IHm (w ++ "," :: u' ++ rest)) with root p k0 as (k & Hr);
      [by apply delimited_ws|done|].
    destruct (IHms rest Hd (change_at p (apply_member m) root) p k) as (k' & Hr').
    { rewrite node_at_change by done. by destruct Hn as [n ->]. }
    exists k'. rewrite <-!app_assoc. cbn [app].
    eapply runs_trans; [exact Hr|]. eapply runs_trans; [by apply runs_ws|].
    eapply runs_trans; [by apply runs_skip|].
    rewrite change_at_twice in Hr'. exact Hr'.
  - intros. by apply reads_scalar.
  - intros w0 tk k w1 w2 ms0 u' Hw0 Hk Hne Hw1 Hw2 _ IH rest _. apply reads_object; try done.
    intros rest'. apply IH. by eexists "}", _.
Qed.

(** A text with one object, and white space around it. *)
Definition json_text (ms : list member) (text : str) : Prop :=
  exists w0 u w1, text = w0 ++ "{" :: u ++ "}" :: w1 /\ ws w0 /\ members_text ms u /\ ws w1.

Lemma parse_json_text ms text fuel :
  json_text ms text -> (length text < fuel)%nat ->
  parse_json fuel text = Some (Ret tt, apply_members ms ConfigNode0).
Proof.
  intros (w0 & u & w1 & -> & Hw0 & Hu & Hw1) Hf. unfold parse_json.
  destruct (members_read ms u Hu ("}" :: w1)) with (@ConfigNode0 D) (@nil str) (@nil byte) as (k & Hr);
    [by eexists "}", _|done|].
  assert (runs (w0 ++ "{" :: u ++ "}" :: w1)
    (at_text (w0 ++ "{" :: u ++ "}" :: w1) ConfigNode0 [] [])
    ("}" :: w1) (at_text ("}" :: w1) (apply_members ms ConfigNode0) [] k)) as Hrun.
  { eapply runs_trans; [by apply runs_ws|].
    eapply runs_trans; [apply runs_open_root|exact Hr]. }
  destruct (Hrun fuel Hf) as (fuel1 & Hf1 & E). unfold at_text in E. rewrite E.
  destruct fuel1 as [|fuel1]; [simpl in Hf1; lia|]. simpl. unfold close_brace. simpl.
  destruct (runs_ws w1 [] (apply_members ms ConfigNode0) [] [] Hw1 fuel1) as (fuel2 & Hf2 & E2).
  { rewrite app_nil_r. simpl in Hf1. lia. }
  rewrite app_nil_r in E2. unfold at_text in E2. etrans; [exact E2|].
  destruct fuel2; [simpl in Hf2; lia|done].
Qed.

(** ** A text with a token that is no value *)

(** [std::stoll] or [std::stod] throws on it. *)
Definition bad_token (t : str) : Prop :=
  token t /\ t ∉ words /\ ("." ∉ t -> no_int 64 t) /\ ("." ∈ t -> stod t = Throw).

(** An object whose members are followed by a key with such a token. *)
Definition broken_json (ms : list member) (text : str) : Prop :=
  exists w0 u w1 tk k w2 w3 t rest,
    text = w0 ++ "{" :: u ++ w1 ++ quoted tk ++ w2 ++ ":" :: w3 ++ t ++ rest /\
    ws w0 /\ ws w1 /\ ws w2 /\ ws w3 /\ escaped tk k /\ bad_token t /\ delimited rest /\
    (u = [] /\ ms = [] \/ exists u', u = u' ++ [","] /\ members_text ms u').

Lemma bad_token_throws t : bad_token t -> token_value t = Throw.
Proof.
  intros (_ & Hw & Hi & Hd). unfold words in Hw. rewrite !not_elem_of_cons in Hw.
  destruct Hw as (H1 & H2 & H3 & _). unfold token_value. rewrite !decide_False by done.
  case_decide as Hdot; [by rewrite Hd|]. specialize (Hi Hdot). apply no_int_sto in Hi.
  unfold stoll. by destruct (sto 64 t) eqn:E; [|done|unfold sto in E; repeat case_match].
Qed.

(** The turn that reads the key. *)
Lemma loop_bad_token fuel tk k w2 w3 t rest root p k0 :
  escaped tk k -> ws w2 -> ws w3 -> bad_token t -> delimited rest ->
  let l := quoted tk ++ w2 ++ ":" :: w3 ++ t ++ rest in
  (length l < fuel)%nat -> json_loop fuel (at_text l root p k0) = Some (Throw, root).
Proof.
  intros Hk Hw2 Hw3 Ht Hr l Hf. destruct fuel as [|fuel]; [lia|]. clear Hf. unfold l. clear l.
  pose proof (bad_token_throws t Ht) as Hthrow.
  destruct Ht as ((c & t' & -> & Ht & Hq & Hb & Hc) & _). inversion Ht as [|? ? Hdc Ht']; subst.
  assert (is_ws c = false) as Hcw by (unfold is_delim in Hdc; by destruct (is_ws c)).
  rewrite quoted_app. cbn [json_loop at_text input sget]. simpl (is_ws quote). cbv iota.
  rewrite !decide_False by done. rewrite decide_True by done.
  unfold read_key. cbn [putback fmap option_fmap option_map].
  rewrite <-quoted_app, (parse_string_quoted tk k) by done.
  rewrite get_after_ws, decide_True by done. cbn [app].
  rewrite get_after_ws by done. cbn [putback fmap option_fmap option_map].
  unfold parse_value, skip_ws. cbn [mbind option_bind skip_list]. rewrite Hcw. cbn [sget].
  rewrite !decide_False by done. destruct Hr as (d & r & -> & Hd). cbn [default from_option id].
  rewrite tok_body_delim by done. by rewrite Hthrow.
Qed.

Lemma runs_object ms u rest :
  u = [] /\ ms = [] \/ (exists u', u = u' ++ [","] /\ members_text ms u') ->
  exists k, runs ("{" :: u ++ rest) (at_text ("{" :: u ++ rest) ConfigNode0 [] [])
              rest (at_text rest (apply_members ms ConfigNode0) [] k).
Proof.
  intros [[-> ->]|(u' & -> & Hu)]; [exists []; apply runs_open_root|]. rewrite <-app_assoc. cbn [app].
  destruct (members_read ms u' Hu ("," :: rest)) with (@ConfigNode0 D) (@nil str) (@nil byte) as (k & Hr);
    [by eexists ",", _|done|].
  exists k. eapply runs_trans; [apply runs_open_root|]. eapply runs_trans; [exact Hr|]. by apply runs_skip.
Qed.

(** The exception leaves the members read so far. *)
Lemma parse_json_broken ms text fuel :
  broken_json ms text -> (length text < fuel)%nat ->
  parse_json fuel text = Some (Throw, apply_members ms ConfigNode0).
Proof.
  intros (w0 & u & w1 & tk & k & w2 & w3 & t & rest & -> & Hw0 & Hw1 & Hw2 & Hw3 & Hk & Ht & Hr & Hu) Hf.
  set (l := quoted tk ++ w2 ++ ":" :: w3 ++ t ++ rest) in *. destruct (runs_object ms u (w1 ++ l) Hu) as [k1 Hrun].
  assert (runs (w0 ++ "{" :: u ++ w1 ++ l) (at_text (w0 ++ "{" :: u ++ w1 ++ l) ConfigNode0 [] [])
    l (at_text l (apply_members ms ConfigNode0) [] k1)) as H.
  { eapply runs_trans; [by apply runs_ws|]. eapply runs_trans; [exact Hrun|]. by apply runs_ws. }
  destruct (H fuel Hf) as (fuel1 & Hf1 & E). unfold at_text in E. unfold parse_json. rewrite E.
  by apply (loop_bad_token fuel1 tk k).
Qed.

(** ** Other texts *)

(** The rest of a text without the opening bracket of an array. *)
Definition shrinks (l l' : str) : Prop := l' `suffix_of` l.

Lemma suffix_notin (c : byte) l l' : l' `suffix_of` l -> c ∉ l -> c ∉ l'.
Proof. intros [k ->]. rewrite elem_of_app. tauto. Qed.

Lemma skip_list_suffix l l' : skip_list l = Some l' -> l' `suffix_of` l.
Proof.
  induction l as [|c l IH]; simpl; [done|]. case_match.
  - intros E. by apply suffix_cons_r, IH.
  - by intros [= <-].
Qed.

Lemma str_body_suffix l s l' : str_body l = Ret (s, Some l') -> l' `suffix_of` l.
Proof.
  revert s l'. induction l as [l IH] using (induction_ltof1 _ length). intros s l'.
  destruct l as [|c l]; [done|]. simpl. case_decide.
  - destruct l as [|n l]; [done|]. destruct (str_body l) as [[s1 st1]| |] eqn:E; try done.
    rewrite bind_Ret. intros [= <- ->]. apply suffix_cons_r, suffix_cons_r.
    eapply IH; [unfold ltof; simpl; lia|done].
  - case_decide; [intros [= <- <-]; by apply suffix_cons_r|].
    destruct (str_body l) as [[s1 st1]| |] eqn:E; try done. rewrite bind_Ret. intros [= <- ->].
    apply suffix_cons_r. eapply IH; [unfold ltof; simpl; lia|done].
Qed.

Lemma parse_string_suffix c l s l' :
  parse_string (Some (c :: l)) = Ret (s, Some l') -> l' `suffix_of` l.
Proof. apply str_body_suffix. Qed.

Lemma tok_body_suffix l t l' : tok_body l = (t, Some l') -> l' `suffix_of` l.
Proof.
  revert t. induction l as [|c l IH]; intros t; simpl; [done|]. case_match; [by intros [= <- <-]|].
  destruct (tok_body l) as [t1 s1]. intros [= <- ->]. by eapply suffix_cons_r, IH.
Qed.

Lemma get_suffix c0 s l c l' :
  get_or c0 (skip_ws s) = (c, Some l') -> s = Some l -> (c :: l') `suffix_of` l.
Proof.
  intros E ->. unfold get_or, skip_ws in E. simpl in E.
  destruct (skip_list l) as [[|d l1]|] eqn:E1; simpl in E; try done.
  injection E as <- <-. by apply skip_list_suffix.
Qed.

(** Without an array a value is read in one pass. *)
Lemma parse_value_total fuel l :
  "[" ∉ l ->
  match parse_value fuel (Some l) with
  | None => False
  | Some (Ret (_, Some l')) => l' `suffix_of` l
  | Some _ => True
  end.
Proof.
  intros Hb. unfold parse_value, skip_ws. cbn [mbind option_bind].
  destruct (skip_list l) as [[|c l1]|] eqn:E; simpl; try done.
  apply skip_list_suffix in E. case_decide as Hq.
  - subst c. change (parse_string (Some (quote :: l1))) with (str_body l1).
    destruct (str_body l1) as [[s [l2|]]| |] eqn:E1; simpl; try done.
    apply str_body_suffix in E1. etrans; [exact E1|]. etrans; [|exact E]. by apply suffix_cons_r.
  - rewrite decide_False by (intros ->; apply (suffix_notin _ _ _ E Hb); left).
    case_decide; [done|]. destruct (tok_body l1) as [t [l2|]] eqn:E1.
    + destruct (token_value (c :: t)); simpl; try done.
      apply tok_body_suffix in E1. etrans; [exact E1|]. etrans; [|exact E]. by apply suffix_cons_r.
    + by destruct (token_value (c :: t)).
Qed.

Lemma parse_value_suffix fuel s l o :
  parse_value fuel s = o -> s = Some l -> "[" ∉ l ->
  match o with
  | None => False
  | Some (Ret (_, Some l')) => l' `suffix_of` l
  | Some _ => True
  end.
Proof. intros <- ->. apply parse_value_total. Qed.

Lemma read_key_suffix fuel s l st o :
  read_key fuel s st = o -> s = Some l -> "[" ∉ l ->
  match o with
  | None => False
  | Some (Ret st') => match input st' with Some l' => l' `suffix_of` l | None => True end
  | Some _ => True
  end.
Proof.
  intros <- -> Hb. unfold read_key. cbn [putback fmap option_fmap option_map].
  destruct (parse_string (Some (quote :: l))) as [[key [l1|]]| |] eqn:E; try done.
  apply parse_string_suffix in E. destruct (get_or quote (skip_ws (Some l1))) as [c [l2|]] eqn:E2.
  2: { case_decide; [|done]. unfold get_or, skip_ws. simpl. done. }
  apply (get_suffix _ _ l1) in E2; [|done]. apply suffix_cons_l in E2.
  case_decide; [|simpl; by etrans].
  destruct (get_or c (skip_ws (Some l2))) as [c' [l3|]] eqn:E3; [|done].
  apply (get_suffix _ _ l2) in E3; [|done].
  assert ((c' :: l3) `suffix_of` l) as Hs by (do 2 (etrans; [done|]); done).
  destruct (parse_value fuel (putback c' (Some l3))) as [o|] eqn:Hv;
    eapply (parse_value_suffix fuel _ (c' :: l3)) in Hv; try done;
    try by eapply suffix_notin.
  destruct o as [[v [l4|]]| |]; simpl; try done. etrans; [exact Hv|exact Hs].
Qed.

Lemma json_loop_total fuel st :
  match input st with Some l => ("[" ∉ l) /\ (length l < fuel)%nat | None => (0 < fuel)%nat end ->
  json_loop fuel st <> None.
Proof.
  revert st. induction fuel as [|fuel IH]; intros st Hin; [destruct (input st); lia|].
  cbn [json_loop]. destruct (input st) as [[|c l]|] eqn:E; simpl; [done| |done].
  destruct Hin as [Hb Hf]. simpl in Hf. rewrite not_elem_of_cons in Hb. destruct Hb as [_ Hb].
  assert (forall st', input st' = Some l -> json_loop fuel st' <> None) as Hnext.
  { intros st' E'. apply IH. rewrite E'. split; [done|lia]. }
  case_match; [by apply Hnext|]. case_decide; [by apply Hnext|]. case_decide; [by apply Hnext|].
  case_decide; [|by apply Hnext].
  destruct (read_key fuel (Some l) st) as [o|] eqn:Hk;
    eapply (read_key_suffix fuel _ l) in Hk; try done. destruct o as [st'| |]; try done.
  apply IH. revert Hk. destruct (input st') as [l'|]; intros Hk; [|lia].
  split; [exact (suffix_notin _ _ _ Hk Hb)|]. apply suffix_length in Hk. lia.
Qed.

(** An array that ends after a comma is read for ever. *)
Lemma array_loop_failed fuel arr : array_loop fuel "," None arr = None.
Proof.
  revert arr. induction fuel as [|fuel IH]; intros arr; [done|]. cbn [array_loop].
  unfold get_or, skip_ws, parse_string. simpl. apply IH.
Qed.

Lemma array_loop_endless ss t fuel c0 arr :
  elements ss t -> array_loop fuel c0 (Some (t ++ [","])) arr = None.
Proof.
  intros He. revert fuel c0 arr.
  induction He as [w1 t s w2 Hw1 He Hw2|w1 t s w2 ss u Hw1 He Hw2 _ IH]; intros fuel c0 arr;
    (destruct fuel as [|fuel]; [done|]); rewrite <-!app_assoc;
    rewrite (array_element fuel c0 w1 t s) by done.
  - rewrite get_after_ws by done. rewrite decide_False, decide_True by done.
    destruct fuel as [|fuel]; [done|]. cbn [array_loop]. unfold get_or, skip_ws, parse_string. simpl.
    apply array_loop_failed.
  - cbn [app]. rewrite get_after_ws by done. rewrite decide_False, decide_True by done. apply IH.
Qed.

(** The first two turns on an object that begins with a key. *)
Lemma loop_open fuel l :
  json_loop (S fuel) {| input := Some ("{" :: l); root_ := ConfigNode0; stack := []; last_key := [] |} =
  json_loop fuel (at_text l ConfigNode0 [] []).
Proof. reflexivity. Qed.

Lemma loop_quote fuel tk l root p k :
  json_loop (S fuel) (at_text (quoted tk ++ l) root p k) =
  match read_key fuel (Some (tk ++ quote :: l)) (at_text (quoted tk ++ l) root p k) with
  | None => None
  | Some Throw => Some (Throw, root)
  | Some Undef => Some (Undef, root)
  | Some (Ret st') => json_loop fuel st'
  end.
Proof. rewrite quoted_app. reflexivity. Qed.

Lemma read_key_colon fuel tk k l st :
  escaped tk k ->
  read_key fuel (Some (tk ++ quote :: l)) st =
  let '(c, s2) := get_or quote (skip_ws (Some l)) in
  if decide (c = ":") then
    let '(c', s3) := get_or c (skip_ws s2) in
    match parse_value fuel (putback c' s3) with
    | None => None
    | Some o =>
        Some (r ← o;
              Ret {| input := snd r;
                     root_ := change_at (stack st) (set_key k (fst r)) (root_ st);
                     stack := stack st; last_key := k |})
    end
  else Some (Ret {| input := s2; root_ := root_ st; stack := stack st; last_key := last_key st |}).
Proof.
  intros Hk. unfold read_key. cbn [putback fmap option_fmap option_map].
  rewrite <-quoted_app. by rewrite (parse_string_quoted tk k).
Qed.

(** C36: Without an opening bracket in the text the reader comes to an end on any input,
    with a tree, an exception or undefined behaviour.  With one it may not: an array
    whose text ends after a comma is read for ever; and a text that ends where a value
    is due makes it use an uninitialised variable. *)
Theorem json_parse_ends text :
  ("[" ∉ text -> parse_json (S (length text)) text <> None) /\
  (forall fuel tk k t ss, escaped tk k -> elements ss t ->
     parse_json fuel ("{" :: quoted tk ++ ":" :: "[" :: t ++ [","]) = None) /\
  (forall fuel tk k, escaped tk k -> (3 <= fuel)%nat ->
     parse_json fuel ("{" :: quoted tk ++ [":"]) = Some (Undef, ConfigNode0)).
Proof.
  split_and!.
  - intros Hb. apply json_loop_total. simpl. split; [done|lia].
  - intros fuel tk k t ss Hk He. unfold parse_json. destruct fuel as [|[|fuel]]; [done..|].
    rewrite loop_open, loop_quote, (read_key_colon fuel tk k _ _ Hk).
    change (":" :: "[" :: t ++ [","]) with ([] ++ ":" :: [] ++ "[" :: t ++ [","]).
    rewrite get_after_ws by (done || constructor). rewrite decide_True by done.
    rewrite get_after_ws by (done || constructor).
    unfold parse_value, skip_ws. cbn [putback fmap option_fmap option_map mbind option_bind].
    change ("[" :: t ++ [","]) with ([] ++ "[" :: t ++ [","]).
    rewrite skip_list_ws by (done || constructor). cbn [sget app]. rewrite decide_False, decide_True by done. by rewrite (array_loop_endless ss).
  - intros fuel tk k Hk Hf. unfold parse_json. destruct fuel as [|[|fuel]]; [lia..|].
    rewrite loop_open, loop_quote, (read_key_colon fuel tk k _ _ Hk). reflexivity.
Qed.
End json.

(** ** Instances: an object with a nested one, and numbers without [double] *)

Definition no_double (_ : str) : outcome unit := Throw.

Definition a_tree : list (member (D := unit)) :=
  [Object ["a"] [Scalar ["b"] (VString ["x"])]; Scalar ["n"] (VInt64 12)].
Definition its_text : str :=
  quoted ["a"] ++ [":"; " "; "{"] ++ quoted ["b"] ++ [":"] ++ quoted ["x"] ++ ["}"; ","] ++
  quoted ["n"] ++ [":"; "1"; "2"].

Lemma a_tree_text : members_text no_double a_tree its_text.
Proof.
  assert (forall c, c <> quote -> c <> backslash -> escaped [c] [c]) as He
    by (intros; repeat (constructor; try done)).
  apply (members_more no_double _ (quoted ["a"] ++ [] ++ ":" :: [" "] ++ "{" :: (quoted ["b"] ++ [":"] ++ quoted ["x"]) ++ ["}"])
    [] _ (quoted ["n"] ++ [":"; "1"; "2"])).
  - apply (member_object no_double [] ["a"] ["a"] [] [" "]);
      [constructor|by apply He|done|constructor|by repeat constructor|].
    apply (members_last no_double _ (quoted ["b"] ++ [":"] ++ quoted ["x"]) []); [|constructor].
    apply (member_scalar no_double [] ["b"] ["b"] [] []);
      [constructor|by apply He|constructor|constructor|]. constructor. by apply He.
  - constructor.
  - apply (members_last no_double _ (quoted ["n"] ++ [":"; "1"; "2"]) []); [|constructor].
    apply (member_scalar no_double [] ["n"] ["n"] [] []);
      [constructor|by apply He|constructor|constructor|].
    apply text_token; [|reflexivity]. exists "1", ["2"]. split_and!; try done. by repeat constructor.
Qed.
