(* ===== verification/Config.v ===== *)
(** * Config (base/config/config.h, config.cpp)

    The INI reader, the loading of files and the polling for changes.  What the file
    system gives for a path is a parameter of the calls.

    A watcher is a callback that works on the configuration itself: it is a list of
    operations of it, which depends on its argument and on the state it finds.  A call
    returns, throws or is undefined together with the state it leaves, so that what an
    exception of the reader or of a watcher leaves behind can be stated. *)

From S2P Require Import Prelude ConfigNode Json.

Open Scope Z_scope.
Open Scope byte_scope.

(** ** INI texts *)

Definition newline : byte := x0a.

(** [std::getline] until it fails: [acc] is the line so far, reversed. *)
Fixpoint lines_from (acc : str) (l : str) : list str :=
  match l with
  | [] => match acc with [] => [] | _ => [rev acc] end
  | c :: l' => if decide (c = newline) then rev acc :: lines_from [] l' else lines_from (c :: acc) l'
  end.
Definition lines_of : str -> list str := lines_from [].

(** [find] and the two [substr] around the character found. *)
Fixpoint split_at (x : byte) (s : str) : option (str * str) :=
  match s with
  | [] => None
  | c :: s' =>
      if decide (c = x) then Some ([], s')
      else match split_at x s' with Some (a, b) => Some (c :: a, b) | None => None end
  end.
(** The part before a character, the whole string without it. *)
Definition before (x : byte) (s : str) : str :=
  match split_at x s with Some (a, _) => a | None => s end.

Definition is_line_end (c : byte) : bool := bool_decide (c ∈ [" "; x09; x0d]).

(** The comments and the blanks around a line taken off. *)
Definition strip_line (line : str) : str :=
  rdrop_while is_line_end (drop_while is_blank (before ";" (before "#" line))).

Section config.
Context {D : Type}.

#[local] Abbreviation node := (@ConfigNode D).

Definition full_key (section key : str) : str :=
  match section with [] => key | _ => section ++ "." :: key end.

Definition ini_entry (section : str) (root : node) (line : str) : str * node :=
  match split_at "=" line with
  | Some (k, v) =>
      let key := rdrop_while is_blank k in
      let val := rdrop_while is_blank (drop_while is_blank v) in
      (section, set_key (full_key section key) (VString val) root)
  | None => (section, root)
  end.

(** One line, already stripped. *)
Definition ini_line (st : str * node) (line : str) : str * node :=
  let '(section, root) := st in
  match line with
  | [] => (section, root)
  | c :: l =>
      if decide (c = "[") then
        match split_at "]" l with
        | Some (name, _) => (name, root)
        | None => ini_entry section root line
        end
      else ini_entry section root line
  end.

(** [parse_ini_stream]. *)
Definition parse_ini (text : str) (root : node) : node :=
  snd (foldl ini_line ([], root) (strip_line <$> lines_of text)).

(** ** INI files as they are meant *)

(** No character that the reader treats specially inside a name, a key or a value. *)
Definition plain (specials : list byte) (s : str) : Prop := Forall (fun c => c ∉ specials) s.
Definition edges (p : byte -> bool) (s : str) : Prop :=
  (forall c t, s = c :: t -> p c = false) /\ (forall c t, s = t ++ [c] -> p c = false).

Inductive ini_item := Nothing | Header (name : str) | Entry (key val : str).

Definition blanks (w : str) : Prop := Forall (fun c => is_blank c = true) w.
Definition line_end (w : str) : Prop := Forall (fun c => is_line_end c = true) w.
(** Nothing, or a comment up to the end of the line. *)
Definition comment (s : str) : Prop := s = [] \/ (exists t, s = "#" :: t) \/ (exists t, s = ";" :: t).

Inductive item_text : ini_item -> str -> Prop :=
| text_nothing : item_text Nothing []
| text_section name : plain ["#"; ";"; "]"] name -> item_text (Header name) ("[" :: name ++ ["]"])
| text_entry key val b1 b2 :
    key <> [] -> plain ["#"; ";"; "="] key -> edges is_line_end key -> (forall t, key <> "[" :: t) ->
    plain ["#"; ";"] val -> edges is_line_end val -> blanks b1 -> blanks b2 ->
    (val = [] -> b2 = []) ->
    item_text (Entry key val) (key ++ b1 ++ "=" :: b2 ++ val).

(** A line of a file: the item between blanks, with a comment after it. *)
Definition line_text (i : ini_item) (line : str) : Prop :=
  exists w1 t w2 c, line = w1 ++ t ++ w2 ++ c /\ blanks w1 /\ item_text i t /\ line_end w2 /\
    comment c /\ newline ∉ line.

(** The lines of a file, each with its line feed, which the last one may lack when it is
    not empty. *)
Inductive file_text : list str -> str -> Prop :=
| file_empty : file_text [] []
| file_line l ls text : file_text ls text -> file_text (l :: ls) (l ++ newline :: text)
| file_last l : l <> [] -> file_text [l] l.

(** What the items make of a node. *)
Fixpoint apply_items (section : str) (items : list ini_item) (root : node) : node :=
  match items with
  | [] => root
  | Nothing :: items' => apply_items section items' root
  | Header name :: items' => apply_items name items' root
  | Entry k v :: items' => apply_items section items' (set_key (full_key section k) (VString v) root)
  end.

(** ** Lemmas on strings *)

Lemma lines_from_line acc l rest :
  newline ∉ l -> lines_from acc (l ++ newline :: rest) = (rev acc ++ l) :: lines_from [] rest.
Proof.
  revert acc. induction l as [|c l IH]; intros acc Hl; simpl.
  - by rewrite app_nil_r.
  - rewrite not_elem_of_cons in Hl. destruct Hl as [Hc Hl].
    rewrite decide_False by congruence. rewrite IH by done. simpl. by rewrite <-app_assoc.
Qed.

Lemma lines_from_last acc l : newline ∉ l -> rev acc ++ l <> [] -> lines_from acc l = [rev acc ++ l].
Proof.
  revert acc. induction l as [|c l IH]; intros acc Hl Hne; simpl.
  - rewrite app_nil_r in *. by destruct acc.
  - rewrite not_elem_of_cons in Hl. destruct Hl as [Hc Hl]. rewrite decide_False by congruence.
    rewrite IH; [|done|]; simpl; rewrite <-app_assoc; done.
Qed.

Lemma lines_of_text ls text :
  Forall (fun l => newline ∉ l) ls -> file_text ls text -> lines_of text = ls.
Proof.
  unfold lines_of. intros Hl Ht. induction Ht as [|l ls text _ IH|l Hne].
  - done.
  - apply Forall_cons in Hl as [Hl Hls]. rewrite lines_from_line by done. cbn. by rewrite IH.
  - apply Forall_cons in Hl as [Hl _]. by rewrite lines_from_last.
Qed.

Lemma split_at_found x a b : x ∉ a -> split_at x (a ++ x :: b) = Some (a, b).
Proof.
  induction a as [|c a IH]; simpl; [by rewrite decide_True|]. rewrite not_elem_of_cons. intros [Hc Ha].
  rewrite decide_False by congruence. by rewrite IH.
Qed.
Lemma split_at_none x a : x ∉ a -> split_at x a = None.
Proof.
  induction a as [|c a IH]; simpl; [done|]. rewrite not_elem_of_cons. intros [Hc Ha].
  rewrite decide_False by congruence. by rewrite IH.
Qed.
Lemma before_none x a : x ∉ a -> before x a = a.
Proof. intros H. unfold before. by rewrite split_at_none. Qed.
Lemma before_found x a b : x ∉ a -> before x (a ++ x :: b) = a.
Proof. intros H. unfold before. by rewrite split_at_found. Qed.

(** A comment is cut off. *)
Lemma before_comment s c :
  ("#" ∉ s) -> (";" ∉ s) -> comment c -> before ";" (before "#" (s ++ c)) = s.
Proof.
  intros H1 H2 [->|[[t ->]|[t ->]]].
  - rewrite app_nil_r, (before_none "#") by done. by apply before_none.
  - rewrite before_found by done. by apply before_none.
  - unfold before at 2. destruct (split_at "#" (s ++ ";" :: t)) as [[a b]|] eqn:E;
      [|by apply before_found].
    assert (exists t', a = s ++ ";" :: t') as [t' ->]; [|by apply before_found].
    clear H2. revert a E. induction s as [|d s IH]; intros a; simpl.
    + destruct (split_at "#" t) as [[a1 b1]|]; [|done]. intros [= <- <-]. by exists a1.
    + rewrite not_elem_of_cons in H1. destruct H1 as [Hd H1]. rewrite decide_False by congruence.
      destruct (split_at "#" (s ++ ";" :: t)) as [[a1 b1]|]; [|done]. intros [= <- <-].
      destruct (IH H1 a1) as [t' ->]; [done|]. by exists t'.
Qed.

Lemma drop_while_all p w s :
  Forall (fun c => p c = true) w -> (forall c t, s = c :: t -> p c = false) -> drop_while p (w ++ s) = s.
Proof.
  intros Hw Hs. induction Hw as [|c w Hc _ IH]; simpl; [|by rewrite Hc].
  destruct s as [|c t]; simpl; [done|]. by rewrite (Hs c t).
Qed.

Lemma rdrop_while_all p w s :
  Forall (fun c => p c = true) w -> (forall c t, s = t ++ [c] -> p c = false) -> rdrop_while p (s ++ w) = s.
Proof.
  intros Hw Hs. unfold rdrop_while. rewrite rev_app_distr, drop_while_all; [apply rev_involutive| |].
  - by apply Forall_rev.
  - intros c t E. apply (Hs c (rev t)). rewrite <-(rev_involutive s), E. done.
Qed.

Lemma blank_line_end c : is_blank c = true -> is_line_end c = true.
Proof. unfold is_blank, is_line_end. rewrite !bool_decide_eq_true. set_solver. Qed.

Lemma line_end_blank c : is_line_end c = false -> is_blank c = false.
Proof. intros H. destruct (is_blank c) eqn:E; [|done]. by rewrite (blank_line_end c E) in H. Qed.

Lemma plain_notin specials s x : plain specials s -> x ∈ specials -> x ∉ s.
Proof. unfold plain. rewrite Forall_forall. naive_solver. Qed.

Lemma class_notin (p : byte -> bool) w x : Forall (fun c => p c = true) w -> p x = false -> x ∉ w.
Proof. rewrite Forall_forall. intros H Hx Hin. rewrite (H x Hin) in Hx. done. Qed.

(** ** Reading a line *)

Lemma plain_app specials a b : plain specials a -> plain specials b -> plain specials (a ++ b).
Proof. intros. by apply Forall_app. Qed.

Lemma blanks_plain x w : blanks w -> is_blank x = false -> x ∉ w.
Proof. intros Hw Hx. by eapply class_notin. Qed.

Lemma item_text_chars i t : item_text i t -> ("#" ∉ t) /\ (";" ∉ t) /\ edges is_line_end t.
Proof.
  intros [|name Hn|key val b1 b2 Hk Hkp [Hk1 Hk2] Hb Hvp [Hv1 Hv2] Hb1 Hb2 Hv].
  - split_and!; [set_solver..|]. split; intros c u E; [done|by destruct u].
  - pose proof (plain_notin _ _ "#" Hn ltac:(set_solver)).
    pose proof (plain_notin _ _ ";" Hn ltac:(set_solver)). split_and!; [set_solver..|]. split.
    + by intros c u [= <- _].
    + intros c u E. change ("[" :: name ++ ["]"]) with (("[" :: name) ++ ["]"]) in E.
      by apply app_inj_tail in E as [_ <-].
  - pose proof (plain_notin _ _ "#" Hkp ltac:(set_solver)).
    pose proof (plain_notin _ _ ";" Hkp ltac:(set_solver)).
    pose proof (plain_notin _ _ "#" Hvp ltac:(set_solver)).
    pose proof (plain_notin _ _ ";" Hvp ltac:(set_solver)).
    pose proof (blanks_plain "#" _ Hb1 eq_refl). pose proof (blanks_plain "#" _ Hb2 eq_refl).
    pose proof (blanks_plain ";" _ Hb1 eq_refl). pose proof (blanks_plain ";" _ Hb2 eq_refl).
    split_and!; [set_solver..|]. split.
    + intros c u E. destruct key as [|k key]; [done|]. injection E as <- _. by apply (Hk1 k key).
    + intros c u E. destruct (decide (val = [])) as [->|Hne].
      * rewrite (Hv eq_refl), app_assoc in E. by apply app_inj_tail in E as [_ <-].
      * destruct (exists_last Hne) as (v & d & ->). apply (Hv2 c v). f_equal. f_equal.
        rewrite app_comm_cons, !app_assoc in E. by apply app_inj_tail in E as [_ ->].
Qed.

Lemma drop_while_Forall (P : byte -> Prop) p l : Forall P l -> Forall P (drop_while p l).
Proof. induction 1 as [|c l Hc Hl IH]; simpl; [done|]. case_match; [done|by constructor]. Qed.

(** The blanks on both sides go, and the item stays. *)
Lemma strip_blanks w1 t w2 :
  blanks w1 -> line_end w2 -> edges is_line_end t ->
  rdrop_while is_line_end (drop_while is_blank (w1 ++ t ++ w2)) = t.
Proof.
  intros Hw1 Hw2 [He1 He2]. destruct t as [|c t].
  - change (drop_while is_blank (w1 ++ [] ++ w2)) with (drop_while is_blank (w1 ++ w2)).
    rewrite <-(app_nil_l (drop_while _ _)). apply rdrop_while_all; [|by intros c [|? ?]].
    apply drop_while_Forall, Forall_app. split; [|done].
    eapply Forall_impl; [exact Hw1|]. apply blank_line_end.
  - rewrite drop_while_all; [by apply rdrop_while_all|done|].
    intros d s [= <- _]. apply line_end_blank. by eapply He1.
Qed.

Lemma strip_line_text i line : line_text i line -> item_text i (strip_line line).
Proof.
  intros (w1 & t & w2 & c & -> & Hw1 & Ht & Hw2 & Hc & _).
  destruct (item_text_chars i t Ht) as (Hh & Hs & He). unfold strip_line.
  rewrite (app_assoc t), (app_assoc w1), before_comment; [by rewrite strip_blanks| | |done].
  - pose proof (blanks_plain "#" _ Hw1 eq_refl). pose proof (class_notin _ _ "#" Hw2 eq_refl). set_solver.
  - pose proof (blanks_plain ";" _ Hw1 eq_refl). pose proof (class_notin _ _ ";" Hw2 eq_refl). set_solver.
Qed.

Lemma ini_line_item i t section root :
  item_text i t ->
  ini_line (section, root) t =
  match i with
  | Nothing => (section, root)
  | Header name => (name, root)
  | Entry k v => (section, set_key (full_key section k) (VString v) root)
  end.
Proof.
  intros [|name Hn|key val b1 b2 Hk Hkp [Hk1 Hk2] Hb Hvp [Hv1 Hv2] Hb1 Hb2 Hv]; [done| |].
  - simpl. rewrite split_at_found; [done|]. eapply plain_notin; [done|set_solver].
  - assert (ini_entry section root (key ++ b1 ++ "=" :: b2 ++ val) =
      (section, set_key (full_key section key) (VString val) root)) as He.
    { unfold ini_entry. rewrite app_assoc, split_at_found.
      - rewrite rdrop_while_all by (done || (intros c u E; apply line_end_blank; by eapply Hk2)).
        rewrite drop_while_all by (done || (intros c u E; apply line_end_blank; by eapply Hv1)).
        rewrite <-(app_nil_r val) at 1.
        rewrite rdrop_while_all; [done|constructor|]. intros c u E. apply line_end_blank. by eapply Hv2.
      - pose proof (plain_notin _ _ "=" Hkp ltac:(set_solver)).
        pose proof (blanks_plain "=" _ Hb1 eq_refl). set_solver. }
    destruct key as [|c key]; [done|]. unfold ini_line. cbn [app] in *.
    rewrite decide_False; [exact He|]. intros ->. by apply (Hb key).
Qed.

Lemma foldl_items items ls section root :
  Forall2 line_text items ls ->
  snd (foldl ini_line (section, root) (strip_line <$> ls)) = apply_items section items root.
Proof.
  intros H. revert section root. induction H as [|i l items' ls' Hl _ IH]; intros section root; [done|].
  rewrite fmap_cons. cbn [foldl]. rewrite (ini_line_item i) by (by apply strip_line_text). destruct i; apply IH.
Qed.

(** ** What is below the root *)

(** The keys the items set. *)
Fixpoint keys_set (section : str) (items : list ini_item) : list str :=
  match items with
  | [] => []
  | Nothing :: items' => keys_set section items'
  | Header name :: items' => keys_set name items'
  | Entry k _ :: items' => full_key section k :: keys_set section items'
  end.

(** A child set by an entry is a leaf, any other is as before. *)
Lemma apply_items_key section items root k :
  (k ∈ keys_set section items -> exists v, get_key k (apply_items section items root) = Some (of_value (VString v))) /\
  (k ∉ keys_set section items -> get_key k (apply_items section items root) = get_key k root).
Proof.
  revert section root. induction items as [|[|name|k' v] items IH]; intros section root; cbn [keys_set apply_items].
  - split; [by intros ?%elem_of_nil|done].
  - apply IH.
  - apply IH.
  - destruct (IH section (set_key (full_key section k') (VString v) root)) as [H1 H2].
    split.
    + intros Hk. destruct (decide (k ∈ keys_set section items)) as [|Hn]; [by apply H1|].
      rewrite H2 by done. apply elem_of_cons in Hk as [->|?]; [|done].
      unfold set_key. rewrite get_key_put, decide_True by done. by exists v.
    + rewrite not_elem_of_cons. intros [Hne Hn]. rewrite H2 by done. unfold set_key.
      by rewrite get_key_put, decide_False.
Qed.

(** A line keeps every child or makes it a leaf. *)
Definition kept_or_leaf (root root' : node) : Prop :=
  forall k, get_key k root' = get_key k root \/ exists v, get_key k root' = Some (of_value v).

Lemma ini_line_kept st line : kept_or_leaf (snd st) (snd (ini_line st line)).
Proof.
  destruct st as [section root].
  assert (forall l, kept_or_leaf root (snd (ini_entry section root l))) as He.
  { intros l k. unfold ini_entry. destruct (split_at "=" l) as [[k' v]|]; [|by left]. simpl.
    unfold set_key. rewrite get_key_put. case_decide; [right; by eexists|by left]. }
  destruct line as [|c l]; [intros k; by left|]. unfold ini_line. case_decide; [|apply He].
  destruct (split_at "]" l) as [[name r]|]; [intros k; by left|apply He].
Qed.

Lemma parse_ini_kept text root : kept_or_leaf root (parse_ini text root).
Proof.
  unfold parse_ini. change root with (snd (@nil byte, root)) at 1. generalize (@nil byte, root).
  induction (strip_line <$> lines_of text) as [|l ls IH]; intros st; [intros k; by left|].
  intros k. simpl. destruct (IH (ini_line st l) k) as [->|?]; [|by right]. apply ini_line_kept.
Qed.

(** [Config::get] of a path with a dot goes on from the child before the dot. *)
Lemma get_child k r (root : node) :
  "." ∉ k -> get (k ++ "." :: r) root = get_key k root ≫= get r.
Proof.
  intros Hk. unfold get at 1. rewrite length_app. cbn [length]. rewrite Nat.add_succ_r.
  cbn [get_loop]. destruct (k ++ "." :: r) as [|c s] eqn:E; [by destruct k|]. rewrite <-E.
  rewrite cut_dot_split by done. destruct (get_key k root) as [n|]; [|done]. cbn.
  assert (forall m f f' p, (length p <= f)%nat -> (length p <= f')%nat ->
    get_loop f p m = get_loop f' p (m : node)) as Hfuel.
  { intros m f. revert m. induction f as [|f IH]; intros m f' p Hf Hf'.
    - destruct p; [by destruct f'|simpl in Hf; lia].
    - destruct p as [|d p]; [by destruct f'|]. destruct f' as [|f']; [simpl in Hf'; lia|]. cbn [get_loop].
      pose proof (cut_dot_length (d :: p)) as Hlen. destruct (cut_dot (d :: p)) as [key rest].
      destruct (get_key key m) as [m'|]; [|done]. destruct rest as [q|]; [|done].
      simpl in Hf, Hf', Hlen. apply IH; lia. }
  apply Hfuel; lia.
Qed.

Lemma get_leaf v r : r <> [] -> get r (of_value v : node) = None.
Proof.
  intros Hr. unfold get. destruct r as [|c r]; [done|]. cbn [length get_loop].
  by destruct (cut_dot (c :: r)) as [key rest].
Qed.

(** C37: Every file of sections, entries, blank lines and comments, with any blanks
    around them, Unix or DOS line ends and with or without one at its end, is read into
    any root as its entries in order under the keys [section.key], on top of what the
    root holds.  But those keys are names of children of the root, where
    [Config::get] never looks: a path [section.key], with a name without a dot and a key
    that is not empty, which is the documented way to reach an entry, finds what the root
    had under that path before the file was read (a tree loaded from a JSON file), or
    nothing when the file has an entry outside all sections whose key is the name of the
    section.  So after an empty root it finds nothing, whatever the text.  A path that
    ends with its only dot finds the child before the dot. *)
Theorem ini_parse items ls text (root : node) :
  Forall2 line_text items ls -> file_text ls text ->
  let root' := parse_ini text root in
  root' = apply_items [] items root /\
  (forall section key, "." ∉ section -> key <> [] ->
    get (section ++ "." :: key) root' =
      if decide (section ∈ keys_set [] items) then None else get (section ++ "." :: key) root) /\
  (forall section, "." ∉ section -> get (section ++ ["."]) root' = get_key section root') /\
  (forall any section key, "." ∉ section -> key <> [] ->
    get (section ++ "." :: key) root = None ->
    get (section ++ "." :: key) (parse_ini any root) = None).
Proof.
  intros H Ht. cbv zeta. assert (parse_ini text root = apply_items [] items root) as E.
  { unfold parse_ini. rewrite (lines_of_text ls); [by apply foldl_items| |done].
    clear -H. induction H as [|i l items' ls' Hl _ IH]; constructor; [|done].
    by destruct Hl as (? & ? & ? & ? & _ & _ & _ & _ & _ & ?). }
  split_and!; [exact E| | |].
  - intros section key Hs Hk. rewrite !get_child, E by done.
    destruct (apply_items_key [] items root section) as [H1 H2]. case_decide as Hin.
    + destruct (H1 Hin) as [v ->]. by apply get_leaf.
    + by rewrite H2.
  - intros section Hs. rewrite get_child by done. by destruct (get_key section _).
  - intros any section key Hs Hk. rewrite !get_child by done.
    destruct (parse_ini_kept any root section) as [->|[v ->]]; [done|]. intros _. by apply get_leaf.
Qed.
End config.

Section files.
Context {D : Type} (stod : str -> outcome D) {W : Type}.

(** ** The configuration and its watchers

    [called_] records the calls of the watchers, each with the path it was given. *)

Record Config := {
  root_ : ConfigNode (D := D);
  file_path_ : str;
  last_content_ : str;
  watchers_ : list W;
  watch_paths_ : list str;
  called_ : list (W * str);
}.
Definition Config0 : Config :=
  {| root_ := ConfigNode0; file_path_ := []; last_content_ := []; watchers_ := [];
     watch_paths_ := []; called_ := [] |}.

Definition set_file (root : ConfigNode) (path content : str) (s : Config) : Config :=
  {| root_ := root; file_path_ := path; last_content_ := content; watchers_ := watchers_ s;
     watch_paths_ := watch_paths_ s; called_ := called_ s |}.
Definition record (w : W) (path : str) (s : Config) : Config :=
  {| root_ := root_ s; file_path_ := file_path_ s; last_content_ := last_content_ s;
     watchers_ := watchers_ s; watch_paths_ := watch_paths_ s; called_ := called_ s ++ [(w, path)] |}.

(** How a call ends, and the state it leaves, also when it ends with an exception; [None]
    when the fuel is used up. *)
Definition M (A : Type) : Type := Config -> option (outcome A * Config).

Definition ret {A} (a : A) : M A := fun s => Some (Ret a, s).
Definition bind {A B} (m : M A) (f : A -> M B) : M B := fun s =>
  match m s with
  | None => None
  | Some (Ret a, s') => f a s'
  | Some (Throw, s') => Some (Throw, s')
  | Some (Undef, s') => Some (Undef, s')
  end.

(** [content] is the file behind [path], [None] when it cannot be opened.  An exception of
    the reader leaves the path and the content set and the tree as far as it was read. *)
Definition load_json (fuel : nat) (path : str) (content : option str) : M bool := fun s =>
  match content with
  | None => Some (Ret false, s)
  | Some text =>
      match parse_json stod fuel text with
      | None => None
      | Some (o, root) => Some (mbind (fun _ => Ret true) o, set_file root path text s)
      end
  end.

(** The range given to [last_content_] runs from the begin of one temporary string to
    the end of another. *)
Definition load_ini (path : str) (content : option str) : M bool := fun s =>
  match content with
  | None => Some (Ret false, s)
  | Some _ => Some (Undef, s)
  end.

Definition watch (path : str) (cb : W) (s : Config) : Config :=
  {| root_ := root_ s; file_path_ := file_path_ s; last_content_ := last_content_ s;
     watchers_ := watchers_ s ++ [cb]; watch_paths_ := watch_paths_ s ++ [path];
     called_ := called_ s |}.
Definition unwatch_all (s : Config) : Config :=
  {| root_ := root_ s; file_path_ := file_path_ s; last_content_ := last_content_ s;
     watchers_ := []; watch_paths_ := []; called_ := called_ s |}.
Definition clear (s : Config) : Config :=
  {| root_ := ConfigNode0; file_path_ := file_path_ s; last_content_ := last_content_ s;
     watchers_ := []; watch_paths_ := watch_paths_ s; called_ := called_ s |}.

(** ** What a watcher may do

    A callback works on the configuration that calls it: it loads files and polls, with
    what the file system gives and, where [catches], with a handler for exceptions around
    the call; it registers and removes watchers, and it throws.  Which of this it does is a
    function of its argument and of the state it finds. *)
Inductive action :=
| LoadJson (catches : bool) (path : str) (content : option str)
| LoadIni (path : str) (content : option str)
| Poll (catches : bool) (content : option str)
| Watch (path : str) (cb : W)
| UnwatchAll
| Clear
| ThrowException.

Context (body : W -> str -> Config -> list action).

Definition handled (catches : bool) {A} (m : M A) : M unit := fun s =>
  match m s with
  | None => None
  | Some (Ret _, s') => Some (Ret tt, s')
  | Some (Throw, s') => Some (if catches then Ret tt else Throw, s')
  | Some (Undef, s') => Some (Undef, s')
  end.

(** A change of [watchers_] invalidates the iterators of the loop that makes the call. *)
Definition do_action (fuel : nat) (poll : option str -> M unit) (a : action) : M unit :=
  match a with
  | LoadJson catches path content => handled catches (load_json fuel path content)
  | LoadIni path content => handled false (load_ini path content)
  | Poll catches content => handled catches (poll content)
  | Watch _ _ | UnwatchAll | Clear => fun s => Some (Undef, s)
  | ThrowException => fun s => Some (Throw, s)
  end.

Fixpoint do_actions (fuel : nat) (poll : option str -> M unit) (l : list action) : M unit :=
  match l with
  | [] => ret tt
  | a :: l' => bind (do_action fuel poll a) (fun _ => do_actions fuel poll l')
  end.

(** [cb(file_path_)] *)
Definition call_watcher (fuel : nat) (poll : option str -> M unit) (w : W) : M unit := fun s =>
  do_actions fuel poll (body w (file_path_ s) s) (record w (file_path_ s) s).

Fixpoint call_watchers (fuel : nat) (poll : option str -> M unit) (ws : list W) : M unit :=
  match ws with
  | [] => ret tt
  | w :: ws' => bind (call_watcher fuel poll w) (fun _ => call_watchers fuel poll ws')
  end.

(** [depth] bounds how often a watcher's own poll calls watchers again. *)
Fixpoint poll_changes (depth fuel : nat) (content : option str) : M unit := fun s =>
  match file_path_ s, content with
  | [], _ => ret tt s
  | _, None => ret tt s
  | path, Some text =>
      if decide (length text = length (last_content_ s)) then ret tt s
      else
        match parse_json stod fuel text with
        | None => None
        | Some (o, root) =>
            let s' := set_file root path text s in
            match o with
            | Throw => Some (Throw, s')
            | Undef => Some (Undef, s')
            | Ret _ =>
                match depth with
                | O => None
                | S depth' => call_watchers fuel (poll_changes depth' fuel) (watchers_ s') s'
                end
            end
        end
  end.

(** ** Loading and polling texts of the grammar *)

(** Actions that load files with a text of the grammar, or none, from a set of files. *)
Definition loads_from (fuel : nat) (Q : str -> str -> Prop) (a : action) : Prop :=
  match a with
  | LoadJson _ _ None => True
  | LoadJson _ path (Some text) =>
      Q path text /\ (exists ms, json_text stod ms text) /\ (length text < fuel)%nat
  | _ => False
  end.

(** The configuration holds what a text of the set describes. *)
Definition holds_file (Q : str -> str -> Prop) (s : Config) : Prop :=
  exists ms, json_text stod ms (last_content_ s) /\ Q (file_path_ s) (last_content_ s) /\
    root_ s = apply_members ms ConfigNode0.

(** The parts of a configuration that loading leaves alone. *)
Definition same_watchers (s s' : Config) : Prop :=
  watchers_ s' = watchers_ s /\ watch_paths_ s' = watch_paths_ s.

Lemma load_action fuel Q poll a s :
  loads_from fuel Q a -> holds_file Q s ->
  exists s', do_action fuel poll a s = Some (Ret tt, s') /\ holds_file Q s' /\ same_watchers s s' /\
    called_ s' = called_ s.
Proof.
  destruct a as [c path [text|]| | | | | |]; cbn [loads_from]; try done; intros Ha Hs.
  - destruct Ha as (HQ & [ms Hms] & Hf). cbn [do_action]. unfold handled, load_json.
    rewrite (parse_json_text stod ms) by done. cbn.
    eexists. split_and!; [done| |done|done]. by exists ms.
  - by exists s.
Qed.

Lemma load_actions fuel Q poll l s :
  Forall (loads_from fuel Q) l -> holds_file Q s ->
  exists s', do_actions fuel poll l s = Some (Ret tt, s') /\ holds_file Q s' /\ same_watchers s s' /\
    called_ s' = called_ s.
Proof.
  intros Hl. revert s. induction Hl as [|a l Ha _ IH]; intros s Hs; [by exists s|].
  cbn [do_actions]. unfold bind. destruct (load_action fuel Q poll a s Ha Hs) as (s1 & -> & Hs1 & [E1 E2] & E3).
  destruct (IH s1 Hs1) as (s2 & -> & Hs2 & [F1 F2] & F3). exists s2. split_and!; [done|done| |congruence].
  split; congruence.
Qed.

Lemma do_actions_app fuel poll l1 l2 s :
  do_actions fuel poll (l1 ++ l2) s = bind (do_actions fuel poll l1) (fun _ => do_actions fuel poll l2) s.
Proof.
  revert s. induction l1 as [|a l1 IH]; intros s; [done|]. cbn [app do_actions]. unfold bind in *.
  destruct (do_action fuel poll a s) as [[[] s1]|]; [apply IH|done..].
Qed.

(** The watchers of a list that only load files: each is called once. *)
Lemma call_loading fuel Q poll ws s :
  Forall (fun w => forall p t, Forall (loads_from fuel Q) (body w p t)) ws -> holds_file Q s ->
  exists s', call_watchers fuel poll ws s = Some (Ret tt, s') /\ holds_file Q s' /\ same_watchers s s' /\
    (called_ s').*1 = (called_ s).*1 ++ ws.
Proof.
  intros Hws. revert s. induction Hws as [|w ws Hw _ IH]; intros s Hs.
  { exists s. by rewrite app_nil_r. }
  cbn [call_watchers]. unfold bind, call_watcher.
  destruct (load_actions fuel Q poll _ (record w (file_path_ s) s) (Hw (file_path_ s) s))
    as (s1 & -> & Hs1 & [E1 E2] & E3); [done|].
  destruct (IH s1 Hs1) as (s2 & -> & Hs2 & [F1 F2] & F3). exists s2. split_and!; [done|done| |].
  - split; [by rewrite F1, E1|by rewrite F2, E2].
  - rewrite F3, E3. cbn. by rewrite fmap_app, <-app_assoc.
Qed.

Lemma call_watchers_app fuel poll ws1 ws2 s :
  call_watchers fuel poll (ws1 ++ ws2) s =
  bind (call_watchers fuel poll ws1) (fun _ => call_watchers fuel poll ws2) s.
Proof.
  revert s. induction ws1 as [|w ws1 IH]; intros s; [done|]. cbn [app call_watchers]. unfold bind in *.
  destruct (call_watcher fuel poll w s) as [[[] s1]|]; [apply IH|done..].
Qed.

(** A watcher that ends with an action of another kind. *)
Lemma call_ending fuel Q poll ws1 w ws2 a (o : outcome unit) s :
  Forall (fun w => forall p t, Forall (loads_from fuel Q) (body w p t)) ws1 ->
  (forall p t, exists l l', body w p t = l ++ a :: l' /\ Forall (loads_from fuel Q) l) ->
  (forall t, do_action fuel poll a t = Some (o, t)) -> o <> Ret tt ->
  holds_file Q s ->
  exists s', call_watchers fuel poll (ws1 ++ w :: ws2) s = Some (o, s') /\ holds_file Q s' /\
    same_watchers s s' /\ (called_ s').*1 = (called_ s).*1 ++ ws1 ++ [w].
Proof.
  intros Hws Hw Ha Ho Hs. rewrite call_watchers_app. unfold bind at 1.
  destruct (call_loading fuel Q poll ws1 s Hws Hs) as (s1 & -> & Hs1 & [E1 E2] & E3).
  cbn [call_watchers]. unfold bind, call_watcher.
  destruct (Hw (file_path_ s1) s1) as (l & l' & -> & Hl). rewrite do_actions_app. unfold bind at 1.
  destruct (load_actions fuel Q poll l (record w (file_path_ s1) s1) Hl) as (s2 & -> & Hs2 & [F1 F2] & F3);
    [done|].
  cbn [do_actions]. unfold bind. rewrite Ha. exists s2.
  assert ((called_ s2).*1 = (called_ s).*1 ++ ws1 ++ [w]) as Ec.
  { rewrite F3. cbn. by rewrite fmap_app, E3, <-app_assoc. }
  destruct o as [[]| |]; [done|..]; (split_and!; [done|done| |exact Ec]);
    (split; [by rewrite F1; cbn|by rewrite F2; cbn]).
Qed.

(** The watchers that do nothing. *)
Lemma call_silent fuel poll ws s :
  Forall (fun w => forall p t, body w p t = []) ws ->
  call_watchers fuel poll ws s =
    Some (Ret tt, foldl (fun s w => record w (file_path_ s) s) s ws).
Proof.
  intros Hws. revert s. induction Hws as [|w ws Hw _ IH]; intros s; [done|].
  cbn [call_watchers]. unfold bind, call_watcher. rewrite Hw. cbn [do_actions ret foldl]. apply IH.
Qed.

Lemma poll_reads depth fuel path text ms s :
  path <> [] -> file_path_ s = path -> length text <> length (last_content_ s) ->
  json_text stod ms text -> (length text < fuel)%nat ->
  let s' := set_file (apply_members ms ConfigNode0) path text s in
  poll_changes (S depth) fuel (Some text) s =
    call_watchers fuel (poll_changes depth fuel) (watchers_ s) s'.
Proof.
  intros Hp Ep Hl Ht Hf. cbn [poll_changes]. rewrite Ep. destruct path as [|c path]; [done|].
  by rewrite decide_False, (parse_json_text stod ms) by done.
Qed.

Lemma poll_same depth fuel text s :
  length text = length (last_content_ s) -> poll_changes depth fuel (Some text) s = Some (Ret tt, s).
Proof.
  intros E. destruct depth; cbn [poll_changes]; (destruct (file_path_ s); [done|]); by rewrite decide_True.
Qed.
(** [fold]ing the records of silent watchers. *)
Lemma records ws s :
  let s' := foldl (fun s w => record w (file_path_ s) s) s ws in
  root_ s' = root_ s /\ file_path_ s' = file_path_ s /\ last_content_ s' = last_content_ s /\
  same_watchers s s' /\ called_ s' = called_ s ++ ((fun w => (w, file_path_ s)) <$> ws).
Proof.
  revert s. induction ws as [|w ws IH]; intros s; [by rewrite app_nil_r|]. cbn [foldl].
  destruct (IH (record w (file_path_ s) s)) as (-> & -> & -> & [E1 E2] & ->).
  split_and!; [done..|by split|]. cbn. by rewrite <-app_assoc.
Qed.

End files.

(** ** Instances *)

(** The file "[s]\nk = v # x\n". *)
Definition an_ini : list str :=
  [["["; "s"; "]"]; ["k"; " "; "="; " "; "v"; " "; "#"; "x"]].

Lemma an_ini_lines : Forall2 line_text [Header ["s"]; Entry ["k"] ["v"]] an_ini.
Proof.
  constructor; [|constructor; [|constructor]].
  - exists [], ["["; "s"; "]"], [], []. split_and!;
      [done|constructor| |constructor|by left|by by_compute].
    apply (text_section ["s"]). repeat constructor; by_compute.
  - exists [], ["k"; " "; "="; " "; "v"], [" "], ["#"; "x"]. split_and!;
      [done|constructor| |by repeat constructor|right; left; by eexists|by by_compute].
    apply (text_entry ["k"] ["v"] [" "] [" "]); try done; try (by repeat constructor);
      try (repeat constructor; by_compute).
    + split; intros c t E; [by injection E as <-|]. by destruct t as [|? [|? ?]]; simplify_eq/=.
    + split; intros c t E; [by injection E as <-|]. by destruct t as [|? [|? ?]]; simplify_eq/=.
Qed.

(** Without a line feed at the end, read after a JSON file with an object "s" that has a
    "k": [get "s.k"] still finds the value of that file. *)
Lemma ini_parse_witness :
  let root := apply_members [Object ["s"] [Scalar ["k"] (VBool true)]] (@ConfigNode0 unit) in
  let root' := parse_ini (["["; "s"; "]"] ++ newline :: ["k"; " "; "="; " "; "v"; " "; "#"; "x"]) root in
  get_key ["s"; "."; "k"] root' = Some (of_value (VString ["v"])) /\
  get ["s"; "."; "k"] root' = Some (of_value (VBool true)).
Proof.
  intros root root'.
  destruct (ini_parse _ _ _ root an_ini_lines (file_line _ _ _ (file_last ["k"; " "; "="; " "; "v"; " "; "#"; "x"]
    ltac:(done)))) as (E & Hg & _).
  split; [unfold root'; rewrite E; reflexivity|].
  etrans; [apply (Hg ["s"] ["k"]); [by by_compute|done]|]. reflexivity.
Defined.

(** A tree with a nested object loaded, and a changed one of another size polled: watcher 7
    loads the file again, as the API's example does, watcher 8 throws, watcher 9 is not
    called. *)
Definition its_body (w : Z) (path : str) (_ : Config (D := unit) (W := Z)) : list (action (W := Z)) :=
  if w =? 7 then [LoadJson false path (Some ["{"; "}"])] else if w =? 8 then [ThrowException] else [].

