(* ===== verification/ConfigTypes.v ===== *)
(** * What a configuration holds (base/config/config.h, config.cpp)

    [ConfigValue] is a variant of ten types and the accessors of [ConfigNode] dereference an
    optional without a test.  Which of the types the readers produce, and so what the
    accessors do on a node that [Config::get] finds, is an invariant of the tree under
    every operation of [Config]. *)

From S2P Require Import Prelude ConfigNode Json Config.

Open Scope Z_scope.
Open Scope byte_scope.

(** ** Trees whose nodes hold values of a kind *)

Section trees.
Context {D : Type} (P : ConfigNode (D := D) -> Prop).

#[local] Abbreviation node := (@ConfigNode D).

(** All nodes under a node, and with it. *)
Definition under (n : node) : Prop := forall k p c, node_at (k :: p) n = Some c -> P c.
Definition throughout (n : node) : Prop := P n /\ under n.

Lemma under_child k n c : under n -> get_key k n = Some c -> throughout c.
Proof.
  intros Hu Hc. split; [apply (Hu k [])|intros k' p d Hd; apply (Hu k (k' :: p))];
    cbn; by rewrite Hc.
Qed.

Lemma under_put k c n : throughout c -> under n -> under (put k c n).
Proof.
  intros [Hc Hcu] Hu k' p d. cbn [node_at]. rewrite get_key_put. case_decide as Hk.
  - cbn. destruct p as [|k2 p]; [by intros [= <-]|apply Hcu].
  - apply (Hu k').
Qed.

Lemma under_leaf v cs : cs = [] -> under (Node v cs).
Proof. by intros -> k p c. Qed.

Lemma under_change p f n :
  (forall m, throughout m -> throughout (f m)) -> (forall m, under m -> under (f m)) ->
  (forall k m c, P m -> P (put k c m)) ->
  (under n -> under (change_at p f n)) /\ (throughout n -> throughout (change_at p f n)).
Proof.
  intros Hf Hfu Hput. revert n. induction p as [|k p IH]; intros n; cbn; [by auto|].
  destruct (get_key k n) as [c|] eqn:E; [|by auto].
  assert (under n -> under (put k (change_at p f c) n)) as Hu
    by (intros Hu; apply under_put; [apply IH; by eapply under_child|done]).
  split; [done|]. intros [Hn Hn']. split; [by apply Hput|by apply Hu].
Qed.

(** [Config::get] of a path that is not empty finds a node under the root. *)
Lemma get_loop_under fuel path n c :
  path <> [] -> (0 < fuel)%nat -> under n -> get_loop fuel path n = Some c -> P c.
Proof.
  revert path n. induction fuel as [|fuel IH]; intros path n Hp Hf Hu; [lia|].
  destruct path as [|x path]; [done|]. cbn [get_loop].
  destruct (cut_dot (x :: path)) as [key rest]. destruct (get_key key n) as [d|] eqn:E; [|done].
  destruct (under_child _ _ _ Hu E) as [Hd Hdu]. destruct rest as [r|]; [|by intros [= <-]].
  destruct r as [|y r]; [destruct fuel; by intros [= <-]|].
  destruct fuel as [|fuel]; [by intros [= <-]|]. apply IH; [done|lia|done].
Qed.

Lemma get_under path n c : path <> [] -> under n -> get path n = Some c -> P c.
Proof. intros Hp. apply get_loop_under; [done|]. destruct path; cbn; [done|lia]. Qed.
End trees.

Section types.
Context {D W : Type} (stod : str -> outcome D) (of_int : Z -> D) (to_int to_int64 : D -> outcome Z).

#[local] Abbreviation node := (@ConfigNode D).

(** ** The values the JSON reader makes: never an [int], and the elements of an integer
    array fit into one, although their type is [int64_t] *)

Definition fits (bits z : Z) : Prop := - 2 ^ (bits - 1) <= z < 2 ^ (bits - 1).

Definition json_value (v : ConfigValue (D := D)) : Prop :=
  match v with
  | VInt _ | VInts _ => False
  | VInt64 z => fits 64 z
  | VInt64s l => Forall (fits 32) l
  | _ => True
  end.
Definition holds (Q : ConfigValue (D := D) -> Prop) (n : node) : Prop :=
  exists v, value_ n = Some v /\ Q v.

Lemma sto_fits bits s z : sto bits s = Ret z -> fits bits z.
Proof.
  unfold sto, fits. destruct (strto s) as [w|]; [|done]. case_match eqn:E; [|done].
  intros [= <-]. apply andb_prop in E as [?%Z.leb_le ?%Z.ltb_lt]. lia.
Qed.

Lemma convert_fits l r :
  forallb (fun s => returns (stoi s)) l = true -> convert stoll l = Ret r -> Forall (fits 32) r.
Proof.
  revert r. induction l as [|s l IH]; cbn; intros r; [by intros _ [= <-]|].
  intros [Hs Hl]%andb_prop. destruct (stoll s) as [z| |] eqn:E; [|done..]. rewrite bind_Ret.
  destruct (convert stoll l) as [r'| |]; [|done..]. rewrite bind_Ret. intros [= <-].
  constructor; [|by apply IH]. destruct (stoi s) as [w| |] eqn:Ew; [|done..].
  pose proof (sto_fits _ _ _ Ew) as Hw. replace z with w; [done|]. revert E Ew. unfold stoll, stoi, sto.
  destruct (strto s); [|done]. by repeat case_match; intros [= <-] [= <-].
Qed.

Lemma token_json t v : token_value stod t = Ret v -> json_value v.
Proof.
  unfold token_value. repeat case_decide; try by intros [= <-].
  - destruct (stod t); [|done..]. by intros [= <-].
  - destruct (stoll t) as [z| |] eqn:E; [|done..]. intros [= <-]. by apply sto_fits in E.
Qed.

Lemma array_json l v : array_value stod l = Ret v -> json_value v.
Proof.
  unfold array_value. case_match eqn:E.
  - destruct (convert stoll l) as [r| |] eqn:Er; [|done..]. intros [= <-]. by eapply convert_fits.
  - case_match; [|by intros [= <-]]. destruct (convert stod l); [|done..]. by intros [= <-].
Qed.

Lemma parse_value_json fuel s v s' : parse_value stod fuel s = Some (Ret (v, s')) -> json_value v.
Proof.
  unfold parse_value. destruct (sget (skip_ws s)) as [[c s1]|]; [|done]. case_decide.
  { destruct (parse_string _) as [r| |]; [|done..]. by intros [= <- _]. }
  case_decide.
  { destruct (array_loop fuel c s1 []) as [[r| |]|]; [|done..]. rewrite bind_Ret.
    destruct (array_value stod r.1) as [w| |] eqn:E; [|done..]. intros [= <- _]. by eapply array_json. }
  case_decide; [by intros [= <- _]|]. destruct (tok_body _) as [t s2].
  destruct (token_value stod (c :: t)) as [w| |] eqn:E; [|done..]. intros [= <- _]. by eapply token_json.
Qed.

Lemma under_set_key Q p key v (n : node) :
  Q v -> under (holds Q) n -> under (holds Q) (change_at p (set_key key v) n).
Proof.
  intros Hv Hn. destruct (under_change (holds Q) p (set_key key v) n) as [H _]; [..|by apply H].
  - intros m [(w & Hw & HQ) Hm]. split; [by exists w|]. apply under_put; [|done].
    split; [by exists v|by apply under_leaf].
  - intros m Hm. apply under_put; [|done]. split; [by exists v|by apply under_leaf].
  - intros k m c (w & Hw & HQ). by exists w.
Qed.

Lemma change_value p key v (n : node) : value_ (change_at p (set_key key v) n) = value_ n.
Proof. destruct p as [|k p]; [done|]. cbn. by destruct (get_key k n). Qed.

(** The root has no value of its own, every other node one. *)
Definition typed (n : node) : Prop := value_ n = None /\ under (holds json_value) n.

Lemma typed_empty : typed ConfigNode0.
Proof. split; [done|by apply under_leaf]. Qed.

Lemma read_key_typed fuel s st st' :
  typed (Json.root_ st) -> read_key stod fuel s st = Some (Ret st') -> typed (Json.root_ st').
Proof.
  intros [Hr Hu]. unfold read_key. destruct (parse_string _) as [[key s1]| |]; [|done..].
  destruct (get_or quote (skip_ws s1)) as [c s2]. case_decide; [|by intros [= <-]].
  destruct (get_or c (skip_ws s2)) as [c' s3].
  destruct (parse_value stod fuel _) as [[[v s4]| |]|] eqn:E; [|done..]. rewrite bind_Ret. intros [= <-].
  split; cbn; [by rewrite change_value|]. apply under_set_key; [|done]. by eapply parse_value_json.
Qed.

Lemma json_loop_typed fuel st o root :
  typed (Json.root_ st) -> json_loop stod fuel st = Some (o, root) -> typed root.
Proof.
  revert st. induction fuel as [|fuel IH]; intros st Ht; [done|]. cbn [json_loop].
  destruct (sget (input st)) as [[c s]|]; [|by intros [= _ <-]].
  case_match; [by apply IH|]. case_decide; [by apply IH|]. case_decide; [by apply IH|].
  case_decide; [|by apply IH].
  destruct (read_key stod fuel s st) as [[st'| |]|] eqn:E; [|by intros [= _ <-]..|done].
  apply IH. by eapply read_key_typed.
Qed.

Lemma parse_json_typed fuel text o root : parse_json stod fuel text = Some (o, root) -> typed root.
Proof. apply json_loop_typed. exact typed_empty. Qed.

(** ** Every operation of [Config] *)

#[local] Abbreviation config := (Config (D := D) (W := W)).

Context (body : W -> str -> config -> list (action (W := W))).

(** The tree stays typed, however a call ends. *)
Definition preserves {A} (m : M (W := W) A) : Prop :=
  forall s o s', typed (Config.root_ s) -> m s = Some (o, s') -> typed (Config.root_ s').

Lemma preserves_bind {A B} (m : M A) (f : A -> M B) :
  preserves m -> (forall a, preserves (f a)) -> preserves (bind m f).
Proof.
  intros Hm Hf s o s' Hs. unfold bind. destruct (m s) as [[[a| |] t]|] eqn:E; [|by intros [= _ <-]; eauto..|done].
  intros E'. eapply Hf; [by eapply Hm|exact E'].
Qed.

Lemma preserves_handled catches {A} (m : M A) : preserves m -> preserves (handled catches m).
Proof.
  intros Hm s o s' Hs. unfold handled. destruct (m s) as [[[a| |] t]|] eqn:E; [by intros [= _ <-]; eauto..|done].
Qed.

Lemma load_json_typed fuel path content : preserves (load_json stod fuel path content).
Proof.
  intros s o s' Hs. unfold load_json. destruct content as [text|]; [|by intros [= _ <-]].
  destruct (parse_json stod fuel text) as [[o' root]|] eqn:E; [|done]. intros [= _ <-]. by eapply parse_json_typed.
Qed.

Lemma do_action_typed fuel poll a : (forall c, preserves (poll c)) -> preserves (do_action stod fuel poll a).
Proof.
  intros Hp. destruct a as [c path content|path content|c content|path cb| | |]; cbn [do_action];
    try (by intros s o s' Hs [= _ <-]).
  - apply preserves_handled, load_json_typed.
  - apply preserves_handled. intros s o s' Hs. unfold load_ini. by destruct content; intros [= _ <-].
  - by apply preserves_handled.
Qed.

Lemma do_actions_typed fuel poll l : (forall c, preserves (poll c)) -> preserves (do_actions stod fuel poll l).
Proof.
  intros Hp. induction l as [|a l IH]; cbn [do_actions]; [by intros s o s' Hs [= _ <-]|].
  apply preserves_bind; [by apply do_action_typed|done].
Qed.

Lemma call_watchers_typed fuel poll ws :
  (forall c, preserves (poll c)) -> preserves (call_watchers stod body fuel poll ws).
Proof.
  intros Hp. induction ws as [|w ws IH]; cbn [call_watchers]; [by intros s o s' Hs [= _ <-]|].
  apply preserves_bind; [|done]. intros s o s' Hs. unfold call_watcher.
  by apply (do_actions_typed fuel poll _ Hp (record w (file_path_ s) s)).
Qed.

Lemma poll_changes_typed depth fuel content : preserves (poll_changes stod body depth fuel content).
Proof.
  revert content. induction depth as [|depth IH]; intros content s o s' Hs; cbn [poll_changes];
    (destruct (file_path_ s) as [|c path]; [by intros [= _ <-]|]);
    (destruct content as [text|]; [|by intros [= _ <-]]); (case_decide; [by intros [= _ <-]|]);
    (destruct (parse_json stod fuel text) as [[[[]| |] root]|] eqn:E; [|by intros [= _ <-]; eapply parse_json_typed..|done]);
    [done|].
  apply call_watchers_typed; [done|]. by eapply parse_json_typed.
Qed.

Inductive config_op :=
| OpLoad (path : str) (content : option str)
| OpPoll (content : option str)
| OpWatch (path : str) (cb : W)
| OpUnwatch
| OpClear.

Definition run_config_op (depth fuel : nat) (o : config_op) : M (W := W) unit := fun s =>
  match o with
  | OpLoad path content => handled false (load_json stod fuel path content) s
  | OpPoll content => poll_changes stod body depth fuel content s
  | OpWatch path cb => ret tt (watch path cb s)
  | OpUnwatch => ret tt (unwatch_all s)
  | OpClear => ret tt (clear s)
  end.

(** The caller goes on after an exception. *)
Fixpoint run_config (depth fuel : nat) (ops : list config_op) (s : config) : option (outcome unit * config) :=
  match ops with
  | [] => Some (Ret tt, s)
  | o :: ops' =>
      match run_config_op depth fuel o s with
      | None => None
      | Some (Undef, s') => Some (Undef, s')
      | Some (_, s') => run_config depth fuel ops' s'
      end
  end.

Lemma run_config_op_typed depth fuel o : preserves (run_config_op depth fuel o).
Proof.
  intros s r s' Ht. destruct o as [path content|content|path cb| |]; cbn [run_config_op];
    try by intros [= _ <-].
  - by apply preserves_handled, Ht; apply load_json_typed.
  - by apply poll_changes_typed.
Qed.

Lemma run_config_typed depth fuel ops s o s' :
  typed (Config.root_ s) -> run_config depth fuel ops s = Some (o, s') -> typed (Config.root_ s').
Proof.
  revert s. induction ops as [|op ops IH]; intros s Ht; cbn [run_config]; [by intros [= _ <-]|].
  destruct (run_config_op depth fuel op s) as [[r t]|] eqn:E; [|done].
  assert (typed (Config.root_ t)) as Htt by by eapply run_config_op_typed.
  destruct r; [by apply IH|by apply IH|by intros [= _ <-]].
Qed.

(** ** INI files: strings only *)

Definition is_VString (v : ConfigValue (D := D)) : Prop := exists s, v = VString s.

Lemma ini_line_strings st line :
  under (holds is_VString) (snd st) -> under (holds is_VString) (snd (ini_line st line)).
Proof.
  destruct st as [section root]. intros Hr.
  assert (forall l, under (holds is_VString) (snd (ini_entry section root l))) as He.
  { intros l. unfold ini_entry. destruct (split_at "=" l) as [[k v]|]; [|done].
    apply (under_set_key is_VString []); [by eexists|done]. }
  destruct line as [|c l]; [done|]. unfold ini_line. case_decide; [|apply He].
  destruct (split_at "]" l) as [[name r]|]; [done|apply He].
Qed.

Lemma parse_ini_strings text root :
  under (holds is_VString) root -> under (holds is_VString) (parse_ini text root).
Proof.
  unfold parse_ini. change root with (snd (@nil byte, root)) at 1. generalize (@nil byte, root).
  induction (strip_line <$> lines_of text) as [|l ls IH]; intros st Hf; [done|].
  cbn. apply IH. by apply ini_line_strings.
Qed.

(** The type tests other than [is_int], and which of them hold. *)
Definition types_of (n : node) : list bool :=
  filter (fun b : bool => b = true)
    [is_null n; is_bool n; is_int64 n; is_double n; is_string n; is_array n].

End types.

(** A file with one number, a watcher that throws, and a file that cannot be read to its
    end: what the accessors see of the number that was read. *)
Definition throwing (_ : Z) (_ : str) (_ : Config (D := unit) (W := Z)) : list (action (W := Z)) :=
  [ThrowException].
Definition some_ops : list (config_op (W := Z)) :=
  [OpLoad ["f"] (Some (text "{}")); OpWatch ["f"] 7%Z; OpPoll (Some ("{" :: quoted ["n"] ++ text ":1}"));
   OpPoll (Some ("{" :: quoted ["n"] ++ text ":12," ++ quoted ["m"] ++ text ":x}"))].

