(* ===== verification/CmdLine.v ===== *)
(** * CmdLineParser (base/config/config.h, config.cpp)

    The options of the command line.  The order in which the unordered map of options
    is searched is the order of the association list. *)

From S2P Require Import Prelude ConfigNode.

Open Scope byte_scope.

(** [short_name] is the NUL character when an option has none. *)
Record CmdLineArg := {
  name : str;
  short_name : byte;
  has_value : bool;
  found : bool;
  value : str;
  description : str;
}.

Record CmdLineParser := { args_ : list (str * CmdLineArg); rest_ : list str }.
Definition CmdLineParser0 : CmdLineParser := {| args_ := []; rest_ := [] |}.

Definition add (n : str) (short : byte) (has_val : bool) (desc default_val : str) (s : CmdLineParser)
    : CmdLineParser :=
  {| args_ := assign n {| name := n; short_name := short; has_value := has_val; found := false;
                          value := default_val; description := desc |} (args_ s);
     rest_ := rest_ s |}.

(** The option a token names: [token[0]] is a dash. *)
Definition matches (is_long : bool) (n : str) (a : str * CmdLineArg) : bool :=
  if is_long then bool_decide (fst a = n)
  else bool_decide (short_name (snd a) = default x00 (head n)).

(** Mark the first option that fits, and give it the next token when it has a value;
    the options, and whether the next token is used up. *)
Fixpoint use_option (is_long : bool) (n : str) (next : option str) (l : list (str * CmdLineArg))
    : option (list (str * CmdLineArg) * bool) :=
  match l with
  | [] => None
  | (k, a) :: l' =>
      if matches is_long n (k, a) then
        let takes := has_value a && bool_decide (is_Some next) in
        Some ((k, {| name := name a; short_name := short_name a; has_value := has_value a;
                     found := true; value := if takes then default [] next else value a;
                     description := description a |}) :: l', takes)
      else
        match use_option is_long n next l' with
        | Some (l2, takes) => Some ((k, a) :: l2, takes)
        | None => None
        end
  end.

Definition help_tokens : list str := [["-"; "-"; "h"; "e"; "l"; "p"]; ["-"; "h"]].

(** What a token means: the kind and the name of an option, or nothing. *)
Definition option_of (token : str) : option (bool * str) :=
  match token with
  | "-" :: "-" :: n => Some (true, n)
  | "-" :: n => Some (false, n)
  | _ => None
  end.

Definition push_rest (token : str) (s : CmdLineParser) : CmdLineParser :=
  {| args_ := args_ s; rest_ := rest_ s ++ [token] |}.

(** [parse], on the arguments after the name of the program. *)
Fixpoint parse (argv : list str) (s : CmdLineParser) : CmdLineParser :=
  match argv with
  | [] => s
  | token :: argv' =>
      if decide (token ∈ help_tokens) then parse argv' s
      else
        match option_of token with
        | None => parse argv' (push_rest token s)
        | Some (is_long, n) =>
            match use_option is_long n (head argv') (args_ s) with
            | None => parse argv' (push_rest token s)
            | Some (l, takes) =>
                let s' := {| args_ := l; rest_ := rest_ s |} in
                if takes : bool then
                  match argv' with
                  | [] => s'
                  | _ :: argv'' => parse argv'' s'
                  end
                else parse argv' s'
            end
        end
  end.

Definition has (n : str) (s : CmdLineParser) : bool :=
  match assoc n (args_ s) with Some a => found a | None => false end.
Definition get (n : str) (s : CmdLineParser) : str :=
  match assoc n (args_ s) with Some a => value a | None => [] end.
Definition get_or_default (n default_val : str) (s : CmdLineParser) : str :=
  match assoc n (args_ s) with
  | Some a => if found a then value a else default_val
  | None => default_val
  end.

(** [help]: a line for each option, in the order of the map. *)
Definition help_line (a : CmdLineArg) : str :=
  [" "; " "] ++
  (if decide (short_name a = x00) then text "    " else ["-"; short_name a; ","; " "]) ++
  ["-"; "-"] ++ name a ++
  (if has_value a then text " <value>" else []) ++
  [" "; " "] ++ description a ++
  (match value a with [] => [] | v => text " (default: " ++ v ++ [")"] end) ++ [x0a].
Definition help (s : CmdLineParser) : str := text "Usage:" ++ [x0a] ++ concat (help_line ∘ snd <$> args_ s).

(** ** Command lines as they are meant *)

(** The use of an option, by its name or its letter, with a value or without; a request
    for help; and an argument that is no option. *)
Inductive item :=
| Use (long : bool) (n : str) (v : option str)
| Help
| Operand (t : str).

(** The declaration of an option, which parsing does not change. *)
Definition declared (n : str) (short : byte) (has_val : bool) (s : CmdLineParser) : Prop :=
  exists a, assoc n (args_ s) = Some a /\ short_name a = short /\ has_value a = has_val.

(** No other option has the letter. *)
Definition own_letter (n : str) (short : byte) (s : CmdLineParser) : Prop :=
  forall n' a, assoc n' (args_ s) = Some a -> short_name a = short -> n' = n.

(** The letter of a token that begins with one dash: what follows it does not count, and a
    lone dash has the letter NUL, that of the options without one. *)
Definition letter (token : str) (short : byte) : Prop :=
  exists rest, token = "-" :: rest /\ head rest <> Some "-" /\ default x00 (head rest) = short.

(** A token names an option; [--help] and [-h] name none, whatever was declared. *)
Inductive names (s : CmdLineParser) : bool -> str -> bool -> str -> Prop :=
| names_long n short hv :
    declared n short hv s -> "-" :: "-" :: n ∉ help_tokens -> names s true n hv ("-" :: "-" :: n)
| names_short n short hv token :
    declared n short hv s -> own_letter n short s -> letter token short ->
    token ∉ help_tokens -> names s false n hv token.

(** A token with a dash that names no option. *)
Inductive unknown (s : CmdLineParser) : str -> Prop :=
| unknown_long n : assoc n (args_ s) = None -> "-" :: "-" :: n ∉ help_tokens -> unknown s ("-" :: "-" :: n)
| unknown_short token short :
    letter token short -> (forall n a, assoc n (args_ s) = Some a -> short_name a <> short) ->
    token ∉ help_tokens -> unknown s token.

Inductive item_text (s : CmdLineParser) : item -> list str -> Prop :=
| text_use long n v token :
    names s long n (bool_decide (is_Some v)) token -> item_text s (Use long n v) (token :: option_list v)
| text_help token : token ∈ help_tokens -> item_text s Help [token]
| text_operand t : head t <> Some "-" -> item_text s (Operand t) [t]
| text_unknown t : unknown s t -> item_text s (Operand t) [t].

(** A command line: items, and at its end perhaps an option without the value it takes. *)
Inductive command_line (s : CmdLineParser) : list item -> list str -> Prop :=
| line_end : command_line s [] []
| line_item i t items l :
    item_text s i t -> command_line s items l -> command_line s (i :: items) (t ++ l)
| line_no_value long n token :
    names s long n true token -> command_line s [Use long n None] [token].

(** The values given to an option, and the operands. *)
Definition uses (n : str) (items : list item) : list (option str) :=
  omap (fun i => match i with
                 | Use _ n' v => if decide (n' = n) then Some v else None
                 | _ => None
                 end) items.
Definition operands (items : list item) : list str :=
  omap (fun i => match i with Operand t => Some t | _ => None end) items.

(** ** Lemmas *)

Definition mark (v : option str) (a : CmdLineArg) : CmdLineArg :=
  {| name := name a; short_name := short_name a; has_value := has_value a; found := true;
     value := default (value a) v; description := description a |}.

Lemma assoc_key {A} k (l : list (str * A)) a : assoc k l = Some a -> k ∈ l.*1.
Proof.
  induction l as [|[k' b] l IH]; csimpl; [done|]. case_decide; [subst; left|right; auto].
Qed.

(** The option found is the one of a name, and gets its value from the next token. *)
Lemma use_option_name is_long n key next l a :
  assoc n l = Some a -> NoDup l.*1 -> matches is_long key (n, a) = true ->
  (forall n' a', assoc n' l = Some a' -> matches is_long key (n', a') = true -> n' = n) ->
  use_option is_long key next l =
  Some (assign n (mark (if has_value a then next else None) a) l, has_value a && bool_decide (is_Some next)).
Proof.
  induction l as [|[k b] l IH]; simpl; [done|]. intros Ha Hnd Hm Honly. csimpl in Hnd.
  apply NoDup_cons in Hnd as [Hk Hnd]. destruct (matches is_long key (k, b)) eqn:Hb.
  - assert (k = n) as -> by (apply (Honly k b); [by rewrite decide_True|done]).
    destruct (decide (n = n)) as [_|]; [|done]. injection Ha as ->. unfold mark.
    by destruct (has_value a), next.
  - destruct (decide (k = n)) as [->|Hne]; [congruence|].
    rewrite IH; [done|done|done|done|]. intros n' a' Ha' Hm'. apply (Honly n' a'); [|done].
    rewrite decide_False; [done|]. intros ->. by apply assoc_key in Ha'.
Qed.

(** Two parsers with the same declarations. *)
Definition same_options (s s' : CmdLineParser) : Prop :=
  forall n, (fun a => (short_name a, has_value a)) <$> assoc n (args_ s) =
            (fun a => (short_name a, has_value a)) <$> assoc n (args_ s').

Lemma declared_same n c b s s' : same_options s s' -> declared n c b s -> declared n c b s'.
Proof.
  intros H (a & Ha & Hc & Hb). specialize (H n). rewrite Ha in H. simpl in H.
  destruct (assoc n (args_ s')) as [a'|] eqn:E; [|done]. exists a'. split; [done|]. by simplify_eq/=.
Qed.

Lemma own_letter_same n c s s' : same_options s s' -> own_letter n c s -> own_letter n c s'.
Proof.
  intros H Ho n' a' Ha Hc. specialize (H n'). rewrite Ha in H. simpl in H.
  destruct (assoc n' (args_ s)) as [a|] eqn:E; [|done]. apply (Ho n' a E). by simplify_eq/=.
Qed.

Lemma assoc_same n s s' : same_options s s' -> assoc n (args_ s) = None -> assoc n (args_ s') = None.
Proof. intros H E. specialize (H n). rewrite E in H. by destruct (assoc n (args_ s')). Qed.

Lemma names_same s s' long n hv t : same_options s s' -> names s long n hv t -> names s' long n hv t.
Proof. intros H []; econstructor; eauto using declared_same, own_letter_same. Qed.

Lemma unknown_same s s' t : same_options s s' -> unknown s t -> unknown s' t.
Proof.
  intros H [n Hn Ht|token short Hl Hno Ht]; [constructor; by eauto using assoc_same|].
  apply (unknown_short _ _ short); [done| |done]. intros n a Ha Hc. specialize (H n). rewrite Ha in H.
  simpl in H. destruct (assoc n (args_ s)) as [a'|] eqn:E; [|done]. apply (Hno n a' E). by simplify_eq/=.
Qed.

Lemma command_line_same s s' items l :
  same_options s s' -> command_line s items l -> command_line s' items l.
Proof.
  intros H. induction 1 as [|i t items l Ht _ IH|long n token Hn]; [constructor| |].
  - apply line_item; [|done]. destruct Ht; [constructor 1|constructor 2|constructor 3|constructor 4];
      eauto using names_same, unknown_same.
  - constructor. by eapply names_same.
Qed.

(** What an item does. *)
Definition apply_item (i : item) (s : CmdLineParser) : CmdLineParser :=
  match i with
  | Use _ n v =>
      match assoc n (args_ s) with
      | Some a => {| args_ := assign n (mark v a) (args_ s); rest_ := rest_ s |}
      | None => s
      end
  | Help => s
  | Operand t => push_rest t s
  end.

Lemma apply_item_same i s : same_options s (apply_item i s).
Proof.
  destruct i as [long n v| |t]; [|done..]. intros k. simpl. destruct (assoc n (args_ s)) as [a|] eqn:E; [|done].
  simpl. rewrite assoc_assign. case_decide; [subst; by rewrite E|done].
Qed.

Lemma apply_item_keys i s : (args_ (apply_item i s)).*1 = (args_ s).*1.
Proof.
  destruct i as [long n v| |t]; [|done..]. simpl. destruct (assoc n (args_ s)) as [a|] eqn:E; [|done].
  simpl. rewrite assign_keys, decide_True; [done|]. by eapply assoc_key.
Qed.

Lemma option_of_operand t : head t <> Some "-" -> option_of t = None /\ t ∉ help_tokens.
Proof.
  intros H. destruct t as [|c t]; [split; [done|by by_compute]|].
  assert (c <> "-") as Hc by (intros ->; by apply H). split; [by destruct c|].
  unfold help_tokens. set_solver.
Qed.

(** The option a token names, and that it is the only one. *)
Lemma names_option s long n hv token :
  names s long n hv token ->
  exists a key, assoc n (args_ s) = Some a /\ has_value a = hv /\ token ∉ help_tokens /\
    option_of token = Some (long, key) /\ matches long key (n, a) = true /\
    forall n' a', assoc n' (args_ s) = Some a' -> matches long key (n', a') = true -> n' = n.
Proof.
  intros [n' short hv' (a & Ha & Hc & Hv) Ht|n' short hv' t (a & Ha & Hc & Hv) Ho (r & -> & Hd & Hr) Ht].
  - exists a, n'. split_and!; try done; [by apply bool_decide_eq_true|].
    by intros n2 a' _ ?%bool_decide_eq_true.
  - exists a, r. split_and!; try done.
    + destruct r as [|c r]; [done|]. cbn in Hd. assert (c <> "-") as Hne by congruence. by destruct c.
    + unfold matches. cbn. rewrite Hr. by apply bool_decide_eq_true.
    + unfold matches. cbn. rewrite Hr. intros n2 a' Ha' ?%bool_decide_eq_true. by apply (Ho n2 a').
Qed.

(** A token of an option, with the value behind it, or none left. *)
Lemma parse_use s long n v hv token l :
  names s long n hv token -> hv = bool_decide (is_Some v) \/ v = None /\ l = [] ->
  NoDup (args_ s).*1 ->
  parse (token :: option_list v ++ l) s = parse l (apply_item (Use long n v) s).
Proof.
  intros Hn Hv Hnd. destruct (names_option _ _ _ _ _ Hn) as (a & key & Ha & Hhv & Ht & Ho & Hm & Honly).
  cbn [parse]. rewrite decide_False, Ho by done.
  rewrite (use_option_name long n key _ _ a) by done. rewrite Hhv. simpl. rewrite Ha.
  destruct Hv as [->|[-> ->]]; [destruct v as [v|]; simpl; [done|by destruct (head l)]|].
  by destruct hv.
Qed.

(** A token that fits no option. *)
Lemma use_option_none long key next l :
  (forall n a, (n, a) ∈ l -> matches long key (n, a) = false) -> use_option long key next l = None.
Proof.
  induction l as [|[k a] l IH]; intros H; [done|]. cbn [use_option]. rewrite H by left.
  rewrite IH; [done|]. intros n b Hb. apply H. by right.
Qed.

Lemma assoc_NoDup {A} (l : list (str * A)) n a : NoDup l.*1 -> (n, a) ∈ l -> assoc n l = Some a.
Proof.
  induction l as [|[k b] l IH]; csimpl; intros Hnd Hin; [by apply not_elem_of_nil in Hin|].
  apply NoDup_cons in Hnd as [Hk Hnd]. apply elem_of_cons in Hin as [[= <- <-]|Hin];
    [by rewrite decide_True|].
  rewrite decide_False; [by apply IH|]. intros ->. apply Hk. apply list_elem_of_fmap. by exists (n, a).
Qed.

Lemma parse_unknown t s l :
  NoDup (args_ s).*1 -> unknown s t -> parse (t :: l) s = parse l (push_rest t s).
Proof.
  intros Hnd [n Hn Ht|token short (r & -> & Hd & Hr) Hno Ht]; cbn [parse]; rewrite decide_False by done.
  - cbn [option_of]. rewrite use_option_none; [done|]. intros k a Hin. apply bool_decide_eq_false.
    cbn. intros ->. apply assoc_NoDup in Hin; [|done]. congruence.
  - assert (option_of ("-" :: r) = Some (false, r)) as ->.
    { destruct r as [|c r]; [done|]. cbn in Hd. assert (c <> "-") as Hne by congruence. by destruct c. }
    rewrite use_option_none; [done|]. intros k a Hin. apply bool_decide_eq_false. cbn. rewrite Hr.
    apply (Hno k a). by apply assoc_NoDup.
Qed.

Lemma parse_item i t s l :
  NoDup (args_ s).*1 -> item_text s i t -> parse (t ++ l) s = parse l (apply_item i s).
Proof.
  intros Hnd [long n v token Hn|token Ht|u Hu|u Hu].
  - cbn [app]. apply (parse_use s long n v _ token l Hn); [by left|done].
  - cbn [app parse]. by rewrite decide_True.
  - destruct (option_of_operand u Hu) as [E Hn]. cbn [app parse]. by rewrite decide_False, E by done.
  - by apply parse_unknown.
Qed.

Lemma parse_items items l s :
  NoDup (args_ s).*1 -> command_line s items l ->
  parse l s = foldl (fun s i => apply_item i s) s items.
Proof.
  intros Hnd H. remember s as s0 eqn:E0 in H at 1.
  assert (same_options s0 s) as Hs by (by subst). clear E0.
  apply (command_line_same _ _ _ _ Hs) in H. clear Hs s0. revert l s Hnd H.
  induction items as [|i items IH]; intros l s Hnd H; inversion H as [|? t ? l' Ht Hl|long n token Hn]; subst;
    [done| |].
  - rewrite (parse_item i) by done. cbn [foldl]. apply IH; [by rewrite apply_item_keys|].
    eapply command_line_same; [apply apply_item_same|done].
  - change [token] with (token :: option_list (@None str) ++ []).
    by rewrite (parse_use s long n None true token [] Hn) by auto.
Qed.

(** What the items leave of an option and of the operands. *)
Definition declares (n : str) (s : CmdLineParser) : Prop := is_Some (assoc n (args_ s)).

Lemma apply_item_option i s n :
  declares n s ->
  declares n (apply_item i s) /\
  has n (apply_item i s) = has n s || bool_decide (uses n [i] <> []) /\
  get n (apply_item i s) = default (get n s) (last (omap id (uses n [i]))) /\
  rest_ (apply_item i s) = rest_ s ++ operands [i].
Proof.
  intros [a Ha]. unfold declares, has, get. destruct i as [long k v| |t]; simpl.
  - destruct (decide (k = n)) as [->|Hne]; simpl.
    + rewrite Ha. simpl. rewrite assoc_assign, decide_True, orb_true_r, app_nil_r by done.
      split_and!; [by eexists|done|by destruct v|done].
    + rewrite orb_false_r, app_nil_r. destruct (assoc k (args_ s)) as [b|]; simpl; [|by split_and!].
      rewrite assoc_assign, decide_False by done. by split_and!.
  - rewrite orb_false_r, app_nil_r. by split_and!.
  - rewrite orb_false_r. by split_and!.
Qed.

Lemma fold_items_option items s n :
  declares n s ->
  let s' := foldl (fun s i => apply_item i s) s items in
  has n s' = has n s || bool_decide (uses n items <> []) /\
  get n s' = default (get n s) (last (omap id (uses n items))).
Proof.
  cbv zeta. revert s. induction items as [|i items IH]; intros s Hd; cbn [foldl].
  { by rewrite orb_false_r. }
  destruct (apply_item_option i s n Hd) as (Hd' & Hh & Hg & _).
  destruct (IH _ Hd') as [-> ->]. rewrite Hh, Hg.
  change (uses n (i :: items)) with (uses n ([i] ++ items)). unfold uses. rewrite omap_app.
  fold (uses n [i]) (uses n items). rewrite omap_app, last_app. split.
  - rewrite <-orb_assoc. f_equal. destruct (uses n [i]); [done|]. done.
  - by destruct (last (omap id (uses n items))).
Qed.

Lemma fold_items_rest items s :
  rest_ (foldl (fun s i => apply_item i s) s items) = rest_ s ++ operands items.
Proof.
  revert s. induction items as [|i items IH]; intros s; cbn [foldl]; [by rewrite app_nil_r|].
  rewrite IH. change (operands (i :: items)) with (operands ([i] ++ items)).
  unfold operands. rewrite omap_app, app_assoc. f_equal.
  destruct i as [long n v| |t]; simpl; [|by rewrite app_nil_r|done].
  rewrite app_nil_r. by destruct (assoc n (args_ s)).
Qed.

(** C38: For a command line made of uses of declared options, by name or by a letter no
    other option has (what stands behind the letter in its token is ignored), each with its
    value when it takes one and there is a token left, of requests for help, and of
    operands and options that were not declared: after [parse] an option is found exactly
    when it was found before or is used, its value is the last one given, else the one
    before, and the operands and unknown options are the rest, in order; whatever a value
    looks like, it is not taken for an option.  The tokens [--help] and [-h] are skipped
    also when an option of that name or letter is declared: such an option is not found,
    and the token behind [-h] stands for itself.  A token with two dashes is never a
    letter, and a lone dash is the use of the one option without a letter. *)
Theorem cmdline_parse items l s :
  NoDup (args_ s).*1 -> command_line s items l ->
  let s' := parse l s in
  rest_ s' = rest_ s ++ operands items /\
  forall n, is_Some (assoc n (args_ s)) ->
    has n s' = has n s || bool_decide (uses n items <> []) /\
    get n s' = default (get n s) (last (omap id (uses n items))) /\
    forall d, get_or_default n d s' = if has n s' then get n s' else d.
Proof.
  intros Hnd H. cbv zeta. rewrite (parse_items items l s) by done. split; [apply fold_items_rest|].
  intros n Hn. destruct (fold_items_option items s n Hn) as [Hh Hg]. split_and!; [done..|].
  intros d. unfold get_or_default, has, get. by repeat case_match; simplify_eq.
Qed.

(** ** Instances *)

(** An option "port" with the letter p and a value, a flag "v" with the letter v, and an
    option "host" with the letter h and a value. *)
Definition options : CmdLineParser :=
  add ["h"; "o"; "s"; "t"] "h" true [] []
    (add ["v"] "v" false [] [] (add ["p"; "o"; "r"; "t"] "p" true [] ["8"; "0"] CmdLineParser0)).

(** -p -v a --v -h x --none --port *)
Definition a_line : list str :=
  [["-"; "p"]; ["-"; "v"]; ["a"]; ["-"; "-"; "v"]; ["-"; "h"]; ["x"]; text "--none"; text "--port"].
Definition its_items : list item :=
  [Use false ["p"; "o"; "r"; "t"] (Some ["-"; "v"]); Operand ["a"]; Use true ["v"] None; Help;
   Operand ["x"]; Operand (text "--none"); Use true ["p"; "o"; "r"; "t"] None].

Lemma a_line_items : command_line options its_items a_line.
Proof.
  apply (line_item _ _ [["-"; "p"]; ["-"; "v"]]); [apply text_use|].
  { apply (names_short options ["p"; "o"; "r"; "t"] "p"); [by eexists| |by eexists|by by_compute].
    intros n a Ha Hc. simpl in Ha. by repeat case_decide; simplify_eq/=. }
  apply (line_item _ _ [["a"]]); [by apply text_operand|].
  apply (line_item _ _ [["-"; "-"; "v"]]); [apply (text_use _ _ _ None)|].
  { apply (names_long options ["v"] "v"); [by eexists|by by_compute]. }
  apply (line_item _ _ [["-"; "h"]]); [apply text_help; by by_compute|].
  apply (line_item _ _ [["x"]]); [by apply text_operand|].
  apply (line_item _ _ [text "--none"]); [apply text_unknown, unknown_long; by by_compute|].
  apply line_no_value. apply (names_long options ["p"; "o"; "r"; "t"] "p"); [by eexists|by by_compute].
Qed.

Lemma cmdline_parse_witness :
  let s' := parse a_line options in
  rest_ s' = [["a"]; ["x"]; text "--none"] /\ get ["p"; "o"; "r"; "t"] s' = ["-"; "v"] /\
  has ["v"] s' = true /\ has ["h"; "o"; "s"; "t"] s' = false.
Proof.
  destruct (cmdline_parse its_items a_line options) as [Hr Ho]; [by by_compute|apply a_line_items|].
  split_and!; [exact Hr| | |].
  - by destruct (Ho ["p"; "o"; "r"; "t"] ltac:(by eexists)) as (_ & -> & _).
  - by destruct (Ho ["v"] ltac:(by eexists)) as (-> & _).
  - by destruct (Ho ["h"; "o"; "s"; "t"] ltac:(by eexists)) as (-> & _).
Defined.

(** A lone dash is taken for an option without a letter. *)
Example cmdline_lone_dash :
  has ["x"] (parse [["-"]] (add ["x"] x00 false [] [] CmdLineParser0)) = true.
Proof. reflexivity. Qed.
