(* ===== verification/JsonPrint.v ===== *)
(** * Writing a configuration as JSON (base/config/config.cpp, Config::to_json)

    The writer, and what the reader of [Json] makes of its text.  The text [operator<<]
    gives for a [double] is a parameter; the order of the unordered map is that of the
    association list. *)

From S2P Require Import Prelude ConfigNode Json.

Open Scope Z_scope.
Open Scope byte_scope.

(** ** Decimal numbers *)

Definition digit_char (d : Z) : byte := z2b (b2z "0" + d).

Fixpoint decimal (fuel : nat) (z : Z) (acc : str) : str :=
  match fuel with
  | O => acc
  | S fuel' =>
      let acc' := digit_char (z mod 10) :: acc in
      if z <? 10 then acc' else decimal fuel' (z / 10) acc'
  end.

(** [operator<<] on an integer; the number of bits bounds the number of digits. *)
Definition show_nat (z : Z) : str := decimal (S (Z.to_nat (Z.log2 z))) z [].
Definition show_int (z : Z) : str := if z <? 0 then "-" :: show_nat (- z) else show_nat z.

(** Texts one after another with a separator between them. *)
Fixpoint join (sep : str) (l : list str) : str :=
  match l with
  | [] => []
  | [t] => t
  | t :: l' => t ++ sep ++ join sep l'
  end.

Section to_json.
Context {D : Type} (stod : str -> outcome D) (show_double : D -> str).

#[local] Abbreviation value := (@ConfigValue D).
#[local] Abbreviation node := (@ConfigNode D).

Definition null_text : str := ["n"; "u"; "l"; "l"].
Definition true_text : str := ["t"; "r"; "u"; "e"].
Definition false_text : str := ["f"; "a"; "l"; "s"; "e"].

(** The value of a child: strings are written as they are, every kind that is not asked
    for is null. *)
Definition value_json (v : option value) : str :=
  match v with
  | Some (VString s) => quote :: s ++ [quote]
  | Some (VInt z) => show_int z
  | Some (VDouble d) => show_double d
  | Some (VBool b) => if b then true_text else false_text
  | _ => null_text
  end.

Definition member_json (kv : str * node) : str :=
  [" "; " "; quote] ++ kv.1 ++ [quote; ":"; " "] ++ value_json (value_ kv.2).

Definition members_json (l : list (str * node)) : str := join [","; x0a] (member_json <$> l).

Definition to_json (root : node) : str :=
  ["{"; x0a] ++ members_json (children_ root) ++ [x0a; "}"].

(** ** What is read back *)

(** A text the writer does not spoil: without quotes and backslashes. *)
Definition plain (s : str) : Prop := ~ quote ∈ s /\ ~ backslash ∈ s.

(** The value the reader finds for a value written. *)
Definition reread (v : option value) : outcome value :=
  match v with
  | Some (VString s) => Ret (VString s)
  | Some (VInt z) => Ret (VInt64 z)
  | Some (VDouble d) => token_value stod (show_double d)
  | Some (VBool b) => Ret (VBool b)
  | _ => Ret VNull
  end.

Definition writable (v : option value) : Prop :=
  match v with
  | Some (VString s) => plain s
  | Some (VInt z) => - 2 ^ 31 <= z < 2 ^ 31
  | Some (VDouble d) => token (show_double d)
  | _ => True
  end.

Lemma plain_escaped s : plain s -> escaped s s.
Proof.
  intros [Hq Hb]. induction s as [|c s IH]; [constructor|].
  apply not_elem_of_cons in Hq as [? Hq], Hb as [? Hb]. constructor; auto.
Qed.

Lemma digit_char_digit d : 0 <= d < 10 -> digit (digit_char d) = Some d.
Proof.
  intros Hd. unfold digit, digit_char. rewrite b2z_z2b. change (b2z "0") with 48%Z.
  unfold u8. rewrite Z.mod_small by lia.
  replace (48 + d - 48) with d by lia.
  by rewrite (proj2 (Z.leb_le _ _)), (proj2 (Z.ltb_lt _ _)) by lia.
Qed.

Lemma digits_decimal fuel z l :
  0 <= z < 10 ^ Z.of_nat fuel -> (0 < fuel)%nat ->
  digits None (decimal fuel z l) = digits (Some z) l.
Proof.
  revert z l. induction fuel as [|fuel IH]; intros z l Hz Hf; [lia|]. cbn [decimal].
  pose proof (Z.mod_pos_bound z 10 ltac:(lia)).
  destruct (Z.ltb_spec z 10).
  - cbn [digits]. rewrite digit_char_digit by lia. cbn [default]. do 2 f_equal.
    rewrite Z.mod_small by lia. lia.
  - rewrite Nat2Z.inj_succ, Z.pow_succ_r in Hz by lia.
    destruct fuel as [|fuel]; [simpl in Hz; lia|].
    rewrite IH; [|split; [apply Z.div_pos; lia|apply Z.div_lt_upper_bound; lia]|lia].
    cbn [digits]. rewrite digit_char_digit by lia. cbn [default]. do 2 f_equal.
    pose proof (Z.div_mod z 10 ltac:(lia)). cbn [id]. lia.
Qed.

Lemma show_nat_digits z : 0 <= z -> digits None (show_nat z) = Some z.
Proof.
  intros Hz. unfold show_nat. rewrite digits_decimal; [done| |lia]. split; [done|].
  rewrite Nat2Z.inj_succ, Z2Nat.id by apply Z.log2_nonneg.
  destruct (decide (z = 0)) as [->|]; [done|].
  apply Z.lt_le_trans with (2 ^ Z.succ (Z.log2 z)); [apply Z.log2_spec; lia|].
  apply Z.pow_le_mono_l. lia.
Qed.

(** All characters of a number are digits. *)
Lemma decimal_digits fuel z l c :
  0 <= z -> c ∈ decimal fuel z l -> c ∈ l \/ exists d, 0 <= d < 10 /\ c = digit_char d.
Proof.
  revert z l. induction fuel as [|fuel IH]; intros z l Hz; cbn [decimal]; [by left|].
  pose proof (Z.mod_pos_bound z 10 ltac:(lia)).
  assert (c ∈ digit_char (z mod 10) :: l -> c ∈ l \/ exists d, 0 <= d < 10 /\ c = digit_char d) as Hd.
  { intros [->|?]%elem_of_cons; [right; by eexists|by left]. }
  destruct (Z.ltb_spec z 10); [done|]. intros Hc.
  apply IH in Hc as [?|?]; [by apply Hd|by right|apply Z.div_pos; lia].
Qed.

(** A digit is not a delimiter, a quote, a bracket, a letter, a sign or a dot. *)
Lemma digit_char_plain d :
  0 <= d < 10 ->
  let c := digit_char d in
  is_delim c = false /\ is_space c = false /\
  c ∉ [quote; "["; "{"; "."; "-"; "+"; "t"; "f"; "n"].
Proof. intros Hd. case_index d 10%nat; cbv zeta; split_and!; by_compute. Qed.

Lemma show_nat_cons z :
  0 <= z -> exists d t, show_nat z = digit_char d :: t /\ 0 <= d < 10 /\
    Forall (fun c => exists d, 0 <= d < 10 /\ c = digit_char d) (show_nat z).
Proof.
  intros Hz.
  assert (Forall (fun c => exists d, 0 <= d < 10 /\ c = digit_char d) (show_nat z)) as Hall.
  { apply list.Forall_forall. intros c Hc. apply decimal_digits in Hc as [?%elem_of_nil|?]; done. }
  pose proof (show_nat_digits z Hz) as Hd. destruct (show_nat z) as [|c t] eqn:E; [done|].
  pose proof Hall as Hall'. apply Forall_cons in Hall' as [(d & Hd0 & ->) _]. by exists d, t.
Qed.

(** What distinguishes the text of a number from the other tokens. *)
Lemma show_int_chars z :
  exists c t, show_int z = c :: t /\
    Forall (fun c => is_delim c = false /\ c <> ".") (show_int z) /\
    is_space c = false /\ c ∉ [quote; "["; "{"; "t"; "f"; "n"].
Proof.
  assert (forall y, 0 <= y -> exists c t, show_nat y = c :: t /\
    Forall (fun c => is_delim c = false /\ c <> ".") (show_nat y) /\
    is_space c = false /\ c ∉ [quote; "["; "{"; "t"; "f"; "n"]) as Hn.
  { intros y Hy. destruct (show_nat_cons y Hy) as (d & t & E & Hd & Hall).
    exists (digit_char d), t. destruct (digit_char_plain d Hd) as (_ & Hs & Hc).
    split_and!; [done| |done|set_solver].
    eapply list.Forall_impl; [exact Hall|]. intros c (d' & Hd' & ->).
    destruct (digit_char_plain d' Hd') as (? & _ & Hc'). split; [done|set_solver]. }
  unfold show_int. destruct (Z.ltb_spec z 0); [|by apply Hn].
  destruct (Hn (- z)) as (c & t & _ & Hall & _); [lia|].
  exists "-", (show_nat (- z)). split_and!; [done| |done|by_compute].
  constructor; [by split|done].
Qed.

Lemma strto_show_int z : strto (show_int z) = Some z.
Proof.
  unfold strto, show_int. destruct (Z.ltb_spec z 0).
  - cbn [drop_while]. change (is_space "-") with false. cbn iota.
    rewrite decide_True by done. rewrite show_nat_digits by lia. cbn. f_equal. lia.
  - destruct (show_nat_cons z) as (d & t & E & Hd & _); [done|].
    destruct (digit_char_plain d Hd) as (_ & Hs & Hc).
    pose proof (show_nat_digits z ltac:(done)) as Hv. rewrite E in Hv |- *.
    cbn [drop_while]. rewrite Hs. rewrite !decide_False by set_solver. done.
Qed.

Lemma show_int_token z :
  - 2 ^ 63 <= z < 2 ^ 63 ->
  token (show_int z) /\ token_value stod (show_int z) = Ret (VInt64 z).
Proof.
  intros Hz. destruct (show_int_chars z) as (c & t & E & Hall & Hs & Hc). split.
  - exists c, t. split_and!; [done| |set_solver..].
    eapply list.Forall_impl; [exact Hall|]. by intros ? [].
  - unfold token_value. rewrite !decide_False.
    + unfold stoll, sto. rewrite strto_show_int. rewrite (proj2 (Z.leb_le _ _)) by lia.
      by rewrite (proj2 (Z.ltb_lt _ _)) by lia.
    + intros Hdot. rewrite list.Forall_forall in Hall. by destruct (Hall _ Hdot).
    + rewrite E. intros [= -> _]. set_solver.
    + rewrite E. intros [= -> _]. set_solver.
    + rewrite E. intros [= -> _]. set_solver.
Qed.

(** Members on lines of their own. *)
Lemma join_members_text ms ts w :
  Forall2 (fun m t => member_text stod m (x0a :: t)) ms ts -> ws w ->
  members_text stod ms (x0a :: join [","; x0a] ts ++ w).
Proof.
  intros H Hw. induction H as [|m t ms ts Hm Hl IH]; [by apply members_nil; constructor|].
  destruct Hl as [|m2 t2 ms ts Hm2 Hl].
  - by apply (members_last stod m (x0a :: t) w).
  - change (join [","; x0a] (t :: t2 :: ts)) with (t ++ [","; x0a] ++ join [","; x0a] (t2 :: ts)).
    rewrite <-!app_assoc.
    apply (members_more stod m (x0a :: t) [] _ (x0a :: join [","; x0a] (t2 :: ts) ++ w));
      [exact Hm|constructor|exact IH].
Qed.

(** The text of a value is one the reader is meant for. *)
Lemma value_json_text v w :
  writable v -> reread v = Ret w -> value_text stod w (value_json v).
Proof.
  destruct v as [[|b|z|z|d|s|l|l|l|l]|]; cbn [writable reread value_json]; intros Hv;
    try (intros [= <-]; apply text_token; [by eexists _, _; split_and!; [|repeat constructor| | |]|done]).
  - destruct b; intros [= <-]; (apply text_token; [|done]);
      by eexists _, _; split_and!; [|repeat constructor| | |].
  - intros [= <-]. destruct (show_int_token z) as [Ht E]; [lia|]. by apply text_token.
  - intros E. by apply text_token.
  - intros [= <-]. by apply text_string, plain_escaped.
Qed.
End to_json.

(** ** Writing and reading again *)

Section reload.
Context {D : Type} (stod : str -> outcome D) (show_double : D -> str).
#[local] Abbreviation value := (@ConfigValue D).
#[local] Abbreviation node := (@ConfigNode D).

(** A child as it is written, and the value read for it. *)
Definition rewritten (kv : str * node) (kw : str * value) : Prop :=
  kw.1 = kv.1 /\ plain kv.1 /\ writable show_double (value_ kv.2) /\
  reread stod show_double (value_ kv.2) = Ret kw.2.

Definition scalar (kw : str * value) : member := Scalar kw.1 kw.2.
Definition leaf (kw : str * value) : str * node := (kw.1, of_value kw.2).

Lemma member_json_text kv kw :
  rewritten kv kw -> member_text stod (scalar kw) (x0a :: member_json show_double kv).
Proof.
  destruct kv as [k n], kw as [k' w]. intros (E & Hk & Hw & Hr). cbn in E, Hk, Hw, Hr. subst k'.
  unfold member_json, scalar. cbn [fst snd].
  replace (x0a :: [" "; " "; quote] ++ k ++ [quote; ":"; " "] ++ value_json show_double (value_ n))
    with ([x0a; " "; " "] ++ quoted k ++ [] ++ ":" :: [" "] ++ value_json show_double (value_ n)).
  - apply member_scalar; [by repeat constructor|by apply plain_escaped|constructor|by repeat constructor|].
    by apply value_json_text.
  - unfold quoted. cbn [app]. by rewrite <-app_assoc.
Qed.

Lemma members_json_text l kws :
  Forall2 rewritten l kws ->
  members_text stod (scalar <$> kws) (x0a :: members_json show_double l ++ [x0a]).
Proof.
  intros Hl. apply join_members_text; [|by repeat constructor].
  induction Hl as [|kv kw l kws Hkv _ IH]; csimpl; constructor; [|exact IH].
  by apply member_json_text.
Qed.

Lemma assign_new {A} key (a : A) l : ~ key ∈ l.*1 -> assign key a l = l ++ [(key, a)].
Proof.
  induction l as [|[k b] l IH]; csimpl; [done|]. intros Hk.
  apply not_elem_of_cons in Hk as [Hne Hk]. by rewrite decide_False, IH by done.
Qed.

Lemma apply_scalars kws n :
  NoDup ((children_ n).*1 ++ kws.*1) ->
  apply_members (scalar <$> kws) n = Node (value_ n) (children_ n ++ (leaf <$> kws)).
Proof.
  revert n. induction kws as [|[k w] kws IH]; intros n Hd; csimpl.
  - rewrite app_nil_r. by destruct n.
  - csimpl in Hd. assert (~ k ∈ (children_ n).*1) as Hk.
    { apply NoDup_app in Hd as (_ & Hd & _). intros Hk. by apply (Hd k Hk); left. }
    rewrite IH; unfold scalar, set_key, put; cbn [apply_member value_ children_];
      unfold set_key, put; cbn [value_ children_]; rewrite assign_new by done.
    + by rewrite <-app_assoc.
    + by rewrite fmap_app, <-app_assoc.
Qed.

Lemma rewritten_keys l kws : Forall2 rewritten l kws -> kws.*1 = l.*1.
Proof. induction 1 as [|kv kw l kws (E & _) _ IH]; csimpl; [done|]. by rewrite E, IH. Qed.

(** What survives being written and read. *)
Definition stable (kv : str * node) : Prop :=
  match kv.2 with
  | Node (Some VNull) [] | Node (Some (VBool _)) [] | Node (Some (VString _)) [] => True
  | _ => False
  end.

Lemma rewritten_stable l kws : Forall2 rewritten l kws -> Forall stable l -> leaf <$> kws = l.
Proof.
  induction 1 as [|[k n] [k' w] l kws (E & _ & _ & Hr) _ IH]; [done|]. intros [Hs Hl]%Forall_cons.
  cbn in E, Hr. subst k'. csimpl. rewrite IH by done. f_equal. unfold leaf, of_value. cbn [fst snd].
  destruct n as [[[]|] []]; cbn in Hs, Hr; try done; by injection Hr as <-.
Qed.

(** C40: What [to_json] writes, [parse_json] reads, for a root whose keys are distinct and,
    like its strings, without quotes and backslashes (the writer escapes neither): strings and
    booleans come back as they were and an [int] as the same number in 64 bits, whatever
    follows a [double]'s text is what the reader makes of it, and a root of strings,
    booleans and nulls comes back exactly.  Everything else is written as null and lost:
    arrays, nested objects and every [int64_t], the only kind of integer that the reader
    itself produces. *)
Theorem to_json_reload (root : node) (kws : list (str * value)) (fuel : nat) :
  NoDup (children_ root).*1 -> Forall2 rewritten (children_ root) kws ->
  (length (to_json show_double root) < fuel)%nat ->
  parse_json stod fuel (to_json show_double root) = Some (Ret tt, Node None (leaf <$> kws)) /\
  (Forall stable (children_ root) -> leaf <$> kws = children_ root) /\
  (forall k z c, (k, Node (Some (VInt z)) c) ∈ children_ root -> (k, of_value (VInt64 z)) ∈ leaf <$> kws) /\
  (forall k n, (k, n) ∈ children_ root ->
     (is_array n = true \/ value_ n = None \/ exists z, value_ n = Some (VInt64 z)) ->
     (k, of_value VNull) ∈ leaf <$> kws).
Proof.
  intros Hd Hr Hf. split_and!.
  - erewrite parse_json_text; [| |exact Hf].
    + rewrite apply_scalars; [done|]. cbn. by rewrite (rewritten_keys _ _ Hr).
    + exists [], (x0a :: members_json show_double (children_ root) ++ [x0a]), [].
      split_and!; [|constructor|by apply members_json_text|constructor].
      unfold to_json. cbn [app]. by rewrite <-app_assoc.
  - by apply rewritten_stable.
  - intros k z c [i Hi]%list_elem_of_lookup. destruct (Forall2_lookup_l _ _ _ _ _ Hr Hi) as ([k' w] & Hw & Hrw).
    destruct Hrw as (E & _ & _ & Hv). cbn in E, Hv. injection Hv as <-. subst k'.
    apply list_elem_of_fmap. exists (k, VInt64 z). split; [done|by eapply list_elem_of_lookup_2].
  - intros k n [i Hi]%list_elem_of_lookup Hn.
    destruct (Forall2_lookup_l _ _ _ _ _ Hr Hi) as ([k' w] & Hw & E & _ & _ & Hv). cbn in E, Hv. subst k'.
    assert (w = VNull) as ->.
    { destruct n as [[[]|] c]; cbn in Hn, Hv; try (by injection Hv as <-);
        destruct Hn as [?|[?|[? ?]]]; done. }
    apply list_elem_of_fmap. exists (k, VNull). split; [done|by eapply list_elem_of_lookup_2].
Qed.
End reload.

(** A root with a string, an int and a number as the reader stores it. *)
Definition sample_root : @ConfigNode unit :=
  Node None [(["h"], of_value (VString ["x"])); (["p"], of_value (VInt (-80)));
             (["q"], of_value (VInt64 80))].

Lemma to_json_reload_witness :
  parse_json (D:=unit) (fun _ => Throw) 100 (to_json (fun _ => ["1"]) sample_root) =
    Some (Ret tt, Node None [(["h"], of_value (VString ["x"])); (["p"], of_value (VInt64 (-80)));
                             (["q"], of_value VNull)]).
Proof.
  destruct (to_json_reload (D:=unit) (fun _ => Throw) (fun _ => ["1"]) sample_root
    [(["h"], VString ["x"]); (["p"], VInt64 (-80)); (["q"], VNull)] 100) as [H _].
  - by_compute.
  - repeat constructor; cbn; try done; set_solver.
  - apply Nat.ltb_lt. vm_compute. reflexivity.
  - exact H.
Defined.
