(* ===== verification/MonitorJson.v ===== *)
(** * The report of the monitor (core/monitor/monitor.cpp, Monitor::to_json)

    The text, and what the framework's own JSON reader makes of it. *)

From S2P Require Import Prelude ConfigNode Json JsonPrint Monitor.

Open Scope Z_scope.
Open Scope byte_scope.

(** ** The text *)

(** A line with a number, and a group of such lines. *)
Definition number_json (indent : nat) (f : string * Z) : str :=
  replicate indent " " ++ quoted (text f.1) ++ [":"; " "] ++ show_int f.2.

Definition group_json (k : string) (fs : list (string * Z)) : str :=
  [" "; " "] ++ quoted (text k) ++ [":"; " "; "{"; x0a] ++
  join [","; x0a] (number_json 4 <$> fs) ++ [x0a; " "; " "; "}"].

Inductive entry := Number (k : string) (z : Z) | Group (k : string) (fs : list (string * Z)).

Definition entry_json (e : entry) : str :=
  match e with Number k z => number_json 2 (k, z) | Group k fs => group_json k fs end.

Definition report (s : MonitorStats) : list entry :=
  [Number "timestamp" (timestamp s);
   Group "connections" [("alive", connections_alive s); ("total", connections_total s);
                        ("peak", connections_peak s)];
   Number "task_queue_length" (task_queue_length s);
   Group "threadpool" [("active", threadpool_active s); ("total", threadpool_total s)];
   Group "messages" [("sent", msgs_sent s); ("recv", msgs_recv s); ("error", msgs_error s)];
   Group "bytes" [("sent", bytes_sent s); ("recv", bytes_recv s)];
   Group "memory" [("rss_kb", memory_rss_kb s); ("peak_rss_kb", memory_peak_rss_kb s)]]%string.

Definition to_json (tick : Z) (s : Monitor) : str :=
  ["{"; x0a] ++ join [","; x0a] (entry_json <$> report (snapshot tick s)) ++ [x0a; "}"].

(** ** Reading it *)

Section read.
Context {D : Type} (stod : str -> outcome D).
#[local] Abbreviation member := (@member D).

Definition number_member (f : string * Z) : member := Scalar (text f.1) (VInt64 f.2).
Definition entry_member (e : entry) : member :=
  match e with
  | Number k z => number_member (k, z)
  | Group k fs => Object (text k) (number_member <$> fs)
  end.

Definition in_range (z : Z) : Prop := - 2 ^ 63 <= z < 2 ^ 63.
#[local] Instance in_range_dec z : Decision (in_range z).
Proof. unfold in_range. apply _. Defined.

Definition good_number (f : string * Z) : Prop := plain (text f.1) /\ in_range f.2.
Definition good_entry (e : entry) : Prop :=
  match e with
  | Number k z => good_number (k, z)
  | Group k fs => plain (text k) /\ text k <> [] /\ Forall good_number fs
  end.

Lemma blanks_ws n : ws (x0a :: replicate n " ").
Proof. constructor; [done|]. apply Forall_replicate. done. Qed.

Lemma number_json_text n f :
  good_number f -> member_text stod (number_member f) (x0a :: number_json n f).
Proof.
  intros [Hp Hr]. unfold number_member, number_json.
  apply (member_scalar stod (x0a :: replicate n " ") (text f.1) (text f.1) [] [" "] (VInt64 f.2) (show_int f.2)).
  - apply blanks_ws.
  - by apply plain_escaped.
  - constructor.
  - by repeat constructor.
  - destruct (show_int_token stod f.2 Hr). by apply text_token.
Qed.

Lemma entry_json_text e : good_entry e -> member_text stod (entry_member e) (x0a :: entry_json e).
Proof.
  destruct e as [k z|k fs]; [apply number_json_text|]. intros (Hp & Hk & Hfs).
  cbn [entry_member entry_json]. unfold group_json.
  replace (x0a :: [" "; " "] ++ quoted (text k) ++ [":"; " "; "{"; x0a] ++
             join [","; x0a] (number_json 4 <$> fs) ++ [x0a; " "; " "; "}"])
    with ([x0a; " "; " "] ++ quoted (text k) ++ [] ++ ":" :: [" "] ++
          "{" :: (x0a :: join [","; x0a] (number_json 4 <$> fs) ++ [x0a; " "; " "]) ++ ["}"]).
  2: { cbn [app]. by rewrite <-app_assoc. }
  apply member_object; [by repeat constructor|by apply plain_escaped|done|constructor|by repeat constructor|].
  apply join_members_text; [|by repeat constructor].
  induction Hfs as [|f fs Hf _ IH]; csimpl; constructor; [by apply number_json_text|exact IH].
Qed.

Lemma report_good s :
  Forall in_range [timestamp s; connections_alive s; connections_total s; connections_peak s;
    task_queue_length s; threadpool_active s; threadpool_total s; msgs_sent s; msgs_recv s;
    msgs_error s; bytes_sent s; bytes_recv s; memory_rss_kb s; memory_peak_rss_kb s] ->
  Forall good_entry (report s).
Proof.
  intros H. repeat (apply Forall_cons in H as [? H]).
  unfold report. repeat (apply Forall_cons_2; [|]); try apply Forall_nil_2;
    unfold good_entry; split_and?; try (repeat (apply Forall_cons_2; [|]); try apply Forall_nil_2);
    try done; try (split; [unfold plain; by_compute|done]); unfold plain; by_compute.
Qed.

(** The tree of a report, and the figures under their paths. *)
Definition report_tree (s : MonitorStats) : @ConfigNode D :=
  apply_members (entry_member <$> report s) ConfigNode0.

Lemma parse_report tick s fuel :
  Forall good_entry (report (snapshot tick s)) -> (length (to_json tick s) < fuel)%nat ->
  parse_json stod fuel (to_json tick s) = Some (Ret tt, report_tree (snapshot tick s)).
Proof.
  intros Hg Hf. unfold report_tree, to_json in *. revert Hg Hf. generalize (report (snapshot tick s)) as es.
  intros es Hg Hf. apply parse_json_text; [|exact Hf]. clear Hf.
  exists [], (x0a :: join [","; x0a] (entry_json <$> es) ++ [x0a]), [].
  split_and!; [|constructor| |constructor].
  - cbn [app]. by rewrite <-app_assoc.
  - apply join_members_text; [|by repeat constructor].
    induction Hg as [|e es He _ IH]; csimpl; constructor; [by apply entry_json_text|exact IH].
Qed.

Definition figures (st : MonitorStats) : list (string * Z) :=
  [("timestamp", timestamp st); ("connections.alive", connections_alive st);
   ("connections.total", connections_total st); ("connections.peak", connections_peak st);
   ("task_queue_length", task_queue_length st); ("threadpool.active", threadpool_active st);
   ("threadpool.total", threadpool_total st); ("messages.sent", msgs_sent st);
   ("messages.recv", msgs_recv st); ("messages.error", msgs_error st);
   ("bytes.sent", bytes_sent st); ("bytes.recv", bytes_recv st);
   ("memory.rss_kb", memory_rss_kb st); ("memory.peak_rss_kb", memory_peak_rss_kb st)]%string.

Lemma report_figures st :
  (fun f => get (text f.1) (report_tree st)) <$> figures st =
  (fun f => Some (of_value (VInt64 f.2))) <$> figures st.
Proof. vm_compute. reflexivity. Qed.

(** The report of the monitor is read by the framework's own JSON reader, and
    [Config::get] finds every figure of the snapshot under its path, as long as the
    counters are below 2^63. *)
Theorem monitor_report_readable tick (s : Monitor) fuel :
  let st := snapshot tick s in
  Forall in_range [timestamp st; connections_alive st; connections_total st; connections_peak st;
    task_queue_length st; threadpool_active st; threadpool_total st; msgs_sent st; msgs_recv st;
    msgs_error st; bytes_sent st; bytes_recv st; memory_rss_kb st; memory_peak_rss_kb st] ->
  (length (to_json tick s) < fuel)%nat ->
  exists root, parse_json stod fuel (to_json tick s) = Some (Ret tt, root) /\
    Forall (fun f => get (text f.1) root = Some (of_value (VInt64 f.2))) (figures st).
Proof.
  intros st Hr Hf. exists (report_tree st). split; [by apply parse_report; [apply report_good|]|].
  pose proof (report_figures st) as H. induction (figures st) as [|f fs IH]; [constructor|].
  injection H as H1 H2. constructor; [exact H1|by apply IH].
Qed.
End read.
