(* ===== verification/EndToEnd.v ===== *)
(** * From the client to the handlers and back

    The composition of [TcpClient], the connection of [TcpServer] and [Router]: what a
    client sends is what the handlers are called with, and what the server sends to a
    connection is what the client's [on_message_] receives.  TCP is any cutting of the
    bytes sent so far into chunks, delivered up to any point. *)

From S2P Require Import Prelude ByteOrder Packet TcpConnection Router TcpClient.

Open Scope Z_scope.

(** ** The client's side of a request *)

(** The operations of a client whose connection is not replaced: calls of [send] and the
    turns of its two threads. *)
Definition on_connection (o : client_op) : Prop :=
  match o with
  | Send c d => wf_packet (mkPacket c d)
  | ReadTurn _ | WriteTurn _ _ => True
  | _ => False
  end.

(** The packets for which [send] returned true. *)
Fixpoint accepted (host : bool) (ops : list client_op) (s : Client) : list Packet :=
  match ops with
  | [] => []
  | o :: ops' =>
      match o with Send c d => if connected_ s then [mkPacket c d] else [] | _ => [] end ++
      match run_client_op host o s with
      | Ret (Alive s') => accepted host ops' s'
      | _ => []
      end
  end.

(** The bytes out are a prefix of the stream of [ps]; the others are queued as long as
    the connection stands. *)
Definition outgoing (ps : list Packet) (s : Client) : Prop :=
  exists rest, stream ps = TcpClient.sent_bytes s ++ rest /\
    (connected_ s = true -> rest = concat (TcpClient.write_queue_ s)).

Lemma stream_app ps qs : stream (ps ++ qs) = stream ps ++ stream qs.
Proof. unfold stream. by rewrite bind_app. Qed.

Lemma write_msg_spec rs todo out :
  let '(ok, out') := write_msg rs todo out in
  exists rest, out ++ todo = out' ++ rest /\ (ok = true -> rest = []).
Proof.
  revert todo out. induction rs as [|n rs IH]; intros [|b todo] out; cbn [write_msg];
    try (exists []; by rewrite app_nil_r).
  destruct (n <=? 0); [by exists (b :: todo)|].
  specialize (IH (drop (Z.to_nat n) (b :: todo)) (out ++ take (Z.to_nat n) (b :: todo))).
  destruct (write_msg _ _ _) as [ok out']. destruct IH as (rest & E & Hr). exists rest.
  split; [|done]. by rewrite <-E, <-app_assoc, take_drop.
Qed.

Lemma during_wait_queue m s :
  TcpClient.write_queue_ (during_wait m s) = TcpClient.write_queue_ s /\
  TcpClient.sent_bytes (during_wait m s) = TcpClient.sent_bytes s.
Proof. destruct m; cbn; [done|by case_decide|]. unfold disconnect_begin. by destruct (running_ s). Qed.

Lemma outgoing_op host o s s' ps :
  on_connection o -> outgoing ps s -> run_client_op host o s = Ret (Alive s') ->
  outgoing (ps ++ match o with Send c d => if connected_ s then [mkPacket c d] else [] | _ => [] end) s'.
Proof.
  intros Ho (rest & E & Hr). destruct o as [| |c d| |ev|m rs| |]; try done; cbn [run_client_op].
  - unfold TcpClient.send. destruct (connected_ s) eqn:Hc; intros [= <-].
    + exists (rest ++ wire (mkPacket c d)). cbn. rewrite stream_app, E, <-app_assoc.
      split; [by rewrite stream_cons, app_nil_r|]. intros _.
      rewrite Hr, concat_app by done. cbn. by rewrite app_nil_r, encode_wire.
    + exists rest. rewrite app_nil_r. by rewrite Hc.
  - rewrite app_nil_r. case_decide; [|by intros [= <-]; exists rest].
    unfold read_turn. destruct (connected_ s) eqn:Hc; [|by intros [= <-]; exists rest].
    destruct ev as [bs|]; [|by intros [= <-]; exists rest].
    destruct (take_packets _ _ _) as [[b m]| |]; [|done..]. rewrite !bind_Ret.
    intros [= <-]. exists rest. cbn. by rewrite Hc.
  - rewrite app_nil_r. case_decide; [|by intros [= <-]; exists rest].
    unfold TcpClient.write_turn. destruct (connected_ s) eqn:Hc;
      [|intros [= <-]; exists rest; cbn; by rewrite Hc].
    specialize (Hr eq_refl). rewrite (proj1 (during_wait_queue m s)), (proj2 (during_wait_queue m s)).
    destruct (TcpClient.write_queue_ s) as [|msg q] eqn:Hq.
    { destruct (during_wait_queue m s) as [Hmq Hms]. rewrite Hq in Hmq.
      destruct (connected_ (during_wait m s)) eqn:Hc'; intros [= <-]; exists rest; cbn.
      - by rewrite Hmq, Hms.
      - by rewrite Hms, Hc'. }
    pose proof (write_msg_spec rs msg (TcpClient.sent_bytes s)) as Hw.
    destruct (write_msg _ _ _) as [ok out]. destruct Hw as (left & Ew & Hl). intros [= <-].
    exists (left ++ concat q). cbn. subst rest. rewrite E. cbn [concat]. split.
    + by rewrite !app_assoc, <-Ew.
    + intros [_ Hok]%andb_true_iff. by rewrite Hl.
Qed.

Lemma outgoing_run host ops s s' ps :
  Forall on_connection ops -> outgoing ps s -> run_client host ops s = Ret (Alive s') ->
  outgoing (ps ++ accepted host ops s) s'.
Proof.
  intros Ho. revert s ps. induction Ho as [|o ops Ho _ IH]; intros s ps Hs; cbn [run_client accepted].
  - intros [= <-]. by rewrite app_nil_r.
  - destruct (run_client_op host o s) as [[s1|]| |] eqn:E; rewrite ?bind_Ret; try done.
    intros H. rewrite app_assoc. apply IH; [|done]. by eapply outgoing_op.
Qed.

Lemma accepted_wf host ops s : Forall on_connection ops -> Forall wf_packet (accepted host ops s).
Proof.
  intros Ho. revert s. induction Ho as [|o ops Ho _ IH]; intros s; cbn [accepted]; [constructor|].
  apply list.Forall_app. split.
  - destruct o as [| |c d| | | | |]; try apply Forall_nil_2.
    destruct (connected_ s); [by apply Forall_singleton|apply Forall_nil_2].
  - by destruct (run_client_op host o s) as [[s1|]| |].
Qed.

(** ** The server's side *)

(** A prefix of the bytes of packets is whole packets and part of the next one. *)
Lemma partial_prefix ps x r :
  Forall wf_packet ps -> x ++ r = stream ps ->
  exists ps1 ps2 y, ps = ps1 ++ ps2 /\ x = stream ps1 ++ y /\ incomplete y /\ partial y /\
    y ++ r = stream ps2.
Proof.
  intros Hps E. rewrite <-(app_nil_r (stream ps)) in E.
  assert (incomplete []) as Hn by (split; [by vm_compute|left; by vm_compute]).
  destruct (stream_prefix ps [] x r Hps Hn E) as (ps1 & ps2 & y & -> & -> & Hy & E').
  rewrite app_nil_r in E'. apply list.Forall_app in Hps as [_ Hps2].
  exists ps1, ps2, y. split_and!; try done.
  destruct Hy as [_ [H4|[H0|Hl]]]; [by left| |by right].
  destruct (Z.ltb_spec (zlen y) 4); [by left|]. exfalso.
  assert (announced (y ++ r) = 0) as Ha by by rewrite announced_app by done.
  rewrite E' in Ha. destruct ps2 as [|p ps2].
  - apply (f_equal zlen) in E'. rewrite zlen_app, stream_nil, zlen_nil in E'. pose proof (zlen_nonneg r). lia.
  - apply Forall_cons in Hps2 as [Hp _]. rewrite stream_cons, announced_wire in Ha by done.
    pose proof (zlen_nonneg (data p)). lia.
Qed.

(** Nothing is left of a stream of which nothing more is due. *)
Lemma nothing_left y lost : incomplete y -> Forall wf_packet lost -> y = stream lost -> lost = [].
Proof.
  intros [_ Hy] Hwf ->. destruct Hwf as [|p lost Hp _]; [done|]. exfalso.
  rewrite stream_cons, zlen_app, announced_wire, zlen_wire in Hy by done.
  pose proof (zlen_nonneg (data p)). pose proof (zlen_nonneg (stream lost)). lia.
Qed.

(** C4: From [TcpClient::send] to the handlers of the server, for a connection that has
    just been made: whatever calls of [send] and turns of the client's threads there
    were, however [send] and [recv] cut the bytes and however many of them have arrived,
    the reader of the server has delivered the first packets [send] returned true for, in
    that order and unchanged, and routing them calls the handlers last set for their
    commands with their data.  Nothing is missing once the client has sent its queue
    over a standing connection and everything has arrived. *)
Theorem client_to_handler {F} hostc hosts (ops : list client_op) (s s' : Client)
    (chunks : list (Z * list byte)) tick sock sid (rops : list (@router_op F)) :
  Forall on_connection ops -> connected_ s = true -> TcpClient.sent_bytes s = [] ->
  TcpClient.write_queue_ s = [] -> run_client hostc ops s = Ret (Alive s') ->
  concat (snd <$> chunks) `prefix_of` TcpClient.sent_bytes s' ->
  exists c ps lost, accepted hostc ops s = ps ++ lost /\
    read_loop hosts (data_events chunks) (new_conn tick sock sid) = Ret (Reading c) /\
    TcpConnection.messages c = ps /\
    (Forall (fun p => registered rops (cmd p) <> Some None) ps ->
     route_all sid (TcpConnection.messages c) (run_router rops) = Ret (omap (due rops sid) ps)) /\
    (connected_ s' = true -> TcpClient.write_queue_ s' = [] ->
     concat (snd <$> chunks) = TcpClient.sent_bytes s' -> lost = []).
Proof.
  intros Ho Hc Hs Hq Hrun [more Hpre].
  assert (outgoing [] s) as Hout by (exists []; rewrite Hs, Hq; done).
  pose proof (outgoing_run hostc ops s s' [] Ho Hout Hrun) as (rest & E & Hr).
  pose proof (accepted_wf hostc ops s Ho) as Hwf. cbn [app] in E.
  destruct (partial_prefix (accepted hostc ops s) (concat (snd <$> chunks)) (more ++ rest))
    as (ps & lost & y & Ea & Ex & Hy & _ & Ey); [done|by rewrite E, Hpre, app_assoc|].
  rewrite Ea in Hwf. apply list.Forall_app in Hwf as [Hps Hlost].
  destruct (read_loop_stream hosts chunks ps y (new_conn tick sock sid)) as [t' Ht];
    [done|split; [by vm_compute|left; by vm_compute]|done..|].
  eexists _, ps, lost. split_and!; [done|exact Ht|done|by apply route_all_due|].
  - intros Hconn Hq' Eall. rewrite Hr, Hq' in E by done. cbn [concat] in E.
    rewrite app_nil_r, <-Eall, Ex in E. rewrite Ea, stream_app in E. apply app_inv_head in E.
    by eapply nothing_left.
Qed.

(** ** The way back *)

(** What happens to the outgoing side of a connection of the server: a reply is queued
    by [send_packet], or the writer makes a turn while it has not returned. *)
Inductive writer_op :=
| Reply (c : Z) (d : list byte)
| Turn (closing : bool) (rs : list send_result).

Definition writer_step (host : bool) (x : option bool * Conn) (o : writer_op)
    : option bool * Conn :=
  match o, x with
  | Reply c d, (r, s) => (r, snd (send_packet host c d s))
  | Turn closing rs, (Some true, s) => TcpConnection.write_turn closing rs s
  | Turn _ _, _ => x
  end.

Definition run_writer (host : bool) (ops : list writer_op) (s : Conn) : option bool * Conn :=
  foldl (writer_step host) (Some true, s) ops.

Definition replies (ops : list writer_op) : list Packet :=
  omap (fun o => match o with Reply c d => Some (mkPacket c d) | _ => None end) ops.

Definition replying (ps : list Packet) (x : option bool * Conn) : Prop :=
  exists rest, stream ps = TcpConnection.sent_bytes x.2 ++ rest /\
    (x.1 = Some true -> rest = concat (TcpConnection.write_queue_ x.2)).

Lemma replying_step host ps o x :
  Forall wf_packet (replies [o]) -> replying ps x ->
  replying (ps ++ replies [o]) (writer_step host x o).
Proof.
  destruct x as [r s]. intros Hwf (rest & E & Hr). cbn [fst snd] in E, Hr.
  destruct o as [c d|closing rs]; cbn [replies omap list_omap writer_step].
  - apply Forall_inv in Hwf. exists (rest ++ wire (mkPacket c d)). cbn [fst snd].
    unfold send_packet. cbn [fst snd set_write TcpConnection.sent_bytes TcpConnection.write_queue_].
    rewrite stream_app, E, <-app_assoc.
    split; [by rewrite stream_cons, app_nil_r|]. intros ->.
    rewrite Hr, concat_app by done. cbn [concat]. by rewrite app_nil_r, encode_wire.
  - rewrite app_nil_r. destruct r as [[]|]; try by exists rest.
    pose proof (write_turn_spec closing rs s) as Hw.
    destruct (TcpConnection.write_turn closing rs s) as [r' s']. cbn [fst snd].
    destruct Hw as [(out & lost & E1 & E2 & Hl) _].
    exists (lost ++ concat (TcpConnection.write_queue_ s')). cbn [fst snd].
    rewrite E, Hr, E1, E2, <-app_assoc by done. split; [done|]. intros H. by rewrite Hl.
Qed.

Lemma run_writer_replying host ops s :
  Forall wf_packet (replies ops) -> TcpConnection.sent_bytes s = [] ->
  TcpConnection.write_queue_ s = [] -> replying (replies ops) (run_writer host ops s).
Proof.
  intros Hwf Hs Hq. unfold run_writer.
  assert (replying [] (Some true, s)) as H0 by (exists []; cbn; rewrite Hs, Hq; done).
  change (replies ops) with ([] ++ replies ops).
  revert H0. generalize (@nil Packet) as ps. generalize (Some true, s) as x. clear Hs Hq.
  induction ops as [|o ops IH]; intros x ps H0; cbn [foldl]; [by rewrite app_nil_r|].
  assert (replies (o :: ops) = replies [o] ++ replies ops) as E
    by by destruct o.
  rewrite E in Hwf |- *. apply list.Forall_app in Hwf as [H1 H2].
  rewrite app_assoc. apply IH; [done|]. by apply replying_step.
Qed.

(** Successive turns of the client's reader on the chunks [recv] returns. *)
Lemma client_reads host chunks qs r s :
  connected_ s = true -> read_thread_ s = Running ->
  incomplete (TcpClient.read_buf_ s) -> Forall wf_packet qs ->
  TcpClient.read_buf_ s ++ concat chunks ++ r = stream qs ->
  exists ps lost y, qs = ps ++ lost /\ incomplete y /\ y ++ r = stream lost /\
    run_client host ((fun bs => ReadTurn (Some bs)) <$> chunks) s =
      Ret (Alive (set_input y (TcpClient.messages s ++ (data <$> ps)) s)).
Proof.
  revert s qs. induction chunks as [|bs chunks IH]; intros s qs Hc Hr Hb Hqs E.
  - exists [], qs, (TcpClient.read_buf_ s). split_and!; try done.
    rewrite app_nil_r. by destruct s.
  - cbn [concat] in E. rewrite <-app_assoc, (app_assoc _ bs) in E.
    destruct (partial_prefix qs _ _ Hqs E) as (ps1 & qs2 & y1 & -> & Ex & Hy & Hp & E').
    apply list.Forall_app in Hqs as [Hps1 Hqs2].
    cbn [fmap list_fmap run_client run_client_op]. rewrite decide_True by done.
    unfold read_turn. rewrite Hc. cbv zeta. rewrite Ex.
    rewrite take_packets_stream by (try done; rewrite length_app; pose proof (length_stream ps1); lia).
    match goal with |- context [take_packets ?k y1 _] => destruct k as [|fuel] eqn:Ek end.
    { rewrite length_app in Ek. pose proof (length_stream ps1). lia. }
    rewrite take_packets_partial by done. rewrite !bind_Ret. cbn [fst snd].
    destruct (IH (set_input y1 (TcpClient.messages s ++ (data <$> ps1)) s) qs2)
      as (ps2 & lost & y & -> & Hy' & Ey & Hrun); try done.
    exists (ps1 ++ ps2), lost, y. split_and!; try done; [by rewrite app_assoc|].
    etransitivity; [exact Hrun|]. cbn. by rewrite fmap_app, app_assoc.
Qed.

(** From [TcpConnection::send_packet] back to the client: whatever replies were queued
    on a new connection and whatever turns its writer made, however the bytes are cut and
    however many have arrived, the client has delivered the data of the first replies,
    in order and unchanged, and nothing is missing once the writer, still running, has
    emptied the queue and everything has arrived.  Replies queued after the writer has
    returned never get there. *)
Theorem server_to_client hostc hosts (ops : list writer_op) (c : Conn) (chunks : list (list byte))
    (s : Client) :
  Forall wf_packet (replies ops) -> TcpConnection.sent_bytes c = [] ->
  TcpConnection.write_queue_ c = [] -> connected_ s = true -> read_thread_ s = Running ->
  TcpClient.read_buf_ s = [] ->
  let '(r, c') := run_writer hosts ops c in
  concat chunks `prefix_of` TcpConnection.sent_bytes c' ->
  exists ps lost y, replies ops = ps ++ lost /\
    run_client hostc ((fun bs => ReadTurn (Some bs)) <$> chunks) s =
      Ret (Alive (set_input y (TcpClient.messages s ++ (data <$> ps)) s)) /\
    (r = Some true -> TcpConnection.write_queue_ c' = [] ->
     concat chunks = TcpConnection.sent_bytes c' -> lost = [] /\ y = []).
Proof.
  intros Hwf Hs Hq Hc Hr Hb.
  pose proof (run_writer_replying hosts ops c Hwf Hs Hq) as Hrep.
  destruct (run_writer hosts ops c) as [r c']. cbn [fst snd] in Hrep.
  destruct Hrep as (rest & E & Hrest). cbn [fst snd] in E, Hrest. intros [more Hmore].
  assert (incomplete []) as Hn by (split; [by vm_compute|left; by vm_compute]).
  destruct (client_reads hostc chunks (replies ops) (more ++ rest) s)
    as (ps & lost & y & Eq & Hy & Ey & Hrun); try done.
  { by rewrite Hb. }
  { by rewrite Hb, E, Hmore, <-app_assoc. }
  exists ps, lost, y. split_and!; [done..|]. intros Hr' Hq' Eall.
  rewrite Eq in Hwf. apply list.Forall_app in Hwf as [_ Hlost].
  assert (rest = []) as -> by by rewrite Hrest, Hq'.
  assert (more = []) as ->.
  { rewrite <-Eall in Hmore. apply (app_inv_head (concat chunks)). by rewrite app_nil_r, <-Hmore. }
  rewrite app_nil_r in Ey. cbn in Ey. rewrite ?app_nil_r in Ey.
  assert (lost = []) as -> by by eapply nothing_left. by split.
Qed.

(** ** Instances *)

(** A client that has just connected. *)
Definition connected_client : Client :=
  match connect 5 true TcpClient0 with Alive s => s | Terminated => TcpClient0 end.

Definition sample_ops : list client_op := [Send CMD_DATA [x68; x69]; WriteTurn Nothing [3]].

Lemma client_to_handler_witness :
  exists s' c, run_client true sample_ops connected_client = Ret (Alive s') /\
    read_loop false (data_events [(5, take 5 (wire hello)); (6, drop 5 (wire hello))])
      (new_conn 0 9 1) = Ret (Reading c) /\
    route_all 1 (TcpConnection.messages c) (run_router [Reg CMD_DATA (Some 7%nat)]) =
      Ret [(7%nat, 1, [x68; x69])].
Proof.
  destruct (client_to_handler true false sample_ops connected_client
    (set_output [] (wire hello) connected_client)
    [(5, take 5 (wire hello)); (6, drop 5 (wire hello))] 0 9 1 [Reg CMD_DATA (Some 7%nat)])
    as (c & ps & lost & Ha & Hread & Hm & Hroute & Hlost).
  - repeat constructor; by_compute.
  - reflexivity.
  - reflexivity.
  - reflexivity.
  - vm_compute. reflexivity.
  - exists []. vm_compute. reflexivity.
  - assert (lost = []) as -> by (apply Hlost; vm_compute; reflexivity).
    rewrite app_nil_r in Ha. rewrite <-Ha in Hm, Hroute.
    eexists _, c. split; [vm_compute; reflexivity|]. split; [exact Hread|].
    etransitivity; [apply Hroute; by repeat constructor|]. reflexivity.
Defined.

Lemma server_to_client_witness :
  exists ps lost y,
    [hello] = ps ++ lost /\
    run_client true [ReadTurn (Some (take 7 (wire hello)))] connected_client =
      Ret (Alive (set_input y (TcpClient.messages connected_client ++ (data <$> ps)) connected_client)).
Proof.
  destruct (server_to_client true true [Reply CMD_DATA [x68; x69]; Turn false [Took 3; Took 100]]
    (new_conn 0 9 1) [take 7 (wire hello)] connected_client) as (ps & lost & y & E & Hrun & _).
  - repeat constructor; by_compute.
  - reflexivity.
  - reflexivity.
  - reflexivity.
  - reflexivity.
  - reflexivity.
  - eexists. vm_compute. reflexivity.
  - exists ps, lost, y. split; [exact E|exact Hrun].
Defined.
