(* ===== verification/Handlers.v ===== *)
(** * The server with its handlers (tcp_connection.cpp, tcp_server.cpp, test/tcp_test.cpp)

    [TcpServer] takes what a reader does between two calls of [recv] as one step, which is
    right for handlers that leave the server alone.  Here the message handler is a parameter
    that calls the server it runs in, and the readers are cut at every [recv], every packet
    and every call of the handler, so that all threads interleave as [conn_mutex_] allows;
    the writers run as well. *)

From S2P Require Import Prelude ByteOrder Packet TcpClient TcpConnection TcpServer EndToEnd.

Open Scope Z_scope.

(** ** The threads *)

(** The calls a handler makes. *)
Inductive call :=
| SendTo (sid c : Z) (d : list byte)
| Broadcast (c : Z) (d : list byte)
| CloseSession (sid : Z).

Definition run_call (host : bool) (k : call) (s : TcpServer) : TcpServer :=
  match k with
  | SendTo sid c d => snd (send_to host sid c d s)
  | Broadcast c d => snd (broadcast host c d s)
  | CloseSession sid => close_session sid s
  end.

(** Where the reader of a session is: before [recv], in the loop over [process_read], or in
    the handler, which has calls to make. *)
Inductive phase := Receiving | Parsing | Handling (calls : list call).

#[global] Instance call_eq_dec : EqDecision call.
Proof. solve_decision. Defined.
#[global] Instance phase_eq_dec : EqDecision phase.
Proof. solve_decision. Defined.

(** The two threads of a session, with the bytes [recv] has returned.  A writer that is
    blocked for good counts as one that has left. *)
Record Thread := { reader_at : phase; arrived : list byte; writer_left : bool }.
Definition Thread0 : Thread := {| reader_at := Receiving; arrived := []; writer_left := false |}.

Definition set_reader (p : phase) (t : Thread) : Thread :=
  {| reader_at := p; arrived := arrived t; writer_left := writer_left t |}.

Record Threads := { srv : TcpServer; threads : gmap Z Thread }.

Definition thread (sid : Z) (st : Threads) : Thread := default Thread0 (threads st !! sid).

Definition set_srv (s : TcpServer) (st : Threads) : Threads :=
  {| srv := s; threads := threads st |}.
Definition set_session (sid : Z) (c : Conn) (t : Thread) (st : Threads) : Threads :=
  {| srv := set_objs (connections_ (srv st)) (<[sid := c]> (objs (srv st))) (srv st);
     threads := <[sid := t]> (threads st) |}.

Inductive recv_result := Bytes (tick : Z) (bs : list byte) | Nothing (errno : Z).

Section threads.
Context (host : bool) (handler : Z -> Packet -> list call).

(** The test of [closed_], [recv], and what follows it up to [process_read]. *)
Definition recv_turn (sid : Z) (r : recv_result) (st : Threads) : Threads :=
  if decide (sid ∈ readers (srv st) /\ reader_at (thread sid st) = Receiving) then
    match objs (srv st) !! sid with
    | Some c =>
        let gone := set_srv (reader_left sid (call_on_close (close c)) (srv st)) st in
        if closed_ c then gone
        else
          match r with
          | Bytes tick bs =>
              set_session sid (set_read (read_buf_ c ++ bs) tick (messages c) c)
                {| reader_at := Parsing; arrived := arrived (thread sid st) ++ bs;
                   writer_left := writer_left (thread sid st) |} st
          | Nothing errno => if errno =? EINTR then st else gone
          end
    | None => st
    end
  else st.

(** A call of [process_read] up to the call of [on_message_], whose argument it records;
    [closed_] is not looked at before the buffer is used up. *)
Definition parse_turn (sid : Z) (st : Threads) : outcome Threads :=
  match reader_at (thread sid st), objs (srv st) !! sid with
  | Parsing, Some c =>
      r ← process_read host c;
      let '(more, c') := r in
      Ret (if more : bool then
             let calls := match last (messages c') with Some p => handler sid p | None => [] end in
             set_session sid c' (set_reader (Handling calls) (thread sid st)) st
           else set_session sid c' (set_reader Receiving (thread sid st)) st)
  | _, _ => Ret st
  end.

(** The next call of the handler, or its return. *)
Definition call_turn (sid : Z) (st : Threads) : Threads :=
  match reader_at (thread sid st) with
  | Handling (k :: ks) =>
      {| srv := run_call host k (srv st);
         threads := <[sid := set_reader (Handling ks) (thread sid st)]> (threads st) |}
  | Handling [] =>
      {| srv := srv st; threads := <[sid := set_reader Parsing (thread sid st)]> (threads st) |}
  | _ => st
  end.

(** A turn of the writer. *)
Definition writer_turn (sid : Z) (closing : bool) (rs : list send_result) (st : Threads) : Threads :=
  match objs (srv st) !! sid with
  | Some c =>
      if writer_left (thread sid st) then st
      else
        let '(r, c') := write_turn closing rs c in
        set_session sid c'
          {| reader_at := reader_at (thread sid st); arrived := arrived (thread sid st);
             writer_left := match r with Some true => false | _ => true end |} st
  | None => st
  end.

(** The steps of all threads.  What the other threads do to the server are its operations;
    the readers have the steps above. *)
Inductive thread_op :=
| RecvTurn (sid : Z) (r : recv_result)
| ParseTurn (sid : Z)
| CallTurn (sid : Z)
| WriterTurn (sid : Z) (closing : bool) (rs : list send_result)
| ServerOp (o : server_op).

Definition thread_step (o : thread_op) (st : Threads) : outcome Threads :=
  match o with
  | RecvTurn sid r => Ret (recv_turn sid r st)
  | ParseTurn sid => parse_turn sid st
  | CallTurn sid => Ret (call_turn sid st)
  | WriterTurn sid closing rs => Ret (writer_turn sid closing rs st)
  | ServerOp (SrvReader _ _) => Ret st
  | ServerOp o => s ← run_server_op host o (srv st); Ret (set_srv s st)
  end.

Fixpoint run_threads (ops : list thread_op) (st : Threads) : outcome Threads :=
  match ops with
  | [] => Ret st
  | o :: ops' => st' ← thread_step o st; run_threads ops' st'
  end.
End threads.

(** ** The handler of test/tcp_test.cpp *)

Definition echo_prefix : list byte := String.list_byte_of_string "echo: ".
Definition echo (p : Packet) : list Packet := [mkPacket (cmd p) (echo_prefix ++ data p)].

(** A handler that answers a packet to its own session. *)
Definition answer_calls (sid : Z) (qs : list Packet) : list call :=
  (fun q => SendTo sid (cmd q) (data q)) <$> qs.
Definition replying_handler (reply : Packet -> list Packet) (sid : Z) (p : Packet) : list call :=
  answer_calls sid (reply p).

(** The server of the test once [start] has succeeded with a socket. *)
Definition tcp_test_main (sock : Z) : Threads :=
  {| srv := snd (start sock true (new_server 9999 30000)); threads := ∅ |}.

(** What the other threads of such a program do. *)
Definition background (o : thread_op) : Prop :=
  match o with
  | ServerOp (SrvBroadcast _ _) | ServerOp (SrvSendTo _ _ _) => False
  | _ => True
  end.

(** ** The invariant of the server, whatever the handler does *)

Lemma write_turn_ok closing rs sid b c :
  conn_ok sid b c -> conn_ok sid b (snd (write_turn closing rs c)).
Proof.
  intros Hok. unfold write_turn, send_raw. destruct (closed_ c); [done|].
  assert (conn_ok sid b (if closing then close c else c)) as Hok0
    by (destruct closing; [by apply close_conn_ok|done]).
  revert Hok0. generalize (if closing then close c else c) as c0. intros c0 Hok0.
  destruct (write_queue_ c0) as [|[|x msg] q]; [done..|].
  repeat (case_match; try done).
Qed.

Lemma run_call_wf host k s : wf s -> wf (run_call host k s).
Proof.
  intros Hwf. destruct k as [sid c d|c d|sid].
  - by apply (run_server_op_wf host (SrvSendTo sid c d) s).
  - by apply (run_server_op_wf host (SrvBroadcast c d) s).
  - by apply (run_server_op_wf host (SrvClose sid) s).
Qed.

Lemma set_session_wf sid c c' t st :
  wf (srv st) -> objs (srv st) !! sid = Some c -> (forall b, conn_ok sid b c -> conn_ok sid b c') ->
  wf (srv (set_session sid c' t st)).
Proof. intros Hwf Hc Hok. by eapply insert_wf. Qed.

Lemma leave_wf sid c s :
  wf s -> sid ∈ readers s -> objs s !! sid = Some c -> wf (reader_left sid (call_on_close (close c)) s).
Proof.
  intros Hwf Hr Hc. eapply reader_left_wf; [done..|]. apply leave_ok.
  destruct (wf_ids _ Hwf sid c Hc) as [_ Hok]. by rewrite bool_decide_true in Hok.
Qed.

Lemma thread_step_wf host handler o st st' :
  wf (srv st) -> thread_step host handler o st = Ret st' -> wf (srv st').
Proof.
  intros Hwf. destruct o as [sid r|sid|sid|sid closing rs|o]; cbn [thread_step].
  - intros [= <-]. unfold recv_turn. case_decide as Hin; [|done]. destruct Hin as [Hin _].
    destruct (objs (srv st) !! sid) as [c|] eqn:Hc; [|done].
    pose proof (leave_wf sid c (srv st) Hwf Hin Hc).
    destruct (closed_ c); [done|]. destruct r as [tick bs|e]; [by eapply set_session_wf|].
    by case_match.
  - unfold parse_turn. destruct (reader_at _); [by intros [= <-]| |by intros [= <-]].
    destruct (objs (srv st) !! sid) as [c|] eqn:Hc; [|by intros [= <-]].
    destruct (process_read host c) as [[[] c']| |] eqn:E; [..|done|done]; rewrite bind_Ret;
      intros [= <-]; (eapply set_session_wf; [done..|]); intros b Hb; by eapply process_read_ok.
  - intros [= <-]. unfold call_turn. repeat case_match; try done. by apply run_call_wf.
  - intros [= <-]. unfold writer_turn. destruct (objs (srv st) !! sid) as [c|] eqn:Hc; [|done].
    case_match; [done|]. destruct (write_turn closing rs c) as [r c'] eqn:E.
    eapply set_session_wf; [done..|]. intros b Hb.
    pose proof (write_turn_ok closing rs sid b c Hb) as H'. by rewrite E in H'.
  - destruct o; try (by intros [= <-]);
      (destruct (run_server_op host _ (srv st)) as [s| |] eqn:E; [|done..]); rewrite bind_Ret;
      intros [= <-]; by eapply run_server_op_wf.
Qed.

Lemma run_threads_wf host handler ops st st' :
  wf (srv st) -> run_threads host handler ops st = Ret st' -> wf (srv st').
Proof.
  revert st. induction ops as [|o ops IH]; intros st Hwf; cbn [run_threads]; [by intros [= <-]|].
  destruct (thread_step host handler o st) as [st1| |] eqn:E; [|done..]. rewrite bind_Ret.
  apply IH. by eapply thread_step_wf.
Qed.

(** ** What a session has read *)

Lemma process_read_frame host c more c' :
  process_read host c = Ret (more, c') ->
  sent_bytes c' = sent_bytes c /\ write_queue_ c' = write_queue_ c /\
  if more then exists p, messages c' = messages c ++ [p] else c' = c.
Proof.
  unfold process_read. destruct (decode_from _ _ _ _) as [[[[] p] n]| |]; [..|done|done];
    rewrite bind_Ret; intros [= <- <-]; [|done]. split_and!; [done..|]. by exists p.
Qed.

(** On part of the bytes of packets, [process_read] takes the first packet when it is
    whole. *)
Lemma process_read_stream host c more c' ps r :
  Forall wf_packet ps -> read_buf_ c ++ r = stream ps -> process_read host c = Ret (more, c') ->
  if more then exists p ps', ps = p :: ps' /\ messages c' = messages c ++ [p] /\
                 read_buf_ c' ++ r = stream ps'
  else incomplete (read_buf_ c).
Proof.
  intros Hps E Hr. destruct (partial_prefix ps _ _ Hps E) as ([|p ps1] & ps2 & y & -> & Eb & Hy & _ & Ey).
  - rewrite stream_nil in Eb. cbn in Eb. rewrite process_read_incomplete in Hr by by rewrite Eb.
    injection Hr as <- _. by rewrite Eb.
  - apply Forall_inv in Hps as Hp. rewrite stream_cons, <-app_assoc in Eb.
    rewrite (process_read_packet host c p _ Hp Eb) in Hr. injection Hr as <- <-.
    exists p, (ps1 ++ ps2). split_and!; [done..|]. cbn. by rewrite <-app_assoc, Ey, stream_app.
Qed.

(** What has arrived, if it can be the start of the bytes of packets, is the messages
    delivered and the buffer. *)
Definition reads (t : Thread) (c : Conn) : Prop :=
  forall ps r, Forall wf_packet ps -> arrived t ++ r = stream ps ->
    exists ps', ps = messages c ++ ps' /\ read_buf_ c ++ r = stream ps' /\
      (reader_at t = Receiving -> incomplete (read_buf_ c)).

Lemma reads_view t t' c c' :
  arrived t' = arrived t -> messages c' = messages c -> read_buf_ c' = read_buf_ c ->
  (reader_at t' = Receiving -> reader_at t = Receiving) -> reads t c -> reads t' c'.
Proof.
  intros Ha Hm Hb Ht Hr ps r Hps. rewrite Ha, Hm, Hb. intros E.
  destruct (Hr ps r Hps E) as (ps' & ? & ? & ?). exists ps'. auto.
Qed.

Lemma reads_bytes t c tick bs :
  reads t c ->
  reads {| reader_at := Parsing; arrived := arrived t ++ bs; writer_left := writer_left t |}
    (set_read (read_buf_ c ++ bs) tick (messages c) c).
Proof.
  intros Hr ps r Hps. cbn. rewrite <-!app_assoc. intros E.
  destruct (Hr ps (bs ++ r) Hps E) as (ps' & ? & ? & _). by exists ps'.
Qed.

Lemma reads_parse host t c more c' p :
  (p = Receiving -> more = false) -> process_read host c = Ret (more, c') ->
  reads t c -> reads (set_reader p t) c'.
Proof.
  intros Hp Hc Hr ps r Hps E. destruct (Hr ps r Hps E) as (ps' & -> & Eb & _).
  apply list.Forall_app in Hps as [_ Hps'].
  pose proof (process_read_stream host c more c' ps' r Hps' Eb Hc) as Hs.
  pose proof (process_read_frame host c more c' Hc) as (_ & _ & Hf). destruct more.
  - destruct Hs as (q & ps2 & -> & Em & Eb'). exists ps2. rewrite Em, <-app_assoc.
    split_and!; [done..|]. intros H. by apply Hp in H.
  - subst c'. by exists ps'.
Qed.

(** ** What a session has answered *)

Section replying.
Context (host : bool) (reply : Packet -> list Packet).

Definition due_answers (c : Conn) : list Packet := messages c ≫= reply.

(** The answers queued so far are the first ones due; while the session is in the table,
    the others are the calls its handler is about to make. *)
Definition answers (sid : Z) (listed : Prop) (t : Thread) (c : Conn) : Prop :=
  exists qs l rest, due_answers c = qs ++ l /\
    (qs ≫= encode host) = sent_bytes c ++ rest /\
    (writer_left t = false -> rest = concat (write_queue_ c)) /\
    match reader_at t with
    | Handling ks => exists l', ks = answer_calls sid l' /\ (listed -> l = l')
    | _ => listed -> l = []
    end.

Lemma answers_view sid (listed listed' : Prop) t c c' :
  messages c' = messages c -> sent_bytes c' = sent_bytes c -> write_queue_ c' = write_queue_ c ->
  (listed' -> listed) -> answers sid listed t c -> answers sid listed' t c'.
Proof.
  intros Hm Hs Hq Hl (qs & l & rest & E1 & E2 & E3 & E4). exists qs, l, rest.
  unfold due_answers in *. rewrite Hm, Hs, Hq. split_and!; [done..|].
  destruct (reader_at t) as [| |ks]; [by auto..|].
  destruct E4 as (l' & ? & ?). exists l'. auto.
Qed.

Lemma answers_idle sid listed t t' c :
  reader_at t <> Parsing -> reader_at t' = Parsing -> writer_left t' = writer_left t ->
  (forall k ks, reader_at t <> Handling (k :: ks)) ->
  answers sid listed t c -> answers sid listed t' c.
Proof.
  intros H1 H2 Hw H3 (qs & l & rest & E1 & E2 & E3 & E4). exists qs, l, rest. rewrite Hw, H2.
  split_and!; [done..|]. destruct (reader_at t) as [| |[|k ks]]; [done..| |by destruct (H3 k ks)].
  destruct E4 as ([|q l'] & [=] & E4). done.
Qed.

Lemma answers_parse sid listed t c more c' :
  reader_at t = Parsing -> process_read host c = Ret (more, c') -> answers sid listed t c ->
  answers sid listed
    (set_reader (if more then Handling match last (messages c') with
                                       | Some p => replying_handler reply sid p
                                       | None => []
                                       end else Receiving) t) c'.
Proof.
  intros Ht Hc (qs & l & rest & E1 & E2 & E3 & E4). rewrite Ht in E4.
  apply process_read_frame in Hc as (Hs & Hq & Hm). destruct more.
  - destruct Hm as [p Hm]. exists qs, (l ++ reply p), rest. cbn [set_reader reader_at writer_left].
    rewrite Hs, Hq. unfold due_answers in *. rewrite Hm, bind_app, E1, <-app_assoc. cbn.
    rewrite app_nil_r. split_and!; [done..|]. exists (reply p). rewrite last_snoc.
    split; [done|]. intros Hl. by rewrite E4.
  - subst c'. by exists qs, l, rest.
Qed.

(** The calls of the handler: those of a session that is not in the table do nothing. *)
Lemma answers_call sid listed t c k ks :
  reader_at t = Handling (k :: ks) -> answers sid listed t c ->
  exists q, k = SendTo sid (cmd q) (data q) /\
    (~ listed -> answers sid listed (set_reader (Handling ks) t) c) /\
    (listed -> answers sid listed (set_reader (Handling ks) t)
                 (snd (send_packet host (cmd q) (data q) c))).
Proof.
  intros Ht (qs & l & rest & E1 & E2 & E3 & E4). rewrite Ht in E4.
  destruct E4 as ([|q l'] & [= -> ->] & Hl). exists q. split_and!; [done|..]; intros Hin.
  - exists qs, l, rest. split_and!; [done..|]. cbn. exists l'. split; [done|]. by intros ?%Hin.
  - rewrite Hl in E1 by done. exists (qs ++ [q]), l', (rest ++ encode host q).
    split_and!.
    + by rewrite <-app_assoc.
    + rewrite bind_app, E2. cbn. by rewrite app_nil_r, app_assoc.
    + cbn. intros Hw. rewrite E3, concat_app by done. cbn. rewrite app_nil_r. by destruct q.
    + cbn. by exists l'.
Qed.

Lemma answers_write sid listed t c closing rs r c' w :
  writer_left t = false -> write_turn closing rs c = (r, c') ->
  messages c' = messages c -> (w = false -> r = Some true) -> answers sid listed t c ->
  answers sid listed {| reader_at := reader_at t; arrived := arrived t; writer_left := w |} c'.
Proof.
  intros Ht Hw Hm Hr (qs & l & rest & E1 & E2 & E3 & E4).
  pose proof (write_turn_spec closing rs c) as Hs. rewrite Hw in Hs.
  destruct Hs as [(out & lost & Es & Eq & Hl) _].
  exists qs, l, (lost ++ concat (write_queue_ c')). unfold due_answers in *. rewrite Hm.
  split_and!; [done| | |done].
  - rewrite E2, Es, E3, Eq by done. by rewrite <-app_assoc.
  - cbn. intros H. by rewrite Hl by auto.
Qed.
End replying.

(** ** What the other threads leave alone *)

(** A connection as the reader and the writer see it. *)
Definition same_view (c c' : Conn) : Prop :=
  messages c' = messages c /\ read_buf_ c' = read_buf_ c /\
  sent_bytes c' = sent_bytes c /\ write_queue_ c' = write_queue_ c.

Lemma close_view c : same_view c (close c).
Proof. unfold close. by destruct (closed_ c). Qed.

Lemma write_turn_frame closing rs c :
  messages (snd (write_turn closing rs c)) = messages c /\
  read_buf_ (snd (write_turn closing rs c)) = read_buf_ c.
Proof.
  unfold write_turn, send_raw. destruct (closed_ c); [done|].
  assert (same_view c (if closing then close c else c)) as (<- & <- & _)
    by (destruct closing; [apply close_view|done]).
  repeat (case_match; try done).
Qed.

Definition kept (s s' : TcpServer) : Prop :=
  (forall sid, is_Some (objs s !! sid) -> is_Some (objs s' !! sid)) /\
  forall sid c', objs s' !! sid = Some c' ->
    (exists c, objs s !! sid = Some c /\ same_view c c' /\
       (sid ∈ connections_ s' -> sid ∈ connections_ s)) \/
    (objs s !! sid = None /\ same_view (new_conn 0 0 0) c').

Lemma kept_refl s : kept s s.
Proof. split; [done|]. intros sid c Hc. left. by exists c. Qed.

Lemma kept_map_table f cs s :
  cs ⊆ connections_ s -> (forall c, same_view c (f c)) -> kept s (set_objs cs (map_table f s) s).
Proof.
  intros Hcs Hf. split; simpl.
  - intros sid. rewrite <-!elem_of_dom. by rewrite map_table_dom.
  - intros sid c'. unfold map_table. rewrite map_lookup_imap.
    destruct (objs s !! sid) as [c|]; [|done]. intros [= <-]. left. exists c.
    split_and!; [done|by destruct (decide _)|by apply Hcs].
Qed.

Lemma kept_insert sid c c' cs s :
  objs s !! sid = Some c -> cs ⊆ connections_ s -> same_view c c' ->
  kept s (set_objs cs (<[sid := c']> (objs s)) s).
Proof.
  intros Hc Hcs Hv. split; simpl.
  - intros k. rewrite lookup_insert_is_Some'. by right.
  - intros k o. destruct (decide (sid = k)) as [<-|Hne].
    + rewrite lookup_insert_eq. intros [= <-]. left. exists c. split_and!; [done..|by apply Hcs].
    + rewrite lookup_insert_ne by done. intros Ho. left. exists o. split_and!; [done..|by apply Hcs].
Qed.

Lemma kept_left sid c c' s :
  objs s !! sid = Some c -> same_view c c' -> kept s (reader_left sid c' s).
Proof.
  intros Hc Hv. apply (kept_insert sid c c' (connections_ s ∖ {[sid]}) s Hc); [set_solver|done].
Qed.

Lemma kept_accept tested tick sock s : wf s -> kept s (accept tested tick sock s).
Proof.
  intros Hwf. unfold accept. case_match; [apply kept_refl|]. split; simpl.
  - intros sid. rewrite lookup_insert_is_Some'. by right.
  - intros sid c'. destruct (decide (next_session_id_ s = sid)) as [<-|Hne].
    + rewrite lookup_insert_eq. intros [= <-]. right. split; [|done].
      destruct (objs s !! next_session_id_ s) eqn:E; [|done]. apply (wf_ids _ Hwf) in E. lia.
    + rewrite lookup_insert_ne by done. intros Hc. left. exists c'. split_and!; [done..|set_solver].
Qed.

Lemma kept_background host o s s' :
  wf s -> background (ServerOp o) -> (forall sid evs, o <> SrvReader sid evs) ->
  run_server_op host o s = Ret s' -> kept s s'.
Proof.
  intros Hwf Ho Hr. destruct o as [sock bound|tested tick sock|sid evs|tick| |c d|sid c d|sid];
    [| |by destruct (Hr sid evs)|..]; try done; cbn [run_server_op]; intros [= <-].
  - unfold start. repeat case_match; exact (kept_refl s).
  - by apply kept_accept.
  - apply kept_map_table; [done|]. intros c. case_match; [apply close_view|done].
  - unfold stop. case_match; [|apply kept_refl].
    exact (kept_map_table close ∅ s (empty_subseteq _) close_view).
  - unfold close_session. case_decide; [|apply kept_refl].
    destruct (objs s !! sid) as [c|] eqn:Hc; [|apply kept_refl].
    apply (kept_insert sid c); [done|set_solver|apply close_view].
Qed.

(** ** The invariant of the sessions *)

Section sessions.
Context (host : bool) (reply : Packet -> list Packet).

Definition session_ok (sid : Z) (listed : Prop) (t : Thread) (c : Conn) : Prop :=
  reads t c /\ answers host reply sid listed t c.

Record threads_ok (st : Threads) : Prop := {
  ok_wf : wf (srv st);
  ok_sessions : forall sid c, objs (srv st) !! sid = Some c ->
    session_ok sid (sid ∈ connections_ (srv st)) (thread sid st) c;
  ok_threads : forall sid, is_Some (threads st !! sid) -> is_Some (objs (srv st) !! sid);
}.

Lemma session_ok_view sid (listed listed' : Prop) t c c' :
  same_view c c' -> (listed' -> listed) -> session_ok sid listed t c -> session_ok sid listed' t c'.
Proof.
  intros (Hm & Hb & Hs & Hq) Hl [Hr Ha]. split; [by eapply reads_view|by eapply answers_view].
Qed.

Lemma session_ok_new sid listed : session_ok sid listed Thread0 (new_conn 0 0 0).
Proof.
  split.
  - intros ps r _ E. exists ps. split_and!; [done..|]. intros _.
    split; [by vm_compute|left; by vm_compute].
  - by exists [], [], [].
Qed.

(** A step that is only another thread's. *)
Lemma threads_ok_kept st s' :
  threads_ok st -> kept (srv st) s' -> wf s' -> threads_ok (set_srv s' st).
Proof.
  intros [Hwf Hok Ht] [Hdom Hk] Hwf'. split; [done| |by auto].
  intros sid c' Hc'. destruct (Hk sid c' Hc') as [(c & Hc & Hv & Hl)|[Hn Hv]].
  - eapply session_ok_view; [exact Hv|exact Hl|]. by apply Hok.
  - eapply session_ok_view; [exact Hv|exact id|]. unfold thread. cbn.
    destruct (threads st !! sid) eqn:E; [|apply session_ok_new].
    destruct (Ht sid) as [c Hc]; [by rewrite E|]. congruence.
Qed.

(** A step of a session's own threads. *)
Lemma threads_ok_session sid c c' t cs st :
  threads_ok st -> objs (srv st) !! sid = Some c -> cs = connections_ (srv st) ->
  wf (set_objs cs (<[sid := c']> (objs (srv st))) (srv st)) ->
  session_ok sid (sid ∈ connections_ (srv st)) t c' ->
  threads_ok {| srv := set_objs cs (<[sid := c']> (objs (srv st))) (srv st);
                threads := <[sid := t]> (threads st) |}.
Proof.
  intros [Hwf Hok Ht] Hc -> Hwf' Hs. split; [done|..]; cbn.
  - intros k o. unfold thread. cbn. destruct (decide (sid = k)) as [<-|Hne].
    + rewrite !lookup_insert_eq. by intros [= <-].
    + rewrite !lookup_insert_ne by done. apply Hok.
  - intros k. rewrite !lookup_insert_is_Some'. intros [->|H]; [by left|right; by apply Ht].
Qed.

Lemma threads_ok_thread sid c t st :
  threads_ok st -> objs (srv st) !! sid = Some c ->
  session_ok sid (sid ∈ connections_ (srv st)) t c ->
  threads_ok {| srv := srv st; threads := <[sid := t]> (threads st) |}.
Proof.
  intros [Hwf Hok Ht] Hc Hs. split; [done|..]; cbn.
  - intros k o. unfold thread. cbn. destruct (decide (sid = k)) as [<-|Hne].
    + rewrite lookup_insert_eq, Hc. by intros [= <-].
    + rewrite lookup_insert_ne by done. apply Hok.
  - intros k. rewrite lookup_insert_is_Some'. intros [->|H]; [by rewrite Hc|by apply Ht].
Qed.

Lemma recv_turn_ok sid r st :
  threads_ok st -> wf (srv (recv_turn sid r st)) -> threads_ok (recv_turn sid r st).
Proof.
  intros Hok. unfold recv_turn. case_decide as Hd; [|done]. destruct Hd as [Hin Ht].
  destruct (objs (srv st) !! sid) as [c|] eqn:Hc; [|done].
  pose proof (ok_sessions _ Hok sid c Hc) as [Hr Ha].
  assert (kept (srv st) (reader_left sid (call_on_close (close c)) (srv st))) as Hk
    by (apply (kept_left sid c); [done|apply (close_view c)]).
  destruct (closed_ c); [by apply threads_ok_kept|].
  destruct r as [tick bs|e]; [|case_match; [done|by apply threads_ok_kept]].
  intros Hwf. apply (threads_ok_session sid c); [done..|]. split; [by apply reads_bytes|].
  apply (answers_idle host reply sid _ (thread sid st)); [by rewrite Ht|done|done|by rewrite Ht|].
  by eapply answers_view.
Qed.

Lemma parse_turn_ok sid st st' :
  threads_ok st -> parse_turn host (replying_handler reply) sid st = Ret st' -> wf (srv st') ->
  threads_ok st'.
Proof.
  intros Hok. unfold parse_turn. destruct (reader_at (thread sid st)) eqn:Ht;
    [by intros [= <-]| |by intros [= <-]].
  destruct (objs (srv st) !! sid) as [c|] eqn:Hc; [|by intros [= <-]].
  pose proof (ok_sessions _ Hok sid c Hc) as [Hr Ha].
  destruct (process_read host c) as [[more c']| |] eqn:E; [|done..]. rewrite bind_Ret.
  pose proof (answers_parse host reply sid _ _ c more c' Ht E Ha) as Ha'.
  destruct more; intros [= <-] Hwf; (apply (threads_ok_session sid c); [done..|]);
    (split; [by eapply reads_parse; [|exact E|]|done]).
Qed.

Lemma call_turn_ok sid st :
  threads_ok st -> wf (srv (call_turn host sid st)) -> threads_ok (call_turn host sid st).
Proof.
  intros Hok. unfold call_turn. destruct (reader_at (thread sid st)) as [| |ks] eqn:Ht; [done..|].
  assert (is_Some (threads st !! sid)) as [c Hc]%(ok_threads _ Hok).
  { unfold thread in Ht. by destruct (threads st !! sid). }
  pose proof (ok_sessions _ Hok sid c Hc) as [Hr Ha].
  assert (forall p t, reader_at t = Receiving -> p <> Receiving ->
    reads (set_reader p (thread sid st)) c) as Hr'
    by (intros p t _ Hp; eapply reads_view; [..|exact Hr]; done).
  destruct ks as [|k ks].
  - intros Hwf. apply threads_ok_thread with c; [done..|]. split; [by apply (Hr' _ Thread0)|].
    apply (answers_idle host reply sid _ (thread sid st)); by rewrite ?Ht.
  - destruct (answers_call host reply sid _ _ c k ks Ht Ha) as (q & -> & Hno & Hyes).
    cbn [run_call]. unfold send_to. case_decide as Hin; rewrite ?Hc; intros Hwf.
    + apply (threads_ok_session sid c); [done..|]. split; [by apply (Hr' _ Thread0)|by apply Hyes].
    + apply threads_ok_thread with c; [done..|]. split; [by apply (Hr' _ Thread0)|by apply Hno].
Qed.

Lemma writer_turn_ok sid closing rs st :
  threads_ok st -> wf (srv (writer_turn sid closing rs st)) ->
  threads_ok (writer_turn sid closing rs st).
Proof.
  intros Hok. unfold writer_turn. destruct (objs (srv st) !! sid) as [c|] eqn:Hc; [|done].
  destruct (writer_left (thread sid st)) eqn:Ht; [done|].
  pose proof (ok_sessions _ Hok sid c Hc) as [Hr Ha].
  pose proof (write_turn_frame closing rs c) as Hf.
  destruct (write_turn closing rs c) as [r c'] eqn:E. destruct Hf as [Hm Hb]. intros Hwf.
  apply (threads_ok_session sid c); [done..|]. split; [by eapply reads_view|].
  eapply answers_write; [done..| |done]. by destruct r as [[]|].
Qed.

Lemma thread_step_ok o st st' :
  threads_ok st -> background o -> thread_step host (replying_handler reply) o st = Ret st' ->
  threads_ok st'.
Proof.
  intros Hok Ho H. pose proof (thread_step_wf _ _ _ _ _ (ok_wf _ Hok) H) as Hwf. revert H.
  destruct o as [sid r|sid|sid|sid closing rs|o]; cbn [thread_step].
  - intros [= <-]. by apply recv_turn_ok.
  - intros H. by eapply parse_turn_ok.
  - intros [= <-]. by apply call_turn_ok.
  - intros [= <-]. by apply writer_turn_ok.
  - destruct o; try (by intros [= <-]);
      (destruct (run_server_op host _ (srv st)) as [s| |] eqn:E; [|done..]); rewrite bind_Ret;
      intros [= <-]; (apply threads_ok_kept; [done| |done]);
      (eapply kept_background; [apply Hok|exact Ho|done|exact E]).
Qed.

Lemma run_threads_ok ops st st' :
  threads_ok st -> Forall background ops ->
  run_threads host (replying_handler reply) ops st = Ret st' -> threads_ok st'.
Proof.
  intros Hok Ho. revert st Hok.
  induction Ho as [|o ops Ho _ IH]; intros st Hok; cbn [run_threads]; [by intros [= <-]|].
  destruct (thread_step host _ o st) as [st1| |] eqn:E; [|done..]. rewrite bind_Ret.
  apply IH. by eapply thread_step_ok.
Qed.

(** A server that has not accepted anything. *)
Lemma threads_ok_start sock b port timeout :
  threads_ok {| srv := snd (start sock b (new_server port timeout)); threads := ∅ |}.
Proof.
  assert (wf (snd (start sock b (new_server port timeout))) /\
    objs (snd (start sock b (new_server port timeout))) = ∅) as [Hwf E].
  { split; [|unfold start; by repeat case_match].
    by apply (run_server_op_wf true (SrvStart sock b) (new_server port timeout));
      [apply new_server_wf|]. }
  split; [done| |].
  - intros sid c. cbn [srv]. by rewrite E, lookup_empty.
  - intros sid. cbn. rewrite lookup_empty. by intros [].
Qed.
End sessions.

(** ** The answers *)

Lemma nothing_more {A} (x y r : list A) : y = x ++ r -> x = y -> r = [].
Proof. intros E ->. apply (app_inv_head y). by rewrite app_nil_r. Qed.

(** C3: A server whose message handler answers each packet to the session it came from,
    as the one of test/tcp_test.cpp does, with all its threads interleaved in any way and
    any number of sessions, accepted, idle, closed or stopped.  If what has arrived on a
    session is the start of the bytes of some packets, however cut, then the packets
    handed to the handler are the first of them, and a client that has read any part of
    what was sent back on the session, however cut, has delivered the data of the first
    answers due to these packets, in order, each once and with none of another session in
    between.  It has delivered all of them once all bytes have arrived on either side, the
    reader waits, the writer still runs and has emptied the queue, and the session is
    still in the table. *)
Theorem server_answers hostc hosts reply ops sock b port timeout st sid c ps chunks cl :
  run_threads hosts (replying_handler reply) ops
    {| srv := snd (start sock b (new_server port timeout)); threads := ∅ |} = Ret st ->
  Forall background ops -> objs (srv st) !! sid = Some c ->
  Forall wf_packet ps -> Forall wf_packet (ps ≫= reply) ->
  arrived (thread sid st) `prefix_of` stream ps ->
  connected_ cl = true -> read_thread_ cl = Running -> TcpClient.read_buf_ cl = [] ->
  concat chunks `prefix_of` sent_bytes c ->
  exists qs y, messages c `prefix_of` ps /\ qs `prefix_of` (messages c ≫= reply) /\
    run_client hostc ((fun bs => ReadTurn (Some bs)) <$> chunks) cl =
      Ret (Alive (set_input y (TcpClient.messages cl ++ (data <$> qs)) cl)) /\
    (sid ∈ connections_ (srv st) -> arrived (thread sid st) = stream ps ->
     reader_at (thread sid st) = Receiving -> writer_left (thread sid st) = false ->
     write_queue_ c = [] -> concat chunks = sent_bytes c -> messages c = ps /\ qs = ps ≫= reply).
Proof.
  intros Hrun Ho Hc Hps Hrs [r Ha] Hcn Hrd Hb [more Hmore].
  pose proof (run_threads_ok hosts reply ops _ st (threads_ok_start _ _ sock b port timeout) Ho Hrun) as Hok.
  destruct (ok_sessions _ _ _ Hok sid c Hc) as [Hr (q1 & l & rest & E1 & E2 & E3 & E4)].
  destruct (Hr ps r Hps (eq_sym Ha)) as (ps' & Eps & Eb & Hinc). unfold due_answers in E1.
  assert (Forall wf_packet q1) as Hq1.
  { rewrite Eps, bind_app, E1 in Hrs. by apply list.Forall_app in Hrs as [[? _]%list.Forall_app _]. }
  rewrite (stream_encode hosts q1 Hq1), Hmore, <-app_assoc in E2.
  destruct (client_reads hostc chunks q1 (more ++ rest) cl) as (qs & lost & y & -> & Hy & Ey & Hcl);
    [done|done|rewrite Hb; split; [by vm_compute|left; by vm_compute]|done|by rewrite Hb|].
  exists qs, y. split_and!; [by eexists|rewrite E1, <-app_assoc; by eexists|done|].
  intros Hin Hall Hrv Hw Hq Hsent. rewrite Hrv in E4. rewrite E4 in E1 by done.
  rewrite (nothing_more _ _ _ Ha Hall), app_nil_r in Eb.
  rewrite (nothing_more _ _ _ Hmore Hsent), E3, Hq, !app_nil_r in Ey by done. cbn in Ey.
  rewrite Eps in Hps. apply list.Forall_app in Hps as [_ Hps'].
  apply list.Forall_app in Hq1 as [_ Hlost].
  assert (ps' = []) as -> by (eapply nothing_left; [by apply Hinc|done|done]).
  assert (lost = []) as -> by by eapply nothing_left.
  rewrite !app_nil_r in *. subst ps. by rewrite E1.
Qed.

(** ** Instances *)

(** A client sends two packets in two pieces and reads the first answer while the second is
    in the queue. *)
Definition echo_ops : list thread_op :=
  [ServerOp (SrvAccept false 100 7);
   RecvTurn 1 (Bytes 110 (wire hello ++ take 3 (wire hello)));
   ParseTurn 1; CallTurn 1; CallTurn 1; WriterTurn 1 false [Took 5; Took 100];
   ParseTurn 1; RecvTurn 1 (Bytes 120 (drop 3 (wire hello)));
   ParseTurn 1; CallTurn 1; ServerOp (SrvHeartbeat 130); CallTurn 1; ParseTurn 1].

Lemma echo_run :
  exists st c, run_threads true (replying_handler echo) echo_ops (tcp_test_main 3) = Ret st /\
    objs (srv st) !! 1 = Some c /\ arrived (thread 1 st) = stream [hello; hello] /\
    sent_bytes c = encode true (mkPacket CMD_DATA (echo_prefix ++ [x68; x69])) /\
    messages c = [hello; hello].
Proof. vm_compute. eexists _, _. by repeat split. Qed.

Lemma server_answers_witness :
  exists cl, run_client true [ReadTurn (Some (encode true (mkPacket CMD_DATA (echo_prefix ++ [x68; x69]))))]
      connected_client = Ret (Alive cl) /\
    TcpClient.messages cl `prefix_of` [echo_prefix ++ [x68; x69]; echo_prefix ++ [x68; x69]].
Proof.
  destruct echo_run as (st & c & Hrun & Hc & Ha & Hs & Hm).
  destruct (server_answers true true echo echo_ops 3 true 9999 30000 st 1 c [hello; hello]
    [encode true (mkPacket CMD_DATA (echo_prefix ++ [x68; x69]))] connected_client)
    as (qs & y & _ & [qs' Hqs] & Hcl & _).
  - exact Hrun.
  - repeat constructor.
  - exact Hc.
  - repeat constructor; by_compute.
  - repeat constructor; by_compute.
  - by rewrite Ha.
  - reflexivity.
  - reflexivity.
  - reflexivity.
  - rewrite Hs. cbn [concat]. by rewrite app_nil_r.
  - eexists. split; [exact Hcl|]. exists (data <$> qs'). cbn [set_input TcpClient.messages app].
    rewrite Hm in Hqs. apply (f_equal (fmap data)) in Hqs. rewrite fmap_app in Hqs.
    exact Hqs.
Defined.

(** A handler that closes its session is still given the packets the buffer holds: the
    loop over [process_read] does not look at [closed_]. *)
Example closed_session_still_handled :
  exists st c, run_threads true (fun sid _ => [CloseSession sid])
      [ServerOp (SrvAccept false 100 7); RecvTurn 1 (Bytes 110 (wire hello ++ wire hello));
       ParseTurn 1; CallTurn 1; CallTurn 1; ParseTurn 1] (tcp_test_main 3) = Ret st /\
    objs (srv st) !! 1 = Some c /\ closed_ c = true /\ messages c = [hello; hello].
Proof. vm_compute. eexists _, _. by repeat split. Qed.
