(* ===== verification/SessionFrame.v ===== *)
(** * Steps of the sessions whose handler leaves the server alone

    For a program whose message handler only passes packets on: what one step of the threads
    of [Handlers] does to each session, whatever else is sent on it. *)

From S2P Require Import Prelude ByteOrder Packet TcpConnection TcpServer EndToEnd Handlers.

Open Scope Z_scope.

(** A handler that makes no call of the server. *)
Definition no_calls (sid : Z) (p : Packet) : list call := [].

Definition messages_of (sid : Z) (th : Threads) : list Packet :=
  match objs (srv th) !! sid with Some c => messages c | None => [] end.

(** The packets a step of the reader has handed to [on_message_]. *)
Definition delivered (sid : Z) (th th' : Threads) : list Packet :=
  drop (length (messages_of sid th)) (messages_of sid th').

(** ** What one step of the threads does to a session *)

Section frame.
Context (host : bool).

(** From one state of a session's threads and connection to another, with [new] packets
    handed over: reading stays exact, and the queue is only written out. *)
Record session_frame (listed listed' : Prop) (new : list Packet) (t : Thread) (c : Conn)
    (t' : Thread) (c' : Conn) : Prop := {
  sf_listed : listed' -> listed;
  sf_reads : reads t c -> reads t' c';
  sf_messages : messages c' = messages c ++ new;
  sf_written : written c (if writer_left t' then None else Some true) c';
  sf_writer : writer_left t' = false -> writer_left t = false;
  sf_left : writer_left t = true -> sent_bytes c' = sent_bytes c;
}.

Definition frame (new : Z -> list Packet) (st st' : Threads) : Prop :=
  (forall sid, is_Some (objs (srv st) !! sid) -> is_Some (objs (srv st') !! sid)) /\
  forall sid c', objs (srv st') !! sid = Some c' ->
    (exists c, objs (srv st) !! sid = Some c /\
       session_frame (sid ∈ connections_ (srv st)) (sid ∈ connections_ (srv st')) (new sid)
         (thread sid st) c (thread sid st') c') \/
    (objs (srv st) !! sid = None /\ same_view (new_conn 0 0 0) c' /\ thread sid st' = Thread0).

Lemma session_frame_view (listed listed' : Prop) t c c' :
  same_view c c' -> (listed' -> listed) -> session_frame listed listed' [] t c t c'.
Proof.
  intros (Hm & Hb & Hs & Hq) Hl. split; try done.
  - by apply reads_view.
  - by rewrite app_nil_r.
  - exists [], []. by rewrite app_nil_r, Hs, Hq.
Qed.

(** A quiet thread: it makes no call of the server. *)
Record quiet (st : Threads) : Prop := {
  qu_wf : wf (srv st);
  qu_calls : forall sid ks, reader_at (thread sid st) = Handling ks -> ks = [];
  qu_threads : forall sid, is_Some (threads st !! sid) -> is_Some (objs (srv st) !! sid);
}.

Lemma frame_kept st s' :
  quiet st -> kept (srv st) s' -> frame (fun _ => []) st (set_srv s' st).
Proof.
  intros [_ _ Ht] [Hdom Hk]. split; [done|]. intros sid c' Hc'.
  destruct (Hk sid c' Hc') as [(c & Hc & Hv & Hl)|[Hn Hv]]; [left|right].
  - exists c. split; [done|]. by apply session_frame_view.
  - split_and!; [done..|]. unfold thread. cbn. destruct (threads st !! sid) eqn:E; [|done].
    destruct (Ht sid) as [c Hc]; [by rewrite E|]. congruence.
Qed.

Lemma frame_session sid c c' t new st :
  objs (srv st) !! sid = Some c ->
  session_frame (sid ∈ connections_ (srv st)) (sid ∈ connections_ (srv st)) new (thread sid st) c t c' ->
  frame (fun k => if decide (k = sid) then new else []) st (set_session sid c' t st).
Proof.
  intros Hc Hf. unfold set_session. split; cbn.
  - intros k. rewrite lookup_insert_is_Some'. by right.
  - intros k o Ho. left. unfold thread. cbn. destruct (decide (k = sid)) as [->|Hne].
    + rewrite lookup_insert_eq in Ho. rewrite lookup_insert_eq. injection Ho as <-. by exists c.
    + rewrite lookup_insert_ne in Ho by done. rewrite lookup_insert_ne by done. exists o. split; [done|].
      by apply session_frame_view.
Qed.

(** Nothing new. *)
Lemma frame_nil sid st st' :
  frame (fun k => if decide (k = sid) then [] else []) st st' -> frame (fun _ => []) st st'.
Proof.
  intros [Hd Hf]. split; [done|]. intros k c' Hc'. destruct (Hf k c' Hc') as [H|H]; [left|by right].
  by destruct (decide (k = sid)).
Qed.

Lemma recv_turn_frame sid r st :
  quiet st -> frame (fun _ => []) st (recv_turn sid r st).
Proof.
  intros Hq. assert (frame (fun _ => []) st st) as Hrefl by exact (frame_kept st _ Hq (kept_refl _)).
  unfold recv_turn. case_decide as Hd; [|done].
  destruct (objs (srv st) !! sid) as [c|] eqn:Hc; [|done].
  assert (frame (fun _ => []) st
    (set_srv (reader_left sid (call_on_close (close c)) (srv st)) st)) as Hleft.
  { apply frame_kept; [done|]. apply (kept_left sid c); [done|apply (close_view c)]. }
  destruct (closed_ c); [done|]. destruct r as [tick bs|e]; [|by case_match].
  apply (frame_nil sid), (frame_session sid c); [done|]. split; cbn; try done.
  - by apply reads_bytes.
  - by rewrite app_nil_r.
  - exists [], []. by rewrite app_nil_r.
Qed.

Lemma writer_turn_frame sid closing rs st :
  quiet st -> frame (fun _ => []) st (writer_turn sid closing rs st).
Proof.
  intros Hq. assert (frame (fun _ => []) st st) as Hrefl by exact (frame_kept st _ Hq (kept_refl _)).
  unfold writer_turn. destruct (objs (srv st) !! sid) as [c|] eqn:Hc; [|done].
  destruct (writer_left (thread sid st)) eqn:Ht; [done|].
  pose proof (write_turn_frame closing rs c) as Hf. pose proof (write_turn_spec closing rs c) as Hs.
  destruct (write_turn closing rs c) as [r c']. destruct Hf as [Hm Hb]. destruct Hs as [Hw _].
  apply (frame_nil sid), (frame_session sid c); [done|]. split; cbn; try done.
  - by apply reads_view.
  - rewrite app_nil_r. exact Hm.
  - destruct Hw as (out & lost & ? & ? & Hl). exists out, lost. split_and!; [done..|].
    destruct r as [[]|]; intros [=]. by apply Hl.
  - by rewrite Ht.
Qed.

Lemma call_turn_frame sid st :
  quiet st -> frame (fun _ => []) st (call_turn host sid st).
Proof.
  intros Hq. assert (frame (fun _ => []) st st) as Hrefl by exact (frame_kept st _ Hq (kept_refl _)).
  unfold call_turn. destruct (reader_at (thread sid st)) as [| |ks] eqn:Ht; [done..|].
  rewrite (qu_calls _ Hq sid ks Ht). split; [done|]. intros k c' Hc'. left. exists c'.
  split; [done|]. unfold thread. cbn. destruct (decide (sid = k)) as [<-|Hne].
  - rewrite lookup_insert_eq. cbn. split; try done.
    + by apply reads_view.
    + by rewrite app_nil_r.
    + exists [], []. by rewrite app_nil_r.
  - rewrite lookup_insert_ne by done. by apply session_frame_view.
Qed.

Lemma parse_turn_frame sid st st' :
  quiet st -> parse_turn host no_calls sid st = Ret st' ->
  frame (fun k => if decide (k = sid) then delivered sid st st' else []) st st'.
Proof.
  intros Hq. assert (frame (fun k => if decide (k = sid) then delivered sid st st else []) st st) as Hrefl.
  { unfold delivered. rewrite drop_all. destruct (frame_kept st _ Hq (kept_refl _)) as [H1 H2].
    split; [done|]. intros k c' Hc'. destruct (H2 k c' Hc') as [H|H]; [left|by right].
    by destruct (decide (k = sid)). }
  unfold parse_turn. destruct (reader_at (thread sid st)) eqn:Ht; [by intros [= <-]| |by intros [= <-]].
  destruct (objs (srv st) !! sid) as [c|] eqn:Hc; [|by intros [= <-]].
  destruct (process_read host c) as [[more c']| |] eqn:E; [|done..]. rewrite bind_Ret.
  pose proof (process_read_frame host c more c' E) as (Hs & Hw & Hm). intros [= <-].
  assert (forall p, (p = Receiving -> more = false) ->
    frame (fun k => if decide (k = sid) then drop (length (messages c)) (messages c') else []) st
      (set_session sid c' (set_reader p (thread sid st)) st)) as Hf.
  { intros p Hp. apply (frame_session sid c); [done|]. split; cbn; try done.
    - intros Hr. by eapply reads_parse; [|exact E|].
    - destruct more; [destruct Hm as [q ->]|subst c'].
      + by rewrite drop_app_length.
      + by rewrite drop_all, app_nil_r.
    - exists [], []. by rewrite app_nil_r, Hs, Hw. }
  assert (forall p, delivered sid st (set_session sid c' (set_reader p (thread sid st)) st) =
    drop (length (messages c)) (messages c')) as Hd.
  { intros p. unfold delivered, messages_of. cbn. by rewrite Hc, lookup_insert_eq. }
  destruct more; rewrite Hd; by apply Hf.
Qed.

(** A session that is not there delivers nothing. *)
Lemma delivered_none new sid st st' :
  frame new st st' -> objs (srv st) !! sid = None \/ objs (srv st') !! sid = None ->
  delivered sid st st' = [].
Proof.
  intros [_ Hf] Hn. unfold delivered, messages_of.
  destruct (objs (srv st') !! sid) as [c'|] eqn:E; [|by rewrite drop_nil].
  destruct Hn as [Hn|]; [|done]. rewrite Hn.
  by destruct (Hf sid c' E) as [(c & ? & _)|(_ & (-> & _) & _)]; [congruence|].
Qed.

Lemma thread_step_frame o st st' :
  quiet st -> (forall sid, o <> ParseTurn sid) -> background o ->
  thread_step host no_calls o st = Ret st' -> frame (fun _ => []) st st'.
Proof.
  intros Hq Hp Ho. destruct o as [sid r|sid|sid|sid closing rs|o]; cbn [thread_step].
  - intros [= <-]. by apply recv_turn_frame.
  - by destruct (Hp sid).
  - intros [= <-]. by apply call_turn_frame.
  - intros [= <-]. by apply writer_turn_frame.
  - destruct o; try (intros [= <-]; exact (frame_kept st _ Hq (kept_refl _)));
      (destruct (run_server_op host _ (srv st)) as [s| |] eqn:E; [|done..]); rewrite bind_Ret;
      intros [= <-]; (apply frame_kept; [done|]);
      (eapply kept_background; [apply Hq|exact Ho|done|exact E]).
Qed.
End frame.

(** ** The threads stay quiet *)

Section quiet.
Context (host : bool).

Lemma quiet_srv s' st :
  quiet st -> wf s' -> (forall sid, is_Some (objs (srv st) !! sid) -> is_Some (objs s' !! sid)) ->
  quiet (set_srv s' st).
Proof. intros [_ Hc Ht] Hwf Hd. split; [done|done|]. intros sid H. apply Hd. by apply Ht. Qed.

Lemma quiet_session sid c c' t st :
  quiet st -> objs (srv st) !! sid = Some c -> wf (srv (set_session sid c' t st)) ->
  (forall ks, reader_at t = Handling ks -> ks = []) -> quiet (set_session sid c' t st).
Proof.
  intros [_ Hc Ht] Ho Hwf Hks. split; [done|..]; cbn.
  - intros k ks. unfold thread. cbn. destruct (decide (sid = k)) as [<-|Hne].
    + rewrite lookup_insert_eq. apply Hks.
    + rewrite lookup_insert_ne by done. apply Hc.
  - intros k. rewrite !lookup_insert_is_Some'. intros [->|H]; [by left|right; by apply Ht].
Qed.

Lemma call_turn_quiet sid st : quiet st -> quiet (call_turn host sid st).
Proof.
  intros Hq. unfold call_turn. destruct (reader_at (thread sid st)) as [| |ks] eqn:Ht; [done..|].
  rewrite (qu_calls _ Hq sid ks Ht). destruct Hq as [Hwf Hc Hth]. split; [done|..]; cbn.
  - intros k ks'. unfold thread. cbn. destruct (decide (sid = k)) as [<-|Hne].
    + by rewrite lookup_insert_eq.
    + rewrite lookup_insert_ne by done. apply Hc.
  - intros k. rewrite lookup_insert_is_Some'. intros [->|H]; [|by apply Hth]. apply Hth.
    unfold thread in Ht. by destruct (threads st !! k).
Qed.

Lemma thread_step_quiet o st st' :
  quiet st -> background o -> thread_step host no_calls o st = Ret st' -> quiet st'.
Proof.
  intros Hq Ho H. pose proof (thread_step_wf _ _ _ _ _ (qu_wf _ Hq) H) as Hwf. revert H.
  destruct o as [sid r|sid|sid|sid closing rs|o]; cbn [thread_step].
  - intros [= <-]. revert Hwf. unfold recv_turn. case_decide; [|done].
    destruct (objs (srv st) !! sid) as [c|] eqn:Hc; [|done].
    destruct (kept_left sid c (call_on_close (close c)) (srv st) Hc (close_view c)) as [Hd _].
    destruct (closed_ c); [intros ?; by apply quiet_srv|].
    destruct r as [tick bs|e]; [|case_match; [done|intros ?; by apply quiet_srv]].
    intros Hwf. by eapply quiet_session.
  - unfold parse_turn. destruct (reader_at (thread sid st)); [by intros [= <-]| |by intros [= <-]].
    destruct (objs (srv st) !! sid) as [c|] eqn:Hc; [|by intros [= <-]].
    destruct (process_read host c) as [[more c']| |] eqn:E; [|done..]. rewrite bind_Ret.
    destruct more; intros [= <-]; (eapply quiet_session; [done..|]); cbn; intros ks [=]; subst ks.
    by destruct (last (messages c')).
  - intros [= <-]. by apply call_turn_quiet.
  - intros [= <-]. revert Hwf. unfold writer_turn.
    destruct (objs (srv st) !! sid) as [c|] eqn:Hc; [|done]. destruct (writer_left _); [done|].
    destruct (write_turn closing rs c) as [r c']. intros Hwf. eapply quiet_session; [done..|].
    apply (qu_calls _ Hq sid).
  - destruct o; try (by intros [= <-]);
      (destruct (run_server_op host _ (srv st)) as [s| |] eqn:E; [|done..]); rewrite bind_Ret;
      intros [= <-]; (apply quiet_srv; [done|done|]);
      (eapply kept_background; [apply Hq|exact Ho|done|exact E]).
Qed.
End quiet.
