(* ===== verification/SessionJobs.v ===== *)
(** * Packets as tasks (example/gateway/gateway.cpp, example/server/main.cpp)

    The message handlers of the examples: each packet delivered on a session becomes a task
    that captures the session and the packet. *)

From S2P Require Import Prelude Packet ThreadPool PlainPool.

(** What the lambda given to [append] captures. *)
Abbreviation job := (Z * Packet)%type.

Definition append_packet (r : N) (sid : Z) (p : Pool job) (pkt : Packet) : Pool job :=
  append r (sid, pkt) p.

(** The packets of a session among some tasks. *)
Definition of_session (sid : Z) (ts : list (Task job)) : list Packet :=
  omap (fun t => match func_ t with
                 | Some (s, p) => if decide (s = sid) then Some p else None
                 | None => None
                 end) ts.

Lemma of_session_app sid ts ts' : of_session sid (ts ++ ts') = of_session sid ts ++ of_session sid ts'.
Proof. apply omap_app. Qed.

#[global] Instance of_session_perm sid : Proper ((≡ₚ) ==> (≡ₚ)) (of_session sid).
Proof. unfold of_session. solve_proper. Qed.

(** What was called and what was not yet is what was appended. *)
Lemma pool_split workers sid p :
  pool_ok workers p ->
  of_session sid (submitted p) ≡ₚ
    of_session sid (called p) ++ of_session sid (running (workers_ p) ++ tasks_ p).
Proof.
  intros Hok. rewrite <-of_session_app, (po_called _ _ Hok). apply of_session_perm.
  pose proof (po_conserved _ _ Hok) as Hc. unfold conserved in Hc.
  by rewrite (proj2 (po_dropped _ _ Hok)) in Hc.
Qed.

Lemma append_packets workers r sid ps p :
  pool_ok workers p -> (ps <> [] -> mutex_free p) ->
  pool_ok workers (foldl (append_packet r sid) p ps) /\
  called (foldl (append_packet r sid) p ps) = called p /\
  forall k, of_session k (submitted (foldl (append_packet r sid) p ps)) =
    of_session k (submitted p) ++ (if decide (k = sid) then ps else []).
Proof.
  revert p. induction ps as [|q ps IH]; intros p Hok Hf.
  - split_and!; [done..|]. intros k. cbn. by case_decide; rewrite app_nil_r.
  - assert (mutex_free p) as Hm by by apply Hf.
    destruct (IH (append r (sid, q) p)) as (H1 & H2 & H3); [by apply append_ok|done|].
    cbn [foldl]. split_and!; [done..|]. intros k. rewrite H3. cbn [append submit submitted].
    rewrite of_session_app, <-app_assoc. f_equal. unfold of_session. cbn.
    destruct (decide (k = sid)) as [->|Hne]; [by rewrite decide_True|].
    by rewrite decide_False by congruence.
Qed.

(** The appends are steps of the pool. *)
Lemma append_packets_steps r sid ps p :
  (ps <> [] -> mutex_free p) -> steps (fun _ => True) p (foldl (append_packet r sid) p ps).
Proof.
  revert p. induction ps as [|q ps IH]; intros p Hf; [apply rtc_refl|].
  eapply rtc_l; [|apply IH; intros _; by apply Hf]. exists LAppend. split; [done|].
  apply step_append. by apply Hf.
Qed.
