(* ===== verification/Gateway.v ===== *)
(** * The gateway (example/gateway/gateway.cpp)

    The program that puts the parts together: the readers of the server turn packets into
    tasks of the pool, the workers route them, and the handlers answer through the server.
    The threads of the sessions are those of [Handlers], the pool is that of [ThreadPool];
    a task takes effect when [execute] returns, as the router runs the handlers one at a
    time under its mutex and a handler makes one call. *)

From S2P Require Import Prelude ByteOrder Packet ThreadPool PoolProgress SessionMgr TcpConnection.
From S2P Require Import TcpServer Router EndToEnd Handlers SessionFrame PlainPool SessionJobs.

Open Scope Z_scope.

Definition CMD_LOGIN : Z := 2.
Definition CMD_LOGOUT : Z := 3.
Definition CMD_DATA : Z := 4.

Inductive handler := handle_login | handle_logout | handle_data.

(** The routes [main] sets, the last one first. *)
Definition routes : list router_op :=
  [Reg CMD_DATA (Some handle_data); Reg CMD_LOGOUT (Some handle_logout);
   Reg CMD_LOGIN (Some handle_login)].
Definition g_router : @Router handler := run_router routes.

Record Gateway := { g_threads : Threads; g_pool : Pool job; g_sessions : SessionMgr }.

Definition set_threads (th : Threads) (g : Gateway) : Gateway :=
  {| g_threads := th; g_pool := g_pool g; g_sessions := g_sessions g |}.
Definition set_pool (p : Pool job) (g : Gateway) : Gateway :=
  {| g_threads := g_threads g; g_pool := p; g_sessions := g_sessions g |}.
Definition set_mgr (m : SessionMgr) (g : Gateway) : Gateway :=
  {| g_threads := g_threads g; g_pool := g_pool g; g_sessions := m |}.

Definition login_ok : list byte := String.list_byte_of_string "login_ok".

Section gateway.
Context (host : bool).

Definition g_send_to (sid c : Z) (d : list byte) (g : Gateway) : Gateway :=
  set_threads (set_srv (snd (TcpServer.send_to host sid c d (srv (g_threads g)))) (g_threads g)) g.

(** The three handlers; only one of them touches the sessions. *)
Definition handle (f : handler) (sid : Z) (d : list byte) (g : Gateway) : Gateway :=
  match f with
  | handle_login => g_send_to sid CMD_LOGIN login_ok g
  | handle_logout => set_mgr (SessionMgr.remove sid (g_sessions g)) g
  | handle_data => g_send_to sid CMD_DATA d g
  end.

(** [g_router->route(sid, pkt)]; an exception would stay in the future. *)
Definition run_job (j : job) (g : Gateway) : Gateway :=
  match route j.1 j.2 g_router with
  | Ret (Some (f, sid, d)) => handle f sid d g
  | _ => g
  end.

Definition run_task (g : Gateway) (t : Task job) : Gateway :=
  match func_ t with Some j => run_job j g | None => g end.

(** The state [main] has set up once [start] has succeeded. *)
Definition main (workers : nat) (port sock : Z) : Gateway :=
  {| g_threads :=
       {| srv := snd (start sock true
                   (set_idle_timeout 30000 (set_heartbeat_interval 10000 (new_server port 30000))));
          threads := ∅ |};
     g_pool := Pool0 workers; g_sessions := SessionMgr0 |}.

(** The handler of closed sessions runs for those just reported. *)
Definition closed_now (th th' : Threads) : list Z :=
  drop (length (user_close (srv th))) (user_close (srv th')).

(** The steps: the threads of the sessions and of the server, where a packet that is
    delivered becomes a task; and those of the pool, where the functions called take
    effect. *)
Inductive gateway_step : Gateway -> Gateway -> Prop :=
| gs_thread g o th' :
    (forall sid, o <> ParseTurn sid) -> background o ->
    thread_step host no_calls o (g_threads g) = Ret th' ->
    gateway_step g
      (set_mgr (foldl (fun m sid => SessionMgr.remove sid m) (g_sessions g) (closed_now (g_threads g) th'))
         (set_threads th' g))
| gs_parse g sid r th' :
    parse_turn host no_calls sid (g_threads g) = Ret th' ->
    (delivered sid (g_threads g) th' <> [] -> mutex_free (g_pool g)) ->
    gateway_step g
      (set_pool (foldl (append_packet r sid) (g_pool g) (delivered sid (g_threads g) th'))
         (set_threads th' g))
| gs_pool g l p' :
    plain_label l = true -> step l (g_pool g) p' ->
    gateway_step g
      (foldl run_task (set_pool p' g) (drop (length (called (g_pool g))) (called p'))).

Definition reachable_from (g0 g : Gateway) : Prop := rtc gateway_step g0 g.
End gateway.

(** ** Specification *)

(** The answer a packet is due. *)
Definition answer (p : Packet) : option Packet :=
  if decide (cmd p = CMD_LOGIN) then Some (mkPacket CMD_LOGIN login_ok)
  else if decide (cmd p = CMD_DATA) then Some (mkPacket CMD_DATA (data p))
  else None.

(** ** The invariant *)

Section invariant.
Context (host : bool).

(** The replies queued so far, while the session is in the table one for each packet of
    [done] that is due one, in the order of [done]. *)
Definition replied (listed : Prop) (t : Thread) (c : Conn) (done : list Packet) : Prop :=
  exists qs rest, qs `prefix_of` omap answer done /\ (listed -> qs = omap answer done) /\
    (qs ≫= encode host) = sent_bytes c ++ rest /\
    (writer_left t = false -> rest = concat (write_queue_ c)).

(** [executed] are the tasks whose functions have taken effect. *)
Record gateway_ok (workers : nat) (executed : list (Task job)) (g : Gateway) : Prop := {
  go_quiet : quiet (g_threads g);
  go_pool : pool_ok workers (g_pool g);
  go_mgr : sessions_ (g_sessions g) = ∅;
  go_sessions : forall sid c, objs (srv (g_threads g)) !! sid = Some c ->
    reads (thread sid (g_threads g)) c /\
    of_session sid (submitted (g_pool g)) = messages c /\
    replied (sid ∈ connections_ (srv (g_threads g))) (thread sid (g_threads g)) c
      (of_session sid executed);
  go_none : forall sid, objs (srv (g_threads g)) !! sid = None ->
    of_session sid (submitted (g_pool g)) = [] /\ of_session sid executed = [];
}.

Lemma replied_frame (listed listed' : Prop) new t c t' c' done :
  session_frame listed listed' new t c t' c' -> replied listed t c done -> replied listed' t' c' done.
Proof.
  intros [Hl _ _ (out & lost & Es & Eq & Hlost) Hw Hleft] (qs & rest & Hp & Hq & E & Hr).
  destruct (writer_left t) eqn:Ht.
  - exists qs, rest. rewrite Hleft by done. split_and!; [done|by auto|done|].
    intros Ht'. by specialize (Hw Ht').
  - exists qs, (lost ++ concat (write_queue_ c')). split_and!; [done|by auto| |].
    + by rewrite E, Hr, Es, Eq, <-app_assoc by done.
    + intros Ht'. by rewrite Hlost by (by rewrite Ht').
Qed.

(** A step of the threads. *)
Lemma gateway_frame workers executed new g th' p' m' :
  gateway_ok workers executed g -> quiet th' -> frame new (g_threads g) th' ->
  pool_ok workers p' -> sessions_ m' = ∅ ->
  (forall sid, objs (srv th') !! sid = None -> new sid = []) ->
  (forall sid, of_session sid (submitted p') = of_session sid (submitted (g_pool g)) ++ new sid) ->
  (forall sid, objs (srv (g_threads g)) !! sid = None -> new sid = []) ->
  gateway_ok workers executed {| g_threads := th'; g_pool := p'; g_sessions := m' |}.
Proof.
  intros [Hq Hp Hm Hs Hn] Hq' [Hd Hf] Hp' Hm' Hnew' Hsub Hnew.
  split; cbn; [done..| |].
  - intros sid c' Hc'. rewrite Hsub. destruct (Hf sid c' Hc') as [(c & Hc & Hsf)|(Hc & Hv & Ht)].
    + destruct (Hs sid c Hc) as (Hr & Hms & Hrep). split_and!.
      * by apply (sf_reads _ _ _ _ _ _ _ Hsf).
      * by rewrite Hms, (sf_messages _ _ _ _ _ _ _ Hsf).
      * by eapply replied_frame.
    + destruct (Hn sid Hc) as [-> ->]. rewrite Hnew, Ht by done.
      destruct Hv as (Em & Eb & Es & Eq). split_and!.
      * intros ps r _ E. exists ps. rewrite Em, Eb. split_and!; [done..|]. intros _.
        split; [by vm_compute|left; by vm_compute].
      * by rewrite Em.
      * exists [], []. by rewrite Es, Eq.
  - intros sid Hc'. assert (objs (srv (g_threads g)) !! sid = None) as Hc.
    { destruct (objs (srv (g_threads g)) !! sid) eqn:E; [|done].
      destruct (Hd sid) as [? ?]; [by rewrite E|congruence]. }
    rewrite Hsub, Hnew, app_nil_r by done. by apply Hn.
Qed.

(** A function of a task takes effect. *)
Lemma run_job_spec sid p g :
  sessions_ (g_sessions g) = ∅ ->
  run_job host (sid, p) g =
    match answer p with Some q => g_send_to host sid (cmd q) (data q) g | None => g end.
Proof.
  intros Hm. unfold run_job. cbn [fst snd]. unfold g_router. rewrite route_due.
  2: { unfold routes. cbn. repeat case_decide; done. }
  unfold due, answer, routes. cbn [registered]. unfold CMD_DATA, CMD_LOGOUT, CMD_LOGIN.
  destruct (decide (cmd p = 4)) as [->|H4]; [done|]. destruct (decide (cmd p = 3)) as [->|H3].
  { cbn. unfold set_mgr, remove. rewrite Hm, lookup_empty. by destruct g. }
  by destruct (decide (cmd p = 2)).
Qed.

Lemma replied_answer (listed : Prop) t c done q :
  ~ listed -> replied listed t c done -> replied listed t c (done ++ [q]).
Proof.
  intros Hl (qs & rest & Hp & Hq & E & Hr). exists qs, rest. split_and!; [|by intros ?%Hl|done..].
  rewrite omap_app. by apply prefix_app_r.
Qed.

Lemma replied_none listed t c done p :
  answer p = None -> replied listed t c done -> replied listed t c (done ++ [p]).
Proof.
  intros Ha (qs & rest & Hp & Hq & E & Hr). exists qs, rest. rewrite omap_app. cbn. rewrite Ha, app_nil_r.
  done.
Qed.

Lemma replied_send (listed : Prop) t c done p q :
  listed -> answer p = Some q -> replied listed t c done ->
  replied listed t (snd (send_packet host (cmd q) (data q) c)) (done ++ [p]).
Proof.
  intros Hl Ha (qs & rest & Hp & Hq & E & Hr). rewrite Hq in E by done.
  exists (omap answer done ++ [q]), (rest ++ encode host q).
  rewrite omap_app. cbn. rewrite Ha. split_and!; [done..| |].
  - rewrite bind_app, E. cbn. by rewrite app_nil_r, app_assoc.
  - intros Hw. rewrite Hr, concat_app by done. cbn. rewrite app_nil_r. by destruct q.
Qed.

Lemma of_session_snoc k ts t sid p :
  func_ t = Some (sid, p) ->
  of_session k (ts ++ [t]) = of_session k ts ++ (if decide (sid = k) then [p] else []).
Proof.
  intros Hj. rewrite of_session_app. f_equal. unfold of_session. cbn. rewrite Hj.
  by destruct (decide (sid = k)).
Qed.

(** The effect is nothing. *)
Lemma gateway_ok_skip workers executed t sid p c g :
  gateway_ok workers executed g -> func_ t = Some (sid, p) ->
  objs (srv (g_threads g)) !! sid = Some c ->
  (forall done, replied (sid ∈ connections_ (srv (g_threads g))) (thread sid (g_threads g)) c done ->
     replied (sid ∈ connections_ (srv (g_threads g))) (thread sid (g_threads g)) c (done ++ [p])) ->
  gateway_ok workers (executed ++ [t]) g.
Proof.
  intros [Hq Hpool Hm Hs Hn] Hj Hc Hrep. split; [done..| |].
  - intros k o Ho. rewrite (of_session_snoc k _ t sid p Hj). destruct (Hs k o Ho) as (? & ? & ?).
    split_and!; [done..|]. destruct (decide (sid = k)) as [<-|]; [|by rewrite app_nil_r].
    rewrite Hc in Ho. injection Ho as <-. by apply Hrep.
  - intros k Hk. rewrite (of_session_snoc k _ t sid p Hj). destruct (Hn k Hk) as [? ->].
    split; [done|]. rewrite decide_False; [done|]. intros <-. congruence.
Qed.

(** The effect is an answer to a session of the table. *)
Lemma gateway_ok_send workers executed t sid p q g :
  gateway_ok workers executed g -> func_ t = Some (sid, p) -> answer p = Some q ->
  sid ∈ connections_ (srv (g_threads g)) ->
  gateway_ok workers (executed ++ [t]) (g_send_to host sid (cmd q) (data q) g).
Proof.
  intros [Hq Hpool Hm Hs Hn] Hj Ha Hl.
  assert (wf (snd (TcpServer.send_to host sid (cmd q) (data q) (srv (g_threads g))))) as Hwf
    by by apply (run_server_op_wf host (SrvSendTo sid (cmd q) (data q)) _ _ (qu_wf _ Hq)).
  assert (is_Some (objs (srv (g_threads g)) !! sid)) as [c Hc].
  { apply elem_of_dom. pose proof (qu_wf _ Hq) as Hw. apply (wf_readers _ Hw).
    by apply (wf_table _ Hw). }
  destruct (Hs sid c Hc) as (Hr & Hms & Hrep). revert Hwf. unfold g_send_to, TcpServer.send_to.
  rewrite decide_True, Hc by done. intros Hwf. split; cbn; [|done|done| |].
  - apply quiet_srv; [done|done|]. intros k. cbn. rewrite lookup_insert_is_Some'. by right.
  - intros k o. unfold thread. cbn. rewrite (of_session_snoc k _ t sid p Hj).
    destruct (decide (sid = k)) as [<-|Hk].
    + rewrite lookup_insert_eq. intros [= <-]. split_and!; [by eapply reads_view|done|].
      by apply replied_send.
    + rewrite lookup_insert_ne, app_nil_r by done. apply Hs.
  - intros k. rewrite (of_session_snoc k _ t sid p Hj). destruct (decide (sid = k)) as [<-|Hk].
    + by rewrite lookup_insert_eq.
    + rewrite lookup_insert_ne, app_nil_r by done. apply Hn.
Qed.

(** A task that was appended has a session. *)
Lemma task_session workers executed g t :
  gateway_ok workers executed g -> t ∈ submitted (g_pool g) ->
  exists sid p c, func_ t = Some (sid, p) /\ objs (srv (g_threads g)) !! sid = Some c.
Proof.
  intros Hok Ht. pose proof (po_plain _ _ (go_pool _ _ _ Hok)) as Hp. rewrite Forall_forall in Hp.
  destruct (Hp t Ht) as [[[sid p] Hj] _].
  destruct (objs (srv (g_threads g)) !! sid) as [c|] eqn:E; [by exists sid, p, c|].
  apply (go_none _ _ _ Hok) in E as [E _]. apply list_elem_of_split in Ht as (l1 & l2 & Hs).
  rewrite Hs, of_session_app in E. apply app_eq_nil in E as [_ E]. unfold of_session in E. cbn in E.
  by rewrite Hj, decide_True in E by done.
Qed.

Lemma run_task_ok workers executed g t :
  gateway_ok workers executed g -> t ∈ submitted (g_pool g) ->
  gateway_ok workers (executed ++ [t]) (run_task host g t) /\
  g_pool (run_task host g t) = g_pool g.
Proof.
  intros Hok Ht. destruct (task_session _ _ _ _ Hok Ht) as (sid & p & c & Hj & Hc).
  unfold run_task. rewrite Hj, run_job_spec by apply Hok.
  destruct (answer p) as [q|] eqn:Ha.
  - split; [|done]. destruct (decide (sid ∈ connections_ (srv (g_threads g)))) as [Hl|Hl].
    + by eapply gateway_ok_send.
    + unfold g_send_to, TcpServer.send_to. rewrite decide_False by done. cbn.
      assert (g_threads g = set_srv (srv (g_threads g)) (g_threads g)) as <- by by destruct (g_threads g).
      assert (g = set_threads (g_threads g) g) as <- by by destruct g.
      eapply gateway_ok_skip; [done..|]. intros done. by apply replied_answer.
  - split; [|done]. eapply gateway_ok_skip; [done..|]. intros done. by apply replied_none.
Qed.

Lemma run_tasks_ok workers ts executed g :
  gateway_ok workers executed g -> ts ⊆ submitted (g_pool g) ->
  gateway_ok workers (executed ++ ts) (foldl (run_task host) g ts) /\
  g_pool (foldl (run_task host) g ts) = g_pool g.
Proof.
  revert executed g. induction ts as [|t ts IH]; intros executed g Hok Hts; [by rewrite app_nil_r|].
  destruct (run_task_ok workers executed g t Hok) as [Hok' E]; [set_solver|].
  cbn [foldl]. rewrite (app_assoc _ [t] ts), <-E. apply IH; [done|]. rewrite E. set_solver.
Qed.

Lemma remove_none sids m :
  sessions_ m = ∅ -> sessions_ (foldl (fun m sid => SessionMgr.remove sid m) m sids) = ∅.
Proof.
  revert m. induction sids as [|sid sids IH]; intros m Hm; cbn [foldl]; [done|]. apply IH.
  unfold remove. by rewrite Hm, lookup_empty.
Qed.

Lemma gateway_step_ok workers g g' :
  gateway_ok workers (called (g_pool g)) g -> gateway_step host g g' ->
  gateway_ok workers (called (g_pool g')) g'.
Proof.
  intros Hok. destruct 1 as [g o th' Hp Ho Hst|g sid r th' Hst Hf|g l p' Hl Hst].
  - apply (gateway_frame workers _ (fun _ => []) g); try done.
    + eapply thread_step_quiet; [apply Hok|done|done].
    + eapply thread_step_frame; [apply Hok|done..].
    + apply Hok.
    + apply remove_none, Hok.
    + intros k. by rewrite app_nil_r.
  - pose proof (parse_turn_frame host sid _ th' (go_quiet _ _ _ Hok) Hst) as Hfr.
    destruct (append_packets workers r sid _ (g_pool g) (go_pool _ _ _ Hok) Hf) as (Hp & Hc & Hs).
    cbn [set_pool g_pool]. rewrite Hc.
    eapply (gateway_frame workers _ _ g); [done| |exact Hfr|done|apply Hok| |done|].
    + eapply (thread_step_quiet host (ParseTurn sid)); [apply Hok|done|exact Hst].
    + intros k Hk. cbn. case_decide as E; [subst k|done]. eapply delivered_none; [done|by right].
    + intros k Hk. cbn. case_decide as E; [subst k|done]. eapply delivered_none; [done|by left].
  - destruct (plain_step workers l _ p' Hl Hst (go_pool _ _ _ Hok)) as (Hp & Hs & new & Hn).
    rewrite Hn, drop_app_length.
    destruct (run_tasks_ok workers new (called (g_pool g)) (set_pool p' g)) as [H E].
    + destruct Hok as [Hq _ Hm Hse Hno]. split; cbn; try rewrite Hs; done.
    + cbn [set_pool g_pool]. rewrite (po_conserved _ _ Hp), <-(po_called _ _ Hp), Hn. set_solver.
    + rewrite E. cbn [set_pool g_pool]. by rewrite Hn.
Qed.

Lemma main_ok workers port sock : gateway_ok workers [] (main workers port sock).
Proof.
  assert (wf (srv (g_threads (main workers port sock))) /\
    objs (srv (g_threads (main workers port sock))) = ∅) as [Hwf E].
  { split; [|unfold main; cbn [g_threads srv]; unfold start; by destruct (sock =? INVALID_SOCKET)].
    apply (run_server_op_wf host (SrvStart sock true)
      (set_idle_timeout 30000 (set_heartbeat_interval 10000 (new_server port 30000)))); [|done].
    exact (new_server_wf port 30000). }
  split.
  - split; [done|done|]. intros sid. cbn. rewrite lookup_empty. by intros [].
  - apply pool_ok_start.
  - done.
  - intros sid c. by rewrite E, lookup_empty.
  - done.
Qed.

Lemma reachable_ok workers port sock g :
  reachable_from host (main workers port sock) g -> gateway_ok workers (called (g_pool g)) g.
Proof.
  intros Hr. refine (rtc_ind_r (fun g => gateway_ok workers (called (g_pool g)) g) _ _ _ g Hr).
  - apply main_ok.
  - intros y z _ Hst Hy. by eapply gateway_step_ok.
Qed.

(** ** Progress *)

Lemma run_task_pool g t : g_pool (run_task host g t) = g_pool g.
Proof.
  unfold run_task, run_job. destruct (func_ t) as [j|]; [|done].
  destruct (route j.1 j.2 g_router) as [[[[f sid] d]|]| |]; [|done..]. by destruct f.
Qed.

Lemma run_tasks_pool ts g : g_pool (foldl (run_task host) g ts) = g_pool g.
Proof. revert g. induction ts as [|t ts IH]; intros g; cbn; [done|]. by rewrite IH, run_task_pool. Qed.

Lemma run_task_session g t sid :
  is_Some (objs (srv (g_threads g)) !! sid) -> is_Some (objs (srv (g_threads (run_task host g t))) !! sid).
Proof.
  intros Hs. assert (forall k c d, is_Some (objs (srv (g_threads (g_send_to host k c d g))) !! sid)) as Hsend.
  { intros k c d. unfold g_send_to, TcpServer.send_to. cbn. repeat case_match; cbn; try done.
    rewrite lookup_insert_is_Some'. by right. }
  unfold run_task, run_job. destruct (func_ t) as [j|]; [|done].
  destruct (route j.1 j.2 g_router) as [[[[f k] d]|]| |]; [|done..]. destruct f; [apply Hsend|done|apply Hsend].
Qed.

Lemma run_tasks_session ts g sid :
  is_Some (objs (srv (g_threads g)) !! sid) ->
  is_Some (objs (srv (g_threads (foldl (run_task host) g ts))) !! sid).
Proof. revert g. induction ts as [|t ts IH]; intros g Hs; cbn; [done|]. by apply IH, run_task_session. Qed.

(** The pool of the gateway is one that [ThreadPool.step] reaches. *)
Lemma pool_reachable workers port sock g :
  reachable_from host (main workers port sock) g -> reachable (fun _ => True) workers (g_pool g).
Proof.
  intros Hr. refine (rtc_ind_r (fun g => reachable (fun _ => True) workers (g_pool g)) _ _ _ g Hr).
  - apply rtc_refl.
  - intros y z _ Hst Hy. destruct Hst as [g0 o th' _ _ _|g0 sid r th' _ Hf|g0 l p' _ Hst].
    + exact Hy.
    + unfold reachable, steps in *. etrans; [exact Hy|]. by apply append_packets_steps.
    + rewrite run_tasks_pool. unfold reachable, steps in *. etrans; [exact Hy|].
      apply rtc_once. by exists l.
Qed.

(** A run of the workers is one of the gateway. *)
Lemma pool_trace ls p p' g :
  Forall (fun l => l = LWorker \/ l = LNotify) ls -> trace ls p p' -> g_pool g = p ->
  exists g', reachable_from host g g' /\ g_pool g' = p' /\
    forall sid, is_Some (objs (srv (g_threads g)) !! sid) -> is_Some (objs (srv (g_threads g')) !! sid).
Proof.
  intros Hls Ht. revert g. induction Ht as [p|l ls p p1 p2 Hst _ IH]; intros g Hg.
  - exists g. split_and!; [apply rtc_refl|done|done].
  - apply Forall_cons in Hls as [Hl Hls]. rewrite <-Hg in Hst.
    destruct (IH Hls (foldl (run_task host) (set_pool p1 g) (drop (length (called (g_pool g))) (called p1))))
      as (g' & Hr & Hp & Hs); [by rewrite run_tasks_pool|].
    exists g'. split_and!; [|done|].
    + eapply rtc_l; [|exact Hr]. eapply gs_pool; [|exact Hst]. by destruct Hl as [-> | ->].
    + intros sid Hsid. apply Hs. by apply run_tasks_session.
Qed.

(** The workers can get to where nothing waits. *)
Lemma gateway_drains workers port sock g sid c :
  reachable_from host (main workers port sock) g -> (0 < workers)%nat ->
  control_ (g_pool g) = CIdle -> objs (srv (g_threads g)) !! sid = Some c ->
  exists g' c', reachable_from host g g' /\ objs (srv (g_threads g')) !! sid = Some c' /\
    messages c' = messages c /\ of_session sid (called (g_pool g')) ≡ₚ messages c.
Proof.
  intros Hr Hn Hc Ho. pose proof (pool_reachable _ _ _ _ Hr) as Hp.
  destruct (comes_to_rest (g_pool g)) as (ls & p' & Hls & Ht & Hrest).
  assert (Forall own ls) as Hown by (eapply Forall_impl; [exact Hls|]; unfold own; tauto).
  destruct (trace_frame _ _ _ Hown Ht) as (Es & _ & _ & Ec).
  pose proof (trace_reachable _ _ _ _ _ Hp Ht) as Hp'.
  destruct (pool_trace _ _ _ g Hls Ht eq_refl) as (g' & Hg' & Epool & Hs).
  destruct (Hs sid) as [c' Hc']; [by eexists|].
  assert (reachable_from host (main workers port sock) g') as Hr'
    by (unfold reachable_from in *; etrans; [exact Hr|exact Hg']).
  destruct (go_sessions _ _ _ (reachable_ok _ _ _ _ Hr) sid c Ho) as (_ & Em & _).
  pose proof (reachable_ok _ _ _ _ Hr') as Hok'.
  destruct (go_sessions _ _ _ Hok' sid c' Hc') as (_ & Em' & _).
  exists g', c'. rewrite Epool, Es, Em in Em'. split_and!; [done|done|done|].
  pose proof (pool_split workers sid _ (go_pool _ _ _ Hok')) as Hsplit.
  rewrite Epool, Es, Em in Hsplit. rewrite Epool.
  rewrite (rest_drained workers p' Hp' Hrest) in Hsplit.
  2: { eapply idle_staffed; [done|exact Hp'|by rewrite Ec]. }
  rewrite (idle_running _ (rest_idle p' Hrest)) in Hsplit. cbn [app of_session omap list_omap] in Hsplit.
  rewrite app_nil_r in Hsplit. by rewrite Hsplit.
Qed.
End invariant.

(** C2: The gateway, with any number of workers and every interleaving of its threads.  Each
    packet a session has delivered is exactly one of routed and waiting (queued, or with a
    worker).  What is queued and sent on the session are the answers of the routed ones, each
    once: one for a login, the data of a data packet, none for the rest; none is missing
    while the session is in the table.  So once nothing waits, the answers are those due to
    the packets, but in an order the workers make: it is the order of the packets when there
    is one worker.  As long as the pool is not shut down the workers can get, by themselves,
    to where every packet delivered is routed; and [PoolProgress] bounds the steps they take.
    The session manager, whose [add] is never reached, stays empty. *)
Theorem gateway_answers host workers port sock g sid c :
  reachable_from host (main workers port sock) g ->
  objs (srv (g_threads g)) !! sid = Some c ->
  let done := of_session sid (called (g_pool g)) in
  let waiting := of_session sid (running (workers_ (g_pool g)) ++ tasks_ (g_pool g)) in
  messages c ≡ₚ done ++ waiting /\ (workers = 1%nat -> messages c = done ++ waiting) /\
  (forall ps, Forall wf_packet ps -> arrived (thread sid (g_threads g)) `prefix_of` stream ps ->
     messages c `prefix_of` ps) /\
  (exists qs rest, qs `prefix_of` omap answer done /\
     (qs ≫= encode host) = sent_bytes c ++ rest /\
     (writer_left (thread sid (g_threads g)) = false -> rest = concat (write_queue_ c)) /\
     (sid ∈ connections_ (srv (g_threads g)) ->
        qs = omap answer done /\ (waiting = [] -> qs ≡ₚ omap answer (messages c)))) /\
  ((0 < workers)%nat -> control_ (g_pool g) = CIdle ->
     exists g' c', reachable_from host g g' /\ objs (srv (g_threads g')) !! sid = Some c' /\
       messages c' = messages c /\ of_session sid (called (g_pool g')) ≡ₚ messages c) /\
  sessions_ (g_sessions g) = ∅.
Proof.
  intros Hrg Hc. pose proof (reachable_ok _ _ _ _ _ Hrg) as Hr. cbv zeta.
  destruct (go_sessions _ _ _ _ Hr sid c Hc) as (Hread & Hms & qs & rest & Hp & Hq & E & Hw).
  pose proof (pool_split workers sid _ (go_pool _ _ _ _ Hr)) as Hsplit. rewrite Hms in Hsplit.
  split_and!; [done| | | |by intros; eapply gateway_drains|apply Hr].
  - intros Hn. rewrite <-Hms, <-of_session_app, (po_called _ _ (go_pool _ _ _ _ Hr)).
    by rewrite (po_order _ _ (go_pool _ _ _ _ Hr) Hn).
  - intros ps Hps [r Hpre]. destruct (Hread ps r Hps (eq_sym Hpre)) as (ps' & -> & _). by eexists.
  - exists qs, rest. split_and!; [done..|]. intros Hl. split; [by apply Hq|]. intros Hnil.
    rewrite Hnil, app_nil_r in Hsplit. rewrite Hq by done. by rewrite Hsplit.
Qed.

(** ** Schedules *)

(** An executable form of runs: which thread moves. *)
Inductive gateway_move :=
| GAccept (tick sock : Z)
| GRecv (sid : Z) (r : recv_result)
| GCall (sid : Z)
| GWriter (sid : Z) (rs : list send_result)
| GParse (sid : Z) (r : N)
| GWorker (i : nat).

Section schedules.
Context (host : bool).

Definition play_thread (o : thread_op) (g : Gateway) : option Gateway :=
  match thread_step host no_calls o (g_threads g) with
  | Ret th' =>
      Some (set_mgr (foldl (fun m sid => SessionMgr.remove sid m) (g_sessions g) (closed_now (g_threads g) th'))
              (set_threads th' g))
  | _ => None
  end.

Definition play_gateway_move (m : gateway_move) (g : Gateway) : option Gateway :=
  match m with
  | GAccept tick sock => play_thread (ServerOp (SrvAccept false tick sock)) g
  | GRecv sid r => play_thread (RecvTurn sid r) g
  | GCall sid => play_thread (CallTurn sid) g
  | GWriter sid rs => play_thread (WriterTurn sid false rs) g
  | GParse sid r =>
      match parse_turn host no_calls sid (g_threads g) with
      | Ret th' =>
          if bool_decide (mutex_free (g_pool g)) then
            Some (set_pool (foldl (append_packet r sid) (g_pool g) (delivered sid (g_threads g) th'))
                    (set_threads th' g))
          else None
      | _ => None
      end
  | GWorker i =>
      match drop i (workers_ (g_pool g)) with
      | p :: ws2 =>
          match worker_step p (g_pool g) with
          | Some (p', s1) =>
              let pool' := set_workers (take i (workers_ (g_pool g)) ++ p' :: ws2) s1 in
              Some (foldl (run_task host) (set_pool pool' g)
                      (drop (length (called (g_pool g))) (called pool')))
          | None => None
          end
      | [] => None
      end
  end.

Fixpoint play_gateway (ms : list gateway_move) (g : Gateway) : option Gateway :=
  match ms with
  | [] => Some g
  | m :: ms' => match play_gateway_move m g with Some g' => play_gateway ms' g' | None => None end
  end.

Lemma play_thread_step o g g' :
  (forall sid, o <> ParseTurn sid) -> background o -> play_thread o g = Some g' ->
  gateway_step host g g'.
Proof.
  intros Hp Ho. unfold play_thread. destruct (thread_step _ _ _ _) as [th'| |] eqn:E; try done.
  intros [= <-]. by eapply gs_thread.
Qed.

Lemma play_gateway_step m g g' : play_gateway_move m g = Some g' -> gateway_step host g g'.
Proof.
  destruct m as [tick sock|sid r|sid|sid rs|sid r|i]; cbn [play_gateway_move];
    try by (apply play_thread_step; [by intros ?|]).
  - destruct (parse_turn _ _ _ _) as [th'| |] eqn:E; try done. case_bool_decide; [|done].
    intros [= <-]. by apply gs_parse.
  - destruct (drop i (workers_ (g_pool g))) as [|p ws2] eqn:E; [done|].
    destruct (worker_step p (g_pool g)) as [[p' s1]|] eqn:Hp; [|done]. intros [= <-].
    apply (gs_pool host g LWorker (set_workers (take i (workers_ (g_pool g)) ++ p' :: ws2) s1)); [done|].
    apply (step_worker _ (take i (workers_ (g_pool g))) p ws2 p' s1); [|done].
    by rewrite <-E, take_drop.
Qed.

Lemma play_gateway_reachable ms g g' : play_gateway ms g = Some g' -> reachable_from host g g'.
Proof.
  revert g. induction ms as [|m ms IH]; intros g; cbn [play_gateway].
  - intros [= <-]. apply rtc_refl.
  - destruct (play_gateway_move m g) as [g1|] eqn:E; [|done]. intros H.
    eapply rtc_l; [by eapply play_gateway_step|by apply IH].
Qed.
End schedules.

(** Two packets arrive together; the worker of the second one is the faster. *)
Definition first_packet : Packet := mkPacket CMD_DATA [x31].
Definition second_packet : Packet := mkPacket CMD_DATA [x32].
Definition race : list gateway_move :=
  [GAccept 100 7; GRecv 1 (Bytes 110 (wire first_packet ++ wire second_packet));
   GParse 1 1; GCall 1; GParse 1 2; GCall 1; GParse 1 3;
   GWorker 0; GWorker 0; GWorker 1; GWorker 1; GWorker 1; GWorker 0].

Lemma race_run :
  exists g c, play_gateway true race (main 8 8888 3) = Some g /\
    objs (srv (g_threads g)) !! 1 = Some c /\
    messages c = [first_packet; second_packet] /\
    write_queue_ c = [encode true second_packet; encode true first_packet] /\
    arrived (thread 1 (g_threads g)) = stream [first_packet; second_packet].
Proof. vm_compute. eexists _, _. by repeat split. Qed.

(** The answers to one client can overtake each other. *)
Lemma gateway_answers_witness :
  exists g c, reachable_from true (main 8 8888 3) g /\
    objs (srv (g_threads g)) !! 1 = Some c /\
    write_queue_ c = [encode true second_packet; encode true first_packet] /\
    messages c `prefix_of` [first_packet; second_packet] /\ sessions_ (g_sessions g) = ∅.
Proof.
  destruct race_run as (g & c & Hrun & Hc & _ & Hq & Ha). exists g, c.
  pose proof (play_gateway_reachable true _ _ _ Hrun) as Hr.
  destruct (gateway_answers true 8 8888 3 g 1 c Hr Hc) as (_ & _ & Hread & _ & _ & Hm).
  split; [exact Hr|]. split; [exact Hc|]. split; [exact Hq|]. split; [|exact Hm].
  apply Hread; [repeat constructor; by_compute|by rewrite Ha].
Defined.
