(* ===== verification/GatewayClient.v ===== *)
(** * A client of the gateway (example/gateway/gateway.cpp, network/tcp/tcp_client.cpp)

    The gateway of [Gateway], and a [TcpClient] that reads what it sends on a session. *)

From S2P Require Import Prelude ByteOrder Packet ThreadPool PoolProgress SessionMgr TcpClient.
From S2P Require Import TcpConnection TcpServer Router EndToEnd Handlers SessionFrame PlainPool SessionJobs Gateway.

Open Scope Z_scope.

Lemma answer_wf p q : wf_packet p -> answer p = Some q -> wf_packet q.
Proof.
  unfold answer. intros Hp. case_decide; [intros [= <-]; by vm_compute|].
  case_decide; [|done]. intros [= <-]. unfold wf_packet in *. cbn. split; [by vm_compute|apply Hp].
Qed.

Lemma answers_wf ps : Forall wf_packet ps -> Forall wf_packet (omap answer ps).
Proof.
  induction 1 as [|p ps Hp _ IH]; [done|]. cbn. destruct (answer p) as [q|] eqn:E; [|done].
  constructor; [by eapply answer_wf|done].
Qed.

(** C1: A client and the gateway, whatever their threads do.  When what has arrived on a
    session is the start of the bytes of some packets, however cut, then a client that has
    read any part of what was sent back, however cut, has delivered the data of the first
    answers to the packets routed, in the order they were routed, and those are among the
    packets sent, each at most once.  It has the answers to all its packets, in the order of
    the packets if there is one worker, when all bytes have arrived on either side, nothing
    waits for a worker, the writer of the session is running with an empty queue, and the
    session is still in the table with its reader still receiving: that is, the reader has
    seen neither the end of the stream nor EAGAIN.  Once a reader has left, its session is
    erased and [send_to] drops the answers that are still to come; the accepted sockets do
    not block, so that this is what usually happens ([TcpConnection.tcp_reader_end]), and
    then only the first half of the statement applies. *)
Theorem gateway_client hostc host workers port sock g sid c ps chunks cl :
  reachable_from host (main workers port sock) g -> objs (srv (g_threads g)) !! sid = Some c ->
  Forall wf_packet ps -> arrived (thread sid (g_threads g)) `prefix_of` stream ps ->
  connected_ cl = true -> read_thread_ cl = Running -> TcpClient.read_buf_ cl = [] ->
  concat chunks `prefix_of` sent_bytes c ->
  let routed := of_session sid (called (g_pool g)) in
  exists rs y, routed ⊆+ ps /\ rs `prefix_of` omap answer routed /\
    run_client hostc ((fun bs => ReadTurn (Some bs)) <$> chunks) cl =
      Ret (Alive (set_input y (TcpClient.messages cl ++ (data <$> rs)) cl)) /\
    (sid ∈ connections_ (srv (g_threads g)) -> arrived (thread sid (g_threads g)) = stream ps ->
     reader_at (thread sid (g_threads g)) = Receiving ->
     of_session sid (running (workers_ (g_pool g)) ++ tasks_ (g_pool g)) = [] ->
     writer_left (thread sid (g_threads g)) = false -> write_queue_ c = [] ->
     concat chunks = sent_bytes c ->
     rs ≡ₚ omap answer ps /\ (workers = 1%nat -> rs = omap answer ps)).
Proof.
  intros Hrg Hc Hps [r Ha] Hcn Hrd Hb [more Hmore]. cbv zeta.
  pose proof (reachable_ok _ _ _ _ _ Hrg) as Hok.
  destruct (go_sessions _ _ _ _ Hok sid c Hc) as (Hread & Hms & qs & rest & Hp & Hq & E & Hw).
  destruct (Hread ps r Hps (eq_sym Ha)) as (ps' & Eps & Eb & Hinc).
  pose proof (pool_split workers sid _ (go_pool _ _ _ _ Hok)) as Hsplit. rewrite Hms in Hsplit.
  assert (of_session sid (called (g_pool g)) ⊆+ ps) as Hsub.
  { rewrite Eps, Hsplit, <-app_assoc. by apply submseteq_inserts_r. }
  assert (Forall wf_packet (omap answer (of_session sid (called (g_pool g))))) as Hans.
  { apply answers_wf. rewrite Eps in Hps. apply list.Forall_app in Hps as [Hmc _].
    rewrite Hsplit in Hmc. by apply list.Forall_app in Hmc as [? _]. }
  assert (Forall wf_packet qs) as Hqs.
  { destruct Hp as [k Hk]. rewrite Hk in Hans. by apply list.Forall_app in Hans as [? _]. }
  rewrite (stream_encode host qs Hqs), Hmore, <-app_assoc in E.
  destruct (client_reads hostc chunks qs (more ++ rest) cl) as (rs & lost & y & Eqs & Hy & Ey & Hcl);
    [done|done|rewrite Hb; split; [by vm_compute|left; by vm_compute]|done|by rewrite Hb|].
  exists rs, y. split; [exact Hsub|]. split; [|split; [exact Hcl|]].
  { etrans; [|exact Hp]. rewrite Eqs. by eexists. }
  intros Hin Hall Hrv Hwait Hleft Hqe Hsent.
  rewrite (nothing_more _ _ _ Ha Hall), app_nil_r in Eb.
  rewrite (nothing_more _ _ _ Hmore Hsent), Hw, Hqe, !app_nil_r in Ey by done. cbn in Ey.
  rewrite Eqs in Hqs. apply list.Forall_app in Hqs as [_ Hlost].
  assert (lost = []) as -> by by eapply nothing_left.
  rewrite Eps in Hps. apply list.Forall_app in Hps as [_ Hps'].
  assert (ps' = []) as -> by (eapply nothing_left; [by apply Hinc|done|done]).
  rewrite Hwait, app_nil_r in Hsplit. rewrite !app_nil_r in *. subst ps. rewrite <-Eqs, Hq by done.
  split; [by rewrite Hsplit|]. intros Hn. f_equal.
  pose proof (po_order _ _ (go_pool _ _ _ _ Hok) Hn) as Ho. apply (f_equal (of_session sid)) in Ho.
  rewrite of_session_app, Hwait, app_nil_r, Hms in Ho. by rewrite Ho, (po_called _ _ (go_pool _ _ _ _ Hok)).
Qed.

(** ** Instance *)


Lemma race_sent :
  exists g c, play_gateway true (race ++ [GWriter 1 [Took 100]; GWriter 1 [Took 100]]) (main 8 8888 3) = Some g /\
    objs (srv (g_threads g)) !! 1 = Some c /\
    arrived (thread 1 (g_threads g)) = stream [first_packet; second_packet] /\
    sent_bytes c = wire second_packet ++ wire first_packet.
Proof. vm_compute. eexists _, _. by repeat split. Qed.

Lemma gateway_client_witness :
  exists g c rs y, reachable_from true (main 8 8888 3) g /\ objs (srv (g_threads g)) !! 1 = Some c /\
    run_client true [ReadTurn (Some (take 5 (sent_bytes c))); ReadTurn (Some (drop 5 (sent_bytes c)))]
      connected_client = Ret (Alive (set_input y (data <$> rs) connected_client)) /\
    rs `prefix_of` omap answer (of_session 1 (called (g_pool g))).
Proof.
  destruct race_sent as (g & c & Hrun & Hc & Ha & Hs). exists g, c.
  pose proof (play_gateway_reachable true _ _ _ Hrun) as Hr.
  destruct (gateway_client true true 8 8888 3 g 1 c [first_packet; second_packet]
    [take 5 (sent_bytes c); drop 5 (sent_bytes c)] connected_client)
    as (rs & y & _ & Hrs & Hcl & _).
  - exact Hr.
  - exact Hc.
  - repeat constructor; by_compute.
  - by rewrite Ha.
  - reflexivity.
  - reflexivity.
  - reflexivity.
  - cbn [concat]. rewrite app_nil_r. by rewrite take_drop.
  - exists rs, y. split; [exact Hr|]. split; [exact Hc|]. split; [exact Hcl|exact Hrs].
Defined.
