(* ===== verification/ServerExample.v ===== *)
(** * The example server (example/server/main.cpp)

    The whole program: packets become tasks of a pool, and a task logs the packet.  The
    threads of the sessions are those of [Handlers], the pool is that of [ThreadPool], the
    logger with its thread is that of [Logger]; a task takes effect when [execute] returns. *)

From S2P Require Import Prelude.
From stdpp Require Import pretty.
From S2P Require Import Logger.
From S2P Require Import ByteOrder Packet ThreadPool PoolProgress TcpConnection.
From S2P Require Import TcpServer EndToEnd Handlers SessionFrame PlainPool SessionJobs.

Open Scope list_scope.
Open Scope Z_scope.

(** ** The program *)

(** [%04X] of a command. *)
Definition hex_digit (n : Z) : Ascii.ascii :=
  Ascii.ascii_of_nat (Z.to_nat (if n <? 10 then 48 + n else 55 + n)).
Definition hex4 (c : Z) : string :=
  String (hex_digit (c / 4096 mod 16)) (String (hex_digit (c / 256 mod 16))
    (String (hex_digit (c / 16 mod 16)) (String (hex_digit (c mod 16)) EmptyString))).

(** The text a task logs. *)
Definition session_line (sid : Z) (p : Packet) : string :=
  ("session " +:+ pretty sid +:+ " cmd=0x" +:+ hex4 (cmd p) +:+ " data_len=" +:+
   pretty (Z.of_nat (length (data p))))%string.

(** [x_log]: the logger with what became of its entries. *)
Record ExampleServer := { x_threads : Threads; x_pool : Pool job; x_log : Logger * account }.

Definition set_x_threads (th : Threads) (x : ExampleServer) : ExampleServer :=
  {| x_threads := th; x_pool := x_pool x; x_log := x_log x |}.
Definition set_x_pool (p : Pool job) (x : ExampleServer) : ExampleServer :=
  {| x_threads := x_threads x; x_pool := p; x_log := x_log x |}.
Definition set_x_log (l : Logger * account) (x : ExampleServer) : ExampleServer :=
  {| x_threads := x_threads x; x_pool := x_pool x; x_log := l |}.

(** [std::atoi(argv[1])] is [port]; the threads of the pool. *)
Definition server_workers : nat := 4.

Section example.
Context (host : bool) (time_text : string -> Z -> string) (tty : bool -> bool) (opens : string -> bool).

Definition log_step (o : log_op) (x : ExampleServer) : ExampleServer :=
  set_x_log (run_log_op time_text tty opens (x_log x) o) x.

(** [LOG_INFO] of the task; [tick] and [tid] are the time and the thread. *)
Definition log_task (tick tid : Z) (x : ExampleServer) (t : Task job) : ExampleServer :=
  match func_ t with
  | Some (sid, p) => log_step (Log INFO "" (session_line sid p) tick tid) x
  | None => x
  end.

(** The state [main] has set up once [start] has succeeded.  [init("server.log",
    LogLevel::INFO)] matches no declaration; read as the second one with an empty prefix. *)
Definition server_logger (yday : Z) : option Logger := init_dir "server.log" "" INFO DEBUG yday Logger0.

Definition server_main (port sock : Z) (l : Logger) : ExampleServer :=
  {| x_threads :=
       {| srv := snd (start sock true
                   (set_idle_timeout 30000 (set_heartbeat_interval 10000 (new_server port 30000))));
          threads := ∅ |};
     x_pool := Pool0 server_workers; x_log := (l, account0) |}.

(** What the others do to the logger: its own thread, and lines of theirs. *)
Definition other_log (o : log_op) : Prop :=
  match o with ThreadStep | Log _ _ _ _ _ => True | _ => False end.

Inductive example_step : ExampleServer -> ExampleServer -> Prop :=
| xs_thread x o th' :
    (forall sid, o <> ParseTurn sid) -> background o ->
    thread_step host no_calls o (x_threads x) = Ret th' -> example_step x (set_x_threads th' x)
| xs_parse x sid r th' :
    parse_turn host no_calls sid (x_threads x) = Ret th' ->
    (delivered sid (x_threads x) th' <> [] -> mutex_free (x_pool x)) ->
    example_step x
      (set_x_pool (foldl (append_packet r sid) (x_pool x) (delivered sid (x_threads x) th'))
         (set_x_threads th' x))
| xs_pool x l p' tick tid :
    plain_label l = true -> step l (x_pool x) p' ->
    example_step x
      (foldl (log_task tick tid) (set_x_pool p' x) (drop (length (called (x_pool x))) (called p')))
| xs_log x o : other_log o -> example_step x (log_step o x).

Definition example_run : ExampleServer -> ExampleServer -> Prop := rtc example_step.

(** ** The invariant *)

(** What a task has to have logged. *)
Definition task_line (t : Task job) : option string :=
  (fun j : job => vformat_to (session_line j.1 j.2)) <$> func_ t.
Definition task_lines (ts : list (Task job)) : list string := omap task_line ts.

(** The texts of the entries of level INFO. *)
Definition info_texts (es : list LogEntry) : list string :=
  omap (fun e => match level e with INFO => Some (message e) | _ => None end) es.

Lemma info_texts_app es es' : info_texts (es ++ es') = info_texts es ++ info_texts es'.
Proof. apply omap_app. Qed.

#[local] Instance info_texts_perm : Proper ((≡ₚ) ==> (≡ₚ)) info_texts.
Proof. unfold info_texts. solve_proper. Qed.

(** Those let through by the levels, queued or turned away. *)
Definition logged (a : account) : list string := info_texts (enqueued a ++ refused a).

Record lines_ok (executed : list (Task job)) (l : Logger * account) : Prop := {
  li_wf : Logger.wf time_text tty LogFormatter0 (fst l) (snd l);
  li_level : console_level_ (fst l) = INFO;
  li_hook : hook_ (fst l) = None;
  li_lines : task_lines executed ⊆+ logged (snd l);
  li_running : Logger.running_ (fst l) = true;
  li_thread : log_thread_ (fst l) <> NoThread /\ log_thread_ (fst l) <> Finished;
  li_flushed : flushed (snd l) = [];
  li_shown : Forall (fun e : LogEntry * LogLevel => e.2 = INFO) (handled (snd l));
}.

Record example_ok (workers : nat) (executed : list (Task job)) (x : ExampleServer) : Prop := {
  xo_quiet : quiet (x_threads x);
  xo_pool : pool_ok workers (x_pool x);
  xo_lines : lines_ok executed (x_log x);
  xo_sessions : forall sid c, objs (srv (x_threads x)) !! sid = Some c ->
    reads (thread sid (x_threads x)) c /\
    of_session sid (submitted (x_pool x)) = messages c /\
    sent_bytes c = [] /\ concat (write_queue_ c) = [];
  xo_none : forall sid, objs (srv (x_threads x)) !! sid = None ->
    of_session sid (submitted (x_pool x)) = [];
}.

(** A step of the threads. *)
Lemma example_frame workers executed new x th' p' :
  example_ok workers executed x -> quiet th' -> frame new (x_threads x) th' -> pool_ok workers p' ->
  (forall sid, objs (srv th') !! sid = None -> new sid = []) ->
  (forall sid, of_session sid (submitted p') = of_session sid (submitted (x_pool x)) ++ new sid) ->
  (forall sid, objs (srv (x_threads x)) !! sid = None -> new sid = []) ->
  example_ok workers executed {| x_threads := th'; x_pool := p'; x_log := x_log x |}.
Proof.
  intros [Hq Hp Hl Hs Hn] Hq' [Hd Hf] Hp' Hnew' Hsub Hnew. split; cbn; [done..| |].
  - intros sid c' Hc'. rewrite Hsub. destruct (Hf sid c' Hc') as [(c & Hc & Hsf)|(Hc & Hv & Ht)].
    + destruct (Hs sid c Hc) as (Hr & Hms & Hb & Hw).
      destruct (sf_written _ _ _ _ _ _ _ Hsf) as (out & lost & Es & Eq & _).
      rewrite Hw in Eq. symmetry in Eq. apply app_eq_nil in Eq as [Eo [_ Eq]%app_eq_nil].
      split_and!; [by apply (sf_reads _ _ _ _ _ _ _ Hsf)| | |done].
      * by rewrite Hms, (sf_messages _ _ _ _ _ _ _ Hsf).
      * by rewrite Es, Hb, Eo.
    + rewrite (Hn sid Hc), Hnew, Ht by done. destruct Hv as (Em & Eb & Es & Eq). split_and!.
      * intros ps r _ E. exists ps. rewrite Em, Eb. split_and!; [done..|]. intros _.
        split; [by vm_compute|left; by vm_compute].
      * by rewrite Em.
      * by rewrite Es.
      * by rewrite Eq.
  - intros sid Hc'. assert (objs (srv (x_threads x)) !! sid = None) as Hc.
    { destruct (objs (srv (x_threads x)) !! sid) eqn:E; [|done].
      destruct (Hd sid) as [? ?]; [by rewrite E|congruence]. }
    by rewrite Hsub, Hnew, app_nil_r, Hn.
Qed.

(** ** The lines *)

(** A line is let through and is queued or turned away. *)
Lemma log_once l text tick tid :
  console_level_ (fst l) = INFO -> hook_ (fst l) = None ->
  logged (snd (run_log_op time_text tty opens l (Log INFO "" text tick tid))) ≡ₚ
    vformat_to text :: logged (snd l).
Proof.
  intros Hc Hh. destruct l as [l a]. cbn [fst snd] in *. cbn [run_log_op snd].
  unfold entry_of. rewrite Hc, Hh. cbn [level_num]. rewrite Nat.ltb_irrefl. cbn [andb].
  unfold logged. destruct (queue_max_ <=? length (queue_ l))%nat; cbn [enqueued refused];
    rewrite !info_texts_app; cbn.
  - by rewrite app_assoc, (Permutation_app_comm _ [_]).
  - by rewrite (Permutation_app_comm _ [_]).
Qed.

(** Nobody sets a level or a hook, and no line is forgotten. *)
Lemma log_op_keeps o l :
  other_log o ->
  let l' := run_log_op time_text tty opens l o in
  console_level_ (fst l') = console_level_ (fst l) /\ hook_ (fst l') = hook_ (fst l) /\
  logged (snd l) ⊆+ logged (snd l') /\ Logger.running_ (fst l') = Logger.running_ (fst l) /\
  flushed (snd l') = flushed (snd l) /\
  (Logger.running_ (fst l) = true -> log_thread_ (fst l) <> NoThread /\ log_thread_ (fst l) <> Finished ->
   log_thread_ (fst l') <> NoThread /\ log_thread_ (fst l') <> Finished) /\
  (console_level_ (fst l) = INFO -> Forall (fun e : LogEntry * LogLevel => e.2 = INFO) (handled (snd l)) ->
   Forall (fun e : LogEntry * LogLevel => e.2 = INFO) (handled (snd l'))).
Proof.
  intros Ho. destruct l as [l a]. destruct o as [lvl tag text tick tid| | | | | |]; try done; cbn zeta.
  - cbn [run_log_op fst snd]. unfold log, write, enqueue.
    destruct (entry_of lvl tag (vformat_to text) tick tid l) as [e|]; [|done].
    destruct (queue_max_ <=? length (queue_ l))%nat; (split_and!; [done|done| |done..]); unfold logged;
      cbn [enqueued refused snd]; rewrite !info_texts_app.
    + rewrite app_assoc. by apply submseteq_inserts_r.
    + apply submseteq_app; [by apply submseteq_inserts_r|done].
  - cbn [run_log_op fst snd]. unfold Logger.thread_step.
    destruct (log_thread_ l) as [| | |[|e todo] n|] eqn:E; try done; unfold logged; cbn;
      try (by destruct (queue_ l)); (split_and!; try done); try (by intros _ []).
    + by destruct (Logger.running_ l).
    + intros Hc Hall. apply list.Forall_app. by repeat constructor.
Qed.

Lemma lines_ok_other executed o l :
  other_log o -> lines_ok executed l -> lines_ok executed (run_log_op time_text tty opens l o).
Proof.
  intros Ho [Hw Hc Hh Hl Hr Ht Hf Hs]. destruct (log_op_keeps o l Ho) as (Ec & Eh & El & Er & Ef & Et & Es).
  split.
  - destruct l as [l a]. pose proof (run_log_op_wf time_text tty opens _ _ _ o Hw) as Hw'.
    cbn [fst snd] in *. by destruct (run_log_op time_text tty opens (l, a) o).
  - by rewrite Ec.
  - by rewrite Eh.
  - by etrans.
  - by rewrite Er.
  - by apply Et.
  - by rewrite Ef.
  - by apply Es.
Qed.

Lemma task_lines_app ts us : task_lines (ts ++ us) = task_lines ts ++ task_lines us.
Proof. apply omap_app. Qed.

Lemma lines_ok_task executed t tick tid x :
  lines_ok executed (x_log x) -> lines_ok (executed ++ [t]) (x_log (log_task tick tid x t)).
Proof.
  intros Hl. unfold log_task. destruct (func_ t) as [[sid p]|] eqn:Hf.
  - pose proof (lines_ok_other executed (Log INFO "" (session_line sid p) tick tid) _ I Hl) as Hl'.
    cbn [log_step x_log set_x_log]. destruct Hl'. split; try done. rewrite task_lines_app.
    rewrite (log_once (x_log x)) by apply Hl.
    assert (task_lines [t] = [vformat_to (session_line sid p)]) as ->
      by (unfold task_lines, task_line; cbn; by rewrite Hf).
    rewrite Permutation_app_comm. by apply submseteq_skip, Hl.
  - destruct Hl. split; try done. rewrite task_lines_app.
    assert (task_lines [t] = []) as -> by (unfold task_lines, task_line; cbn; by rewrite Hf).
    by rewrite app_nil_r.
Qed.

Lemma log_tasks_frame tick tid ts x :
  x_threads (foldl (log_task tick tid) x ts) = x_threads x /\
  x_pool (foldl (log_task tick tid) x ts) = x_pool x.
Proof.
  revert x. induction ts as [|t ts IH]; intros x; [done|]. cbn [foldl].
  destruct (IH (log_task tick tid x t)) as [-> ->].
  unfold log_task. by destruct (func_ t) as [[sid p]|].
Qed.

Lemma lines_ok_tasks executed ts tick tid x :
  lines_ok executed (x_log x) -> lines_ok (executed ++ ts) (x_log (foldl (log_task tick tid) x ts)).
Proof.
  revert executed x. induction ts as [|t ts IH]; intros executed x Hl; [by rewrite app_nil_r|].
  cbn [foldl]. rewrite (app_assoc _ [t] ts). by apply IH, lines_ok_task.
Qed.

(** ** Every step *)

Lemma example_step_ok workers x x' :
  example_ok workers (called (x_pool x)) x -> example_step x x' ->
  example_ok workers (called (x_pool x')) x'.
Proof.
  intros Hok. destruct 1 as [x o th' Hp Ho Hst|x sid r th' Hst Hf|x l p' tick tid Hl Hst|x o Ho].
  - apply (example_frame workers _ (fun _ => []) x); try done.
    + eapply thread_step_quiet; [apply Hok|done|done].
    + eapply thread_step_frame; [apply Hok|done..].
    + apply Hok.
    + intros k. by rewrite app_nil_r.
  - pose proof (parse_turn_frame host sid _ th' (xo_quiet _ _ _ Hok) Hst) as Hfr.
    destruct (append_packets workers r sid _ (x_pool x) (xo_pool _ _ _ Hok) Hf) as (Hp & Hc & Hs).
    cbn [set_x_pool x_pool]. rewrite Hc.
    eapply (example_frame workers _ _ x); [done| |exact Hfr|done| |done|].
    + eapply (thread_step_quiet host (ParseTurn sid)); [apply Hok|done|exact Hst].
    + intros k Hk. cbn. case_decide as E; [subst k|done]. eapply delivered_none; [done|by right].
    + intros k Hk. cbn. case_decide as E; [subst k|done]. eapply delivered_none; [done|by left].
  - destruct (plain_step workers l _ p' Hl Hst (xo_pool _ _ _ Hok)) as (Hp & Hs & new & Hn).
    rewrite Hn, drop_app_length. destruct (log_tasks_frame tick tid new (set_x_pool p' x)) as [Et Ep].
    destruct Hok as [Hq _ Hli Hse Hno]. split; rewrite ?Et, ?Ep; cbn [set_x_pool x_threads x_pool];
      try done; rewrite ?Hs; try done. rewrite Hn. by apply lines_ok_tasks.
  - destruct Hok as [Hq Hp Hli Hse Hno]. split; try done. by apply lines_ok_other.
Qed.

Lemma server_main_ok port sock yday l :
  server_logger yday = Some l -> example_ok server_workers [] (server_main port sock l).
Proof.
  intros Hl.
  assert (TcpServer.wf (srv (x_threads (server_main port sock l))) /\
    objs (srv (x_threads (server_main port sock l))) = ∅) as [Hwf E].
  { split; [|unfold server_main; cbn [x_threads srv]; unfold start; by destruct (sock =? INVALID_SOCKET)].
    apply (run_server_op_wf host (SrvStart sock true)
      (set_idle_timeout 30000 (set_heartbeat_interval 10000 (new_server port 30000)))); [|done].
    exact (new_server_wf port 30000). }
  injection Hl as <-. split.
  - split; [done|done|]. intros sid. cbn. rewrite lookup_empty. by intros [].
  - apply pool_ok_start.
  - split; try done. split; cbn; try done. lia.
  - intros sid c. by rewrite E, lookup_empty.
  - done.
Qed.

Lemma example_run_ok workers x x' :
  example_run x x' -> example_ok workers (called (x_pool x)) x -> example_ok workers (called (x_pool x')) x'.
Proof. induction 1 as [|x y z Hst _ IH]; [done|]. intros Hx. apply IH. by eapply example_step_ok. Qed.

(** ** Progress *)

(** The log thread can get to where nothing waits for it. *)
Definition log_drains (l : Logger * account) : Prop :=
  exists n, let l' := Nat.iter n (fun l => run_log_op time_text tty opens l ThreadStep) l in
    queue_ (fst l') = [] /\ in_work (fst l') = [].

Lemma log_drains_once l : log_drains (run_log_op time_text tty opens l ThreadStep) -> log_drains l.
Proof. intros [n Hn]. exists (S n). by rewrite Nat.iter_succ_r. Qed.

Lemma log_drains_idle l :
  log_thread_ (fst l) = AtTest \/ log_thread_ (fst l) = AtWait -> queue_ (fst l) = [] -> log_drains l.
Proof. intros Ht Hq. exists 0%nat. cbn. split; [done|]. unfold in_work. by destruct Ht as [-> | ->]. Qed.

Lemma log_drains_batch l b n :
  log_thread_ (fst l) = Logger.Handling b n ->
  (forall l', log_thread_ (fst l') = AtTest -> queue_ (fst l') = queue_ (fst l) ->
     Logger.running_ (fst l') = Logger.running_ (fst l) -> log_drains l') -> log_drains l.
Proof.
  revert l. induction b as [|e b IH]; intros [l a] Ht Hd; apply log_drains_once; cbn [fst] in *.
  - apply Hd; cbn; unfold Logger.thread_step; by rewrite Ht.
  - apply IH; cbn; unfold Logger.thread_step; rewrite Ht; [done|]. cbn. exact Hd.
Qed.

Lemma log_drains_test l :
  log_thread_ (fst l) = AtTest \/ log_thread_ (fst l) = AtWait -> Logger.running_ (fst l) = true -> log_drains l.
Proof.
  assert (forall l, log_thread_ (fst l) = AtWait -> log_drains l) as Hwait.
  { intros [l1 a] Ht. cbn [fst] in Ht. destruct (queue_ l1) as [|e q] eqn:Hq.
    - apply log_drains_idle; auto.
    - apply log_drains_once. apply (log_drains_batch _ (e :: q) (length (e :: q))).
      + cbn. unfold Logger.thread_step. by rewrite Ht, Hq.
      + intros l' Ht' Hq' _. apply log_drains_idle; [by left|]. rewrite Hq'. cbn.
        unfold Logger.thread_step. by rewrite Ht, Hq. }
  intros [Ht|Ht] Hr; [|by apply Hwait]. apply log_drains_once, Hwait. destruct l as [l a].
  cbn in *. unfold Logger.thread_step. by rewrite Ht, Hr.
Qed.

Lemma log_drains_ok executed l : lines_ok executed l -> log_drains l.
Proof.
  intros [_ _ _ _ Hr [Hn Hf] _ _]. destruct (log_thread_ (fst l)) as [| | |b n|] eqn:Et; try done.
  - apply log_drains_test; auto.
  - apply log_drains_test; auto.
  - eapply log_drains_batch; [done|]. intros l' Ht _ Hr'. apply log_drains_test; [by left|congruence].
Qed.

Lemma log_iter_run n x :
  example_run x (set_x_log (Nat.iter n (fun l => run_log_op time_text tty opens l ThreadStep) (x_log x)) x).
Proof.
  induction n as [|n IH]; [destruct x; apply rtc_refl|]. eapply rtc_r; [exact IH|].
  by apply (xs_log (set_x_log _ x) ThreadStep).
Qed.

(** A run of the workers is one of the server. *)
Lemma example_trace ls p p' x :
  Forall (fun l => l = LWorker \/ l = LNotify) ls -> trace ls p p' -> x_pool x = p ->
  exists x', example_run x x' /\ x_pool x' = p' /\ x_threads x' = x_threads x.
Proof.
  intros Hls Ht. revert x. induction Ht as [p|l ls p p1 p2 Hst _ IH]; intros x Hx.
  - exists x. split_and!; [apply rtc_refl|done|done].
  - apply Forall_cons in Hls as [Hl Hls]. rewrite <-Hx in Hst.
    destruct (log_tasks_frame 0 0 (drop (length (called (x_pool x))) (called p1)) (set_x_pool p1 x)) as [Et Ep].
    destruct (IH Hls _ Ep) as (x' & Hr & Hp & Hth). exists x'. split_and!; [|done|by rewrite Hth, Et].
    eapply rtc_l; [|exact Hr]. eapply xs_pool; [|exact Hst]. by destruct Hl as [-> | ->].
Qed.

Lemma example_pool_reachable port sock l x :
  example_run (server_main port sock l) x -> reachable (fun _ => True) server_workers (x_pool x).
Proof.
  intros Hr. refine (rtc_ind_r (fun x => reachable (fun _ => True) server_workers (x_pool x)) _ _ _ x Hr).
  - apply rtc_refl.
  - intros y z _ Hst Hy. destruct Hst as [x0 o th' _ _ _|x0 sid r th' _ Hf|x0 k p' tick tid _ Hst|x0 o _].
    + exact Hy.
    + unfold reachable, steps in *. etrans; [exact Hy|]. by apply append_packets_steps.
    + destruct (log_tasks_frame tick tid (drop (length (called (x_pool x0))) (called p')) (set_x_pool p' x0))
        as [_ ->]. unfold reachable, steps in *. etrans; [exact Hy|]. apply rtc_once. by exists k.
    + exact Hy.
Qed.

(** The text of the line of a packet, as the logger keeps it. *)
Definition packet_line (sid : Z) (p : Packet) : string := vformat_to (session_line sid p).

Lemma session_lines sid ts : packet_line sid <$> of_session sid ts ⊆+ task_lines ts.
Proof.
  induction ts as [|t ts IH]; [done|]. change (t :: ts) with ([t] ++ ts).
  rewrite of_session_app, task_lines_app, fmap_app. apply submseteq_app; [|exact IH].
  unfold of_session, task_lines, task_line. cbn. destruct (func_ t) as [[s p]|]; [|done]. cbn.
  case_decide as E; [by subst s|]. apply submseteq_nil_l.
Qed.

(** The entries of the lines are where the logger keeps entries. *)
Lemma lines_at executed l sid :
  lines_ok executed l ->
  packet_line sid <$> of_session sid executed ⊆+
    info_texts ((handled (snd l)).*1 ++ in_work (fst l) ++ queue_ (fst l) ++ refused (snd l)).
Proof.
  intros [Hw _ _ Hl _ _ Hf _]. etrans; [apply session_lines|]. etrans; [exact Hl|]. unfold logged.
  rewrite (Logger.wf_perm _ _ _ _ _ Hw), Hf. cbn [app]. by rewrite <-!app_assoc.
Qed.

(** The entries of level INFO that were handled are on the console. *)
Lemma infos_shown executed l :
  lines_ok executed l ->
  exists es, info_texts (handled (snd l)).*1 = message <$> es /\
    (console_line time_text tty LogFormatter0 <$> es) `sublist_of` console (fst l).
Proof.
  intros [Hw _ _ _ _ _ _ Hs]. rewrite (wf_console _ _ _ _ _ Hw). clear Hw.
  induction Hs as [|[e lvl] hs Hlvl _ (es & Ees & Hsub)]; [by exists []|]. cbn in Hlvl. subst lvl.
  unfold info_texts in *. cbn. destruct (level e) eqn:El; unfold shown; cbn; rewrite El; cbn;
    try (exists es; split; [done|]; by try apply sublist_cons).
  exists (e :: es). cbn. rewrite <-Ees. split; [done|]. by apply sublist_skip.
Qed.

Lemma example_drains port sock yday l x :
  server_logger yday = Some l -> example_run (server_main port sock l) x -> control_ (x_pool x) = CIdle ->
  exists x', example_run x x' /\ x_threads x' = x_threads x /\
    example_ok server_workers (called (x_pool x')) x' /\
    running (workers_ (x_pool x')) = [] /\ tasks_ (x_pool x') = [] /\
    queue_ (fst (x_log x')) = [] /\ in_work (fst (x_log x')) = [].
Proof.
  intros Hl Hr Hc. pose proof (example_pool_reachable _ _ _ _ Hr) as Hp.
  destruct (comes_to_rest (x_pool x)) as (ls & p' & Hls & Ht & Hrest).
  assert (Forall own ls) as Hown by (eapply Forall_impl; [exact Hls|]; unfold own; tauto).
  destruct (trace_frame _ _ _ Hown Ht) as (_ & _ & _ & Ec).
  pose proof (trace_reachable _ _ _ _ _ Hp Ht) as Hp'.
  destruct (example_trace _ _ _ x Hls Ht eq_refl) as (x1 & Hx1 & Epool & Eth).
  pose proof (example_run_ok server_workers _ _ Hr (server_main_ok port sock yday l Hl)) as Hok.
  pose proof (example_run_ok _ _ _ Hx1 Hok) as Hok1.
  destruct (log_drains_ok _ _ (xo_lines _ _ _ Hok1)) as [n [Hq Hw]].
  pose proof (log_iter_run n x1) as Hn. pose proof (example_run_ok _ _ _ Hn Hok1) as Hok2.
  eexists. split; [etrans; [exact Hx1|exact Hn]|]. cbn [x_threads x_pool x_log set_x_log] in *.
  split_and!; [done|exact Hok2| | |done|done]; rewrite Epool.
  - apply idle_running, rest_idle, Hrest.
  - apply (rest_drained server_workers p' Hp' Hrest).
    eapply idle_staffed; [|exact Hp'|by rewrite Ec]. unfold server_workers. lia.
Qed.
End example.

(** C6: The example server, in every interleaving of its threads: the readers, the four
    workers, the log thread and whoever else logs.  Each packet a session has delivered, in the
    order of the stream, is exactly one of logged by a task and waiting in the pool, and nothing
    is ever sent back.  The line of each logged packet is an entry of its own that is on the
    console, on its way there, or turned away and counted because the logger's queue was full;
    the console shows what the log thread has handled.  As long as the pool is not shut down
    the workers and the log thread can get, by themselves, to where every delivered packet has
    its line on the console or counted. *)
Theorem server_packets_logged host time_text tty opens port sock yday l x sid c :
  server_logger yday = Some l ->
  example_run host time_text tty opens (server_main port sock l) x ->
  objs (srv (x_threads x)) !! sid = Some c ->
  let log := fst (x_log x) in
  let fate := snd (x_log x) in
  let done := of_session sid (called (x_pool x)) in
  messages c ≡ₚ done ++ of_session sid (running (workers_ (x_pool x)) ++ tasks_ (x_pool x)) /\
  (forall ps, Forall wf_packet ps -> arrived (thread sid (x_threads x)) `prefix_of` stream ps ->
     messages c `prefix_of` ps) /\
  sent_bytes c = [] /\ concat (write_queue_ c) = [] /\
  packet_line sid <$> done ⊆+
    info_texts ((handled fate).*1 ++ in_work log ++ queue_ log ++ refused fate) /\
  console log = omap (shown time_text tty LogFormatter0) (handled fate) /\
  dropped_ log = length (refused fate) /\
  (control_ (x_pool x) = CIdle ->
   exists x' es, example_run host time_text tty opens x x' /\ x_threads x' = x_threads x /\
     (console_line time_text tty LogFormatter0 <$> es) `sublist_of` console (fst (x_log x')) /\
     packet_line sid <$> messages c ⊆+
       (message <$> es) ++ info_texts (refused (snd (x_log x')))).
Proof.
  intros Hl Hr Hc. cbv zeta.
  pose proof (example_run_ok _ _ _ _ server_workers _ _ Hr (server_main_ok host _ _ port sock yday l Hl)) as Hok.
  destruct (xo_sessions _ _ _ _ _ Hok sid c Hc) as (Hread & Hms & Hsent & Hq).
  pose proof (xo_lines _ _ _ _ _ Hok) as Hlines. pose proof (li_wf _ _ _ _ Hlines) as Hw.
  split_and!; [|..|apply Hw|apply Hw|].
  - rewrite <-Hms. apply (pool_split server_workers), Hok.
  - intros ps Hps [r Hpre]. destruct (Hread ps r Hps (eq_sym Hpre)) as (ps' & -> & _). by eexists.
  - done.
  - done.
  - by apply (lines_at time_text tty).
  - intros Hidle. destruct (example_drains _ _ _ _ _ _ _ _ _ Hl Hr Hidle)
      as (x' & Hr' & Eth & Hok' & Hrun & Ht & Hlq & Hlw).
    destruct (infos_shown _ _ _ _ (xo_lines _ _ _ _ _ Hok')) as (es & Ees & Hsub).
    exists x', es. split_and!; [done..|].
    pose proof (lines_at time_text tty _ _ sid (xo_lines _ _ _ _ _ Hok')) as Hat.
    rewrite Hlq, Hlw in Hat. cbn [app] in Hat. rewrite info_texts_app, Ees in Hat.
    rewrite <-Eth in Hc. destruct (xo_sessions _ _ _ _ _ Hok' sid c Hc) as (_ & Hms' & _).
    pose proof (pool_split server_workers sid _ (xo_pool _ _ _ _ _ Hok')) as Hsplit.
    rewrite Hrun, Ht, Hms' in Hsplit. cbn [app of_session omap list_omap] in Hsplit.
    rewrite app_nil_r in Hsplit. by rewrite Hsplit.
Qed.

(** ** Schedules *)

(** An executable form of runs: which thread moves. *)
Inductive example_move :=
| XAccept (tick sock : Z)
| XRecv (sid : Z) (r : recv_result)
| XParse (sid : Z) (r : N)
| XCall (sid : Z)
| XWorker (i : nat) (tick tid : Z)
| XLogThread.

Section schedules.
Context (host : bool) (time_text : string -> Z -> string) (tty : bool -> bool) (opens : string -> bool).

Definition play_thread_op (o : thread_op) (x : ExampleServer) : option ExampleServer :=
  match thread_step host no_calls o (x_threads x) with
  | Ret th' => Some (set_x_threads th' x)
  | _ => None
  end.

Definition play_example_move (m : example_move) (x : ExampleServer) : option ExampleServer :=
  match m with
  | XAccept tick sock => play_thread_op (ServerOp (SrvAccept false tick sock)) x
  | XRecv sid r => play_thread_op (RecvTurn sid r) x
  | XCall sid => play_thread_op (CallTurn sid) x
  | XParse sid r =>
      match parse_turn host no_calls sid (x_threads x) with
      | Ret th' =>
          if bool_decide (mutex_free (x_pool x)) then
            Some (set_x_pool (foldl (append_packet r sid) (x_pool x) (delivered sid (x_threads x) th'))
                    (set_x_threads th' x))
          else None
      | _ => None
      end
  | XWorker i tick tid =>
      match play_move (MWorker i) (x_pool x) with
      | Some p' =>
          Some (foldl (log_task time_text tty opens tick tid) (set_x_pool p' x)
                  (drop (length (called (x_pool x))) (called p')))
      | None => None
      end
  | XLogThread => Some (log_step time_text tty opens ThreadStep x)
  end.

Fixpoint play_example (ms : list example_move) (x : ExampleServer) : option ExampleServer :=
  match ms with
  | [] => Some x
  | m :: ms' => match play_example_move m x with Some x' => play_example ms' x' | None => None end
  end.

Lemma play_thread_op_step o x x' :
  (forall sid, o <> ParseTurn sid) -> background o -> play_thread_op o x = Some x' ->
  example_step host time_text tty opens x x'.
Proof.
  intros Hp Ho. unfold play_thread_op. destruct (thread_step _ _ _ _) as [th'| |] eqn:E; try done.
  intros [= <-]. by eapply xs_thread.
Qed.

Lemma play_worker_step i (p p' : Pool job) : play_move (MWorker i) p = Some p' -> step LWorker p p'.
Proof.
  cbn. destruct (drop i (workers_ p)) as [|ph ws2] eqn:E; [done|].
  destruct (worker_step ph p) as [[ph' p1]|] eqn:Hp; [|done]. intros [= <-].
  eapply step_worker; [|done]. by rewrite <-E, take_drop.
Qed.

Lemma play_example_step m x x' :
  play_example_move m x = Some x' -> example_step host time_text tty opens x x'.
Proof.
  destruct m as [tick sock|sid r|sid r|sid|i tick tid|]; cbn [play_example_move];
    try by (apply play_thread_op_step; [by intros ?|]).
  - destruct (parse_turn _ _ _ _) as [th'| |] eqn:E; try done. case_bool_decide; [|done].
    intros [= <-]. by apply xs_parse.
  - destruct (play_move (MWorker i) (x_pool x)) as [p'|] eqn:E; [|done]. intros [= <-].
    apply (xs_pool _ _ _ _ x LWorker); [done|by apply (play_worker_step i)].
  - intros [= <-]. by apply xs_log.
Qed.

Lemma play_example_run ms x x' : play_example ms x = Some x' -> example_run host time_text tty opens x x'.
Proof.
  revert x. induction ms as [|m ms IH]; intros x; cbn [play_example].
  - intros [= <-]. apply rtc_refl.
  - destruct (play_example_move m x) as [x1|] eqn:E; [|done]. intros H.
    eapply rtc_l; [by eapply play_example_step|by apply IH].
Qed.
End schedules.

(** A packet arrives, a worker logs it and the log thread writes the line. *)
Definition sample_packet : Packet := mkPacket 4 [x68; x69].
Definition sample_run : list example_move :=
  [XAccept 100 7; XRecv 1 (Bytes 110 (wire sample_packet)); XParse 1 1;
   XWorker 0 0 0; XWorker 0 0 0; XWorker 0 1000 7; XLogThread; XLogThread; XLogThread].

Definition now (fmt : string) (t : Z) : string := "now"%string.

Definition sample_logger : Logger := match server_logger 42 with Some l => l | None => Logger0 end.

Lemma sample_run_shows :
  exists x c,
    play_example true now (fun _ => false) (fun _ => false) sample_run (server_main 8080 3 sample_logger) = Some x /\
    objs (srv (x_threads x)) !! 1 = Some c /\ messages c = [sample_packet] /\
    console (fst (x_log x)) =
      [(false, "now [INFO ] [T7] session 1 cmd=0x0004 data_len=2" +:+ newline)%string].
Proof. vm_compute. eexists _, _. by repeat split. Qed.

Lemma server_packets_logged_witness :
  exists l x c, server_logger 42 = Some l /\
    example_run true now (fun _ => false) (fun _ => false) (server_main 8080 3 l) x /\
    objs (srv (x_threads x)) !! 1 = Some c /\
    console (fst (x_log x)) = omap (shown now (fun _ => false) LogFormatter0) (handled (snd (x_log x))) /\
    sent_bytes c = [].
Proof.
  assert (server_logger 42 = Some sample_logger) as Hl by reflexivity.
  destruct sample_run_shows as (x & c & Hrun & Hc & _). exists sample_logger, x, c.
  pose proof (play_example_run _ _ _ _ _ _ _ Hrun) as Hr.
  destruct (server_packets_logged true now (fun _ => false) (fun _ => false) 8080 3 42
    sample_logger x 1 c Hl Hr Hc)
    as (_ & _ & Hs & _ & _ & Hcon & _).
  split; [exact Hl|]. split; [exact Hr|]. split; [exact Hc|]. split; [exact Hcon|exact Hs].
Defined.
