(* ===== verification/Platform.v ===== *)
(** * Platform and time (adapter/platform.h, platform.cpp, base/time; Linux)

    The wrappers around system calls: the kernel is a parameter, a state [W] and one
    function for each call made.  The clocks are the structures the calls fill in. *)

From S2P Require Import Prelude ByteOrder.

Open Scope Z_scope.

(** ** The kernel *)

Class Kernel (W : Type) := {
  k_close : Z -> W -> Z * W;
  k_getfl : Z -> W -> Z * W;
  k_setfl : Z -> Z -> W -> Z * W;
  k_setsockopt : Z -> Z -> Z -> Z -> W -> Z * W;
  k_bind : Z -> list byte -> W -> Z * W;
  k_listen : Z -> Z -> W -> Z * W;
  k_accept : Z -> W -> Z * W;
  k_open : string -> Z -> Z -> W -> Z * W;
  k_read : Z -> Z -> W -> (Z * list byte) * W;
  k_write : Z -> list byte -> W -> Z * W;
  k_lseek : Z -> Z -> Z -> W -> Z * W;
  k_eventfd : Z -> Z -> W -> Z * W;
  k_timerfd : Z -> Z -> W -> Z * W;
}.

(** The constants of the system headers. *)
Definition INVALID_SOCKET : Z := -1.
Definition O_RDONLY : Z := 0.
Definition O_WRONLY : Z := 1.
Definition O_RDWR : Z := 2.
Definition O_ACCMODE : Z := 3.
Definition O_CREAT : Z := 0x40.
Definition O_TRUNC : Z := 0x200.
Definition O_NONBLOCK : Z := 0x800.
Definition O_CLOEXEC : Z := 0x80000.
Definition SOL_SOCKET : Z := 1.
Definition SO_REUSEADDR : Z := 2.
Definition IPPROTO_TCP : Z := 6.
Definition TCP_NODELAY : Z := 1.
Definition AF_INET : Z := 2.
Definition SOMAXCONN : Z := 4096.
Definition SEEK_CUR : Z := 1.
Definition CLOCK_MONOTONIC : Z := 1.

Section platform.
Context {W : Type} `{Kernel W}.

(** ** Sockets *)

Definition close_socket (sock : Z) (w : W) : Z * W :=
  if sock =? INVALID_SOCKET then (0, w) else k_close sock w.

Definition set_nonblocking (sock : Z) (w : W) : Z * W :=
  let '(flags, w1) := k_getfl sock w in
  if flags <? 0 then (-1, w1) else k_setfl sock (Z.lor flags O_NONBLOCK) w1.

Definition set_reuseaddr (sock : Z) (w : W) : Z * W :=
  k_setsockopt sock SOL_SOCKET SO_REUSEADDR 1 w.

Definition set_nodelay (sock : Z) (w : W) : Z * W :=
  k_setsockopt sock IPPROTO_TCP TCP_NODELAY 1 w.

(** [htons] of the C library: the object with the bytes of [v] in network order. *)
Definition libc_htons (host_le : bool) (v : Z) : Z := mem_val host_le (be_bytes 2 v).

(** The sixteen bytes of the [sockaddr_in]; the port is cast to [u_short] first. *)
Definition sockaddr (host_le : bool) (port : Z) : list byte :=
  mem_bytes host_le 2 AF_INET ++ mem_bytes host_le 2 (libc_htons host_le (u16 port)) ++
  mem_bytes host_le 4 0 ++ replicate 8 x00.

Definition bind_and_listen (host_le : bool) (sock port : Z) (w : W) : Z * W :=
  let '(rc, w1) := k_bind sock (sockaddr host_le port) w in
  if rc <? 0 then (-1, w1)
  else
    let '(rc, w2) := k_listen sock SOMAXCONN w1 in
    if rc <? 0 then (-1, w2) else (0, w2).

Definition accept_connection (server_sock : Z) (w : W) : Z * W := k_accept server_sock w.

(** ** Files *)

Definition file_oflag (flags : Z) : Z :=
  let oflag := 0 in
  let oflag := if Z.land flags 0x01 =? 0 then oflag else Z.lor oflag O_RDONLY in
  let oflag := if Z.land flags 0x02 =? 0 then oflag else Z.lor oflag O_WRONLY in
  let oflag := if Z.land flags 0x04 =? 0 then oflag else Z.lor oflag O_RDWR in
  if Z.land flags 0x40 =? 0 then oflag else Z.lor oflag (Z.lor O_CREAT O_TRUNC).

Definition file_open (path : string) (flags : Z) (w : W) : Z * W :=
  k_open path (file_oflag flags) 420 w.

Definition file_close (fd : Z) (w : W) : Z * W := k_close fd w.

(** The result of [read] is cast to [int]. *)
Definition file_read (fd len : Z) (w : W) : (Z * list byte) * W :=
  let '((n, bs), w1) := k_read fd len w in ((i32 n, bs), w1).

Definition file_write (fd : Z) (bs : list byte) (w : W) : Z * W :=
  let '(n, w1) := k_write fd bs w in (i32 n, w1).

Definition file_seek (fd off whence : Z) (w : W) : Z * W := k_lseek fd off whence w.
Definition file_tell (fd : Z) (w : W) : Z * W := file_seek fd 0 SEEK_CUR w.

(** ** Descriptors *)

Definition close_fd (fd : Z) (w : W) : Z * W := if fd <? 0 then (0, w) else k_close fd w.

Definition create_eventfd (w : W) : Z * W := k_eventfd 0 (Z.lor O_NONBLOCK O_CLOEXEC) w.
Definition create_timerfd (w : W) : Z * W :=
  k_timerfd CLOCK_MONOTONIC (Z.lor O_NONBLOCK O_CLOEXEC) w.
End platform.

(** ** Clocks

    A [timespec] or [timeval] is the pair of its fields. *)

Definition get_tick_ms (ts : Z * Z) : Z := u64 (u64 (u64 ts.1 * 1000) + Z.quot ts.2 1000000).
Definition get_tick_us (ts : Z * Z) : Z := u64 (u64 (u64 ts.1 * 1000000) + Z.quot ts.2 1000).
Definition get_real_time_ms (tv : Z * Z) : Z := i64 (i64 (tv.1 * 1000) + Z.quot tv.2 1000).

(** [base/time]: the second clock is read by [gettimeofday], [now_milliseconds] reads the
    monotonic one. *)
Definition now_seconds (t : Z) : Z := i64 t.
Definition now_milliseconds (ts : Z * Z) : Z := i64 (get_tick_ms ts).
Definition now_microseconds (tv : Z * Z) : Z := i64 (i64 (tv.1 * 1000000) + tv.2).

(** [format_timestamp]: [localtime_r] gives [None] for a time it cannot convert, and
    then leaves [tm_buf] as it is; [strftime] writes the expansion of the format when it
    fits with its terminator into the 64 bytes, and otherwise leaves them
    indeterminate. *)
Definition format_timestamp {TM} (localtime_r : Z -> option TM) (strftime : string -> TM -> string)
    (ts : Z) (fmt : string) : outcome string :=
  match localtime_r ts with
  | None => Undef
  | Some tm =>
      let text := strftime fmt tm in
      if (String.length text <? 64)%nat then Ret text else Undef
  end.

Definition format_now {TM} (localtime_r : Z -> option TM) (strftime : string -> TM -> string)
    (t : Z) (fmt : string) : outcome string :=
  format_timestamp localtime_r strftime (now_seconds t) fmt.

(** [time::sleep_ms] passes its argument on as an [int]. *)
Definition sleep_ms_arg (ms : Z) : Z := i32 ms.

(** ** Sockets and files: lemmas *)

(** The address names the low sixteen bits of the port, in network order, on a host of
    either endianness: a port outside 0..65535 is not refused but wraps around. *)
Lemma sockaddr_port host_le port :
  slice 2 2 (sockaddr host_le port) = Some (be_bytes 2 (port mod 2 ^ 16)) /\
  zlen (sockaddr host_le port) = 16.
Proof.
  assert (mem_bytes host_le 2 (libc_htons host_le (u16 port)) = be_bytes 2 (port mod 2 ^ 16)) as E.
  { unfold libc_htons, mem_bytes, mem_val. destruct host_le.
    - by rewrite <-(length_be_bytes 2 (u16 port)), le_bytes_val at 1.
    - by rewrite <-(length_be_bytes 2 (u16 port)), be_bytes_val at 1. }
  unfold sockaddr. rewrite E. split.
  - apply slice_app; [|by rewrite zlen_be_bytes]. by destruct host_le.
  - rewrite !zlen_app, zlen_be_bytes. by destruct host_le.
Qed.

(** One of the access flags gives the mode asked for; reading and writing asked for with
    the two single flags gives a descriptor that can only write. *)
Lemma file_oflag_mode :
  Z.land (file_oflag 0x01) O_ACCMODE = O_RDONLY /\
  Z.land (file_oflag 0x02) O_ACCMODE = O_WRONLY /\
  Z.land (file_oflag 0x04) O_ACCMODE = O_RDWR /\
  Z.land (file_oflag (Z.lor 0x01 0x02)) O_ACCMODE = O_WRONLY.
Proof. done. Qed.

(** ** The clocks agree *)

(** The structures the kernel fills in, for the next 278 000 years. *)
Definition normal (units : Z) (ts : Z * Z) : Prop := 0 <= ts.1 < 2 ^ 43 /\ 0 <= ts.2 < units.
Definition nanoseconds (ts : Z * Z) : Z := ts.1 * 10 ^ 9 + ts.2.

Lemma get_tick_ms_spec ts : normal (10 ^ 9) ts -> get_tick_ms ts = nanoseconds ts / 10 ^ 6.
Proof.
  destruct ts as [s n]. unfold normal, get_tick_ms, nanoseconds. cbn [fst snd]. intros [Hs Hn].
  rewrite Z.quot_div_nonneg, (u64_small s), (u64_small (s * _)) by lia.
  rewrite u64_small; Z.to_euclidean_division_equations; lia.
Qed.

Lemma get_tick_us_spec ts : normal (10 ^ 9) ts -> get_tick_us ts = nanoseconds ts / 10 ^ 3.
Proof.
  destruct ts as [s n]. unfold normal, get_tick_us, nanoseconds. cbn [fst snd]. intros [Hs Hn].
  rewrite Z.quot_div_nonneg, (u64_small s), (u64_small (s * _)) by lia.
  rewrite u64_small; Z.to_euclidean_division_equations; lia.
Qed.

Lemma wall_clock_spec tv :
  normal (10 ^ 6) tv ->
  now_microseconds tv = tv.1 * 10 ^ 6 + tv.2 /\
  get_real_time_ms tv = now_microseconds tv / 1000 /\
  now_seconds tv.1 = now_microseconds tv / 10 ^ 6.
Proof.
  destruct tv as [s n]. unfold normal, now_microseconds, get_real_time_ms, now_seconds.
  cbn [fst snd]. intros [Hs Hn].
  rewrite Z.quot_div_nonneg, (i64_small s), !(i64_small (s * _)) by lia.
  rewrite !i64_small by (Z.to_euclidean_division_equations; lia).
  Z.to_euclidean_division_equations; lia.
Qed.

(** The clocks agree with each other and do not overflow before the year 270 000: the
    two monotonic ticks are the time of the clock in whole milliseconds and microseconds,
    never decrease, and measure any interval to within one unit; the three readings of
    the wall clock are one time in seconds, milliseconds and microseconds.
    [time::now_milliseconds] is the monotonic tick, not the wall clock of its
    neighbours. *)
Theorem platform_clocks (ts ts' tv : Z * Z) :
  normal (10 ^ 9) ts -> normal (10 ^ 9) ts' -> normal (10 ^ 6) tv ->
  nanoseconds ts <= nanoseconds ts' ->
  get_tick_ms ts = nanoseconds ts / 10 ^ 6 /\
  get_tick_us ts = nanoseconds ts / 10 ^ 3 /\
  get_tick_ms ts = get_tick_us ts / 1000 /\
  get_tick_ms ts <= get_tick_ms ts' /\
  Z.abs (10 ^ 6 * (get_tick_ms ts' - get_tick_ms ts) - (nanoseconds ts' - nanoseconds ts)) < 10 ^ 6 /\
  get_real_time_ms tv = now_microseconds tv / 1000 /\
  now_seconds tv.1 = now_microseconds tv / 10 ^ 6 /\
  now_milliseconds ts = get_tick_ms ts.
Proof.
  intros H1 H2 H3 Hle. destruct (wall_clock_spec tv H3) as (_ & E1 & E2).
  assert (0 <= nanoseconds ts < 2 ^ 43 * 10 ^ 9)
    by (destruct H1; unfold nanoseconds; lia).
  unfold now_milliseconds. rewrite !get_tick_ms_spec, get_tick_us_spec by done.
  split_and!; try done; try (Z.to_euclidean_division_equations; lia).
  apply i64_small. Z.to_euclidean_division_equations; lia.
Qed.

Lemma platform_clocks_witness :
  get_tick_ms (12, 345678901) = get_tick_us (12, 345678901) / 1000 /\
  now_seconds 1767225600 = now_microseconds (1767225600, 5) / 10 ^ 6.
Proof.
  assert (normal (10 ^ 9) (12, 345678901) /\ normal (10 ^ 9) (12, 345678902) /\
          normal (10 ^ 6) (1767225600, 5)) as (H1 & H2 & H3) by (unfold normal; cbn; lia).
  pose proof (platform_clocks _ _ _ H1 H2 H3 ltac:(unfold nanoseconds; cbn; lia))
    as (_ & _ & A & _ & _ & _ & B & _).
  split; [exact A|exact B].
Defined.

(** What a caller may rely on: a socket that [fcntl] can read and set becomes
    non-blocking and keeps its other flags. *)
Section nonblocking.
Context {W : Type} `{Kernel W} (flags_of : W -> Z -> option Z).
Hypothesis getfl_spec : forall fd w,
  k_getfl fd w = (default (-1) (flags_of w fd), w).
Hypothesis setfl_spec : forall fd fl w,
  flags_of w fd <> None ->
  fst (k_setfl fd fl w) = 0 /\ flags_of (snd (k_setfl fd fl w)) fd = Some fl.
Hypothesis flags_nonneg : forall w fd fl, flags_of w fd = Some fl -> 0 <= fl.

Lemma set_nonblocking_spec fd w :
  let '(rc, w') := set_nonblocking fd w in
  match flags_of w fd with
  | None => rc = -1 /\ w' = w
  | Some fl => rc = 0 /\ flags_of w' fd = Some (Z.lor fl O_NONBLOCK)
  end.
Proof.
  unfold set_nonblocking. rewrite getfl_spec. destruct (flags_of w fd) as [fl|] eqn:E; cbn; [|done].
  rewrite (proj2 (Z.ltb_ge _ _)) by by eapply flags_nonneg.
  pose proof (setfl_spec fd (Z.lor fl O_NONBLOCK) w ltac:(by rewrite E)).
  by destruct (k_setfl _ _ _).
Qed.
End nonblocking.
