(* ===== verification/SignalHandler.v ===== *)
(** * SignalHandler (base/process/signal_handler.h, signal_handler.cpp, Linux)

    The shutdown flag, the callbacks of an orderly shutdown, and what becomes of the
    signals of the process once [start] has installed its handler. *)

From S2P Require Import Prelude.

Inductive Signal := SIG_INT | SIG_TERM | SIG_HUP | SIG_QUIT | SIG_USR1 | SIG_USR2.

#[global] Instance Signal_eq_dec : EqDecision Signal.
Proof. solve_decision. Defined.

(** What the process does when a signal arrives: the default action, which ends it for
    each of the six, or the function of [start], whose body is empty. *)
Inductive disposition := DefaultAction | EmptyHandler.

Section handler.
(** [CB] is the type of non-empty [std::function] values. *)
Context {CB : Type}.

Record SignalHandler := {
  shutdown_requested_ : bool;
  shutdown_callbacks_ : list (option CB);
  dispositions : Signal -> disposition;
}.

Definition SignalHandler0 : SignalHandler :=
  {| shutdown_requested_ := false; shutdown_callbacks_ := [];
     dispositions := fun _ => DefaultAction |}.

(** [on_signal] discards both of its arguments. *)
Definition on_signal (sig : Signal) (cb : option CB) (s : SignalHandler) : SignalHandler := s.

Definition on_shutdown (cb : option CB) (s : SignalHandler) : SignalHandler :=
  {| shutdown_requested_ := shutdown_requested_ s;
     shutdown_callbacks_ := shutdown_callbacks_ s ++ [cb];
     dispositions := dispositions s |}.

Definition sigaction (sig : Signal) (f : Signal -> disposition) : Signal -> disposition :=
  fun sig' => if decide (sig' = sig) then EmptyHandler else f sig'.

Definition start (s : SignalHandler) : SignalHandler :=
  {| shutdown_requested_ := shutdown_requested_ s;
     shutdown_callbacks_ := shutdown_callbacks_ s;
     dispositions := sigaction SIG_HUP (sigaction SIG_TERM (sigaction SIG_INT (dispositions s))) |}.

Definition request_shutdown (s : SignalHandler) : SignalHandler :=
  if shutdown_requested_ s then s
  else {| shutdown_requested_ := true; shutdown_callbacks_ := shutdown_callbacks_ s;
          dispositions := dispositions s |}.

Definition is_shutting_down (s : SignalHandler) : bool := shutdown_requested_ s.

(** A signal arrives: [None] when its default action ends the process. *)
Definition deliver (sig : Signal) (s : SignalHandler) : option SignalHandler :=
  match dispositions s sig with
  | DefaultAction => None
  | EmptyHandler => Some s
  end.

(** What a callback does: it may use the handler it is registered with, whose mutex is
    free while it runs. *)
Variable exec : CB -> SignalHandler -> cb_end * SignalHandler.

(** Calling an empty function throws [std::bad_function_call]. *)
Definition call (cb : option CB) (s : SignalHandler) : cb_end * SignalHandler :=
  match cb with None => (CbStdException, s) | Some c => exec c s end.

(** The calls made, each with its end, and the handler. *)
Fixpoint run_callbacks (callbacks : list (option CB)) (s : SignalHandler)
    : list (option CB * cb_end) * SignalHandler :=
  match callbacks with
  | [] => ([], s)
  | cb :: callbacks' =>
      match call cb s with
      | (CbOther, s') => ([(cb, CbOther)], s')
      | (e, s') => let '(calls, s'') := run_callbacks callbacks' s' in ((cb, e) :: calls, s'')
      end
  end.

Definition cb_end_foreign (e : cb_end) : bool :=
  match e with CbOther => true | _ => false end.

(** [invoke_shutdown]: the calls made, the result, the handler. *)
Definition invoke_shutdown (s : SignalHandler)
    : list (option CB * cb_end) * outcome unit * SignalHandler :=
  let '(calls, s') := run_callbacks (shutdown_callbacks_ s) s in
  (calls, if existsb (fun c => cb_end_foreign (snd c)) calls then Throw else Ret tt, s').

(** ** The process *)

Inductive signal_op :=
| OnSignal (sig : Signal) (cb : option CB)
| OnShutdown (cb : option CB)
| Start
| RequestShutdown
| InvokeShutdown
| Arrives (sig : Signal).

(** [None]: the process has ended, by a signal or by an exception nobody catches. *)
Definition run_op (o : signal_op) (s : SignalHandler) : option SignalHandler :=
  match o with
  | OnSignal sig cb => Some (on_signal sig cb s)
  | OnShutdown cb => Some (on_shutdown cb s)
  | Start => Some (start s)
  | RequestShutdown => Some (request_shutdown s)
  | InvokeShutdown =>
      match invoke_shutdown s with
      | (_, Ret _, s') => Some s'
      | _ => None
      end
  | Arrives sig => deliver sig s
  end.

Fixpoint run_ops (os : list signal_op) (s : SignalHandler) : option SignalHandler :=
  match os with
  | [] => Some s
  | o :: os' => s' ← run_op o s; run_ops os' s'
  end.

(** [wait_for_shutdown] while other threads and signals do [turns], one list of
    operations for each sleep of ten milliseconds: the number of turns left when it
    returns, [None] as long as it has not. *)
Fixpoint wait_for_shutdown (turns : list (list signal_op)) (s : SignalHandler) : option nat :=
  if shutdown_requested_ s then Some (length turns)
  else match turns with
       | [] => None
       | t :: turns' => s' ← run_ops t s; wait_for_shutdown turns' s'
       end.
End handler.

Arguments SignalHandler : clear implicits.
Arguments signal_op : clear implicits.

(** ** Lemmas *)

Section handler_lemmas.
Context {CB : Type} (exec : CB -> SignalHandler CB -> cb_end * SignalHandler CB).
Implicit Types s : SignalHandler CB.

(** The handler after the callbacks of [calls] have run one after the other. *)
Definition after (cbs : list (option CB)) (s : SignalHandler CB) : SignalHandler CB :=
  foldl (fun s cb => snd (call exec cb s)) s cbs.

Lemma run_callbacks_spec cbs s :
  let '(calls, s') := run_callbacks exec cbs s in
  s' = after calls.*1 s /\
  (if existsb (fun c => cb_end_foreign (snd c)) calls
   then exists pre cb rest, cbs = pre ++ cb :: rest /\ calls.*1 = pre ++ [cb] /\
          fst (call exec cb (after pre s)) = CbOther
   else calls.*1 = cbs).
Proof.
  revert s. induction cbs as [|cb cbs IH]; intros s; [done|]. cbn [run_callbacks].
  destruct (call exec cb s) as [e s1] eqn:E.
  destruct (decide (e = CbOther)) as [->|He].
  - split; [by unfold after; cbn; rewrite E|]. exists [], cb, cbs. cbn. by rewrite E.
  - specialize (IH s1). destruct (run_callbacks exec cbs s1) as [calls s2].
    assert (s2 = after (cb :: calls.*1) s /\
      (if existsb (fun c => cb_end_foreign (snd c)) calls
       then exists pre cb0 rest, cb :: cbs = pre ++ cb0 :: rest /\
              cb :: calls.*1 = pre ++ [cb0] /\ fst (call exec cb0 (after pre s)) = CbOther
       else cb :: calls.*1 = cb :: cbs)) as [H1 H2].
    { destruct IH as [-> IH]. unfold after. cbn [foldl]. rewrite E. split; [done|].
      destruct (existsb _ _); [|by rewrite IH].
      destruct IH as (pre & cb0 & rest & -> & -> & H). exists (cb :: pre), cb0, rest.
      split_and!; [done..|]. cbn [foldl]. by rewrite E. }
    destruct e; [| |done]; done.
Qed.

(** Callbacks and steps that leave the flag alone. *)
Definition quiet_op (o : signal_op CB) : Prop :=
  match o with RequestShutdown => False | _ => True end.

Section quiet.
Hypothesis exec_quiet : forall cb s,
  shutdown_requested_ s = false -> shutdown_requested_ (snd (exec cb s)) = false.

Lemma after_quiet cbs s :
  shutdown_requested_ s = false -> shutdown_requested_ (after cbs s) = false.
Proof.
  unfold after. revert s. induction cbs as [|[cb|] cbs IH]; intros s Hs; cbn; [done| |].
  - apply IH, exec_quiet, Hs.
  - by apply IH.
Qed.

Lemma run_op_quiet o s s' :
  quiet_op o -> shutdown_requested_ s = false -> run_op exec o s = Some s' ->
  shutdown_requested_ s' = false.
Proof.
  intros Ho Hs. destruct o as [? ?|?| | | |sig]; cbn; try (by intros [= <-]).
  - unfold invoke_shutdown. pose proof (run_callbacks_spec (shutdown_callbacks_ s) s) as H.
    destruct (run_callbacks _ _ _) as [calls s1]. destruct H as [-> _].
    destruct (existsb _ _); intros [= <-]. by apply after_quiet.
  - unfold deliver. destruct (dispositions s sig); intros [= <-]. done.
Qed.

Lemma run_ops_quiet os s s' :
  Forall quiet_op os -> shutdown_requested_ s = false -> run_ops exec os s = Some s' ->
  shutdown_requested_ s' = false.
Proof.
  intros Ho. revert s. induction Ho as [|o os Ho _ IH]; intros s Hs; cbn; [by intros [= <-]|].
  destruct (run_op exec o s) as [s1|] eqn:E; cbn; [|done]. apply IH. by eapply run_op_quiet.
Qed.
End quiet.

(** The callbacks registered by a list of operations. *)
Definition registered (os : list (signal_op CB)) : list (option CB) :=
  omap (fun o => match o with OnShutdown cb => Some cb | _ => None end) os.

Definition plain_op (o : signal_op CB) : Prop :=
  match o with InvokeShutdown => False | Arrives _ => False | _ => True end.

Lemma run_ops_plain os s :
  Forall plain_op os ->
  exists s', run_ops exec os s = Some s' /\
    shutdown_callbacks_ s' = shutdown_callbacks_ s ++ registered os.
Proof.
  intros Ho. revert s. induction Ho as [|o os Ho _ IH]; intros s.
  - exists s. by rewrite app_nil_r.
  - assert (exists s1, run_op exec o s = Some s1 /\
      shutdown_callbacks_ s1 = shutdown_callbacks_ s ++ registered [o]) as (s1 & E & H1).
    { destruct o; try done; eexists; (split; [done|]); cbn; rewrite ?app_nil_r; try done.
      unfold request_shutdown. by destruct (shutdown_requested_ s). }
    destruct (IH s1) as (s' & E' & H'). exists s'. cbn. rewrite E, H', H1. cbn. split; [done|].
    rewrite <-app_assoc. f_equal. by destruct o.
Qed.
End handler_lemmas.

(** ** The shutdown is orderly *)

(** After any registrations and calls of [start] and [request_shutdown], the
    callbacks registered are kept in the order of their registration, and
    [invoke_shutdown] calls each of them once in that order, whatever they do with the
    handler and whichever of them throw a [std::exception]: what they register in the
    meantime is not called.  It returns exactly when none threw something else; such an
    exception propagates and the callbacks after it are never called. *)
Theorem signal_shutdown_order {CB} (exec : CB -> SignalHandler CB -> cb_end * SignalHandler CB)
    (os : list (signal_op CB)) (s s' : SignalHandler CB) :
  Forall plain_op os -> run_ops exec os s = Some s' ->
  let cbs := shutdown_callbacks_ s ++ registered os in
  let '(calls, r, s'') := invoke_shutdown exec s' in
  shutdown_callbacks_ s' = cbs /\ s'' = after exec calls.*1 s' /\
  match r with
  | Ret _ => calls.*1 = cbs /\ Forall (fun c => snd c <> CbOther) calls
  | Throw => exists pre cb rest, cbs = pre ++ cb :: rest /\ calls.*1 = pre  ++ [cb] /\
      fst (call exec cb (after exec pre s')) = CbOther
  | Undef => False
  end.
Proof.
  intros Ho Hs. destruct (run_ops_plain exec os s Ho) as (x & E & Hcb).
  rewrite Hs in E. injection E as <-. unfold invoke_shutdown.
  pose proof (run_callbacks_spec exec (shutdown_callbacks_ s') s') as H.
  destruct (run_callbacks _ _ _) as [calls s1]. destruct H as [-> H].
  rewrite <-Hcb. split_and!; [done..|].
  destruct (existsb _ calls) eqn:Ex; [done|]. split; [done|].
  rewrite <-not_true_iff_false, existsb_exists in Ex. apply list.Forall_forall.
  intros c Hc He. apply Ex. exists c. split; [by apply list_elem_of_In|]. by rewrite He.
Qed.

(** Three callbacks: the first registers another one, the second throws. *)
Definition sample_exec (cb : nat) (s : SignalHandler nat) : cb_end * SignalHandler nat :=
  match cb with
  | 1%nat => (CbReturn, on_shutdown (Some 4%nat) s)
  | 2%nat => (CbStdException, s)
  | _ => (CbReturn, s)
  end.

Definition sample_ops : list (signal_op nat) :=
  [OnShutdown (Some 1%nat); Start; OnShutdown (Some 2%nat); OnShutdown None;
   OnShutdown (Some 3%nat)].

Lemma signal_shutdown_order_witness :
  exists s', run_ops sample_exec sample_ops SignalHandler0 = Some s' /\
    Forall plain_op sample_ops /\
    (invoke_shutdown sample_exec s').1.1.*1 = [Some 1%nat; Some 2%nat; None; Some 3%nat].
Proof.
  eexists. split; [reflexivity|]. split; [by repeat constructor|].
  pose proof (signal_shutdown_order sample_exec sample_ops SignalHandler0 _
    ltac:(by repeat constructor) eq_refl) as (_ & _ & H & _).
  exact H.
Defined.

(** No signal leads to a shutdown.  After [start] the arrival of SIGINT, SIGTERM or
    SIGHUP changes nothing, where it would have ended the process before; the function
    given to [on_signal] is never kept; and as long as neither a thread nor a callback
    calls [request_shutdown], whatever else is called and whatever signals arrive,
    [wait_for_shutdown] does not return. *)
Theorem signal_never_shuts_down {CB}
    (exec : CB -> SignalHandler CB -> cb_end * SignalHandler CB)
    (turns : list (list (signal_op CB))) (s : SignalHandler CB) :
  (forall cb s, shutdown_requested_ s = false -> shutdown_requested_ (snd (exec cb s)) = false) ->
  Forall (Forall quiet_op) turns -> shutdown_requested_ s = false ->
  wait_for_shutdown exec turns s = None /\
  forall sig, sig ∈ [SIG_INT; SIG_TERM; SIG_HUP] ->
    run_ops exec [Arrives sig] SignalHandler0 = None /\
    forall cb cb', run_ops exec [OnSignal sig cb; Start; Arrives sig; OnShutdown cb'] s =
                   Some (on_shutdown cb' (start s)).
Proof.
  intros Hq Ht Hs. split.
  - revert s Hs. induction Ht as [|t turns Ho _ IH]; intros s Hs; cbn; rewrite Hs; [done|].
    destruct (run_ops exec t s) as [s1|] eqn:E; cbn; [|done]. apply IH.
    by eapply run_ops_quiet.
  - intros sig Hsig. split; [done|]. intros cb cb'. cbn. unfold deliver, start, sigaction. cbn.
    set_unfold in Hsig. by destruct Hsig as [->|[->|[->|[]]]].
Qed.

Lemma signal_never_shuts_down_witness :
  wait_for_shutdown sample_exec [sample_ops; [Arrives SIG_INT; InvokeShutdown]; [Arrives SIG_TERM]]
    SignalHandler0 = None.
Proof.
  apply (signal_never_shuts_down sample_exec).
  - intros [|[|[|]]] s Hs; exact Hs.
  - by repeat constructor.
  - reflexivity.
Defined.
