(* ===== verification/Database.v ===== *)
(** * Database (db/connection_pool.h, connection_pool.cpp, query_task.h)

    The pool of connections, statements and query tasks.  SQLite is a parameter (its
    four functions and the state [W] of the files they work on), and so is the switch
    [USE_SQLITE] of the build.  A [shared_ptr<DBConnection>] is the object it points to;
    the last one that goes away closes the connection. *)

From S2P Require Import Prelude.

Open Scope Z_scope.

Inductive DBType := MYSQL | SQLITE.

#[global] Instance DBType_eq_dec : EqDecision DBType.
Proof. solve_decision. Defined.

Record DBResult := {
  success : bool;
  affected_rows : Z;
  insert_id : Z;
  error_msg : string;
  rows : list (list string);
  cols : list string;
}.

Definition DBResult0 : DBResult :=
  {| success := false; affected_rows := 0; insert_id := 0; error_msg := ""; rows := []; cols := [] |}.

(** ** SQLite

    [sqlite3_exec] hands the callback one row at a time (its values, NULL as [None], and
    the names of its columns when there are any) and returns [None] for [SQLITE_OK] or
    an error with the text it allocated, if any. *)

Definition sql_row : Type := list (option string) * option (list string).

Class Sqlite (W : Type) := {
  sqlite3_open : string -> W -> bool * Z * W;
  sqlite3_errmsg : Z -> W -> string;
  sqlite3_exec : Z -> string -> W -> list sql_row * option (option string) * W;
  sqlite3_close : Z -> W -> W;
}.

(** A pooled connection: the object and its handle. *)
Record SQLiteConnection := { conn_id : nat; db_ : Z }.

#[global] Instance SQLiteConnection_eq_dec : EqDecision SQLiteConnection.
Proof. solve_decision. Defined.

Section pool.
Context {W CB : Type} `{Sqlite W} (use_sqlite : bool).

(** [held] are the connections callers still hold, [handed] all that ever left the free
    list, [jobs] what was pushed to the thread pool and has not run, [calls] the
    callbacks called. *)
Record ConnectionPool := {
  type_ : DBType;
  pool_ : list SQLiteConnection;
  free_list_ : list SQLiteConnection;
  done_ : bool;
  sqlite_path : string;
  mysql_params : string * Z * string * string * string;
  initialized_ : bool;
  thread_pool_ : bool;
  next_conn : nat;
  held : list SQLiteConnection;
  handed : list SQLiteConnection;
  jobs : list (string * option CB);
  calls : list (CB * DBResult);
  world : W;
}.

Definition ConnectionPool0 (w : W) : ConnectionPool :=
  {| type_ := SQLITE; pool_ := []; free_list_ := []; done_ := false; sqlite_path := "";
     mysql_params := ("", 3306, "", "", "")%string; initialized_ := false;
     thread_pool_ := false; next_conn := 0; held := []; handed := []; jobs := [];
     calls := []; world := w |}.

Definition set_lists (p f h hd : list SQLiteConnection) (s : ConnectionPool) : ConnectionPool :=
  {| type_ := type_ s; pool_ := p; free_list_ := f; done_ := done_ s;
     sqlite_path := sqlite_path s; mysql_params := mysql_params s;
     initialized_ := initialized_ s; thread_pool_ := thread_pool_ s;
     next_conn := next_conn s; held := h; handed := hd; jobs := jobs s; calls := calls s;
     world := world s |}.

Definition set_world (w : W) (s : ConnectionPool) : ConnectionPool :=
  {| type_ := type_ s; pool_ := pool_ s; free_list_ := free_list_ s; done_ := done_ s;
     sqlite_path := sqlite_path s; mysql_params := mysql_params s;
     initialized_ := initialized_ s; thread_pool_ := thread_pool_ s;
     next_conn := next_conn s; held := held s; handed := handed s; jobs := jobs s;
     calls := calls s; world := w |}.

Definition set_calls (js : list (string * option CB)) (cs : list (CB * DBResult))
    (s : ConnectionPool) : ConnectionPool :=
  {| type_ := type_ s; pool_ := pool_ s; free_list_ := free_list_ s; done_ := done_ s;
     sqlite_path := sqlite_path s; mysql_params := mysql_params s;
     initialized_ := initialized_ s; thread_pool_ := thread_pool_ s;
     next_conn := next_conn s; held := held s; handed := handed s; jobs := js;
     calls := cs; world := world s |}.

Definition set_thread_pool (tp : bool) (s : ConnectionPool) : ConnectionPool :=
  {| type_ := type_ s; pool_ := pool_ s; free_list_ := free_list_ s; done_ := done_ s;
     sqlite_path := sqlite_path s; mysql_params := mysql_params s;
     initialized_ := initialized_ s; thread_pool_ := tp; next_conn := next_conn s;
     held := held s; handed := handed s; jobs := jobs s; calls := calls s;
     world := world s |}.

Definition init_mysql (host : string) (port : Z) (user password db : string)
    (s : ConnectionPool) : bool * ConnectionPool :=
  (true,
   {| type_ := MYSQL; pool_ := pool_ s; free_list_ := free_list_ s; done_ := done_ s;
      sqlite_path := sqlite_path s; mysql_params := (host, port, user, password, db);
      initialized_ := true; thread_pool_ := thread_pool_ s; next_conn := next_conn s;
      held := held s; handed := handed s; jobs := jobs s; calls := calls s;
      world := world s |}).

(** One turn of the loop of [init_sqlite]; the object of a connection that could not be
    opened is destroyed at the end of the turn, which closes its handle. *)
Definition open_conn (path : string) (s : ConnectionPool) : ConnectionPool :=
  let '(ok, db, w) := sqlite3_open path (world s) in
  let conn := {| conn_id := next_conn s; db_ := db |} in
  {| type_ := type_ s;
     pool_ := if ok then pool_ s ++ [conn] else pool_ s;
     free_list_ := if ok then free_list_ s ++ [conn] else free_list_ s;
     done_ := done_ s; sqlite_path := sqlite_path s; mysql_params := mysql_params s;
     initialized_ := initialized_ s; thread_pool_ := thread_pool_ s;
     next_conn := S (next_conn s); held := held s; handed := handed s; jobs := jobs s;
     calls := calls s; world := if ok then w else sqlite3_close db w |}.

Definition init_sqlite (db_path : string) (pool_size : Z) (s : ConnectionPool)
    : bool * ConnectionPool :=
  let s1 := {| type_ := SQLITE; pool_ := pool_ s; free_list_ := free_list_ s;
               done_ := done_ s; sqlite_path := db_path; mysql_params := mysql_params s;
               initialized_ := initialized_ s; thread_pool_ := thread_pool_ s;
               next_conn := next_conn s; held := held s; handed := handed s;
               jobs := jobs s; calls := calls s; world := world s |} in
  let s2 := if use_sqlite then Nat.iter (Z.to_nat pool_size) (open_conn db_path) s1 else s1 in
  (true,
   {| type_ := type_ s2; pool_ := pool_ s2; free_list_ := free_list_ s2; done_ := done_ s2;
      sqlite_path := sqlite_path s2; mysql_params := mysql_params s2; initialized_ := true;
      thread_pool_ := thread_pool_ s2; next_conn := next_conn s2; held := held s2;
      handed := handed s2; jobs := jobs s2; calls := calls s2; world := world s2 |}).

(** The destructor of a connection. *)
Definition close_handles (l : list SQLiteConnection) (w : W) : W :=
  foldl (fun w c => sqlite3_close (db_ c) w) w l.

Definition close (s : ConnectionPool) : ConnectionPool :=
  {| type_ := type_ s; pool_ := []; free_list_ := []; done_ := true;
     sqlite_path := sqlite_path s; mysql_params := mysql_params s; initialized_ := false;
     thread_pool_ := thread_pool_ s; next_conn := next_conn s; held := held s;
     handed := handed s; jobs := jobs s; calls := calls s;
     world := close_handles (filter (fun c => ~ c ∈ held s) (pool_ s)) (world s) |}.

Definition get_connection (s : ConnectionPool) : option SQLiteConnection * ConnectionPool :=
  match free_list_ s with
  | [] => (None, s)
  | c :: l => (Some c, set_lists (pool_ s) l (held s ++ [c]) (handed s ++ [c]) s)
  end.

(** A caller lets go of a connection it got. *)
Definition release (c : SQLiteConnection) (s : ConnectionPool) : ConnectionPool :=
  let h := filter (fun x => x <> c) (held s) in
  let s' := set_lists (pool_ s) (free_list_ s) h (handed s) s in
  if decide (c ∈ held s /\ ~ c ∈ pool_ s)
  then set_world (sqlite3_close (db_ c) (world s)) s' else s'.

(** ** Statements *)

(** The text of a row, NULL as the empty string, and the names of its columns. *)
Definition row_text (r : sql_row) : list string := default EmptyString <$> r.1.
Definition row_names (r : sql_row) : option (list string) := take (length r.1) <$> r.2.

(** The callback of [sqlite3_exec] in [execute_sql]: NULL values become empty strings, the
    names of the columns are taken with the first row that has any. *)
Definition on_row (res : DBResult) (r : sql_row) : DBResult :=
  {| success := success res; affected_rows := affected_rows res; insert_id := insert_id res;
     error_msg := error_msg res; rows := rows res ++ [row_text r];
     cols := match cols res, row_names r with
             | [], Some names => names
             | cs, _ => cs
             end |}.

Definition set_error (ok : bool) (err : option string) (res : DBResult) : DBResult :=
  {| success := ok; affected_rows := affected_rows res; insert_id := insert_id res;
     error_msg := default (error_msg res) err; rows := rows res; cols := cols res |}.

(** [SQLiteConnection::execute], for callers that hold a connection: the rows are added to
    those of [out], without the names of the columns. *)
Definition add_row (res : DBResult) (r : sql_row) : DBResult :=
  {| success := success res; affected_rows := affected_rows res; insert_id := insert_id res;
     error_msg := error_msg res; rows := rows res ++ [row_text r]; cols := cols res |}.

Definition conn_execute (c : SQLiteConnection) (sql : string) (out : DBResult) (s : ConnectionPool)
    : bool * DBResult * ConnectionPool :=
  let '(rs, rc, w) := sqlite3_exec (db_ c) sql (world s) in
  let res := foldl add_row out rs in
  match rc with
  | None => (true, set_error true None res, set_world w s)
  | Some e => (false, set_error false e res, set_world w s)
  end.

Definition conn_error (c : SQLiteConnection) (s : ConnectionPool) : string :=
  sqlite3_errmsg (db_ c) (world s).

(** The connection taken off the free list is dropped unused. *)
Definition take_and_drop (s : ConnectionPool) : ConnectionPool :=
  let '(raw, s1) := get_connection s in
  match raw with Some c => release c s1 | None => s1 end.

Definition execute_sql (sql : string) (s : ConnectionPool) : DBResult * ConnectionPool :=
  if use_sqlite && bool_decide (type_ s = SQLITE) then
    let s1 := take_and_drop s in
    let '(ok, db, w) := sqlite3_open (sqlite_path s1) (world s1) in
    if ok then
      let '(rs, rc, w1) := sqlite3_exec db sql w in
      let res := foldl on_row DBResult0 rs in
      let res' := match rc with None => set_error true None res | Some e => set_error false e res end in
      (res', set_world (sqlite3_close db w1) s1)
    else (set_error false (Some (sqlite3_errmsg db w)) DBResult0,
          set_world (sqlite3_close db w) s1)
  else (set_error true None DBResult0, s).

(** The call of a callback, unless it is empty. *)
Definition call_back (cb : option CB) (r : DBResult) (s : ConnectionPool) : ConnectionPool :=
  match cb with Some c => set_calls (jobs s) (calls s ++ [(c, r)]) s | None => s end.

(** Without a thread pool the statement is executed at once; with one it is queued. *)
Definition execute_sql_async (sql : string) (cb : option CB) (s : ConnectionPool) : ConnectionPool :=
  if thread_pool_ s then set_calls (jobs s ++ [(sql, cb)]) (calls s) s
  else let '(r, s1) := execute_sql sql s in call_back cb r s1.

(** A worker of the thread pool takes the oldest job. *)
Definition run_job (s : ConnectionPool) : ConnectionPool :=
  match jobs s with
  | [] => s
  | (sql, cb) :: js =>
      let '(r, s1) := execute_sql sql (set_calls js (calls s) s) in call_back cb r s1
  end.

Record QueryTask := { sql_ : string; cb_ : option CB }.

Definition run (q : QueryTask) (s : ConnectionPool) : ConnectionPool :=
  let '(r, s1) := execute_sql (sql_ q) s in call_back (cb_ q) r s1.

Definition run_async (q : QueryTask) (s : ConnectionPool) : ConnectionPool :=
  execute_sql_async (sql_ q) (cb_ q) s.

(** ** Sequences of operations *)

Inductive db_op :=
| InitMysql (host : string) (port : Z) (user password db : string)
| InitSqlite (path : string) (pool_size : Z)
| Close
| SetThreadPool (tp : bool)
| GetConnection
| Release (c : SQLiteConnection)
| ConnExecute (c : SQLiteConnection) (sql : string) (out : DBResult)
| Execute (sql : string)
| Run (q : QueryTask)
| RunAsync (q : QueryTask)
| RunJob.

Definition run_op (o : db_op) (s : ConnectionPool) : ConnectionPool :=
  match o with
  | InitMysql host port user password db => snd (init_mysql host port user password db s)
  | InitSqlite path n => snd (init_sqlite path n s)
  | Close => close s
  | SetThreadPool tp => set_thread_pool tp s
  | GetConnection => snd (get_connection s)
  | Release c => release c s
  | ConnExecute c sql out => snd (conn_execute c sql out s)
  | Execute sql => snd (execute_sql sql s)
  | Run q => run q s
  | RunAsync q => run_async q s
  | RunJob => run_job s
  end.

Definition run_ops (os : list db_op) (s : ConnectionPool) : ConnectionPool :=
  foldl (fun s o => run_op o s) s os.
End pool.

Arguments ConnectionPool : clear implicits.
Arguments QueryTask : clear implicits.
Arguments db_op : clear implicits.

(** ** Lemmas *)

Section lemmas.
Context {W CB : Type} `{Sqlite W} (use_sqlite : bool).
Implicit Types s : ConnectionPool W CB.

(** What taking a connection does to the lists. *)
Definition takes (k : nat) (s s' : ConnectionPool W CB) : Prop :=
  free_list_ s' = drop k (free_list_ s) /\ handed s' = handed s ++ take k (free_list_ s) /\
  pool_ s' = pool_ s /\ next_conn s' = next_conn s /\ type_ s' = type_ s.

Lemma takes_same s s' :
  free_list_ s' = free_list_ s -> handed s' = handed s -> pool_ s' = pool_ s ->
  next_conn s' = next_conn s -> type_ s' = type_ s -> takes 0 s s'.
Proof. unfold takes. intros. by rewrite drop_0, take_0, app_nil_r. Qed.

Lemma get_connection_takes s : takes 1 s (snd (get_connection s)).
Proof.
  unfold get_connection, takes. destruct (free_list_ s) as [|c l] eqn:E; cbn.
  - by rewrite E, app_nil_r.
  - by rewrite drop_0, take_0.
Qed.

Lemma release_takes c s : takes 0 s (release c s).
Proof. unfold release. case_decide; by apply takes_same. Qed.

Lemma takes_trans k1 k2 s1 s2 s3 : takes k1 s1 s2 -> takes k2 s2 s3 -> takes (k1 + k2) s1 s3.
Proof.
  unfold takes. intros (F1 & H1 & -> & -> & ->) (-> & -> & -> & -> & ->).
  rewrite F1, H1, drop_drop, <-app_assoc. split_and!; try done. f_equal.
  by rewrite take_take_drop.
Qed.

Lemma conn_execute_takes c sql out s : takes 0 s (snd (conn_execute c sql out s)).
Proof.
  unfold conn_execute. destruct (sqlite3_exec _ _ _) as [[rs [e|]] w]; by apply takes_same.
Qed.

Lemma take_and_drop_takes s : takes 1 s (take_and_drop s).
Proof.
  unfold take_and_drop. pose proof (get_connection_takes s) as H1.
  destruct (get_connection s) as [[c|] s1]; [|done].
  apply (takes_trans 1 0 _ _ _ H1), release_takes.
Qed.

Definition taken_by_sql s : nat :=
  if use_sqlite && bool_decide (type_ s = SQLITE) then 1 else 0.

Lemma execute_sql_takes sql s : takes (taken_by_sql s) s (snd (execute_sql use_sqlite sql s)).
Proof.
  unfold execute_sql, taken_by_sql. destruct (_ && _); [|by apply takes_same].
  pose proof (take_and_drop_takes s) as H1.
  destruct (sqlite3_open _ _) as [[[] db] w]; [|exact H1].
  by destruct (sqlite3_exec _ _ _) as [[rs rc] w1].
Qed.

Lemma call_back_takes cb r s : takes 0 s (call_back cb r s).
Proof. destruct cb; by apply takes_same. Qed.

Lemma run_takes q s : takes (taken_by_sql s) s (run use_sqlite q s).
Proof.
  unfold run. pose proof (execute_sql_takes (sql_ q) s) as H1.
  destruct (execute_sql _ _ _) as [r s1]. rewrite <-(Nat.add_0_r (taken_by_sql s)).
  apply (takes_trans _ _ _ _ _ H1), call_back_takes.
Qed.

Lemma run_async_takes q s :
  takes (if thread_pool_ s then 0 else taken_by_sql s) s (run_async use_sqlite q s).
Proof.
  unfold run_async, execute_sql_async. destruct (thread_pool_ s); [by apply takes_same|].
  apply run_takes.
Qed.

Lemma run_job_takes s :
  takes (match jobs s with [] => 0 | _ => taken_by_sql s end) s (run_job use_sqlite s).
Proof.
  unfold run_job. destruct (jobs s) as [|[sql cb] js]; [by apply takes_same|].
  exact (run_takes {| sql_ := sql; cb_ := cb |} (set_calls js (calls s) s)).
Qed.

(** The number of connections an operation takes off the free list. *)
Definition taking (o : db_op CB) s : nat :=
  match o with
  | GetConnection => 1
  | Execute _ | Run _ => taken_by_sql s
  | RunAsync _ => if thread_pool_ s then 0 else taken_by_sql s
  | RunJob => match jobs s with [] => 0 | _ => taken_by_sql s end
  | _ => 0
  end.

Definition not_init (o : db_op CB) : Prop :=
  match o with InitMysql _ _ _ _ _ | InitSqlite _ _ => False | _ => True end.

Lemma run_op_takes o s :
  not_init o -> o <> Close -> takes (taking o s) s (run_op use_sqlite o s).
Proof.
  intros Ho Hc. destruct o; try done; cbn [run_op taking].
  - by apply takes_same.
  - apply get_connection_takes.
  - apply release_takes.
  - apply conn_execute_takes.
  - apply execute_sql_takes.
  - apply run_takes.
  - apply run_async_takes.
  - apply run_job_takes.
Qed.

(** ** The invariant of the lists *)

Record pool_wf s : Prop := {
  wf_nodup : NoDup (handed s ++ free_list_ s);
  wf_pool : free_list_ s ⊆ pool_ s;
  wf_ids : Forall (fun c => (conn_id c < next_conn s)%nat) (handed s ++ free_list_ s);
}.

Lemma takes_wf k s s' : takes k s s' -> pool_wf s -> pool_wf s'.
Proof.
  intros (Hf & Hh & Hp & Hn & _) [H1 H2 H3].
  assert (handed s' ++ free_list_ s' = handed s ++ free_list_ s) as E
    by by rewrite Hf, Hh, <-app_assoc, take_drop.
  split; rewrite ?E, ?Hn, ?Hp; try done.
  intros c Hc. apply H2. rewrite <-(take_drop k (free_list_ s)), <-Hf. set_solver.
Qed.

Lemma open_conn_wf path s : pool_wf s -> pool_wf (open_conn path s).
Proof.
  intros [H1 H2 H3]. unfold open_conn. destruct (sqlite3_open path (world s)) as [[ok db] w].
  assert (Forall (fun c => (conn_id c < S (next_conn s))%nat) (handed s ++ free_list_ s)) as H4
    by (eapply list.Forall_impl; [done|]; cbn; lia).
  destruct ok; split; cbn; try done.
  - rewrite app_assoc. apply NoDup_app. split_and!; [done| |apply NoDup_singleton].
    intros c Hc ->%list_elem_of_singleton. rewrite list.Forall_forall in H3.
    specialize (H3 _ Hc). cbn in H3. lia.
  - set_solver.
  - rewrite app_assoc. apply list.Forall_app. split; [done|]. by repeat constructor.
Qed.

Lemma db_run_op_wf o s : pool_wf s -> pool_wf (run_op use_sqlite o s).
Proof.
  intros Hs. destruct o as [| path n | | | | | | | | |];
    try (eapply takes_wf; [by apply run_op_takes|done]); destruct Hs as [H1 H2 H3].
  - done.
  - cbn. unfold init_sqlite. destruct use_sqlite; [|done].
    match goal with |- context [Nat.iter ?k ?f ?x] =>
      assert (pool_wf (Nat.iter k f x)) as [] end; [|done].
    apply Nat.iter_invariant; [|done]. intros x. apply open_conn_wf.
  - apply NoDup_app in H1 as (H1 & _ & _). apply list.Forall_app in H3 as [H3 _].
    split; cbn; rewrite ?app_nil_r; done.
Qed.

Lemma db_run_ops_wf os w : pool_wf (run_ops use_sqlite os (ConnectionPool0 (CB:=CB) w)).
Proof.
  assert (pool_wf (ConnectionPool0 (CB:=CB) w)) as Hs by (split; cbn; [constructor|done|constructor]).
  unfold run_ops. generalize dependent (ConnectionPool0 (CB:=CB) w).
  induction os as [|o os IH]; intros s Hs; [done|]. apply IH, db_run_op_wf, Hs.
Qed.
End lemmas.

Section used_up.
Context {W CB : Type} `{Sqlite W} (use_sqlite : bool).
Implicit Types s : ConnectionPool W CB.

(** The connections that a sequence of operations asks for before the pool is closed. *)
Fixpoint taken_by (os : list (db_op CB)) (s : ConnectionPool W CB) : nat :=
  match os with
  | [] | Close :: _ => 0
  | o :: os' => taking use_sqlite o s + taken_by os' (run_op use_sqlite o s)
  end.

Fixpoint closes (os : list (db_op CB)) : bool :=
  match os with
  | [] => false
  | Close :: _ => true
  | _ :: os' => closes os'
  end.

Lemma takes_nil k s s' : free_list_ s = [] -> takes k s s' -> free_list_ s' = [] /\ handed s' = handed s.
Proof. intros E (-> & -> & _). by rewrite E, drop_nil, take_nil, app_nil_r. Qed.

(** Without an initialisation an empty free list stays empty. *)
Lemma run_ops_empty os s :
  Forall not_init os -> free_list_ s = [] ->
  free_list_ (run_ops use_sqlite os s) = [] /\ handed (run_ops use_sqlite os s) = handed s.
Proof.
  intros Ho. revert s. induction Ho as [|o os Ho _ IH]; intros s E; [done|].
  assert (free_list_ (run_op use_sqlite o s) = [] /\ handed (run_op use_sqlite o s) = handed s)
    as [E1 E2].
  { destruct o; try (by eapply takes_nil, run_op_takes); done. }
  destruct (IH _ E1) as [F1 F2]. unfold run_ops in *. cbn [foldl]. by rewrite F1, F2.
Qed.

Lemma run_ops_takes os s :
  Forall not_init os ->
  let s' := run_ops use_sqlite os s in
  free_list_ s' = (if closes os then [] else drop (taken_by os s) (free_list_ s)) /\
  handed s' = handed s ++ take (taken_by os s) (free_list_ s).
Proof.
  intros Ho. revert s. induction Ho as [|o os Ho Hos IH]; intros s.
  { cbn. by rewrite drop_0, take_0, app_nil_r. }
  assert (o = Close \/ o <> Close /\ closes (o :: os) = closes os /\
    taken_by (o :: os) s = (taking use_sqlite o s + taken_by os (run_op use_sqlite o s))%nat)
    as [->|(Hc & E1 & E2)] by (destruct o; first [by left|by right]).
  - cbn [closes taken_by]. rewrite take_0, app_nil_r. by apply (run_ops_empty os (close s)).
  - rewrite E1, E2. cbv zeta. change (run_ops use_sqlite (o :: os) s)
      with (run_ops use_sqlite os (run_op use_sqlite o s)).
    destruct (IH (run_op use_sqlite o s)) as [F H1]. rewrite F, H1.
    destruct (run_op_takes use_sqlite o s Ho Hc) as (-> & -> & _).
    by rewrite drop_drop, <-app_assoc, take_take_drop.
Qed.
End used_up.

(** ** Connections are never given back *)

(** C39: No connection of the pool is handed out twice, whatever the callers release: the
    free list holds only connections of the pool that never left it.  Between two
    initialisations it only shrinks, and exactly so: every [get_connection] and every
    statement executed on SQLite, which drops the connection unused, takes the oldest
    connection, one as long as there is one, and nothing else takes any or gives one back;
    [close] empties the list.  So the next [get_connection] returns the connection whose
    place in the list is the number of those calls, and once there were as many as the
    list had, or after [close], none. *)
Theorem db_connections_used_up {W CB} `{Sqlite W} (use_sqlite : bool)
    (os os' : list (db_op CB)) (w : W) :
  let s := run_ops use_sqlite os (ConnectionPool0 w) in
  let s' := run_ops use_sqlite os' s in
  let k := taken_by use_sqlite os' s in
  Forall not_init os' ->
  NoDup (handed s' ++ free_list_ s') /\ free_list_ s' ⊆ pool_ s' /\
  handed s' = handed s ++ take k (free_list_ s) /\
  free_list_ s' = (if closes os' then [] else drop k (free_list_ s)) /\
  fst (get_connection s') = (if closes os' then None else free_list_ s !! k) /\
  ((length (free_list_ s) <= k)%nat -> fst (get_connection s') = None).
Proof.
  intros s s' k Ho.
  assert (s' = run_ops use_sqlite (os ++ os') (ConnectionPool0 w)) as E
    by (unfold s', s, run_ops; by rewrite foldl_app).
  destruct (db_run_ops_wf use_sqlite (os ++ os') w) as [H1 H2 _]. rewrite <-E in H1, H2.
  destruct (run_ops_takes use_sqlite os' s Ho) as [Ef Eh]. fold s' k in Ef, Eh.
  assert (fst (get_connection s') = if closes os' then None else free_list_ s !! k) as Eg.
  { unfold get_connection. rewrite Ef. destruct (closes os'); [done|].
    pose proof (lookup_drop (free_list_ s) k 0) as El. rewrite Nat.add_0_r in El.
    rewrite <-El. by destruct (drop k (free_list_ s)). }
  split_and!; [done..|]. intros Hl. rewrite Eg. destruct (closes os'); [done|].
  by apply lookup_ge_None_2.
Qed.

(** A database that opens every file and gives one row for every statement. *)
#[global] Instance sample_sqlite : Sqlite nat := {
  sqlite3_open path w := (true, Z.of_nat w, S w);
  sqlite3_errmsg _ _ := "error"%string;
  sqlite3_exec db sql w :=
    ([([Some "1"; None], Some ["a"; "b"])]%string,
     if String.eqb sql "bad" then Some None else None, w);
  sqlite3_close _ w := w;
}.

Definition sample_ops : list (db_op unit) :=
  [GetConnection; Execute "x"; Release {| conn_id := 0; db_ := 0 |}].

Lemma db_connections_used_up_witness :
  Forall not_init sample_ops /\
  fst (get_connection (run_ops true sample_ops
         (run_ops true [InitSqlite "db" 2] (ConnectionPool0 0%nat)))) = None.
Proof.
  split; [by repeat constructor|].
  apply (db_connections_used_up true [InitSqlite "db" 2] sample_ops 0%nat).
  - by repeat constructor.
  - apply Nat.leb_le. vm_compute. reflexivity.
Defined.

(** ** The result of a statement *)

Section execute.
Context {W CB : Type} `{Sqlite W}.

(** The first list that is not empty, and [[]] when there is none. *)
Definition first_nonempty {A} (ls : list (list A)) : list A :=
  default [] (head (filter (fun l => l <> []) ls)).

Lemma first_nonempty_nil {A} (ls : list (list A)) : first_nonempty ([] :: ls) = first_nonempty ls.
Proof. unfold first_nonempty. by rewrite filter_cons_False by auto. Qed.
Lemma first_nonempty_cons {A} (x : A) l ls : first_nonempty ((x :: l) :: ls) = x :: l.
Proof. unfold first_nonempty. by rewrite filter_cons_True by done. Qed.

Lemma foldl_on_row rs res :
  let res' := foldl on_row res rs in
  rows res' = rows res ++ (row_text <$> rs) /\
  cols res' = first_nonempty (cols res :: omap row_names rs) /\
  success res' = success res /\ affected_rows res' = affected_rows res /\
  insert_id res' = insert_id res /\ error_msg res' = error_msg res.
Proof.
  revert res. induction rs as [|r rs IH]; intros res; cbn [foldl].
  - cbn [fmap list_fmap omap list_omap]. rewrite app_nil_r. split_and!; try done.
    destruct (cols res); [by rewrite first_nonempty_nil|by rewrite first_nonempty_cons].
  - destruct (IH (on_row res r)) as (-> & -> & -> & -> & -> & ->).
    cbn [fmap list_fmap omap list_omap on_row rows cols success affected_rows insert_id error_msg].
    rewrite <-app_assoc. split_and!; try done.
    destruct (cols res) as [|c cs]; destruct (row_names r) as [ns|];
      rewrite ?first_nonempty_nil, ?first_nonempty_cons; done.
Qed.
End execute.

(** On a SQLite pool of a build with SQLite, [execute_sql] opens the file of the pool,
    runs the statement and closes it again: the result has a row for every row of the
    database, with NULL as the empty string, the names of the columns from the first row
    that has any, and succeeds exactly when the database says so; a file that cannot be
    opened is an error with its text.  On any other pool every statement succeeds with
    no row and nothing happens, also before any initialisation and after [close]. *)
Theorem db_execute_sql {W CB} `{Sqlite W} (use_sqlite : bool) (sql : string)
    (s : ConnectionPool W CB) :
  let '(res, s') := execute_sql use_sqlite sql s in
  if use_sqlite && bool_decide (type_ s = SQLITE) then
    let '(ok, db, w) := sqlite3_open (sqlite_path s) (world (take_and_drop s)) in
    if ok then
      let '(rs, rc, w1) := sqlite3_exec db sql w in
      rows res = row_text <$> rs /\
      cols res = first_nonempty (omap row_names rs) /\
      (success res = true <-> rc = None) /\
      error_msg res = default EmptyString (mjoin rc) /\
      world s' = sqlite3_close db w1
    else rows res = [] /\ success res = false /\ error_msg res = sqlite3_errmsg db w /\
         world s' = sqlite3_close db w
  else s' = s /\ success res = true /\ rows res = [] /\ cols res = [] /\ error_msg res = EmptyString.
Proof.
  unfold execute_sql. destruct (_ && _); [|done].
  assert (sqlite_path (take_and_drop s) = sqlite_path s) as ->.
  { unfold take_and_drop, get_connection, release. destruct (free_list_ s); [done|].
    by case_decide. }
  destruct (sqlite3_open _ _) as [[[] db] w]; [|done].
  destruct (sqlite3_exec db sql w) as [[rs rc] w1].
  destruct (foldl_on_row rs DBResult0) as (Hr & Hc & _ & _ & _ & He).
  destruct rc as [e|]; cbn [set_error set_world rows cols success error_msg world];
    rewrite Hr, Hc, He; cbn [DBResult0 cols rows]; rewrite first_nonempty_nil;
    split_and!; try done; by destruct e.
Qed.

(** [execute_sql_async] without a thread pool is [QueryTask::run]; with one the result
    is what the statement gives when the job runs. *)
Lemma run_async_run {W CB} `{Sqlite W} (use_sqlite : bool) (q : QueryTask CB)
    (s : ConnectionPool W CB) :
  (thread_pool_ s = false -> run_async use_sqlite q s = run use_sqlite q s) /\
  (thread_pool_ s = true -> jobs s = [] ->
   run_job use_sqlite (run_async use_sqlite q s) = run use_sqlite q s).
Proof.
  unfold run_async, execute_sql_async, run. split; intros ->; [done|].
  destruct q as [sql cb]. cbn. intros E. unfold run_job. cbn. rewrite E. cbn. unfold set_calls. cbn.
  rewrite <-E. by destruct s.
Qed.
